(* ===== verification/_CoqProject ===== *)
-Q . S2P
Prelude.v
Modes.v
World.v
Sim.v
Defaults.v
Module.v
Transport.v
Config.v
HostKey.v
Auth.v
Connect.v
Channel.v
Info.v
Session.v
Gate.v
Sftp.v
Transfer.v
Term.v
Server.v
Poll.v
PollProof.v
PollFrame.v
Client.v
Life.v
PollStages.v
PollSpec.v
PollTheorems.v
PollTerm.v
Custody.v
PollLive.v
