(* ===== verification/Prelude.v ===== *)
(** * The SSH2 module of Qore, modelled and verified

    This development models the C++ core of the module: the SSH client object with its
    host key verification, authentication and connect (src/src/SSH2Client.h, SSH2Client.cpp),
    its channels and listeners (SSH2Channel.h, SSH2Channel.cpp, SSH2Listener.cpp), the SFTP
    client (SFTPClient.h, SFTPClient.cpp), the non-blocking retrieval of a file
    (SftpPollOperation.h, SftpPollOperation.cpp), the loading of the module and the
    process-wide defaults (ssh2-module.cpp).  Definitions carry the names of the functions they translate; where one
    C++ method hides another, or two overloads exist, the name of the class or of the case is
    added ([SFTPClient_disconnectUnlocked], [read_size], [poll_abort]).

    ** How the code is modelled

    A function of the module is a computation [prog S A]: explicit state, a result, and [None]
    for an execution whose loops have used up their fuel, which stands for one that is still
    running and never for an error.  Errors are what they are in the code: return values and
    the exceptions raised in the sink ([xsink], newest first).  The state [st] of World.v holds
    the client object (one record for the fields of SSH2Client and SFTPClient), the channel and
    listener objects with their registries, the handle of the [QSftpHelper] in use, the
    exception sink, and the log of all requests.

    What is not under src/ - libssh2, QoreSocket, the sandbox, files, streams, the operating
    system, and Qore code that is called back - is a parameter: a request [req] for each
    function that is called, and an [Env] that answers each request from a state of its own.
    Nothing is assumed of the answers except in hypotheses: [Patience] (the answers that make
    a loop of the code ask again - EAGAIN, further entries, blocks and identities - come
    finitely often; [Budget] is the part of it that concerns waiting) for termination,
    [Offering] (a provider offers finitely many identities),
    [SftpData], [reads_within_buffer], [writes_within_buffer] and [stream_within_request]
    (libssh2 and streams move no more than they were given room for), and [Serving content pos]
    (a server that serves a file: each read returns the next bytes of [content] from the
    position [pos]), each with a concrete instance.  Theorems read the log to say what was asked
    and in which order.

    Concurrency: every public operation holds the lock of the object, so operations are
    atomic, except where the code unlocks it for a call of Qore code.  There the answer of the
    environment names operations of other threads ([client_op], Config.v), which run at that
    point.  They are the setters, disconnects and reservations.  Requests and transfers of other
    threads in such a window, and calls of [abort] or [continuePoll] from within a callback of
    the operation itself, are not interleaved: [put_uses_freed_handle] and
    [poll_reads_freed_handle] show what the first can do.  Above that, Life.v interleaves whole
    calls of a client with the steps of its poll operations and with the destructors of its
    objects, in any order.

    Widths: [size_t] results wrap at 2^64 ([size_t]), conversions to [int] at 2^31 ([as_int]),
    mode words are 64 bits, as on the platforms of the module; libssh2 results are [Z].

    Fuel: [fuel] belongs to the environment and bounds each loop separately.  The theorems of
    the form "if the call returns" hold for every fuel; [connect_terminates],
    [sftp_operation_terminates], [channel_operation_terminates] and [disconnect_terminates] show
    that one more than the budget of the environment is enough for every call to return,
    [poll_retrieves] and [retrievals_agree] that the length of the file is enough for its
    retrieval; [short_file_hangs] and [sized_read_hangs] show loops of the code for which no
    fuel is.  The life of a poll operation needs no fuel of its own: [poll_run_refines] bounds
    it by 22 changes of state, and [poll_ends] shows that with a fuel of 184 more than the budget
    every call in it returns: eight for each change of state, which pay for the attempts of a new
    plan, and eight to spare.

    ** The files, from the bottom up

    - Prelude.v: the monad, its weakest preconditions [wp], loops, preservation of a relation
      ([preserves], with the hint database of that name), record update, machine integers, strings.
    - Modes.v: permission strings and the mode word of chmod.
    - World.v: requests, environments, the state, relations between states: [grows] (the log
      only grows), [emits P] (only events in P were added), [advances f] (the data that [f] finds
      in the new events), [quiet], and termination ([Budget], [total]).
    - Sim.v: concrete environments for examples.
    - Defaults.v: the host key defaults of the process; Module.v: loading, attaching and
      unloading of the module, the tables of error codes, the registered declarations.
    - Transport.v: waiting, channel and listener registries ([registered]), disconnecting in both
      classes; the guards of [disconnect].
    - Config.v: constructors, setters, [run_other_thread], [eval_unlocked].
    - HostKey.v: the decision on a host key and what makes an acceptance sound.
    - Auth.v: [buildAuthPlan], the agent, the provider, single attempts.
    - Connect.v: the stages of a connect and the whole of it.
    - Channel.v: opening, requests, reads, writes, SCP; the interfaces [Methods] and [Registry],
      which say what a relation must allow for every operation on channels to preserve it.
    - Info.v: what a client reports of its connection and its settings, and the I/O controller's
      access to the descriptor.
    - Session.v: the interfaces [Linked], [Talk] and [Session] (requests without credentials,
      with credentials, and all that a connect makes) and [SftpSession] (code that holds an SFTP
      handle): what a relation must allow for everything that a connect, a disconnect or another
      thread does to preserve it; the functions of the layers below are shown to preserve every
      such relation once, and the layers above use the interface only.
    - Gate.v: executions in which credentials follow the acceptance of a host key ([gated]).
    - Sftp.v: [QSftpHelper], connecting, requests on paths, attributes, links, listings.
    - Transfer.v: downloads and uploads between the server and memory, files and streams.
    - Term.v: what ends ([Patience]): every loop of a connect, of the SFTP operations and of the
      channels; Server.v: a server that serves a file ([Serving]) and what a download gives.
    - Poll.v: the poll operation; PollProof.v: the abstract machine ([mark], [edge]), the
      invariant [inv], the rules; PollFrame.v: what the steps of an operation do to its client
      ([Framed]); PollStages.v: each stage follows the abstract machine;
      PollSpec.v: whole calls and whole lives ([poll_step]), the gate, the path;
      PollTheorems.v: the theorems; PollLive.v: a server on which the operation is live, and its
      agreement with the blocking retrieval; PollTerm.v: what each stage pays from
      ([spends], [life_pot]), and that the operation ends.
    - Client.v: all calls of a client as one step, and the interface [Whole] of relations they
      preserve; Life.v: references, constructors and destructors ([life_step]); Custody.v:
      credentials and reservations over such a life.

    ** What the theorems show

    - Security: over the whole life of a client, polled and used in any order, credentials are
      sent only after the host key of the session was accepted ([credentials_gated]; for one
      connect [credentials_only_after_host_key]; for one operation with other threads
      [poll_credentials_gated]); an acceptance has a reason ([host_key_acceptance_sound]), a
      refusal closes the connection ([host_key_refusal_closes]); a provider is not mixed with
      ambient identities ([plan_no_ambient_identity]); tunnels respect the sandbox.
    - Life cycle: a client is freed when nothing refers to it and not before
      ([client_freed_when_unused], [no_use_after_free]); it runs one poll operation at a time
      ([one_running_operation]); every call ends (Term.v); registries stay exact under every sequence of operations
      ([channel_api_registered], [sftp_api_registered]); a disconnect leaves nothing behind and
      ends; a connect that fails leaves no session, with the exception that the theorem states.
    - Configuration: nothing that matters to an open connection can be changed meanwhile.
    - Data: what is read is what libssh2 delivered, what is written is what was given, in order,
      once and completely, for channels, SCP, and the SFTP transfers.
    - Reports: a fingerprint determines the hash ([fingerprint_roundtrip]); a query for
      algorithms leaves no session behind ([supported_algorithms_balanced]).
    - The poll operation refines its state machine, holds exactly the resources of its state,
      reports its failures, ends ([poll_ends]), gives its client back, and delivers the file, the same as the blocking
      retrieval does ([retrievals_agree]).
    - The module can be loaded, used, unloaded and loaded again ([module_life]), and fails to load
      exactly when something it needs is missing ([module_init_outcome]).
    - Defects: where the code does not do what it means to, a theorem shows the behaviour on a
      concrete input (the sections "Defects" and "Behaviours at concrete inputs").

    ** Not modelled

    The .qpp bindings (argument conversion, input of a code generator), the Qore libraries, tests
    and documentation; the generated functions that build classes, enumerations and hash types
    (their registration is modelled); the texts of exceptions, other than those of SFTP error
    codes ([sftp_error_text]), and debug output; the statistics and warning queue of the socket,
    which are forwarded to it; the exchange of keyboard-interactive authentication, in which libssh2
    calls [kbd_callback] with the password of the call; the file status that an SCP download
    reports beside its channel ([map_ssh2_sbuf_to_hash]); a poll operation that is started or
    advanced in the middle of a call of another thread, while that call has released the lock;
    memory allocation failures and preallocation.  The code paths are those of the build with
    HAVE_LIBSSH2_AGENT_API and all key types, on a POSIX system. *)

From Stdlib Require Export Ascii String.
From stdpp Require Export base tactics numbers list strings gmap sets pretty.
From Stdlib Require Export ZArith Lia.

#[global] Open Scope Z_scope.

Declare Scope ssh2_scope.
Delimit Scope ssh2_scope with ssh2.

(** ** Record update

    [Eta] gives a record in expanded form; [Setter] derives the update of one
    field from it, so that [r <| f := v |>] computes on every [r]. *)

Class Eta (R : Type) := eta : R → R.

Class Setter {R T : Type} (proj : R → T) := set_field : (T → T) → R → R.
Arguments set_field {R T} proj {_} _ _.

Ltac derive_setter proj :=
  let f := fresh "f" in
  let r := fresh "r" in
  intros f r;
  let t := eval hnf in (eta r) in
  match eval pattern (proj r) in t with
  | ?h _ => exact (h (f (proj r)))
  end.

#[export] Hint Extern 1 (Setter ?proj) => derive_setter proj : typeclass_instances.

Notation "r <| p := v |>" := (set_field p (λ _, v) r)
  (at level 1, left associativity, format "r  <| p  :=  v |>") : ssh2_scope.

#[global] Open Scope ssh2_scope.

(** ** The monad

    [prog S A] threads a state [S].  [None] is the outcome of a loop whose fuel
    is exhausted: it stands for an execution that is still running, never for
    an error of the code (errors are values). *)

Definition prog (S A : Type) : Type := S → option (A * S).

#[export] Instance prog_ret {S} : MRet (prog S) := λ A a s, Some (a, s).

#[export] Instance prog_bind {S} : MBind (prog S) := λ A B k m s,
  match m s with
  | Some (a, s') => k a s'
  | None => None
  end.

Definition diverge {S A} : prog S A := λ _, None.

Definition get {S} : prog S S := λ s, Some (s, s).

Definition gets {S A} (f : S → A) : prog S A := λ s, Some (f s, s).

Definition modify {S} (f : S → S) : prog S unit := λ s, Some (tt, f s).

Definition when {S} (b : bool) (m : prog S unit) : prog S unit :=
  if b then m else mret tt.

(** [loop n body a] runs [body] from [a]; [inl] continues, [inr] leaves the
    loop.  It makes at most [n] iterations. *)
Fixpoint loop {S A B} (n : nat) (body : A → prog S (A + B)) (a : A) : prog S B :=
  match n with
  | O => diverge
  | S n' =>
      r ← body a;
      match r with
      | inl a' => loop n' body a'
      | inr b => mret b
      end
  end.

(** A loop over the elements of a list, in order. *)
Fixpoint for_each {S A} (l : list A) (body : A → prog S unit) : prog S unit :=
  match l with
  | [] => mret tt
  | a :: l' => _ ← body a; for_each l' body
  end.

(** ** Weakest preconditions

    [wp d m Q s]: [m] run in [s] ends in a result that satisfies [Q], or is
    still running and [d] holds.  With [d := True] this is partial correctness,
    with [d := False] total correctness. *)

Definition wp {S A} (d : Prop) (m : prog S A) (Q : A → S → Prop) (s : S) : Prop :=
  match m s with
  | Some (a, s') => Q a s'
  | None => d
  end.

(** [returns m s]: [m] run in [s] ends. *)
Definition returns {S A} (m : prog S A) (s : S) : Prop := is_Some (m s).

Section wp_rules.
Context {S : Type}.
Implicit Types (d : Prop) (s : S).

Lemma wp_mret {A} d (a : A) (Q : A → S → Prop) s : Q a s → wp d (mret a) Q s.
Proof. done. Qed.

Lemma wp_bind {A B} d (m : prog S A) (k : A → prog S B) (Q : B → S → Prop) s :
  wp d m (λ a s', wp d (k a) Q s') s → wp d (m ≫= k) Q s.
Proof. unfold wp, mbind, prog_bind. by destruct (m s) as [[]|]. Qed.

Lemma wp_bind_inv {A B} d (m : prog S A) (k : A → prog S B) (Q : B → S → Prop) s :
  wp d (m ≫= k) Q s → wp d m (λ a s', wp d (k a) Q s') s.
Proof. unfold wp, mbind, prog_bind. by destruct (m s) as [[]|]. Qed.

Lemma wp_gets {A} d (f : S → A) (Q : A → S → Prop) s : Q (f s) s → wp d (gets f) Q s.
Proof. done. Qed.

Lemma wp_get d (Q : S → S → Prop) s : Q s s → wp d get Q s.
Proof. done. Qed.

Lemma wp_modify d (f : S → S) (Q : unit → S → Prop) s : Q tt (f s) → wp d (modify f) Q s.
Proof. done. Qed.

Lemma wp_mono {A} d (m : prog S A) (Q Q' : A → S → Prop) s :
  (∀ a s', Q a s' → Q' a s') → wp d m Q s → wp d m Q' s.
Proof. unfold wp. destruct (m s) as [[]|]; eauto. Qed.

Lemma wp_and {A} (m : prog S A) (Q Q' : A → S → Prop) s :
  wp True m Q s → wp True m Q' s → wp True m (λ a s', Q a s' ∧ Q' a s') s.
Proof. unfold wp. destruct (m s) as [[]|]; eauto. Qed.

Lemma wp_split {A} d (m : prog S A) (Q : A → S → Prop) s :
  wp d m (λ _ _, True) s → wp True m Q s → wp d m Q s.
Proof. unfold wp. destruct (m s) as [[]|]; eauto. Qed.

Lemma wp_both {A} d (m : prog S A) (Q Q' : A → S → Prop) s :
  wp d m Q s → wp True m Q' s → wp d m (λ a s', Q a s' ∧ Q' a s') s.
Proof. unfold wp. destruct (m s) as [[]|]; eauto. Qed.

Lemma wp_run {A} (m : prog S A) (Q : A → S → Prop) s a s' :
  wp True m Q s → m s = Some (a, s') → Q a s'.
Proof. unfold wp. intros H E. by rewrite E in H. Qed.

Lemma wp_run_some {A} (m : prog S (option A)) (P : A → S → Prop) s a s' :
  wp True m (λ r s', ∀ a, r = Some a → P a s') s → m s = Some (Some a, s') → P a s'.
Proof. unfold wp. intros H E. rewrite E in H. by apply H. Qed.

(** To prove a fact of a finished run, follow the run. *)
Lemma wp_follow {A} (m : prog S A) s a s' (P : Prop) :
  m s = Some (a, s') → wp True m (λ a0 s0, a0 = a → s0 = s' → P) s → P.
Proof. unfold wp. intros -> H. by apply H. Qed.

Lemma wp_intro {A} (m : prog S A) (Q : A → S → Prop) s :
  (∀ a s', m s = Some (a, s') → Q a s') → wp True m Q s.
Proof. unfold wp. destruct (m s) as [[]|]; eauto. Qed.

Lemma wp_returns {A} (m : prog S A) s : wp False m (λ _ _, True) s ↔ returns m s.
Proof.
  unfold wp, returns. destruct (m s) as [[a s']|]; split; try done.
Qed.

Lemma wp_when d (b : bool) (m : prog S unit) (Q : unit → S → Prop) s :
  (b = true → wp d m Q s) → (b = false → Q tt s) → wp d (when b m) Q s.
Proof. destruct b; unfold when; intros H1 H2; [by apply H1 | by apply H2]. Qed.

(** The invariant rule: [I] holds at the head of every iteration. *)
Lemma wp_loop {A B} (I : A → S → Prop) (body : A → prog S (A + B)) (Q : B → S → Prop) :
  (∀ a s, I a s →
     wp True (body a) (λ r s', match r with inl a' => I a' s' | inr b => Q b s' end) s) →
  ∀ n a s, I a s → wp True (loop n body a) Q s.
Proof.
  intros Hb n. induction n as [|n IH]; intros a s HI; simpl; [done|].
  apply wp_bind. eapply wp_mono; [|by apply Hb].
  intros [a'|b] s'; [apply IH|done].
Qed.

(** The variant rule: [V] decreases with every iteration that continues, so a
    loop with more fuel than [V] ends. *)
Lemma wp_loop_total {A B} (I : A → S → Prop) (V : A → S → nat)
    (body : A → prog S (A + B)) (Q : B → S → Prop) :
  (∀ a s, I a s →
     wp False (body a)
       (λ r s', match r with
                | inl a' => I a' s' ∧ (V a' s' < V a s)%nat
                | inr b => Q b s'
                end) s) →
  ∀ n a s, I a s → (V a s < n)%nat → wp False (loop n body a) Q s.
Proof.
  intros Hb n. induction n as [|n IH]; intros a s HI Hn; simpl; [lia|].
  apply wp_bind. eapply wp_mono; [|by apply Hb].
  intros [a'|b] s'; [intros [??]; apply IH; [done|lia]|done].
Qed.

Lemma wp_for_each {A} (I : list A → S → Prop) (body : A → prog S unit) d :
  (∀ a l s, I (a :: l) s → wp d (body a) (λ _ s', I l s') s) →
  ∀ l s, I l s → wp d (for_each l body) (λ _ s', I [] s') s.
Proof.
  intros Hb l. induction l as [|a l IH]; intros s HI; simpl; [done|].
  apply wp_bind. eapply wp_mono; [|by apply Hb]. intros ? s'. apply IH.
Qed.
End wp_rules.

(** ** Preservation

    [preserves R m]: whenever [m] ends, the state it ends in is related by the
    preorder [R] to the state it started in. *)

Definition preserves {S A} (R : relation S) (m : prog S A) : Prop :=
  ∀ s, wp True m (λ _ s', R s s') s.

Create HintDb preserves discriminated.

Section preserves_rules.
Context {S : Type} (R : relation S) `{!PreOrder R}.

Lemma preserves_ret {A} (a : A) : preserves R (mret a).
Proof. intros s. apply wp_mret. reflexivity. Qed.

Lemma preserves_bind {A B} (m : prog S A) (k : A → prog S B) :
  preserves R m → (∀ a, preserves R (k a)) → preserves R (m ≫= k).
Proof.
  intros Hm Hk s. apply wp_bind. eapply wp_mono; [|by apply Hm].
  intros a s1 H1. simpl. eapply wp_mono; [|by apply Hk].
  intros b s2 H2. simpl. by transitivity s1.
Qed.

Lemma preserves_gets {A} (f : S → A) : preserves R (gets f).
Proof. intros s. apply wp_gets. reflexivity. Qed.

Lemma preserves_get : preserves R get.
Proof. intros s. apply wp_get. reflexivity. Qed.

Lemma preserves_modify (f : S → S) : (∀ s, R s (f s)) → preserves R (modify f).
Proof. intros H s. apply wp_modify, H. Qed.

Lemma preserves_when (b : bool) (m : prog S unit) : preserves R m → preserves R (when b m).
Proof. destruct b; simpl; [done|]. intros _. apply preserves_ret. Qed.

Lemma preserves_loop {A B} n (body : A → prog S (A + B)) :
  (∀ a, preserves R (body a)) → ∀ a, preserves R (loop n body a).
Proof.
  intros Hb a s. eapply (wp_loop (λ _ s', R s s')); [|reflexivity].
  intros a1 s1 H1. eapply wp_mono; [|by apply Hb].
  intros [a2|b] s2 H2; simpl in *; by transitivity s1.
Qed.

Lemma preserves_for_each {A} (l : list A) (body : A → prog S unit) :
  (∀ a, preserves R (body a)) → preserves R (for_each l body).
Proof.
  intros Hb s. apply (wp_for_each (λ _ s', R s s')); [|reflexivity].
  intros a l' s1 H1. eapply wp_mono; [|by apply Hb].
  intros ? s2 H2. simpl in *. by transitivity s1.
Qed.
End preserves_rules.

(** ** Automation *)

(** One step of the calculus on a goal [wp d m Q s], following [m]'s shape. *)
Ltac wp_step :=
  lazymatch goal with
  | |- wp _ (mbind _ _) _ _ => apply wp_bind
  | |- wp _ (mret _) _ _ => apply wp_mret
  | |- wp _ (gets _) _ _ => apply wp_gets
  | |- wp _ get _ _ => apply wp_get
  | |- wp _ (modify _) _ _ => apply wp_modify
  | |- wp _ (when _ _) _ _ => apply wp_when; intros
  | |- wp _ (if ?b then _ else _) _ _ => destruct b eqn:?
  | |- wp _ (match ?x with _ => _ end) _ _ => destruct x eqn:?
  | |- wp _ ((λ _, _) _) _ _ => cbv beta
  end; cbv beta.

(** Preservation by structural descent, closing leaves with the [preserves]
    hint database and case analysis on the conditions of the code. *)
Ltac preserves_step :=
  lazymatch goal with
  | |- preserves _ (mbind _ _) => apply preserves_bind; [try typeclasses eauto| |intros ?]
  | |- preserves _ (mret _) => apply preserves_ret; typeclasses eauto
  | |- preserves _ (gets _) => apply preserves_gets; typeclasses eauto
  | |- preserves _ get => apply preserves_get; typeclasses eauto
  | |- preserves _ (when _ _) => apply preserves_when; [try typeclasses eauto|]
  | |- preserves _ (loop _ _ _) => apply preserves_loop; [try typeclasses eauto|intros ?]
  | |- preserves _ (for_each _ _) => apply preserves_for_each; [try typeclasses eauto|intros ?]
  | |- preserves _ (if ?b then _ else _) => destruct b
  | |- preserves _ (match ?x with _ => _ end) => destruct x
  end.

Ltac preserves_auto :=
  repeat (cbv beta zeta; first [solve [eauto 2 with preserves] | preserves_step]).

(** ** Machine integers *)

(** [size_t] arithmetic. *)
Definition size_t (n : Z) : Z := n mod 2 ^ 64.

(** Conversion to [int]. *)
Definition as_int (n : Z) : Z := (n + 2 ^ 31) mod 2 ^ 32 - 2 ^ 31.

Lemma size_t_small n : 0 ≤ n < 2 ^ 64 → size_t n = n.
Proof. apply Z.mod_small. Qed.

Lemma as_int_small n : - 2 ^ 31 ≤ n < 2 ^ 31 → as_int n = n.
Proof. intros H. unfold as_int. rewrite Z.mod_small; lia. Qed.

(** ** Strings and characters *)

(** [strchr]-style membership, [strstr]-style substring search and C character
    classes, as the code uses them on host names, paths and method lists. *)
Fixpoint str_prefix (p s : string) : bool :=
  match p, s with
  | EmptyString, _ => true
  | String a p', String b s' => Ascii.eqb a b && str_prefix p' s'
  | _, _ => false
  end.

Fixpoint strstr (s p : string) : bool :=
  str_prefix p s || match s with
                    | EmptyString => false
                    | String _ s' => strstr s' p
                    end.

Fixpoint strchr (s : string) (c : Ascii.ascii) : bool :=
  match s with
  | EmptyString => false
  | String a s' => Ascii.eqb a c || strchr s' c
  end.

Definition str_empty (s : string) : bool :=
  match s with EmptyString => true | _ => false end.

Definition to_lower (c : Ascii.ascii) : Ascii.ascii :=
  let n := Ascii.N_of_ascii c in
  if (65 <=? n)%N && (n <=? 90)%N then Ascii.ascii_of_N (n + 32) else c.

Fixpoint str_map (f : Ascii.ascii → Ascii.ascii) (s : string) : string :=
  match s with
  | EmptyString => EmptyString
  | String a s' => String (f a) (str_map f s')
  end.

(** [!strcasecmp(a, b)] *)
Definition str_caseeq (a b : string) : bool :=
  String.eqb (str_map to_lower a) (str_map to_lower b).

Lemma str_empty_true s : str_empty s = true ↔ s = EmptyString.
Proof. by destruct s. Qed.

Lemma str_empty_false s : str_empty s = false ↔ s ≠ EmptyString.
Proof. by destruct s. Qed.

Lemma to_lower_idemp c : to_lower (to_lower c) = to_lower c.
Proof. destruct c as [[] [] [] [] [] [] [] []]; vm_compute; reflexivity. Qed.

Lemma str_map_idemp f s : (∀ c, f (f c) = f c) → str_map f (str_map f s) = str_map f s.
Proof. intros H. induction s; simpl; by f_equal. Qed.

Lemma str_caseeq_refl a : str_caseeq a a = true.
Proof. apply String.eqb_refl. Qed.

#[export] Hint Resolve str_caseeq_refl : core.
