(* ===== verification/Modes.v ===== *)
(** File modes: the permission strings that [mode2str] (SSH2Client.cpp) and
    [ssh2_mode_to_perm] (SFTPClient.cpp) build from a [st_mode] value, and the
    mode word that [SFTPClient::sftpChmod] writes. *)

From S2P Require Import Prelude.

(** ** POSIX mode bits (sys/stat.h) *)

Definition S_IFMT : Z := 0xF000.
Definition S_IFSOCK : Z := 0xC000.
Definition S_IFLNK : Z := 0xA000.
Definition S_IFREG : Z := 0x8000.
Definition S_IFBLK : Z := 0x6000.
Definition S_IFDIR : Z := 0x4000.
Definition S_IFCHR : Z := 0x2000.
Definition S_IFIFO : Z := 0x1000.
Definition S_ISUID : Z := 0x800.
Definition S_ISGID : Z := 0x400.
Definition S_ISVTX : Z := 0x200.
Definition S_IRUSR : Z := 0x100.
Definition S_IWUSR : Z := 0x80.
Definition S_IXUSR : Z := 0x40.
Definition S_IRGRP : Z := 0x20.
Definition S_IWGRP : Z := 0x10.
Definition S_IXGRP : Z := 0x8.
Definition S_IROTH : Z := 0x4.
Definition S_IWOTH : Z := 0x2.
Definition S_IXOTH : Z := 0x1.

(** A C condition [mode & bits]. *)
Definition has (mode bits : Z) : bool := negb (Z.land mode bits =? 0).

(** [S_ISDIR(mode)] and the like. *)
Definition is_type (mode type : Z) : bool := Z.land mode S_IFMT =? type.

Definition chars (s : string) : list Ascii.ascii := String.list_ascii_of_string s.

(** ** mode2str *)

(** One iteration of the loop over the user, group and other triples. *)
Definition mode2str_triple (i : nat) (ret : list Ascii.ascii) (tmode : Z) : list Ascii.ascii :=
  let ret := if has tmode 1 then <[(1 + 2 + i * 3)%nat := "x"%char]> ret else ret in
  let ret := if has tmode 2 then <[(1 + 1 + i * 3)%nat := "w"%char]> ret else ret in
  if has tmode 4 then <[(1 + 0 + i * 3)%nat := "r"%char]> ret else ret.

(** [for (int i = 2; i >= 0; i--)], with [n = i + 1]. *)
Fixpoint mode2str_loop (n : nat) (ret : list Ascii.ascii) (tmode : Z) : list Ascii.ascii :=
  match n with
  | O => ret
  | S i => mode2str_loop i (mode2str_triple i ret tmode) (Z.shiftr tmode 3)
  end.

Definition mode2str (mode : Z) : list Ascii.ascii :=
  let ret := mode2str_loop 3 (chars "----------") mode in
  let ret := if is_type mode S_IFDIR then <[0%nat := "d"%char]> ret else ret in
  let ret := if is_type mode S_IFBLK then <[0%nat := "b"%char]> ret else ret in
  let ret := if is_type mode S_IFCHR then <[0%nat := "c"%char]> ret else ret in
  let ret := if is_type mode S_IFIFO then <[0%nat := "p"%char]> ret else ret in
  let ret := if is_type mode S_IFLNK then <[0%nat := "l"%char]> ret else ret in
  if is_type mode S_IFSOCK then <[0%nat := "s"%char]> ret else ret.

(** ** ssh2_mode_to_perm *)

(** The type name and the type character, in the order of the code's tests. *)
Definition ssh2_mode_type (mode : Z) : string * Ascii.ascii :=
  if is_type mode S_IFBLK then ("BLOCK-DEVICE"%string, "b"%char)
  else if is_type mode S_IFDIR then ("DIRECTORY"%string, "d"%char)
  else if is_type mode S_IFCHR then ("CHARACTER-DEVICE"%string, "c"%char)
  else if is_type mode S_IFIFO then ("FIFO"%string, "p"%char)
  else if is_type mode S_IFLNK then ("SYMBOLIC-LINK"%string, "l"%char)
  else if is_type mode S_IFSOCK then ("SOCKET"%string, "s"%char)
  else if is_type mode S_IFREG then ("REGULAR"%string, "-"%char)
  else ("UNKNOWN"%string, "?"%char).

(** The execute character of one triple: the special bit (set-user-ID,
    set-group-ID or sticky) shows in it. *)
Definition exec_char (mode special x : Z) (lower upper : Ascii.ascii) : Ascii.ascii :=
  if has mode special then (if has mode x then lower else upper)
  else (if has mode x then "x" else "-")%char.

Definition ssh2_mode_to_perm (mode : Z) : string * list Ascii.ascii :=
  let '(type, c) := ssh2_mode_type mode in
  (type,
   [ c;
     if has mode S_IRUSR then "r"%char else "-"%char;
     if has mode S_IWUSR then "w"%char else "-"%char;
     exec_char mode S_ISUID S_IXUSR "s" "S";
     if has mode S_IRGRP then "r"%char else "-"%char;
     if has mode S_IWGRP then "w"%char else "-"%char;
     exec_char mode S_ISGID S_IXGRP "s" "S";
     if has mode S_IROTH then "r"%char else "-"%char;
     if has mode S_IWOTH then "w"%char else "-"%char;
     exec_char mode S_ISVTX S_IXOTH "t" "T" ]).

(** ** The mode word of sftpChmod *)

(** [SFTP_UGOMASK] and [(attrs.permissions & (-1^SFTP_UGOMASK)) | (mode &
    SFTP_UGOMASK)], in 64-bit unsigned arithmetic ([mode] is an [int], converted). *)
Definition SFTP_UGOMASK : Z := 0x1FF.

Definition chmod_newmode (permissions mode : Z) : Z :=
  Z.lor (Z.land permissions (Z.lxor (2 ^ 64 - 1) SFTP_UGOMASK))
        (Z.land (mode mod 2 ^ 64) SFTP_UGOMASK).

(** ** Reference definitions *)

(** The nine permission bits, from the most significant. *)
Definition rwx_of (b8 b7 b6 b5 b4 b3 b2 b1 b0 : bool) : list Ascii.ascii :=
  let bit (b : bool) (c : Ascii.ascii) := if b then c else "-"%char in
  [ bit b8 "r"%char; bit b7 "w"%char; bit b6 "x"%char;
    bit b5 "r"%char; bit b4 "w"%char; bit b3 "x"%char;
    bit b2 "r"%char; bit b1 "w"%char; bit b0 "x"%char ].

Definition rwx (mode : Z) : list Ascii.ascii :=
  rwx_of (Z.testbit mode 8) (Z.testbit mode 7) (Z.testbit mode 6)
         (Z.testbit mode 5) (Z.testbit mode 4) (Z.testbit mode 3)
         (Z.testbit mode 2) (Z.testbit mode 1) (Z.testbit mode 0).

(** Reads the permission bits back from a permission string. *)
Definition parse_rwx (cs : list Ascii.ascii) : Z :=
  foldl (λ acc c, 2 * acc + (if Ascii.eqb c "-" then 0 else 1)) 0 cs.

(** ** Lemmas *)

Lemma has_testbit mode k : 0 ≤ k → has mode (2 ^ k) = Z.testbit mode k.
Proof.
  intros Hk. unfold has. destruct (Z.testbit mode k) eqn:E.
  - apply negb_true_iff, Z.eqb_neq. intros H0.
    assert (Z.testbit (Z.land mode (2 ^ k)) k = true) as H1.
    { by rewrite Z.land_spec, E, Z.pow2_bits_true. }
    by rewrite H0, Z.bits_0 in H1.
  - apply negb_false_iff, Z.eqb_eq, Z.bits_inj_0. intros n.
    rewrite Z.land_spec. destruct (decide (n = k)) as [->|Hn]; [by rewrite E|].
    rewrite Z.pow2_bits_false by done. apply andb_false_r.
Qed.

Lemma has_shiftr mode n k :
  0 ≤ n → 0 ≤ k → has (Z.shiftr mode n) (2 ^ k) = Z.testbit mode (k + n).
Proof. intros. by rewrite has_testbit, Z.shiftr_spec by lia. Qed.

(** The mode bits by position, so that conditions become bits of the mode. *)
Lemma has_bits mode :
  has mode 1 = Z.testbit mode 0 ∧ has mode 2 = Z.testbit mode 1 ∧ has mode 4 = Z.testbit mode 2 ∧
  has mode 8 = Z.testbit mode 3 ∧ has mode 16 = Z.testbit mode 4 ∧ has mode 32 = Z.testbit mode 5 ∧
  has mode 64 = Z.testbit mode 6 ∧ has mode 128 = Z.testbit mode 7 ∧ has mode 256 = Z.testbit mode 8.
Proof.
  split_and!; [apply (has_testbit mode 0)|apply (has_testbit mode 1)|apply (has_testbit mode 2)
    |apply (has_testbit mode 3)|apply (has_testbit mode 4)|apply (has_testbit mode 5)
    |apply (has_testbit mode 6)|apply (has_testbit mode 7)|apply (has_testbit mode 8)]; lia.
Qed.

Lemma has_shifted_bits mode :
  has (Z.shiftr mode 3) 1 = Z.testbit mode 3 ∧ has (Z.shiftr mode 3) 2 = Z.testbit mode 4 ∧
  has (Z.shiftr mode 3) 4 = Z.testbit mode 5 ∧
  has (Z.shiftr (Z.shiftr mode 3) 3) 1 = Z.testbit mode 6 ∧
  has (Z.shiftr (Z.shiftr mode 3) 3) 2 = Z.testbit mode 7 ∧
  has (Z.shiftr (Z.shiftr mode 3) 3) 4 = Z.testbit mode 8.
Proof.
  rewrite !Z.shiftr_shiftr by lia.
  split_and!; [apply (has_shiftr mode 3 0)|apply (has_shiftr mode 3 1)|apply (has_shiftr mode 3 2)
    |apply (has_shiftr mode 6 0)|apply (has_shiftr mode 6 1)|apply (has_shiftr mode 6 2)]; lia.
Qed.

Ltac mode_bits mode :=
  destruct (has_bits mode) as (?E0 & ?E1 & ?E2 & ?E3 & ?E4 & ?E5 & ?E6 & ?E7 & ?E8);
  destruct (has_shifted_bits mode) as (?F3 & ?F4 & ?F5 & ?F6 & ?F7 & ?F8).

(** The loop of [mode2str] writes exactly the nine permission characters. *)
Lemma mode2str_loop_rwx mode : mode2str_loop 3 (chars "----------") mode = "-"%char :: rwx mode.
Proof.
  mode_bits mode. unfold mode2str_loop, mode2str_triple, rwx.
  rewrite E0, E1, E2, F3, F4, F5, F6, F7, F8.
  generalize (Z.testbit mode 8) (Z.testbit mode 7) (Z.testbit mode 6) (Z.testbit mode 5)
    (Z.testbit mode 4) (Z.testbit mode 3) (Z.testbit mode 2) (Z.testbit mode 1) (Z.testbit mode 0).
  intros [] [] [] [] [] [] [] [] []; vm_compute; reflexivity.
Qed.

(** The type character of [mode2str]; regular and unknown files both show as a dash. *)
Definition mode2str_type (mode : Z) : Ascii.ascii :=
  match Z.land mode S_IFMT with
  | 0xC000 => "s" | 0xA000 => "l" | 0x6000 => "b" | 0x4000 => "d" | 0x2000 => "c" | 0x1000 => "p"
  | _ => "-"
  end%char.

Ltac type_cases mode :=
  unfold is_type;
  repeat match goal with
  | |- context [Z.land mode S_IFMT =? ?t] =>
      destruct (Z.eqb_spec (Z.land mode S_IFMT) t) as [->|?]; [try reflexivity|]
  end.

Lemma mode2str_eq mode : mode2str mode = mode2str_type mode :: rwx mode.
Proof.
  unfold mode2str. rewrite mode2str_loop_rwx. unfold mode2str_type, is_type.
  unfold S_IFSOCK, S_IFLNK, S_IFBLK, S_IFDIR, S_IFCHR, S_IFIFO.
  destruct (Z.eqb_spec (Z.land mode S_IFMT) 0x4000) as [->|?]; [reflexivity|].
  destruct (Z.eqb_spec (Z.land mode S_IFMT) 0x6000) as [->|?]; [reflexivity|].
  destruct (Z.eqb_spec (Z.land mode S_IFMT) 0x2000) as [->|?]; [reflexivity|].
  destruct (Z.eqb_spec (Z.land mode S_IFMT) 0x1000) as [->|?]; [reflexivity|].
  destruct (Z.eqb_spec (Z.land mode S_IFMT) 0xA000) as [->|?]; [reflexivity|].
  destruct (Z.eqb_spec (Z.land mode S_IFMT) 0xC000) as [->|?]; [reflexivity|].
  f_equal. repeat case_match; try reflexivity; congruence.
Qed.

Lemma exec_char_plain mode special x lower upper :
  has mode special = false →
  exec_char mode special x lower upper = (if has mode x then "x" else "-")%char.
Proof. unfold exec_char. by intros ->. Qed.

Lemma rwx_length mode : length (rwx mode) = 9%nat.
Proof. reflexivity. Qed.

Lemma parse_rwx_of b8 b7 b6 b5 b4 b3 b2 b1 b0 :
  parse_rwx (rwx_of b8 b7 b6 b5 b4 b3 b2 b1 b0) =
  256 * Z.b2z b8 + 128 * Z.b2z b7 + 64 * Z.b2z b6 + 32 * Z.b2z b5 + 16 * Z.b2z b4 +
  8 * Z.b2z b3 + 4 * Z.b2z b2 + 2 * Z.b2z b1 + Z.b2z b0.
Proof. destruct b8, b7, b6, b5, b4, b3, b2, b1, b0; vm_compute; reflexivity. Qed.

Lemma parse_rwx_correct mode : parse_rwx (rwx mode) = mode mod 512.
Proof.
  unfold rwx. rewrite parse_rwx_of, !Z.testbit_spec' by lia.
  change (2 ^ 8) with 256. change (2 ^ 7) with 128. change (2 ^ 6) with 64.
  change (2 ^ 5) with 32. change (2 ^ 4) with 16. change (2 ^ 3) with 8.
  change (2 ^ 2) with 4. change (2 ^ 1) with 2. change (2 ^ 0) with 1.
  Z.div_mod_to_equations. lia.
Qed.

(** ** Theorems *)

(** The two permission strings of the module agree on every mode
    whose type is one POSIX defines and that has no set-user-ID, set-group-ID or
    sticky bit. *)
Theorem mode2str_matches_perm (mode : Z) :
  has mode S_ISUID = false → has mode S_ISGID = false → has mode S_ISVTX = false →
  (ssh2_mode_to_perm mode).1 ≠ "UNKNOWN"%string →
  mode2str mode = (ssh2_mode_to_perm mode).2.
Proof.
  intros HU HG HV HT. rewrite mode2str_eq.
  unfold ssh2_mode_to_perm in *. destruct (ssh2_mode_type mode) as [type c] eqn:ET.
  simpl in *. rewrite !exec_char_plain by done.
  mode_bits mode. unfold S_IRUSR, S_IWUSR, S_IXUSR, S_IRGRP, S_IWGRP, S_IXGRP, S_IROTH, S_IWOTH, S_IXOTH.
  rewrite E0, E1, E2, E3, E4, E5, E6, E7, E8.
  assert (mode2str_type mode = c) as ->; [|reflexivity].
  revert ET HT. unfold ssh2_mode_type, mode2str_type. type_cases mode; intros; simplify_eq; done.
Qed.

Lemma mode2str_matches_perm_witness :
  mode2str 0x41ED = (ssh2_mode_to_perm 0x41ED).2 ∧ mode2str 0x41ED = chars "drwxr-xr-x".
Proof. split; [apply mode2str_matches_perm; vm_compute; done | reflexivity]. Defined.

(** The string that [mode2str] returns has ten characters and
    determines the nine permission bits of the mode. *)
Theorem mode2str_roundtrip (mode : Z) :
  length (mode2str mode) = 10%nat ∧ parse_rwx (tail (mode2str mode)) = mode mod 512.
Proof. rewrite mode2str_eq. split; [reflexivity|]. apply parse_rwx_correct. Qed.

(** The mode word that [sftpChmod] writes takes the nine permission
    bits from the caller's mode and every other bit from the file's current mode,
    and stays an unsigned 64-bit value. *)
Theorem chmod_newmode_bits (permissions mode : Z) :
  0 ≤ permissions < 2 ^ 64 →
  0 ≤ chmod_newmode permissions mode < 2 ^ 64 ∧
  (∀ i, 0 ≤ i < 9 → Z.testbit (chmod_newmode permissions mode) i = Z.testbit mode i) ∧
  (∀ i, 9 ≤ i → Z.testbit (chmod_newmode permissions mode) i = Z.testbit permissions i).
Proof.
  intros Hp.
  assert (∀ i, 0 ≤ i → Z.testbit (chmod_newmode permissions mode) i =
            if decide (i < 9) then Z.testbit mode i else Z.testbit permissions i) as Hbit.
  { intros i Hi. unfold chmod_newmode. change SFTP_UGOMASK with (Z.ones 9).
    replace (2 ^ 64 - 1) with (Z.ones 64) by reflexivity.
    rewrite Z.lor_spec, !Z.land_spec, Z.lxor_spec.
    case_decide as Hd.
    - rewrite !Z.ones_spec_low, Z.mod_pow2_bits_low by lia.
      simpl. by rewrite andb_false_r, andb_true_r.
    - rewrite (Z.ones_spec_high 9) by lia. rewrite andb_false_r, orb_false_r, xorb_false_r.
      destruct (decide (i < 64)).
      + rewrite Z.ones_spec_low by lia. apply andb_true_r.
      + rewrite Z.ones_spec_high, andb_false_r by lia. symmetry.
        apply Z.bits_above_log2; [lia|]. destruct (decide (permissions = 0)) as [->|]; [simpl; lia|].
        apply Z.log2_lt_pow2; [lia|]. eapply Z.lt_le_trans; [apply Hp|]. apply Z.pow_le_mono_r; lia. }
  split_and!.
  - unfold chmod_newmode. apply Z.lor_nonneg. split; apply Z.land_nonneg; [left; lia|right; done].
  - destruct (Z.lt_ge_cases (chmod_newmode permissions mode) (2 ^ 64)) as [|Hge]; [done|exfalso].
    assert (0 < chmod_newmode permissions mode) as Hpos by lia.
    pose proof (Z.bit_log2 _ Hpos) as Hb. pose proof (Z.log2_le_mono _ _ Hge) as Hl.
    rewrite Z.log2_pow2 in Hl by lia. rewrite Hbit in Hb by lia.
    rewrite decide_False in Hb by lia.
    destruct (decide (permissions = 0)) as [->|]; [by rewrite Z.bits_0 in Hb|].
    rewrite Z.bits_above_log2 in Hb; [done|lia|].
    apply Z.log2_lt_pow2; [lia|]. eapply Z.lt_le_trans; [apply Hp|]. apply Z.pow_le_mono_r; lia.
  - intros i Hi. rewrite Hbit by lia. by rewrite decide_True by lia.
  - intros i Hi. rewrite Hbit by lia. by rewrite decide_False by lia.
Qed.

Lemma chmod_newmode_bits_witness :
  0 ≤ 0x81A4 < 2 ^ 64 ∧ chmod_newmode 0x81A4 0x1C0 = 0x81C0 ∧
  Z.testbit (chmod_newmode 0x81A4 0x1C0) 15 = Z.testbit 0x81A4 15.
Proof.
  split; [lia|]. split; [reflexivity|].
  apply (chmod_newmode_bits 0x81A4 0x1C0); lia.
Defined.
