(* ===== verification/World.v ===== *)
(** The world the module runs in: the requests it makes of libssh2, of the Qore
    library and of the operating system, the state of a client object, and the
    monad instance in which every operation is written.

    What is not under src/ (libssh2, QoreSocket, the sandbox, %Qore objects, the
    operating system) is the parameter [Env]: a handler that answers each
    request from a state of its own.  The answers are arbitrary, so a theorem
    over every [Env] holds whatever the server, the network and the library do.
    Every request is logged with its answer, newest first. *)

From S2P Require Import Prelude.

(** ** Constants of the libssh2 and POSIX headers *)

Definition LIBSSH2_ERROR_NONE : Z := 0.
Definition LIBSSH2_ERROR_SOCKET_SEND : Z := -7.
Definition LIBSSH2_ERROR_SOCKET_DISCONNECT : Z := -13.
Definition LIBSSH2_ERROR_SOCKET_TIMEOUT : Z := -30.
Definition LIBSSH2_ERROR_SFTP_PROTOCOL : Z := -31.
Definition LIBSSH2_ERROR_INVAL : Z := -34.
Definition LIBSSH2_ERROR_EAGAIN : Z := -37.
Definition LIBSSH2_ERROR_SOCKET_RECV : Z := -43.
Definition LIBSSH2_FX_NO_SUCH_FILE : Z := 2.
Definition LIBSSH2_FX_NO_CONNECTION : Z := 6.
Definition LIBSSH2_FX_CONNECTION_LOST : Z := 7.
Definition LIBSSH2_SESSION_BLOCK_INBOUND : Z := 1.
Definition LIBSSH2_SESSION_BLOCK_OUTBOUND : Z := 2.
Definition LIBSSH2_HOSTKEY_TYPE_RSA : Z := 1.
Definition LIBSSH2_HOSTKEY_TYPE_DSS : Z := 2.
Definition LIBSSH2_HOSTKEY_TYPE_ECDSA_256 : Z := 3.
Definition LIBSSH2_HOSTKEY_TYPE_ECDSA_384 : Z := 4.
Definition LIBSSH2_HOSTKEY_TYPE_ECDSA_521 : Z := 5.
Definition LIBSSH2_HOSTKEY_TYPE_ED25519 : Z := 6.
Definition LIBSSH2_KNOWNHOST_TYPE_PLAIN : Z := 1.
Definition LIBSSH2_KNOWNHOST_KEYENC_RAW : Z := Z.shiftl 1 16.
Definition LIBSSH2_KNOWNHOST_KEY_SSHRSA : Z := Z.shiftl 2 18.
Definition LIBSSH2_KNOWNHOST_KEY_SSHDSS : Z := Z.shiftl 3 18.
Definition LIBSSH2_KNOWNHOST_KEY_ECDSA_256 : Z := Z.shiftl 4 18.
Definition LIBSSH2_KNOWNHOST_KEY_ECDSA_384 : Z := Z.shiftl 5 18.
Definition LIBSSH2_KNOWNHOST_KEY_ECDSA_521 : Z := Z.shiftl 6 18.
Definition LIBSSH2_KNOWNHOST_KEY_ED25519 : Z := Z.shiftl 7 18.
Definition LIBSSH2_KNOWNHOST_KEY_UNKNOWN : Z := Z.shiftl 15 18.
Definition LIBSSH2_KNOWNHOST_CHECK_MATCH : Z := 0.
Definition LIBSSH2_KNOWNHOST_CHECK_MISMATCH : Z := 1.
Definition LIBSSH2_KNOWNHOST_CHECK_NOTFOUND : Z := 2.
Definition LIBSSH2_KNOWNHOST_CHECK_FAILURE : Z := 3.
Definition LIBSSH2_FXF_READ : Z := 1.
Definition LIBSSH2_FXF_WRITE : Z := 2.
Definition LIBSSH2_FXF_CREAT : Z := 8.
Definition LIBSSH2_FXF_TRUNC : Z := 16.
Definition LIBSSH2_SFTP_SYMLINK : Z := 0.
Definition LIBSSH2_SFTP_READLINK : Z := 1.
Definition LIBSSH2_SFTP_REALPATH : Z := 2.
Definition LIBSSH2_SFTP_ATTR_UIDGID : Z := 2.
Definition LIBSSH2_SFTP_ATTR_PERMISSIONS : Z := 4.
Definition O_NONBLOCK : Z := 0x800.
Definition SOCK_POLLIN : Z := 1.
Definition SOCK_POLLOUT : Z := 2.
Definition ENOENT : Z := 2.
Definition EEXIST : Z := 17.
Definition ENOTDIR : Z := 20.

(** ** Constants of ssh2-module.h and ssh2.h *)

Definition SSH2_HOSTKEY_REJECT : Z := 0.
Definition SSH2_HOSTKEY_TOFU : Z := 1.
Definition SSH2_HOSTKEY_TOFU_SESSION : Z := 2.
Definition SSH2_CLIENT_AUTH_EXPLICIT_FIRST : Z := 0.
Definition SSH2_CLIENT_AUTH_PROVIDER_FIRST : Z := 1.
Definition SSH2_CLIENT_ID_FALLBACK_DISABLED : Z := 0.
Definition SSH2_CLIENT_ID_FALLBACK_AGENT : Z := 1.
Definition SSH2_CLIENT_ID_FALLBACK_DEFAULT_KEYS : Z := 2.
Definition SSH2_CLIENT_ID_FALLBACK_AGENT_AND_DEFAULT_KEYS : Z := 3.
Definition SSH2_KH_DEFAULT_AUTO : Z := 0.
Definition SSH2_KH_DEFAULT_DISABLED : Z := 1.
Definition SSH2_KH_DEFAULT_EXPLICIT : Z := 2.
Definition DEFAULT_SSH_PORT : Z := 22.
Definition DEFAULT_TIMEOUT_MS : Z := 10000.
Definition QKEEPALIVE_DEFAULT : Z := 60.
Definition QSSH2_BUFSIZE : nat := Z.to_nat 32768.

(** ** Pointers, bytes and Qore values *)

(** A C pointer: [None] is the null pointer. *)
Abbreviation handle := positive.
Abbreviation ptr := (option positive).

(** A Qore value as the module builds and inspects it; [QOther] is a value of any
    other type.  Strings are in UTF-8; conversions of other values to strings and
    booleans are %Qore's (requests [value_string] and [value_bool]). *)
Inductive qval :=
  | QNothing
  | QString (s : string)
  | QInt (n : Z)
  | QBinary (data : string)
  | QHash (h : list (string * qval))
  | QList (l : list qval)
  | QOther (id : positive).

(** [QoreHashNode::getKeyValue] *)
Fixpoint hash_get (h : list (string * qval)) (key : string) : qval :=
  match h with
  | [] => QNothing
  | (k, v) :: h' => if String.eqb k key then v else hash_get h' key
  end.

(** [LIBSSH2_SFTP_ATTRIBUTES] *)
Record attrs := mkAttrs {
  at_flags : Z;
  at_filesize : Z;
  at_uid : Z;
  at_gid : Z;
  at_permissions : Z;
  at_atime : Z;
  at_mtime : Z
}.

(** Access modes of the sandbox manager (the [QSEC_*] flags). *)
Inductive fs_mode := ModeRead | ModeWrite | ModeReadWrite | ModeCreate | ModeWriteCreate.

(** ** Operations other threads can run while a connect has released the lock *)

Inductive client_op :=
  | OpDisconnect (force : bool) (timeout_ms : Z)
  | OpSetUser (user : string)
  | OpSetPassword (pwd : string)
  | OpSetKnownHostsFile (path : option string)
  | OpSetVerifyHostKey (verify : bool)
  | OpSetHostKeyPolicy (policy : Z)
  | OpSetHostKeyStore (store : ptr)
  | OpSetClientIdentityProvider (provider : ptr)
  | OpSetClientAuthOrder (order : Z)
  | OpSetClientIdentityFallbackPolicy (policy : Z)
  | OpSetMethodPreference (method_type : Z) (prefs : string)
  | OpSetBanner (banner : option string)
  | OpSetKeysFromData (priv : string) (pub passphrase : option string)
  | OpSetUseAgent (enable : bool)
  | OpSetKeepalive (interval : Z)
  | OpReservePollOperation.

(** ** Requests *)

(** The channel requests that return an [int]. *)
Inductive chan_op :=
  | CoSetenv (name value : string)
  | CoRequestPty (term : string) (modes : option string) (width height width_px height_px : Z)
  | CoShell
  | CoWaitEof
  | CoSendEof
  | CoExec (command : string)
  | CoSubsystem (command : string)
  | CoClose
  | CoWaitClosed
  | CoX11 (single_connection : bool) (auth_proto auth_cookie : option string) (screen : Z)
  | CoExtendedData (mode : Z)
  | CoRequestPtySize (width height width_px height_px : Z)
  | CoSignal (name : string)
  | CoRequestAuthAgent.

(** The SFTP requests that return an [int]. *)
Inductive sftp_op :=
  | SoMkdir (path : string) (mode : Z)
  | SoRmdir (path : string)
  | SoRename (from to : string)
  | SoUnlink (path : string)
  | SoSymlink (target link : string)
  | SoSetstat (path : string) (a : attrs).

(** Requests answered with an integer. *)
Inductive zcall :=
  | session_method_pref (s : ptr) (method_type : Z) (prefs : string)
  | session_handshake (s : ptr) (fd : Z)
  | session_disconnect (s : ptr)
  | session_free (s : ptr)
  | session_last_errno (s : ptr)
  | session_block_directions (s : ptr)
  | userauth_password (s : ptr) (user pass : string)
  | userauth_keyboard_interactive (s : ptr) (user pass : string)
  | userauth_publickey_fromfile (s : ptr) (user : string) (pub : option string) (priv pass : string)
  | userauth_publickey_frommemory (s : ptr) (user : string) (pub : option string) (priv pass : string)
  | agent_connect (a : ptr)
  | agent_list_identities (a : ptr)
  | agent_userauth (a : ptr) (user : string) (identity : ptr)
  | knownhost_readfile (nh : ptr) (file : string)
  | knownhost_checkp (nh : ptr) (host : string) (port : Z) (key : string) (kh_type : Z)
  | knownhost_addc (nh : ptr) (host key : string) (kh_type : Z)
  | knownhost_writefile (nh : ptr) (file : string)
  | channel_op (c : ptr) (op : chan_op)
  | channel_write (c : ptr) (stream : Z) (data : list Byte.byte)
  | channel_get_exit_status (c : ptr)
  | channel_free (c : ptr)
  | channel_forward_cancel (l : ptr)
  | sftp_shutdown (sf : ptr)
  | sftp_last_error (sf : ptr)
  | sftp_request (sf : ptr) (op : sftp_op)
  | sftp_write (h : ptr) (data : list Byte.byte)
  | sftp_close_handle (h : ptr)
  | monotonic_nanos
  (* the blocking connect of the socket; an exception is raised if it is not 0 *)
  | socket_connectINET (host : string) (port timeout_ms : Z)
  | socket_getSocket
  | socket_holdDescriptor (fd : Z)
  | socket_asyncIoWait (timeout_ms : Z) (inbound outbound : bool)
  (* [fcntl] with [F_GETFL] and [F_SETFL] *)
  | fcntl_getfl (fd : Z)
  | fcntl_setfl (fd flags : Z).

(** Requests answered with a truth value. *)
Inductive bcall :=
  | check_cancel
  | socket_isOpen
  | po_no_filesystem
  | sandbox_present
  | sandbox_checkFilesystemAccess (path : string) (mode : fs_mode)
  | sandbox_checkNetworkAccess (unix : bool) (target addr : string)
  | path_is_readable (path : string)
  | value_bool (v : qval)
  | channel_eof (c : ptr)
  (* a %Qore output stream: false if it raised an exception *)
  | ostream_write (data : list Byte.byte)
  (* local files: opening for writing and for reading, and writing; false if an
     exception was raised *)
  | file_create (path : string) (mode : Z)
  | file_open (path : string)
  | file_write (data : list Byte.byte).

(** Requests without an answer. *)
Inductive ucall :=
  | session_banner_set (s : ptr) (banner : string)
  | session_set_blocking (s : ptr) (block : bool)
  | keepalive_config (s : ptr) (interval : Z)
  | session_trace (s : ptr) (bitmask : Z)
  (* memory that libssh2 has allocated for a session *)
  | ssh2_free (s : ptr)
  | agent_set_identity_path (a : ptr) (path : string)
  | agent_disconnect (a : ptr)
  | agent_free (a : ptr)
  | knownhost_free (nh : ptr)
  (* references to a %Qore object *)
  | object_ref (o : ptr)
  | object_deref (o : ptr)
  | socket_cleanup
  | socket_close.

(** Requests answered with a pointer. *)
Inductive hcall :=
  | session_init
  | agent_init (s : ptr)
  | agent_get_identity (a : ptr) (prev : ptr)
  | knownhost_init (s : ptr)
  | channel_open_session (s : ptr)
  | channel_direct_tcpip (s : ptr) (host : string) (port : Z) (shost : string) (sport : Z)
  | channel_direct_streamlocal (s : ptr) (path shost : string) (sport : Z)
  | channel_forward_listen (s : ptr) (host : string) (port queue_maxsize : Z)
  | channel_forward_accept (l : ptr)
  | scp_recv2 (s : ptr) (path : string)
  | scp_send64 (s : ptr) (path : string) (mode size mtime atime : Z)
  | sftp_init (s : ptr)
  | sftp_opendir (sf : ptr) (path : string)
  | sftp_open (sf : ptr) (path : string) (flags mode : Z).

(** Requests answered with a string or nothing. *)
Inductive scall :=
  | userauth_list (s : ptr) (user : string)
  | session_banner_get (s : ptr)
  | session_methods (s : ptr) (method_type : Z)
  | env_value (name : string)
  | value_string (v : qval).

Inductive req :=
  | QZ (c : zcall)
  | QB (c : bcall)
  | QU (c : ucall)
  | QH (c : hcall)
  | QS (c : scall)
  (* the host key and its type *)
  | session_hostkey (s : ptr)
  (* the hash of the host key; the algorithms that libssh2 supports *)
  | hostkey_hash (s : ptr) (hash_type : Z)
  | session_supported_algs (s : ptr) (method_type : Z)
  (* the signal name, error message and language tag, where there are any *)
  | channel_get_exit_signal (c : ptr)
  (* the user entry of the process: name and home directory *)
  | getpwuid
  (* stat(2) and mkdir(2): the mode or [errno]; [errno] if it failed *)
  | fs_stat (path : string)
  | fs_mkdir (path : string) (mode : Z)
  (* name resolution: the addresses, or an exception *)
  | resolve_host (host : string) (port : Z)
  (* reads: the return code and the bytes *)
  | channel_read (c : ptr) (stream : Z) (size : nat)
  | sftp_read (h : ptr) (size : Z)
  | sftp_stat (sf : ptr) (path : string) (follow : bool)
  | sftp_readdir (h : ptr)
  (* a %Qore input stream: [None] if it raised an exception *)
  | istream_read (size : Z)
  (* the same streams used with the client's lock released: the operations that
     other threads ran meanwhile *)
  | istream_read_unlocked (size : Z)
  | ostream_write_unlocked (data : list Byte.byte)
  (* the open local file: size and mode, or an error; a block, or an exception *)
  | file_stat
  | file_read (size : Z)
  (* the fields of the file system, in the order of their declaration *)
  | sftp_statvfs (sf : ptr) (path : string)
  (* the symlink_ex requests that return a path *)
  | sftp_resolve (sf : ptr) (path : string) (op : Z)
  (* a method call on a %Qore object with the lock released: the operations
     that other threads ran meanwhile, and the value ([None]: an exception) *)
  | eval_method (obj : ptr) (method : string) (args : list qval)
  (* the poll-based connect: start (true: an exception), continue (true: an exception),
     its extra descriptors (to read, to write) and timer *)
  | socket_startConnect (target : string)
  | connect_continuePoll (cs : ptr)
  | connect_wait_info (cs : ptr).

Definition ans (r : req) : Type :=
  match r with
  | QZ _ => Z
  | QB _ => bool
  | QU _ => unit
  | QH _ => ptr
  | QS _ => option string
  | session_hostkey _ => option (string * Z)
  | hostkey_hash _ _ => option (list Byte.byte)
  | session_supported_algs _ _ => Z * list string
  | channel_get_exit_signal _ => Z * (option string * option string * option string)
  | getpwuid => option (string * string)
  | fs_stat _ => Z + Z
  | fs_mkdir _ _ => option Z
  | resolve_host _ _ => option (list string)
  | channel_read _ _ _ => Z * list Byte.byte
  | sftp_read _ _ => Z * list Byte.byte
  | sftp_stat _ _ _ => Z * attrs
  | sftp_readdir _ => Z * (string * attrs)
  | istream_read _ => option (list Byte.byte)
  | istream_read_unlocked _ => list client_op * option (list Byte.byte)
  | ostream_write_unlocked _ => list client_op * bool
  | file_stat => option (Z * Z)
  | file_read _ => option (list Byte.byte)
  | sftp_statvfs _ _ => Z * list Z
  | sftp_resolve _ _ _ => Z * string
  | eval_method _ _ _ => list client_op * option qval
  | socket_startConnect _ => ptr * bool
  | connect_continuePoll _ => Z * bool
  | connect_wait_info _ => list (Z * bool * bool) * Z
  end%type.

(** A request with its answer. *)
Inductive event := Ev (r : req) (a : ans r).

(** The environment: its state [E] and how it answers; [fuel] bounds the
    iterations of each loop of the code. *)
Class Env (E : Type) := {
  answer : ∀ r : req, E → ans r * E;
  fuel : nat
}.

(** ** Exceptions

    What [ExceptionSink] collects: the error code and, where the code reports
    library error codes, those codes.  Message texts are not modelled. *)

Inductive detail :=
  | NoDetail
  | SftpError (code : Z)
  | SshError (code : Z).

Inductive exc :=
  | Exc (err : string) (d : detail)
  (* raised by the Qore library (socket, sandbox, cancellation, %Qore code) *)
  | ExternalExc.

(** ** The client object *)

(** The dynamic class of the object: [SFTPClient] overrides [disconnectUnlocked]. *)
Inductive client_class := SSH2ClientClass | SFTPClientClass.

Record client := mkClient {
  kls : client_class;
  sshhost : string;
  sshuser : string;
  sshpass : string;
  sshkeys_pub : string;
  sshkeys_priv : string;
  sshkeys_priv_data : string;
  sshkeys_pub_data : string;
  sshkeys_passphrase : string;
  known_hosts_file : string;
  verify_host_key : bool;
  host_key_policy : Z;
  host_key_store : ptr;
  client_identity_provider : ptr;
  client_auth_order : Z;
  client_identity_fallback_policy : Z;
  method_prefs : gmap Z string;
  ssh_banner : string;
  sshport : Z;
  keepalive_interval : Z;
  use_agent : bool;
  explicit_key_files : bool;
  explicit_key_data : bool;
  auto_key_files : bool;
  auth_methods : string;
  sshauthenticatedwith : option string;
  connect_in_progress : bool;
  poll_op_in_progress : bool;
  channel_set : gset positive;
  listener_set : gset positive;
  session_fd_hold : bool;
  ssh_session : ptr;
  sftppath : string;
  sftp_session : ptr
}.

#[export] Instance eta_client : Eta client := λ c,
  mkClient c.(kls) c.(sshhost) c.(sshuser) c.(sshpass) c.(sshkeys_pub) c.(sshkeys_priv)
    c.(sshkeys_priv_data) c.(sshkeys_pub_data) c.(sshkeys_passphrase) c.(known_hosts_file)
    c.(verify_host_key) c.(host_key_policy) c.(host_key_store) c.(client_identity_provider)
    c.(client_auth_order) c.(client_identity_fallback_policy) c.(method_prefs) c.(ssh_banner)
    c.(sshport) c.(keepalive_interval) c.(use_agent) c.(explicit_key_files) c.(explicit_key_data)
    c.(auto_key_files) c.(auth_methods) c.(sshauthenticatedwith) c.(connect_in_progress)
    c.(poll_op_in_progress) c.(channel_set) c.(listener_set) c.(session_fd_hold) c.(ssh_session)
    c.(sftppath) c.(sftp_session).

(** [SSH2Channel] and [SSH2Listener] objects.  They outlive their registration
    in the client, so the store of objects is separate from the client's sets. *)
Record chan := mkChan { ch_channel : ptr }.
Record lst := mkLst { ls_listener : ptr; ls_bound_port : Z }.

#[export] Instance eta_chan : Eta chan := λ c, mkChan c.(ch_channel).
#[export] Instance eta_lst : Eta lst := λ l, mkLst l.(ls_listener) l.(ls_bound_port).

(** ** The state and the monad

    [qhandle] is the [sftp_handle] member of the innermost live [QSftpHelper];
    [nextobj] numbers the channel and listener objects. *)

Record st (E : Type) := mkSt {
  cl : client;
  xsink : list exc;
  chans : gmap positive chan;
  lsts : gmap positive lst;
  nextobj : positive;
  qhandle : ptr;
  env : E;
  trace : list event
}.
Arguments mkSt {E} _ _ _ _ _ _ _ _.
Arguments cl {E} _.
Arguments xsink {E} _.
Arguments chans {E} _.
Arguments lsts {E} _.
Arguments nextobj {E} _.
Arguments qhandle {E} _.
Arguments env {E} _.
Arguments trace {E} _.

#[export] Instance eta_st {E} : Eta (st E) :=
  λ s, mkSt (cl s) (xsink s) (chans s) (lsts s) (nextobj s) (qhandle s) (env s) (trace s).

Section ops.
Context {E : Type} `{!Env E}.

Abbreviation M := (prog (st E)).

(** A request: the environment answers, and the event is logged. *)
Definition call (r : req) : M (ans r) := λ s,
  let '(a, e') := answer r (env s) in
  Some (a, s <| env := e' |> <| trace := Ev r a :: trace s |>).

Definition callZ (c : zcall) : M Z := call (QZ c).
Definition callB (c : bcall) : M bool := call (QB c).
Definition callU (c : ucall) : M unit := call (QU c).
Definition callH (c : hcall) : M ptr := call (QH c).
Definition callS (c : scall) : M (option string) := call (QS c).

(** A field of the client; an update of the client. *)
Definition cfield {A} (f : client → A) : M A := gets (λ s, f (cl s)).
Definition upd (f : client → client) : M unit := modify (λ s, s <| cl := f (cl s) |>).

(** [xsink && xsink->raiseException(err, ...)]: [xs] says whether [xsink] is set. *)
Definition raise_exc (xs : bool) (e : exc) : M unit :=
  when xs (modify (λ s, s <| xsink := e :: xsink s |>)).
Definition raise (xs : bool) (err : string) : M unit := raise_exc xs (Exc err NoDetail).

(** [*xsink]: an exception has been raised. *)
Definition has_exc : M bool := gets (λ s, match xsink s with [] => false | _ => true end).

(** [qore_check_cancel(xsink)]: true if the thread is cancelled; then an
    exception is raised. *)
Definition qore_check_cancel (xs : bool) : M bool :=
  b ← callB check_cancel;
  _ ← when b (raise_exc xs ExternalExc);
  mret b.

(** [while ((rc = op()) == LIBSSH2_ERROR_EAGAIN) { if (wait()) return ...; }]:
    [None] when the wait failed. *)
Definition while_eagain (op : M Z) (wait : M bool) : M (option Z) :=
  loop fuel (λ _ : unit,
    rc ← op;
    if rc =? LIBSSH2_ERROR_EAGAIN then
      failed ← wait;
      mret (if failed : bool then inr None else inl tt)
    else mret (inr (Some rc))) tt.

(** The trace and the environment change, nothing else. *)
Definition logged (s : st E) (ev : event) (e' : E) : st E :=
  s <| env := e' |> <| trace := ev :: trace s |>.

Lemma wp_call d r (Q : ans r → st E → Prop) s :
  (∀ a e', answer r (env s) = (a, e') → Q a (logged s (Ev r a) e')) → wp d (call r) Q s.
Proof. intros H. unfold wp, call. destruct (answer r (env s)) as [a e'] eqn:Ea. by apply H. Qed.

Lemma wp_callZ d c (Q : Z → st E → Prop) s :
  (∀ a e', answer (QZ c) (env s) = (a, e') → Q a (logged s (Ev (QZ c) a) e')) → wp d (callZ c) Q s.
Proof. apply (wp_call d (QZ c)). Qed.

Lemma wp_callB d c (Q : bool → st E → Prop) s :
  (∀ a e', answer (QB c) (env s) = (a, e') → Q a (logged s (Ev (QB c) a) e')) → wp d (callB c) Q s.
Proof. apply (wp_call d (QB c)). Qed.

Lemma wp_callU d c (Q : unit → st E → Prop) s :
  (∀ a e', answer (QU c) (env s) = (a, e') → Q a (logged s (Ev (QU c) a) e')) → wp d (callU c) Q s.
Proof. apply (wp_call d (QU c)). Qed.

Lemma wp_callH d c (Q : ptr → st E → Prop) s :
  (∀ a e', answer (QH c) (env s) = (a, e') → Q a (logged s (Ev (QH c) a) e')) → wp d (callH c) Q s.
Proof. apply (wp_call d (QH c)). Qed.

Lemma wp_callS d c (Q : option string → st E → Prop) s :
  (∀ a e', answer (QS c) (env s) = (a, e') → Q a (logged s (Ev (QS c) a) e')) → wp d (callS c) Q s.
Proof. apply (wp_call d (QS c)). Qed.

Lemma wp_cfield {A} d (f : client → A) (Q : A → st E → Prop) s :
  Q (f (cl s)) s → wp d (cfield f) Q s.
Proof. done. Qed.

Lemma wp_upd d (f : client → client) (Q : unit → st E → Prop) s :
  Q tt (s <| cl := f (cl s) |>) → wp d (upd f) Q s.
Proof. done. Qed.

Lemma wp_raise_exc d xs e (Q : unit → st E → Prop) s :
  Q tt (if xs : bool then s <| xsink := e :: xsink s |> else s) → wp d (raise_exc xs e) Q s.
Proof. by destruct xs. Qed.

Lemma wp_raise d xs err (Q : unit → st E → Prop) s :
  Q tt (if xs : bool then s <| xsink := Exc err NoDetail :: xsink s |> else s) → wp d (raise xs err) Q s.
Proof. apply wp_raise_exc. Qed.

Lemma wp_has_exc d (Q : bool → st E → Prop) s :
  (xsink s ≠ [] → Q true s) → (xsink s = [] → Q false s) → wp d has_exc Q s.
Proof. intros H1 H2. unfold has_exc. apply wp_gets. destruct (xsink s); auto. Qed.

(** Relations that do not look at the log, the environment or the collected
    exceptions: requests and exceptions preserve them. *)
Class Frame (R : relation (st E)) := {
  frame_preorder :: PreOrder R;
  frame_logged s ev e' : R s (logged s ev e');
  frame_xsink s e : R s (s <| xsink := e :: xsink s |>)
}.

Lemma preserves_while_eagain (R : relation (st E)) `{!PreOrder R} (op : M Z) (wait : M bool) :
  preserves R op → preserves R wait → preserves R (while_eagain op wait).
Proof. intros Ho Hw. unfold while_eagain. preserves_auto; done. Qed.

Lemma preserves_call (R : relation (st E)) `{!Frame R} r : preserves R (call r).
Proof. intros s. apply wp_call. intros. apply frame_logged. Qed.

Lemma preserves_raise_exc (R : relation (st E)) `{!Frame R} xs e : preserves R (raise_exc xs e).
Proof. intros s. apply wp_raise_exc. destruct xs; [apply frame_xsink|reflexivity]. Qed.

Lemma preserves_upd (R : relation (st E)) f :
  (∀ s, R s (s <| cl := f (cl s) |>)) → preserves R (upd f).
Proof. intros H s. apply wp_upd, H. Qed.

(** [emits P]: the operation logs only events that satisfy [P]. *)
Definition emits (P : event → Prop) (s s' : st E) : Prop :=
  ∃ t, trace s' = t ++ trace s ∧ Forall P t.

#[export] Instance emits_preorder P : PreOrder (emits P).
Proof.
  split.
  - intros s. by exists [].
  - intros s1 s2 s3 (t1 & E1 & F1) (t2 & E2 & F2). exists (t2 ++ t1). split.
    + by rewrite E2, E1, app_assoc.
    + by apply Forall_app.
Qed.

Lemma preserves_emits_call (P : event → Prop) r : (∀ a, P (Ev r a)) → preserves (emits P) (call r).
Proof. intros H s. apply wp_call. intros a e' _. exists [Ev r a]. by split; [|constructor]. Qed.

Lemma preserves_emits_raise P xs e : preserves (emits P) (raise_exc xs e).
Proof. intros s. apply wp_raise_exc. destruct xs; [by exists []|reflexivity]. Qed.

Lemma emits_weaken P Q s s' : (∀ e, P e → Q e) → emits P s s' → emits Q s s'.
Proof. intros H (t & ? & F). exists t. split; [done|]. eapply Forall_impl; [exact F|done]. Qed.

(** [grows]: the log only gets longer; [new s s' ev]: the event was logged between
    [s] and [s'].  [quiet]: nothing but the log, the environment and the collected
    exceptions changes. *)
Definition grows (s s' : st E) : Prop := ∃ t, trace s' = t ++ trace s.

Definition new (s s' : st E) (ev : event) : Prop := ∃ t, trace s' = t ++ trace s ∧ ev ∈ t.

Definition quiet (s s' : st E) : Prop :=
  cl s' = cl s ∧ chans s' = chans s ∧ lsts s' = lsts s ∧ nextobj s' = nextobj s ∧
  qhandle s' = qhandle s.

#[export] Instance grows_frame : Frame grows.
Proof.
  split; [split| |].
  - intros s. by exists [].
  - intros s1 s2 s3 [t1 E1] [t2 E2]. exists (t2 ++ t1). by rewrite E2, E1, app_assoc.
  - intros s ev e'. by exists [ev].
  - intros s e. by exists [].
Qed.

#[export] Instance quiet_frame : Frame quiet.
Proof.
  split; [split| |]; unfold quiet; [by intros ?| |done|done].
  intros ??? (->&->&->&->&->) (->&->&->&->&->). done.
Qed.

(** Exceptions are only ever added. *)
Definition xsink_grows (s s' : st E) : Prop := ∃ l, xsink s' = l ++ xsink s.

#[export] Instance xsink_grows_frame : Frame xsink_grows.
Proof.
  split; [split| |].
  - intros s. by exists [].
  - intros s1 s2 s3 [t1 E1] [t2 E2]. exists (t2 ++ t1). by rewrite E2, E1, app_assoc.
  - intros s ev e'. by exists [].
  - intros s e. by exists [e].
Qed.

Lemma xsink_grows_nonempty s s' : xsink s ≠ [] → xsink_grows s s' → xsink s' ≠ [].
Proof. intros Hs [l ->]. by destruct l, (xsink s). Qed.

Lemma new_logged s0 s ev e' : grows s0 s → new s0 (logged s ev e') ev.
Proof. intros [t Ht]. exists (ev :: t). simpl. rewrite Ht. split; [done|constructor]. Qed.

Lemma new_grows s0 s s' ev : new s0 s ev → grows s s' → new s0 s' ev.
Proof.
  intros (t & E1 & Hin) [t2 E2]. exists (t2 ++ t). split; [by rewrite E2, E1, app_assoc|].
  apply elem_of_app. by right.
Qed.

Lemma new_weaken s0 s1 s ev : grows s0 s1 → new s1 s ev → new s0 s ev.
Proof.
  intros [t1 E1] (t & E2 & Hin). exists (t ++ t1). split; [by rewrite E2, E1, app_assoc|].
  apply elem_of_app. by left.
Qed.

Lemma emits_grows P (s s' : st E) : emits P s s' → grows s s'.
Proof. intros (t & ? & _). by exists t. Qed.

(** Authentication requests: those that send credentials to the server. *)
Definition sends_credentials (r : req) : bool :=
  match r with
  | QZ (userauth_password _ _ _) | QZ (userauth_keyboard_interactive _ _ _)
  | QZ (userauth_publickey_fromfile _ _ _ _ _) | QZ (userauth_publickey_frommemory _ _ _ _ _)
  | QZ (agent_userauth _ _ _) => true
  | _ => false
  end.

Definition no_credentials (e : event) : Prop := let '(Ev r _) := e in sends_credentials r = false.

(** Data requests: those that move the contents of files, directories, channels
    and streams. *)
Definition moves_data (r : req) : bool :=
  match r with
  | QZ (channel_write _ _ _) | QZ (sftp_write _ _) | QB (ostream_write _) | QB (file_write _)
  | channel_read _ _ _ | sftp_read _ _ | sftp_readdir _ | istream_read _ | istream_read_unlocked _
  | ostream_write_unlocked _ | file_read _ => true
  | _ => false
  end.

(** The request with which a session with a server begins: after the handshake its host key is
    known, and what is sent is encrypted for its owner. *)
Definition opens_session (r : req) : bool := match r with QZ (session_handshake _ _) => true | _ => false end.

Definition same_session (e : event) : Prop := let '(Ev r _) := e in opens_session r = false.

(** The other requests. *)
Definition plain (r : req) : bool := negb (sends_credentials r || moves_data r || opens_session r).

(** A set of events that contains every plain request. *)
Class Plain (P : event → Prop) := plain_event r a : plain r = true → P (Ev r a).

#[export] Instance no_credentials_plain : Plain no_credentials.
Proof. intros r a. unfold plain. simpl. by destruct (sends_credentials r). Qed.

#[export] Instance same_session_plain : Plain same_session.
Proof. intros r a. unfold plain. simpl. by destruct (sends_credentials r), (moves_data r), (opens_session r). Qed.

(** Relations that plain requests preserve. *)
Class Basic (R : relation (st E)) := {
  basic_preorder :: PreOrder R;
  basic_logged s r a e' : plain r = true → R s (logged s (Ev r a) e');
  basic_xsink s e : R s (s <| xsink := e :: xsink s |>)
}.

(** Relations that every request preserves that neither sends credentials nor begins a session. *)
Class Carrier (R : relation (st E)) := {
  carrier_preorder :: PreOrder R;
  carrier_logged s r a e' : sends_credentials r = false → opens_session r = false → R s (logged s (Ev r a) e');
  carrier_xsink s e : R s (s <| xsink := e :: xsink s |>)
}.

#[export] Instance frame_carrier R : Frame R → Carrier R.
Proof. intros H. split; [apply _|intros; apply frame_logged|intros; apply frame_xsink]. Qed.

#[export] Instance carrier_basic R : Carrier R → Basic R.
Proof.
  intros H. split; [apply _| |apply carrier_xsink].
  intros s r a e' Hr. apply carrier_logged; unfold plain in Hr; by destruct (sends_credentials r), (moves_data r), (opens_session r).
Qed.

#[export] Instance emits_basic P : Plain P → Basic (emits P).
Proof.
  intros HP. split; [apply _| |by exists []].
  intros s r a e' Hr. exists [Ev r a]. split; [done|]. constructor; [by apply HP|constructor].
Qed.

#[export] Instance no_credentials_carrier : Carrier (emits no_credentials).
Proof. split; [apply _| |by exists []]. intros s r a e' Hr _. exists [Ev r a]. split; [done|by repeat constructor]. Qed.

(** Both of two relations. *)
Definition both (R1 R2 : relation (st E)) (s s' : st E) : Prop := R1 s s' ∧ R2 s s'.

#[export] Instance both_basic R1 R2 : Basic R1 → Basic R2 → Basic (both R1 R2).
Proof.
  intros H1 H2. split; [split| |].
  - intros s. split; reflexivity.
  - intros s1 s2 s3 [A1 A2] [B1 B2]. split; by transitivity s2.
  - intros. split; by apply basic_logged.
  - intros. split; apply basic_xsink.
Qed.

Lemma preserves_basic_call (R : relation (st E)) `{!Basic R} r :
  plain r = true → preserves R (call r).
Proof. intros Hr s. apply wp_call. intros. by apply basic_logged. Qed.

Lemma preserves_carrier_call (R : relation (st E)) `{!Carrier R} r :
  sends_credentials r = false → opens_session r = false → preserves R (call r).
Proof. intros Hr Ho s. apply wp_call. intros. by apply carrier_logged. Qed.

Lemma preserves_handshake P s fd : (∀ a, P (Ev (QZ (session_handshake s fd)) a)) → preserves (emits P) (callZ (session_handshake s fd)).
Proof. intros HP. by apply (preserves_emits_call P (QZ (session_handshake s fd))). Qed.

Lemma preserves_basic_raise_exc (R : relation (st E)) `{!Basic R} xs e : preserves R (raise_exc xs e).
Proof. intros s. apply wp_raise_exc. destruct xs; [apply basic_xsink|reflexivity]. Qed.

(** ** Data flow

    [streamed f s]: what [f] finds in the events of [s], oldest first;
    [advances f s s' bs]: [bs] were moved between [s] and [s']. *)
Definition streamed {A} (f : event → list A) (s : st E) : list A :=
  concat (f <$> reverse (trace s)).

Definition advances {A} (f : event → list A) (s s' : st E) (bs : list A) : Prop :=
  streamed f s' = streamed f s ++ bs.

Definition silent {A} (f : event → list A) (e : event) : Prop := f e = [].

Lemma advances_refl {A} (f : event → list A) s : advances f s s [].
Proof. unfold advances. by rewrite app_nil_r. Qed.

Lemma advances_trans {A} (f : event → list A) s1 s2 s3 bs1 bs2 :
  advances f s1 s2 bs1 → advances f s2 s3 bs2 → advances f s1 s3 (bs1 ++ bs2).
Proof. unfold advances. intros H1 H2. by rewrite H2, H1, <- app_assoc. Qed.

Lemma advances_logged {A} (f : event → list A) s ev e' : advances f s (logged s ev e') (f ev).
Proof.
  unfold advances, streamed. simpl. rewrite reverse_cons, fmap_app, concat_app. simpl.
  by rewrite app_nil_r.
Qed.

Lemma advances_silent {A} (f : event → list A) s s' : emits (silent f) s s' → advances f s s' [].
Proof.
  intros (t & Et & Ft). unfold advances, streamed. rewrite Et, reverse_app, fmap_app, concat_app.
  f_equal. assert (concat (f <$> reverse t) = []) as ->; [|done].
  clear Et. induction Ft as [|ev t Hev _ IH]; [done|].
  rewrite reverse_cons, fmap_app, concat_app, IH. simpl. by rewrite Hev.
Qed.

Lemma advances_same {A} (f : event → list A) (s s' : st E) : trace s' = trace s → advances f s s' [].
Proof. unfold advances, streamed. intros ->. by rewrite app_nil_r. Qed.

(** ** Termination

    [total m]: when the environment answers EAGAIN only finitely often, and less
    often than the fuel allows, [m] ends.  [budget] counts the EAGAIN answers
    that are left. *)
Class Budget (budget : E → nat) := {
  budget_mono r e : (budget (answer r e).2 ≤ budget e)%nat;
  budget_eagain c e :
    (answer (QZ c) e).1 = LIBSSH2_ERROR_EAGAIN → (budget (answer (QZ c) e).2 < budget e)%nat
}.

Section budget.
Context (budget : E → nat) `{!Budget budget}.

Definition total {A} (m : M A) : Prop :=
  ∀ s, (budget (env s) < fuel)%nat → wp False m (λ _ s', (budget (env s') ≤ budget (env s))%nat) s.

Lemma total_ret {A} (a : A) : total (mret a).
Proof. intros s _. by apply wp_mret. Qed.

Lemma total_gets {A} (f : st E → A) : total (gets f).
Proof. intros s _. by apply wp_gets. Qed.

Lemma total_modify f : (∀ s, env (f s) = env s) → total (modify f).
Proof. intros H s _. apply wp_modify. by rewrite H. Qed.

Lemma total_bind {A B} (m : M A) (k : A → M B) : total m → (∀ a, total (k a)) → total (m ≫= k).
Proof.
  intros Hm Hk s Hs. apply wp_bind. eapply wp_mono; [|by apply Hm]. intros a s1 H1. simpl in *.
  eapply wp_mono; [|apply Hk; lia]. simpl. lia.
Qed.

Lemma total_when (b : bool) (m : M unit) : total m → total (when b m).
Proof. intros H. destruct b; [done|apply total_ret]. Qed.

Lemma total_call r : total (call r).
Proof.
  intros s _. apply wp_call. intros a e' Ea. simpl.
  pose proof (budget_mono r (env s)) as H. by rewrite Ea in H.
Qed.

Lemma total_raise xs e : total (raise_exc xs e).
Proof. apply total_when, total_modify. done. Qed.

Lemma total_for_each {A} (l : list A) (body : A → M unit) :
  (∀ a, total (body a)) → total (for_each l body).
Proof.
  intros Hb s Hs. apply (wp_for_each (λ _ s', (budget (env s') ≤ budget (env s))%nat)); [|lia].
  intros a l' s1 H1. simpl in H1. eapply wp_mono; [|apply Hb; lia]. simpl. lia.
Qed.

(** The EAGAIN loop ends: [op] is one request after steps that log nothing. *)
Lemma total_while_eagain (f : client → ptr) (op : ptr → zcall) (wait : M bool) :
  total wait → total (while_eagain (s ← cfield f; callZ (op s)) wait).
Proof.
  intros Hw s Hs. unfold while_eagain.
  apply (wp_loop_total (λ _ s', (budget (env s') ≤ budget (env s))%nat) (λ _ s', budget (env s')));
    [|lia..].
  intros _ s1 H1. repeat wp_step. apply wp_cfield. apply wp_callZ. intros a e' Ea.
  pose proof (budget_mono (QZ (op (f (cl s1)))) (env s1)) as Hm.
  pose proof (budget_eagain (op (f (cl s1))) (env s1)) as Heq.
  rewrite Ea in Hm, Heq. simpl in Hm, Heq.
  destruct (Z.eqb_spec a LIBSSH2_ERROR_EAGAIN) as [Ha|_]; [|apply wp_mret; simpl; lia].
  specialize (Heq Ha). apply wp_bind. eapply wp_mono; [|apply Hw; simpl; lia].
  intros [] s2 H2; simpl in H2; apply wp_mret; lia.
Qed.
End budget.
End ops.

Ltac wp_world :=
  lazymatch goal with
  | |- wp _ (call ?r) _ _ => apply (wp_call _ r); intros
  | |- wp _ (callZ _) _ _ => apply wp_callZ; intros
  | |- wp _ (callB _) _ _ => apply wp_callB; intros
  | |- wp _ (callU _) _ _ => apply wp_callU; intros
  | |- wp _ (callH _) _ _ => apply wp_callH; intros
  | |- wp _ (callS _) _ _ => apply wp_callS; intros
  | |- wp _ (cfield _) _ _ => apply wp_cfield
  | |- wp _ (upd _) _ _ => apply wp_upd
  | |- wp _ has_exc _ _ => apply wp_has_exc; intros
  | |- wp _ (raise _ _) _ _ => apply wp_raise
  | |- wp _ (raise_exc _ _) _ _ => apply wp_raise_exc
  end; cbv beta.

Create HintDb total discriminated.

(** Termination by structural descent. *)
Ltac total_step :=
  lazymatch goal with
  | |- total _ (mbind _ _) => apply total_bind; [|intros ?]
  | |- total _ (mret _) => apply total_ret
  | |- total _ (gets _) => apply total_gets
  | |- total _ (cfield _) => apply total_gets
  | |- total _ (when _ _) => apply total_when
  | |- total _ (call ?r) => apply (total_call _ r)
  | |- total _ (callZ ?c) => apply (total_call _ (QZ c))
  | |- total _ (callB ?c) => apply (total_call _ (QB c))
  | |- total _ (callU ?c) => apply (total_call _ (QU c))
  | |- total _ (callH ?c) => apply (total_call _ (QH c))
  | |- total _ (callS ?c) => apply (total_call _ (QS c))
  | |- total _ (raise _ _) => apply total_raise
  | |- total _ (raise_exc _ _) => apply total_raise
  | |- total _ (upd _) => apply total_modify; done
  | |- total _ (modify _) => apply total_modify; done
  | |- total _ (for_each _ _) => apply total_for_each; intros ?
  | |- total _ (while_eagain _ _) => apply total_while_eagain
  | |- total _ (if ?b then _ else _) => destruct b
  | |- total _ (match ?x with _ => _ end) => destruct x
  end.

Ltac total_auto :=
  repeat (cbv beta zeta; first [solve [eauto 2 with total] | total_step]).
