(* ===== verification/Sim.v ===== *)
(** Concrete environments on which the theorems are instantiated: a quiet server
    that accepts everything, and variations of it that override single answers.
    The state of such an environment is the number of requests answered so far. *)

From S2P Require Import Prelude World.

(** The answers of a server and an operating system on which nothing fails. *)
Definition quiet_ans (r : req) : ans r :=
  match r with
  | QZ (socket_asyncIoWait _ _ _) => 1
  | QZ socket_getSocket => 3
  | QZ _ => 0
  | QB check_cancel | QB po_no_filesystem | QB sandbox_present | QB (channel_eof _) | QB (value_bool _) => false
  | QB _ => true
  | QU _ => tt
  | QH _ => Some 1%positive
  | QS (userauth_list _ _) => Some "publickey,password"%string
  | QS (env_value _) | QS (value_string _) | QS (session_banner_get _) | QS (session_methods _ _) => None
  | session_hostkey _ => Some ("key"%string, LIBSSH2_HOSTKEY_TYPE_RSA)
  | hostkey_hash _ _ => None
  | session_supported_algs _ _ => (0, [])
  | channel_get_exit_signal _ => (0, (None, None, None))
  | getpwuid => Some ("user"%string, "/home/user"%string)
  | fs_stat _ => inl 0x81A4
  | fs_mkdir _ _ => None
  | resolve_host _ _ => Some []
  | channel_read _ _ _ => (0, [])
  | sftp_read _ _ => (0, [])
  | sftp_stat _ _ _ => (0, mkAttrs 0 0 0 0 0 0 0)
  | sftp_readdir _ => (0, (EmptyString, mkAttrs 0 0 0 0 0 0 0))
  | istream_read _ => Some []
  | istream_read_unlocked _ => ([], Some [])
  | ostream_write_unlocked _ => ([], true)
  | file_stat => Some (0, 0x81A4)
  | file_read _ => Some []
  | sftp_statvfs _ _ => (0, [])
  | sftp_resolve _ _ _ => (1, "/"%string)
  | eval_method _ _ _ => ([], Some (QHash []))
  | socket_startConnect _ => (Some 1%positive, false)
  | connect_continuePoll _ => (0, false)
  | connect_wait_info _ => ([], -1)
  end.

(** An environment from a table of answers by request number. *)
Definition sim_env (f : nat → ∀ r : req, ans r) (n : nat) : Env nat :=
  {| answer r i := (f i r, S i); fuel := n |}.

Definition quiet_env : Env nat := sim_env (λ _, quiet_ans) 20.

(** A client as its constructor leaves it, for the user [user] with a password. *)
Definition client0 (k : client_class) : client :=
  mkClient k "host" "user" "secret" EmptyString EmptyString EmptyString EmptyString EmptyString
    "/home/user/.ssh/known_hosts" true SSH2_HOSTKEY_TOFU None None SSH2_CLIENT_AUTH_EXPLICIT_FIRST
    SSH2_CLIENT_ID_FALLBACK_DISABLED ∅ EmptyString DEFAULT_SSH_PORT QKEEPALIVE_DEFAULT true false
    false false EmptyString None false false ∅ ∅ false None EmptyString None.

Definition state0 (c : client) : st nat := mkSt c [] ∅ ∅ 1 None 0%nat [].

(** The state an execution ends in. *)
Definition final {A} (m : prog (st nat) A) (s : st nat) : option (st nat) := snd <$> m s.
Definition result {A} (m : prog (st nat) A) (s : st nat) : option A := fst <$> m s.

(** A run from its computed result. *)
Lemma run_result {A} (m : prog (st nat) A) s v :
  result m s = Some v → ∃ s', m s = Some (v, s') ∧ final m s = Some s'.
Proof.
  unfold result, final. destruct (m s) as [[a s']|]; simpl; [|done]. intros [= ->]. by exists s'.
Qed.

(** A loop whose body always leads back to where it started never ends. *)
Lemma lost_loop {A B} (body : A → prog (st nat) (A + B)) a :
  (∀ s, ∃ s', body a s = Some (inl a, s')) → ∀ n s, loop n body a s = None.
Proof.
  intros Hb n. induction n as [|n IH]; intros s; simpl; [done|].
  unfold mbind, prog_bind. destruct (Hb s) as [s' ->]. apply IH.
Qed.

Lemma quiet_budget : @Budget nat quiet_env (λ _, 0%nat).
Proof.
  split; [done|]. intros c e. destruct c; vm_compute; discriminate.
Qed.
