(* ===== verification/Defaults.v ===== *)
(** The process-global host key defaults of ssh2-module.cpp: the environment
    variables read at initialisation, and the programmatic setters that override
    them. *)

From S2P Require Import Prelude World.

(** [Ssh2HostKeyDefaults] *)
Record defaults := mkDefaults {
  df_verify : bool;
  df_policy : Z;
  df_kh_mode : Z;
  df_kh_path : string
}.

#[export] Instance eta_defaults : Eta defaults := λ d,
  mkDefaults d.(df_verify) d.(df_policy) d.(df_kh_mode) d.(df_kh_path).

(** The built-in values. *)
Definition builtin_defaults : defaults :=
  mkDefaults true SSH2_HOSTKEY_TOFU SSH2_KH_DEFAULT_AUTO EmptyString.

Definition one_of (val : string) (names : list string) : bool :=
  existsb (str_caseeq val) names.

(** [val] is null when the variable is not set. *)
Definition ssh2_parse_env_bool (val : option string) (def : bool) : bool :=
  match val with
  | None => def
  | Some v =>
      if str_empty v then def
      else if one_of v ["1"; "true"; "yes"; "on"]%string then true
      else if one_of v ["0"; "false"; "no"; "off"]%string then false
      else def
  end.

(** The environment: the values of the three QORE_SSH2_DEFAULT_* variables. *)
Definition ssh2_init_host_key_defaults (verify_env policy_env known_hosts_env : option string)
    (d : defaults) : defaults :=
  let d := match verify_env with
           | Some v => d <| df_verify := ssh2_parse_env_bool (Some v) (df_verify d) |>
           | None => d
           end in
  let d := match policy_env with
           | Some v =>
               if one_of v ["reject"; "0"]%string then d <| df_policy := SSH2_HOSTKEY_REJECT |>
               else if one_of v ["tofu"; "1"]%string then d <| df_policy := SSH2_HOSTKEY_TOFU |>
               else if one_of v ["tofu-session"; "tofu_session"; "session"; "2"]%string
                    then d <| df_policy := SSH2_HOSTKEY_TOFU_SESSION |>
               else d
           | None => d
           end in
  match known_hosts_env with
  | Some v =>
      if str_empty v
      then d <| df_kh_mode := SSH2_KH_DEFAULT_DISABLED |> <| df_kh_path := EmptyString |>
      else d <| df_kh_mode := SSH2_KH_DEFAULT_EXPLICIT |> <| df_kh_path := v |>
  | None => d
  end.

Definition ssh2_set_default_verify_host_key (verify : bool) (d : defaults) : defaults :=
  d <| df_verify := verify |>.

Definition valid_policy (policy : Z) : bool :=
  (policy =? SSH2_HOSTKEY_REJECT) || (policy =? SSH2_HOSTKEY_TOFU) ||
  (policy =? SSH2_HOSTKEY_TOFU_SESSION).

(** The return code and the new defaults. *)
Definition ssh2_set_default_host_key_policy (policy : Z) (d : defaults) : Z * defaults :=
  if negb (valid_policy policy) then (-1, d) else (0, d <| df_policy := policy |>).

(** [path] is the argument's value before the call; it is written in explicit mode. *)
Definition ssh2_get_default_known_hosts (d : defaults) (path : string) : Z * string :=
  (df_kh_mode d, if df_kh_mode d =? SSH2_KH_DEFAULT_EXPLICIT then df_kh_path d else path).

Definition ssh2_set_default_known_hosts (mode : Z) (path : option string) (d : defaults) : defaults :=
  let d := d <| df_kh_mode := mode |> in
  match path with
  | Some p => if mode =? SSH2_KH_DEFAULT_EXPLICIT then d <| df_kh_path := p |>
              else d <| df_kh_path := EmptyString |>
  | None => d <| df_kh_path := EmptyString |>
  end.

(** ** Every way the defaults can change *)

Inductive defaults_op :=
  | DoInit (verify_env policy_env known_hosts_env : option string)
  | DoSetVerify (verify : bool)
  | DoSetPolicy (policy : Z)
  | DoSetKnownHosts (mode : Z) (path : option string).

Definition run_defaults_op (op : defaults_op) (d : defaults) : defaults :=
  match op with
  | DoInit v p k => ssh2_init_host_key_defaults v p k d
  | DoSetVerify v => ssh2_set_default_verify_host_key v d
  | DoSetPolicy p => (ssh2_set_default_host_key_policy p d).2
  | DoSetKnownHosts m p => ssh2_set_default_known_hosts m p d
  end.

(** A path is kept in explicit mode only. *)
Definition defaults_ok (d : defaults) : Prop :=
  valid_policy (df_policy d) = true ∧
  (df_kh_mode d ≠ SSH2_KH_DEFAULT_EXPLICIT → df_kh_path d = EmptyString).

(** ** Facts *)

Lemma init_policy v p k d :
  df_policy (ssh2_init_host_key_defaults v p k d) =
  match p with
  | Some w => if one_of w ["reject"; "0"]%string then SSH2_HOSTKEY_REJECT
              else if one_of w ["tofu"; "1"]%string then SSH2_HOSTKEY_TOFU
              else if one_of w ["tofu-session"; "tofu_session"; "session"; "2"]%string
                   then SSH2_HOSTKEY_TOFU_SESSION
              else df_policy d
  | None => df_policy d
  end.
Proof.
  unfold ssh2_init_host_key_defaults. destruct v, p, k; simpl; repeat case_match; reflexivity.
Qed.

Lemma init_verify v p k d :
  df_verify (ssh2_init_host_key_defaults v p k d) = ssh2_parse_env_bool v (df_verify d).
Proof.
  unfold ssh2_init_host_key_defaults. destruct v, p, k; simpl; repeat case_match; reflexivity.
Qed.

Lemma init_kh v p k d :
  (df_kh_mode (ssh2_init_host_key_defaults v p k d), df_kh_path (ssh2_init_host_key_defaults v p k d)) =
  match k with
  | Some w => if str_empty w then (SSH2_KH_DEFAULT_DISABLED, EmptyString) else (SSH2_KH_DEFAULT_EXPLICIT, w)
  | None => (df_kh_mode d, df_kh_path d)
  end.
Proof.
  unfold ssh2_init_host_key_defaults. destruct v, p, k; simpl; repeat case_match; reflexivity.
Qed.

Lemma run_defaults_op_ok op d : defaults_ok d → defaults_ok (run_defaults_op op d).
Proof.
  intros [H1 H2]. destruct op as [v p k|v|p|m p]; cbn [run_defaults_op].
  - split.
    + rewrite init_policy. repeat case_match; done.
    + pose proof (init_kh v p k d) as Hk.
      generalize dependent (ssh2_init_host_key_defaults v p k d). intros d' Hk Hm. revert Hk. destruct k as [w|].
      * destruct (str_empty w); intros [= Hk1 Hk2]; [done|]. by rewrite Hk1 in Hm.
      * intros [= Hk1 Hk2]. rewrite Hk2. apply H2. by rewrite <- Hk1.
  - by split.
  - unfold ssh2_set_default_host_key_policy. destruct (valid_policy p) eqn:Hp; by split.
  - unfold ssh2_set_default_known_hosts. destruct p; simpl; [|by split].
    destruct (Z.eqb_spec m SSH2_KH_DEFAULT_EXPLICIT); by split.
Qed.

(** ** Theorems *)

(** Whatever the environment variables and the setters are given, the
    default policy stays one of the three policies, and a default path is stored
    only in explicit mode. *)
Theorem defaults_invariant (ops : list defaults_op) :
  defaults_ok (foldr run_defaults_op builtin_defaults ops).
Proof. induction ops as [|op ops IH]; [by split|]. by apply run_defaults_op_ok. Qed.

(** Precedence: a programmatic setter overrides the environment
    variable, which overrides the built-in value; an unset or unrecognised
    variable leaves the built-in value. *)
Theorem defaults_precedence (v p k : option string) (verify : bool) (policy : Z) :
  let d := ssh2_init_host_key_defaults v p k builtin_defaults in
  df_verify (ssh2_set_default_verify_host_key verify d) = verify ∧
  (valid_policy policy = true → df_policy (ssh2_set_default_host_key_policy policy d).2 = policy) ∧
  (valid_policy policy = false → ssh2_set_default_host_key_policy policy d = (-1, d)) ∧
  df_verify d = ssh2_parse_env_bool v true ∧
  (p = None → df_policy d = SSH2_HOSTKEY_TOFU) ∧
  (k = None → df_kh_mode d = SSH2_KH_DEFAULT_AUTO) ∧
  (k = Some EmptyString → df_kh_mode d = SSH2_KH_DEFAULT_DISABLED) ∧
  (∀ w, k = Some w → w ≠ EmptyString →
     ssh2_get_default_known_hosts d EmptyString = (SSH2_KH_DEFAULT_EXPLICIT, w)).
Proof.
  intros d. subst d. split_and!.
  - done.
  - intros Hv. unfold ssh2_set_default_host_key_policy. by rewrite Hv.
  - intros Hv. unfold ssh2_set_default_host_key_policy. by rewrite Hv.
  - apply init_verify.
  - intros ->. apply init_policy.
  - intros ->. apply (f_equal fst (init_kh v p None builtin_defaults)).
  - intros ->. apply (f_equal fst (init_kh v p (Some EmptyString) builtin_defaults)).
  - intros w -> Hw. pose proof (init_kh v p (Some w) builtin_defaults) as H.
    apply str_empty_false in Hw. unfold ssh2_get_default_known_hosts.
    generalize dependent (ssh2_init_host_key_defaults v p (Some w) builtin_defaults).
    intros d. rewrite Hw. intros [= -> ->]. reflexivity.
Qed.

Lemma defaults_precedence_witness :
  let d := ssh2_init_host_key_defaults (Some "off"%string) (Some "REJECT"%string) None builtin_defaults in
  df_verify d = false ∧ df_policy d = SSH2_HOSTKEY_REJECT ∧
  df_policy (ssh2_set_default_host_key_policy 2 d).2 = 2.
Proof.
  split; [reflexivity|]. split; [reflexivity|].
  apply (defaults_precedence (Some "off"%string) (Some "REJECT"%string) None true 2). reflexivity.
Defined.
