(* ===== verification/Module.v ===== *)
(** Loading and unloading of the module (ssh2-module.cpp): what initialisation needs from
    sshutil, libssh2 and Qore, what it registers, the tables of error codes, and what
    unloading takes back. *)

From S2P Require Import Prelude World Defaults.

#[local] Open Scope string_scope.
#[local] Open Scope list_scope.
#[local] Open Scope Z_scope.

(** ** Constants of libssh2's headers *)

Definition LIBSSH2_ERROR_SOCKET_NONE : Z := -1.
Definition LIBSSH2_ERROR_BANNER_RECV : Z := -2.
Definition LIBSSH2_ERROR_BANNER_SEND : Z := -3.
Definition LIBSSH2_ERROR_INVALID_MAC : Z := -4.
Definition LIBSSH2_ERROR_KEX_FAILURE : Z := -5.
Definition LIBSSH2_ERROR_ALLOC : Z := -6.
Definition LIBSSH2_ERROR_KEY_EXCHANGE_FAILURE : Z := -8.
Definition LIBSSH2_ERROR_TIMEOUT : Z := -9.
Definition LIBSSH2_ERROR_HOSTKEY_INIT : Z := -10.
Definition LIBSSH2_ERROR_HOSTKEY_SIGN : Z := -11.
Definition LIBSSH2_ERROR_DECRYPT : Z := -12.
Definition LIBSSH2_ERROR_PROTO : Z := -14.
Definition LIBSSH2_ERROR_PASSWORD_EXPIRED : Z := -15.
Definition LIBSSH2_ERROR_FILE : Z := -16.
Definition LIBSSH2_ERROR_METHOD_NONE : Z := -17.
Definition LIBSSH2_ERROR_AUTHENTICATION_FAILED : Z := -18.
Definition LIBSSH2_ERROR_PUBLICKEY_UNRECOGNIZED : Z := LIBSSH2_ERROR_AUTHENTICATION_FAILED.
Definition LIBSSH2_ERROR_PUBLICKEY_UNVERIFIED : Z := -19.
Definition LIBSSH2_ERROR_CHANNEL_OUTOFORDER : Z := -20.
Definition LIBSSH2_ERROR_CHANNEL_FAILURE : Z := -21.
Definition LIBSSH2_ERROR_CHANNEL_REQUEST_DENIED : Z := -22.
Definition LIBSSH2_ERROR_CHANNEL_UNKNOWN : Z := -23.
Definition LIBSSH2_ERROR_CHANNEL_WINDOW_EXCEEDED : Z := -24.
Definition LIBSSH2_ERROR_CHANNEL_PACKET_EXCEEDED : Z := -25.
Definition LIBSSH2_ERROR_CHANNEL_CLOSED : Z := -26.
Definition LIBSSH2_ERROR_CHANNEL_EOF_SENT : Z := -27.
Definition LIBSSH2_ERROR_SCP_PROTOCOL : Z := -28.
Definition LIBSSH2_ERROR_ZLIB : Z := -29.
Definition LIBSSH2_ERROR_REQUEST_DENIED : Z := -32.
Definition LIBSSH2_ERROR_METHOD_NOT_SUPPORTED : Z := -33.
Definition LIBSSH2_ERROR_INVALID_POLL_TYPE : Z := -35.
Definition LIBSSH2_ERROR_PUBLICKEY_PROTOCOL : Z := -36.
Definition LIBSSH2_ERROR_BUFFER_TOO_SMALL : Z := -38.
Definition LIBSSH2_ERROR_BAD_USE : Z := -39.
Definition LIBSSH2_ERROR_COMPRESS : Z := -40.
Definition LIBSSH2_ERROR_OUT_OF_BOUNDARY : Z := -41.
Definition LIBSSH2_ERROR_AGENT_PROTOCOL : Z := -42.
Definition LIBSSH2_ERROR_ENCRYPT : Z := -44.
Definition LIBSSH2_ERROR_BAD_SOCKET : Z := -45.
Definition LIBSSH2_ERROR_KNOWN_HOSTS : Z := -46.
Definition LIBSSH2_ERROR_BANNER_NONE : Z := LIBSSH2_ERROR_BANNER_RECV.
Definition LIBSSH2_FX_OK : Z := 0.
Definition LIBSSH2_FX_EOF : Z := 1.
Definition LIBSSH2_FX_PERMISSION_DENIED : Z := 3.
Definition LIBSSH2_FX_FAILURE : Z := 4.
Definition LIBSSH2_FX_BAD_MESSAGE : Z := 5.
Definition LIBSSH2_FX_OP_UNSUPPORTED : Z := 8.
Definition LIBSSH2_FX_INVALID_HANDLE : Z := 9.
Definition LIBSSH2_FX_NO_SUCH_PATH : Z := 10.
Definition LIBSSH2_FX_FILE_ALREADY_EXISTS : Z := 11.
Definition LIBSSH2_FX_WRITE_PROTECT : Z := 12.
Definition LIBSSH2_FX_NO_MEDIA : Z := 13.
Definition LIBSSH2_FX_NO_SPACE_ON_FILESYSTEM : Z := 14.
Definition LIBSSH2_FX_QUOTA_EXCEEDED : Z := 15.
Definition LIBSSH2_FX_UNKNOWN_PRINCIPAL : Z := 16.
Definition LIBSSH2_FX_LOCK_CONFLICT : Z := 17.
Definition LIBSSH2_FX_DIR_NOT_EMPTY : Z := 18.
Definition LIBSSH2_FX_NOT_A_DIRECTORY : Z := 19.
Definition LIBSSH2_FX_INVALID_FILENAME : Z := 20.
Definition LIBSSH2_FX_LINK_LOOP : Z := 21.

Definition trace_constants : list (string * Z) :=
  [("SSH2_TRACE_TRANS", 2); ("SSH2_TRACE_KEX", 4); ("SSH2_TRACE_AUTH", 8); ("SSH2_TRACE_CONN", 16);
   ("SSH2_TRACE_SCP", 32); ("SSH2_TRACE_SFTP", 64); ("SSH2_TRACE_ERROR", 128); ("SSH2_TRACE_PUBLICKEY", 256);
   ("SSH2_TRACE_SOCKET", 512)].

(** ** Tables of error codes *)

Section tables.
Context {A : Type}.

(** [std::map::insert]: an entry that is there stays. *)
Definition map_insert (m : gmap Z A) (e : Z * A) : gmap Z A :=
  match m !! e.1 with Some _ => m | None => <[e.1 := e.2]> m end.

Definition map_insert_all (m : gmap Z A) (l : list (Z * A)) : gmap Z A := foldl map_insert m l.

#[global] Arguments map_insert_all : simpl never.

(** The first entry of a list with a key. *)
Fixpoint first_entry (l : list (Z * A)) (k : Z) : option A :=
  match l with
  | [] => None
  | e :: l => if e.1 =? k then Some e.2 else first_entry l k
  end.

Lemma map_insert_lookup m e k :
  map_insert m e !! k = match m !! k with Some v => Some v | None => if e.1 =? k then Some e.2 else None end.
Proof.
  unfold map_insert. destruct (m !! e.1) as [v|] eqn:He.
  - destruct (m !! k) eqn:Hk; [done|]. destruct (Z.eqb_spec e.1 k); [congruence|done].
  - destruct (Z.eqb_spec e.1 k) as [<-|Hne]; [by rewrite lookup_insert_eq, He|].
    rewrite lookup_insert_ne by done. by destruct (m !! k).
Qed.

(** Filling a table is looking for the first entry. *)
Lemma map_insert_all_lookup l m k :
  map_insert_all m l !! k = match m !! k with Some v => Some v | None => first_entry l k end.
Proof.
  unfold map_insert_all. revert m. induction l as [|e l IH]; intros m; simpl; [by destruct (m !! k)|].
  rewrite IH, map_insert_lookup. destruct (m !! k); [done|]. by destruct (e.1 =? k).
Qed.

(** Filling a table twice changes nothing. *)
Lemma map_insert_all_idemp l m : map_insert_all (map_insert_all m l) l = map_insert_all m l.
Proof. apply map_eq. intros k. rewrite !map_insert_all_lookup. destruct (m !! k); [done|]. by destruct (first_entry l k). Qed.
End tables.

Definition ssh2_errors : list (Z * string) :=
  [(LIBSSH2_ERROR_SOCKET_NONE, "LIBSSH2_ERROR_SOCKET_NONE");
   (LIBSSH2_ERROR_BANNER_RECV, "LIBSSH2_ERROR_BANNER_RECV");
   (LIBSSH2_ERROR_BANNER_SEND, "LIBSSH2_ERROR_BANNER_SEND");
   (LIBSSH2_ERROR_INVALID_MAC, "LIBSSH2_ERROR_INVALID_MAC");
   (LIBSSH2_ERROR_KEX_FAILURE, "LIBSSH2_ERROR_KEX_FAILURE");
   (LIBSSH2_ERROR_ALLOC, "LIBSSH2_ERROR_ALLOC");
   (LIBSSH2_ERROR_SOCKET_SEND, "LIBSSH2_ERROR_SOCKET_SEND");
   (LIBSSH2_ERROR_KEY_EXCHANGE_FAILURE, "LIBSSH2_ERROR_KEY_EXCHANGE_FAILURE");
   (LIBSSH2_ERROR_TIMEOUT, "LIBSSH2_ERROR_TIMEOUT");
   (LIBSSH2_ERROR_HOSTKEY_INIT, "LIBSSH2_ERROR_HOSTKEY_INIT");
   (LIBSSH2_ERROR_HOSTKEY_SIGN, "LIBSSH2_ERROR_HOSTKEY_SIGN");
   (LIBSSH2_ERROR_DECRYPT, "LIBSSH2_ERROR_DECRYPT");
   (LIBSSH2_ERROR_SOCKET_DISCONNECT, "LIBSSH2_ERROR_SOCKET_DISCONNECT");
   (LIBSSH2_ERROR_PROTO, "LIBSSH2_ERROR_PROTO");
   (LIBSSH2_ERROR_PASSWORD_EXPIRED, "LIBSSH2_ERROR_PASSWORD_EXPIRED");
   (LIBSSH2_ERROR_FILE, "LIBSSH2_ERROR_FILE");
   (LIBSSH2_ERROR_METHOD_NONE, "LIBSSH2_ERROR_METHOD_NONE");
   (LIBSSH2_ERROR_AUTHENTICATION_FAILED, "LIBSSH2_ERROR_AUTHENTICATION_FAILED");
   (LIBSSH2_ERROR_PUBLICKEY_UNRECOGNIZED, "LIBSSH2_ERROR_PUBLICKEY_UNRECOGNIZED");
   (LIBSSH2_ERROR_PUBLICKEY_UNVERIFIED, "LIBSSH2_ERROR_PUBLICKEY_UNVERIFIED");
   (LIBSSH2_ERROR_CHANNEL_OUTOFORDER, "LIBSSH2_ERROR_CHANNEL_OUTOFORDER");
   (LIBSSH2_ERROR_CHANNEL_FAILURE, "LIBSSH2_ERROR_CHANNEL_FAILURE");
   (LIBSSH2_ERROR_CHANNEL_REQUEST_DENIED, "LIBSSH2_ERROR_CHANNEL_REQUEST_DENIED");
   (LIBSSH2_ERROR_CHANNEL_UNKNOWN, "LIBSSH2_ERROR_CHANNEL_UNKNOWN");
   (LIBSSH2_ERROR_CHANNEL_WINDOW_EXCEEDED, "LIBSSH2_ERROR_CHANNEL_WINDOW_EXCEEDED");
   (LIBSSH2_ERROR_CHANNEL_PACKET_EXCEEDED, "LIBSSH2_ERROR_CHANNEL_PACKET_EXCEEDED");
   (LIBSSH2_ERROR_CHANNEL_CLOSED, "LIBSSH2_ERROR_CHANNEL_CLOSED");
   (LIBSSH2_ERROR_CHANNEL_EOF_SENT, "LIBSSH2_ERROR_CHANNEL_EOF_SENT");
   (LIBSSH2_ERROR_SCP_PROTOCOL, "LIBSSH2_ERROR_SCP_PROTOCOL");
   (LIBSSH2_ERROR_ZLIB, "LIBSSH2_ERROR_ZLIB");
   (LIBSSH2_ERROR_SOCKET_TIMEOUT, "LIBSSH2_ERROR_SOCKET_TIMEOUT");
   (LIBSSH2_ERROR_SFTP_PROTOCOL, "LIBSSH2_ERROR_SFTP_PROTOCOL");
   (LIBSSH2_ERROR_REQUEST_DENIED, "LIBSSH2_ERROR_REQUEST_DENIED");
   (LIBSSH2_ERROR_METHOD_NOT_SUPPORTED, "LIBSSH2_ERROR_METHOD_NOT_SUPPORTED");
   (LIBSSH2_ERROR_INVAL, "LIBSSH2_ERROR_INVAL");
   (LIBSSH2_ERROR_INVALID_POLL_TYPE, "LIBSSH2_ERROR_INVALID_POLL_TYPE");
   (LIBSSH2_ERROR_PUBLICKEY_PROTOCOL, "LIBSSH2_ERROR_PUBLICKEY_PROTOCOL");
   (LIBSSH2_ERROR_EAGAIN, "LIBSSH2_ERROR_EAGAIN");
   (LIBSSH2_ERROR_BUFFER_TOO_SMALL, "LIBSSH2_ERROR_BUFFER_TOO_SMALL");
   (LIBSSH2_ERROR_BAD_USE, "LIBSSH2_ERROR_BAD_USE");
   (LIBSSH2_ERROR_COMPRESS, "LIBSSH2_ERROR_COMPRESS");
   (LIBSSH2_ERROR_OUT_OF_BOUNDARY, "LIBSSH2_ERROR_OUT_OF_BOUNDARY");
   (LIBSSH2_ERROR_AGENT_PROTOCOL, "LIBSSH2_ERROR_AGENT_PROTOCOL");
   (LIBSSH2_ERROR_SOCKET_RECV, "LIBSSH2_ERROR_SOCKET_RECV");
   (LIBSSH2_ERROR_ENCRYPT, "LIBSSH2_ERROR_ENCRYPT");
   (LIBSSH2_ERROR_BAD_SOCKET, "LIBSSH2_ERROR_BAD_SOCKET");
   (LIBSSH2_ERROR_KNOWN_HOSTS, "LIBSSH2_ERROR_KNOWN_HOSTS");
   (LIBSSH2_ERROR_BANNER_NONE, "LIBSSH2_ERROR_BANNER_NONE")].

Definition sftp_errors : list (Z * (string * string)) :=
  [(LIBSSH2_FX_OK, ("LIBSSH2_FX_OK", "success"));
   (LIBSSH2_FX_EOF, ("LIBSSH2_FX_EOF", "EOF: end of file"));
   (LIBSSH2_FX_NO_SUCH_FILE, ("LIBSSH2_FX_NO_SUCH_FILE", "file does not exist"));
   (LIBSSH2_FX_PERMISSION_DENIED, ("LIBSSH2_FX_PERMISSION_DENIED", "permission denied"));
   (LIBSSH2_FX_FAILURE, ("LIBSSH2_FX_FAILURE", "command failed"));
   (LIBSSH2_FX_BAD_MESSAGE, ("LIBSSH2_FX_BAD_MESSAGE", "bad message"));
   (LIBSSH2_FX_NO_CONNECTION, ("LIBSSH2_FX_NO_CONNECTION", "no connection"));
   (LIBSSH2_FX_CONNECTION_LOST, ("LIBSSH2_FX_CONNECTION_LOST", "connection lost"));
   (LIBSSH2_FX_OP_UNSUPPORTED, ("LIBSSH2_FX_OP_UNSUPPORTED", "sshd sftp server does not support this operation"));
   (LIBSSH2_FX_INVALID_HANDLE, ("LIBSSH2_FX_INVALID_HANDLE", "invalid handle"));
   (LIBSSH2_FX_NO_SUCH_PATH, ("LIBSSH2_FX_NO_SUCH_PATH", "path does not exist"));
   (LIBSSH2_FX_FILE_ALREADY_EXISTS, ("LIBSSH2_FX_FILE_ALREADY_EXISTS", "file already exists"));
   (LIBSSH2_FX_WRITE_PROTECT, ("LIBSSH2_FX_WRITE_PROTECT", "write protected"));
   (LIBSSH2_FX_NO_MEDIA, ("LIBSSH2_FX_NO_MEDIA", "no media"));
   (LIBSSH2_FX_NO_SPACE_ON_FILESYSTEM, ("LIBSSH2_FX_NO_SPACE_ON_FILESYSTEM", "filesystem full"));
   (LIBSSH2_FX_QUOTA_EXCEEDED, ("LIBSSH2_FX_QUOTA_EXCEEDED", "quota exceeded"));
   (LIBSSH2_FX_UNKNOWN_PRINCIPAL, ("LIBSSH2_FX_UNKNOWN_PRINCIPAL", "unknown principal"));
   (LIBSSH2_FX_LOCK_CONFLICT, ("LIBSSH2_FX_LOCK_CONFLICT", "lock conflict"));
   (LIBSSH2_FX_DIR_NOT_EMPTY, ("LIBSSH2_FX_DIR_NOT_EMPTY", "directory not empty"));
   (LIBSSH2_FX_NOT_A_DIRECTORY, ("LIBSSH2_FX_NOT_A_DIRECTORY", "not a directory"));
   (LIBSSH2_FX_INVALID_FILENAME, ("LIBSSH2_FX_INVALID_FILENAME", "invalid filename"));
   (LIBSSH2_FX_LINK_LOOP, ("LIBSSH2_FX_LINK_LOOP", "link loop"))].

(** ** The module *)

Inductive constant := StringConstant (v : option string) | IntConstant (v : Z).

(** What the namespace holds, in the order of registration. *)
Inductive declaration :=
  | HashDecl (name : string)
  | EnumDecl (name : string)
  | SystemClass (name : string)
  | Constant (name : string) (value : constant).

(** The static variables of the module; [loaded_namespaces] are the copies of its namespace
    in the namespaces of programs. *)
Record module_state := mkModule {
  identity_provider_class : ptr;
  host_key_store_class : ptr;
  qore_libssh2_version : option string;
  ssh2_defaults : defaults;
  ssh2_defaults_fork_reg : ptr;
  ssh2_emap : gmap Z string;
  sftp_emap : gmap Z (string * string);
  ssh2ns : list declaration;
  loaded_namespaces : list (list declaration)
}.

#[export] Instance eta_module : Eta module_state := λ m,
  mkModule m.(identity_provider_class) m.(host_key_store_class) m.(qore_libssh2_version) m.(ssh2_defaults)
    m.(ssh2_defaults_fork_reg) m.(ssh2_emap) m.(sftp_emap) m.(ssh2ns) m.(loaded_namespaces).

Definition unloaded : module_state := mkModule None None None builtin_defaults None ∅ ∅ [] [].

(** What surrounds the module.  [accessor name] is [None] where [dlsym] finds no such symbol,
    otherwise what the accessor returns. *)
Class Host := {
  accessor : string → option ptr;
  libssh2_version : Z → option string;
  LIBSSH2_VERSION_NUM : Z;
  environment : string → option string;
  register_fork_handler : ptr
}.

Inductive init_error := ModuleInitError | OutOfMemory.

(** How a call ends: the assertion on the fork handler fails, or with at most one exception. *)
Inductive ended := AssertionFailed | Ended (e : option init_error) (m : module_state).

Section init.
Context `{!Host}.

(** [ssh2_resolve_sshutil_class]: the new value of [target], and whether it raised. *)
Definition ssh2_resolve_sshutil_class (name : string) (target : ptr) : ptr * bool :=
  match accessor name with
  | None => (target, true)
  | Some cls => (cls, bool_decide (cls = None))
  end.

Definition hashdecls : list declaration :=
  [HashDecl "SftpFileInfo"; HashDecl "SftpDirInfo"; HashDecl "SftpConnectionInfo"; HashDecl "Ssh2ConnectionInfo";
   HashDecl "Ssh2StatInfo"; HashDecl "SftpStatVfsInfo"; HashDecl "Ssh2ExitSignalInfo"; HashDecl "Ssh2HostKeyInfo"].

Definition enums : list declaration :=
  [EnumDecl "Ssh2HostKeyPolicy"; EnumDecl "Ssh2ClientAuthOrder"; EnumDecl "Ssh2ClientIdentityFallbackPolicy"].

Definition classes : list declaration :=
  [SystemClass "SSH2Base"; SystemClass "SSH2Channel"; SystemClass "SSH2Listener"; SystemClass "SSH2Client";
   SystemClass "SftpPollOperation"; SystemClass "SFTPClient"].

Definition constants (version : option string) : list declaration :=
  Constant "Version" (StringConstant version) ::
  map (λ '(n, v), Constant n (IntConstant v))
    ([("SSH2_HOSTKEY_REJECT", SSH2_HOSTKEY_REJECT);
      ("SSH2_HOSTKEY_TOFU", SSH2_HOSTKEY_TOFU);
      ("SSH2_HOSTKEY_TOFU_SESSION", SSH2_HOSTKEY_TOFU_SESSION);
      ("SSH2_CLIENT_AUTH_EXPLICIT_FIRST", SSH2_CLIENT_AUTH_EXPLICIT_FIRST);
      ("SSH2_CLIENT_AUTH_PROVIDER_FIRST", SSH2_CLIENT_AUTH_PROVIDER_FIRST);
      ("SSH2_CLIENT_ID_FALLBACK_DISABLED", SSH2_CLIENT_ID_FALLBACK_DISABLED);
      ("SSH2_CLIENT_ID_FALLBACK_AGENT", SSH2_CLIENT_ID_FALLBACK_AGENT);
      ("SSH2_CLIENT_ID_FALLBACK_DEFAULT_KEYS", SSH2_CLIENT_ID_FALLBACK_DEFAULT_KEYS);
      ("SSH2_CLIENT_ID_FALLBACK_AGENT_AND_DEFAULT_KEYS", SSH2_CLIENT_ID_FALLBACK_AGENT_AND_DEFAULT_KEYS)] ++
     trace_constants).

(** The tables and the namespace, the part that cannot fail. *)
Definition fill_module (m : module_state) : module_state :=
  m <| ssh2_emap := map_insert_all (ssh2_emap m) ssh2_errors |>
    <| sftp_emap := map_insert_all (sftp_emap m) sftp_errors |>
    <| ssh2ns := ssh2ns m ++ hashdecls ++ enums ++ classes ++ constants (qore_libssh2_version m) |>.

Definition ssh2_module_init (m : module_state) : ended :=
  let '(provider, failed) := ssh2_resolve_sshutil_class
    "sshutil_get_abstract_ssh_client_identity_provider_class" (identity_provider_class m) in
  let m := m <| identity_provider_class := provider |> in
  if failed : bool then Ended (Some ModuleInitError) m
  else
    let '(store, failed) := ssh2_resolve_sshutil_class
      "sshutil_get_abstract_ssh_host_key_store_class" (host_key_store_class m) in
    let m := m <| host_key_store_class := store |> in
    if failed : bool then Ended (Some ModuleInitError) m
    else
      let m := m <| qore_libssh2_version := libssh2_version LIBSSH2_VERSION_NUM |> in
      if bool_decide (qore_libssh2_version m = None) then Ended (Some ModuleInitError) m
      else
        let m := m <| ssh2_defaults := ssh2_init_host_key_defaults
                        (environment "QORE_SSH2_DEFAULT_VERIFY_HOST_KEY")
                        (environment "QORE_SSH2_DEFAULT_HOST_KEY_POLICY")
                        (environment "QORE_SSH2_DEFAULT_KNOWN_HOSTS") (ssh2_defaults m) |> in
        if bool_decide (is_Some (ssh2_defaults_fork_reg m)) then AssertionFailed
        else
          let m := m <| ssh2_defaults_fork_reg := register_fork_handler |> in
          if bool_decide (ssh2_defaults_fork_reg m = None) then Ended (Some OutOfMemory) m
          else Ended None (fill_module m).
End init.

(** [libssh2_init] is counted by libssh2 itself. *)
Definition ssh2_module_ns_init (m : module_state) : module_state :=
  m <| loaded_namespaces := ssh2ns m :: loaded_namespaces m |>.

Definition ssh2_module_delete (m : module_state) : module_state := m <| ssh2_defaults_fork_reg := None |>.

(** What [SFTPClient::doSessionErrUnlocked(xsink, desc, err, serr)] adds to the description of
    an error of the SFTP protocol. *)
Definition sftp_error_text (m : module_state) (serr : Z) : string :=
  ": sftp error code " +:+ pretty serr +:+
  match sftp_emap m !! as_int serr with
  | Some (err, desc) => " (" +:+ err +:+ "): " +:+ desc
  | None => ": unknown sftp error code"
  end.

(** ** What a class mentions

    Its base class, and the types of the parameters and results of its methods, as declared in
    the .qpp files. *)
Definition class_mentions (name : string) : list declaration :=
  if String.eqb name "SSH2Base" then
    [EnumDecl "Ssh2HostKeyPolicy"; EnumDecl "Ssh2ClientAuthOrder"; EnumDecl "Ssh2ClientIdentityFallbackPolicy";
     HashDecl "Ssh2HostKeyInfo"]
  else if String.eqb name "SSH2Channel" then [HashDecl "Ssh2ExitSignalInfo"]
  else if String.eqb name "SSH2Listener" then [SystemClass "SSH2Channel"]
  else if String.eqb name "SSH2Client" then
    [SystemClass "SSH2Base"; SystemClass "SSH2Channel"; SystemClass "SSH2Listener"; HashDecl "Ssh2ConnectionInfo";
     HashDecl "Ssh2StatInfo"]
  else if String.eqb name "SFTPClient" then
    [SystemClass "SSH2Base"; SystemClass "SftpPollOperation"; HashDecl "SftpConnectionInfo"; HashDecl "SftpDirInfo";
     HashDecl "SftpFileInfo"; HashDecl "Ssh2StatInfo"; HashDecl "SftpStatVfsInfo"]
  else [].

#[export] Instance constant_eq_dec : EqDecision constant.
Proof. solve_decision. Defined.

#[export] Instance declaration_eq_dec : EqDecision declaration.
Proof. solve_decision. Defined.

(** Everything a class of the namespace mentions comes before it. *)
Fixpoint well_ordered_after (before ds : list declaration) : bool :=
  match ds with
  | [] => true
  | d :: ds =>
      match d with
      | SystemClass name => forallb (λ x, bool_decide (x ∈ before)) (class_mentions name)
      | _ => true
      end && well_ordered_after (d :: before) ds
  end.

Definition well_ordered (ds : list declaration) : Prop :=
  ∀ ds1 name ds2, ds = ds1 ++ SystemClass name :: ds2 → ∀ x, x ∈ class_mentions name → x ∈ ds1.

Lemma well_ordered_after_spec before ds ds1 name ds2 x :
  well_ordered_after before ds = true → ds = ds1 ++ SystemClass name :: ds2 → x ∈ class_mentions name →
  x ∈ before ∨ x ∈ ds1.
Proof.
  revert before ds. induction ds1 as [|d ds1 IH]; intros before ds H -> Hx; simpl in H; apply andb_prop in H as [H1 H2].
  - left. rewrite forallb_forall in H1. apply (bool_decide_unpack _), Is_true_true, H1. by apply list_elem_of_In.
  - destruct (IH _ _ H2 eq_refl Hx) as [H|H]; [|right; by apply list_elem_of_further].
    apply elem_of_cons in H as [->|H]; [right; apply list_elem_of_here|by left].
Qed.

Lemma well_ordered_app ds1 ds2 : well_ordered ds1 → well_ordered ds2 → well_ordered (ds1 ++ ds2).
Proof.
  intros H1 H2 l name r Heq x Hx. apply app_eq_inv in Heq as [(k & -> & Hk)|(k & -> & Hk)].
  - destruct k as [|d k].
    + exfalso. apply (not_elem_of_nil x). by eapply (H2 []).
    + injection Hk as <- ->. by eapply H1.
  - apply elem_of_app. right. by eapply H2.
Qed.

Lemma registered_well_ordered version : well_ordered (hashdecls ++ enums ++ classes ++ constants version).
Proof.
  intros ds1 name ds2 Heq x Hx.
  assert (well_ordered_after [] (hashdecls ++ enums ++ classes ++ constants version) = true) as Hw by (by vm_compute).
  destruct (well_ordered_after_spec [] _ ds1 name ds2 x Hw Heq Hx) as [H|H]; [|done]. by apply elem_of_nil in H.
Qed.

(** ** The life of the module *)

(** A loaded module: the handler that its unloading takes back is registered, and clients can
    rely on the provider classes, the defaults and the tables. *)
Definition in_service (m : module_state) : Prop :=
  is_Some (identity_provider_class m) ∧ is_Some (host_key_store_class m) ∧ is_Some (qore_libssh2_version m) ∧
  is_Some (ssh2_defaults_fork_reg m) ∧
  (∀ k, ssh2_emap m !! k = first_entry ssh2_errors k) ∧ (∀ k, sftp_emap m !! k = first_entry sftp_errors k).

(** Qore loads a module that is not loaded, and attaches, uses and unloads one that is. *)
Inductive module_step : bool * module_state → bool * module_state → Prop :=
  | step_load (h : Host) m m' : ssh2_module_init m = Ended None m' → module_step (false, m) (true, m')
  | step_load_failed (h : Host) m e m' : ssh2_module_init m = Ended (Some e) m' → module_step (false, m) (false, m')
  | step_attach m : module_step (true, m) (true, ssh2_module_ns_init m)
  | step_defaults op m : module_step (true, m) (true, m <| ssh2_defaults := run_defaults_op op (ssh2_defaults m) |>)
  | step_unload m : module_step (true, m) (false, ssh2_module_delete m).

(** Tables that are empty or filled. *)
Definition tables_ok (m : module_state) : Prop :=
  (ssh2_emap m = ∅ ∧ sftp_emap m = ∅) ∨
  (ssh2_emap m = map_insert_all ∅ ssh2_errors ∧ sftp_emap m = map_insert_all ∅ sftp_errors).

Definition module_inv (s : bool * module_state) : Prop :=
  let '(loaded, m) := s in
  (if loaded then in_service m else ssh2_defaults_fork_reg m = None) ∧ tables_ok m ∧ defaults_ok (ssh2_defaults m) ∧
  well_ordered (ssh2ns m) ∧ Forall well_ordered (loaded_namespaces m).

Section init_facts.
Context `{!Host}.

(** What the module needs to be loaded. *)
Definition requirements_met : Prop :=
  (∃ p, accessor "sshutil_get_abstract_ssh_client_identity_provider_class" = Some (Some p)) ∧
  (∃ p, accessor "sshutil_get_abstract_ssh_host_key_store_class" = Some (Some p)) ∧
  is_Some (libssh2_version LIBSSH2_VERSION_NUM) ∧ is_Some register_fork_handler.

Lemma resolve_spec name target cls failed :
  ssh2_resolve_sshutil_class name target = (cls, failed) →
  if failed then ∀ p, accessor name ≠ Some (Some p) else ∃ p, accessor name = Some (Some p) ∧ cls = Some p.
Proof. unfold ssh2_resolve_sshutil_class. destruct (accessor name) as [[p|]|]; intros [= <- <-]; by eauto. Qed.

(** What a failed initialisation leaves alone. *)
Definition untouched (m m' : module_state) : Prop :=
  ssh2_emap m' = ssh2_emap m ∧ sftp_emap m' = sftp_emap m ∧ ssh2ns m' = ssh2ns m ∧
  loaded_namespaces m' = loaded_namespaces m ∧ ssh2_defaults_fork_reg m' = None ∧
  (defaults_ok (ssh2_defaults m) → defaults_ok (ssh2_defaults m')).

Lemma init_cases m : ssh2_defaults_fork_reg m = None →
  (¬ requirements_met ∧ ∃ e m', ssh2_module_init m = Ended (Some e) m' ∧ untouched m m') ∨
  (requirements_met ∧ ∃ m', ssh2_module_init m = Ended None (fill_module m') ∧
     is_Some (identity_provider_class m') ∧ is_Some (host_key_store_class m') ∧ is_Some (qore_libssh2_version m') ∧
     is_Some (ssh2_defaults_fork_reg m') ∧ ssh2_emap m' = ssh2_emap m ∧ sftp_emap m' = sftp_emap m ∧
     ssh2ns m' = ssh2ns m ∧ loaded_namespaces m' = loaded_namespaces m ∧
     (defaults_ok (ssh2_defaults m) → defaults_ok (ssh2_defaults m'))).
Proof.
  intros Hreg. unfold ssh2_module_init, requirements_met.
  destruct (ssh2_resolve_sshutil_class _ (identity_provider_class m)) as [prov [|]] eqn:H1; apply resolve_spec in H1.
  { left. split; [|eexists _, _; split; [reflexivity|]; by split_and!]. intros ([p Hp] & _). by apply (H1 p). }
  destruct H1 as (p1 & H1 & ->). cbn [host_key_store_class].
  destruct (ssh2_resolve_sshutil_class _ (host_key_store_class _)) as [store [|]] eqn:H2; apply resolve_spec in H2.
  { left. split; [|eexists _, _; split; [reflexivity|]; by split_and!]. intros (_ & [p Hp] & _). by apply (H2 p). }
  destruct H2 as (p2 & H2 & ->). cbv zeta. simpl. destruct (libssh2_version _) as [v|]; simpl.
  2:{ left. split; [by intros (_ & _ & [] & _)|]. eexists _, _; split; [reflexivity|]; by split_and!. }
  rewrite Hreg. simpl. destruct register_fork_handler as [r|]; simpl.
  2:{ left. split; [by intros (_ & _ & _ & [])|]. eexists _, _; split; [reflexivity|]. split_and!; try done.
      apply (run_defaults_op_ok (DoInit _ _ _)). }
  right. split; [split_and!; by eexists|]. eexists. split; [reflexivity|]. simpl. split_and!; try done.
  apply (run_defaults_op_ok (DoInit _ _ _)).
Qed.
End init_facts.

Lemma filled_tables m : tables_ok m →
  ssh2_emap (fill_module m) = map_insert_all ∅ ssh2_errors ∧ sftp_emap (fill_module m) = map_insert_all ∅ sftp_errors.
Proof. unfold fill_module. simpl. intros [[-> ->]|[-> ->]]; [done|]. by rewrite !map_insert_all_idemp. Qed.

Lemma filled_in_service m : tables_ok m →
  is_Some (identity_provider_class m) → is_Some (host_key_store_class m) → is_Some (qore_libssh2_version m) →
  is_Some (ssh2_defaults_fork_reg m) → in_service (fill_module m).
Proof.
  intros Ht Hp Hs Hv Hr. destruct (filled_tables m Ht) as [H1 H2].
  refine (conj Hp (conj Hs (conj Hv (conj Hr (conj _ _))))); intros k; [rewrite H1|rewrite H2];
    by rewrite map_insert_all_lookup, lookup_empty.
Qed.

Lemma module_inv_step s s' : module_inv s → module_step s s' → module_inv s'.
Proof.
  intros Hi Hs. destruct Hs as [h m m' H|h m e m' H|m|op m|m]; destruct Hi as (Hl & Ht & Hd & Ho & Hc).
  - destruct (init_cases m Hl) as [(_ & e & m1 & H1 & _)|(_ & m1 & H1 & A & B & C & D & T1 & T2 & N & L & Hd')];
      rewrite H1 in H; [done|]. injection H as <-.
    assert (tables_ok m1) as Ht1 by (unfold tables_ok in *; by rewrite T1, T2).
    split_and!; [by apply filled_in_service|right; by apply filled_tables|by apply Hd'| |].
    2:{ change (Forall well_ordered (loaded_namespaces m1)). by rewrite L. }
    change (well_ordered (ssh2ns m1 ++ hashdecls ++ enums ++ classes ++ constants (qore_libssh2_version m1))).
    rewrite N. apply well_ordered_app; [done|apply registered_well_ordered].
  - destruct (init_cases m Hl) as [(_ & e1 & m1 & H1 & T1 & T2 & N & L & R & Hd')|(_ & m1 & H1 & _)]; rewrite H1 in H; [|done].
    injection H as -> <-. unfold module_inv, tables_ok. rewrite T1, T2, N, L. split_and!; try done. by apply Hd'.
  - split_and!; try done. by constructor.
  - split_and!; try done. by apply run_defaults_op_ok.
  - by split_and!.
Qed.

Lemma module_inv_start : module_inv (false, unloaded).
Proof. split_and!; [done|by left|by split| |constructor]. by intros [|??] ?? H. Qed.

Definition module_reachable (s : bool * module_state) : Prop := rtc module_step (false, unloaded) s.

Lemma module_inv_reachable s : module_reachable s → module_inv s.
Proof.
  intros H. assert (∀ s0, module_inv s0 → rtc module_step s0 s → module_inv s) as Hr.
  { intros s0 H0 Hs. induction Hs; [done|]. eauto using module_inv_step. }
  eapply Hr, H. apply module_inv_start.
Qed.

(** ** The codes of the SFTP protocol *)

Lemma described_codes k : 0 ≤ k ≤ 21 → ∃ err desc, first_entry sftp_errors k = Some (err, desc) ∧ (k, (err, desc)) ∈ sftp_errors.
Proof.
  intros H. assert (Forall (λ n, ∃ err desc, first_entry sftp_errors (Z.of_nat n) = Some (err, desc) ∧
    (Z.of_nat n, (err, desc)) ∈ sftp_errors) (seq 0 22)) as Hall.
  { repeat constructor; eexists _, _; (split; [reflexivity|]); cbn [sftp_errors]; set_solver. }
  rewrite Forall_forall in Hall. replace k with (Z.of_nat (Z.to_nat k)) by lia. apply Hall. apply elem_of_seq. lia.
Qed.

Lemma first_entry_unlisted {A} (l : list (Z * A)) k : (∀ e, e ∈ l → e.1 ≠ k) → first_entry l k = None.
Proof.
  induction l as [|e l IH]; intros H; simpl; [done|]. destruct (Z.eqb_spec e.1 k) as [He|_].
  - exfalso. apply (H e); [apply list_elem_of_here|done].
  - apply IH. intros e' He'. apply H. by apply list_elem_of_further.
Qed.

Lemma sftp_codes_range e : e ∈ sftp_errors → 0 ≤ e.1 ≤ 21.
Proof.
  assert (forallb (λ e, (0 <=? e.1) && (e.1 <=? 21)) sftp_errors = true) as H by (by vm_compute).
  rewrite forallb_forall in H. intros He. apply list_elem_of_In, H in He. lia.
Qed.

Lemma undescribed_codes k : ¬ 0 ≤ k ≤ 21 → first_entry sftp_errors k = None.
Proof. intros H. apply first_entry_unlisted. intros e He <-. apply H, sftp_codes_range, He. Qed.

Lemma as_int_unlisted n : 21 < n < 2 ^ 32 → ¬ 0 ≤ as_int n ≤ 21.
Proof.
  intros H. unfold as_int. destruct (Z.lt_ge_cases n (2 ^ 31)); [rewrite Z.mod_small by lia; lia|].
  replace (n + 2 ^ 31) with (n - 2 ^ 31 + 1 * 2 ^ 32) by lia. rewrite Z.mod_add, Z.mod_small by lia. lia.
Qed.

(** ** Theorems *)

(** Loading the module succeeds exactly when sshutil provides both classes, libssh2 is
    recent enough and the fork handler can be registered.  A failed attempt raises one
    exception and registers nothing: the tables, the namespace and the programs stay as they
    were, and no fork handler is left behind. *)
Theorem module_init_outcome `{!Host} (m : module_state) :
  ssh2_defaults_fork_reg m = None →
  ∃ e m', ssh2_module_init m = Ended e m' ∧ (e = None ↔ requirements_met) ∧ (e ≠ None → untouched m m').
Proof.
  intros Hreg. destruct (init_cases m Hreg) as [(Hn & e & m' & -> & Hu)|(Hy & m' & -> & _)].
  - eexists _, _. split; [reflexivity|]. by split; [split|].
  - eexists _, _. split; [reflexivity|]. by split; [split|].
Qed.

(** C30: However the module is loaded, attached to programs, used and unloaded, and whatever
    fails in between: while it is loaded both provider classes are known, the fork handler is
    registered and every error code has its entry; the defaults are valid; no class is
    declared before the types it mentions, in any program; and the assertion of the next
    initialisation holds. *)
Theorem module_life (loaded : bool) (m : module_state) :
  module_reachable (loaded, m) →
  (loaded = true → in_service m) ∧ defaults_ok (ssh2_defaults m) ∧ Forall well_ordered (loaded_namespaces m) ∧
  (loaded = false → ∀ h : Host, ssh2_module_init m ≠ AssertionFailed).
Proof.
  intros H. apply module_inv_reachable in H as (Hl & _ & Hd & _ & Hc). split_and!; try done.
  - intros ->. exact Hl.
  - intros -> h. destruct (init_cases m Hl) as [(_ & e & m' & -> & _)|(_ & m' & -> & _)]; done.
Qed.

(** While the module is loaded the description of an SFTP error names and explains
    every status code of the protocol (0 to 21), and calls every other code unknown. *)
Theorem sftp_errors_described (m : module_state) (serr : Z) :
  module_reachable (true, m) → 0 ≤ serr < 2 ^ 32 →
  (serr ≤ 21 → ∃ err desc, (serr, (err, desc)) ∈ sftp_errors ∧
     sftp_error_text m serr = ": sftp error code " +:+ pretty serr +:+ " (" +:+ err +:+ "): " +:+ desc) ∧
  (21 < serr → sftp_error_text m serr = ": sftp error code " +:+ pretty serr +:+ ": unknown sftp error code").
Proof.
  intros H Hs. apply module_inv_reachable in H as ((_ & _ & _ & _ & _ & Ht) & _).
  unfold sftp_error_text. rewrite Ht. split; intros Hle.
  - rewrite as_int_small by lia. destruct (described_codes serr) as (err & desc & H1 & H2); [lia|].
    exists err, desc. by rewrite H1.
  - rewrite undescribed_codes; [done|]. apply as_int_unlisted; lia.
Qed.

(** * A process in which the module can be loaded, and one without sshutil *)

Definition plain_host : Host :=
  {| accessor _ := Some (Some 1%positive); libssh2_version _ := Some "1.11.1"; LIBSSH2_VERSION_NUM := 0x010B01;
     environment _ := None; register_fork_handler := Some 2%positive |}.

Definition bare_host : Host :=
  {| accessor _ := None; libssh2_version _ := Some "1.11.1"; LIBSSH2_VERSION_NUM := 0x010B01;
     environment _ := None; register_fork_handler := Some 2%positive |}.

Definition module_of (r : ended) : module_state := match r with Ended _ m => m | AssertionFailed => unloaded end.

(** The module after its initialisation. *)
Definition initialised : module_state := module_of (@ssh2_module_init plain_host unloaded).

Lemma initialised_step : module_step (false, unloaded) (true, initialised).
Proof. apply (step_load plain_host). vm_compute. reflexivity. Qed.

Lemma module_init_outcome_witness :
  ∃ m', @ssh2_module_init bare_host unloaded = Ended (Some ModuleInitError) m' ∧ untouched unloaded m'.
Proof.
  destruct (@module_init_outcome bare_host unloaded eq_refl) as (e & m' & H & _ & Hu).
  assert (e = Some ModuleInitError) as -> by (vm_compute in H; by injection H).
  exists m'. split; [exact H|]. by apply Hu.
Defined.

Lemma module_life_witness :
  is_Some (ssh2_defaults_fork_reg (ssh2_module_ns_init initialised)) ∧
  ∃ ds, ds ∈ loaded_namespaces (ssh2_module_ns_init initialised) ∧ SystemClass "SFTPClient" ∈ ds ∧ well_ordered ds.
Proof.
  assert (module_reachable (true, ssh2_module_ns_init initialised)) as Hr.
  { eapply rtc_l; [apply initialised_step|]. apply rtc_once, step_attach. }
  destruct (module_life true _ Hr) as (H1 & _ & H2 & _). destruct (H1 eq_refl) as (_ & _ & _ & H & _).
  split; [exact H|]. exists (ssh2ns initialised). rewrite Forall_forall in H2.
  split; [apply list_elem_of_here|]. split; [|apply H2, list_elem_of_here]. apply (bool_decide_unpack (SystemClass "SFTPClient" ∈ ssh2ns initialised)). vm_compute. exact I.
Defined.

Lemma sftp_errors_described_witness :
  sftp_error_text initialised 2 = ": sftp error code 2 (LIBSSH2_FX_NO_SUCH_FILE): file does not exist" ∧
  sftp_error_text initialised 22 = ": sftp error code " +:+ pretty 22 +:+ ": unknown sftp error code" ∧
  ∃ err desc, (2, (err, desc)) ∈ sftp_errors ∧
    sftp_error_text initialised 2 = ": sftp error code " +:+ pretty 2 +:+ " (" +:+ err +:+ "): " +:+ desc.
Proof.
  split; [vm_compute; reflexivity|]. pose proof (rtc_once _ _ initialised_step) as Hr. split.
  - apply (sftp_errors_described initialised 22 Hr); lia.
  - apply (sftp_errors_described initialised 2 Hr); lia.
Defined.
