(* ===== verification/Transport.v ===== *)
(** The transport layer of a client: waiting for the socket, releasing the
    session, and the registries of the channels and listeners that live on it
    (SSH2Client.h, SSH2Client.cpp, SSH2Channel.h, SSH2Channel.cpp,
    SSH2Listener.cpp, and the [QSftpHelper] and [doShutdown] parts of
    SFTPClient.cpp). *)

From S2P Require Import Prelude Modes World Sim.

Section transport.
Context {E : Type} `{!Env E}.

Abbreviation M := (prog (st E)).

(** ** Waiting *)

Definition setBlockingUnlocked (block : bool) : M unit :=
  s ← cfield ssh_session;
  when (bool_decide (is_Some s)) (callU (session_set_blocking s block)).

(** [waitSocketUnlocked(int dir, int timeout_ms)] *)
Definition waitSocket_dir (dir timeout_ms : Z) : M Z :=
  callZ (socket_asyncIoWait timeout_ms (has dir LIBSSH2_SESSION_BLOCK_INBOUND)
    (has dir LIBSSH2_SESSION_BLOCK_OUTBOUND)).

(** [waitSocketUnlocked(int timeout_ms)] *)
Definition waitSocket_raw (timeout_ms : Z) : M Z :=
  s ← cfield ssh_session;
  dir ← callZ (session_block_directions s);
  waitSocket_dir dir timeout_ms.

(** [waitSocketUnlocked(xsink, toerr, err, m, timeout_ms, in_disconnect, adh)];
    [disconnect] is the call of the virtual [disconnectUnlocked] with [adh].
    The result is true when the function returns -1. *)
Definition waitSocket_gen (disconnect : Z → M Z) (xs : bool) (toerr err : string)
    (timeout_ms : Z) (in_disconnect : bool) : M bool :=
  let close : M unit :=
    _ ← disconnect (if timeout_ms >? DEFAULT_TIMEOUT_MS then timeout_ms else DEFAULT_TIMEOUT_MS);
    mret tt in
  cancelled ← (if negb in_disconnect && xs then qore_check_cancel xs else mret false);
  if cancelled : bool then
    _ ← close;
    mret true
  else
    rc ← waitSocket_raw timeout_ms;
    if rc =? 0 then
      _ ← raise xs toerr;
      _ ← when (negb in_disconnect) close;
      mret true
    else if rc <? 0 then
      _ ← raise xs err;
      _ ← when (negb in_disconnect) close;
      mret true
    else mret false.

(** With [in_disconnect] set the function never disconnects. *)
Definition waitSocket_in_disconnect (xs : bool) (toerr err : string) (timeout_ms : Z) : M bool :=
  waitSocket_gen (λ _, mret 0) xs toerr err timeout_ms true.

(** ** Channel and listener objects *)

Definition get_chan (id : positive) : M ptr :=
  gets (λ s, c ← chans s !! id; ch_channel c).

Definition get_lst (id : positive) : M ptr :=
  gets (λ s, l ← lsts s !! id; ls_listener l).

(** [SSH2Channel::closeUnlocked] *)
Definition channel_closeUnlocked (id : positive) : M unit :=
  c ← get_chan id;
  _ ← callZ (channel_free c);
  modify (λ s, s <| chans := alter (λ c, c <| ch_channel := None |>) id (chans s) |>).

Definition channelDeletedUnlocked (id : positive) : M unit :=
  upd (λ c, c <| channel_set := channel_set c ∖ {[id]} |>).

(** [SSH2Channel::destructor] *)
Definition channel_destructor (id : positive) : M unit :=
  c ← get_chan id;
  when (bool_decide (is_Some c)) (
    _ ← channelDeletedUnlocked id;
    channel_closeUnlocked id).

(** [new SSH2Channel(channel, this)] and [channel_set.insert(chan)] *)
Definition registerChannelUnlockedRaw (channel : ptr) : M positive :=
  id ← gets nextobj;
  _ ← modify (λ s, s <| chans := <[id := mkChan channel]> (chans s) |> <| nextobj := Pos.succ id |>);
  _ ← upd (λ c, c <| channel_set := {[id]} ∪ channel_set c |>);
  mret id.

(** [new SSH2Listener(listener, this, bound_port)] and [listener_set.insert(sl)] *)
Definition registerListenerUnlocked (listener : ptr) (bound_port : Z) : M positive :=
  id ← gets nextobj;
  _ ← modify (λ s, s <| lsts := <[id := mkLst listener bound_port]> (lsts s) |>
                     <| nextobj := Pos.succ id |>);
  _ ← upd (λ c, c <| listener_set := {[id]} ∪ listener_set c |>);
  mret id.

Definition listenerDeletedUnlocked (id : positive) : M unit :=
  upd (λ c, c <| listener_set := listener_set c ∖ {[id]} |>).

(** [SSH2Listener::cancelUnlocked] *)
Definition listener_cancelUnlocked (id : positive) : M unit :=
  l ← get_lst id;
  when (bool_decide (is_Some l)) (
    _ ← listenerDeletedUnlocked id;
    _ ← callZ (channel_forward_cancel l);
    modify (λ s, s <| lsts := alter (λ l, l <| ls_listener := None |>) id (lsts s) |>)).

(** [SSH2Listener::destructor] *)
Definition listener_destructor (id : positive) : M unit :=
  l ← get_lst id;
  when (bool_decide (is_Some l)) (listener_cancelUnlocked id).

(** [SSH2Listener::cancel] *)
Definition listener_cancel (id : positive) : M unit :=
  l ← get_lst id;
  if bool_decide (is_Some l) then listener_cancelUnlocked id
  else raise true "SSH2LISTENER-ERROR".

(** ** Disconnecting *)

Definition closeTransportUnlocked : M unit :=
  _ ← callU socket_close;
  upd (λ c, c <| session_fd_hold := false |>).

(** One of the two release loops of [disconnectUnlocked]: a failed wait leaves
    the loop, and the return code is not used. *)
Definition release_session (op : ptr → zcall) (xs : bool) (timeout_ms : Z) : M unit :=
  _ ← while_eagain
        (s ← cfield ssh_session; callZ (op s))
        (waitSocket_in_disconnect xs "SSH2CLIENT-TIMEOUT" "SSSHCLIENT-DISCONNECT" timeout_ms);
  mret tt.

(** [SSH2Client::disconnectUnlocked]; [adh] is [preDisconnect] of the helper. *)
Definition SSH2Client_disconnectUnlocked (force : bool) (timeout_ms : Z) (adh : M unit)
    (xs : bool) : M Z :=
  ls ← cfield listener_set;
  _ ← for_each (elements ls) listener_cancelUnlocked;
  _ ← upd (λ c, c <| listener_set := ∅ |>);
  cs ← cfield channel_set;
  _ ← for_each (elements cs) channel_closeUnlocked;
  _ ← upd (λ c, c <| channel_set := ∅ |>);
  session ← cfield ssh_session;
  _ ← match session with
      | None => when (negb force) (raise xs "SSH2CLIENT-NOT-CONNECTED")
      | Some _ =>
          _ ← adh;
          _ ← setBlockingUnlocked false;
          _ ← release_session session_disconnect xs timeout_ms;
          _ ← release_session session_free xs timeout_ms;
          upd (λ c, c <| ssh_session := None |>)
      end;
  _ ← upd (λ c, c <| sshauthenticatedwith := None |>);
  _ ← closeTransportUnlocked;
  mret 0.

(** [SFTPClient::doShutdown]; the [BlockingHelper] sets the session non-blocking
    and restores it at the end. *)
Definition doShutdown (timeout_ms : Z) (xs : bool) : M unit :=
  sf ← cfield sftp_session;
  when (bool_decide (is_Some sf)) (
    _ ← setBlockingUnlocked false;
    _ ← while_eagain
          (sf ← cfield sftp_session; callZ (sftp_shutdown sf))
          (waitSocket_in_disconnect xs "SFTPCLIENT-TIMEOUT" "SFTPCLIENT-DISCONNECT" timeout_ms);
    _ ← upd (λ c, c <| sftp_session := None |>);
    setBlockingUnlocked true).

(** [SFTPClient::disconnectUnlocked] *)
Definition SFTPClient_disconnectUnlocked (force : bool) (timeout_ms : Z) (adh : M unit)
    (xs : bool) : M Z :=
  _ ← adh;
  _ ← doShutdown timeout_ms xs;
  SSH2Client_disconnectUnlocked force timeout_ms (mret tt) xs.

(** The virtual call: the dynamic class of the object selects the function. *)
Definition disconnect_virtual (force : bool) (timeout_ms : Z) (adh : M unit) (xs : bool) : M Z :=
  k ← cfield kls;
  match k with
  | SSH2ClientClass => SSH2Client_disconnectUnlocked force timeout_ms adh xs
  | SFTPClientClass => SFTPClient_disconnectUnlocked force timeout_ms adh xs
  end.

(** [disconnectUnlocked(force, timeout_ms, nullptr, xsink)] *)
Definition disconnectUnlocked (force : bool) (timeout_ms : Z) (xs : bool) : M Z :=
  disconnect_virtual force timeout_ms (mret tt) xs.

(** [disconnectUnlocked(true)] *)
Definition force_disconnect : M unit :=
  _ ← disconnectUnlocked true DEFAULT_TIMEOUT_MS false; mret tt.

(** [waitSocketUnlocked(xsink, toerr, err, m, timeout_ms)] *)
Definition waitSocketUnlocked (xs : bool) (toerr err : string) (timeout_ms : Z) : M bool :=
  waitSocket_gen (λ to, disconnectUnlocked true to xs) xs toerr err timeout_ms false.

(** [BlockingHelper bh(this)] around the rest of a function *)
Definition with_blocking_helper {A} (m : M A) : M A :=
  _ ← setBlockingUnlocked false;
  r ← m;
  _ ← setBlockingUnlocked true;
  mret r.

(** ** State of the connection *)

Definition sshConnectedUnlocked : M bool :=
  c ← gets cl;
  if bool_decide (is_Some (ssh_session c)) && negb (connect_in_progress c)
  then callB socket_isOpen
  else mret false.

Definition sshSessionActive (c : client) : bool :=
  connect_in_progress c || poll_op_in_progress c || bool_decide (is_Some (ssh_session c)).

(** [checkPollOpUnlocked]: true when it returns -1 *)
Definition checkPollOpUnlocked (xs : bool) : M bool :=
  p ← cfield poll_op_in_progress;
  _ ← when p (raise xs "SSH2-POLL-IN-PROGRESS");
  mret p.

(** [SSH2Client::disconnect] *)
Definition disconnect (force : bool) (timeout_ms : Z) (xs : bool) : M Z :=
  busy ← checkPollOpUnlocked xs;
  if busy : bool then mret (-1)
  else
    c ← cfield connect_in_progress;
    if c : bool then
      _ ← raise xs "SSH2-CONNECT-IN-PROGRESS";
      mret (-1)
    else disconnectUnlocked force timeout_ms xs.

(** [SSH2Client::reservePollOperation] *)
Definition reservePollOperation : M Z :=
  c ← gets cl;
  if poll_op_in_progress c then
    _ ← raise true "SSH2-POLL-IN-PROGRESS";
    mret (-1)
  else if connect_in_progress c then
    _ ← raise true "SSH2-CONNECT-IN-PROGRESS";
    mret (-1)
  else
    _ ← upd (λ c, c <| poll_op_in_progress := true |>);
    mret 0.

(** [SSH2Client::doSessionErrUnlocked(xsink)] *)
Definition doSessionErrUnlocked : M unit :=
  s ← cfield ssh_session;
  err ← callZ (session_last_errno s);
  raise_exc true (Exc "SSH2-ERROR" (SshError err)).
End transport.

(** * Facts *)

Section facts.
Context {E : Type} `{!Env E}.

Abbreviation M := (prog (st E)).

(** ** Relations *)

(** The part of the client that only setters, a connect and the path
    operations write: disconnecting leaves it alone. *)
Definition conf (c : client) : client :=
  c <| channel_set := ∅ |> <| listener_set := ∅ |> <| ssh_session := None |>
    <| sftp_session := None |> <| sshauthenticatedwith := None |> <| session_fd_hold := false |>.

Definition same_conf (s s' : st E) : Prop := conf (cl s') = conf (cl s).

#[export] Instance same_conf_frame : Frame same_conf.
Proof.
  split; [split| |]; unfold same_conf; [by intros ?|by intros ??? -> ->|done|done].
Qed.

(** The pointers of the channel and listener objects. *)
Definition chan_ptr (s : st E) (id : positive) : ptr := c ← chans s !! id; ch_channel c.
Definition lst_ptr (s : st E) (id : positive) : ptr := l ← lsts s !! id; ls_listener l.

(** The registries are exact: an object is registered with the client if and
    only if it still owns a libssh2 object, and object numbers are fresh. *)
Record registered (s : st E) : Prop := {
  reg_channels id : id ∈ channel_set (cl s) ↔ is_Some (chan_ptr s id);
  reg_listeners id : id ∈ listener_set (cl s) ↔ is_Some (lst_ptr s id);
  reg_chans_fresh id : (nextobj s ≤ id)%positive → chans s !! id = None;
  reg_lsts_fresh id : (nextobj s ≤ id)%positive → lsts s !! id = None
}.

Definition keeps_registered (s s' : st E) : Prop := registered s → registered s'.

#[export] Instance keeps_registered_frame : Frame keeps_registered.
Proof.
  split; [split| |]; unfold keeps_registered; [by intros ?|by eauto| |];
    intros s ? ? H || intros s ? H; destruct H; split; done.
Qed.

Lemma preserves_upd_registered (f : client → client) :
  (∀ c, channel_set (f c) = channel_set c) → (∀ c, listener_set (f c) = listener_set c) →
  preserves keeps_registered (upd f).
Proof.
  intros Hc Hl. apply preserves_upd. intros s [H1 H2 H3 H4].
  split; simpl; [rewrite Hc|rewrite Hl| |]; done.
Qed.

(** ** The registries *)

Lemma chan_ptr_alter s id id' :
  (c ← alter (λ c, c <| ch_channel := None |>) id (chans s) !! id'; ch_channel c) =
  if decide (id = id') then None else chan_ptr s id'.
Proof.
  unfold chan_ptr. rewrite lookup_alter. case_decide; [|done].
  subst. by destruct (chans s !! id').
Qed.

Lemma lst_ptr_alter s id id' :
  (l ← alter (λ l, l <| ls_listener := None |>) id (lsts s) !! id'; ls_listener l) =
  if decide (id = id') then None else lst_ptr s id'.
Proof.
  unfold lst_ptr. rewrite lookup_alter. case_decide; [|done].
  subst. by destruct (lsts s !! id').
Qed.

Lemma registerChannel_registered (h : handle) : preserves keeps_registered (registerChannelUnlockedRaw (Some h)).
Proof.
  intros s. unfold registerChannelUnlockedRaw. repeat wp_step. wp_world. wp_step.
  intros [H1 H2 H3 H4]. split; simpl.
  - intros id. rewrite elem_of_union, elem_of_singleton, H1. unfold chan_ptr. simpl.
    rewrite lookup_insert. case_decide; subst; simpl; [by split; eauto|naive_solver].
  - done.
  - intros id Hid. rewrite lookup_insert_ne by lia. apply H3. lia.
  - intros id Hid. apply H4. lia.
Qed.

Lemma registerListener_registered (h : handle) port :
  preserves keeps_registered (registerListenerUnlocked (Some h) port).
Proof.
  intros s. unfold registerListenerUnlocked. repeat wp_step. wp_world. wp_step.
  intros [H1 H2 H3 H4]. split; simpl.
  - done.
  - intros id. rewrite elem_of_union, elem_of_singleton, H2. unfold lst_ptr. simpl.
    rewrite lookup_insert. case_decide; subst; simpl; [by split; eauto|naive_solver].
  - intros id Hid. apply H3. lia.
  - intros id Hid. rewrite lookup_insert_ne by lia. apply H4. lia.
Qed.

Lemma channel_destructor_registered id : preserves keeps_registered (channel_destructor id).
Proof.
  intros s. unfold channel_destructor, get_chan. wp_step. wp_step. wp_step; [|by intros].
  unfold channelDeletedUnlocked, channel_closeUnlocked, get_chan.
  wp_step. wp_world. repeat wp_step. wp_world. wp_step.
  intros [H1 H2 H3 H4]. split; simpl.
  - intros id'. unfold chan_ptr. simpl. rewrite chan_ptr_alter, elem_of_difference, elem_of_singleton, H1.
    case_decide; [subst; split; [naive_solver|by intros [? ?]]|naive_solver].
  - done.
  - intros id' Hid. rewrite lookup_alter. case_decide; [subst|]; rewrite H3 by done; done.
  - done.
Qed.

Lemma listener_cancel_registered id : preserves keeps_registered (listener_cancelUnlocked id).
Proof.
  intros s. unfold listener_cancelUnlocked, get_lst. wp_step. wp_step. wp_step; [|by intros].
  unfold listenerDeletedUnlocked. wp_step. wp_world. wp_step. wp_world. wp_step.
  intros [H1 H2 H3 H4]. split; simpl.
  - done.
  - intros id'. unfold lst_ptr. simpl. rewrite lst_ptr_alter, elem_of_difference, elem_of_singleton, H2.
    case_decide; [subst; split; [naive_solver|by intros [? ?]]|naive_solver].
  - done.
  - intros id' Hid. rewrite lookup_alter. case_decide; [subst|]; rewrite H4 by done; done.
Qed.
End facts.

#[export] Hint Extern 0 (Basic _) => typeclasses eauto : preserves.
#[export] Hint Extern 0 (Carrier _) => typeclasses eauto : preserves.
#[export] Hint Extern 0 (Frame _) => typeclasses eauto : preserves.
#[export] Hint Extern 0 (PreOrder _) => typeclasses eauto : preserves.
#[export] Hint Extern 1 (preserves _ (call ?r)) =>
  first [apply (preserves_basic_call _ r); first [reflexivity | typeclasses eauto]
        | apply (preserves_carrier_call _ r); first [reflexivity | typeclasses eauto]
        | apply (preserves_call _ r); typeclasses eauto] : preserves.
#[export] Hint Extern 1 (preserves _ (callZ ?c)) =>
  first [apply (preserves_basic_call _ (QZ c)); first [reflexivity | typeclasses eauto]
        | apply (preserves_carrier_call _ (QZ c)); first [reflexivity | typeclasses eauto]
        | apply (preserves_call _ (QZ c)); typeclasses eauto] : preserves.
#[export] Hint Extern 1 (preserves _ (callB ?c)) =>
  first [apply (preserves_basic_call _ (QB c)); first [reflexivity | typeclasses eauto]
        | apply (preserves_carrier_call _ (QB c)); first [reflexivity | typeclasses eauto]
        | apply (preserves_call _ (QB c)); typeclasses eauto] : preserves.
#[export] Hint Extern 1 (preserves _ (callU ?c)) =>
  apply (preserves_basic_call _ (QU c)); first [reflexivity | typeclasses eauto] : preserves.
#[export] Hint Extern 1 (preserves (emits no_credentials) (callZ (session_handshake _ _))) =>
  apply preserves_handshake; reflexivity : preserves.
#[export] Hint Extern 1 (preserves _ (callH ?c)) =>
  first [apply (preserves_basic_call _ (QH c)); first [reflexivity | typeclasses eauto]
        | apply (preserves_carrier_call _ (QH c)); first [reflexivity | typeclasses eauto]
        | apply (preserves_call _ (QH c)); typeclasses eauto] : preserves.
#[export] Hint Extern 1 (preserves _ (callS ?c)) =>
  apply (preserves_basic_call _ (QS c)); first [reflexivity | typeclasses eauto] : preserves.
#[export] Hint Extern 1 (preserves _ (raise _ _)) => apply preserves_basic_raise_exc; typeclasses eauto : preserves.
#[export] Hint Extern 1 (preserves _ (raise_exc _ _)) => apply preserves_basic_raise_exc; typeclasses eauto : preserves.
#[export] Hint Extern 1 (preserves _ (cfield _)) =>
  apply preserves_gets; typeclasses eauto : preserves.
#[export] Hint Extern 3 (preserves same_conf (upd _)) =>
  apply preserves_upd; intros ?; reflexivity : preserves.
#[export] Hint Extern 3 (preserves same_conf (modify _)) =>
  apply preserves_modify; intros ?; reflexivity : preserves.
#[export] Hint Extern 3 (preserves grows (upd _)) =>
  apply preserves_upd; intros ?; by exists [] : preserves.
#[export] Hint Extern 3 (preserves grows (modify _)) =>
  apply preserves_modify; intros ?; by exists [] : preserves.
#[export] Hint Extern 3 (preserves xsink_grows (upd _)) =>
  apply preserves_upd; intros ?; by exists [] : preserves.
#[export] Hint Extern 3 (preserves xsink_grows (modify _)) =>
  apply preserves_modify; intros ?; by exists [] : preserves.
#[export] Hint Extern 3 (preserves keeps_registered (upd _)) =>
  apply preserves_upd_registered; intros ?; reflexivity : preserves.
#[export] Hint Extern 3 (preserves (emits _) (upd _)) =>
  apply preserves_upd; intros ?; by exists [] : preserves.
#[export] Hint Extern 3 (preserves (emits _) (modify _)) =>
  apply preserves_modify; intros ?; by exists [] : preserves.
#[export] Hint Resolve registerChannel_registered registerListener_registered
  channel_destructor_registered listener_cancel_registered : preserves.

Ltac preserves_unfold := unfold disconnect_virtual, get_chan, get_lst.

Section facts2.
Context {E : Type} `{!Env E}.

Abbreviation M := (prog (st E)).

(** ** Functions that only make requests preserve every basic relation *)

Section basic.
Context (R : relation (st E)) `{!Basic R}.

Lemma preserves_setBlocking b : preserves R (setBlockingUnlocked b).
Proof. unfold setBlockingUnlocked. preserves_auto. Qed.

Lemma preserves_check_cancel xs : preserves R (qore_check_cancel xs).
Proof. unfold qore_check_cancel. preserves_auto. Qed.

Lemma preserves_waitSocket_dir dir to : preserves R (waitSocket_dir dir to).
Proof. unfold waitSocket_dir. preserves_auto. Qed.

Lemma preserves_waitSocket_raw to : preserves R (waitSocket_raw to).
Proof. unfold waitSocket_raw, waitSocket_dir. preserves_auto. Qed.

#[local] Hint Resolve preserves_setBlocking preserves_check_cancel preserves_waitSocket_raw : preserves.

Lemma preserves_waitSocket_gen disconnect xs toerr err to ind :
  (∀ t, preserves R (disconnect t)) → preserves R (waitSocket_gen disconnect xs toerr err to ind).
Proof. intros Hd. unfold waitSocket_gen. preserves_auto; apply Hd. Qed.

Lemma preserves_wait_in_disconnect xs toerr err to :
  preserves R (waitSocket_in_disconnect xs toerr err to).
Proof. apply preserves_waitSocket_gen. intros. apply preserves_ret; apply _. Qed.

#[local] Hint Resolve preserves_wait_in_disconnect : preserves.

Lemma preserves_release_session op xs to :
  (∀ s, plain (QZ (op s)) = true) → preserves R (release_session op xs to).
Proof.
  intros Hop. unfold release_session. preserves_step; [|preserves_auto].
  apply preserves_while_eagain; [apply _| |preserves_auto].
  preserves_step; [preserves_auto|]. by apply (preserves_basic_call _ (QZ _)).
Qed.

Lemma preserves_sshConnected : preserves R sshConnectedUnlocked.
Proof. unfold sshConnectedUnlocked. preserves_auto. Qed.

Lemma preserves_checkPollOp xs : preserves R (checkPollOpUnlocked xs).
Proof. unfold checkPollOpUnlocked. preserves_auto. Qed.

Lemma preserves_doSessionErr : preserves R doSessionErrUnlocked.
Proof. unfold doSessionErrUnlocked. preserves_auto. Qed.
End basic.
End facts2.

#[export] Hint Resolve preserves_setBlocking preserves_check_cancel preserves_waitSocket_raw
  preserves_waitSocket_dir preserves_wait_in_disconnect preserves_sshConnected
  preserves_checkPollOp preserves_doSessionErr : preserves.
#[export] Hint Extern 1 (preserves _ (release_session _ _ _)) =>
  apply preserves_release_session; first [typeclasses eauto | intros ?; reflexivity] : preserves.
#[export] Hint Extern 3 (preserves _ (waitSocket_gen _ _ _ _ _ _)) =>
  apply preserves_waitSocket_gen; intros ? : preserves.

Section disconnecting.
Context {E : Type} `{!Env E}.

Abbreviation M := (prog (st E)).

(** The objects and their registration are untouched. *)
Definition same_objects (s s' : st E) : Prop :=
  chans s' = chans s ∧ lsts s' = lsts s ∧ nextobj s' = nextobj s ∧
  channel_set (cl s') = channel_set (cl s) ∧ listener_set (cl s') = listener_set (cl s).

#[export] Instance same_objects_frame : Frame same_objects.
Proof.
  split; [split| |]; unfold same_objects; [by intros ?| |done|done].
  intros ??? (->&->&->&->&->) (->&->&->&->&->). done.
Qed.

#[local] Hint Extern 3 (preserves same_objects (upd _)) =>
  apply preserves_upd; intros ?; split_and!; reflexivity : preserves.

Lemma same_objects_registered s s' : same_objects s s' → registered s → registered s'.
Proof.
  intros (Hc&Hl&Hn&Hcs&Hls) [H1 H2 H3 H4].
  split; unfold chan_ptr, lst_ptr; rewrite ?Hc, ?Hl, ?Hn, ?Hcs, ?Hls; done.
Qed.

(** What every disconnect establishes. *)
Record disconnected (s : st E) : Prop := {
  disc_session : ssh_session (cl s) = None;
  disc_auth : sshauthenticatedwith (cl s) = None;
  disc_channel_set : channel_set (cl s) = ∅;
  disc_listener_set : listener_set (cl s) = ∅;
  disc_hold : session_fd_hold (cl s) = false;
  disc_channels id : chan_ptr s id = None;
  disc_listeners id : lst_ptr s id = None
}.

Lemma listener_cancel_post id s :
  registered s →
  wp True (listener_cancelUnlocked id)
    (λ _ s', registered s' ∧ listener_set (cl s') = listener_set (cl s) ∖ {[id]}) s.
Proof.
  intros Hr. apply wp_and.
  - eapply wp_mono; [|apply listener_cancel_registered]. intros ? s' H. by apply H.
  - unfold listener_cancelUnlocked, get_lst, listenerDeletedUnlocked. wp_step. wp_step. wp_step.
    + wp_step. wp_world. wp_step. wp_world. wp_step. done.
    + apply set_eq. intros id'. rewrite elem_of_difference, elem_of_singleton.
      split; [|naive_solver]. intros Hin. split; [done|]. intros ->.
      apply (reg_listeners _ Hr) in Hin. unfold lst_ptr in Hin.
      apply bool_decide_eq_false in H. done.
Qed.

Lemma cancel_all_listeners s :
  registered s →
  wp True (for_each (elements (listener_set (cl s))) listener_cancelUnlocked)
    (λ _ s', registered s' ∧ listener_set (cl s') = ∅) s.
Proof.
  intros Hr.
  eapply wp_mono; [|apply (wp_for_each (λ l s', registered s' ∧
    (∀ id, id ∈ listener_set (cl s') → id ∈ l)))].
  - intros ? s' [H1 H2]. split; [done|]. apply elem_of_equiv_empty_L. intros id Hid.
    by apply H2, not_elem_of_nil in Hid.
  - intros id l s1 [H1 H2]. eapply wp_mono; [|by apply listener_cancel_post].
    intros ? s2 [H3 H4]. split; [done|]. intros id' Hid'.
    rewrite H4, elem_of_difference, elem_of_singleton in Hid'. destruct Hid' as [Hin Hne].
    by apply H2, elem_of_cons in Hin as [->|].
  - split; [done|]. intros id. by rewrite elem_of_elements.
Qed.

(** Closing the registered channels leaves no open channel. *)
Lemma close_all_channels s :
  registered s →
  wp True (for_each (elements (channel_set (cl s))) channel_closeUnlocked)
    (λ _ s', (∀ id, chan_ptr s' id = None) ∧ lsts s' = lsts s ∧ cl s' = cl s ∧
             nextobj s' = nextobj s ∧ (∀ id, (nextobj s' ≤ id)%positive → chans s' !! id = None)) s.
Proof.
  intros Hr.
  eapply wp_mono; [|apply (wp_for_each (λ l s', (∀ id, is_Some (chan_ptr s' id) → id ∈ l) ∧
    lsts s' = lsts s ∧ cl s' = cl s ∧ nextobj s' = nextobj s ∧
    (∀ id, (nextobj s' ≤ id)%positive → chans s' !! id = None)))].
  - intros ? s' [H1 H2]. split; [|done]. intros id. apply eq_None_not_Some. intros Hs.
    by apply H1, not_elem_of_nil in Hs.
  - intros id l s1 (H1 & H2 & H3 & H4 & H5). unfold channel_closeUnlocked, get_chan.
    wp_step. wp_step. wp_step. wp_world. wp_step. split_and!; simpl; try done.
    + intros id'. unfold chan_ptr. simpl. rewrite chan_ptr_alter. case_decide; [by intros [? ?]|].
      intros Hs. apply H1, elem_of_cons in Hs. naive_solver.
    + intros id' Hid. rewrite lookup_alter. case_decide; [subst|]; rewrite H5 by done; done.
  - split_and!; try done; [|apply Hr]. intros id Hs. apply elem_of_elements. by apply (reg_channels _ Hr).
Qed.

Lemma release_post op xs to s :
  (∀ p, plain (QZ (op p)) = true) →
  wp True (release_session op xs to) (λ _ s', same_objects s s') s.
Proof. intros Hop. by apply preserves_release_session; [apply _|]. Qed.

(** The conditional release of the session. *)
Lemma release_all_post force xs to s :
  wp True
    (session ← cfield ssh_session;
     match session with
     | None => when (negb force) (raise xs "SSH2CLIENT-NOT-CONNECTED")
     | Some _ =>
         _ ← mret tt;
         _ ← setBlockingUnlocked false;
         _ ← release_session session_disconnect xs to;
         _ ← release_session session_free xs to;
         upd (λ c, c <| ssh_session := None |>)
     end) (λ _ s', ssh_session (cl s') = None ∧ same_objects s s') s.
Proof.
  apply wp_and.
  - wp_step. wp_world. destruct (ssh_session (cl s)) eqn:Hs.
    + wp_step. wp_step. wp_step. apply wp_intro. intros ? s1 _. wp_step. apply wp_intro. intros ? s2 _.
      wp_step. apply wp_intro. intros ? s3 _. by wp_world.
    + wp_step; [wp_world; by destruct xs|done].
  - eapply (preserves_bind same_objects); [preserves_auto|]. intros [?|]; preserves_auto.
Qed.

(** [SSH2Client::disconnectUnlocked] without a helper closes everything. *)
Lemma SSH2Client_disconnect_post force to xs s :
  registered s →
  wp True (SSH2Client_disconnectUnlocked force to (mret tt) xs)
    (λ rc s', rc = 0 ∧ disconnected s' ∧ registered s') s.
Proof.
  intros Hr. unfold SSH2Client_disconnectUnlocked.
  wp_step. wp_world. wp_step. eapply wp_mono; [|by apply cancel_all_listeners]. intros ? s1 [Hr1 Hl1].
  cbv beta. wp_step. wp_world.
  assert (registered (s1 <| cl := (cl s1) <| listener_set := ∅ |> |>)) as Hr2.
  { destruct Hr1 as [A1 A2 A3 A4]. split; simpl; try done.
    intros id. specialize (A2 id). by rewrite Hl1 in A2. }
  wp_step. wp_world. wp_step.
  eapply wp_mono; [|by apply close_all_channels]. intros ? s2 (B1 & B2 & B3 & B4 & B5). simpl in *.
  wp_step. wp_world.
  apply (wp_bind _ (cfield ssh_session)). set (s3 := s2 <| cl := _ |>).
  pose proof (release_all_post force xs to s3) as Hrel. apply wp_bind_inv in Hrel.
  eapply wp_mono; [|exact Hrel]. intros session s4 Hm. simpl in Hm. wp_step.
  eapply wp_mono; [|exact Hm]. intros ? s5 [Hs5 (C1 & C2 & C3 & C4 & C5)].
  wp_step. wp_world. unfold closeTransportUnlocked. repeat wp_step. wp_world. wp_world. repeat wp_step.
  assert (∀ id, lst_ptr s5 id = None) as Hlp.
  { intros id. unfold lst_ptr. rewrite C2. simpl. rewrite B2. apply eq_None_not_Some. intros Hsome.
    apply (reg_listeners _ Hr1) in Hsome. rewrite Hl1 in Hsome. set_solver. }
  assert (∀ id, chan_ptr s5 id = None) as Hcp.
  { intros id. unfold chan_ptr. rewrite C1. apply B1. }
  split_and!; [done| |].
  - split; simpl; try done. rewrite C5. simpl. by rewrite B3.
  - split; simpl.
    + intros id. rewrite C4. simpl. unfold chan_ptr in *. rewrite Hcp.
      split; [set_solver|by intros [? ?]].
    + intros id. rewrite C5. simpl. rewrite B3. unfold lst_ptr in *. rewrite Hlp.
      split; [set_solver|by intros [? ?]].
    + intros id Hid. rewrite C1. simpl. apply B5. rewrite C3 in Hid. done.
    + intros id Hid. rewrite C2. simpl. rewrite B2. apply (reg_lsts_fresh _ Hr1). rewrite C3 in Hid. simpl in Hid.
      by rewrite B4 in Hid.
Qed.
End disconnecting.

(** ** Frame properties of disconnecting *)

Ltac unfold_disconnect :=
  unfold disconnectUnlocked, disconnect_virtual, SFTPClient_disconnectUnlocked,
    SSH2Client_disconnectUnlocked, doShutdown, closeTransportUnlocked, listener_cancelUnlocked,
    listenerDeletedUnlocked, channel_closeUnlocked, get_chan, get_lst.

Section frames.
Context {E : Type} `{!Env E}.

Abbreviation M := (prog (st E)).

Lemma preserves_while_eagain_hint (R : relation (st E)) `{!PreOrder R} (op : M Z) (wait : M bool) :
  preserves R op → preserves R wait → preserves R (while_eagain op wait).
Proof. apply preserves_while_eagain. done. Qed.

Lemma disconnect_virtual_same_conf force to (adh : M unit) xs :
  preserves same_conf adh → preserves same_conf (disconnect_virtual force to adh xs).
Proof.
  intros Hadh. unfold_disconnect.
  repeat first [progress preserves_auto | apply preserves_while_eagain_hint; [apply _| |]].
Qed.

Lemma disconnect_virtual_emits P `{!Plain P} force to (adh : M unit) xs :
  preserves (emits P) adh →
  preserves (emits P) (disconnect_virtual force to adh xs).
Proof.
  intros Hadh. unfold_disconnect.
  repeat first [progress preserves_auto | apply preserves_while_eagain_hint; [apply _| |]].
Qed.

Lemma disconnectUnlocked_grows force to xs : preserves grows (disconnectUnlocked (E:=E) force to xs).
Proof.
  unfold_disconnect.
  repeat first [progress preserves_auto | apply preserves_while_eagain_hint; [apply _| |]].
Qed.

Lemma disconnectUnlocked_xsink_grows force to xs :
  preserves xsink_grows (disconnectUnlocked (E:=E) force to xs).
Proof.
  unfold_disconnect.
  repeat first [progress preserves_auto | apply preserves_while_eagain_hint; [apply _| |]].
Qed.

Lemma disconnectUnlocked_same_conf force to xs : preserves same_conf (disconnectUnlocked (E:=E) force to xs).
Proof. apply disconnect_virtual_same_conf, preserves_ret. apply _. Qed.

Lemma disconnectUnlocked_emits P `{!Plain P} force to xs :
  preserves (emits P) (disconnectUnlocked (E:=E) force to xs).
Proof. apply disconnect_virtual_emits; [done|]. apply preserves_ret. apply _. Qed.

(** The SFTP session. *)
Definition keeps_no_sftp (s s' : st E) : Prop :=
  sftp_session (cl s) = None → sftp_session (cl s') = None.

#[export] Instance keeps_no_sftp_frame : Frame keeps_no_sftp.
Proof. split; [split| |]; unfold keeps_no_sftp; [by intros ?|by eauto|done|done]. Qed.

Lemma SSH2Client_disconnect_keeps_no_sftp force to xs :
  preserves keeps_no_sftp (SSH2Client_disconnectUnlocked force to (mret tt) xs).
Proof.
  unfold_disconnect.
  repeat first [progress preserves_auto
    | apply preserves_modify; intros ?; (exact id)
    | apply preserves_upd; intros ?; (exact id)].
Qed.

Lemma doShutdown_registered to xs : preserves keeps_registered (doShutdown (E:=E) to xs).
Proof.
  unfold doShutdown.
  repeat first [progress preserves_auto | apply preserves_while_eagain_hint; [apply _| |]].
Qed.

Lemma doShutdown_kls to xs k s :
  kls (cl s) = k → wp True (doShutdown to xs) (λ _ s', kls (cl s') = k ∧ sftp_session (cl s') = None) s.
Proof.
  intros Hk. apply wp_and.
  - assert (preserves same_conf (doShutdown (E:=E) to xs)) as H.
    { unfold doShutdown.
      repeat first [progress preserves_auto | apply preserves_while_eagain_hint; [apply _| |]]. }
    eapply wp_mono; [|apply H]. intros ? s' Hs'. apply (f_equal kls) in Hs'. simpl in Hs'. congruence.
  - unfold doShutdown. wp_step. wp_world. wp_step.
    + wp_step. apply wp_intro. intros ? s1 _. wp_step. apply wp_intro. intros ? s2 _.
      wp_step. wp_world.
      eapply wp_mono; [|apply (preserves_setBlocking keeps_no_sftp)]. intros ? s3 H3. by apply H3.
    + by apply bool_decide_eq_false, eq_None_not_Some in H.
Qed.

(** Every disconnect, on either class, without a live helper. *)
Lemma disconnect_post force to xs s :
  registered s →
  wp True (disconnectUnlocked force to xs)
    (λ rc s', rc = 0 ∧ disconnected s' ∧ registered s' ∧
              (kls (cl s) = SFTPClientClass → sftp_session (cl s') = None)) s.
Proof.
  intros Hr. unfold disconnectUnlocked, disconnect_virtual. wp_step. wp_world.
  destruct (kls (cl s)) eqn:Hk.
  - eapply wp_mono; [|by apply SSH2Client_disconnect_post]. simpl. intros rc s' (?&?&?). done.
  - unfold SFTPClient_disconnectUnlocked. wp_step. wp_step. wp_step.
    apply wp_intro. intros ? s1 Hrun.
    pose proof (wp_run _ _ _ _ _ (doShutdown_registered to xs s) Hrun Hr) as Hr1.
    pose proof (wp_run _ _ _ _ _ (doShutdown_kls to xs _ s Hk) Hrun) as [_ Hsf].
    eapply wp_mono; [|apply wp_and; [by apply SSH2Client_disconnect_post
      |apply SSH2Client_disconnect_keeps_no_sftp]].
    simpl. intros rc s' ((?&?&?) & Hno). split_and!; [done..|]. intros _. by apply Hno.
Qed.
(** A relation that holds of the raw state changes of [disconnected] and [registered]. *)
Lemma quiet_registered (s s' : st E) : quiet s s' → registered s → registered s'.
Proof.
  intros (Hc & Hch & Hl & Hn & _). apply same_objects_registered. unfold same_objects. by rewrite Hc.
Qed.

Lemma quiet_disconnected (s s' : st E) : quiet s s' → disconnected s → disconnected s'.
Proof.
  intros (Hc & Hch & Hl & Hn & _) [H1 H2 H3 H4 H5 H6 H7].
  split; unfold chan_ptr, lst_ptr; rewrite ?Hc, ?Hch, ?Hl; done.
Qed.

(** The connection of [s] has been closed in [s']: what every disconnect on the
    way establishes, whatever was logged before it. *)
Definition closed_from (s s' : st E) : Prop :=
  disconnected s' ∧ registered s' ∧ same_conf s s' ∧ grows s s' ∧
  (kls (cl s) = SFTPClientClass → sftp_session (cl s') = None).

Lemma quiet_same_conf (s s' : st E) : quiet s s' → same_conf s s'.
Proof. intros [Hc _]. unfold same_conf. by rewrite Hc. Qed.

Lemma closed_from_conf (s s1 s' : st E) :
  same_conf s s1 → grows s s1 → closed_from s1 s' → closed_from s s'.
Proof.
  intros Hc G (D & R & C & G1 & Hsf). unfold closed_from. split_and!; [done..|by transitivity s1|by transitivity s1|].
  intros Hk. apply Hsf. apply (f_equal kls) in Hc. simpl in Hc. congruence.
Qed.

Lemma closed_from_quiet (s s1 s' : st E) :
  quiet s s1 → grows s s1 → closed_from s1 s' → closed_from s s'.
Proof. intros Q. by apply closed_from_conf, quiet_same_conf. Qed.

Lemma closed_from_after (s s1 s' : st E) :
  closed_from s s1 → quiet s1 s' → grows s1 s' → closed_from s s'.
Proof.
  intros (D & R & C & G & Hsf) Q G1. unfold closed_from. split_and!.
  - by apply (quiet_disconnected s1).
  - by apply (quiet_registered s1).
  - transitivity s1; [done|by apply quiet_same_conf].
  - by transitivity s1.
  - intros Hk. destruct Q as [-> _]. by apply Hsf.
Qed.

Lemma force_disconnect_post (s : st E) :
  registered s → wp True force_disconnect (λ _ s', closed_from s s' ∧ xsink_grows s s') s.
Proof.
  intros Hr. unfold force_disconnect, closed_from. wp_step. apply wp_intro. intros rc s' Hrun. wp_step.
  destruct (wp_run _ _ _ _ _ (disconnect_post true DEFAULT_TIMEOUT_MS false s Hr) Hrun) as (_ & ? & ? & ?).
  split_and!; try done.
  - apply (wp_run _ _ _ _ _ (disconnectUnlocked_same_conf _ _ _ s) Hrun).
  - apply (wp_run _ _ _ _ _ (disconnectUnlocked_grows _ _ _ s) Hrun).
  - apply (wp_run _ _ _ _ _ (disconnectUnlocked_xsink_grows _ _ _ s) Hrun).
Qed.

(** A disconnect after a failed step: closed, with the exception that is already there. *)
Lemma disconnect_closes force to xs (s : st E) :
  registered s → xsink s ≠ [] →
  wp True (disconnectUnlocked force to xs) (λ _ s', closed_from s s' ∧ xsink s' ≠ []) s.
Proof.
  intros Hr Hx. apply wp_intro. intros rc s' Hrun. unfold closed_from.
  destruct (wp_run _ _ _ _ _ (disconnect_post force to xs s Hr) Hrun) as (_ & ? & ? & ?).
  split_and!; try done.
  - apply (wp_run _ _ _ _ _ (disconnectUnlocked_same_conf _ _ _ s) Hrun).
  - apply (wp_run _ _ _ _ _ (disconnectUnlocked_grows _ _ _ s) Hrun).
  - eapply xsink_grows_nonempty; [exact Hx|].
    apply (wp_run _ _ _ _ _ (disconnectUnlocked_xsink_grows _ _ _ s) Hrun).
Qed.

(** ** Waiting for the socket *)

(** A failed wait has closed the connection and raised an exception; a successful
    one has changed nothing. *)
Definition waited (s : st E) (failed : bool) (s' : st E) : Prop :=
  if failed then closed_from s s' ∧ xsink s' ≠ [] else quiet s s' ∧ grows s s'.

Lemma waited_close {A} (b : A) (m : M Z) (s s1 : st E) :
  quiet s s1 → grows s s1 →
  wp True m (λ _ s', closed_from s1 s' ∧ xsink s' ≠ []) s1 →
  wp True (_ ← (_ ← m; mret tt); mret true) (waited s) s1.
Proof.
  intros Q G H. wp_step. wp_step. eapply wp_mono; [|exact H]. intros rc s2 [C X]. cbv beta.
  repeat wp_step. split; [by apply (closed_from_quiet s s1)|done].
Qed.

Lemma waitSocket_post toerr err to (s : st E) :
  registered s → wp True (waitSocketUnlocked true toerr err to) (waited s) s.
Proof.
  intros Hr. unfold waitSocketUnlocked, waitSocket_gen, qore_check_cancel. cbn [negb andb].
  wp_step. wp_step. wp_world. set (s1 := logged s _ _).
  assert (quiet s s1) as Q1 by apply frame_logged. assert (grows s s1) as G1 by apply frame_logged.
  wp_step. destruct a; cbn [when].
  - wp_world. wp_step. set (s2 := s1 <| xsink := _ |>).
    assert (quiet s s2) as Q2 by (transitivity s1; [done|apply frame_xsink]).
    assert (grows s s2) as G2 by (transitivity s1; [done|apply frame_xsink]).
    apply (waited_close tt); [done..|]. apply disconnect_closes; [by apply (quiet_registered s)|done].
  - wp_step. wp_step. wp_step.
    eapply wp_mono; [|apply wp_and; [apply (preserves_waitSocket_raw quiet)|apply (preserves_waitSocket_raw grows)]].
    intros rc s2 [Q2 G2]. cbv beta.
    assert (quiet s s2) as Q12 by by transitivity s1. assert (grows s s2) as G12 by by transitivity s1.
    wp_step; [|wp_step; [|by apply wp_mret]].
    all: wp_step; wp_world; cbn [when]; set (s3 := s2 <| xsink := _ |>);
      assert (quiet s s3) as Q3 by (transitivity s2; [done|apply frame_xsink]);
      assert (grows s s3) as G3 by (transitivity s2; [done|apply frame_xsink]);
      apply (waited_close tt); [done..|]; apply disconnect_closes; [by apply (quiet_registered s)|done].
Qed.

Lemma waitSocket_emits P `{!Plain P} toerr err to :
  preserves (emits P) (waitSocketUnlocked (E:=E) true toerr err to).
Proof. apply preserves_waitSocket_gen; [apply _|]. intros t. by apply disconnectUnlocked_emits. Qed.

Lemma disconnectUnlocked_registered force to xs :
  preserves keeps_registered (disconnectUnlocked (E:=E) force to xs).
Proof.
  intros s. apply wp_intro. intros rc s' Hrun Hr.
  apply (wp_run _ _ _ _ _ (disconnect_post force to xs s Hr) Hrun).
Qed.

Lemma waitSocket_registered toerr err to :
  preserves keeps_registered (waitSocketUnlocked (E:=E) true toerr err to).
Proof. apply preserves_waitSocket_gen; [apply _|]. intros t. apply disconnectUnlocked_registered. Qed.

Lemma waitSocket_grows toerr err to :
  preserves grows (waitSocketUnlocked (E:=E) true toerr err to).
Proof. apply preserves_waitSocket_gen; [apply _|]. intros t. apply disconnectUnlocked_grows. Qed.

Lemma waitSocket_xsink_grows toerr err to :
  preserves xsink_grows (waitSocketUnlocked (E:=E) true toerr err to).
Proof. apply preserves_waitSocket_gen; [apply _|]. intros t. apply disconnectUnlocked_xsink_grows. Qed.

(** The EAGAIN loop around an operation that only makes requests: it ends with an
    answer of the operation other than EAGAIN, or with a failed wait. *)
Definition retried (op : M Z) (s : st E) (r : option Z) (s' : st E) : Prop :=
  match r with
  | None => closed_from s s' ∧ xsink s' ≠ []
  | Some rc => quiet s s' ∧ grows s s' ∧ rc ≠ LIBSSH2_ERROR_EAGAIN ∧
               ∃ s1, quiet s s1 ∧ grows s s1 ∧ op s1 = Some (rc, s')
  end.

Lemma while_eagain_post (op : M Z) toerr err to (s : st E) :
  registered s → preserves quiet op → preserves grows op →
  wp True (while_eagain op (waitSocketUnlocked true toerr err to)) (retried op s) s.
Proof.
  intros Hr Hq Hg. unfold while_eagain.
  apply (wp_loop (λ _ s', quiet s s' ∧ grows s s')); [|by split].
  intros _ s1 [Q1 G1]. wp_step. apply wp_intro. intros rc s2 Hrun.
  pose proof (wp_run _ _ _ _ _ (Hq s1) Hrun) as Q2. pose proof (wp_run _ _ _ _ _ (Hg s1) Hrun) as G2.
  assert (quiet s s2) as Q12 by by transitivity s1. assert (grows s s2) as G12 by by transitivity s1.
  destruct (Z.eqb_spec rc LIBSSH2_ERROR_EAGAIN).
  - wp_step. eapply wp_mono; [|apply waitSocket_post; by apply (quiet_registered s)].
    intros [] s3 [C3 X3]; cbv beta; apply wp_mret.
    + split; [by apply (closed_from_quiet s s2)|done].
    + split; by transitivity s2.
  - apply wp_mret. split_and!; [done..|]. by exists s1.
Qed.
End frames.

#[export] Hint Extern 2 (preserves _ (disconnectUnlocked _ _ _)) =>
  first [apply disconnectUnlocked_same_conf | apply disconnectUnlocked_emits; typeclasses eauto
        | apply disconnectUnlocked_grows | apply disconnectUnlocked_xsink_grows] : preserves.
#[export] Hint Extern 2 (preserves _ force_disconnect) => unfold force_disconnect; preserves_auto : preserves.

#[export] Hint Resolve waitSocket_grows waitSocket_xsink_grows waitSocket_registered : preserves.
#[export] Hint Extern 2 (preserves (emits _) (waitSocketUnlocked _ _ _ _)) =>
  apply waitSocket_emits; typeclasses eauto : preserves.

(** The retry loops too. *)
Ltac preserves_calls :=
  unfold with_blocking_helper, get_chan, get_lst;
  repeat first [progress preserves_auto | apply preserves_while_eagain_hint; [apply _| |]].

(** * Theorems *)

Section theorems.
Context {E : Type} `{!Env E}.

Abbreviation M := (prog (st E)).

(** The operations that create and release channels and listeners, as a step
    relation: what any thread does to the registries while it holds the lock. *)
Inductive lifecycle_op :=
  | LRegisterChannel (h : handle)
  | LRegisterListener (h : handle) (bound_port : Z)
  | LDestroyChannel (id : positive)
  | LDestroyListener (id : positive)
  | LCancelListener (id : positive)
  | LDisconnect (force : bool) (timeout_ms : Z) (xs : bool).

Definition run_lifecycle (op : lifecycle_op) : M unit :=
  match op with
  | LRegisterChannel h => _ ← registerChannelUnlockedRaw (Some h); mret tt
  | LRegisterListener h port => _ ← registerListenerUnlocked (Some h) port; mret tt
  | LDestroyChannel id => channel_destructor id
  | LDestroyListener id => listener_destructor id
  | LCancelListener id => listener_cancel id
  | LDisconnect force to xs => _ ← disconnect force to xs; mret tt
  end.

Inductive lifecycle : st E → st E → Prop :=
  | lifecycle_refl s : lifecycle s s
  | lifecycle_step s s1 s2 op :
      lifecycle s s1 → run_lifecycle op s1 = Some (tt, s2) → lifecycle s s2.

Lemma disconnect_registered force to xs : preserves keeps_registered (disconnect (E:=E) force to xs).
Proof.
  intros s. unfold disconnect. wp_step. apply wp_intro. intros busy s1 H1.
  assert (keeps_registered s s1) as K1.
  { apply (wp_run _ _ _ _ _ (preserves_checkPollOp keeps_registered xs s) H1). }
  wp_step; [by apply wp_mret|]. wp_step. wp_world. wp_step.
  - wp_step. wp_world. apply wp_mret. intros Hr. destruct xs; [|by apply K1].
    apply (frame_xsink (R := keeps_registered)), K1, Hr.
  - apply wp_intro. intros rc s2 H2 Hr.
    apply (wp_run _ _ _ _ _ (disconnect_post force to xs s1 (K1 Hr)) H2).
Qed.

Lemma run_lifecycle_registered op : preserves keeps_registered (run_lifecycle op).
Proof.
  destruct op; simpl; unfold listener_destructor, listener_cancel, get_lst; preserves_auto.
  apply disconnect_registered.
Qed.

(** The registries stay exact under every sequence of channel and
    listener operations and disconnects: an object is in the client's set if and
    only if it still owns its libssh2 object, so a channel is freed exactly once
    and a disconnect finds every open channel. *)
Theorem lifecycle_registered (s s' : st E) : registered s → lifecycle s s' → registered s'.
Proof.
  intros Hr Hl. induction Hl as [s|s s1 s2 op _ IH Hrun]; [done|].
  eapply (wp_run _ _ _ _ _ (run_lifecycle_registered op s1) Hrun). by apply IH.
Qed.

(** C13: A disconnect that returns leaves nothing behind: no session, no
    SFTP session, no registered or open channel or listener, no authentication
    mark, no hold on the descriptor; the configuration of the client is unchanged
    and no credentials were sent. *)
Theorem disconnect_complete (force : bool) (to : Z) (xs : bool) (s s' : st E) (rc : Z) :
  registered s → disconnectUnlocked force to xs s = Some (rc, s') →
  rc = 0 ∧ disconnected s' ∧ registered s' ∧ same_conf s s' ∧ emits no_credentials s s' ∧
  (kls (cl s) = SFTPClientClass → sftp_session (cl s') = None).
Proof.
  intros Hr Hrun.
  destruct (wp_run _ _ _ _ _ (disconnect_post force to xs s Hr) Hrun) as (?&?&?&?).
  split_and!; try done.
  - apply (wp_run _ _ _ _ _ (disconnectUnlocked_same_conf force to xs s) Hrun).
  - apply (wp_run _ _ _ _ _ (disconnectUnlocked_emits no_credentials force to xs s) Hrun).
Qed.

(** Termination of disconnecting. *)
Section termination.
Context (budget : E → nat) `{!Budget budget}.

Lemma total_setBlocking b : total budget (setBlockingUnlocked b).
Proof. unfold setBlockingUnlocked. total_auto. Qed.

Lemma total_check_cancel xs : total budget (qore_check_cancel xs).
Proof. unfold qore_check_cancel. total_auto. Qed.

Lemma total_waitSocket_raw to : total budget (waitSocket_raw to).
Proof. unfold waitSocket_raw, waitSocket_dir. total_auto. Qed.

#[local] Hint Resolve total_setBlocking total_check_cancel total_waitSocket_raw : total.

Lemma total_waitSocket_gen disconnect xs toerr err to ind :
  (∀ t, total budget (disconnect t)) → total budget (waitSocket_gen disconnect xs toerr err to ind).
Proof. intros Hd. unfold waitSocket_gen. total_auto; apply Hd. Qed.

Lemma total_wait_in_disconnect xs toerr err to :
  total budget (waitSocket_in_disconnect xs toerr err to).
Proof. apply total_waitSocket_gen. intros. apply total_ret. Qed.

#[local] Hint Resolve total_wait_in_disconnect : total.

Lemma total_release op xs to : total budget (release_session op xs to).
Proof. unfold release_session. total_auto. Qed.

#[local] Hint Resolve total_release : total.

Lemma total_disconnect_virtual force to adh xs :
  total budget adh → total budget (disconnect_virtual force to adh xs).
Proof. intros Hadh. unfold_disconnect. total_auto. Qed.

Lemma total_disconnect force to xs : total budget (disconnectUnlocked force to xs).
Proof. apply total_disconnect_virtual, total_ret. Qed.
End termination.

(** A disconnect returns: on every network that answers EAGAIN a
    bounded number of times, below the iteration bound, all its retry loops end. *)
Theorem disconnect_terminates (budget : E → nat) `{!Budget budget} (force : bool) (to : Z) (xs : bool)
    (s : st E) :
  (budget (env s) < fuel)%nat → ∃ rc s', disconnectUnlocked force to xs s = Some (rc, s').
Proof.
  intros Hs. pose proof (total_disconnect budget force to xs s Hs) as H. unfold wp in H.
  destruct (disconnectUnlocked force to xs s) as [[rc s']|]; [by eauto|done].
Qed.

(** While a connect or a poll operation runs, [disconnect] is refused
    with an exception and changes nothing else. *)
Theorem disconnect_refused (force : bool) (to : Z) (s : st E) :
  poll_op_in_progress (cl s) = true ∨ connect_in_progress (cl s) = true →
  ∃ err, disconnect force to true s = Some (-1, s <| xsink := Exc err NoDetail :: xsink s |>) ∧
         err = (if poll_op_in_progress (cl s) then "SSH2-POLL-IN-PROGRESS"
                else "SSH2-CONNECT-IN-PROGRESS")%string.
Proof.
  intros H. unfold disconnect, checkPollOpUnlocked, cfield, mbind, prog_bind, gets. simpl.
  destruct (poll_op_in_progress (cl s)) eqn:Hp; simpl; [by eauto|].
  destruct H as [H|H]; [done|]. rewrite H. simpl. by eauto.
Qed.
End theorems.

(** ** Witnesses *)

Lemma registered_state0 k : registered (state0 (client0 k)).
Proof.
  split; simpl; intros id; rewrite ?lookup_empty; try done;
    unfold chan_ptr, lst_ptr; simpl; rewrite lookup_empty; split; [set_solver|by intros [? ?]|set_solver|by intros [? ?]].
Qed.

(** A connected client with one open channel and one listener. *)
Definition connected_client (k : client_class) : client :=
  (client0 k) <| ssh_session := Some 1%positive |> <| sshauthenticatedwith := Some "password"%string |>
    <| session_fd_hold := true |>.

Definition open_two : prog (st nat) unit :=
  _ ← registerChannelUnlockedRaw (Some 7%positive);
  _ ← registerListenerUnlocked (Some 8%positive) 4022;
  mret tt.

Definition state_two (k : client_class) : st nat :=
  default (state0 (client0 k)) (final open_two (state0 (connected_client k))).

Lemma registered_state_two k : registered (state_two k).
Proof.
  assert (registered (state0 (connected_client k))) as H0.
  { destruct (registered_state0 k) as [H1 H2 H3 H4]. by split. }
  assert (preserves keeps_registered open_two) as Hp by (unfold open_two; preserves_auto).
  apply (wp_run open_two _ _ tt _ (Hp (state0 (connected_client k))) eq_refl H0).
Qed.

Lemma disconnect_complete_witness :
  ∃ s', @disconnectUnlocked nat quiet_env true 10000 false (state_two SFTPClientClass) = Some (0, s') ∧
    disconnected s' ∧ bool_decide (channel_set (cl (state_two SFTPClientClass)) = {[1%positive]}) = true.
Proof.
  destruct (@disconnectUnlocked nat quiet_env true 10000 false (state_two SFTPClientClass))
    as [[rc s']|] eqn:Hrun; [|vm_compute in Hrun; discriminate].
  destruct (@disconnect_complete nat quiet_env true 10000 false (state_two SFTPClientClass) s' rc
    (registered_state_two SFTPClientClass) Hrun) as (-> & Hd & _).
  exists s'. split; [done|]. split; [exact Hd|]. vm_compute. reflexivity.
Defined.

Lemma lifecycle_registered_witness :
  registered (state0 (client0 SSH2ClientClass)) ∧
  ∃ s', @lifecycle nat quiet_env (state0 (client0 SSH2ClientClass)) s' ∧ registered s' ∧
    bool_decide (channel_set (cl s') = {[1%positive]}) = true.
Proof.
  split; [apply registered_state0|].
  assert (@lifecycle nat quiet_env (state0 (client0 SSH2ClientClass))
    (default (state0 (client0 SSH2ClientClass))
      (final (@run_lifecycle nat quiet_env (LRegisterChannel 7)) (state0 (client0 SSH2ClientClass))))) as Hl.
  { eapply (lifecycle_step _ _ _ (LRegisterChannel 7)); [apply lifecycle_refl|]. reflexivity. }
  eexists. split; [exact Hl|]. split; [|vm_compute; reflexivity].
  exact (@lifecycle_registered nat quiet_env _ _ (registered_state0 SSH2ClientClass) Hl).
Defined.

Lemma disconnect_terminates_witness :
  (0 < 20)%nat ∧
  ∃ rc s', @disconnectUnlocked nat quiet_env true 10000 false (state_two SSH2ClientClass) = Some (rc, s').
Proof.
  split; [lia|].
  apply (@disconnect_terminates nat quiet_env (λ _, 0%nat) quiet_budget). simpl. lia.
Defined.

Lemma disconnect_refused_witness :
  ∃ err, @disconnect nat quiet_env true 0 true
      (state0 ((client0 SSH2ClientClass) <| poll_op_in_progress := true |>)) =
    Some (-1, (state0 ((client0 SSH2ClientClass) <| poll_op_in_progress := true |>))
                <| xsink := [Exc err NoDetail] |>).
Proof.
  destruct (@disconnect_refused nat quiet_env true 0
    (state0 ((client0 SSH2ClientClass) <| poll_op_in_progress := true |>))) as (err & H & _); [by left|].
  exists err. exact H.
Defined.

#[export] Hint Resolve total_setBlocking total_check_cancel total_waitSocket_raw
  total_wait_in_disconnect total_release total_disconnect : total.
