(* ===== verification/Config.v ===== *)
(** The configuration of a client: its constructor, its setters with their
    guards (SSH2Client.h, SSH2Client.cpp), and the operations other threads can
    run on it while a connect has released the lock. *)

From S2P Require Import Prelude Modes World Sim Defaults Transport.

Section config.
Context {E : Type} `{!Env E}.

Abbreviation M := (prog (st E)).

(** ** Sandbox checks on files *)

(** [ssh2_check_fs_access]: true when it returns -1.  Without [xsink] the check
    runs on a local sink that is cleared. *)
Definition ssh2_check_fs_access (path : string) (mode : fs_mode) (xs : bool) : M bool :=
  if str_empty path then mret false
  else
    no_fs ← callB po_no_filesystem;
    if no_fs : bool then
      _ ← raise xs "ILLEGAL-FILESYSTEM-ACCESS";
      mret true
    else
      smh ← callB sandbox_present;
      if smh : bool then
        ok ← callB (sandbox_checkFilesystemAccess path mode);
        if ok : bool then mret false
        else
          _ ← raise_exc xs ExternalExc;
          mret true
      else mret false.

Definition ssh2_fs_access_allowed_quiet (path : string) (mode : fs_mode) : M bool :=
  denied ← ssh2_check_fs_access path mode false;
  mret (negb denied).

(** ** Setters *)

(** The setters that are refused while a session exists or is being made. *)
Definition guarded_set (f : client → client) : M Z :=
  c ← gets cl;
  if sshSessionActive c then
    _ ← raise true "SSH2-CONNECTED";
    mret (-1)
  else
    _ ← upd f;
    mret 0.

(** [setUser] and [setPassword] report the refusal by their return code only. *)
Definition silent_set (f : client → client) : M Z :=
  c ← gets cl;
  if sshSessionActive c then mret (-1)
  else
    _ ← upd f;
    mret 0.

Definition setUser (user : string) : M Z := silent_set (λ c, c <| sshuser := user |>).

Definition setPassword (pwd : string) : M Z := silent_set (λ c, c <| sshpass := pwd |>).

Definition setKnownHostsFile (path : option string) : M Z :=
  guarded_set (λ c, c <| known_hosts_file := default EmptyString path |>).

Definition setVerifyHostKey (verify : bool) : M Z :=
  guarded_set (λ c, c <| verify_host_key := verify |>).

(** The setters of objects: the client takes a reference to the new one and releases the old. *)
Definition when_object (o : ptr) (c : ptr → ucall) : M unit := when (bool_decide (is_Some o)) (callU (c o)).

Definition set_object (old : client → ptr) (new : ptr) (f : client → client) : M Z :=
  c ← gets cl;
  if sshSessionActive c then
    _ ← raise true "SSH2-CONNECTED";
    mret (-1)
  else
    _ ← when_object new object_ref;
    _ ← upd f;
    _ ← when_object (old c) object_deref;
    mret 0.

Definition setClientIdentityProvider (provider : ptr) : M Z :=
  set_object client_identity_provider provider (λ c, c <| client_identity_provider := provider |>).

Definition setHostKeyStore (store : ptr) : M Z :=
  set_object host_key_store store (λ c, c <| host_key_store := store |>).

Definition setMethodPreference (method_type : Z) (prefs : string) : M Z :=
  guarded_set (λ c, c <| method_prefs := <[method_type := prefs]> (method_prefs c) |>).

Definition setBanner (banner : option string) : M Z :=
  guarded_set (λ c, c <| ssh_banner := default EmptyString banner |>).

Definition setUseAgent (enable : bool) : M Z := guarded_set (λ c, c <| use_agent := enable |>).

Definition setKeepalive (interval : Z) : M Z :=
  guarded_set (λ c, c <| keepalive_interval := interval |>).

Definition setKeysFromData (priv_key : string) (pub_key passphrase : option string) : M Z :=
  guarded_set (λ c, c <| sshkeys_priv_data := priv_key |>
                      <| sshkeys_pub_data := default EmptyString pub_key |>
                      <| sshkeys_passphrase := default EmptyString passphrase |>
                      <| explicit_key_data := true |>).

(** The policies, which can be set while connected but not while connecting:
    a range check follows the guard. *)
Definition ranged_set (valid : bool) (range_err : string) (f : client → client) : M Z :=
  connecting ← cfield connect_in_progress;
  if connecting : bool then
    _ ← raise true "SSH2-CONNECTED";
    mret (-1)
  else if negb valid then
    _ ← raise true range_err;
    mret (-1)
  else
    _ ← upd f;
    mret 0.

Definition setHostKeyPolicy (policy : Z) : M Z :=
  ranged_set (valid_policy policy) "SSH2-HOSTKEY-POLICY-ERROR"
    (λ c, c <| host_key_policy := policy |>).

Definition valid_auth_order (order : Z) : bool :=
  (order =? SSH2_CLIENT_AUTH_EXPLICIT_FIRST) || (order =? SSH2_CLIENT_AUTH_PROVIDER_FIRST).

Definition setClientAuthOrder (order : Z) : M Z :=
  ranged_set (valid_auth_order order) "SSH2-CLIENT-AUTH-ORDER-ERROR"
    (λ c, c <| client_auth_order := order |>).

Definition valid_fallback_policy (policy : Z) : bool :=
  (policy =? SSH2_CLIENT_ID_FALLBACK_DISABLED) || (policy =? SSH2_CLIENT_ID_FALLBACK_AGENT) ||
  (policy =? SSH2_CLIENT_ID_FALLBACK_DEFAULT_KEYS) ||
  (policy =? SSH2_CLIENT_ID_FALLBACK_AGENT_AND_DEFAULT_KEYS).

Definition setClientIdentityFallbackPolicy (policy : Z) : M Z :=
  ranged_set (valid_fallback_policy policy) "SSH2-CLIENT-IDENTITY-FALLBACK-POLICY-ERROR"
    (λ c, c <| client_identity_fallback_policy := policy |>).

(** [SSH2Client::setKeys]; null strings are [None]. *)
Definition setKeys (priv pub : option string) : M Z :=
  c ← gets cl;
  if sshSessionActive c then
    _ ← raise true "SSH2-CONNECTED";
    mret (-1)
  else
    let clear_priv := upd (λ c, c <| sshkeys_priv := EmptyString |>) in
    let clear_both := upd (λ c, c <| sshkeys_priv := EmptyString |> <| sshkeys_pub := EmptyString |>) in
    let finish : M Z :=
      _ ← upd (λ c, if negb (str_empty (sshkeys_priv c)) && negb (str_empty (sshkeys_pub c))
                    then c <| explicit_key_files := true |> else c);
      mret 0 in
    _ ← clear_both;
    _ ← upd (λ c, c <| explicit_key_files := false |> <| auto_key_files := false |>);
    if str_empty (default EmptyString priv) then finish
    else
      let key := default EmptyString priv in
      _ ← upd (λ c, c <| sshkeys_priv := key |>);
      denied ← ssh2_check_fs_access key ModeRead true;
      if denied : bool then
        _ ← clear_priv;
        mret (-1)
      else
        readable ← callB (path_is_readable key);
        if negb readable then
          _ ← raise true "SSH2-SETKEYS-ERROR";
          _ ← clear_priv;
          mret (-1)
        else
          let pkey := default (key +:+ ".pub") pub in
          _ ← upd (λ c, c <| sshkeys_pub := pkey |>);
          denied ← ssh2_check_fs_access pkey ModeRead true;
          if denied : bool then
            _ ← clear_both;
            mret (-1)
          else
            readable ← callB (path_is_readable pkey);
            if negb readable then
              _ ← raise true "SSH2-SETKEYS-ERROR";
              _ ← clear_both;
              mret (-1)
            else finish.

(** ** Construction *)

(** [SSH2Client::setKeysIntern]: the default key files of the process user.  The
    early returns of the code leave the function before the user is filled in. *)
Definition setKeysIntern : M unit :=
  usrpwd ← call getpwuid;
  match usrpwd with
  | None => mret tt
  | Some (pw_name, pw_dir) =>
      user ← cfield sshuser;
      let fill_user : M unit :=
        upd (λ c, if str_empty (sshuser c) then c <| sshuser := pw_name |> else c) in
      let clear_both := upd (λ c, c <| sshkeys_priv := EmptyString |> <| sshkeys_pub := EmptyString |>) in
      when (str_empty user || String.eqb user pw_name) (
        no_fs ← callB po_no_filesystem;
        if no_fs : bool then fill_user
        else
          let priv := pw_dir +:+ "/.ssh/id_rsa" in
          let pub := pw_dir +:+ "/.ssh/id_rsa.pub" in
          _ ← upd (λ c, c <| sshkeys_priv := priv |>);
          allowed ← ssh2_fs_access_allowed_quiet priv ModeRead;
          if negb allowed then upd (λ c, c <| sshkeys_priv := EmptyString |>)
          else
            readable ← callB (path_is_readable priv);
            if negb readable then upd (λ c, c <| sshkeys_priv := EmptyString |>)
            else
              _ ← upd (λ c, c <| sshkeys_pub := pub |>);
              allowed ← ssh2_fs_access_allowed_quiet pub ModeRead;
              if negb allowed then clear_both
              else
                readable ← callB (path_is_readable pub);
                if negb readable then clear_both
                else
                  _ ← upd (λ c, c <| auto_key_files := true |>);
                  fill_user)
  end.

(** [SSH2Client::setKnownHostsIntern] *)
Definition setKnownHostsIntern (d : defaults) : M unit :=
  let '(mode, explicit_path) := ssh2_get_default_known_hosts d EmptyString in
  if mode =? SSH2_KH_DEFAULT_DISABLED then mret tt
  else if mode =? SSH2_KH_DEFAULT_EXPLICIT then
    upd (λ c, c <| known_hosts_file := explicit_path |>)
  else
    no_fs ← callB po_no_filesystem;
    if no_fs : bool then mret tt
    else
      usrpwd ← call getpwuid;
      match usrpwd with
      | Some (_, pw_dir) =>
          when (negb (str_empty pw_dir)) (
            upd (λ c, c <| known_hosts_file := pw_dir +:+ "/.ssh/known_hosts" |>))
      | None => mret tt
      end.

(** The initialiser lists of the two constructors; [SSH2Client(hostname, port)]
    has no user and password.  A port of 0 becomes the default SSH port in the
    URL constructor only. *)
Definition init_client (k : client_class) (d : defaults) (host user pass : string) (port : Z) : client :=
  mkClient k host user pass EmptyString EmptyString EmptyString EmptyString EmptyString EmptyString
    (df_verify d) (df_policy d) None None SSH2_CLIENT_AUTH_EXPLICIT_FIRST
    SSH2_CLIENT_ID_FALLBACK_DISABLED ∅ EmptyString port QKEEPALIVE_DEFAULT true false false false
    EmptyString None false false ∅ ∅ false None EmptyString None.

(** [SSH2Client::SSH2Client(hostname, port)] *)
Definition construct_host (k : client_class) (d : defaults) (host : string) (port : Z) : M unit :=
  _ ← upd (λ _, init_client k d host EmptyString EmptyString port);
  _ ← setKeysIntern;
  setKnownHostsIntern d.

(** [SSH2Client::SSH2Client(url, port)] *)
Definition construct_url (k : client_class) (d : defaults) (host user pass : option string)
    (url_port port : Z) : M unit :=
  let sshport := if port =? 0 then url_port else port in
  let sshport := if sshport =? 0 then DEFAULT_SSH_PORT else sshport in
  _ ← upd (λ _, init_client k d (default EmptyString host) (default EmptyString user)
                  (default EmptyString pass) sshport);
  _ ← setKeysIntern;
  setKnownHostsIntern d.

(** ** Operations of other threads *)

Definition run_client_op (op : client_op) : M unit :=
  let ignore (m : M Z) : M unit := _ ← m; mret tt in
  match op with
  | OpDisconnect force to => ignore (disconnect force to true)
  | OpSetUser u => ignore (setUser u)
  | OpSetPassword p => ignore (setPassword p)
  | OpSetKnownHostsFile p => ignore (setKnownHostsFile p)
  | OpSetVerifyHostKey v => ignore (setVerifyHostKey v)
  | OpSetHostKeyPolicy p => ignore (setHostKeyPolicy p)
  | OpSetHostKeyStore p => ignore (setHostKeyStore p)
  | OpSetClientIdentityProvider p => ignore (setClientIdentityProvider p)
  | OpSetClientAuthOrder o => ignore (setClientAuthOrder o)
  | OpSetClientIdentityFallbackPolicy p => ignore (setClientIdentityFallbackPolicy p)
  | OpSetMethodPreference m p => ignore (setMethodPreference m p)
  | OpSetBanner b => ignore (setBanner b)
  | OpSetKeysFromData k pk pp => ignore (setKeysFromData k pk pp)
  | OpSetUseAgent e => ignore (setUseAgent e)
  | OpSetKeepalive i => ignore (setKeepalive i)
  | OpReservePollOperation => ignore reservePollOperation
  end.

(** Another thread's operation collects its exceptions in its own sink. *)
Definition run_other_thread (op : client_op) : M unit :=
  mine ← gets xsink;
  _ ← run_client_op op;
  modify (λ s, s <| xsink := mine |>).

(** [AutoUnlocker au(m); rv = obj->evalMethod(method, args)] *)
Definition eval_unlocked (obj : ptr) (method : string) (args : list qval) : M (option qval) :=
  r ← call (eval_method obj method args);
  _ ← for_each (fst r) run_other_thread;
  mret (snd r).
End config.

(** * Facts *)

Section facts.
Context {E : Type} `{!Env E}.

Abbreviation M := (prog (st E)).

Lemma preserves_check_fs_access (R : relation (st E)) `{!Basic R} path mode xs :
  preserves R (ssh2_check_fs_access path mode xs).
Proof. unfold ssh2_check_fs_access. preserves_auto. Qed.

Lemma preserves_fs_access_quiet (R : relation (st E)) `{!Basic R} path mode :
  preserves R (ssh2_fs_access_allowed_quiet path mode).
Proof.
  unfold ssh2_fs_access_allowed_quiet.
  preserves_step; [by apply preserves_check_fs_access|preserves_auto].
Qed.

(** The check leaves the client alone, and a denial is reported. *)
Lemma check_fs_access_post path mode (s : st E) :
  wp True (ssh2_check_fs_access path mode true)
    (λ denied s', cl s' = cl s ∧
       if denied : bool then (length (xsink s) < length (xsink s'))%nat else xsink s' = xsink s) s.
Proof.
  unfold ssh2_check_fs_access. repeat first [wp_step | wp_world]; simpl; split; auto with lia.
Qed.

(** A state with its exceptions replaced by the same exceptions is the state itself. *)
Lemma xsink_restore (s : st E) l : s <| xsink := l |> <| xsink := xsink s |> = s.
Proof. by destruct s. Qed.

Lemma guarded_set_refused f (s : st E) :
  sshSessionActive (cl s) = true →
  guarded_set f s = Some (-1, s <| xsink := Exc "SSH2-CONNECTED" NoDetail :: xsink s |>).
Proof. intros H. unfold guarded_set, mbind, prog_bind, gets. by rewrite H. Qed.

Lemma set_object_refused old new f (s : st E) :
  sshSessionActive (cl s) = true →
  set_object old new f s = Some (-1, s <| xsink := Exc "SSH2-CONNECTED" NoDetail :: xsink s |>).
Proof. intros H. unfold set_object, mbind, prog_bind, gets. by rewrite H. Qed.

Lemma silent_set_refused f (s : st E) :
  sshSessionActive (cl s) = true → silent_set f s = Some (-1, s).
Proof. intros H. unfold silent_set, mbind, prog_bind, gets. by rewrite H. Qed.

Lemma ranged_set_refused valid err f (s : st E) :
  connect_in_progress (cl s) = true →
  ranged_set valid err f s = Some (-1, s <| xsink := Exc "SSH2-CONNECTED" NoDetail :: xsink s |>).
Proof. intros H. unfold ranged_set, cfield, mbind, prog_bind, gets. by rewrite H. Qed.

Lemma connecting_active (s : st E) :
  connect_in_progress (cl s) = true ∨ poll_op_in_progress (cl s) = true →
  sshSessionActive (cl s) = true.
Proof. unfold sshSessionActive. intros [-> | ->]; [done|]. by rewrite orb_true_r. Qed.

(** Running an operation in a sink of its own. *)
Lemma run_other_thread_unfold op (s : st E) :
  run_other_thread op s =
  match run_client_op op s with
  | Some (_, s') => Some (tt, s' <| xsink := xsink s |>)
  | None => None
  end.
Proof. unfold run_other_thread, mbind, prog_bind, gets, modify. by destruct (run_client_op op s) as [[]|]. Qed.

Lemma ignored_result (m : M Z) (s : st E) rc l :
  m s = Some (rc, s <| xsink := l |>) →
  match (_ ← m; mret tt) s with
  | Some (_, s') => Some (tt, s' <| xsink := xsink s |>)
  | None => None
  end = Some (tt, s).
Proof. intros H. unfold mbind, prog_bind. rewrite H. simpl. by rewrite xsink_restore. Qed.

Lemma refused_during_connect op (s : st E) :
  connect_in_progress (cl s) = true → run_other_thread op s = Some (tt, s).
Proof.
  intros Hc. pose proof (connecting_active s (or_introl Hc)) as Ha.
  rewrite run_other_thread_unfold. destruct op; cbn [run_client_op];
    try (by (eapply ignored_result; first [apply guarded_set_refused | apply set_object_refused]));
    try (by (eapply ignored_result; apply ranged_set_refused));
    try (by (apply (ignored_result _ _ (-1) (xsink s));
             unfold setUser, setPassword; rewrite silent_set_refused by done; by destruct s)).
  - unfold disconnect, checkPollOpUnlocked, cfield, mbind, prog_bind, gets.
    destruct (poll_op_in_progress (cl s)) eqn:Hp; simpl; [by destruct s|].
    rewrite Hc. simpl. by destruct s.
  - unfold reservePollOperation, mbind, prog_bind, gets.
    destruct (poll_op_in_progress (cl s)) eqn:Hp; simpl; [by destruct s|].
    rewrite Hc. simpl. by destruct s.
Qed.

Lemma others_refused_during_connect ops (s : st E) :
  connect_in_progress (cl s) = true → for_each ops run_other_thread s = Some (tt, s).
Proof.
  intros Hc. induction ops as [|op ops IH]; [done|]. simpl. unfold mbind, prog_bind.
  by rewrite refused_during_connect.
Qed.

(** During a connect an unlocked call only logs itself. *)
Lemma wp_eval_unlocked_connecting d obj method args (Q : option qval → st E → Prop) s :
  connect_in_progress (cl s) = true →
  (∀ ops rv e', Q rv (logged s (Ev (eval_method obj method args) (ops, rv)) e')) →
  wp d (eval_unlocked obj method args) Q s.
Proof.
  intros Hc HQ. unfold eval_unlocked. apply wp_bind. apply (wp_call _ (eval_method obj method args)).
  intros [ops rv] e' _. unfold wp, mbind, prog_bind. simpl.
  rewrite others_refused_during_connect by done. apply HQ.
Qed.

(** The policies of a client are always among the documented ones. *)
Definition policies_ok (c : client) : Prop :=
  valid_policy (host_key_policy c) = true ∧ valid_auth_order (client_auth_order c) = true ∧
  valid_fallback_policy (client_identity_fallback_policy c) = true.

Definition keeps_policies (s s' : st E) : Prop := policies_ok (cl s) → policies_ok (cl s').

#[export] Instance keeps_policies_frame : Frame keeps_policies.
Proof. split; [split| |]; unfold keeps_policies; [by intros ?|by eauto|done|done]. Qed.

Lemma same_conf_policies (s s' : st E) : same_conf s s' → keeps_policies s s'.
Proof.
  intros Hc [H1 [H2 H3]]. unfold policies_ok.
  pose proof (f_equal host_key_policy Hc) as E1. pose proof (f_equal client_auth_order Hc) as E2.
  pose proof (f_equal client_identity_fallback_policy Hc) as E3. simpl in *. by rewrite E1, E2, E3.
Qed.

Lemma preserves_weaken (R R' : relation (st E)) {A} (m : M A) :
  (∀ s s', R s s' → R' s s') → preserves R m → preserves R' m.
Proof. intros H Hm s. eapply wp_mono; [|apply Hm]. simpl. auto. Qed.

Lemma disconnect_same_conf force to xs : preserves same_conf (disconnect (E:=E) force to xs).
Proof. unfold disconnect. preserves_auto. Qed.

Lemma preserves_ranged_policies valid err f :
  (valid = true → ∀ c, policies_ok c → policies_ok (f c)) →
  preserves keeps_policies (ranged_set valid err f).
Proof.
  intros Hf. unfold ranged_set. destruct valid; cbn [negb]; preserves_auto.
  apply preserves_upd. intros s Hs. by apply Hf.
Qed.

Lemma run_client_op_policies op : preserves keeps_policies (run_client_op op).
Proof.
  assert (∀ f : client → client, (∀ c, policies_ok c → policies_ok (f c)) → preserves keeps_policies (upd f)) as Hu.
  { intros f Hf. apply preserves_upd. intros s Hs. by apply Hf. }
  destruct op; cbn [run_client_op];
    (apply preserves_bind; [apply _| |intros ?; preserves_auto]);
    try (apply preserves_ranged_policies; intros Hv c (?&?&?); by split_and!);
    unfold setUser, setPassword, setKnownHostsFile, setVerifyHostKey, setHostKeyStore,
      setClientIdentityProvider, setMethodPreference, setBanner, setKeysFromData, setUseAgent,
      setKeepalive, guarded_set, set_object, when_object, silent_set, reservePollOperation.
  1: apply (preserves_weaken same_conf), disconnect_same_conf; apply same_conf_policies.
  all: preserves_auto; apply Hu; intros c (?&?&?); by split_and!.
Qed.

Lemma run_other_thread_policies op : preserves keeps_policies (run_other_thread op).
Proof.
  unfold run_other_thread. preserves_step; [preserves_auto|].
  preserves_step; [apply run_client_op_policies|].
  apply preserves_modify. by intros s ?.
Qed.

(** Without credentials and without touching the registries' exactness. *)
Lemma run_other_thread_no_credentials op : preserves (emits no_credentials) (run_other_thread op).
Proof.
  unfold run_other_thread. preserves_step; [preserves_auto|]. preserves_step.
  - destruct op; cbn [run_client_op]; (apply preserves_bind; [apply _| |intros ?; preserves_auto]);
      unfold disconnect, setUser, setPassword, setKnownHostsFile, setVerifyHostKey, setHostKeyStore,
        setClientIdentityProvider, setMethodPreference, setBanner, setKeysFromData, setUseAgent,
        setKeepalive, setHostKeyPolicy, setClientAuthOrder, setClientIdentityFallbackPolicy,
        guarded_set, set_object, when_object, silent_set, ranged_set, reservePollOperation; preserves_auto.
  - preserves_auto.
Qed.

Lemma eval_unlocked_no_credentials obj method args :
  preserves (emits no_credentials) (eval_unlocked obj method args).
Proof.
  unfold eval_unlocked. preserves_auto. apply run_other_thread_no_credentials.
Qed.
End facts.

#[export] Hint Resolve preserves_check_fs_access preserves_fs_access_quiet
  eval_unlocked_no_credentials : preserves.

(** * Theorems *)

Section theorems.
Context {E : Type} `{!Env E}.

Abbreviation M := (prog (st E)).


(** The settings that the header declares fixed for the life of a session. *)
Definition session_setting (op : client_op) : bool :=
  match op with
  | OpDisconnect _ _ | OpReservePollOperation | OpSetHostKeyPolicy _ | OpSetClientAuthOrder _
  | OpSetClientIdentityFallbackPolicy _ => false
  | _ => true
  end.

(** While a session, a connect or a poll operation is active, no
    sequence of setters changes anything: users, passwords, keys, known-hosts
    file, host key store, identity provider, method preferences, banner, agent
    use and keepalive interval stay what the session was made with. *)
Theorem settings_frozen_while_active (ops : list client_op) (s : st E) :
  sshSessionActive (cl s) = true → forallb session_setting ops = true →
  for_each ops run_other_thread s = Some (tt, s).
Proof.
  intros Ha. induction ops as [|op ops IH]; [done|]. cbn [forallb for_each].
  intros [Hop Hops]%andb_true_iff.
  assert (run_other_thread op s = Some (tt, s)) as Hstep.
  { rewrite run_other_thread_unfold. destruct op; try discriminate; cbn [run_client_op];
      first [ by (eapply ignored_result; first [apply guarded_set_refused | apply set_object_refused])
            | by (apply (ignored_result _ _ (-1) (xsink s)); unfold setUser, setPassword;
                  rewrite silent_set_refused by done; destruct s) ]. }
  unfold mbind, prog_bind. rewrite Hstep. by apply IH.
Qed.

Lemma construct_policies k d host port s :
  defaults_ok d →
  wp True (construct_host k d host port) (λ _ s', policies_ok (cl s')) s.
Proof.
  intros [Hp _]. unfold construct_host. wp_step. wp_world.
  assert (policies_ok (init_client k d host EmptyString EmptyString port)) as H0 by done.
  assert (preserves keeps_policies (_ ← setKeysIntern; setKnownHostsIntern d)) as Hk.
  { assert (∀ f : client → client, (∀ c, policies_ok c → policies_ok (f c)) →
      preserves (keeps_policies (E:=E)) (upd f)) as Hu.
    { intros f Hf. apply preserves_upd. intros s1 Hs. by apply Hf. }
    unfold setKeysIntern, setKnownHostsIntern.
    preserves_auto; apply Hu; intros c Hc; by repeat case_match. }
  eapply wp_mono; [|apply Hk]. intros ? s' H. by apply H.
Qed.

(** From construction on, under every sequence of operations, the host
    key policy, the authentication order and the fallback policy of a client are
    values the connect code knows. *)
Theorem policies_always_valid (k : client_class) (d : defaults) (host : string) (port : Z)
    (ops : list client_op) (s s' : st E) :
  defaults_ok d →
  (_ ← construct_host k d host port; for_each ops run_other_thread) s = Some (tt, s') →
  valid_policy (host_key_policy (cl s')) = true ∧ valid_auth_order (client_auth_order (cl s')) = true ∧
  valid_fallback_policy (client_identity_fallback_policy (cl s')) = true.
Proof.
  intros Hd Hrun.
  refine (wp_run _ (λ _ s', policies_ok (cl s')) _ _ _ _ Hrun).
  apply wp_bind. eapply wp_mono; [|by apply construct_policies]. intros ? s1 H1. cbv beta.
  eapply wp_mono; [|apply (preserves_for_each keeps_policies), run_other_thread_policies].
  intros ? s2 H2. by apply H2.
Qed.

(** What [setKeys] leaves in the client. *)
Definition keys_set (priv pub : option string) (c c' : client) : Prop :=
  let p := default EmptyString priv in
  let q := if str_empty p then EmptyString else default (p +:+ ".pub") pub in
  c' = c <| sshkeys_priv := p |> <| sshkeys_pub := q |>
         <| explicit_key_files := negb (str_empty p) && negb (str_empty q) |>
         <| auto_key_files := false |>.

Definition keys_cleared (c c' : client) : Prop :=
  c' = c <| sshkeys_priv := EmptyString |> <| sshkeys_pub := EmptyString |>
         <| explicit_key_files := false |> <| auto_key_files := false |>.

Definition setKeys_outcome (priv pub : option string) (s : st E) (rc : Z) (s' : st E) : Prop :=
  (sshSessionActive (cl s) = true ∧ rc = -1 ∧ cl s' = cl s) ∨
  (sshSessionActive (cl s) = false ∧ rc = 0 ∧ keys_set priv pub (cl s) (cl s')) ∨
  (sshSessionActive (cl s) = false ∧ rc = -1 ∧ keys_cleared (cl s) (cl s') ∧
   (length (xsink s) < length (xsink s'))%nat).

Ltac keys_failed :=
  right; right; split_and!; [done|done|unfold keys_cleared; simpl; repeat (progress simplify_eq/=);
    repeat match goal with H : cl _ = _ |- _ => rewrite H; clear H end; by destruct (cl _)
    |simpl in *; repeat match goal with H : xsink _ = _ |- _ => rewrite H in *; clear H end; simpl in *; lia].

Lemma setKeys_post priv pub s :
  wp True (setKeys priv pub) (setKeys_outcome priv pub s) s.
Proof.
  unfold setKeys. wp_step. wp_step. wp_step; [repeat first [wp_step|wp_world]; by left|].
  repeat first [wp_step|wp_world].
  { right; left. unfold keys_set. rewrite Heqb0. simpl.
    apply str_empty_true in Heqb0. rewrite Heqb0. by split_and!. }
  eapply wp_mono; [|apply check_fs_access_post]. intros [] s1 [C1 X1]; cbv beta iota.
  { repeat first [wp_step|wp_world]. keys_failed. }
  repeat first [wp_step|wp_world].
  { keys_failed. }
  eapply wp_mono; [|apply check_fs_access_post]. intros [] s2 [C2 X2]; cbv beta iota; simpl in C2, X2.
  { repeat first [wp_step|wp_world]. keys_failed. }
  repeat first [wp_step|wp_world].
  { keys_failed. }
  right; left. split_and!; [done|done|]. unfold keys_set. simpl. rewrite C2, C1, Heqb0.
  set (q := default (default EmptyString priv +:+ ".pub") pub).
  match goal with |- (if ?b then _ else _) = _ => assert (b = negb (str_empty q)) as -> end.
  { change (negb (str_empty (default EmptyString priv)) && negb (str_empty q) = negb (str_empty q)).
    by rewrite Heqb0. }
  by destruct (str_empty q).
Qed.

(** [setKeys] has three outcomes and no other: refused with the client
    unchanged; both files stored; or, when a file may not be read, an exception
    with both files cleared - never one file of the pair alone. *)
Theorem setKeys_all_or_nothing (priv pub : option string) (s s' : st E) (rc : Z) :
  setKeys priv pub s = Some (rc, s') →
  (sshSessionActive (cl s) = true ∧ rc = -1 ∧ cl s' = cl s) ∨
  (sshSessionActive (cl s) = false ∧ rc = 0 ∧ keys_set priv pub (cl s) (cl s')) ∨
  (sshSessionActive (cl s) = false ∧ rc = -1 ∧ keys_cleared (cl s) (cl s') ∧
   (length (xsink s) < length (xsink s'))%nat).
Proof. intros Hrun. exact (wp_run _ _ _ _ _ (setKeys_post priv pub s) Hrun). Qed.

(** The key files a constructed client uses by default: both default files, or none. *)
Definition default_key_pair (c : client) : Prop :=
  if auto_key_files c then
    ∃ dir, sshkeys_priv c = dir +:+ "/.ssh/id_rsa" ∧ sshkeys_pub c = dir +:+ "/.ssh/id_rsa.pub"
  else sshkeys_priv c = EmptyString ∧ sshkeys_pub c = EmptyString.

Definition same_keys (s s' : st E) : Prop :=
  sshkeys_priv (cl s') = sshkeys_priv (cl s) ∧ sshkeys_pub (cl s') = sshkeys_pub (cl s) ∧
  auto_key_files (cl s') = auto_key_files (cl s) ∧
  explicit_key_files (cl s') = explicit_key_files (cl s).

#[export] Instance same_keys_frame : Frame same_keys.
Proof.
  split; [split| |]; unfold same_keys; [by intros ?| |done|done].
  intros ??? (->&->&->&->) (->&->&->&->). done.
Qed.

Lemma preserves_setKnownHosts_keys d : preserves same_keys (setKnownHostsIntern d).
Proof.
  unfold setKnownHostsIntern. preserves_auto; apply preserves_upd; intros ?; by split_and!.
Qed.

Lemma fs_access_quiet_post path mode (Q : bool → st E → Prop) s :
  (∀ b s1, same_keys s s1 → Q b s1) → wp True (ssh2_fs_access_allowed_quiet path mode) Q s.
Proof.
  intros HQ. eapply wp_mono; [|apply (preserves_fs_access_quiet same_keys)]. simpl. intros b s1. apply HQ.
Qed.

Lemma setKeysIntern_post (s : st E) :
  sshkeys_priv (cl s) = EmptyString → sshkeys_pub (cl s) = EmptyString →
  auto_key_files (cl s) = false → explicit_key_files (cl s) = false →
  wp True setKeysIntern (λ _ s', default_key_pair (cl s') ∧ explicit_key_files (cl s') = false) s.
Proof.
  intros H1 H2 H3 H4. unfold setKeysIntern, default_key_pair.
  repeat first [wp_step | wp_world
    | apply fs_access_quiet_post; intros ? ? (?&?&?&?); cbv beta]; simpl in *;
    try match goal with |- context [if str_empty ?x then _ else _] => destruct (str_empty x); simpl in * end;
    repeat match goal with H : ?f (cl ?x) = _ |- context [?f (cl ?x)] => rewrite H end; eauto.
Qed.

(** A constructed client offers the two default key files together or
    none of them, and never marks them as set by the caller. *)
Theorem constructed_key_pair (k : client_class) (d : defaults) (host : string) (port : Z) (s s' : st E) :
  construct_host k d host port s = Some (tt, s') →
  default_key_pair (cl s') ∧ explicit_key_files (cl s') = false.
Proof.
  apply (wp_run (construct_host k d host port)
    (λ _ s', default_key_pair (cl s') ∧ explicit_key_files (cl s') = false)).
  unfold construct_host. wp_step. wp_world. wp_step.
  eapply wp_mono; [|by apply setKeysIntern_post]. intros ? s1 [H1 H2]. cbv beta.
  eapply wp_mono; [|apply preserves_setKnownHosts_keys]. intros ? s2 (A1 & A2 & A3 & A4).
  unfold default_key_pair. by rewrite A1, A2, A3, A4.
Qed.
End theorems.

#[export] Hint Extern 3 (preserves keeps_policies (upd _)) =>
  apply preserves_upd; intros ? ?; assumption : preserves.

(** ** Witnesses and behaviours at concrete inputs *)

(** A quiet server on which no file is readable. *)
Definition unreadable_env : Env nat :=
  sim_env (λ _ r, match r with QB (path_is_readable _) => false | r' => quiet_ans r' end) 20.

(** The default key file is not readable: the constructor leaves the user name
    empty, although the password entry of the process names one; with a readable
    key pair the same constructor fills it in. *)
Theorem unreadable_key_drops_user (k : client_class) (host : string) (port : Z) :
  option_map (λ s, sshuser (cl s))
    (final (@construct_host nat unreadable_env k builtin_defaults host port) (state0 (client0 k))) =
    Some EmptyString ∧
  option_map (λ s, sshuser (cl s))
    (final (@construct_host nat quiet_env k builtin_defaults host port) (state0 (client0 k))) =
    Some "user"%string.
Proof. split; vm_compute; reflexivity. Qed.

(** While a poll operation runs the host key policy can still be changed,
    though every setting that a session is made with is frozen. *)
Theorem policy_changes_during_poll (k : client_class) :
  let s := state0 ((client0 k) <| poll_op_in_progress := true |>) in
  option_map (λ s', host_key_policy (cl s'))
    (final (@setHostKeyPolicy nat SSH2_HOSTKEY_REJECT) s) = Some SSH2_HOSTKEY_REJECT ∧
  result (@setVerifyHostKey nat false) s = Some (-1) ∧
  host_key_policy (cl s) = SSH2_HOSTKEY_TOFU.
Proof. split_and!; vm_compute; reflexivity. Qed.

Definition connecting_state : st nat :=
  state0 ((client0 SFTPClientClass) <| connect_in_progress := true |> <| ssh_session := Some 1%positive |>).


Lemma settings_frozen_while_active_witness :
  @for_each (st nat) _ [OpSetUser "eve"; OpSetVerifyHostKey false; OpSetHostKeyStore None]
    (@run_other_thread nat quiet_env) connecting_state = Some (tt, connecting_state).
Proof. apply (@settings_frozen_while_active nat quiet_env); vm_compute; reflexivity. Defined.

Lemma policies_always_valid_witness :
  defaults_ok builtin_defaults ∧
  ∃ s', @mbind _ prog_bind _ _
      (λ _, for_each [OpSetHostKeyPolicy 7; OpSetClientAuthOrder 1] (@run_other_thread nat quiet_env))
      (@construct_host nat quiet_env SFTPClientClass builtin_defaults "host" 22)
      (state0 (client0 SFTPClientClass)) = Some (tt, s') ∧
    valid_policy (host_key_policy (cl s')) = true.
Proof.
  assert (defaults_ok builtin_defaults) as Hd by (split; reflexivity).
  split; [exact Hd|]. eexists. split; [vm_compute; reflexivity|].
  refine (proj1 (@policies_always_valid nat quiet_env SFTPClientClass builtin_defaults "host" 22
    [OpSetHostKeyPolicy 7; OpSetClientAuthOrder 1] (state0 (client0 SFTPClientClass)) _ Hd _)).
  vm_compute. reflexivity.
Defined.

Lemma setKeys_all_or_nothing_witness :
  ∃ s', @setKeys nat quiet_env (Some "/k"%string) None (state0 (client0 SSH2ClientClass)) = Some (0, s') ∧
    keys_set (Some "/k"%string) None (client0 SSH2ClientClass) (cl s').
Proof.
  eexists. split; [vm_compute; reflexivity|].
  edestruct (@setKeys_all_or_nothing nat quiet_env (Some "/k"%string) None (state0 (client0 SSH2ClientClass)))
    as [(H & _)|[(_ & _ & H)|(_ & H & _)]]; [vm_compute; reflexivity|discriminate H|exact H|discriminate H].
Defined.

Lemma constructed_key_pair_witness :
  ∃ s', @construct_host nat quiet_env SSH2ClientClass builtin_defaults "host" 22
      (state0 (client0 SSH2ClientClass)) = Some (tt, s') ∧
    default_key_pair (cl s') ∧ auto_key_files (cl s') = true.
Proof.
  eexists. split; [vm_compute; reflexivity|]. split; [|reflexivity].
  refine (proj1 (@constructed_key_pair nat quiet_env SSH2ClientClass builtin_defaults "host" 22
    (state0 (client0 SSH2ClientClass)) _ _)).
  vm_compute. reflexivity.
Defined.
