(* ===== verification/HostKey.v ===== *)
(** Host key verification (SSH2Client.cpp): the known-hosts check with its
    trust-on-first-use policies, the decision of a host key store written in
    %Qore, and the recording of a host key. *)

From S2P Require Import Prelude Modes World Sim Defaults Transport Config.

(** ** Names *)

Definition ssh2_normalize_host (host : string) : string :=
  let fix strip (s : string) : string :=
    match s with
    | EmptyString => EmptyString
    | String c EmptyString => if Ascii.eqb c "." then EmptyString else s
    | String c s' => String c (strip s')
    end in
  str_map to_lower (strip host).

Definition ssh2_host_key_policy_name (policy : Z) : string :=
  if policy =? SSH2_HOSTKEY_REJECT then "reject"
  else if policy =? SSH2_HOSTKEY_TOFU then "tofu"
  else if policy =? SSH2_HOSTKEY_TOFU_SESSION then "tofu-session"
  else "unknown".

Definition ssh2_client_auth_order_name (order : Z) : string :=
  if order =? SSH2_CLIENT_AUTH_EXPLICIT_FIRST then "explicit-first"
  else if order =? SSH2_CLIENT_AUTH_PROVIDER_FIRST then "provider-first"
  else "unknown".

Definition ssh2_client_identity_fallback_policy_name (policy : Z) : string :=
  if policy =? SSH2_CLIENT_ID_FALLBACK_DISABLED then "disabled"
  else if policy =? SSH2_CLIENT_ID_FALLBACK_AGENT then "agent"
  else if policy =? SSH2_CLIENT_ID_FALLBACK_DEFAULT_KEYS then "default-keys"
  else if policy =? SSH2_CLIENT_ID_FALLBACK_AGENT_AND_DEFAULT_KEYS then "agent-and-default-keys"
  else "unknown".

Definition ssh2_hostkey_type_name (type : Z) : string :=
  if type =? LIBSSH2_HOSTKEY_TYPE_RSA then "ssh-rsa"
  else if type =? LIBSSH2_HOSTKEY_TYPE_DSS then "ssh-dss"
  else if type =? LIBSSH2_HOSTKEY_TYPE_ECDSA_256 then "ecdsa-sha2-nistp256"
  else if type =? LIBSSH2_HOSTKEY_TYPE_ECDSA_384 then "ecdsa-sha2-nistp384"
  else if type =? LIBSSH2_HOSTKEY_TYPE_ECDSA_521 then "ecdsa-sha2-nistp521"
  else if type =? LIBSSH2_HOSTKEY_TYPE_ED25519 then "ssh-ed25519"
  else "unknown".

Definition ssh2_hostkey_decision_exception (decision : string) : string :=
  (if decision =? "unknown" then "SSH2-HOSTKEY-UNKNOWN"
   else if decision =? "mismatch" then "SSH2-HOSTKEY-MISMATCH"
   else if decision =? "revoked" then "SSH2-HOSTKEY-REVOKED"
   else if decision =? "store-error" then "SSH2-HOSTKEY-STORE-ERROR"
   else if decision =? "invalid-response" then "SSH2-HOSTKEY-INVALID-RESPONSE"
   else if decision =? "provider-error" then "SSH2-HOSTKEY-PROVIDER-ERROR"
   else if decision =? "timeout" then "SSH2-HOSTKEY-TIMEOUT"
   else "SSH2-HOSTKEY-INVALID-RESPONSE")%string.

Definition ssh2_hostkey_decision_success (decision : string) : bool :=
  ((decision =? "matched") || (decision =? "added") || (decision =? "accepted-session"))%string.

(** The known-host type word of a host key type. *)
Definition hostkey_kh_type (hostkey_type : Z) : Z :=
  let kh_type := Z.lor LIBSSH2_KNOWNHOST_TYPE_PLAIN LIBSSH2_KNOWNHOST_KEYENC_RAW in
  Z.lor kh_type
    (if hostkey_type =? LIBSSH2_HOSTKEY_TYPE_RSA then LIBSSH2_KNOWNHOST_KEY_SSHRSA
     else if hostkey_type =? LIBSSH2_HOSTKEY_TYPE_DSS then LIBSSH2_KNOWNHOST_KEY_SSHDSS
     else if hostkey_type =? LIBSSH2_HOSTKEY_TYPE_ECDSA_256 then LIBSSH2_KNOWNHOST_KEY_ECDSA_256
     else if hostkey_type =? LIBSSH2_HOSTKEY_TYPE_ECDSA_384 then LIBSSH2_KNOWNHOST_KEY_ECDSA_384
     else if hostkey_type =? LIBSSH2_HOSTKEY_TYPE_ECDSA_521 then LIBSSH2_KNOWNHOST_KEY_ECDSA_521
     else if hostkey_type =? LIBSSH2_HOSTKEY_TYPE_ED25519 then LIBSSH2_KNOWNHOST_KEY_ED25519
     else LIBSSH2_KNOWNHOST_KEY_UNKNOWN).

(** The part of a path before its last slash, [None] without a slash. *)
Fixpoint before_last_slash (s : string) : option string :=
  match s with
  | EmptyString => None
  | String c s' =>
      match before_last_slash s' with
      | Some d => Some (String c d)
      | None => if Ascii.eqb c "/" then Some EmptyString else None
      end
  end.

(** [sizeof(sockaddr_un::sun_path)] *)
Definition sun_path_size : nat := 108.

Section hostkey.
Context {E : Type} `{!Env E}.

Abbreviation M := (prog (st E)).

(** ** Sandbox checks and the directory of the known-hosts file *)

(** True when the function returns -1, here and below. *)
Definition ssh2_check_unix_socket_access (path : string) (check_fs : bool) (xs : bool) : M bool :=
  smh ← callB sandbox_present;
  if negb smh then mret false
  else if (sun_path_size <=? String.length path)%nat then
    _ ← raise xs "NETWORK-ACCESS-DENIED";
    mret true
  else
    ok ← callB (sandbox_checkNetworkAccess true path path);
    if negb ok then
      _ ← raise_exc xs ExternalExc;
      mret true
    else if check_fs then
      ok ← callB (sandbox_checkFilesystemAccess path ModeReadWrite);
      if negb ok then
        _ ← raise_exc xs ExternalExc;
        mret true
      else mret false
    else mret false.

Fixpoint check_addresses (host : string) (list : list string) : M bool :=
  match list with
  | [] => mret false
  | p :: list' =>
      ok ← callB (sandbox_checkNetworkAccess false host p);
      if negb ok then
        _ ← raise_exc true ExternalExc;
        mret true
      else check_addresses host list'
  end.

Definition ssh2_check_tunnel_destination (host : string) (port : Z) : M bool :=
  smh ← callB sandbox_present;
  if negb smh then mret false
  else
    ai ← call (resolve_host host port);
    match ai with
    | None =>
        _ ← raise_exc true ExternalExc;
        mret true
    | Some [] =>
        _ ← raise true "NETWORK-ACCESS-DENIED";
        mret true
    | Some list => check_addresses host list
    end.

Definition ensure_parent_dir (path : string) : M bool :=
  match before_last_slash path with
  | None | Some EmptyString => mret false
  | Some dir =>
      denied ← ssh2_check_fs_access dir ModeCreate true;
      if denied : bool then mret true
      else
        sb ← call (fs_stat dir);
        match sb with
        | inl mode => mret (negb (is_type mode S_IFDIR))
        | inr errno =>
            if negb (errno =? ENOENT) then mret true
            else
              r ← call (fs_mkdir dir 0x1C0);
              match r with
              | Some errno => mret (negb (errno =? EEXIST))
              | None => mret false
              end
        end
  end.

(** ** Talking to a host key store *)

Definition makeProviderContext (purpose : string) (timeout_ms : Z) : M qval :=
  now_ns ← callZ monotonic_nanos;
  c ← gets cl;
  let remaining_ns := if timeout_ms <? 0 then 0 else timeout_ms * 1000000 in
  let deadline_ns := if remaining_ns =? 0 then 0 else now_ns + remaining_ns in
  mret (QHash
    [("purpose"%string, QString purpose);
     ("original_host"%string, QString (sshhost c));
     ("normalized_host"%string, QString (ssh2_normalize_host (sshhost c)));
     ("port"%string, QInt (sshport c));
     ("username"%string, if str_empty (sshuser c) then QNothing else QString (sshuser c));
     ("host_key_policy"%string, QString (ssh2_host_key_policy_name (host_key_policy c)));
     ("client_auth_order"%string, QString (ssh2_client_auth_order_name (client_auth_order c)));
     ("client_identity_fallback_policy"%string,
       QString (ssh2_client_identity_fallback_policy_name (client_identity_fallback_policy c)));
     ("deadline_ns"%string, QInt deadline_ns);
     ("remaining_ns"%string, QInt remaining_ns)]).

Definition makeObservedHostKeyInfo (hostkey : string) (hostkey_type : Z) : qval :=
  QHash [("algorithm"%string, QString (ssh2_hostkey_type_name hostkey_type));
         ("public_key_blob"%string, QBinary hostkey);
         ("source_kind"%string, QString "transport")].

(** [ssh2_get_hash_string]: [None] when it returns false. *)
Definition ssh2_get_hash_string (h : list (string * qval)) (key : string) : M (option string) :=
  match hash_get h key with
  | QNothing => mret None
  | QString s => mret (Some s)
  | v =>
      r ← callS (value_string v);
      _ ← when (bool_decide (r = None)) (raise_exc true ExternalExc);
      mret r
  end.

(** The returned hash; [None] when an exception has been raised. *)
Definition ssh2_call_host_key_store (store : ptr) (call_context observed : qval) (method : string) :
    M (option (list (string * qval))) :=
  rv ← eval_unlocked store method [call_context; observed];
  match rv with
  | None =>
      _ ← raise true "SSH2-HOSTKEY-PROVIDER-ERROR";
      mret None
  | Some (QHash h) => mret (Some h)
  | Some _ =>
      _ ← raise true "SSH2-HOSTKEY-INVALID-RESPONSE";
      mret None
  end.

(** The decision string of a response; [None] with an exception otherwise. *)
Definition decision_of (decision : option (list (string * qval))) : M (option string) :=
  match decision with
  | None => mret None
  | Some h =>
      name ← ssh2_get_hash_string h "decision";
      match name with
      | Some d => mret (Some d)
      | None =>
          failed ← has_exc;
          _ ← when (negb failed) (raise true "SSH2-HOSTKEY-INVALID-RESPONSE");
          mret None
      end
  end.

Definition is_tofu (policy : Z) : bool :=
  (policy =? SSH2_HOSTKEY_TOFU) || (policy =? SSH2_HOSTKEY_TOFU_SESSION).

Definition verifyHostKeyWithStore (store : ptr) (hostkey : string) (hostkey_type timeout_ms : Z) : M bool :=
  ctxt ← makeProviderContext "host-key-verify" timeout_ms;
  let observed := makeObservedHostKeyInfo hostkey hostkey_type in
  failed ← has_exc;
  if failed : bool then mret true
  else
    let reject (decision_name : string) : M bool :=
      _ ← raise true (ssh2_hostkey_decision_exception decision_name);
      mret true in
    decision ← ssh2_call_host_key_store store ctxt observed "verifyHostKey";
    failed ← has_exc;
    if failed : bool then mret true
    else
      name ← decision_of decision;
      match name with
      | None => mret true
      | Some decision_name =>
          if ssh2_hostkey_decision_success decision_name then mret false
          else
            policy ← cfield host_key_policy;
            if String.eqb decision_name "unknown" && is_tofu policy then
              accept_ctxt ← makeProviderContext "host-key-accept" timeout_ms;
              failed ← has_exc;
              if failed : bool then mret true
              else
                decision ← ssh2_call_host_key_store store accept_ctxt observed "acceptHostKeyIfAbsent";
                failed ← has_exc;
                if failed : bool then mret true
                else
                  name ← decision_of decision;
                  match name with
                  | None => mret true
                  | Some decision_name =>
                      if ssh2_hostkey_decision_success decision_name then mret false
                      else reject decision_name
                  end
            else reject decision_name
      end.

(** ** The known-hosts file *)

(** The outcome of loading the configured file into the known-hosts context:
    whether it failed, and the exception the caller then raises itself. *)
Definition load_known_hosts (nh : ptr) (file : string) : M (bool * option string) :=
  denied ← ssh2_check_fs_access file ModeRead true;
  if denied : bool then mret (true, None)
  else
    sb ← call (fs_stat file);
    match sb with
    | inl _ =>
        read_rc ← callZ (knownhost_readfile nh file);
        mret (if read_rc <? 0 then (true, Some "SSH2-HOSTKEY-ERROR"%string) else (false, None))
    | inr errno =>
        mret (if negb (errno =? ENOENT) then (true, Some "SSH2-HOSTKEY-ERROR"%string) else (false, None))
    end.

(** Writing the file: the access check, the directory, the write. *)
Definition persist_known_hosts (nh : ptr) (file : string) : M (bool * option string) :=
  denied ← ssh2_check_fs_access file ModeWriteCreate true;
  if denied : bool then mret (true, None)
  else
    failed ← ensure_parent_dir file;
    if failed : bool then
      exc ← has_exc;
      mret (true, if exc : bool then None else Some "SSH2-HOSTKEY-ERROR"%string)
    else
      write_rc ← callZ (knownhost_writefile nh file);
      mret (if write_rc =? 0 then (false, None) else (true, Some "SSH2-HOSTKEY-ERROR"%string)).

(** [libssh2_knownhost_free(nh); disconnectUnlocked(true); xsink->raiseException(err)] *)
Definition refuse_host_key (nh : ptr) (err : option string) : M bool :=
  _ ← callU (knownhost_free nh);
  _ ← force_disconnect;
  _ ← match err with Some e => raise true e | None => mret tt end;
  mret true.

Definition verifyHostKeyUnlocked (timeout_ms : Z) : M bool :=
  verify ← cfield verify_host_key;
  if negb verify then mret false
  else
    session ← cfield ssh_session;
    hk ← call (session_hostkey session);
    match hk with
    | None =>
        _ ← force_disconnect;
        _ ← raise true "SSH2-HOSTKEY-ERROR";
        mret true
    | Some (hostkey, hostkey_type) =>
        store ← cfield host_key_store;
        if bool_decide (is_Some store) then
          failed ← verifyHostKeyWithStore store hostkey hostkey_type timeout_ms;
          _ ← when failed force_disconnect;
          mret failed
        else
          nh ← callH (knownhost_init session);
          if bool_decide (nh = None) then
            _ ← force_disconnect;
            _ ← raise true "SSH2-HOSTKEY-ERROR";
            mret true
          else
            c ← gets cl;
            let file := known_hosts_file c in
            if str_empty file && (host_key_policy c =? SSH2_HOSTKEY_TOFU) then
              refuse_host_key nh (Some "SSH2-HOSTKEY-ERROR"%string)
            else
              '(failed, err) ← (if str_empty file then mret (false, None) else load_known_hosts nh file);
              if failed : bool then refuse_host_key nh err
              else
                let kh_type := hostkey_kh_type hostkey_type in
                check ← callZ (knownhost_checkp nh (sshhost c) (sshport c) hostkey kh_type);
                if check =? LIBSSH2_KNOWNHOST_CHECK_MISMATCH then
                  refuse_host_key nh (Some "SSH2-HOSTKEY-MISMATCH"%string)
                else if check =? LIBSSH2_KNOWNHOST_CHECK_NOTFOUND then
                  if is_tofu (host_key_policy c) then
                    add_rc ← callZ (knownhost_addc nh (sshhost c) hostkey kh_type);
                    if negb (add_rc =? 0) then refuse_host_key nh (Some "SSH2-HOSTKEY-ERROR"%string)
                    else
                      '(failed, err) ← (if str_empty file then mret (false, None)
                               else persist_known_hosts nh file);
                      if failed : bool then refuse_host_key nh err
                      else
                        _ ← callU (knownhost_free nh);
                        mret false
                  else refuse_host_key nh (Some "SSH2-HOSTKEY-UNKNOWN"%string)
                else if check =? LIBSSH2_KNOWNHOST_CHECK_FAILURE then
                  refuse_host_key nh (Some "SSH2-HOSTKEY-ERROR"%string)
                else
                  _ ← callU (knownhost_free nh);
                  mret false
    end.

(** ** Operations on the host key of a connected client *)

(** [addKnownHostLocked]: the key and the host are recorded.  The port only
    occurs in an exception text. *)
Definition addKnownHostLocked (host : option string) (port : Z) : M Z :=
  connected ← sshConnectedUnlocked;
  if negb connected then
    _ ← raise true "SSH2CLIENT-NOT-CONNECTED";
    mret (-1)
  else
    c ← gets cl;
    let file := known_hosts_file c in
    if str_empty file then
      _ ← raise true "SSH2-HOSTKEY-ERROR";
      mret (-1)
    else
      hk ← call (session_hostkey (ssh_session c));
      match hk with
      | None =>
          _ ← raise true "SSH2-HOSTKEY-ERROR";
          mret (-1)
      | Some (hostkey, hostkey_type) =>
          nh ← callH (knownhost_init (ssh_session c));
          if bool_decide (nh = None) then
            _ ← raise true "SSH2-HOSTKEY-ERROR";
            mret (-1)
          else
            let fail (err : option string) : M Z :=
              _ ← callU (knownhost_free nh);
              _ ← match err with Some e => raise true e | None => mret tt end;
              mret (-1) in
            '(failed, err) ← load_known_hosts nh file;
            if failed : bool then fail err
            else
              let use_host := default (sshhost c) host in
              rc ← callZ (knownhost_addc nh use_host hostkey (hostkey_kh_type hostkey_type));
              if negb (rc =? 0) then fail (Some "SSH2-HOSTKEY-ERROR"%string)
              else
                '(failed, err) ← persist_known_hosts nh file;
                if failed : bool then fail err
                else
                  _ ← callU (knownhost_free nh);
                  mret 0
      end.
End hostkey.

(** * Facts *)

(** ** Names and paths *)

Lemma before_last_slash_none s : before_last_slash s = None ↔ strchr s "/" = false.
Proof.
  induction s as [|c s IH]; simpl; [done|].
  destruct (before_last_slash s) as [d|]; destruct (Ascii.eqb c "/"), (strchr s "/"); simpl; naive_solver.
Qed.

Lemma before_last_slash_some s d :
  before_last_slash s = Some d → ∃ base, s = d +:+ "/" +:+ base ∧ strchr base "/" = false.
Proof.
  revert d. induction s as [|c s IH]; simpl; intros d H; [done|].
  destruct (before_last_slash s) as [d'|] eqn:Hd.
  - injection H as <-. destruct (IH d' eq_refl) as (base & -> & Hb). by exists base.
  - destruct (Ascii.eqb_spec c "/"); [|done]. injection H as <-. subst.
    exists s. split; [done|]. by apply before_last_slash_none.
Qed.

Section facts.
Context {E : Type} `{!Env E}.

Abbreviation M := (prog (st E)).

Section basic.
Context (R : relation (st E)) `{!Basic R}.

Lemma preserves_unix_socket path check_fs xs : preserves R (ssh2_check_unix_socket_access path check_fs xs).
Proof. unfold ssh2_check_unix_socket_access. preserves_auto. Qed.

Lemma preserves_check_addresses host l : preserves R (check_addresses host l).
Proof. induction l; cbn [check_addresses]; preserves_auto. Qed.

#[local] Hint Resolve preserves_check_addresses : preserves.

Lemma preserves_tunnel host port : preserves R (ssh2_check_tunnel_destination host port).
Proof. unfold ssh2_check_tunnel_destination. preserves_auto. Qed.

Lemma preserves_ensure_parent_dir path : preserves R (ensure_parent_dir path).
Proof. unfold ensure_parent_dir. preserves_auto. Qed.

Lemma preserves_makeProviderContext purpose to : preserves R (makeProviderContext purpose to).
Proof. unfold makeProviderContext. preserves_auto. Qed.

Lemma preserves_get_hash_string h key : preserves R (ssh2_get_hash_string h key).
Proof. unfold ssh2_get_hash_string. preserves_auto. Qed.

#[local] Hint Resolve preserves_ensure_parent_dir preserves_get_hash_string : preserves.

Lemma preserves_has_exc : preserves R has_exc.
Proof. unfold has_exc. preserves_auto. Qed.

#[local] Hint Resolve preserves_has_exc : preserves.

Lemma preserves_decision_of h : preserves R (decision_of h).
Proof. unfold decision_of. preserves_auto. Qed.

Lemma preserves_load_known_hosts nh file : preserves R (load_known_hosts nh file).
Proof. unfold load_known_hosts. preserves_auto. Qed.

Lemma preserves_persist_known_hosts nh file : preserves R (persist_known_hosts nh file).
Proof. unfold persist_known_hosts. preserves_auto. Qed.
End basic.
End facts.

#[export] Hint Resolve preserves_unix_socket preserves_check_addresses preserves_tunnel preserves_ensure_parent_dir
  preserves_makeProviderContext preserves_get_hash_string preserves_decision_of preserves_has_exc
  preserves_load_known_hosts preserves_persist_known_hosts : preserves.

Section acceptance.
Context {E : Type} `{!Env E}.

Abbreviation M := (prog (st E)).

(** ** What acceptance of a host key means

    The predicates speak of the events logged between two states. *)

(** The configured file was read, or it does not exist. *)
Definition file_loaded (s s' : st E) (nh : ptr) (file : string) : Prop :=
  (∃ mode rc, new s s' (Ev (fs_stat file) (inl mode)) ∧ 0 ≤ rc ∧
     new s s' (Ev (QZ (knownhost_readfile nh file)) rc)) ∨
  new s s' (Ev (fs_stat file) (inr ENOENT)).

(** The known-hosts check found the key, or found no key and the policy trusts
    the first use: then the key was recorded and, with a file configured, the
    file was loaded before and written after. *)
Inductive known_hosts_accept (c : client) (s s' : st E) (key : string) (ty : Z) : Prop :=
  | accept_known nh check :
      new s s' (Ev (QZ (knownhost_checkp nh (sshhost c) (sshport c) key (hostkey_kh_type ty))) check) →
      check ≠ LIBSSH2_KNOWNHOST_CHECK_MISMATCH → check ≠ LIBSSH2_KNOWNHOST_CHECK_NOTFOUND →
      check ≠ LIBSSH2_KNOWNHOST_CHECK_FAILURE →
      (known_hosts_file c ≠ EmptyString → file_loaded s s' nh (known_hosts_file c)) →
      known_hosts_accept c s s' key ty
  | accept_first_use nh :
      new s s' (Ev (QZ (knownhost_checkp nh (sshhost c) (sshport c) key (hostkey_kh_type ty)))
                  LIBSSH2_KNOWNHOST_CHECK_NOTFOUND) →
      is_tofu (host_key_policy c) = true →
      new s s' (Ev (QZ (knownhost_addc nh (sshhost c) key (hostkey_kh_type ty))) 0) →
      (known_hosts_file c = EmptyString → host_key_policy c = SSH2_HOSTKEY_TOFU_SESSION) →
      (known_hosts_file c ≠ EmptyString →
         file_loaded s s' nh (known_hosts_file c) ∧
         new s s' (Ev (QZ (knownhost_writefile nh (known_hosts_file c))) 0)) →
      known_hosts_accept c s s' key ty.

(** A response of the store carries the decision [d]. *)
Definition decides (s s' : st E) (h : list (string * qval)) (d : string) : Prop :=
  hash_get h "decision" = QString d ∨
  new s s' (Ev (QS (value_string (hash_get h "decision"))) (Some d)).

Definition store_response (s s' : st E) (store : ptr) (method key : string) (ty : Z) (d : string) : Prop :=
  ∃ ctxt ops h,
    new s s' (Ev (eval_method store method [ctxt; makeObservedHostKeyInfo key ty]) (ops, Some (QHash h))) ∧
    decides s s' h d.

(** The store vouched for the key, or did not know it and accepted it under a
    policy that trusts the first use. *)
Inductive store_accept (c : client) (s s' : st E) (key : string) (ty : Z) : Prop :=
  | accept_verified d :
      store_response s s' (host_key_store c) "verifyHostKey" key ty d →
      ssh2_hostkey_decision_success d = true → store_accept c s s' key ty
  | accept_absent d :
      store_response s s' (host_key_store c) "verifyHostKey" key ty "unknown" →
      is_tofu (host_key_policy c) = true →
      store_response s s' (host_key_store c) "acceptHostKeyIfAbsent" key ty d →
      ssh2_hostkey_decision_success d = true → store_accept c s s' key ty.

Definition host_key_accepted (c : client) (s s' : st E) : Prop :=
  ∃ key ty, new s s' (Ev (session_hostkey (ssh_session c)) (Some (key, ty))) ∧
    (if bool_decide (is_Some (host_key_store c)) then store_accept c s s' key ty
     else known_hosts_accept c s s' key ty).

(** ** Lemmas on the parts *)

(** Both a relation and a postcondition. *)
Lemma wp_with {A} (R : relation (st E)) (m : M A) (Q : A → st E → Prop) s :
  preserves R m → wp True m Q s → wp True m (λ a s', R s s' ∧ Q a s') s.
Proof. intros HR HQ. apply wp_and; [apply HR|done]. Qed.

Ltac split_pairs :=
  repeat match goal with |- context [if ?b then (_, _) else _] => destruct b eqn:? end;
  try (simpl; discriminate).

Lemma load_known_hosts_post nh file s :
  wp True (load_known_hosts nh file)
    (λ r s', quiet s s' ∧ grows s s' ∧
       (if fst r then snd r = None → xsink s' ≠ [] else file_loaded s s' nh file)) s.
Proof.
  apply wp_with; [preserves_auto|]. apply wp_with; [preserves_auto|].
  unfold load_known_hosts. wp_step.
  eapply wp_mono; [|apply wp_with; [apply (preserves_check_fs_access grows)|apply check_fs_access_post]].
  intros [] s1 (G1 & C1 & X1); cbv beta iota.
  { apply wp_mret. simpl. intros _. destruct (xsink s1); [simpl in X1; lia|done]. }
  repeat first [wp_step | wp_world]; split_pairs.
  - simpl. left. eexists _, a0. split_and!.
    + eapply new_grows; [by apply new_logged|]. apply frame_logged.
    + lia.
    + apply new_logged. transitivity s1; [done|]. apply frame_logged.
  - simpl. right. apply negb_false_iff, Z.eqb_eq in Heqb. subst. by apply new_logged.
Qed.

Lemma ensure_parent_dir_post path s :
  wp True (ensure_parent_dir path) (λ _ s', quiet s s' ∧ grows s s' ∧ xsink_grows s s') s.
Proof.
  apply wp_with; [preserves_auto|]. apply (wp_with grows); [preserves_auto|].
  apply (preserves_ensure_parent_dir xsink_grows).
Qed.

Lemma persist_known_hosts_post nh file s :
  wp True (persist_known_hosts nh file)
    (λ r s', quiet s s' ∧ grows s s' ∧
       (if fst r then snd r = None → xsink s' ≠ []
        else new s s' (Ev (QZ (knownhost_writefile nh file)) 0))) s.
Proof.
  apply wp_with; [preserves_auto|]. apply wp_with; [preserves_auto|].
  unfold persist_known_hosts. wp_step.
  eapply wp_mono; [|apply wp_with; [apply (preserves_check_fs_access grows)|apply check_fs_access_post]].
  intros [] s1 (G1 & C1 & X1); cbv beta iota.
  { apply wp_mret. simpl. intros _. destruct (xsink s1); [simpl in X1; lia|done]. }
  wp_step. eapply wp_mono; [|apply ensure_parent_dir_post]. intros failed s2 (_ & G2 & _). cbv beta.
  destruct failed; repeat first [wp_step | wp_world];
    split_pairs.
  - intros _. done.
  - simpl. apply Z.eqb_eq in Heqb. subst. apply new_logged. by transitivity s1.
Qed.

Lemma get_hash_string_post h key s :
  wp True (ssh2_get_hash_string h key)
    (λ r s', quiet s s' ∧ grows s s' ∧
       match r with
       | Some d => hash_get h key = QString d ∨ new s s' (Ev (QS (value_string (hash_get h key))) (Some d))
       | None => True
       end) s.
Proof.
  apply wp_with; [preserves_auto|]. apply wp_with; [preserves_auto|].
  unfold ssh2_get_hash_string. destruct (hash_get h key); repeat first [wp_step | wp_world];
    try done; try (by left);
    repeat match goal with |- context [match ?x with _ => _ end] => is_var x; destruct x end; try done;
    right; by apply new_logged.
Qed.

Lemma decision_of_post h s :
  wp True (decision_of h)
    (λ r s', quiet s s' ∧ grows s s' ∧
       match r with
       | Some d => ∃ h', h = Some h' ∧ decides s s' h' d
       | None => h = None ∨ xsink s' ≠ []
       end) s.
Proof.
  apply wp_with; [preserves_auto|]. apply wp_with; [preserves_auto|].
  unfold decision_of. destruct h as [h|]; [|apply wp_mret; by left].
  wp_step. eapply wp_mono; [|apply get_hash_string_post]. intros [d|] s1 (Q1 & G1 & H1); cbv beta iota.
  - apply wp_mret. exists h. by split.
  - repeat first [wp_step | wp_world]; by right.
Qed.

Lemma call_store_post store ctxt observed method s :
  connect_in_progress (cl s) = true →
  wp True (ssh2_call_host_key_store store ctxt observed method)
    (λ r s', quiet s s' ∧ grows s s' ∧
       match r with
       | Some h => ∃ ops, new s s' (Ev (eval_method store method [ctxt; observed]) (ops, Some (QHash h)))
       | None => xsink s' ≠ []
       end) s.
Proof.
  intros Hc. unfold ssh2_call_host_key_store. wp_step.
  apply wp_eval_unlocked_connecting; [done|]. intros ops rv e'.
  repeat first [wp_step | wp_world]; subst; (split; [done|]);
    (split; [by eexists [_]|]); simpl; try done; eexists; by apply new_logged.
Qed.

Lemma quiet_connecting (s s' : st E) : quiet s s' → connect_in_progress (cl s) = true → connect_in_progress (cl s') = true.
Proof. by intros [-> _]. Qed.

(** One consultation of the store: the call, and the decision string of its
    response. *)
Lemma decides_weaken (s s1 s' : st E) h d : grows s s1 → decides s1 s' h d → decides s s' h d.
Proof. intros G [H|H]; [by left|right]. by eapply new_weaken. Qed.

Lemma decides_grows (s s1 s' : st E) h d : decides s s1 h d → grows s1 s' → decides s s' h d.
Proof. intros [H|H] G; [by left|right]. by eapply new_grows. Qed.

Lemma store_response_lift (s0 s s1 s' : st E) store method key ty d :
  grows s0 s → grows s1 s' → store_response s s1 store method key ty d →
  store_response s0 s' store method key ty d.
Proof.
  intros G1 G2 (ctxt & ops & h & Hn & Hd). exists ctxt, ops, h. split.
  - eapply new_weaken, new_grows; done.
  - by eapply decides_weaken, decides_grows.
Qed.

(** [consult k] is the part of the code that repeats for the two methods of the store. *)
Lemma consult_post (store : ptr) ctxt method key ty (k : string → M bool) (Q : bool → st E → Prop) s :
  connect_in_progress (cl s) = true →
  (∀ s', quiet s s' → grows s s' → xsink s' ≠ [] → Q true s') →
  (∀ d s', quiet s s' → grows s s' → store_response s s' store method key ty d → wp True (k d) Q s') →
  wp True
    (decision ← ssh2_call_host_key_store store ctxt (makeObservedHostKeyInfo key ty) method;
     failed ← has_exc;
     if failed : bool then mret true
     else
       name ← decision_of decision;
       match name with
       | None => mret true
       | Some decision_name => k decision_name
       end) Q s.
Proof.
  intros Hc Hfail Hok. wp_step. eapply wp_mono; [|by apply call_store_post].
  intros r s1 (Q1 & G1 & H1). cbv beta. wp_step. apply wp_has_exc; intros Hx; [by apply wp_mret, Hfail|].
  wp_step. eapply wp_mono; [|apply decision_of_post]. intros name s2 (Q2 & G2 & H2). cbv beta.
  assert (quiet s s2) as Q12 by (by transitivity s1). assert (grows s s2) as G12 by (by transitivity s1).
  destruct name as [d|].
  - apply Hok; [done..|]. destruct H2 as (h & -> & Hd). destruct H1 as [ops H1].
    exists ctxt, ops, h. split; [exact (new_grows _ _ _ _ H1 G2)|exact (decides_weaken _ _ _ _ _ G1 Hd)].
  - apply wp_mret, Hfail; [done..|]. destruct H2 as [->|H2]; [|done]. by destruct H1.
Qed.

Lemma verifyHostKeyWithStore_post key ty to s :
  connect_in_progress (cl s) = true →
  wp True (verifyHostKeyWithStore (host_key_store (cl s)) key ty to)
    (λ failed s', quiet s s' ∧ grows s s' ∧
       if failed then xsink s' ≠ [] else store_accept (cl s) s s' key ty) s.
Proof.
  intros Hc. unfold verifyHostKeyWithStore. wp_step.
  eapply wp_mono; [|apply wp_with; [apply (preserves_makeProviderContext quiet)|
    apply (preserves_makeProviderContext grows)]].
  intros ctxt s1 [Q1 G1]. cbv beta zeta. wp_step. apply wp_has_exc; intros Hx; [by apply wp_mret|].
  pose proof (quiet_connecting _ _ Q1 Hc) as Hc1.
  apply consult_post; [done| |].
  { intros s' Q2 G2 ?. split_and!; [by transitivity s1..|done]. }
  intros d s2 Q2 G2 Hr. assert (quiet s s2) as Q12 by (by transitivity s1).
  assert (grows s s2) as G12 by (by transitivity s1).
  assert (store_response s s2 (host_key_store (cl s)) "verifyHostKey" key ty d) as Hr1.
  { exact (store_response_lift _ _ _ _ _ _ _ _ _ G1 (reflexivity s2) Hr). }
  destruct (ssh2_hostkey_decision_success d) eqn:Hd.
  { apply wp_mret. split_and!; [done..|]. by eapply accept_verified. }
  wp_step. wp_world. rewrite (proj1 Q12).
  destruct (String.eqb d "unknown" && is_tofu (host_key_policy (cl s))) eqn:Hu; cycle 1.
  { wp_step. wp_world. apply wp_mret. by split_and!. }
  apply andb_true_iff in Hu as [->%String.eqb_eq Ht]. wp_step.
  eapply wp_mono; [|apply wp_with; [apply (preserves_makeProviderContext quiet)|
    apply (preserves_makeProviderContext grows)]].
  intros ctxt2 s3 [Q3 G3]. cbv beta zeta. wp_step.
  assert (quiet s s3) as Q13 by (by transitivity s2). assert (grows s s3) as G13 by (by transitivity s2).
  apply wp_has_exc; intros Hx3; [by apply wp_mret|].
  apply consult_post; [by apply (quiet_connecting s)| |].
  { intros s' Q4 G4 ?. split_and!; [by transitivity s3..|done]. }
  intros d2 s4 Q4 G4 Hr2. destruct (ssh2_hostkey_decision_success d2) eqn:Hd2.
  - apply wp_mret. split_and!; [by transitivity s3..|]. apply (accept_absent _ _ _ _ _ d2); [|done| |done].
    + exact (store_response_lift _ _ _ _ _ _ _ _ _ (reflexivity s) (transitivity G3 G4) Hr1).
    + exact (store_response_lift _ _ _ _ _ _ _ _ _ G13 (reflexivity s4) Hr2).
  - wp_step. wp_world. apply wp_mret. split_and!; [transitivity s4; [by transitivity s3|apply frame_xsink]..|done].
Qed.

(** What verification leaves behind, either way. *)
Definition verified (s : st E) (failed : bool) (s' : st E) : Prop :=
  if failed then closed_from s s' ∧ xsink s' ≠ []
  else quiet s s' ∧ grows s s' ∧ (verify_host_key (cl s) = true → host_key_accepted (cl s) s s').

Lemma refuse_verified s s1 nh err :
  registered s → quiet s s1 → grows s s1 → (err = None → xsink s1 ≠ []) →
  wp True (refuse_host_key nh err) (verified s) s1.
Proof.
  intros Hr Q1 G1 Herr. unfold refuse_host_key. wp_step. wp_world. wp_step. set (s2 := logged s1 _ _).
  assert (quiet s s2) as Q2 by (transitivity s1; [done|apply frame_logged]).
  assert (grows s s2) as G2 by (transitivity s1; [done|apply frame_logged]).
  eapply wp_mono; [|apply force_disconnect_post; by apply (quiet_registered s)].
  intros ? s3 [C X]. cbv beta. apply (closed_from_quiet s) in C; [|done..]. wp_step.
  destruct err; [wp_world|]; repeat wp_step; split; try done.
  - apply (closed_from_after s s3); [done|apply frame_xsink..].
  - eapply xsink_grows_nonempty; [by apply Herr|done].
Qed.

(** The configured file: skipped when none is configured. *)
Lemma optional_file_post (file : string) (m : M (bool * option string)) (P : st E → Prop) s :
  wp True m (λ r s', quiet s s' ∧ grows s s' ∧ (if fst r then snd r = None → xsink s' ≠ [] else P s')) s →
  wp True (if str_empty file then mret (false, None) else m)
    (λ r s', quiet s s' ∧ grows s s' ∧
       (if fst r then snd r = None → xsink s' ≠ [] else file ≠ EmptyString → P s')) s.
Proof.
  intros H. destruct (str_empty file) eqn:He.
  - apply wp_mret. split; [reflexivity|]. split; [reflexivity|]. simpl.
    by apply str_empty_true in He as ->.
  - eapply wp_mono; [|exact H]. intros [[] err] s' (?&?&?); simpl in *; auto.
Qed.

Lemma verifyHostKey_failed s s1 :
  registered s → quiet s s1 → grows s s1 →
  wp True (_ ← force_disconnect; _ ← raise true "SSH2-HOSTKEY-ERROR"; mret true) (verified s) s1.
Proof.
  intros Hr Q1 G1. wp_step. eapply wp_mono; [|apply force_disconnect_post; by apply (quiet_registered s)].
  intros ? s2 [C _]. cbv beta. wp_step. wp_world. wp_step. split; [|done].
  apply (closed_from_after s s2); [by apply (closed_from_quiet s s1)|apply frame_xsink..].
Qed.

Lemma file_loaded_grows (s0 s s1 s' : st E) nh file :
  grows s0 s → grows s1 s' → file_loaded s s1 nh file → file_loaded s0 s' nh file.
Proof.
  intros G1 G2 [(m & rc & H1 & H2 & H3)|H1]; [left|right].
  - exists m, rc. split_and!; [|done|]; eapply new_weaken, new_grows; done.
  - by eapply new_weaken, new_grows.
Qed.

(** The known-hosts branch, from the loaded file on. *)
Lemma known_hosts_branch s s1 nh key ty :
  registered s → quiet s s1 → grows s s1 →
  (known_hosts_file (cl s) = EmptyString → host_key_policy (cl s) ≠ SSH2_HOSTKEY_TOFU) →
  (known_hosts_file (cl s) ≠ EmptyString → file_loaded s s1 nh (known_hosts_file (cl s))) →
  (∀ s', grows s1 s' → known_hosts_accept (cl s) s s' key ty → host_key_accepted (cl s) s s') →
  wp True
    (check ← callZ (knownhost_checkp nh (sshhost (cl s)) (sshport (cl s)) key (hostkey_kh_type ty));
     if check =? LIBSSH2_KNOWNHOST_CHECK_MISMATCH then
       refuse_host_key nh (Some "SSH2-HOSTKEY-MISMATCH"%string)
     else if check =? LIBSSH2_KNOWNHOST_CHECK_NOTFOUND then
       if is_tofu (host_key_policy (cl s)) then
         add_rc ← callZ (knownhost_addc nh (sshhost (cl s)) key (hostkey_kh_type ty));
         if negb (add_rc =? 0) then refuse_host_key nh (Some "SSH2-HOSTKEY-ERROR"%string)
         else
           '(failed, err) ← (if str_empty (known_hosts_file (cl s)) then mret (false, None)
                             else persist_known_hosts nh (known_hosts_file (cl s)));
           if failed : bool then refuse_host_key nh err
           else
             _ ← callU (knownhost_free nh);
             mret false
       else refuse_host_key nh (Some "SSH2-HOSTKEY-UNKNOWN"%string)
     else if check =? LIBSSH2_KNOWNHOST_CHECK_FAILURE then
       refuse_host_key nh (Some "SSH2-HOSTKEY-ERROR"%string)
     else
       _ ← callU (knownhost_free nh);
       mret false) (verified s) s1.
Proof.
  intros Hr Q1 G1 Hpol Hload Hacc.
  assert (∀ s2, quiet s1 s2 → registered s2) as Hreg.
  { intros s2 Q2. apply (quiet_registered s); [by transitivity s1|done]. }
  wp_step. wp_world. rename a into check. set (s2 := logged s1 _ _).
  assert (quiet s1 s2) as Q2 by apply frame_logged. assert (grows s1 s2) as G2 by apply frame_logged.
  assert (quiet s s2) as Q02 by by transitivity s1. assert (grows s s2) as G02 by by transitivity s1.
  assert (new s s2 (Ev (QZ (knownhost_checkp nh (sshhost (cl s)) (sshport (cl s)) key (hostkey_kh_type ty)))
    check)) as Hcheck by by apply new_logged.
  assert (known_hosts_file (cl s) ≠ EmptyString → ∀ s3, grows s1 s3 →
    file_loaded s s3 nh (known_hosts_file (cl s))) as Hload' by (intros; by eapply file_loaded_grows; [..|apply Hload]).
  assert (∀ s3, quiet s2 s3 → grows s2 s3 → known_hosts_accept (cl s) s s3 key ty → verified s false s3) as Hdone.
  { intros s3 Q3 G3 Ha. split; [by transitivity s1; [|transitivity s2]|].
    split; [by transitivity s1; [|transitivity s2]|]. intros _. apply Hacc; [by transitivity s2|done]. }
  destruct (Z.eqb_spec check LIBSSH2_KNOWNHOST_CHECK_MISMATCH) as [_|Hm]; [by apply refuse_verified|].
  destruct (Z.eqb_spec check LIBSSH2_KNOWNHOST_CHECK_NOTFOUND) as [Hn|Hn].
  - destruct (is_tofu (host_key_policy (cl s))) eqn:Ht; [|by apply refuse_verified].
    wp_step. wp_world. rename a into add_rc. set (s3 := logged s2 _ _).
    assert (quiet s1 s3) as Q3 by (transitivity s2; [done|apply frame_logged]).
    assert (grows s1 s3) as G3 by (transitivity s2; [done|apply frame_logged]).
    assert (quiet s s3) as Q03 by by transitivity s1. assert (grows s s3) as G03 by by transitivity s1.
    destruct (Z.eqb_spec add_rc 0) as [Hadd|_]; cbn [negb]; [|by apply refuse_verified].
    wp_step. eapply wp_mono; [|apply optional_file_post, persist_known_hosts_post].
    intros [failed err] s4 (Q4 & G4 & H4). cbv beta iota. simpl in H4. destruct failed.
    { apply refuse_verified; [done|by transitivity s3..|done]. }
    wp_step. wp_world. apply wp_mret. set (s5 := logged s4 _ _).
    assert (grows s4 s5) as G5 by apply frame_logged.
    assert (grows s3 s5) as G35 by by transitivity s4.
    apply Hdone; [transitivity s3; [apply frame_logged|transitivity s4; [done|apply frame_logged]]
                 |transitivity s3; [apply frame_logged|done]|].
    subst check add_rc. apply (accept_first_use _ _ _ _ _ nh).
    + eapply new_grows; [exact Hcheck|]. transitivity s3; [apply frame_logged|done].
    + done.
    + eapply new_grows; [apply new_logged|exact G35]. by transitivity s1.
    + intros He. specialize (Hpol He). unfold is_tofu in Ht. apply orb_true_iff in Ht as [Ht|Ht];
        apply Z.eqb_eq in Ht; done.
    + intros Hne. split; [apply Hload'; [done|by transitivity s3]|].
      eapply new_weaken; [|eapply new_grows; [by apply H4|exact G5]]. by transitivity s1.
  - destruct (Z.eqb_spec check LIBSSH2_KNOWNHOST_CHECK_FAILURE) as [_|Hf]; [by apply refuse_verified|].
    wp_step. wp_world. apply wp_mret. apply Hdone; [apply frame_logged..|].
    apply (accept_known _ _ _ _ _ nh check); try done.
    + eapply new_grows; [exact Hcheck|apply frame_logged].
    + intros Hne. apply Hload'; [done|]. transitivity s2; [done|apply frame_logged].
Qed.

Lemma verifyHostKey_post to s :
  registered s → connect_in_progress (cl s) = true →
  wp True (verifyHostKeyUnlocked to) (verified s) s.
Proof.
  intros Hr Hc. unfold verifyHostKeyUnlocked. wp_step. wp_world.
  destruct (verify_host_key (cl s)) eqn:Hv; cbn [negb].
  2:{ apply wp_mret. split_and!; [done..|]. by rewrite Hv. }
  wp_step. wp_world. wp_step. wp_world. set (s1 := logged s _ _).
  assert (quiet s s1) as Q1 by apply frame_logged. assert (grows s s1) as G1 by apply frame_logged.
  destruct a as [[key ty]|]; [|by apply verifyHostKey_failed].
  assert (new s s1 (Ev (session_hostkey (ssh_session (cl s))) (Some (key, ty)))) as Hkey by by apply new_logged.
  wp_step. wp_world. change (cl s1) with (cl s).
  destruct (bool_decide (is_Some (host_key_store (cl s)))) eqn:Hst.
  - wp_step. eapply wp_mono; [|by apply (verifyHostKeyWithStore_post key ty to s1)].
    intros [] s2 (Q2 & G2 & H2); cbv beta.
    + wp_step. eapply wp_mono; [|apply force_disconnect_post, (quiet_registered s); [by transitivity s1|done]].
      intros ? s3 [C X]. cbv beta. apply wp_mret. split.
      * apply (closed_from_quiet s s2); [by transitivity s1..|done].
      * by eapply xsink_grows_nonempty.
    + wp_step. apply wp_mret. apply wp_mret. split; [by transitivity s1|]. split; [by transitivity s1|].
      intros _. exists key, ty. split; [by eapply new_grows|]. rewrite Hst.
      destruct H2 as [d ? ?|d ? ? ? ?]; [apply (accept_verified _ _ _ _ _ d)|apply (accept_absent _ _ _ _ _ d)];
        try done; by apply (store_response_lift s s1 s2 s2 _ _ _ _ _ G1 (reflexivity s2)).
  - wp_step. wp_world. set (s2 := logged s1 _ _). rename a into nh.
    assert (quiet s s2) as Q2 by (transitivity s1; [done|apply frame_logged]).
    assert (grows s s2) as G2 by (transitivity s1; [done|apply frame_logged]).
    wp_step; [by apply verifyHostKey_failed|].
    wp_step. wp_step. change (cl s2) with (cl s). cbv zeta.
    destruct (str_empty (known_hosts_file (cl s)) && (host_key_policy (cl s) =? SSH2_HOSTKEY_TOFU)) eqn:He.
    { by apply refuse_verified. }
    wp_step. eapply wp_mono; [|apply optional_file_post, load_known_hosts_post].
    intros [failed err] s3 (Q3 & G3 & H3). cbv beta iota. simpl in H3. destruct failed.
    { apply refuse_verified; [done|by transitivity s2..|done]. }
    apply known_hosts_branch; [done|by transitivity s2|by transitivity s2| | |].
    + intros Hf Hp. rewrite Hf, Hp in He. done.
    + intros Hne. destruct (H3 Hne) as [(m & rc & ? & ? & ?)|?]; [left; exists m, rc|right];
        [split_and!; [|done|]|]; by eapply new_weaken.
    + intros s' G4 Ha. exists key, ty. rewrite Hst. split; [|done]. eapply new_grows; [exact Hkey|].
      transitivity s2; [apply frame_logged|]. by transitivity s3.
Qed.
End acceptance.

Section frames.
Context {E : Type} `{!Env E}.

Abbreviation M := (prog (st E)).

Lemma verifyHostKeyWithStore_no_credentials store key ty to :
  preserves (emits no_credentials) (verifyHostKeyWithStore (E:=E) store key ty to).
Proof. unfold verifyHostKeyWithStore, ssh2_call_host_key_store. preserves_auto. Qed.

#[local] Hint Resolve verifyHostKeyWithStore_no_credentials : preserves.

Lemma verifyHostKey_no_credentials to : preserves (emits no_credentials) (verifyHostKeyUnlocked (E:=E) to).
Proof. unfold verifyHostKeyUnlocked, refuse_host_key. preserves_auto. Qed.
End frames.

#[export] Hint Resolve verifyHostKeyWithStore_no_credentials verifyHostKey_no_credentials : preserves.

(** * Theorems *)

Section theorems.
Context {E : Type} `{!Env E}.

Abbreviation M := (prog (st E)).



(** The parent directory of the known-hosts file: when the function
    reports success the path has no parent to create, or the parent is a
    directory, or it did not exist and was created with mode 0700 (or by another
    process at the same time). *)
Theorem ensure_parent_dir_spec (path : string) (s s' : st E) :
  ensure_parent_dir path s = Some (false, s') →
  match before_last_slash path with
  | None | Some EmptyString => s' = s
  | Some dir =>
      (∃ mode, new s s' (Ev (fs_stat dir) (inl mode)) ∧ is_type mode S_IFDIR = true) ∨
      (new s s' (Ev (fs_stat dir) (inr ENOENT)) ∧
       ∃ r, new s s' (Ev (fs_mkdir dir 0x1C0) r) ∧ (r = None ∨ r = Some EEXIST))
  end.
Proof.
  intros Hrun. apply (wp_follow _ _ _ _ _ Hrun). unfold ensure_parent_dir.
  destruct (before_last_slash path) as [[|c dir]|]; [by apply wp_mret| |by apply wp_mret].
  wp_step. eapply wp_mono; [|apply (preserves_check_fs_access grows)]. intros denied s1 G1. cbv beta.
  destruct denied; [by apply wp_mret|]. wp_step. wp_world. set (s2 := logged s1 _ _).
  destruct a as [mode|errno].
  - apply wp_mret. intros Hm <-. apply negb_false_iff in Hm. left. exists mode. split; [by apply new_logged|done].
  - destruct (Z.eqb_spec errno ENOENT) as [->|_]; cbn [negb]; [|by apply wp_mret].
    wp_step. wp_world. set (s3 := logged s2 _ _).
    assert (new s s3 (Ev (fs_stat (String c dir)) (inr ENOENT))) as Hn.
    { eapply new_grows; [by apply new_logged|apply frame_logged]. }
    assert (new s s3 (Ev (fs_mkdir (String c dir) 0x1C0) a)) as Hm.
    { apply new_logged. transitivity s1; [done|apply frame_logged]. }
    destruct a as [errno|]; apply wp_mret; intros Hr <-; right; (split; [done|]); eexists; (split; [exact Hm|]).
    + apply negb_false_iff, Z.eqb_eq in Hr as ->. by right.
    + by left.
Qed.

(** A tunnel is opened in a sandbox only if the destination resolves and
    every address it resolves to is allowed, since the server chooses among them. *)
Theorem tunnel_destination_allowed (host : string) (port : Z) (s s' : st E) :
  ssh2_check_tunnel_destination host port s = Some (false, s') →
  new s s' (Ev (QB sandbox_present) false) ∨
  ∃ addrs, new s s' (Ev (resolve_host host port) (Some addrs)) ∧ addrs ≠ [] ∧
    Forall (λ a, new s s' (Ev (QB (sandbox_checkNetworkAccess false host a)) true)) addrs.
Proof.
  assert (∀ l s1 s0, grows s0 s1 → wp True (check_addresses host l)
    (λ denied s2, denied = false →
       Forall (λ a, new s0 s2 (Ev (QB (sandbox_checkNetworkAccess false host a)) true)) l) s1) as Haddr.
  { induction l as [|a l IH]; intros s1 s0 G; cbn [check_addresses]; [by apply wp_mret|].
    wp_step. wp_world. destruct a0; cbn [negb].
    - eapply wp_mono; [|apply (wp_with grows); [preserves_auto|apply (IH _ s0)]].
      + intros denied s2 [G2 H2] Hd. constructor; [|by apply H2].
        eapply new_grows; [|exact G2]. by apply new_logged.
      + transitivity s1; [done|apply frame_logged].
    - wp_step. wp_world. by apply wp_mret. }
  intros Hrun. apply (wp_follow _ _ _ _ _ Hrun). unfold ssh2_check_tunnel_destination.
  wp_step. wp_world. destruct a; cbn [negb].
  - wp_step. wp_world. set (s2 := logged _ _ _). destruct a as [[|a l]|].
    + wp_step. wp_world. by apply wp_mret.
    + eapply wp_mono; [|apply (wp_with grows); [preserves_auto|apply (Haddr _ _ s)]].
      * intros denied s3 [G3 H3] -> <-. right. exists (a :: l). split; [|split; [done|by apply H3]].
        eapply new_grows; [apply new_logged|exact G3]. apply frame_logged.
      * transitivity (logged s (Ev (QB sandbox_present) true) e'); apply frame_logged.
    + wp_step. wp_world. by apply wp_mret.
  - apply wp_mret. intros _ <-. left. by apply new_logged.
Qed.

(** The UNIX socket path handed to the sandbox fits [sun_path] with its
    terminator, so the copy into the socket address never truncates it. *)
Theorem unix_socket_path_fits (path : string) (check_fs xs : bool) :
  preserves (emits (λ ev : event,
    match ev with
    | Ev (QB (sandbox_checkNetworkAccess true target addr)) _ =>
        addr = path ∧ (String.length addr < sun_path_size)%nat
    | _ => True
    end)) (ssh2_check_unix_socket_access (E:=E) path check_fs xs).
Proof.
  unfold ssh2_check_unix_socket_access.
  destruct (Nat.leb_spec sun_path_size (String.length path)) as [_|Hlt].
  all: repeat first [ apply preserves_emits_raise | preserves_step
    | apply (preserves_emits_call _ (QB _)); intros; done ].
Qed.

Definition add_known_host_ok (s s' : st E) (host : string) : Prop :=
  let file := known_hosts_file (cl s) in
  ∃ key ty nh, new s s' (Ev (session_hostkey (ssh_session (cl s))) (Some (key, ty))) ∧
    file_loaded s s' nh file ∧
    new s s' (Ev (QZ (knownhost_addc nh host key (hostkey_kh_type ty))) 0) ∧
    new s s' (Ev (QZ (knownhost_writefile nh file)) 0).

(** [addKnownHost] reports success only when the existing file was read
    (or there is none), the key of the session was recorded for the given host, or
    for the host of the connection, and the file was written; the connection is
    never touched, whatever the outcome. *)
Theorem add_known_host_recorded (host : option string) (port : Z) (rc : Z) (s s' : st E) :
  addKnownHostLocked host port s = Some (rc, s') →
  quiet s s' ∧ (rc = 0 → add_known_host_ok s s' (default (sshhost (cl s)) host)).
Proof.
  intros Hrun. apply (wp_follow _ _ _ _ _ Hrun).
  eapply wp_mono; [|apply (wp_with quiet _
    (λ rc s', rc = 0 → add_known_host_ok s s' (default (sshhost (cl s)) host)))].
  { intros rc0 s0 [Hq Ha] -> ->. by split. }
  { unfold addKnownHostLocked. preserves_auto. }
  unfold addKnownHostLocked. wp_step.
  eapply wp_mono; [|apply (wp_with grows); [preserves_auto|apply (preserves_sshConnected quiet)]].
  intros connected s1 [G1 [C1 _]]. cbv beta. wp_step; [repeat first [wp_step | wp_world]; done|].
  wp_step. wp_step. rewrite C1. wp_step; [repeat first [wp_step | wp_world]; done|].
  wp_step. wp_world. set (s2 := logged s1 _ _). assert (grows s s2) as G2 by (transitivity s1; [done|apply frame_logged]).
  destruct a as [[key ty]|]; [|repeat first [wp_step | wp_world]; done].
  assert (new s s2 (Ev (session_hostkey (ssh_session (cl s))) (Some (key, ty)))) as Hkey by by apply new_logged.
  wp_step. wp_world. set (s3 := logged s2 _ _). rename a into nh.
  assert (grows s2 s3) as G3 by apply frame_logged. cbv zeta.
  wp_step; [repeat first [wp_step | wp_world]; done|].
  wp_step. eapply wp_mono; [|apply load_known_hosts_post]. intros [[] err] s4 (_ & G4 & H4); simpl in H4; cbv beta iota.
  { wp_step. wp_world. wp_step. destruct err; repeat first [wp_step | wp_world]; done. }
  wp_step. wp_world. set (s5 := logged s4 _ _). rename a into add_rc.
  assert (grows s3 s5) as G5 by (transitivity s4; [done|apply frame_logged]).
  destruct (Z.eqb_spec add_rc 0) as [->|_]; cbn [negb]; [|repeat first [wp_step | wp_world]; done].
  wp_step. eapply wp_mono; [|apply persist_known_hosts_post].
  intros [[] err2] s6 (_ & G6 & H6); simpl in H6; cbv beta iota.
  { wp_step. wp_world. wp_step. destruct err2; repeat first [wp_step | wp_world]; done. }
  wp_step. wp_world. apply wp_mret. intros _. set (s7 := logged s6 _ _).
  assert (grows s6 s7) as G7 by apply frame_logged.
  exists key, ty, nh. split_and!.
  - eapply new_grows; [exact Hkey|]. transitivity s3; [done|]. transitivity s5; [done|]. by transitivity s6.
  - eapply (file_loaded_grows s s3 s4); [by transitivity s2| |exact H4].
    transitivity s5; [apply frame_logged|]. by transitivity s6.
  - apply (new_grows _ s5); [|by transitivity s6]. apply new_logged. transitivity s2; [done|by transitivity s3].
  - eapply new_weaken; [|eapply new_grows; [exact H6|exact G7]]. transitivity s2; [done|]. by transitivity s3.
Qed.

(** The documented port argument of [addKnownHost] has no effect on what is stored. *)
Theorem add_known_host_ignores_port (host : option string) (port port' : Z) (s : st E) :
  addKnownHostLocked host port s = addKnownHostLocked host port' s.
Proof. reflexivity. Qed.
End theorems.

(** A normalized host name has no upper-case letter and is the original up to
    case and one trailing dot; but it is not a fixed point when the name ends in
    two dots. *)
Theorem normalize_host_not_idempotent :
  ssh2_normalize_host "Host.." = "host."%string ∧
  ssh2_normalize_host (ssh2_normalize_host "Host..") = "host"%string.
Proof. split; reflexivity. Qed.

(** ** Witnesses *)

Definition connect_env (check : Z) : Env nat :=
  sim_env (λ _ r, match r with
                  | QZ (knownhost_checkp _ _ _ _ _) => check
                  | fs_stat _ => inr ENOENT
                  | r' => quiet_ans r'
                  end) 20.

Definition verify_state : st nat :=
  state0 ((client0 SSH2ClientClass) <| connect_in_progress := true |> <| ssh_session := Some 1%positive |>).

Lemma registered_verify_state : registered verify_state.
Proof. destruct (registered_state0 SSH2ClientClass) as [H1 H2 H3 H4]. by split. Qed.



Lemma ensure_parent_dir_spec_witness :
  ∃ s', @ensure_parent_dir nat (connect_env 0) "/h/.ssh/known_hosts" verify_state = Some (false, s') ∧
    ((∃ mode, new verify_state s' (Ev (fs_stat "/h/.ssh") (inl mode)) ∧ is_type mode S_IFDIR = true) ∨
     (new verify_state s' (Ev (fs_stat "/h/.ssh") (inr ENOENT)) ∧
      ∃ r, new verify_state s' (Ev (fs_mkdir "/h/.ssh" 0x1C0) r) ∧ (r = None ∨ r = Some EEXIST))).
Proof.
  eexists. split; [vm_compute; reflexivity|].
  apply (@ensure_parent_dir_spec nat (connect_env 0) "/h/.ssh/known_hosts" verify_state). vm_compute. reflexivity.
Defined.

Definition sandbox_env : Env nat :=
  sim_env (λ _ r, match r with
                  | QB sandbox_present => true
                  | resolve_host _ _ => Some ["10.0.0.1"%string; "10.0.0.2"%string]
                  | r' => quiet_ans r'
                  end) 20.

Lemma tunnel_destination_allowed_witness :
  ∃ s', @ssh2_check_tunnel_destination nat sandbox_env "db" 5432 verify_state = Some (false, s') ∧
    (new verify_state s' (Ev (QB sandbox_present) false) ∨
     ∃ addrs, new verify_state s' (Ev (resolve_host "db" 5432) (Some addrs)) ∧ addrs ≠ [] ∧
       Forall (λ a, new verify_state s' (Ev (QB (sandbox_checkNetworkAccess false "db" a)) true)) addrs).
Proof.
  eexists. split; [vm_compute; reflexivity|].
  eapply (@tunnel_destination_allowed nat sandbox_env "db" 5432 verify_state). vm_compute. reflexivity.
Defined.

Lemma add_known_host_recorded_witness :
  ∃ s', @addKnownHostLocked nat (connect_env 0) None 0
      (state0 (connected_client SSH2ClientClass)) = Some (0, s') ∧
    add_known_host_ok (state0 (connected_client SSH2ClientClass)) s' "host".
Proof.
  destruct (@addKnownHostLocked nat (connect_env 0) None 0 (state0 (connected_client SSH2ClientClass)))
    as [[rc s']|] eqn:Hrun; [|vm_compute in Hrun; discriminate].
  assert (rc = 0) as -> by (vm_compute in Hrun; injection Hrun as <- _; reflexivity).
  exists s'. split; [done|].
  exact (proj2 (@add_known_host_recorded nat (connect_env 0) None 0 0 _ s' Hrun) eq_refl).
Defined.
