(* ===== verification/Auth.v ===== *)
(** Authentication (SSH2Client.h, SSH2Client.cpp): the plan of attempts, the SSH
    agent helper, the candidates of a client identity provider, and the execution
    of an attempt. *)

From S2P Require Import Prelude Modes World Sim Defaults Transport Config HostKey.

(** ** Attempts *)

(** [Ssh2AuthAttempt::Kind] *)
Inductive attempt_kind :=
  | AGENT | PROVIDER | PUBKEY_FILE | PUBKEY_MEMORY | PASSWORD | KEYBOARD_INTERACTIVE.

#[export] Instance attempt_kind_eq_dec : EqDecision attempt_kind.
Proof. solve_decision. Defined.

Record Ssh2AuthAttempt := mkAttempt {
  kind : attempt_kind;
  pub_key : string;
  priv_key : string;
  passphrase : string
}.

#[export] Instance attempt_eq_dec : EqDecision Ssh2AuthAttempt.
Proof. solve_decision. Defined.

(** [Ssh2AuthAttempt(kind)] *)
Definition simple_attempt (k : attempt_kind) : Ssh2AuthAttempt :=
  mkAttempt k EmptyString EmptyString EmptyString.

Definition getAuthenticatedWith (a : Ssh2AuthAttempt) : string :=
  match kind a with
  | AGENT => "agent"
  | PASSWORD => "password"
  | KEYBOARD_INTERACTIVE => "keyboard-interactive"
  | _ => "publickey"
  end.

Definition publicKeyAuthAvailable (auth_methods : string) : bool := strstr auth_methods "publickey".

(** [SSH2Client::buildAuthPlanUnlocked], from the client with its [auth_methods]
    set; a null list of methods is [None]. *)
Definition buildAuthPlan (c : client) (userauthlist : option string) : list Ssh2AuthAttempt :=
  let provider_configured := bool_decide (is_Some (client_identity_provider c)) in
  let policy := client_identity_fallback_policy c in
  let fallback_agent_allowed := negb provider_configured
    || (policy =? SSH2_CLIENT_ID_FALLBACK_AGENT)
    || (policy =? SSH2_CLIENT_ID_FALLBACK_AGENT_AND_DEFAULT_KEYS) in
  let fallback_default_keys_allowed := negb provider_configured
    || (policy =? SSH2_CLIENT_ID_FALLBACK_DEFAULT_KEYS)
    || (policy =? SSH2_CLIENT_ID_FALLBACK_AGENT_AND_DEFAULT_KEYS) in
  let publickey_auth_available := publicKeyAuthAvailable (auth_methods c) in
  let file_keys := negb (str_empty (sshkeys_priv c)) && negb (str_empty (sshkeys_pub c)) in
  let explicit_file_keys_available := publickey_auth_available && explicit_key_files c && file_keys in
  let default_file_keys_available := publickey_auth_available && auto_key_files c && file_keys in
  let key_data_available := publickey_auth_available && negb (str_empty (sshkeys_priv_data c)) in
  let offered (m : string) := match userauthlist with Some l => strstr l m | None => false end in
  let password_available := negb (str_empty (sshpass c)) && offered "password" in
  let keyboard_available := negb (str_empty (sshpass c)) && offered "keyboard-interactive" in
  let key_data_passphrase :=
    if str_empty (sshkeys_passphrase c) then sshpass c else sshkeys_passphrase c in
  let memory := mkAttempt PUBKEY_MEMORY (sshkeys_pub_data c) (sshkeys_priv_data c) key_data_passphrase in
  let file := mkAttempt PUBKEY_FILE (sshkeys_pub c) (sshkeys_priv c) (sshpass c) in
  let push (b : bool) (a : Ssh2AuthAttempt) := if b then [a] else [] in
  (if provider_configured then
     push (client_auth_order c =? SSH2_CLIENT_AUTH_PROVIDER_FIRST) (simple_attempt PROVIDER) ++
     push (explicit_key_data c && key_data_available) memory ++
     push explicit_file_keys_available file ++
     push (negb (client_auth_order c =? SSH2_CLIENT_AUTH_PROVIDER_FIRST)) (simple_attempt PROVIDER) ++
     push (use_agent c && fallback_agent_allowed && publickey_auth_available) (simple_attempt AGENT) ++
     push (fallback_default_keys_allowed && default_file_keys_available) file
   else
     push (use_agent c && publickey_auth_available) (simple_attempt AGENT) ++
     push key_data_available memory ++
     push (publickey_auth_available && file_keys) file) ++
  push password_available (simple_attempt PASSWORD) ++
  push keyboard_available (simple_attempt KEYBOARD_INTERACTIVE).

(** [Ssh2AgentHelper] *)
Record agent_helper := mkAgent {
  ag_agent : ptr;
  ag_identity : ptr;
  ag_prev_identity : ptr;
  ag_connected : bool;
  ag_identity_count : Z
}.

#[export] Instance eta_agent : Eta agent_helper := λ a,
  mkAgent (ag_agent a) (ag_identity a) (ag_prev_identity a) (ag_connected a) (ag_identity_count a).

Definition new_agent : agent_helper := mkAgent None None None false 0.

Section auth.
Context {E : Type} `{!Env E}.

Abbreviation M := (prog (st E)).

Definition buildAuthPlanUnlocked (userauthlist : option string) : M (list Ssh2AuthAttempt) :=
  _ ← upd (λ c, c <| auth_methods := default EmptyString userauthlist |>);
  c ← gets cl;
  mret (buildAuthPlan c userauthlist).

(** ** The SSH agent *)

(** [Ssh2AgentHelper::reset] *)
Definition agent_reset (a : agent_helper) : M agent_helper :=
  let clear a := a <| ag_identity := None |> <| ag_prev_identity := None |> in
  match ag_agent a with
  | None => mret (clear a)
  | Some h =>
      _ ← when (ag_connected a) (callU (agent_disconnect (Some h)));
      _ ← callU (agent_free (Some h));
      mret (clear (a <| ag_connected := false |> <| ag_agent := None |>))
  end.

(** [Ssh2AgentHelper::init]: true when it returns -1 *)
Definition agent_start (session : ptr) (a : agent_helper) : M (bool * agent_helper) :=
  auth_sock ← callS (env_value "SSH_AUTH_SOCK");
  match auth_sock with
  | None | Some EmptyString => mret (true, a)
  | Some sock =>
      allowed ← ssh2_fs_access_allowed_quiet sock ModeReadWrite;
      if negb allowed then mret (true, a)
      else
        denied ← ssh2_check_unix_socket_access sock false false;
        if denied : bool then mret (true, a)
        else
          h ← callH (agent_init session);
          if bool_decide (h = None) then mret (true, a)
          else
            let a := a <| ag_agent := h |> in
            _ ← callU (agent_set_identity_path h sock);
            rc ← callZ (agent_connect h);
            if negb (rc =? 0) then
              a ← agent_reset a;
              mret (true, a)
            else
              let a := a <| ag_connected := true |> in
              rc ← callZ (agent_list_identities h);
              if negb (rc =? 0) then
                a ← agent_reset a;
                mret (true, a)
              else mret (false, a)
  end.

(** [Ssh2AgentHelper::nextIdentity]: true when there are no more *)
Definition agent_nextIdentity (a : agent_helper) : M (bool * agent_helper) :=
  let prev := if bool_decide (is_Some (ag_identity a)) then ag_identity a else ag_prev_identity a in
  i ← callH (agent_get_identity (ag_agent a) prev);
  let a := a <| ag_prev_identity := prev |> <| ag_identity := i |> in
  mret (if bool_decide (i = None) then (true, a)
        else (false, a <| ag_identity_count := ag_identity_count a + 1 |>)).

(** [Ssh2AgentHelper::userauth] *)
Definition agent_userauth_call (a : agent_helper) : M Z :=
  user ← cfield sshuser;
  callZ (agent_userauth (ag_agent a) user (ag_identity a)).

(** The result of an authentication function: whether it returned -1, and
    [loggedin]. *)
Definition tryAgentAuth (timeout_ms : Z) : M (bool * bool) :=
  session ← cfield ssh_session;
  '(unusable, a) ← agent_start session new_agent;
  if unusable : bool then
    _ ← agent_reset a;
    mret (false, false)
  else
    loop fuel (λ a : agent_helper,
      '(no_more, a) ← agent_nextIdentity a;
      if no_more : bool then
        _ ← agent_reset a;
        mret (inr (false, false))
      else
        cancelled ← qore_check_cancel true;
        if cancelled : bool then
          _ ← agent_reset a;
          _ ← force_disconnect;
          mret (inr (true, false))
        else
          rc ← while_eagain (agent_userauth_call a)
                 (waitSocketUnlocked true "SSH2CLIENT-TIMEOUT" "SSH2-ERROR" timeout_ms);
          match rc with
          | None =>
              _ ← agent_reset a;
              _ ← force_disconnect;
              mret (inr (true, false))
          | Some rc =>
              if rc =? 0 then
                _ ← upd (λ c, c <| sshauthenticatedwith := Some "agent"%string |>);
                _ ← agent_reset a;
                mret (inr (false, true))
              else mret (inl a)
          end) a.

(** ** Single attempts *)

(** True when it returns -1; then the connection has been closed. *)
Definition checkAuthAttemptAccessUnlocked (attempt : Ssh2AuthAttempt) : M bool :=
  if negb (bool_decide (kind attempt = PUBKEY_FILE)) then mret false
  else
    denied ← ssh2_check_fs_access (priv_key attempt) ModeRead true;
    if denied : bool then
      _ ← force_disconnect;
      mret true
    else if str_empty (pub_key attempt) then mret false
    else
      denied ← ssh2_check_fs_access (pub_key attempt) ModeRead true;
      _ ← when denied force_disconnect;
      mret denied.

(** [kbd_callback]: what the prompts of keyboard-interactive authentication are answered
    with; libssh2 calls it, with the password that [authCallUnlocked] left for it and a response
    for each prompt.  More than one prompt is left unanswered. *)
Definition kbd_callback (password : string) (responses : list (option string)) : list (option string) :=
  match responses with [_] => [Some password] | _ => responses end.

Definition authCallUnlocked (attempt : Ssh2AuthAttempt) : M Z :=
  c ← gets cl;
  let s := ssh_session c in
  let pub := if str_empty (pub_key attempt) then None else Some (pub_key attempt) in
  match kind attempt with
  | PASSWORD => callZ (userauth_password s (sshuser c) (sshpass c))
  | KEYBOARD_INTERACTIVE => callZ (userauth_keyboard_interactive s (sshuser c) (sshpass c))
  | PUBKEY_FILE =>
      callZ (userauth_publickey_fromfile s (sshuser c) pub (priv_key attempt) (passphrase attempt))
  | PUBKEY_MEMORY =>
      callZ (userauth_publickey_frommemory s (sshuser c) pub (priv_key attempt) (passphrase attempt))
  | AGENT | PROVIDER => mret LIBSSH2_ERROR_INVAL
  end.

Definition setAuthenticatedWithUnlocked (attempt : Ssh2AuthAttempt) : M unit :=
  upd (λ c, c <| sshauthenticatedwith := Some (getAuthenticatedWith attempt) |>).

(** [runAuthAttemptUnlocked]; [provider] is the call of [tryProviderAuth]. *)
Definition runAuthAttempt_with (provider : M (bool * bool)) (timeout_ms : Z)
    (attempt : Ssh2AuthAttempt) : M (bool * bool) :=
  match kind attempt with
  | AGENT => tryAgentAuth timeout_ms
  | PROVIDER => provider
  | _ =>
      denied ← checkAuthAttemptAccessUnlocked attempt;
      if denied : bool then mret (true, false)
      else
        rc ← while_eagain (authCallUnlocked attempt)
               (waitSocketUnlocked true "SSH2CLIENT-TIMEOUT" "SSH2-ERROR" timeout_ms);
        match rc with
        | None =>
            _ ← force_disconnect;
            mret (true, false)
        | Some rc =>
            if rc =? 0 then
              _ ← setAuthenticatedWithUnlocked attempt;
              mret (false, true)
            else mret (false, false)
        end
  end.

(** The attempts of a plan in order, up to the first that fails or logs in. *)
Fixpoint run_plan (run : Ssh2AuthAttempt → M (bool * bool)) (plan : list Ssh2AuthAttempt) : M (bool * bool) :=
  match plan with
  | [] => mret (false, false)
  | attempt :: plan' =>
      '(failed, loggedin) ← run attempt;
      if failed : bool then mret (true, loggedin)
      else if loggedin : bool then mret (false, true)
      else run_plan run plan'
  end.

(** ** Client identity providers *)

(** [None] when an exception has been raised. *)
Definition getProviderCandidatesUnlocked (timeout_ms : Z) : M (option (list qval)) :=
  provider ← cfield client_identity_provider;
  ctxt ← makeProviderContext "client-identity" timeout_ms;
  failed ← has_exc;
  if failed : bool then mret None
  else
    rv ← eval_unlocked provider "getClientIdentityCandidates" [ctxt];
    match rv with
    | None =>
        _ ← raise true "SSH2-CLIENT-IDENTITY-PROVIDER-ERROR";
        mret None
    | Some (QList l) => mret (Some l)
    | Some _ =>
        _ ← raise true "SSH2-CLIENT-IDENTITY-INVALID-RESPONSE";
        mret None
    end.

Definition addMemoryKeyAttempt (pub : option string) (priv : string) : list Ssh2AuthAttempt :=
  if str_empty priv then [] else [mkAttempt PUBKEY_MEMORY (default EmptyString pub) priv EmptyString].

(** A string key that must be there: without one an exception is raised. *)
Definition required_string (h : list (string * qval)) (key : string) : M (option string) :=
  r ← ssh2_get_hash_string h key;
  match r with
  | Some v => mret (Some v)
  | None =>
      failed ← has_exc;
      _ ← when (negb failed) (raise true "SSH2-CLIENT-IDENTITY-INVALID-RESPONSE");
      mret None
  end.

Definition invalid_response : M (bool * list Ssh2AuthAttempt) :=
  _ ← raise true "SSH2-CLIENT-IDENTITY-INVALID-RESPONSE";
  mret (true, []).

(** A key file named by a provider: no public key file, the connection password as
    passphrase. *)
Definition file_attempt (h : list (string * qval)) : M (bool * list Ssh2AuthAttempt) :=
  path ← required_string h "path";
  pass ← cfield sshpass;
  mret (match path with
        | None => (true, [])
        | Some path => (false, [mkAttempt PUBKEY_FILE EmptyString path pass])
        end).

(** Key material: its public key is optional. *)
Definition memory_attempt (material : list (string * qval)) (priv : string) :
    M (bool * list Ssh2AuthAttempt) :=
  public_key ← ssh2_get_hash_string material "public_key_text";
  failed ← has_exc;
  mret (if failed : bool then (true, []) else (false, addMemoryKeyAttempt public_key priv)).

Definition resolve_material (optional : bool) (material : list (string * qval)) :
    M (bool * list Ssh2AuthAttempt) :=
  material_kind ← required_string material "kind";
  match material_kind with
  | None => mret (true, [])
  | Some k =>
      if String.eqb k "file" then file_attempt material
      else if String.eqb k "text" then
        private_key ← required_string material "private_key_text";
        match private_key with
        | None => mret (true, [])
        | Some priv => memory_attempt material priv
        end
      else if String.eqb k "data" then
        match hash_get material "private_key_data" with
        | QBinary priv => memory_attempt material priv
        | _ => invalid_response
        end
      else if optional then mret (false, [])
      else invalid_response
  end.

(** [resolveProviderCandidateUnlocked]: whether it returns -1, and the attempts
    appended to the plan. *)
Definition resolveProviderCandidateUnlocked (candidate_value : qval) (timeout_ms : Z) :
    M (bool * list Ssh2AuthAttempt) :=
  match candidate_value with
  | QHash candidate =>
      kind_ ← required_string candidate "kind";
      match kind_ with
      | None => mret (true, [])
      | Some k =>
          optional ← (match hash_get candidate "optional" with
                      | QNothing => mret false
                      | v => callB (value_bool v)
                      end);
          if String.eqb k "agent" then
            methods ← cfield auth_methods;
            mret (false, if publicKeyAuthAvailable methods then [simple_attempt AGENT] else [])
          else if String.eqb k "file" then file_attempt candidate
          else if negb (String.eqb k "in-memory") && negb (String.eqb k "reference") then invalid_response
          else
            provider ← cfield client_identity_provider;
            ctxt ← makeProviderContext "client-identity" timeout_ms;
            failed ← has_exc;
            if failed : bool then mret (true, [])
            else
              rv ← eval_unlocked provider "getPrivateKeyMaterial" [ctxt; candidate_value];
              match rv with
              | None =>
                  if optional : bool then mret (false, [])
                  else
                    _ ← raise true "SSH2-CLIENT-IDENTITY-PROVIDER-ERROR";
                    mret (true, [])
              | Some (QHash material) => resolve_material optional material
              | Some _ => invalid_response
              end
      end
  | _ => invalid_response
  end.

(** The candidates from index [i] on. *)
Fixpoint try_candidates (run : Ssh2AuthAttempt → M (bool * bool)) (timeout_ms : Z) (i : nat)
    (candidates : list qval) : M (bool * bool) :=
  match candidates with
  | [] => mret (false, false)
  | candidate :: rest =>
      cancelled ← (if Nat.eqb (i mod 100) 0 then qore_check_cancel true else mret false);
      if cancelled : bool then
        _ ← force_disconnect;
        mret (true, false)
      else
        '(failed, sub_plan) ← resolveProviderCandidateUnlocked candidate timeout_ms;
        if failed : bool then mret (true, false)
        else
          '(failed, loggedin) ← run_plan run sub_plan;
          if failed : bool then mret (true, loggedin)
          else if loggedin : bool then mret (false, true)
          else try_candidates run timeout_ms (S i) rest
  end.

Definition tryProviderAuth_with (run : Ssh2AuthAttempt → M (bool * bool)) (timeout_ms : Z) : M (bool * bool) :=
  methods ← cfield auth_methods;
  if negb (publicKeyAuthAvailable methods) then mret (false, false)
  else
    candidates ← getProviderCandidatesUnlocked timeout_ms;
    match candidates with
    | None => mret (true, false)
    | Some l => try_candidates run timeout_ms 0 l
    end.

(** The recursion of [tryProviderAuth] and [runAuthAttemptUnlocked] is unrolled: no
    attempt made for a candidate is a provider attempt. *)
Definition tryProviderAuth (timeout_ms : Z) : M (bool * bool) :=
  tryProviderAuth_with (runAuthAttempt_with diverge timeout_ms) timeout_ms.

Definition runAuthAttemptUnlocked (timeout_ms : Z) (attempt : Ssh2AuthAttempt) : M (bool * bool) :=
  runAuthAttempt_with (tryProviderAuth timeout_ms) timeout_ms attempt.
End auth.

(** * Facts *)

Section facts.
Context {E : Type} `{!Env E}.

Abbreviation M := (prog (st E)).

Section basic.
Context (R : relation (st E)) `{!Basic R}.

Lemma preserves_agent_reset a : preserves R (agent_reset a).
Proof. unfold agent_reset. preserves_auto. Qed.

#[local] Hint Resolve preserves_agent_reset : preserves.

Lemma preserves_agent_start session a : preserves R (agent_start session a).
Proof. unfold agent_start. preserves_auto. Qed.

Lemma preserves_agent_nextIdentity a : preserves R (agent_nextIdentity a).
Proof. unfold agent_nextIdentity. preserves_auto. Qed.

Lemma preserves_required_string h key : preserves R (required_string h key).
Proof. unfold required_string. preserves_auto. Qed.

#[local] Hint Resolve preserves_required_string : preserves.

Lemma preserves_resolve_material optional material : preserves R (resolve_material optional material).
Proof. unfold resolve_material, file_attempt, memory_attempt, invalid_response. preserves_auto. Qed.
End basic.

Lemma preserves_userauth_call (R : relation (st E)) `{!Frame R} a : preserves R (agent_userauth_call a).
Proof. unfold agent_userauth_call. preserves_auto. Qed.

Lemma preserves_authCall (R : relation (st E)) `{!Frame R} a : preserves R (authCallUnlocked a).
Proof. unfold authCallUnlocked. preserves_auto. Qed.
End facts.

#[export] Hint Resolve preserves_agent_reset preserves_agent_start preserves_agent_nextIdentity
  preserves_required_string preserves_resolve_material preserves_userauth_call preserves_authCall : preserves.

Section outcomes.
Context {E : Type} `{!Env E}.

Abbreviation M := (prog (st E)).

(** ** The outcomes of an authentication function *)

(** The server answered an authentication request with success, and the method is
    recorded; nothing else has changed. *)
Definition logged_in (s s' : st E) : Prop :=
  ∃ c method, sends_credentials (QZ c) = true ∧ new s s' (Ev (QZ c) 0) ∧ grows s s' ∧
    quiet (s <| cl := (cl s) <| sshauthenticatedwith := Some method |> |>) s'.

(** [auth_outcome p s (failed, loggedin) s']; only a provider attempt ([p]) can fail
    with the connection left open. *)
Inductive auth_outcome (p : bool) (s : st E) : bool * bool → st E → Prop :=
  | auth_rejected s' : quiet s s' → grows s s' → auth_outcome p s (false, false) s'
  | auth_accepted s' : logged_in s s' → auth_outcome p s (false, true) s'
  | auth_closed s' : closed_from s s' → xsink s' ≠ [] → auth_outcome p s (true, false) s'
  | auth_refused s' :
      p = true → quiet s s' → grows s s' → xsink s' ≠ [] → auth_outcome p s (true, false) s'.

Lemma logged_in_lift (s s1 s' : st E) : quiet s s1 → grows s s1 → logged_in s1 s' → logged_in s s'.
Proof.
  intros Q G (c & m & Hc & Hn & G1 & Q1). exists c, m. split_and!; [done| | |].
  - by eapply new_weaken.
  - by transitivity s1.
  - transitivity (s1 <| cl := (cl s1) <| sshauthenticatedwith := Some m |> |>); [|done].
    destruct Q as (Hcl & ? & ? & ? & ?). unfold quiet. simpl. by rewrite Hcl.
Qed.

Lemma auth_outcome_lift p (s s1 : st E) r s' :
  quiet s s1 → grows s s1 → auth_outcome p s1 r s' → auth_outcome p s r s'.
Proof.
  intros Q G H. destruct H as [s' ? ?|s' ?|s' ? ?|s' ? ? ? ?].
  - apply auth_rejected; by transitivity s1.
  - apply auth_accepted. by apply (logged_in_lift s s1).
  - apply auth_closed; [by apply (closed_from_quiet s s1)|done].
  - apply auth_refused; [done|by transitivity s1|by transitivity s1|done].
Qed.

Lemma auth_outcome_weaken s r s' : auth_outcome false s r s' → auth_outcome true s r s'.
Proof. intros H. destruct H; [by constructor|by constructor|by constructor|done]. Qed.

(** A logged-in state and the steps after it that only make requests. *)
Lemma logged_in_after (s s1 s' : st E) : logged_in s s1 → quiet s1 s' → grows s1 s' → logged_in s s'.
Proof.
  intros (c & m & Hc & Hn & G & Q) Q1 G1. exists c, m.
  split_and!; [done|by eapply new_grows|by transitivity s1|by transitivity s1].
Qed.

Lemma closed_force_disconnect (s s1 : st E) :
  closed_from s s1 → xsink s1 ≠ [] →
  wp True force_disconnect (λ _ s', closed_from s s' ∧ xsink s' ≠ []) s1.
Proof.
  intros (D & R & C & G & Hsf) X. eapply wp_mono; [|by apply force_disconnect_post].
  intros ? s2 [C2 X2]. split; [by apply (closed_from_conf s s1)|by eapply xsink_grows_nonempty].
Qed.

Lemma quiet_force_disconnect (s s1 : st E) :
  registered s → quiet s s1 → grows s s1 → xsink s1 ≠ [] →
  wp True force_disconnect (λ _ s', closed_from s s' ∧ xsink s' ≠ []) s1.
Proof.
  intros Hr Q G X. eapply wp_mono; [|apply force_disconnect_post; by apply (quiet_registered s)].
  intros ? s2 [C2 X2]. split; [by apply (closed_from_quiet s s1)|by eapply xsink_grows_nonempty].
Qed.

(** The last call of a retry loop, when it is an authentication call. *)
Lemma auth_call_new (a : Ssh2AuthAttempt) (s s' : st E) rc :
  authCallUnlocked a s = Some (rc, s') → rc = 0 →
  ∃ c, sends_credentials (QZ c) = true ∧ new s s' (Ev (QZ c) 0).
Proof.
  intros Hrun ->. apply (wp_follow _ _ _ _ _ Hrun). unfold authCallUnlocked. wp_step. wp_step.
  destruct (kind a); repeat first [wp_step | wp_world]; intros; try discriminate; subst;
    eexists; (split; [|apply new_logged; reflexivity]); reflexivity.
Qed.

Lemma userauth_call_new (a : agent_helper) (s s' : st E) rc :
  agent_userauth_call a s = Some (rc, s') → rc = 0 →
  ∃ c, sends_credentials (QZ c) = true ∧ new s s' (Ev (QZ c) 0).
Proof.
  intros Hrun ->. apply (wp_follow _ _ _ _ _ Hrun). unfold agent_userauth_call. wp_step. wp_world. wp_world.
  intros; subst. eexists; (split; [|apply new_logged; reflexivity]); reflexivity.
Qed.

(** Recording the method after the successful call. *)
Lemma logged_in_mark (s s1 s2 : st E) c m :
  sends_credentials (QZ c) = true → new s1 s2 (Ev (QZ c) 0) → grows s s1 → quiet s s2 → grows s s2 →
  logged_in s (s2 <| cl := (cl s2) <| sshauthenticatedwith := Some m |> |>).
Proof.
  intros Hc Hn G1 Q G. exists c, m. split_and!; [done| | |].
  - destruct (new_weaken _ _ _ _ G1 Hn) as (t & ? & ?). by exists t.
  - destruct G as [t ?]. by exists t.
  - destruct Q as (Hcl & ? & ? & ? & ?). unfold quiet. simpl. by rewrite Hcl.
Qed.

(** A step that only makes requests, tracked by [quiet] and [grows]. *)
Lemma wp_quiet_step {A} (m : M A) (Q : A → st E → Prop) (s s1 : st E) :
  quiet s s1 → grows s s1 → preserves quiet m → preserves grows m →
  (∀ a s2, quiet s s2 → grows s s2 → quiet s1 s2 → grows s1 s2 → Q a s2) → wp True m Q s1.
Proof.
  intros Q1 G1 Hq Hg HQ. eapply wp_mono; [|apply wp_and; [apply Hq|apply Hg]].
  intros a s2 [Q2 G2]. apply HQ; [by transitivity s1|by transitivity s1|done|done].
Qed.

(** A failure that has been reported ends the agent and the connection. *)
Lemma agent_gives_up {A} (x : A) a (Q : A → st E → Prop) (s1 : st E) :
  xsink s1 ≠ [] → (∀ s5, quiet s1 s5 → grows s1 s5 → xsink s5 ≠ [] →
    wp True force_disconnect (λ _ s6, Q x s6) s5) →
  wp True (_ ← agent_reset a; _ ← force_disconnect; mret x) Q s1.
Proof.
  intros X HQ. wp_step. eapply wp_mono; [|apply wp_and; [apply (preserves_agent_reset quiet)|
    apply wp_and; [apply (preserves_agent_reset grows)|apply (preserves_agent_reset xsink_grows)]]].
  intros ? s5 (Q5 & G5 & X5). cbv beta. wp_step. eapply wp_mono; [|apply HQ; [done|done|by eapply xsink_grows_nonempty]].
  intros ? s6 H. by apply wp_mret.
Qed.

Lemma tryAgentAuth_post to s :
  registered s → wp True (tryAgentAuth to) (auth_outcome false s) s.
Proof.
  intros Hr. unfold tryAgentAuth. wp_step. wp_world. wp_step.
  apply (wp_quiet_step _ _ s s); [done|done|apply preserves_agent_start, _|apply preserves_agent_start, _|].
  intros [unusable a] s1 Q1 G1 _ _. cbv beta iota.
  destruct unusable.
  { wp_step. apply (wp_quiet_step _ _ s s1); [done|done|apply preserves_agent_reset, _..|].
    intros ? s2 Q2 G2 _ _. apply wp_mret. by apply auth_rejected. }
  apply (wp_loop (λ _ s', quiet s s' ∧ grows s s')); [|done]. clear a s1 Q1 G1.
  intros a s1 [Q1 G1]. wp_step.
  apply (wp_quiet_step _ _ s s1); [done|done|apply preserves_agent_nextIdentity, _..|].
  intros [no_more a2] s2 Q2 G2 _ _. cbv beta iota. destruct no_more.
  { wp_step. apply (wp_quiet_step _ _ s s2); [done|done|apply preserves_agent_reset, _..|].
    intros ? s3 Q3 G3 _ _. apply wp_mret. by apply auth_rejected. }
  wp_step. unfold qore_check_cancel. wp_step. wp_world. set (s3 := logged s2 _ _). wp_step.
  assert (quiet s s3) as Q3 by (transitivity s2; [done|apply frame_logged]).
  assert (grows s s3) as G3 by (transitivity s2; [done|apply frame_logged]).
  destruct a0; cbn [when].
  - wp_world. wp_step. set (s4 := s3 <| xsink := _ |>).
    assert (quiet s s4) as Q4 by (transitivity s3; [done|apply frame_xsink]).
    assert (grows s s4) as G4 by (transitivity s3; [done|apply frame_xsink]).
    apply (agent_gives_up (inr (true, false))); [done|]. intros s5 Q5 G5 X5.
    eapply wp_mono; [|apply (quiet_force_disconnect s s5); [done|by transitivity s4|by transitivity s4|done]].
    intros ? s6 [C6 X6]. by apply auth_closed.
  - wp_step. wp_step. wp_step.
    eapply wp_mono; [|apply while_eagain_post; [by apply (quiet_registered s)|apply preserves_userauth_call, _..]].
    intros [rc|] s4 H4; cbv beta iota.
    + destruct H4 as (Q4 & G4 & _ & s5 & Q5 & G5 & Hrun).
      assert (quiet s s4) as Q04 by by transitivity s3. assert (grows s s4) as G04 by by transitivity s3.
      destruct (Z.eqb_spec rc 0) as [->|_]; [|by apply wp_mret].
      destruct (userauth_call_new _ _ _ _ Hrun eq_refl) as (c & Hc & Hn).
      wp_step. wp_world. wp_step. set (s6 := s4 <| cl := _ |>).
      assert (logged_in s s6) as H6.
      { by apply (logged_in_mark s s5 s4 c); [| |transitivity s3| |]. }
      eapply wp_mono; [|apply wp_and; [apply (preserves_agent_reset quiet)|apply (preserves_agent_reset grows)]].
      intros ? s7 [Q7 G7]. cbv beta. apply wp_mret. apply auth_accepted. by apply (logged_in_after s s6).
    + destruct H4 as [C4 X4]. apply (closed_from_quiet s) in C4; [|done..].
      apply (agent_gives_up (inr (true, false))); [done|]. intros s5 Q5 G5 X5.
      eapply wp_mono; [|apply (closed_force_disconnect s s5); [by apply (closed_from_after s s4)|done]].
      intros ? s6 [C6 X6]. by apply auth_closed.
Qed.

(** The access check before a key file is used. *)
Lemma checkAuthAttemptAccess_post a s :
  registered s → wp True (checkAuthAttemptAccessUnlocked a) (waited s) s.
Proof.
  intros Hr. unfold checkAuthAttemptAccessUnlocked.
  destruct (negb (bool_decide (kind a = PUBKEY_FILE))); [by apply wp_mret|].
  assert (∀ path s1, quiet s s1 → grows s s1 → wp True (ssh2_check_fs_access path ModeRead true)
    (λ denied s2, quiet s s2 ∧ grows s s2 ∧ (denied = true → xsink s2 ≠ [])) s1) as Hc.
  { intros path s1 Q1 G1. eapply wp_mono; [|apply wp_and; [apply (preserves_check_fs_access quiet)|
      apply wp_and; [apply (preserves_check_fs_access grows)|apply check_fs_access_post]]].
    intros d s2 (Q2 & G2 & _ & X2). split_and!; [by transitivity s1|by transitivity s1|].
    intros ->. by destruct (xsink s2); [simpl in X2; lia|]. }
  wp_step. eapply wp_mono; [|by apply (Hc _ s)]. intros [] s1 (Q1 & G1 & X1); cbv beta.
  - wp_step. eapply wp_mono; [|by apply (quiet_force_disconnect s s1); [| | |apply X1]].
    intros ? s2 [? ?]. by apply wp_mret.
  - destruct (str_empty (pub_key a)); [by apply wp_mret|].
    wp_step. eapply wp_mono; [|by apply (Hc _ s1)]. intros denied s2 (Q2 & G2 & X2). cbv beta.
    wp_step. wp_step; subst.
    + eapply wp_mono; [|by apply (quiet_force_disconnect s s2); [| | |apply X2]].
      intros ? s3 [? ?]. by apply wp_mret.
    + by apply wp_mret.
Qed.

(** An attempt that is a single libssh2 call, or the agent. *)
Lemma runAuthAttempt_simple provider to a s :
  kind a ≠ PROVIDER → registered s →
  wp True (runAuthAttempt_with provider to a) (auth_outcome false s) s.
Proof.
  intros Hk Hr. unfold runAuthAttempt_with.
  assert (wp True
    (denied ← checkAuthAttemptAccessUnlocked a;
     if denied : bool then mret (true, false)
     else
       rc ← while_eagain (authCallUnlocked a)
              (waitSocketUnlocked true "SSH2CLIENT-TIMEOUT" "SSH2-ERROR" to);
       match rc with
       | None => _ ← force_disconnect; mret (true, false)
       | Some rc =>
           if rc =? 0 then _ ← setAuthenticatedWithUnlocked a; mret (false, true)
           else mret (false, false)
       end) (auth_outcome false s) s) as Hcall.
  { wp_step. eapply wp_mono; [|by apply checkAuthAttemptAccess_post].
    intros [] s1 [H1 G1]; cbv beta; [apply wp_mret; by apply auth_closed|].
    wp_step. eapply wp_mono; [|apply while_eagain_post; [by apply (quiet_registered s)|apply preserves_authCall, _..]].
    intros [rc|] s2 H2; cbv beta iota.
    - destruct H2 as (Q2 & G2 & _ & s3 & Q3 & G3 & Hrun).
      assert (quiet s s2) as Q02 by by transitivity s1. assert (grows s s2) as G02 by by transitivity s1.
      destruct (Z.eqb_spec rc 0) as [->|_]; [|apply wp_mret; by apply auth_rejected].
      destruct (auth_call_new _ _ _ _ Hrun eq_refl) as (c & Hc & Hn).
      unfold setAuthenticatedWithUnlocked. wp_step. wp_world. apply wp_mret, auth_accepted.
      by apply (logged_in_mark s s3 s2 c); [| |transitivity s1| |].
    - destruct H2 as [C2 X2]. apply (closed_from_quiet s) in C2; [|done..]. wp_step.
      eapply wp_mono; [|by apply (closed_force_disconnect s s2)].
      intros ? s3 [? ?]. apply wp_mret. by apply auth_closed. }
  destruct (kind a); try done. by apply tryAgentAuth_post.
Qed.

(** A plan runs like its attempts. *)
Lemma run_plan_post p run plan s :
  (∀ a s1, a ∈ plan → registered s1 → connect_in_progress (cl s1) = connect_in_progress (cl s) →
     wp True (run a) (auth_outcome p s1) s1) →
  registered s → wp True (run_plan run plan) (auth_outcome p s) s.
Proof.
  revert s. induction plan as [|a plan IH]; intros s Hrun Hr; cbn [run_plan].
  { apply wp_mret. by apply auth_rejected. }
  wp_step. eapply wp_mono; [|apply Hrun; [by constructor|done|done]].
  intros [failed loggedin] s1 H1. cbv beta iota.
  destruct failed; [by apply wp_mret|]. destruct loggedin; [by apply wp_mret|].
  assert (quiet s s1 ∧ grows s s1) as [Q1 G1] by by inversion_clear H1.
  eapply wp_mono; [|apply IH].
  - intros r s2 H2. by apply (auth_outcome_lift p s s1).
  - intros a' s2 Ha Hr2 Hc2. apply Hrun; [by constructor|done|]. rewrite Hc2. by destruct Q1 as [-> _].
  - by apply (quiet_registered s).
Qed.
End outcomes.

Section providers.
Context {E : Type} `{!Env E}.

Abbreviation M := (prog (st E)).

(** A computation that ends quietly, with an exception when its result says so. *)
Definition reports {A} (bad : A → bool) (s : st E) (r : A) (s' : st E) : Prop :=
  quiet s s' ∧ grows s s' ∧ (bad r = true → xsink s' ≠ []).

Lemma reports_lift {A} (bad : A → bool) (s s1 : st E) r s' :
  quiet s s1 → grows s s1 → reports bad s1 r s' → reports bad s r s'.
Proof. intros Q G (Q1 & G1 & H). split_and!; [by transitivity s1|by transitivity s1|done]. Qed.

Definition is_none {A} (o : option A) : bool := match o with None => true | Some _ => false end.

Lemma required_string_post h key s :
  wp True (required_string h key) (reports is_none s) s.
Proof.
  apply (wp_with quiet); [preserves_auto|]. apply (wp_with grows); [preserves_auto|].
  unfold required_string. wp_step. eapply wp_mono; [|apply get_hash_string_post].
  intros [v|] s1 _; cbv beta iota; [by apply wp_mret|].
  repeat first [wp_step | wp_world]; intros _; done.
Qed.

Lemma provider_eval_post provider method args s (k : option qval → M (bool * list Ssh2AuthAttempt))
    (Q : bool * list Ssh2AuthAttempt → st E → Prop) :
  connect_in_progress (cl s) = true →
  (∀ rv s1, quiet s s1 → grows s s1 → wp True (k rv) Q s1) →
  wp True (rv ← eval_unlocked provider method args; k rv) Q s.
Proof.
  intros Hc HQ. wp_step. apply wp_eval_unlocked_connecting; [done|]. intros ops rv e'.
  apply HQ; apply frame_logged.
Qed.

(** What a candidate may add to the plan: no provider attempts. *)
Definition resolved (s : st E) (r : bool * list Ssh2AuthAttempt) (s' : st E) : Prop :=
  reports fst s r s' ∧ Forall (λ a, kind a ≠ PROVIDER) (snd r).

Lemma resolved_lift (s s1 : st E) r s' : quiet s s1 → grows s s1 → resolved s1 r s' → resolved s r s'.
Proof. intros Q G [H F]. split; [by apply (reports_lift _ s s1)|done]. Qed.

Lemma invalid_response_post s : wp True invalid_response (resolved s) s.
Proof.
  unfold invalid_response. wp_step. wp_world. apply wp_mret. split; [|by constructor].
  split_and!; [apply frame_xsink..|]. by intros _.
Qed.

Lemma file_attempt_post h s : wp True (file_attempt h) (resolved s) s.
Proof.
  unfold file_attempt. wp_step. eapply wp_mono; [|apply required_string_post].
  intros [path|] s1 (Q1 & G1 & X1); cbv beta; wp_step; wp_world; apply wp_mret.
  - split; [by split_and!|]. by repeat constructor.
  - split; [split_and!; [done..|]|by constructor]. intros _. by apply X1.
Qed.

Lemma memory_attempt_post material priv s : wp True (memory_attempt material priv) (resolved s) s.
Proof.
  unfold memory_attempt. wp_step. eapply wp_mono; [|apply get_hash_string_post].
  intros r s1 (Q1 & G1 & _). cbv beta. wp_step. apply wp_has_exc; intros Hx; apply wp_mret.
  - split; [split_and!; [done..|by intros _]|by constructor].
  - split; [by split_and!|]. unfold addMemoryKeyAttempt. simpl. destruct (str_empty priv); by repeat constructor.
Qed.

Lemma resolve_material_post optional material s : wp True (resolve_material optional material) (resolved s) s.
Proof.
  unfold resolve_material. wp_step. eapply wp_mono; [|apply required_string_post].
  intros [k|] s1 (Q1 & G1 & X1); cbv beta iota.
  2:{ apply wp_mret. split; [split_and!; [done..|intros _; by apply X1]|by constructor]. }
  assert (∀ m, wp True m (resolved s1) s1 → wp True m (resolved s) s1) as Hl.
  { intros m H. eapply wp_mono; [|exact H]. intros r s2. by apply resolved_lift. }
  wp_step; [apply Hl, file_attempt_post|]. wp_step.
  { wp_step. eapply wp_mono; [|apply required_string_post].
    intros [priv|] s2 (Q2 & G2 & X2); cbv beta iota.
    - eapply wp_mono; [|apply memory_attempt_post]. intros r s3.
      apply resolved_lift; by transitivity s1.
    - apply wp_mret. split; [|by constructor].
      split_and!; [by transitivity s1|by transitivity s1|intros _; by apply X2]. }
  wp_step.
  { destruct (hash_get material "private_key_data"); apply Hl;
      first [apply memory_attempt_post | apply invalid_response_post]. }
  wp_step; [apply wp_mret; split; [by split_and!|by constructor]|apply Hl, invalid_response_post].
Qed.

Lemma resolveProviderCandidate_post v to s :
  connect_in_progress (cl s) = true →
  wp True (resolveProviderCandidateUnlocked v to) (resolved s) s.
Proof.
  intros Hc. unfold resolveProviderCandidateUnlocked.
  destruct v as [| | | |candidate| |]; try apply invalid_response_post.
  wp_step. eapply wp_mono; [|apply required_string_post].
  intros [k|] s1 (Q1 & G1 & X1); cbv beta iota.
  2:{ apply wp_mret. split; [split_and!; [done..|intros _; by apply X1]|by constructor]. }
  wp_step. apply (wp_quiet_step _ _ s s1); [done|done| | |].
  { destruct (hash_get candidate "optional"); preserves_auto. }
  { destruct (hash_get candidate "optional"); preserves_auto. }
  intros optional s2 Q2 G2 _ _.
  assert (∀ m, wp True m (resolved s2) s2 → wp True m (resolved s) s2) as Hl.
  { intros m H. eapply wp_mono; [|exact H]. intros r s3. by apply resolved_lift. }
  wp_step.
  { wp_step. wp_world. apply wp_mret. split; [by split_and!|]. simpl. case_match; by repeat constructor. }
  wp_step; [apply Hl, file_attempt_post|]. wp_step; [apply Hl, invalid_response_post|].
  wp_step. wp_world. wp_step. apply (wp_quiet_step _ _ s s2); [done|done|preserves_auto|preserves_auto|].
  intros ctxt s3 Q3 G3 _ _. wp_step. apply wp_has_exc; intros Hx.
  { apply wp_mret. split; [by split_and!|by constructor]. }
  apply provider_eval_post; [by destruct Q3 as [-> _]|]. intros rv s4 Q4 G4.
  assert (quiet s s4) as Q04 by by transitivity s3. assert (grows s s4) as G04 by by transitivity s3.
  assert (∀ m, wp True m (resolved s4) s4 → wp True m (resolved s) s4) as Hl4.
  { intros m H. eapply wp_mono; [|exact H]. intros r s5. by apply resolved_lift. }
  destruct rv as [[| | | |material| |]|]; try (apply Hl4, invalid_response_post);
    [apply Hl4, resolve_material_post|].
  wp_step; [apply wp_mret; split; [by split_and!|by constructor]|].
  wp_step. wp_world. apply wp_mret. split; [|by constructor].
  split_and!; [transitivity s4; [done|apply frame_xsink]..|by intros _].
Qed.

Lemma getProviderCandidates_post to s :
  connect_in_progress (cl s) = true →
  wp True (getProviderCandidatesUnlocked to) (reports is_none s) s.
Proof.
  intros Hc. unfold getProviderCandidatesUnlocked. wp_step. wp_world. wp_step.
  apply (wp_quiet_step _ _ s s); [done|done|preserves_auto|preserves_auto|].
  intros ctxt s1 Q1 G1 _ _. wp_step. apply wp_has_exc; intros Hx; [by apply wp_mret|].
  wp_step. apply wp_eval_unlocked_connecting; [by destruct Q1 as [-> _]|]. intros ops rv e'.
  set (s2 := logged s1 _ _).
  assert (quiet s s2) as Q2 by (transitivity s1; [done|apply frame_logged]).
  assert (grows s s2) as G2 by (transitivity s1; [done|apply frame_logged]).
  destruct rv as [[]|]; repeat first [wp_step | wp_world]; split_and!;
    try (transitivity s2; [done|apply frame_xsink]); try done.
Qed.

Lemma try_candidates_post run to i l s :
  (∀ a s1, kind a ≠ PROVIDER → registered s1 → wp True (run a) (auth_outcome false s1) s1) →
  registered s → connect_in_progress (cl s) = true →
  wp True (try_candidates run to i l) (auth_outcome true s) s.
Proof.
  intros Hrun. revert i s. induction l as [|v l IH]; intros i s Hr Hc; cbn [try_candidates].
  { apply wp_mret. by apply auth_rejected. }
  wp_step. apply wp_intro. intros cancelled s1 Hcan.
  assert (preserves quiet (if Nat.eqb (i mod 100) 0 then qore_check_cancel true else (mret false : M bool))) as Hq.
  { destruct (Nat.eqb (i mod 100) 0); preserves_auto. }
  assert (preserves grows (if Nat.eqb (i mod 100) 0 then qore_check_cancel true else (mret false : M bool))) as Hg.
  { destruct (Nat.eqb (i mod 100) 0); preserves_auto. }
  pose proof (wp_run _ _ _ _ _ (Hq s) Hcan) as Q1. pose proof (wp_run _ _ _ _ _ (Hg s) Hcan) as G1.
  destruct cancelled.
  { assert (xsink s1 ≠ []) as X1.
    { destruct (Nat.eqb (i mod 100) 0); [|done]. apply (wp_follow _ _ _ _ _ Hcan).
      unfold qore_check_cancel. repeat first [wp_step | wp_world]; intros; by subst. }
    wp_step. eapply wp_mono; [|by apply (quiet_force_disconnect s s1)].
    intros ? s2 [? ?]. apply wp_mret. by apply auth_closed. }
  assert (connect_in_progress (cl s1) = true) as Hc1 by by destruct Q1 as [-> _].
  wp_step. eapply wp_mono; [|by apply resolveProviderCandidate_post].
  intros [failed plan] s2 ((Q2 & G2 & X2) & Hplan). cbv beta iota. simpl in X2, Hplan.
  assert (quiet s s2) as Q02 by by transitivity s1. assert (grows s s2) as G02 by by transitivity s1.
  destruct failed; [apply wp_mret; by apply auth_refused, X2|].
  wp_step. eapply wp_mono; [|apply (run_plan_post false run plan s2)].
  2:{ intros a s3 Ha Hr3 _. apply Hrun; [|done]. by eapply Forall_forall in Hplan. }
  2:{ by apply (quiet_registered s). }
  intros [failed loggedin] s3 H3. cbv beta iota.
  apply auth_outcome_weaken, (auth_outcome_lift true s s2) in H3; [|done..].
  destruct failed; [by apply wp_mret|]. destruct loggedin; [by apply wp_mret|].
  assert (quiet s s3 ∧ grows s s3) as [Q3 G3] by by inversion_clear H3.
  eapply wp_mono; [|apply IH].
  - intros r s4. by apply auth_outcome_lift.
  - by apply (quiet_registered s).
  - by destruct Q3 as [-> _].
Qed.

Lemma tryProviderAuth_post to s :
  registered s → connect_in_progress (cl s) = true →
  wp True (tryProviderAuth to) (auth_outcome true s) s.
Proof.
  intros Hr Hc. unfold tryProviderAuth, tryProviderAuth_with. wp_step. wp_world.
  wp_step; [apply wp_mret; by apply auth_rejected|].
  wp_step. eapply wp_mono; [|by apply getProviderCandidates_post].
  intros [l|] s1 (Q1 & G1 & X1); cbv beta iota.
  - eapply wp_mono; [|apply try_candidates_post].
    + intros r s2. by apply auth_outcome_lift.
    + intros a s2. by apply runAuthAttempt_simple.
    + by apply (quiet_registered s).
    + by destruct Q1 as [-> _].
  - apply wp_mret. by apply auth_refused, X1.
Qed.

Lemma runAuthAttempt_post to a s :
  registered s → connect_in_progress (cl s) = true →
  wp True (runAuthAttemptUnlocked to a) (auth_outcome (bool_decide (kind a = PROVIDER)) s) s.
Proof.
  intros Hr Hc. case_bool_decide as Hk.
  - unfold runAuthAttemptUnlocked, runAuthAttempt_with. rewrite Hk. by apply tryProviderAuth_post.
  - by apply runAuthAttempt_simple.
Qed.

Lemma run_auth_plan_post p to plan s :
  (p = false → Forall (λ a, kind a ≠ PROVIDER) plan) →
  registered s → connect_in_progress (cl s) = true →
  wp True (run_plan (runAuthAttemptUnlocked to) plan) (auth_outcome p s) s.
Proof.
  intros Hp Hr Hc. apply run_plan_post; [|done]. intros a s1 Ha Hr1 Hc1. rewrite Hc in Hc1.
  eapply wp_mono; [|by apply runAuthAttempt_post]. intros r s2 H. case_bool_decide as Hk.
  - destruct p; [done|]. specialize (Hp eq_refl). rewrite Forall_forall in Hp. by apply Hp in Ha.
  - destruct p; [by apply auth_outcome_weaken|done].
Qed.
End providers.

(** * Theorems *)

(** ** The plan *)

Section plan.
Context (c : client) (userauthlist : option string).

(** The server offers the method of an attempt. *)
Definition advertised (a : Ssh2AuthAttempt) : Prop :=
  match kind a with
  | PROVIDER => True
  | AGENT | PUBKEY_FILE | PUBKEY_MEMORY => publicKeyAuthAvailable (auth_methods c) = true
  | PASSWORD => ∃ l, userauthlist = Some l ∧ strstr l "password" = true
  | KEYBOARD_INTERACTIVE => ∃ l, userauthlist = Some l ∧ strstr l "keyboard-interactive" = true
  end.

Lemma Forall_push {A} (P : A → Prop) (b : bool) (a : A) :
  (b = true → P a) → Forall P (if b then [a] else []).
Proof. destruct b; intros H; [constructor; [by apply H|constructor]|constructor]. Qed.

Lemma plan_shape {A} (x : A) (a b k f p i : list A) :
  ([] ++ a ++ b ++ [x] ++ k ++ f) ++ p ++ i = (a ++ b) ++ x :: (k ++ f) ++ p ++ i.
Proof. do 3 (simpl; rewrite <- ?app_assoc). done. Qed.

Ltac push_solve :=
  repeat apply Forall_app_2;
  first [ by apply Forall_nil_2
        | apply Forall_push; intros Hb;
          repeat match goal with H : _ && _ = true |- _ => apply andb_true_iff in H as [? ?] end ].

Lemma plan_no_provider :
  client_identity_provider c = None → Forall (λ a, kind a ≠ PROVIDER) (buildAuthPlan c userauthlist).
Proof. intros Hp. unfold buildAuthPlan. rewrite Hp. simpl. push_solve; done. Qed.

(** Only methods the server advertised are attempted, passwords only
    when there is one, and a password never before a key. *)
Theorem plan_only_advertised :
  Forall advertised (buildAuthPlan c userauthlist) ∧
  (sshpass c = EmptyString →
     Forall (λ a, kind a ≠ PASSWORD ∧ kind a ≠ KEYBOARD_INTERACTIVE) (buildAuthPlan c userauthlist)) ∧
  ∃ keys passwords, buildAuthPlan c userauthlist = keys ++ passwords ∧
    Forall (λ a, kind a ≠ PASSWORD ∧ kind a ≠ KEYBOARD_INTERACTIVE) keys ∧
    Forall (λ a, kind a = PASSWORD ∨ kind a = KEYBOARD_INTERACTIVE) passwords.
Proof.
  unfold buildAuthPlan. split_and!.
  - case_bool_decide; push_solve; unfold advertised; simpl; try done;
      destruct userauthlist as [l|]; try done; by exists l.
  - intros Hp. rewrite Hp. simpl. case_bool_decide; push_solve; by split.
  - eexists _, _. split; [reflexivity|]. split.
    + case_bool_decide; push_solve; by split.
    + apply Forall_app_2; apply Forall_push; intros _; [by left|by right].
Qed.

(** C34: With an identity provider and the fallback disabled, no identity of
    the process user is used: no agent, and key files or key data only if the
    caller set them on this client. *)
Theorem plan_no_ambient_identity :
  is_Some (client_identity_provider c) →
  client_identity_fallback_policy c = SSH2_CLIENT_ID_FALLBACK_DISABLED →
  Forall (λ a, kind a ≠ AGENT ∧
    (kind a = PUBKEY_FILE → explicit_key_files c = true ∧ priv_key a = sshkeys_priv c) ∧
    (kind a = PUBKEY_MEMORY → explicit_key_data c = true ∧ priv_key a = sshkeys_priv_data c))
    (buildAuthPlan c userauthlist).
Proof.
  intros Hp Hf. unfold buildAuthPlan. rewrite Hf, bool_decide_eq_true_2 by done. cbn [negb orb].
  rewrite andb_false_r. push_solve; split_and!; simpl; try done.
Qed.

(** The order of a plan with a provider: the provider is asked exactly
    once; first of all with "provider-first", and after nothing but the keys the
    caller set with "explicit-first". *)
Theorem plan_provider_order :
  is_Some (client_identity_provider c) →
  ∃ pre post, buildAuthPlan c userauthlist = pre ++ simple_attempt PROVIDER :: post ∧
    Forall (λ a, kind a ≠ PROVIDER) post ∧
    if client_auth_order c =? SSH2_CLIENT_AUTH_PROVIDER_FIRST then pre = []
    else Forall (λ a, (kind a = PUBKEY_MEMORY ∧ explicit_key_data c = true) ∨
                      (kind a = PUBKEY_FILE ∧ explicit_key_files c = true)) pre.
Proof.
  intros Hp. unfold buildAuthPlan. rewrite bool_decide_eq_true_2 by done.
  destruct (client_auth_order c =? SSH2_CLIENT_AUTH_PROVIDER_FIRST); cbn [negb].
  - eexists [], _. split; [reflexivity|]. split; [|done]. rewrite app_nil_l. push_solve; done.
  - eexists _, _. split; [apply plan_shape|]. split; [push_solve; done|].
    push_solve; simpl; [by left|by right].
Qed.
End plan.

Section theorems.
Context {E : Type} `{!Env E}.

Abbreviation M := (prog (st E)).


(** No candidate of a provider is itself a provider attempt, so the
    mutual recursion of the two functions has depth two, and its unrolling runs the
    same attempts at every depth. *)
Theorem provider_recursion_bounded (to : Z) (v : qval) (failed : bool) (plan : list Ssh2AuthAttempt)
    (inner : M (bool * bool)) (s s' : st E) :
  connect_in_progress (cl s) = true →
  resolveProviderCandidateUnlocked v to s = Some ((failed, plan), s') →
  run_plan (runAuthAttempt_with diverge to) plan s' = run_plan (runAuthAttempt_with inner to) plan s'.
Proof.
  intros Hc Hrun. pose proof (wp_run _ _ _ _ _ (resolveProviderCandidate_post v to s Hc) Hrun) as [_ Hf].
  simpl in Hf. clear -Hf. revert s'. induction Hf as [|a plan Ha _ IH]; intros s'; [done|].
  cbn [run_plan]. unfold mbind, prog_bind.
  assert (runAuthAttempt_with diverge to a = runAuthAttempt_with inner to a) as <-.
  { unfold runAuthAttempt_with. by destruct (kind a). }
  destruct (runAuthAttempt_with diverge to a s') as [[[[] []] s1]|]; done.
Qed.
End theorems.

(** ** Behaviours at concrete inputs, and witnesses *)

Definition release_name (ev : event) : option string :=
  match ev with
  | Ev (QU (agent_disconnect _)) _ => Some "agent_disconnect"%string
  | Ev (QU (agent_free _)) _ => Some "agent_free"%string
  | Ev (QZ (session_free _)) _ => Some "session_free"%string
  | _ => None
  end.

(** An agent with an identity, on a server that never completes the request. *)
Definition stalled_agent_env : Env nat :=
  sim_env (λ _ r, match r with
                  | QS (env_value _) => Some "/tmp/agent"%string
                  | QZ (agent_userauth _ _ _) => LIBSSH2_ERROR_EAGAIN
                  | QZ (socket_asyncIoWait _ _ _) => 0
                  | r' => quiet_ans r'
                  end) 20.

(** The wait for the agent's answer times out: the wait itself disconnects, so the
    session is freed before the agent that was created from it. *)
Theorem agent_released_after_session :
  option_map (λ s, omap release_name (rev (trace s)))
    (final (@tryAgentAuth nat stalled_agent_env 1000) verify_state) =
  Some ["session_free"; "agent_disconnect"; "agent_free"]%string.
Proof. vm_compute. reflexivity. Qed.

Definition provider_client : client :=
  (client0 SFTPClientClass) <| client_identity_provider := Some 9%positive |>
    <| auth_methods := "publickey"%string |> <| sshkeys_priv := "/k"%string |>
    <| sshkeys_pub := "/k.pub"%string |> <| auto_key_files := true |>.

Lemma plan_no_ambient_identity_witness :
  buildAuthPlan provider_client (Some "publickey"%string) = [simple_attempt PROVIDER] ∧
  Forall (λ a, kind a ≠ AGENT ∧
    (kind a = PUBKEY_FILE → explicit_key_files provider_client = true ∧ priv_key a = sshkeys_priv provider_client) ∧
    (kind a = PUBKEY_MEMORY → explicit_key_data provider_client = true ∧ priv_key a = sshkeys_priv_data provider_client))
    (buildAuthPlan provider_client (Some "publickey"%string)).
Proof.
  split; [vm_compute; reflexivity|].
  apply (plan_no_ambient_identity provider_client (Some "publickey"%string)); [by eexists|reflexivity].
Defined.

Lemma plan_provider_order_witness :
  ∃ pre post, buildAuthPlan provider_client (Some "publickey,password"%string) =
    pre ++ simple_attempt PROVIDER :: post ∧ Forall (λ a, kind a ≠ PROVIDER) post.
Proof.
  destruct (plan_provider_order provider_client (Some "publickey,password"%string)) as (pre & post & H1 & H2 & _);
    [by eexists|]. exists pre, post. by split.
Defined.

Definition password_attempt : Ssh2AuthAttempt := simple_attempt PASSWORD.


Definition file_candidate : qval :=
  QHash [("kind"%string, QString "file"); ("path"%string, QString "/id")].

Lemma provider_recursion_bounded_witness :
  ∃ s', @resolveProviderCandidateUnlocked nat quiet_env file_candidate 1000 verify_state =
      Some ((false, [mkAttempt PUBKEY_FILE EmptyString "/id" "secret"]), s') ∧
    run_plan (@runAuthAttempt_with nat quiet_env diverge 1000)
      [mkAttempt PUBKEY_FILE EmptyString "/id" "secret"] s' =
    run_plan (@runAuthAttempt_with nat quiet_env (mret (true, true)) 1000)
      [mkAttempt PUBKEY_FILE EmptyString "/id" "secret"] s'.
Proof.
  eexists. split; [vm_compute; reflexivity|].
  eapply (@provider_recursion_bounded nat quiet_env 1000 file_candidate false
    [mkAttempt PUBKEY_FILE EmptyString "/id" "secret"] (mret (true, true)) verify_state);
    [reflexivity|vm_compute; reflexivity].
Defined.
