(* ===== verification/Connect.v ===== *)
(** Connecting (SSH2Client.cpp): the stages of a connect and their composition in
    [sshConnectUnlocked], and the entry point [sshConnect] with its in-progress flag. *)

From stdpp Require Import sorting.
From S2P Require Import Prelude Modes World Sim Defaults Transport Config HostKey Auth.

(** ** Method types *)

Definition LIBSSH2_METHOD_KEX : Z := 0.
Definition LIBSSH2_METHOD_HOSTKEY : Z := 1.
Definition LIBSSH2_METHOD_CRYPT_CS : Z := 2.
Definition LIBSSH2_METHOD_CRYPT_SC : Z := 3.
Definition LIBSSH2_METHOD_MAC_CS : Z := 4.
Definition LIBSSH2_METHOD_MAC_SC : Z := 5.
Definition LIBSSH2_METHOD_COMP_CS : Z := 6.
Definition LIBSSH2_METHOD_COMP_SC : Z := 7.

(** [method_type_from_string]: [None] when it raises an exception and returns -1. *)
Definition method_type_from_string (method_type : string) : option Z :=
  if str_caseeq method_type "KEX" then Some LIBSSH2_METHOD_KEX
  else if str_caseeq method_type "HOSTKEY" then Some LIBSSH2_METHOD_HOSTKEY
  else if str_caseeq method_type "CRYPT_CS" then Some LIBSSH2_METHOD_CRYPT_CS
  else if str_caseeq method_type "CRYPT_SC" then Some LIBSSH2_METHOD_CRYPT_SC
  else if str_caseeq method_type "MAC_CS" then Some LIBSSH2_METHOD_MAC_CS
  else if str_caseeq method_type "MAC_SC" then Some LIBSSH2_METHOD_MAC_SC
  else if str_caseeq method_type "COMP_CS" then Some LIBSSH2_METHOD_COMP_CS
  else if str_caseeq method_type "COMP_SC" then Some LIBSSH2_METHOD_COMP_SC
  else None.

(** The preferences in the order of a [std::map]. *)
Definition pref_le (a b : Z * string) : Prop := a.1 ≤ b.1.

#[export] Instance pref_le_dec : RelDecision pref_le.
Proof. intros a b. apply Z_le_dec. Defined.

Definition ordered_prefs (prefs : gmap Z string) : list (Z * string) :=
  merge_sort pref_le (map_to_list prefs).

Section connect.
Context {E : Type} `{!Env E}.

Abbreviation M := (prog (st E)).

(** True when the function returns -1, here and below. *)
Definition checkConnectPreconditionsUnlocked : M bool :=
  cancelled ← qore_check_cancel true;
  if cancelled : bool then mret true
  else
    user ← cfield sshuser;
    if str_empty user then
      _ ← raise true "SSH2CLIENT-CONNECT-ERROR";
      mret true
    else
      s ← cfield ssh_session;
      _ ← when (bool_decide (is_Some s)) force_disconnect;
      mret false.

Definition holdSessionDescriptorUnlocked : M bool :=
  let fail : M bool :=
    _ ← raise true "SSH2CLIENT-CONNECT-ERROR";
    mret true in
  fd ← callZ socket_getSocket;
  if fd <? 0 then fail
  else
    rc ← callZ (socket_holdDescriptor fd);
    if negb (rc =? 0) then fail
    else
      _ ← upd (λ c, c <| session_fd_hold := true |>);
      mret false.

Definition prepareSessionUnlocked : M bool :=
  s ← callH session_init;
  _ ← upd (λ c, c <| ssh_session := s |>);
  if bool_decide (s = None) then
    _ ← force_disconnect;
    _ ← raise true "SSH2-ERROR";
    mret true
  else
    c ← gets cl;
    _ ← for_each (ordered_prefs (method_prefs c)) (λ p,
          _ ← callZ (session_method_pref s p.1 p.2); mret tt);
    _ ← when (negb (str_empty (ssh_banner c))) (callU (session_banner_set s (ssh_banner c)));
    _ ← setBlockingUnlocked false;
    mret false.

Definition startupUnlocked : M Z :=
  fd ← callZ socket_getSocket;
  s ← cfield ssh_session;
  callZ (session_handshake s fd).

(** The methods the server advertises; [None] when the wait failed. *)
Definition get_userauth_list (timeout_ms : Z) : M (option (option string)) :=
  loop fuel (λ _ : unit,
    c ← gets cl;
    l ← callS (userauth_list (ssh_session c) (sshuser c));
    match l with
    | Some _ => mret (inr (Some l))
    | None =>
        err ← callZ (session_last_errno (ssh_session c));
        if err =? LIBSSH2_ERROR_EAGAIN then
          failed ← waitSocketUnlocked true "SSH2CLIENT-TIMEOUT" "SSH2-ERROR" timeout_ms;
          if failed : bool then
            _ ← force_disconnect;
            mret (inr None)
          else mret (inl tt)
        else mret (inr (Some None))
    end) tt.

Definition finishConnectUnlocked : M unit :=
  c ← gets cl;
  when (0 <? keepalive_interval c) (callU (keepalive_config (ssh_session c) (keepalive_interval c))).

(** From the advertised methods on. *)
Definition authenticate (timeout_ms : Z) : M bool :=
  userauthlist ← get_userauth_list timeout_ms;
  match userauthlist with
  | None => mret true
  | Some l =>
      plan ← buildAuthPlanUnlocked l;
      '(failed, loggedin) ← run_plan (runAuthAttemptUnlocked timeout_ms) plan;
      if failed : bool then mret true
      else if negb loggedin then
        _ ← force_disconnect;
        _ ← raise true "SSH2CLIENT-AUTH-ERROR";
        mret true
      else
        _ ← setBlockingUnlocked true;
        _ ← finishConnectUnlocked;
        mret false
  end.

(** From the established TCP connection on. *)
Definition establish (timeout_ms : Z) : M bool :=
  failed ← holdSessionDescriptorUnlocked;
  if failed : bool then
    _ ← force_disconnect;
    mret true
  else
    failed ← prepareSessionUnlocked;
    if failed : bool then mret true
    else
      rc ← while_eagain startupUnlocked
             (waitSocketUnlocked true "SSH2CLIENT-TIMEOUT" "SSH2-ERROR" timeout_ms);
      match rc with
      | None =>
          _ ← force_disconnect;
          mret true
      | Some rc =>
          if negb (rc =? 0) then
            _ ← force_disconnect;
            _ ← raise true "SSH2-ERROR";
            mret true
          else
            failed ← verifyHostKeyUnlocked timeout_ms;
            if failed : bool then mret true
            else authenticate timeout_ms
      end.

Definition sshConnectUnlocked (timeout_ms : Z) : M bool :=
  busy ← checkPollOpUnlocked true;
  if busy : bool then mret true
  else
    failed ← checkConnectPreconditionsUnlocked;
    if failed : bool then mret true
    else
      c ← gets cl;
      rc ← callZ (socket_connectINET (sshhost c) (sshport c) timeout_ms);
      if negb (rc =? 0) then
        _ ← raise_exc true ExternalExc;
        mret true
      else establish timeout_ms.

Definition sshConnect (timeout_ms : Z) : M Z :=
  connecting ← cfield connect_in_progress;
  if connecting : bool then
    _ ← raise true "SSH2-CONNECT-IN-PROGRESS";
    mret (-1)
  else
    _ ← upd (λ c, c <| connect_in_progress := true |>);
    failed ← sshConnectUnlocked timeout_ms;
    _ ← upd (λ c, c <| connect_in_progress := false |>);
    mret (if failed : bool then -1 else 0).
End connect.

(** * Facts *)

Section facts.
Context {E : Type} `{!Env E}.

Abbreviation M := (prog (st E)).

(** A stage of a connect that started in [s]: nothing of the configuration has
    changed and no credentials have been sent. *)
Record stage (s s1 : st E) : Prop := {
  stage_registered : registered s1;
  stage_conf : same_conf s s1;
  stage_log : emits no_credentials s s1
}.

Lemma stage_grows s s1 : stage s s1 → grows s s1.
Proof. intros H. eapply emits_grows, H. Qed.

Lemma stage_refl (s : st E) : registered s → stage s s.
Proof. by split. Qed.

(** A step that only makes requests other than authentication requests. *)
Lemma wp_stage_step {A} (m : M A) (Q : A → st E → Prop) (s s1 : st E) :
  stage s s1 → preserves quiet m → preserves (emits no_credentials) m →
  (∀ a s2, stage s s2 → quiet s1 s2 → Q a s2) → wp True m Q s1.
Proof.
  intros [Hr Hc Hl] Hq He HQ. eapply wp_mono; [|apply wp_and; [apply Hq|apply He]].
  intros a s2 [Q2 E2]. apply HQ; [|done]. split.
  - by apply (quiet_registered s1).
  - transitivity s1; [done|by apply quiet_same_conf].
  - by transitivity s1.
Qed.

Lemma wp_stage_disconnect (Q : unit → st E → Prop) (s s1 : st E) :
  stage s s1 → (∀ s2, stage s s2 → closed_from s1 s2 → xsink_grows s1 s2 → Q tt s2) →
  wp True force_disconnect Q s1.
Proof.
  intros [Hr Hc Hl] HQ. eapply wp_mono; [|apply wp_and; [by apply force_disconnect_post|
    assert (preserves (emits no_credentials) (force_disconnect (E:=E))) as He by preserves_auto; apply He]].
  intros [] s2 [[C X] E2]. apply HQ; [|done|done]. pose proof C as (D & R & Hc2 & _). split.
  - done.
  - by transitivity s1.
  - by transitivity s1.
Qed.

Lemma wp_stage_wait (Q : bool → st E → Prop) toerr err to (s s1 : st E) :
  stage s s1 →
  (∀ s2, stage s s2 → closed_from s1 s2 → xsink s2 ≠ [] → Q true s2) →
  (∀ s2, stage s s2 → quiet s1 s2 → Q false s2) →
  wp True (waitSocketUnlocked true toerr err to) Q s1.
Proof.
  intros [Hr Hc Hl] Ht Hf. eapply wp_mono; [|apply wp_and; [by apply waitSocket_post|by apply (waitSocket_emits no_credentials)]].
  intros [] s2 [[H1 H2] H3].
  - pose proof H1 as (D & R & Hc2 & _). apply Ht; [|done|done]. split; [done|by transitivity s1|by transitivity s1].
  - apply Hf; [|done]. split; [by apply (quiet_registered s1)| |by transitivity s1].
    transitivity s1; [done|by apply quiet_same_conf].
Qed.

(** The EAGAIN loop within a stage. *)
Lemma wp_stage_eagain (op : M Z) (Q : option Z → st E → Prop) toerr err to (s s1 : st E) :
  stage s s1 → preserves quiet op → preserves (emits no_credentials) op →
  (∀ s2, stage s s2 → closed_from s1 s2 → xsink s2 ≠ [] → Q None s2) →
  (∀ rc s2, stage s s2 → quiet s1 s2 → Q (Some rc) s2) →
  wp True (while_eagain op (waitSocketUnlocked true toerr err to)) Q s1.
Proof.
  intros Hs Hq He Hn Hsome. pose proof (stage_registered _ _ Hs) as Hr.
  assert (preserves grows op) as Hg.
  { intros s2. eapply wp_mono; [|apply He]. intros a s3 H. exact (emits_grows _ _ _ H). }
  eapply wp_mono; [|apply wp_and; [by apply while_eagain_post|
    apply (preserves_while_eagain (emits no_credentials) op _ He (waitSocket_emits no_credentials _ _ _))]].
  intros [rc|] s2 [H E2]; destruct Hs as [_ Hc Hl].
  - destruct H as (Q2 & G2 & _). apply Hsome; [|done]. split.
    + by apply (quiet_registered s1).
    + transitivity s1; [done|by apply quiet_same_conf].
    + by transitivity s1.
  - destruct H as [C X]. pose proof C as (D & R & Hc2 & _). apply Hn; [|done|done].
    split; [done|by transitivity s1|by transitivity s1].
Qed.

(** ** The stages *)

Lemma stage_connecting s s1 :
  stage s s1 → connect_in_progress (cl s) = true → connect_in_progress (cl s1) = true.
Proof. intros [_ Hc _] H. apply (f_equal connect_in_progress) in Hc. simpl in Hc. congruence. Qed.

Lemma preserves_ordered_prefs (R : relation (st E)) `{!Basic R} sess l :
  preserves R (for_each l (λ p, _ ← callZ (session_method_pref sess p.1 p.2); mret tt)).
Proof. preserves_auto. Qed.

(** An update of fields outside the configuration. *)
Lemma stage_upd (f : client → client) (s s1 : st E) :
  stage s s1 → (∀ c, conf (f c) = conf c) → (∀ c, channel_set (f c) = channel_set c) →
  (∀ c, listener_set (f c) = listener_set c) → stage s (s1 <| cl := f (cl s1) |>).
Proof.
  intros [Hr Hc Hl] H1 H2 H3. split.
  - destruct Hr as [A B C D]. split; simpl; intros id; [rewrite H2|rewrite H3|..]; auto.
  - transitivity s1; [done|]. unfold same_conf. simpl. apply H1.
  - done.
Qed.

(** The states a stage of the connect ends in when it fails: closed, or as [s]
    with nothing but requests made. *)
Definition stage_failed (s s2 : st E) : Prop :=
  stage s s2 ∧ xsink s2 ≠ [] ∧ ssh_session (cl s2) = None.

Lemma stage_failed_closed (s s1 s2 : st E) : stage s s2 → closed_from s1 s2 → xsink s2 ≠ [] → stage_failed s s2.
Proof. intros H (D & _) X. split_and!; [done|done|apply D]. Qed.

Lemma stage_frame_xsink (s s1 : st E) e : stage s s1 → stage s (s1 <| xsink := e :: xsink s1 |>).
Proof.
  intros [Hr Hc Hl]. split.
  - by apply (quiet_registered s1); [apply frame_xsink|].
  - done.
  - done.
Qed.

Lemma wp_close_and_raise err (s s1 : st E) :
  stage s s1 →
  wp True (_ ← force_disconnect; _ ← raise true err; mret true)
    (λ failed s2, failed = true ∧ stage_failed s s2) s1.
Proof.
  intros Hs. wp_step. apply (wp_stage_disconnect _ s s1); [done|]. intros s2 Hs2 (D & _) _. wp_step. wp_world.
  apply wp_mret. split; [done|]. split_and!; [by apply stage_frame_xsink|done|apply D].
Qed.

Lemma wp_close_failed (s s1 : st E) :
  stage s s1 → xsink s1 ≠ [] →
  wp True (_ ← force_disconnect; mret true) (λ failed s2, failed = true ∧ stage_failed s s2) s1.
Proof.
  intros Hs Hx. wp_step. apply (wp_stage_disconnect _ s s1); [done|]. intros s2 Hs2 (D & _) X.
  apply wp_mret. split; [done|]. split_and!; [done| |apply D]. by eapply xsink_grows_nonempty.
Qed.

Lemma checkConnectPreconditions_post s :
  registered s →
  wp True checkConnectPreconditionsUnlocked
    (λ failed s1, stage s s1 ∧
       if failed then quiet s s1 ∧ xsink s1 ≠ []
       else ssh_session (cl s1) = None ∧ sshuser (cl s1) ≠ EmptyString) s.
Proof.
  intros Hr. unfold checkConnectPreconditionsUnlocked, qore_check_cancel. wp_step. wp_step. wp_world.
  set (s1 := logged s _ _).
  assert (stage s s1) as H1.
  { split; [by apply (quiet_registered s); [apply frame_logged|]|done|]. by exists [Ev (QB check_cancel) a]; split; [|repeat constructor]. }
  wp_step. destruct a; cbn [when].
  - wp_world. wp_step. wp_step. split; [by apply stage_frame_xsink|]. split; [|done].
    transitivity s1; [apply frame_logged|apply frame_xsink].
  - wp_step. wp_step. wp_step. wp_world. wp_step.
    + wp_step. wp_world. wp_step. split; [by apply stage_frame_xsink|]. split; [|done].
      transitivity s1; [apply frame_logged|apply frame_xsink].
    + apply str_empty_false in Heqb. wp_step. wp_world. wp_step. wp_step.
      * apply (wp_stage_disconnect _ s s1); [done|]. intros s2 H2 C2 _. wp_step. split; [done|].
        pose proof C2 as (D & _ & Hc & _). split; [apply D|].
        apply (f_equal sshuser) in Hc. simpl in Hc. by rewrite Hc.
      * match goal with Hb : bool_decide _ = false |- _ => apply bool_decide_eq_false, eq_None_not_Some in Hb end.
        wp_step. split; [done|]. by split.
Qed.

Lemma holdSessionDescriptor_post s s1 :
  stage s s1 →
  wp True holdSessionDescriptorUnlocked
    (λ failed s2, stage s s2 ∧ if failed then xsink s2 ≠ [] else session_fd_hold (cl s2) = true) s1.
Proof.
  intros Hs. unfold holdSessionDescriptorUnlocked.
  wp_step. apply (wp_stage_step _ _ s s1); [done|preserves_auto|preserves_auto|]. intros fd s2 H2 _.
  wp_step; [wp_step; wp_world; wp_step; split; [by apply stage_frame_xsink|done]|].
  wp_step. apply (wp_stage_step _ _ s s2); [done|preserves_auto|preserves_auto|]. intros rc s3 H3 _.
  wp_step; [wp_step; wp_world; wp_step; split; [by apply stage_frame_xsink|done]|].
  wp_step. wp_world. wp_step. split; [|done].
  by apply (stage_upd (λ c, c <| session_fd_hold := true |>)).
Qed.

Lemma prepareSession_post s s1 :
  stage s s1 →
  wp True prepareSessionUnlocked
    (λ failed s2, if failed then stage_failed s s2
                  else stage s s2 ∧ is_Some (ssh_session (cl s2)) ∧
                       session_fd_hold (cl s2) = session_fd_hold (cl s1)) s1.
Proof.
  intros Hs. unfold prepareSessionUnlocked.
  wp_step. apply (wp_stage_step _ _ s s1); [done|preserves_auto|preserves_auto|]. intros sess s2 H2 Q2.
  wp_step. wp_world. set (s3 := s2 <| cl := _ |>).
  assert (stage s s3) as H3 by by apply (stage_upd (λ c, c <| ssh_session := sess |>)).
  wp_step.
  - eapply wp_mono; [|by apply (wp_close_and_raise "SSH2-ERROR" s s3)]. by intros failed s4 [-> H4].
  - wp_step. wp_step. wp_step.
    apply (wp_stage_step _ _ s s3); [done|preserves_auto|preserves_auto|]. intros ? s4 H4 Q4.
    wp_step. apply (wp_stage_step _ _ s s4); [done|preserves_auto|preserves_auto|]. intros ? s5 H5 Q5.
    wp_step. apply (wp_stage_step _ _ s s5); [done|preserves_auto|preserves_auto|]. intros ? s6 H6 Q6.
    wp_step. split; [done|].
    assert (cl s6 = cl s3) as ->.
    { destruct Q4 as [Q4 _], Q5 as [Q5 _], Q6 as [Q6 _]. congruence. }
    destruct Q2 as [Q2 _]. subst s3. simpl. rewrite Q2. split; [|done].
    match goal with Hb : bool_decide _ = false |- _ => apply bool_decide_eq_false in Hb end.
    by destruct sess; [eexists|].
Qed.

(** ** The result of a connect *)

(** The configuration; the list of advertised methods is a connect's own. *)
Definition same_settings (s s' : st E) : Prop :=
  (conf (cl s')) <| auth_methods := EmptyString |> = (conf (cl s)) <| auth_methods := EmptyString |>.

Lemma same_conf_settings (s s' : st E) : same_conf s s' → same_settings s s'.
Proof. unfold same_conf, same_settings. by intros ->. Qed.

Lemma same_settings_trans (s s1 s' : st E) : same_settings s s1 → same_settings s1 s' → same_settings s s'.
Proof. unfold same_settings. congruence. Qed.

(** No credentials have been sent, or they were sent after the host key of this
    very session was accepted. *)
Definition credentials_verified (s s' : st E) : Prop :=
  emits no_credentials s s' ∨
  ∃ s0 s1, stage s s0 ∧ emits no_credentials s s1 ∧ grows s0 s1 ∧ grows s1 s' ∧
    (verify_host_key (cl s) = true → host_key_accepted (cl s0) s0 s1).

(** A successful connect: a session whose descriptor is held, and a login that the
    server granted. *)
Definition connected (s s' : st E) : Prop :=
  is_Some (ssh_session (cl s')) ∧ session_fd_hold (cl s') = true ∧
  is_Some (sshauthenticatedwith (cl s')) ∧
  ∃ c, sends_credentials (QZ c) = true ∧ new s s' (Ev (QZ c) 0).

(** A failed connect: an exception, and no session - unless an identity provider
    was consulted. *)
Definition not_connected (s s' : st E) : Prop :=
  xsink s' ≠ [] ∧ (ssh_session (cl s') = None ∨ is_Some (client_identity_provider (cl s))).

Definition connect_result (s : st E) (failed : bool) (s' : st E) : Prop :=
  registered s' ∧ same_settings s s' ∧ credentials_verified s s' ∧
  (if failed then not_connected s s' else connected s s').

Lemma stage_failed_result (s s' : st E) : stage_failed s s' → connect_result s true s'.
Proof.
  intros ([Hr Hc Hl] & Hx & Hs). split_and!; [done|by apply same_conf_settings|by left|].
  split; [done|by left].
Qed.

(** The advertised methods: a failed wait has closed the connection. *)
Lemma get_userauth_list_post to s s1 :
  stage s s1 →
  wp True (get_userauth_list to)
    (λ r s2, match r with
             | None => stage_failed s s2
             | Some _ => stage s s2 ∧ quiet s1 s2
             end) s1.
Proof.
  intros Hs. unfold get_userauth_list. apply (wp_loop (λ _ s2, stage s s2 ∧ quiet s1 s2)); [|by split].
  intros _ s2 [H2 Q2]. wp_step. wp_step. wp_step.
  apply (wp_stage_step _ _ s s2); [done|preserves_auto|preserves_auto|]. intros l s3 H3 Q3.
  assert (quiet s1 s3) as Q13 by by transitivity s2.
  destruct l as [l|]; [by apply wp_mret|].
  wp_step. apply (wp_stage_step _ _ s s3); [done|preserves_auto|preserves_auto|]. intros e s4 H4 Q4.
  assert (quiet s1 s4) as Q14 by by transitivity s3.
  wp_step; [|by apply wp_mret].
  wp_step. apply (wp_stage_wait _ _ _ _ s s4); [done| |].
  - intros s5 H5 C5 X5. wp_step. apply (wp_stage_disconnect _ s s5); [done|]. intros s6 H6 (D & _) X6.
    apply wp_mret. split_and!; [done|by eapply xsink_grows_nonempty|apply D].
  - intros s5 H5 Q5. apply wp_mret. split; [done|by transitivity s4].
Qed.

(** From an accepted host key on. *)
Definition keyed (s s0 s1 : st E) : Prop :=
  stage s s0 ∧ stage s s1 ∧ grows s0 s1 ∧
  (verify_host_key (cl s) = true → host_key_accepted (cl s0) s0 s1) ∧
  is_Some (ssh_session (cl s1)) ∧ session_fd_hold (cl s1) = true.

Lemma keyed_credentials (s s0 s1 s' : st E) : keyed s s0 s1 → grows s1 s' → credentials_verified s s'.
Proof.
  intros (H0 & H1 & G & Ha & _) G'. right. exists s0, s1. split_and!; [done|apply H1|done..].
Qed.

Lemma preserves_finishConnect (R : relation (st E)) `{!Basic R} : preserves R finishConnectUnlocked.
Proof. unfold finishConnectUnlocked. preserves_auto. Qed.

(** A login within a keyed stage. *)
Lemma logged_in_result (s s0 s1 s2 s3 s' : st E) :
  keyed s s0 s1 → stage s s2 → grows s1 s2 → quiet s1 s2 →
  s3 = s2 <| cl := (cl s2) <| auth_methods := auth_methods (cl s3) |> |> →
  logged_in s3 s' → connect_result s false s'.
Proof.
  intros Hk H2 G2 Q2 E3 (c & m & Hc & Hn & G & Q).
  assert (registered s3) as R3.
  { rewrite E3. destruct (stage_registered _ _ H2) as [A B C D]. by split. }
  assert (grows s2 s3) as G23 by (rewrite E3; by exists []).
  pose proof Hk as (H0 & H1 & G1 & Ha & Hsess & Hhold).
  assert (Hcl : cl s' = (cl s2) <| auth_methods := auth_methods (cl s3) |> <| sshauthenticatedwith := Some m |>).
  { destruct Q as [-> _]. simpl. by rewrite E3. }
  split_and!.
  - apply (quiet_registered (s3 <| cl := (cl s3) <| sshauthenticatedwith := Some m |> |>)); [done|].
    destruct R3 as [A B C D]. by split.
  - unfold same_settings. rewrite Hcl. apply (same_conf_settings s s2), (stage_conf _ _ H2).
  - eapply keyed_credentials; [exact Hk|]. transitivity s2; [done|]. by transitivity s3.
  - unfold connected. rewrite Hcl. simpl. destruct Q2 as [Q2 _]. rewrite Q2. split_and!; [done..|by eexists|].
    exists c. split; [done|]. eapply new_weaken; [|exact Hn]. transitivity s2; [by apply stage_grows|done].
Qed.

(** No attempt succeeded. *)
Lemma not_logged_in_result (s s0 s1 s4 : st E) :
  keyed s s0 s1 → grows s1 s4 → registered s4 → same_settings s s4 →
  wp True (_ ← force_disconnect; _ ← raise true "SSH2CLIENT-AUTH-ERROR"; mret true) (connect_result s) s4.
Proof.
  intros Hk G4 R4 C4. wp_step.
  eapply wp_mono; [|apply wp_and; [by apply force_disconnect_post|
    assert (preserves grows (force_disconnect (E:=E))) as Hg by preserves_auto; apply Hg]].
  intros ? s5 [[(D & R & Hcf & _) X] G5]. cbv beta. wp_step. wp_world. wp_step. split_and!.
  - by apply (quiet_registered s5); [apply frame_xsink|].
  - apply (same_settings_trans s s4); [done|]. by apply same_conf_settings.
  - eapply keyed_credentials; [exact Hk|]. transitivity s4; [done|]. transitivity s5; [done|apply frame_xsink].
  - split; [done|]. left. apply D.
Qed.

Lemma authenticate_post to s s0 s1 :
  connect_in_progress (cl s) = true → keyed s s0 s1 →
  wp True (authenticate to) (connect_result s) s1.
Proof.
  intros Hc Hk. unfold authenticate. pose proof Hk as (H0 & H1 & G1 & Ha & Hsess & Hhold).
  wp_step. apply wp_intro. intros l s2 Hrun.
  assert (grows s1 s2) as G2.
  { assert (preserves grows (get_userauth_list (E:=E) to)) as Hg.
    { unfold get_userauth_list. preserves_auto. }
    apply (wp_run _ _ _ _ _ (Hg s1) Hrun). }
  pose proof (wp_run _ _ _ _ _ (get_userauth_list_post to s s1 H1) Hrun) as H2.
  destruct l as [l|]; [|apply wp_mret; by apply stage_failed_result]. destruct H2 as [H2 Q2].
  unfold buildAuthPlanUnlocked. wp_step. wp_step. wp_world. wp_step. wp_step. wp_step.
  set (s3 := s2 <| cl := _ |>).
  assert (registered s3) as R3 by (destruct (stage_registered _ _ H2) as [A B C D]; by split).
  assert (same_settings s s3) as C3 by apply (same_conf_settings s s2), (stage_conf _ _ H2).
  assert (client_identity_provider (cl s3) = client_identity_provider (cl s)) as Hprov.
  { pose proof (f_equal client_identity_provider (stage_conf _ _ H2)) as Hp. exact Hp. }
  wp_step. eapply wp_mono; [|apply (run_auth_plan_post (bool_decide (is_Some (client_identity_provider (cl s3))))); [|done|]].
  3:{ apply (stage_connecting s s2); done. }
  2:{ intros Hp. apply bool_decide_eq_false, eq_None_not_Some in Hp. by apply plan_no_provider. }
  intros [failed loggedin] s4 H4. cbv beta iota. inversion H4 as [? Q G|? Hlog|? C X|? Hp Q G X]; subst.
  - apply (not_logged_in_result s s0 s1); [done| |by apply (quiet_registered s3)|].
    + transitivity s2; [done|exact G].
    + apply (same_settings_trans s s3); [done|by apply same_conf_settings, quiet_same_conf].
  - cbn [negb]. wp_step.
    eapply wp_mono; [|apply wp_and; [apply (preserves_setBlocking quiet)|apply (preserves_setBlocking grows)]].
    intros ? s5 [Q5 G5]. cbv beta. wp_step.
    eapply wp_mono; [|apply wp_and; [apply (preserves_finishConnect quiet)|apply (preserves_finishConnect grows)]].
    intros ? s6 [Q6 G6]. cbv beta. apply wp_mret.
    eapply (logged_in_result s s0 s1 s2 s3); [done|done|done|done|done|].
    apply (logged_in_after s3 s4); [done|by transitivity s5|by transitivity s5].
  - apply wp_mret. pose proof C as (D & R & Hcf & G & _). split_and!; [done| | |].
    + apply (same_settings_trans s s3); [done|by apply same_conf_settings].
    + eapply keyed_credentials; [exact Hk|]. transitivity s2; [done|]. exact G.
    + split; [done|]. left. apply D.
  - apply wp_mret. split_and!; [by apply (quiet_registered s3)| | |].
    + apply (same_settings_trans s s3); [done|by apply same_conf_settings, quiet_same_conf].
    + eapply keyed_credentials; [exact Hk|]. transitivity s2; [done|]. exact G.
    + split; [done|]. right. rewrite <- Hprov. by apply bool_decide_eq_true_1 in Hp.
Qed.

Lemma establish_post to s s1 :
  connect_in_progress (cl s) = true → stage s s1 → wp True (establish to) (connect_result s) s1.
Proof.
  intros Hc H1. unfold establish. wp_step. eapply wp_mono; [|by apply (holdSessionDescriptor_post s)].
  intros [] s2 [H2 X2]; cbv beta.
  { eapply wp_mono; [|by apply (wp_close_failed s s2)]. intros b s3 [-> H3]. by apply stage_failed_result. }
  wp_step. eapply wp_mono; [|by apply (prepareSession_post s)].
  intros [] s3 H3; cbv beta; [apply wp_mret; by apply stage_failed_result|]. destruct H3 as (H3 & Hsess & Hhold).
  wp_step. apply (wp_stage_eagain _ _ _ _ _ s s3); [done|unfold startupUnlocked; preserves_auto..| |].
  { intros s4 H4 C4 X4. eapply wp_mono; [|by apply (wp_close_failed s s4)].
    intros b s5 [-> H5]. by apply stage_failed_result. }
  intros rc s4 H4 Q4. wp_step.
  { eapply wp_mono; [|by apply (wp_close_and_raise "SSH2-ERROR" s s4)].
    intros b s5 [-> H5]. by apply stage_failed_result. }
  wp_step. apply wp_intro. intros failed s5 Hrun.
  pose proof (wp_run _ _ _ _ _ (verifyHostKey_post to s4 (stage_registered _ _ H4) (stage_connecting _ _ H4 Hc)) Hrun) as H5.
  pose proof (wp_run _ _ _ _ _ (verifyHostKey_no_credentials to s4) Hrun) as E5.
  destruct H4 as [R4 C4 L4]. destruct failed.
  - destruct H5 as [(D & R & Hcf & _) X5]. apply wp_mret, stage_failed_result. split_and!; [|done|apply D].
    split; [done|by transitivity s4|by transitivity s4].
  - destruct H5 as (Q5 & G5 & Ha). apply (authenticate_post to s s4 s5); [done|].
    assert (stage s s5) as H5.
    { split; [by apply (quiet_registered s4)| |by transitivity s4].
      transitivity s4; [done|by apply quiet_same_conf]. }
    assert (cl s5 = cl s3) as Hcl.
    { destruct Q5 as [-> _]. by destruct Q4 as [-> _]. }
    split_and!; [done|done|done| |by rewrite Hcl|by rewrite Hcl, Hhold].
    intros Hv. apply Ha. apply (f_equal verify_host_key) in C4. simpl in C4. congruence.
Qed.

(** What a connect may end with, seen from its caller: it may also have been
    refused before it started. *)
Definition connect_outcome (s : st E) (failed : bool) (s' : st E) : Prop :=
  connect_result s failed s' ∨ (failed = true ∧ quiet s s' ∧ emits no_credentials s s' ∧ xsink s' ≠ []).

Lemma sshConnectUnlocked_post to s :
  registered s → connect_in_progress (cl s) = true →
  wp True (sshConnectUnlocked to) (connect_outcome s) s.
Proof.
  intros Hr Hc. unfold sshConnectUnlocked, checkPollOpUnlocked. wp_step. wp_step. wp_world. wp_step.
  destruct (poll_op_in_progress (cl s)); cbn [when].
  { wp_world. wp_step. wp_step. right. split_and!; [done|apply frame_xsink|by exists []|done]. }
  wp_step. wp_step. wp_step. eapply wp_mono; [|by apply checkConnectPreconditions_post].
  intros [] s1 [H1 X1]; cbv beta.
  { apply wp_mret. right. destruct X1. split_and!; [done|done|apply H1|done]. }
  wp_step. wp_step. wp_step. apply (wp_stage_step _ _ s s1); [done|preserves_auto|preserves_auto|].
  intros rc s2 H2 Q2. wp_step.
  - wp_step. wp_world. wp_step. left. apply stage_failed_result. split_and!; [by apply stage_frame_xsink|done|].
    simpl. destruct Q2 as [-> _]. apply X1.
  - eapply wp_mono; [|by apply establish_post]. intros failed s3 H3. by left.
Qed.
End facts.

(** * Theorems *)

Section theorems.
Context {E : Type} `{!Env E}.

Abbreviation M := (prog (st E)).

(** The state in which the stages of a connect run, and the state after them. *)
Definition connecting (s : st E) : st E := s <| cl := (cl s) <| connect_in_progress := true |> |>.
Definition idle (s : st E) : st E := s <| cl := (cl s) <| connect_in_progress := false |> |>.

Lemma sshConnect_run to (s s' : st E) rc :
  registered s → connect_in_progress (cl s) = false → sshConnect to s = Some (rc, s') →
  ∃ failed s1, s' = idle s1 ∧ rc = (if failed : bool then -1 else 0) ∧
    connect_outcome (connecting s) failed s1.
Proof.
  intros Hr Hc Hrun. apply (wp_follow _ _ _ _ _ Hrun). unfold sshConnect.
  wp_step. wp_world. rewrite Hc. wp_step. wp_world. wp_step.
  eapply wp_mono; [|apply sshConnectUnlocked_post; [destruct Hr as [A B C D]; by split|done]].
  intros failed s1 H1. cbv beta. wp_step. wp_world. apply wp_mret. intros <- <-.
  by exists failed, s1.
Qed.


(** C22: A connect that reports success has an authenticated session whose
    descriptor is held, and the server granted the login. *)
Theorem connect_success_sound (to : Z) (s s' : st E) :
  registered s → connect_in_progress (cl s) = false → sshConnect to s = Some (0, s') →
  is_Some (ssh_session (cl s')) ∧ session_fd_hold (cl s') = true ∧
  is_Some (sshauthenticatedwith (cl s')) ∧
  ∃ c, sends_credentials (QZ c) = true ∧ new s s' (Ev (QZ c) 0).
Proof.
  intros Hr Hc Hrun. destruct (sshConnect_run _ _ _ _ Hr Hc Hrun) as (failed & s1 & -> & Hrc & Ho).
  destruct failed; [done|]. destruct Ho as [(_ & _ & _ & H)|(? & _)]; [exact H|done].
Qed.

(** C23: A connect that fails reports an exception; the connection is closed,
    unless the connect was refused before it touched it or an identity provider is
    configured. *)
Theorem connect_failure_closed (to rc : Z) (s s' : st E) :
  registered s → connect_in_progress (cl s) = false → sshConnect to s = Some (rc, s') → rc ≠ 0 →
  rc = -1 ∧ xsink s' ≠ [] ∧
  (ssh_session (cl s') = None ∨ cl s' = cl s ∨ is_Some (client_identity_provider (cl s))).
Proof.
  intros Hr Hc Hrun Hne. destruct (sshConnect_run _ _ _ _ Hr Hc Hrun) as (failed & s1 & -> & -> & Ho).
  destruct failed; [|done]. split; [done|].
  destruct Ho as [(_ & _ & _ & X & H)|(_ & Q & _ & X)]; (split; [exact X|]).
  - destruct H as [H|H]; [by left|by right; right].
  - right; left. destruct Q as [Hcl _]. unfold idle. simpl. rewrite Hcl. simpl. rewrite <- Hc. by destruct (cl s).
Qed.

(** Whatever happens, a connect leaves the configuration of the client
    as it was, clears its in-progress mark, and keeps the registries exact. *)
Theorem connect_keeps_settings (to rc : Z) (s s' : st E) :
  registered s → connect_in_progress (cl s) = false → sshConnect to s = Some (rc, s') →
  registered s' ∧ same_settings s s' ∧ connect_in_progress (cl s') = false.
Proof.
  intros Hr Hc Hrun. destruct (sshConnect_run _ _ _ _ Hr Hc Hrun) as (failed & s1 & -> & _ & Ho).
  assert (registered s1 ∧ same_settings (connecting s) s1) as [H1 H2].
  { destruct Ho as [(? & ? & _)|(_ & Q & _)]; [done|]. split.
    - apply (quiet_registered (connecting s)); [done|]. destruct Hr as [A B C D]. by split.
    - by apply same_conf_settings, quiet_same_conf. }
  split_and!; [destruct H1 as [A B C D]; by split| |done].
  unfold same_settings in *. simpl in *.
  pose proof (f_equal (λ c, c <| connect_in_progress := false |>) H2) as H3. simpl in H3.
  etransitivity; [exact H3|]. clear -Hc. destruct (cl s). simpl in Hc. by subst.
Qed.

(** A second connect on the same object while one is in progress is
    refused and changes nothing but the exceptions. *)
Theorem connect_reentry_refused (to : Z) (s : st E) :
  connect_in_progress (cl s) = true →
  sshConnect to s = Some (-1, s <| xsink := Exc "SSH2-CONNECT-IN-PROGRESS" NoDetail :: xsink s |>).
Proof. intros Hc. unfold sshConnect, cfield, mbind, prog_bind, gets. by rewrite Hc. Qed.
End theorems.

(** Method types round-trip: each name is recognised in any case, and the numbers
    are those of distinct methods. *)
Theorem method_type_case_insensitive (name name' : string) :
  str_caseeq name name' = true → method_type_from_string name = method_type_from_string name'.
Proof.
  unfold str_caseeq. intros H%String.eqb_eq. unfold method_type_from_string, str_caseeq. by rewrite H.
Qed.

(** ** Behaviours at concrete inputs, and witnesses *)

Definition idle_state (k : client_class) : st nat := state0 (client0 k).

(** A server of an unknown host that accepts the password. *)
Definition first_use_env : Env nat := connect_env LIBSSH2_KNOWNHOST_CHECK_NOTFOUND.


Lemma connect_success_sound_witness :
  ∃ s', @sshConnect nat first_use_env 1000 (idle_state SSH2ClientClass) = Some (0, s') ∧
    is_Some (ssh_session (cl s')).
Proof.
  destruct (@sshConnect nat first_use_env 1000 (idle_state SSH2ClientClass)) as [[rc s']|] eqn:Hrun;
    [|vm_compute in Hrun; discriminate].
  assert (rc = 0) as -> by (vm_compute in Hrun; by injection Hrun as <- _).
  exists s'. split; [done|].
  exact (proj1 (@connect_success_sound nat first_use_env 1000 _ s' (registered_state0 SSH2ClientClass) eq_refl Hrun)).
Defined.

(** A server whose key has changed. *)
Definition mismatch_env : Env nat := connect_env LIBSSH2_KNOWNHOST_CHECK_MISMATCH.

Lemma connect_failure_closed_witness :
  ∃ s', @sshConnect nat mismatch_env 1000 (idle_state SSH2ClientClass) = Some (-1, s') ∧
    xsink s' ≠ [] ∧
    (ssh_session (cl s') = None ∨ cl s' = client0 SSH2ClientClass ∨
     is_Some (client_identity_provider (client0 SSH2ClientClass))).
Proof.
  destruct (@sshConnect nat mismatch_env 1000 (idle_state SSH2ClientClass)) as [[rc s']|] eqn:Hrun;
    [|vm_compute in Hrun; discriminate].
  assert (rc = -1) as -> by (vm_compute in Hrun; by injection Hrun as <- _).
  exists s'. split; [done|].
  exact (proj2 (@connect_failure_closed nat mismatch_env 1000 (-1) _ s' (registered_state0 SSH2ClientClass)
    eq_refl Hrun ltac:(discriminate))).
Defined.

Lemma connect_keeps_settings_witness :
  ∃ s', @sshConnect nat mismatch_env 1000 (idle_state SSH2ClientClass) = Some (-1, s') ∧
    registered s' ∧ same_settings (idle_state SSH2ClientClass) s' ∧ connect_in_progress (cl s') = false.
Proof.
  destruct (@sshConnect nat mismatch_env 1000 (idle_state SSH2ClientClass)) as [[rc s']|] eqn:Hrun;
    [|vm_compute in Hrun; discriminate].
  pose proof (@connect_keeps_settings nat mismatch_env 1000 rc _ s' (registered_state0 SSH2ClientClass)
    eq_refl Hrun) as H.
  assert (rc = -1) as -> by (vm_compute in Hrun; by injection Hrun as <- _).
  exists s'. split; [done|exact H].
Defined.

Lemma connect_reentry_refused_witness :
  @sshConnect nat quiet_env 1000 connecting_state =
  Some (-1, connecting_state <| xsink := [Exc "SSH2-CONNECT-IN-PROGRESS" NoDetail] |>).
Proof. exact (@connect_reentry_refused nat quiet_env 1000 connecting_state eq_refl). Defined.

Lemma method_type_case_insensitive_witness :
  str_caseeq "crypt_cs" "CRYPT_CS" = true ∧
  method_type_from_string "crypt_cs" = method_type_from_string "CRYPT_CS".
Proof. split; [reflexivity|]. apply method_type_case_insensitive. reflexivity. Defined.

(** An identity provider that raises an exception: the connect reports failure, but
    the session stays open, and the client counts as connected. *)
Definition provider_error_env : Env nat :=
  sim_env (λ _ r, match r with
                  | eval_method _ _ _ => ([], None)
                  | r' => quiet_ans r'
                  end) 20.

Theorem provider_error_leaves_session :
  let s := state0 ((client0 SSH2ClientClass) <| client_identity_provider := Some 9%positive |>) in
  option_map (λ '(rc, s'), (rc, xsink s', ssh_session (cl s'), result (@sshConnectedUnlocked nat provider_error_env) s'))
    (@sshConnect nat provider_error_env 1000 s) =
  Some (-1, [Exc "SSH2-CLIENT-IDENTITY-PROVIDER-ERROR" NoDetail], Some 1%positive, Some true).
Proof. vm_compute. reflexivity. Qed.
