(* ===== verification/Channel.v ===== *)
(** Channels and listeners (SSH2Channel.cpp, SSH2Listener.cpp, and the open, listen
    and SCP functions of SSH2Client.cpp): opening a channel, the requests on it,
    reading, writing, and SCP transfers over streams. *)

From S2P Require Import Prelude Modes World Sim Defaults Transport Config HostKey.

Definition SSH2CHANNEL_TIMEOUT : string := "SSH2CHANNEL-TIMEOUT".
Definition LIBSSH2_CHANNEL_EXTENDED_DATA_NORMAL : Z := 0.
Definition LIBSSH2_CHANNEL_EXTENDED_DATA_IGNORE : Z := 1.
Definition LIBSSH2_CHANNEL_EXTENDED_DATA_MERGE : Z := 2.

Section channel.
Context {E : Type} `{!Env E}.

Abbreviation M := (prog (st E)).

(** ** Opening channels and listeners *)

(** The loop that opens a channel or listener: [None] with an exception raised. *)
Definition open_loop (open : M ptr) (toerr err : string) (timeout_ms : Z) : M ptr :=
  loop fuel (λ _ : unit,
    c ← open;
    if bool_decide (is_Some c) then mret (inr c)
    else
      s ← cfield ssh_session;
      e ← callZ (session_last_errno s);
      if e =? LIBSSH2_ERROR_EAGAIN then
        failed ← waitSocketUnlocked true toerr err timeout_ms;
        mret (if failed : bool then inr None else inl tt)
      else
        _ ← doSessionErrUnlocked;
        mret (inr None)) tt.

(** A guarded open: the object number of the new channel, or [None]. *)
Definition open_channel (mk : ptr → hcall) (err : string) (timeout_ms : Z) : M (option positive) :=
  connected ← sshConnectedUnlocked;
  if negb connected then
    _ ← raise true "SSH2CLIENT-NOT-CONNECTED";
    mret None
  else
    with_blocking_helper (
      c ← open_loop (s ← cfield ssh_session; callH (mk s)) "SSH2CLIENT-TIMEOUT" err timeout_ms;
      match c with
      | None => mret None
      | Some _ => id ← registerChannelUnlockedRaw c; mret (Some id)
      end).

Definition openSessionChannel (timeout_ms : Z) : M (option positive) :=
  open_channel channel_open_session "SSH2CLIENT-OPENSESSIONCHANNEL-ERROR" timeout_ms.

Definition openDirectTcpipChannel (host : string) (port : Z) (shost : string) (sport timeout_ms : Z) :
    M (option positive) :=
  denied ← ssh2_check_tunnel_destination host port;
  if denied : bool then mret None
  else open_channel (λ s, channel_direct_tcpip s host port shost sport)
         "SSH2CLIENT-OPENDIRECTTCPIPCHANNEL-ERROR" timeout_ms.

Definition openDirectStreamLocalChannel (socket_path shost : string) (sport timeout_ms : Z) :
    M (option positive) :=
  denied ← ssh2_check_unix_socket_access socket_path false true;
  if denied : bool then mret None
  else open_channel (λ s, channel_direct_streamlocal s socket_path shost sport)
         "SSH2CLIENT-OPENDIRECTSTREAMLOCALCHANNEL-ERROR" timeout_ms.

Definition scpGetChannel (path : string) (timeout_ms : Z) : M (option positive) :=
  open_channel (λ s, scp_recv2 s path) "SSH2CLIENT-SCPGET-ERROR" timeout_ms.

Definition scpPutChannel (path : string) (size mode mtime atime timeout_ms : Z) : M (option positive) :=
  open_channel (λ s, scp_send64 s path mode size mtime atime) "SSH2CLIENT-SCPPUT-ERROR" timeout_ms.

(** The bound port is a second result of the request. *)
Definition forwardListen (host : string) (port queue_maxsize bound_port timeout_ms : Z) : M (option positive) :=
  connected ← sshConnectedUnlocked;
  if negb connected then
    _ ← raise true "SSH2CLIENT-NOT-CONNECTED";
    mret None
  else
    with_blocking_helper (
      l ← open_loop (s ← cfield ssh_session; callH (channel_forward_listen s host port queue_maxsize))
            "SSH2CLIENT-TIMEOUT" "SSH2CLIENT-FORWARDLISTEN-ERROR" timeout_ms;
      match l with
      | None => mret None
      | Some _ => id ← registerListenerUnlocked l bound_port; mret (Some id)
      end).

(** [SSH2Listener::accept] *)
Definition accept (id : positive) (timeout_ms : Z) : M (option positive) :=
  l ← get_lst id;
  if bool_decide (l = None) then
    _ ← raise true "SSH2LISTENER-ERROR";
    mret None
  else
    connected ← sshConnectedUnlocked;
    if negb connected then
      _ ← raise true "SSH2LISTENER-ERROR";
      mret None
    else
      with_blocking_helper (
        c ← open_loop (l ← get_lst id; callH (channel_forward_accept l))
              "SSH2LISTENER-TIMEOUT" "SSH2LISTENER-ERROR" timeout_ms;
        match c with
        | None => mret None
        | Some _ => cid ← registerChannelUnlockedRaw c; mret (Some cid)
        end).

(** ** Requests on a channel *)

(** [check_open]: true when it returns -1 *)
Definition check_open (id : positive) : M bool :=
  c ← get_chan id;
  _ ← when (bool_decide (c = None)) (raise true "SSH2-CHANNEL-ERROR");
  mret (bool_decide (c = None)).

(** The common body of the requests: [failed] is the condition on the return code
    that raises an exception. *)
Definition chan_request (id : positive) (op : chan_op) (err : string) (failed : Z → bool)
    (timeout_ms : Z) : M Z :=
  closed ← check_open id;
  if closed : bool then mret (-1)
  else
    with_blocking_helper (
      rc ← while_eagain (c ← get_chan id; callZ (channel_op c op))
             (waitSocketUnlocked true SSH2CHANNEL_TIMEOUT err timeout_ms);
      match rc with
      | None => mret (-1)
      | Some rc =>
          _ ← when (failed rc) doSessionErrUnlocked;
          mret rc
      end).

Definition nonzero (rc : Z) : bool := negb (rc =? 0).
Definition negative (rc : Z) : bool := rc <? 0.

Definition setenv id name value := chan_request id (CoSetenv name value) "SSH2CHANNEL-SETENV-ERROR" nonzero.
Definition requestPty id term (modes : string) width height width_px height_px :=
  chan_request id
    (CoRequestPty term (if str_empty modes then None else Some modes) width height width_px height_px)
    "SSH2CHANNEL-REQUESTPTY-ERROR" nonzero.
Definition shell id := chan_request id CoShell "SSH2CHANNEL-SHELL-ERROR" nonzero.
Definition waitEof id := chan_request id CoWaitEof "SSH2CHANNEL-WAITEOF-ERROR" nonzero.
Definition sendEof id := chan_request id CoSendEof "SSH2CHANNEL-SENDEOF-ERROR" nonzero.
Definition exec id command := chan_request id (CoExec command) "SSH2CHANNEL-EXEC-ERROR" nonzero.
Definition subsystem id command :=
  chan_request id (CoSubsystem command) "SSH2CHANNEL-SUBSYSTEM-ERROR" nonzero.
Definition channel_close id := chan_request id CoClose "SSH2CHANNEL-CLOSE-ERROR" negative.
Definition waitClosed id := chan_request id CoWaitClosed "SSH2CHANNEL-WAITCLOSED-ERROR" negative.
Definition requestX11Forwarding id screen single_connection auth_proto auth_cookie :=
  chan_request id (CoX11 single_connection auth_proto auth_cookie screen)
    "SSH2CHANNEL-REQUESTX11FORWARDING-ERROR" negative.
Definition extendedDataNormal id :=
  chan_request id (CoExtendedData LIBSSH2_CHANNEL_EXTENDED_DATA_NORMAL)
    "SSH2CHANNEL-EXTENDEDDATANORMAL-ERROR" negative.
Definition extendedDataMerge id :=
  chan_request id (CoExtendedData LIBSSH2_CHANNEL_EXTENDED_DATA_MERGE)
    "SSH2CHANNEL-EXTENDEDDATAMERGE-ERROR" negative.
Definition extendedDataIgnore id :=
  chan_request id (CoExtendedData LIBSSH2_CHANNEL_EXTENDED_DATA_IGNORE)
    "SSH2CHANNEL-EXTENDEDDATAIGNORE-ERROR" negative.
Definition requestPtySize id width height width_px height_px :=
  chan_request id (CoRequestPtySize width height width_px height_px)
    "SSH2CHANNEL-REQUESTPTYSIZE-ERROR" nonzero.
Definition sendSignal id signal_name :=
  chan_request id (CoSignal signal_name) "SSH2CHANNEL-SENDSIGNAL-ERROR" negative.
Definition requestAuthAgent id :=
  chan_request id CoRequestAuthAgent "SSH2CHANNEL-REQUESTAUTHAGENT-ERROR" negative.

Definition channel_is_eof (id : positive) : M bool :=
  closed ← check_open id;
  if closed : bool then mret true
  else
    c ← get_chan id;
    callB (channel_eof c).

Definition getExitStatus (id : positive) : M Z :=
  closed ← check_open id;
  if closed : bool then mret (-1)
  else
    c ← get_chan id;
    callZ (channel_get_exit_status c).

(** ** Reading *)

(** [libssh2_channel_read_ex]: the return code and the bytes stored in the buffer. *)
Definition read_chunk (id : positive) (stream : Z) (size : nat) : M (Z * list Byte.byte) :=
  c ← get_chan id;
  '(rc, bytes) ← (call (channel_read c stream size) : M (Z * list Byte.byte));
  mret (rc, take (Z.to_nat rc) bytes).

(** [read] and [readBinary] without a size: what is there, after at most one wait
    for the first byte.  [None] is the null result. *)
Definition read_available (id : positive) (stream timeout_ms : Z) (err : string) :
    M (option (list Byte.byte)) :=
  closed ← check_open id;
  if closed : bool then mret None
  else
    with_blocking_helper (
      loop fuel (λ '(str, first),
        '(rc, bytes) ← read_chunk id stream QSSH2_BUFSIZE;
        if 0 <? rc then mret (inl (str ++ bytes, first))
        else if (rc =? LIBSSH2_ERROR_EAGAIN) && bool_decide (str = []) && first then
          failed ← waitSocketUnlocked true SSH2CHANNEL_TIMEOUT err timeout_ms;
          mret (if failed : bool then inr None else inl (str, false))
        else if (rc <? 0) && negb (rc =? LIBSSH2_ERROR_EAGAIN) then
          _ ← doSessionErrUnlocked;
          mret (inr None)
        else mret (inr (Some str))) ([], true)).

Definition read (id : positive) (stream timeout_ms : Z) : M (option (list Byte.byte)) :=
  read_available id stream timeout_ms "SSH2CHANNEL-READ-ERROR".

Definition readBinary (id : positive) (stream timeout_ms : Z) : M (option (list Byte.byte)) :=
  read_available id stream timeout_ms "SSH2CHANNEL-READBINARY-ERROR".

(** [read] and [readBinary] with a size.  A negative code other than EAGAIN leaves
    neither the branch for bytes nor the one for waiting: the loop goes on. *)
Definition read_size (size : nat) (id : positive) (stream timeout_ms : Z) : M (option (list Byte.byte)) :=
  closed ← check_open id;
  if closed : bool then mret None
  else
    with_blocking_helper (
      loop fuel (λ '(str, b_read, b_remaining),
        '(rc, bytes) ← read_chunk id stream (Nat.min QSSH2_BUFSIZE (Z.to_nat b_remaining));
        if 0 <? rc then
          let str := str ++ bytes in
          let b_read := size_t (b_read + rc) in
          let b_remaining := size_t (b_remaining - rc) in
          mret (if Z.of_nat size <=? b_read then inr (Some str) else inl (str, b_read, b_remaining))
        else if (rc =? 0) || (rc =? LIBSSH2_ERROR_EAGAIN) then
          w ← waitSocket_raw timeout_ms;
          if w <=? 0 then
            _ ← raise true SSH2CHANNEL_TIMEOUT;
            mret (inr None)
          else mret (inl (str, b_read, b_remaining))
        else mret (inl (str, b_read, b_remaining))) ([], 0, Z.of_nat size)).

Definition read_size_binary (size : nat) (id : positive) (stream timeout_ms : Z) :
    M (option (list Byte.byte)) :=
  read_size size id stream timeout_ms.

(** [read] into a buffer: the bytes stored; empty when 0 is returned. *)
Definition read_buffer (id : positive) (size : nat) (stream timeout_ms : Z) : M (list Byte.byte) :=
  closed ← check_open id;
  if closed : bool then mret []
  else
    with_blocking_helper (
      loop fuel (λ _ : unit,
        '(rc, bytes) ← read_chunk id stream size;
        if (rc <? 0) && negb (rc =? LIBSSH2_ERROR_EAGAIN) then
          _ ← doSessionErrUnlocked;
          mret (inr [])
        else if 0 <? rc then mret (inr bytes)
        else
          w ← waitSocket_raw timeout_ms;
          if w <=? 0 then
            _ ← raise true SSH2CHANNEL_TIMEOUT;
            mret (inr [])
          else mret (inl tt)) tt).

(** ** Writing *)

(** The inner loop of [write]: the return code of a write that did something, or
    [None] when a wait failed. *)
Definition write_chunk (id : positive) (stream timeout_ms : Z) (data : list Byte.byte) : M (option Z) :=
  loop fuel (λ _ : unit,
    c ← get_chan id;
    rc ← callZ (channel_write c stream data);
    if negb (rc =? 0) && negb (rc =? LIBSSH2_ERROR_EAGAIN) then mret (inr (Some rc))
    else
      w ← waitSocket_raw timeout_ms;
      if w =? 0 then
        _ ← raise true SSH2CHANNEL_TIMEOUT;
        mret (inr None)
      else if w <? 0 then
        _ ← raise true "SSH2CHANNEL-WRITE-ERROR";
        mret (inr None)
      else mret (inl tt)) tt.

(** [write]: the return value as [size_t]. *)
Definition write (id : positive) (buf : list Byte.byte) (stream timeout_ms : Z) : M Z :=
  closed ← check_open id;
  if closed : bool then mret (size_t (-1))
  else
    with_blocking_helper (
      loop fuel (λ b_sent : Z,
        rc ← write_chunk id stream timeout_ms (drop (Z.to_nat b_sent) buf);
        match rc with
        | None => mret (inr (size_t (-1)))
        | Some rc =>
            _ ← when (rc <? 0) doSessionErrUnlocked;
            let b_sent := size_t (b_sent + rc) in
            mret (if Z.of_nat (length buf) <=? b_sent then inr b_sent else inl b_sent)
        end) 0).

(** ** SCP over streams *)

(** The destructor of a channel object that leaves scope. *)
Definition drop_channel (id : positive) : M unit := channel_destructor id.

(** [scpGet(xsink, path, os, timeout_ms)] *)
Definition scpGet_stream (path : string) (timeout_ms : Z) : M unit :=
  c ← scpGetChannel path timeout_ms;
  match c with
  | None => mret tt
  | Some id =>
      rc ← sendEof id timeout_ms;
      _ ← when (rc =? 0) (
        loop fuel (λ _ : unit,
          eof ← channel_is_eof id;
          if eof : bool then mret (inr tt)
          else
            bytes ← read_buffer id 4096 0 timeout_ms;
            _ ← match bytes with
                | [] => mret tt
                | _ => ok ← callB (ostream_write bytes); when (negb ok) (raise_exc true ExternalExc)
                end;
            failed ← has_exc;
            mret (if failed : bool then inr tt else inl tt)) tt);
      _ ← waitClosed id timeout_ms;
      drop_channel id
  end.

(** [scpPut(xsink, path, is, size, mode, mtime, atime, timeout_ms)] *)
Definition scpPut_stream (path : string) (size mode mtime atime timeout_ms : Z) : M unit :=
  c ← scpPutChannel path size mode mtime atime timeout_ms;
  match c with
  | None => mret tt
  | Some id =>
      _ ← loop fuel (λ size : Z,
            if size <=? 0 then mret (inr tt)
            else
              r ← (call (istream_read (Z.min 4096 size)) : M (option (list Byte.byte)));
              _ ← when (bool_decide (r = None)) (raise_exc true ExternalExc);
              failed ← has_exc;
              if failed : bool then mret (inr tt)
              else
                let bytes := default [] r in
                if bool_decide (bytes = []) then
                  _ ← raise true "SSH2CLIENT-SCPPUT-ERROR";
                  mret (inr tt)
                else
                  _ ← write id bytes 0 timeout_ms;
                  failed ← has_exc;
                  mret (if failed : bool then inr tt else inl (size - Z.of_nat (length bytes)))) size;
      rc ← sendEof id timeout_ms;
      _ ← when (rc =? 0) (
        rc ← waitEof id timeout_ms;
        when (rc =? 0) (_ ← waitClosed id timeout_ms; mret tt));
      drop_channel id
  end.
End channel.

(** * Facts *)

Section facts.
Context {E : Type} `{!Env E}.

Abbreviation M := (prog (st E)).

(** ** The outcomes of opening *)

(** A new channel object: registered, fresh, and owning the pointer. *)
Definition opened (s s' : st E) (id : positive) : Prop :=
  registered s' ∧ channel_set (cl s') = {[id]} ∪ channel_set (cl s) ∧ chans s !! id = None ∧
  is_Some (ssh_session (cl s')) ∧ ssh_session (cl s') = ssh_session (cl s).

(** No channel: an exception, and either nothing changed or the connection was closed. *)
Definition not_opened (s s' : st E) : Prop :=
  registered s' ∧ xsink s' ≠ [] ∧ (quiet s s' ∨ closed_from s s').

Lemma open_loop_post (open : M ptr) toerr err to (s : st E) :
  registered s → preserves quiet open → preserves grows open →
  wp True (open_loop open toerr err to)
    (λ c s', match c with
             | Some _ => quiet s s' ∧ grows s s'
             | None => not_opened s s'
             end) s.
Proof.
  intros Hr Hq Hg. unfold open_loop. apply (wp_loop (λ _ s', quiet s s' ∧ grows s s')); [|by split].
  intros _ s1 [Q1 G1]. wp_step. eapply wp_mono; [|apply wp_and; [apply Hq|apply Hg]].
  intros c s2 [Q2 G2]. cbv beta.
  assert (quiet s s2) as Q02 by by transitivity s1. assert (grows s s2) as G02 by by transitivity s1.
  wp_step.
  { match goal with H : bool_decide _ = true |- _ => apply bool_decide_eq_true in H as [h ->] end. by apply wp_mret. }
  wp_step. wp_world. wp_step. wp_world. set (s3 := logged s2 _ _).
  assert (quiet s s3) as Q3 by (transitivity s2; [done|apply frame_logged]).
  assert (grows s s3) as G3 by (transitivity s2; [done|apply frame_logged]).
  wp_step.
  - wp_step. eapply wp_mono; [|apply waitSocket_post; by apply (quiet_registered s)].
    intros [] s4 [C4 X4]; cbv beta; apply wp_mret.
    + split; [apply C4|]. split; [done|]. right. by apply (closed_from_quiet s s3).
    + split; by transitivity s3.
  - unfold doSessionErrUnlocked. wp_step. wp_step. wp_world. wp_step. wp_world. wp_world. apply wp_mret.
    set (s4 := _ <| xsink := _ |>).
    assert (quiet s s4) as Q4 by (transitivity s3; [done|]; etransitivity; [apply frame_logged|apply frame_xsink]).
    split; [by apply (quiet_registered s)|]. split; [done|by left].
Qed.

Lemma preserves_open_call (R : relation (st E)) `{!Carrier R} (mk : ptr → hcall) :
  preserves R (s ← cfield ssh_session; callH (mk s)).
Proof. preserves_auto. Qed.

(** [BlockingHelper]: the body runs between two steps that only make requests. *)
Lemma wp_blocking {A} (m : M A) (Q : A → st E → Prop) (s s1 : st E) :
  quiet s s1 → grows s s1 →
  (∀ s2, quiet s s2 → grows s s2 → quiet s1 s2 → grows s1 s2 →
     wp True m (λ a s3, ∀ s4, quiet s3 s4 → grows s3 s4 → xsink_grows s3 s4 → Q a s4) s2) →
  wp True (with_blocking_helper m) Q s1.
Proof.
  intros Q1 G1 Hm. unfold with_blocking_helper. wp_step.
  eapply wp_mono; [|apply wp_and; [apply (preserves_setBlocking quiet)|apply (preserves_setBlocking grows)]].
  intros ? s2 [Q2 G2]. cbv beta. wp_step.
  eapply wp_mono; [|apply Hm; [by transitivity s1|by transitivity s1|done|done]].
  intros r s3 H3. cbv beta. wp_step.
  eapply wp_mono; [|apply wp_and; [apply (preserves_setBlocking quiet)|
    apply wp_and; [apply (preserves_setBlocking grows)|apply (preserves_setBlocking xsink_grows)]]].
  intros ? s4 (Q4 & G4 & X4). apply wp_mret. by apply H3.
Qed.

Lemma not_opened_lift (s s1 s' : st E) : quiet s s1 → grows s s1 → not_opened s1 s' → not_opened s s'.
Proof.
  intros Q G (R & X & H). split; [done|]. split; [done|].
  destruct H as [H|H]; [left; by transitivity s1|right; by apply (closed_from_quiet s s1)].
Qed.

Lemma not_opened_after (s s1 s' : st E) :
  not_opened s s1 → quiet s1 s' → grows s1 s' → xsink_grows s1 s' → not_opened s s'.
Proof.
  intros (R & X & H) Q G XG. split; [by apply (quiet_registered s1)|].
  split; [by eapply xsink_grows_nonempty|].
  destruct H as [H|H]; [left; by transitivity s1|right; by apply (closed_from_after s s1)].
Qed.

Lemma sshConnected_post (Q : bool → st E → Prop) (s : st E) :
  (∀ b s1, quiet s s1 → grows s s1 → (b = true → is_Some (ssh_session (cl s))) → Q b s1) →
  wp True sshConnectedUnlocked Q s.
Proof.
  intros HQ. unfold sshConnectedUnlocked. wp_step. wp_step. wp_step.
  - wp_world. apply HQ; [apply frame_logged..|]. intros _.
    match goal with H : _ && _ = true |- _ => apply andb_true_iff in H as [H%bool_decide_eq_true _] end. done.
  - apply wp_mret. by apply HQ.
Qed.

(** Registering the channel that was just opened. *)
Lemma registerChannel_post (h : handle) (s s1 : st E) :
  registered s → quiet s s1 → is_Some (ssh_session (cl s)) →
  wp True (id ← registerChannelUnlockedRaw (Some h); mret (Some id))
    (λ r s2, ∃ id, r = Some id ∧ opened s s2 id) s1.
Proof.
  intros Hr Q1 Hs. wp_step. apply wp_intro. intros id s2 Hrun. apply wp_mret. exists id. split; [done|].
  pose proof (wp_run _ _ _ _ _ (registerChannel_registered h s1) Hrun) as Hk.
  specialize (Hk ltac:(by apply (quiet_registered s))).
  injection Hrun as <- <-. pose proof Q1 as (Hcl & Hch & Hl & Hn & _). split_and!; simpl.
  - done.
  - by rewrite Hcl.
  - rewrite Hn. apply (reg_chans_fresh _ Hr). lia.
  - by rewrite Hcl.
  - by rewrite Hcl.
Qed.

Lemma opened_after (s s1 s' : st E) id : opened s s1 id → quiet s1 s' → opened s s' id.
Proof.
  intros (R & Hin & Hf & Hs & He) Q. pose proof Q as [Hcl _].
  split_and!; [by apply (quiet_registered s1)|by rewrite Hcl|done|by rewrite Hcl|by rewrite Hcl].
Qed.

Definition open_outcome (s : st E) (r : option positive) (s' : st E) : Prop :=
  match r with Some id => opened s s' id | None => not_opened s s' end.

Lemma refuse_open err (s s1 : st E) :
  registered s → quiet s s1 → grows s s1 →
  wp True (_ ← raise true err; mret None) (open_outcome s) s1.
Proof.
  intros Hr Q G. wp_step. wp_world. apply wp_mret.
  assert (∀ e, quiet s (s1 <| xsink := e :: xsink s1 |>)) as Q2 by (intros; transitivity s1; [done|apply frame_xsink]).
  split; [by apply (quiet_registered s)|]. split; [done|by left].
Qed.

Lemma open_and_register (open : M ptr) toerr err to (s s1 : st E) :
  registered s → quiet s s1 → grows s s1 → is_Some (ssh_session (cl s)) →
  preserves quiet open → preserves grows open →
  wp True
    (with_blocking_helper (
       c ← open_loop open toerr err to;
       match c with
       | None => mret None
       | Some _ => id ← registerChannelUnlockedRaw c; mret (Some id)
       end)) (open_outcome s) s1.
Proof.
  intros Hr Q1 G1 Hs Hq Hg. apply (wp_blocking _ _ s s1); [done..|]. intros s2 Q2 G2 _ _.
  wp_step. eapply wp_mono; [|apply open_loop_post; [by apply (quiet_registered s)|done|done]].
  intros [h|] s3 H3; cbv beta iota.
  - destruct H3 as [Q3 G3].
    eapply wp_mono; [|apply (registerChannel_post h s s3); [done|by transitivity s2|done]].
    intros r s4 (id & -> & H4) s5 Q5 G5 X5. by apply (opened_after s s4).
  - apply wp_mret. intros s4 Q4 G4 X4. apply (not_opened_after s s3); [|done..].
    by apply (not_opened_lift s s2).
Qed.

Lemma open_channel_post mk err to (s : st E) :
  registered s → wp True (open_channel mk err to) (open_outcome s) s.
Proof.
  intros Hr. unfold open_channel. wp_step. apply sshConnected_post. intros connected s1 Q1 G1 Hs.
  wp_step; [by apply refuse_open|]. apply open_and_register; try done; try apply preserves_open_call, _.
  apply Hs. by destruct connected.
Qed.

Lemma open_guarded_post (guard : M bool) mk err to (s : st E) :
  registered s → preserves quiet guard → preserves grows guard →
  (∀ s', wp True guard (λ b s1, b = true → xsink s1 ≠ []) s') →
  wp True (denied ← guard; if denied : bool then mret None else open_channel mk err to) (open_outcome s) s.
Proof.
  intros Hr Hq Hg Hx. wp_step.
  eapply wp_mono; [|apply wp_and; [apply Hq|apply wp_and; [apply Hg|apply Hx]]].
  intros denied s1 (Q1 & G1 & X1). cbv beta. wp_step; subst.
  - apply wp_mret. split; [by apply (quiet_registered s)|]. split; [by apply X1|by left].
  - eapply wp_mono; [|apply open_channel_post; by apply (quiet_registered s)].
    intros [id|] s2 H2; [|by apply (not_opened_lift s s1)]. destruct H2 as (R & Hin & Hf & Hs & He).
    pose proof Q1 as (Hcl & Hch & _). split_and!; [done|by rewrite Hin, Hcl|by rewrite <- Hch|done|by rewrite He, Hcl].
Qed.

Lemma unix_socket_reports path check_fs (s : st E) :
  wp True (ssh2_check_unix_socket_access path check_fs true) (λ b s1, b = true → xsink s1 ≠ []) s.
Proof. unfold ssh2_check_unix_socket_access. repeat first [wp_step | wp_world]; intros; done. Qed.

Lemma tunnel_reports host port (s : st E) :
  wp True (ssh2_check_tunnel_destination host port) (λ b s1, b = true → xsink s1 ≠ []) s.
Proof.
  assert (∀ l s, wp True (check_addresses host l) (λ b s1, b = true → xsink s1 ≠ []) s) as Ha.
  { induction l as [|a l IH]; intros s1; cbn [check_addresses]; [by apply wp_mret|].
    repeat first [wp_step | wp_world]; first [apply IH | intros; done]. }
  unfold ssh2_check_tunnel_destination. wp_step. wp_world. wp_step; [by apply wp_mret|].
  wp_step. wp_world. destruct a0 as [[|x l]|]; [| apply Ha |];
    repeat first [wp_step | wp_world]; intros; done.
Qed.
End facts.

Section requests.
Context {E : Type} `{!Env E}.

Abbreviation M := (prog (st E)).

(** ** The methods of a channel, and of the client that makes channels *)

Inductive chan_method :=
  | MRequest (op : chan_op) (err : string) (failed : Z → bool) (timeout_ms : Z)
  | MEof
  | MGetExitStatus
  | MReadAvailable (stream timeout_ms : Z) (err : string)
  | MReadSize (size : nat) (stream timeout_ms : Z)
  | MReadBuffer (size : nat) (stream timeout_ms : Z)
  | MWrite (buf : list Byte.byte) (stream timeout_ms : Z).

Definition run_method (id : positive) (m : chan_method) : M unit :=
  match m with
  | MRequest op err failed to => _ ← chan_request id op err failed to; mret tt
  | MEof => _ ← channel_is_eof id; mret tt
  | MGetExitStatus => _ ← getExitStatus id; mret tt
  | MReadAvailable stream to err => _ ← read_available id stream to err; mret tt
  | MReadSize size stream to => _ ← read_size size id stream to; mret tt
  | MReadBuffer size stream to => _ ← read_buffer id size stream to; mret tt
  | MWrite buf stream to => _ ← write id buf stream to; mret tt
  end.

Inductive channel_api :=
  | AOpen (mk : ptr → hcall) (err : string) (timeout_ms : Z)
  | AOpenTcpip (host : string) (port : Z) (shost : string) (sport timeout_ms : Z)
  | AOpenStreamLocal (path shost : string) (sport timeout_ms : Z)
  | AForwardListen (host : string) (port queue_maxsize bound_port timeout_ms : Z)
  | AAccept (id : positive) (timeout_ms : Z)
  | AMethod (id : positive) (m : chan_method)
  | AScpGet (path : string) (timeout_ms : Z)
  | AScpPut (path : string) (size mode mtime atime timeout_ms : Z)
  | ALifecycle (op : lifecycle_op).

Definition run_api (a : channel_api) : M unit :=
  match a with
  | AOpen mk err to => _ ← open_channel mk err to; mret tt
  | AOpenTcpip host port shost sport to => _ ← openDirectTcpipChannel host port shost sport to; mret tt
  | AOpenStreamLocal path shost sport to => _ ← openDirectStreamLocalChannel path shost sport to; mret tt
  | AForwardListen host port qs bound to => _ ← forwardListen host port qs bound to; mret tt
  | AAccept id to => _ ← accept id to; mret tt
  | AMethod id m => run_method id m
  | AScpGet path to => scpGet_stream path to
  | AScpPut path size mode mtime atime to => scpPut_stream path size mode mtime atime to
  | ALifecycle op => run_lifecycle op
  end.

(** ** Preservation of the registries *)

Lemma preserves_check_open (R : relation (st E)) `{!Basic R} id : preserves R (check_open id).
Proof. unfold check_open, get_chan. preserves_auto. Qed.

Lemma preserves_read_chunk (R : relation (st E)) `{!Carrier R} id stream size :
  preserves R (read_chunk id stream size).
Proof. unfold read_chunk, get_chan. preserves_auto. Qed.

#[local] Hint Resolve preserves_check_open preserves_read_chunk : preserves.

Lemma preserves_write_chunk (R : relation (st E)) `{!Carrier R} id stream to data :
  preserves R (write_chunk id stream to data).
Proof. unfold write_chunk, get_chan. preserves_auto. Qed.

#[local] Hint Resolve preserves_write_chunk : preserves.

(** What the operations on channels and listeners do to the client and its objects, as an
    interface: a relation on states that each of these steps preserves is preserved by all.
    The methods of the objects make no new ones. *)
Class Methods (R : relation (st E)) := {
  methods_carrier :: Carrier R;
  methods_upd f : (∀ c, channel_set (f c) = channel_set c) → (∀ c, listener_set (f c) = listener_set c) →
    (∀ c, poll_op_in_progress c = true → poll_op_in_progress (f c) = true) → preserves R (upd f);
  methods_destroy id : preserves R (channel_destructor id);
  methods_cancel id : preserves R (listener_cancelUnlocked id);
  methods_disconnect force to xs : preserves R (disconnectUnlocked force to xs)
}.

Class Registry (R : relation (st E)) := {
  registry_methods :: Methods R;
  registry_channel (h : handle) : preserves R (registerChannelUnlockedRaw (Some h));
  registry_listener (h : handle) port : preserves R (registerListenerUnlocked (Some h) port)
}.

Section methods.
Context (R : relation (st E)) `{!Methods R}.

Lemma methods_wait toerr err to : preserves R (waitSocketUnlocked true toerr err to).
Proof. apply preserves_waitSocket_gen; [apply _|]. intros t. apply methods_disconnect. Qed.

#[local] Hint Resolve methods_wait methods_destroy methods_cancel methods_disconnect : preserves.
#[local] Hint Extern 3 (preserves R (upd _)) => apply methods_upd; intros ?; done : preserves.

Lemma run_method_registry id m : preserves R (run_method id m).
Proof.
  destruct m; cbn [run_method];
    unfold chan_request, channel_is_eof, getExitStatus, read_available, read_size, read_buffer, write;
    preserves_calls.
Qed.

Lemma chan_request_registry id op err failed to : preserves R (chan_request (E:=E) id op err failed to).
Proof. unfold chan_request. preserves_calls. Qed.

Lemma write_registry id buf stream to : preserves R (write (E:=E) id buf stream to).
Proof. unfold write. preserves_calls. Qed.

Lemma read_buffer_registry id size stream to : preserves R (read_buffer (E:=E) id size stream to).
Proof. unfold read_buffer. preserves_calls. Qed.

End methods.

Section registry.
Context (R : relation (st E)) `{!Registry R}.

#[local] Hint Extern 0 (Methods _) => typeclasses eauto : preserves.
#[local] Hint Resolve methods_wait registry_channel registry_listener methods_destroy methods_cancel
  methods_disconnect chan_request_registry write_registry read_buffer_registry : preserves.
#[local] Hint Extern 3 (preserves R (upd _)) => apply methods_upd; intros ?; done : preserves.

Lemma open_loop_registry (open : M ptr) toerr err to :
  preserves R open → preserves R (open_loop open toerr err to).
Proof. intros H. unfold open_loop. preserves_calls. Qed.

#[local] Hint Extern 3 (preserves R (open_loop _ _ _ _)) => apply open_loop_registry; preserves_auto : preserves.

Lemma open_channel_registry mk err to : preserves R (open_channel (E:=E) mk err to).
Proof. unfold open_channel. preserves_calls. Qed.

Lemma run_lifecycle_registry op : preserves R (run_lifecycle op).
Proof. destruct op; simpl; unfold listener_destructor, listener_cancel, get_lst, disconnect; preserves_auto. Qed.

#[local] Hint Resolve open_channel_registry : preserves.

(** The whole interface of channels and listeners. *)
Lemma run_api_registry a : preserves R (run_api a).
Proof.
  destruct a; cbn [run_api];
    try apply run_method_registry; try apply run_lifecycle_registry;
    unfold openDirectTcpipChannel, openDirectStreamLocalChannel, forwardListen, accept, scpGet_stream,
      scpPut_stream, scpGetChannel, scpPutChannel, sendEof, waitEof, waitClosed, channel_is_eof, drop_channel;
    preserves_calls.
Qed.
End registry.

#[export] Instance keeps_registered_registry : Registry keeps_registered.
Proof.
  split; [split; [apply _|intros; by apply preserves_upd_registered|apply channel_destructor_registered
                 |apply listener_cancel_registered|apply disconnectUnlocked_registered]
         |apply registerChannel_registered|apply registerListener_registered].
Qed.
End requests.

(** * Theorems *)

(** ** Closed channels, opening, and the registries *)

Section theorems.
Context {E : Type} `{!Env E}.

Abbreviation M := (prog (st E)).

Definition refused (s : st E) : st E := s <| xsink := Exc "SSH2-CHANNEL-ERROR" NoDetail :: xsink s |>.

Lemma check_open_closed id (s : st E) : chan_ptr s id = None → check_open id s = Some (true, refused s).
Proof.
  intros Hc. assert (get_chan id s = Some (None, s)) as Hg.
  { unfold get_chan, gets. unfold chan_ptr in Hc. by rewrite Hc. }
  unfold check_open. unfold mbind, prog_bind. by rewrite Hg.
Qed.

(** Every method of a closed channel is refused: it raises an exception
    and makes no request, so a freed libssh2 channel is never used. *)
Theorem closed_channel_refused (id : positive) (m : chan_method) (s : st E) :
  chan_ptr s id = None → run_method id m s = Some (tt, refused s).
Proof.
  intros Hc. pose proof (check_open_closed id s Hc) as Ho.
  destruct m; cbn [run_method];
    unfold chan_request, channel_is_eof, getExitStatus, read_available, read_size, read_buffer, write,
      mbind, prog_bind; by rewrite Ho.
Qed.

(** The operations that make a channel. *)
Inductive opener :=
  | OSession (timeout_ms : Z)
  | OTcpip (host : string) (port : Z) (shost : string) (sport timeout_ms : Z)
  | OStreamLocal (path shost : string) (sport timeout_ms : Z)
  | OScpGet (path : string) (timeout_ms : Z)
  | OScpPut (path : string) (size mode mtime atime timeout_ms : Z)
  | OAccept (listener : positive) (timeout_ms : Z).

Definition run_opener (o : opener) : M (option positive) :=
  match o with
  | OSession to => openSessionChannel to
  | OTcpip host port shost sport to => openDirectTcpipChannel host port shost sport to
  | OStreamLocal path shost sport to => openDirectStreamLocalChannel path shost sport to
  | OScpGet path to => scpGetChannel path to
  | OScpPut path size mode mtime atime to => scpPutChannel path size mode mtime atime to
  | OAccept id to => accept id to
  end.

Lemma accept_post id to (s : st E) : registered s → wp True (accept id to) (open_outcome s) s.
Proof.
  intros Hr. unfold accept, get_lst. wp_step. wp_step. wp_step; [by apply refuse_open|].
  wp_step. apply sshConnected_post. intros connected s1 Q1 G1 Hs.
  wp_step; [by apply refuse_open|].
  apply open_and_register; try done; [apply Hs; by destruct connected|idtac..]; preserves_auto.
Qed.

(** C36: Opening a channel of any kind (session, tunnel, Unix-socket tunnel, SCP,
    accepted connection) either yields a new channel object that is registered
    with the client and owns its libssh2 channel while the session stays as it was,
    or it raises an exception and leaves the client as it was or disconnected;
    the registries are exact either way. *)
Theorem open_channel_sound (o : opener) (s s' : st E) (r : option positive) :
  registered s → run_opener o s = Some (r, s') → open_outcome s r s'.
Proof.
  intros Hr. apply (wp_run _ (open_outcome s)). destruct o; cbn [run_opener];
    try (apply open_channel_post; done).
  - apply (open_guarded_post (ssh2_check_tunnel_destination host port)); try done;
      [preserves_auto..|]. intros s0. apply tunnel_reports.
  - apply (open_guarded_post (ssh2_check_unix_socket_access path false true)); try done;
      [preserves_auto..|]. intros s0. apply unix_socket_reports.
  - by apply accept_post.
Qed.

Inductive channel_run : st E → st E → Prop :=
  | channel_run_refl s : channel_run s s
  | channel_run_step s s1 s2 a :
      channel_run s s1 → run_api a s1 = Some (tt, s2) → channel_run s s2.

(** C12: Under every sequence of opens, listens, accepts, requests, reads,
    writes, SCP transfers, closes and disconnects, whatever the server answers, the
    registries stay exact, and no channel that is not registered can be used. *)
Theorem channel_api_registered (s s' : st E) :
  registered s → channel_run s s' →
  registered s' ∧
  ∀ id m, id ∉ channel_set (cl s') → run_method id m s' = Some (tt, refused s').
Proof.
  intros Hr Hl. assert (registered s') as Hr'.
  { induction Hl as [s|s s1 s2 a _ IH Hrun]; [done|].
    eapply (wp_run _ _ _ _ _ (run_api_registry keeps_registered a s1) Hrun). by apply IH. }
  split; [done|]. intros id m Hid. pose proof (check_open_closed id s') as Ho.
  assert (chan_ptr s' id = None) as Hc.
  { apply eq_None_not_Some. intros Hs. apply Hid. by apply (reg_channels _ Hr'). }
  specialize (Ho Hc). destruct m; cbn [run_method];
    unfold chan_request, channel_is_eof, getExitStatus, read_available, read_size, read_buffer, write,
      mbind, prog_bind; by rewrite Ho.
Qed.
End theorems.

(** ** Requests *)

Section request.
Context {E : Type} `{!Env E}.

Abbreviation M := (prog (st E)).

Definition same_xsink (s s' : st E) : Prop := xsink s' = xsink s.

#[local] Instance same_xsink_preorder : PreOrder same_xsink.
Proof. split; [by intros ?|intros ??? H1 H2; unfold same_xsink in *; congruence]. Qed.

Lemma wait_ok_same_xsink toerr err to (s : st E) :
  wp True (waitSocketUnlocked true toerr err to) (λ failed s', failed = false → xsink s' = xsink s) s.
Proof.
  unfold waitSocketUnlocked, waitSocket_gen, qore_check_cancel, waitSocket_raw, waitSocket_dir.
  cbn [negb andb]. wp_step. wp_step. wp_world. wp_step. destruct a; cbn [when].
  - wp_world. repeat wp_step. apply wp_intro. intros; repeat wp_step. done.
  - repeat first [wp_step | wp_world]; first [done | apply wp_intro; intros; repeat wp_step; done].
Qed.

Lemma while_eagain_same_xsink (op : M Z) toerr err to (s : st E) :
  preserves same_xsink op →
  wp True (while_eagain op (waitSocketUnlocked true toerr err to))
    (λ r s', is_Some r → xsink s' = xsink s) s.
Proof.
  intros Hop. unfold while_eagain. apply (wp_loop (λ _ s', xsink s' = xsink s)); [|done].
  intros _ s1 H1. wp_step. eapply wp_mono; [|apply Hop]. intros rc s2 H2. cbv beta. wp_step.
  - wp_step. eapply wp_mono; [|apply wait_ok_same_xsink]. intros [] s3 H3; cbv beta; apply wp_mret.
    + by intros [? ?].
    + by rewrite H3, H2.
  - apply wp_mret. intros _. by rewrite H2.
Qed.

Lemma setBlocking_same_xsink b (s : st E) :
  wp True (setBlockingUnlocked b) (λ _ s', xsink s' = xsink s) s.
Proof. unfold setBlockingUnlocked. repeat first [wp_step | wp_world]; done. Qed.

(** What a request on a channel did: refused on a closed channel; given up after a
    failed wait, with the connection closed; or answered by libssh2, in which case
    an exception is raised exactly for the codes that mean failure. *)
Inductive request_outcome (id : positive) (op : chan_op) (failed : Z → bool) (s : st E) :
    Z → st E → Prop :=
  | request_refused : chan_ptr s id = None → request_outcome id op failed s (-1) (refused s)
  | request_gave_up s' : closed_from s s' → xsink s' ≠ [] → request_outcome id op failed s (-1) s'
  | request_answered rc s' :
      is_Some (chan_ptr s id) → quiet s s' → rc ≠ LIBSSH2_ERROR_EAGAIN →
      new s s' (Ev (QZ (channel_op (chan_ptr s id) op)) rc) →
      (if failed rc then ∃ code, xsink s' = Exc "SSH2-ERROR" (SshError code) :: xsink s
       else xsink s' = xsink s) →
      request_outcome id op failed s rc s'.

Lemma check_open_open id h (s : st E) : chan_ptr s id = Some h → check_open id s = Some (false, s).
Proof.
  intros Hc. assert (get_chan id s = Some (Some h, s)) as Hg.
  { unfold get_chan, gets. unfold chan_ptr in Hc. by rewrite Hc. }
  unfold check_open. unfold mbind, prog_bind. by rewrite Hg.
Qed.

Lemma quiet_chan_ptr (s s' : st E) id : quiet s s' → chan_ptr s' id = chan_ptr s id.
Proof. intros (_ & Hc & _). unfold chan_ptr. by rewrite Hc. Qed.

(** [check_open] and what follows it. *)
Lemma wp_check_open {A} id (m : M A) (a : A) (Q : A → st E → Prop) (s : st E) :
  (chan_ptr s id = None → Q a (refused s)) →
  (∀ h, chan_ptr s id = Some h → wp True m Q s) →
  wp True (closed ← check_open id; if closed : bool then mret a else m) Q s.
Proof.
  intros Hn Hs. unfold wp, mbind, prog_bind. destruct (chan_ptr s id) as [h|] eqn:Hc.
  - rewrite (check_open_open _ h) by done. by apply (Hs h).
  - rewrite check_open_closed by done. by apply Hn.
Qed.

(** [BlockingHelper] around a body, with the exceptions untouched. *)
Lemma wp_blocking_xsink {A} (m : M A) (Q : A → st E → Prop) (s : st E) :
  (∀ s2, quiet s s2 → grows s s2 → xsink s2 = xsink s →
     wp True m (λ a s3, ∀ s4, quiet s3 s4 → grows s3 s4 → xsink s4 = xsink s3 → Q a s4) s2) →
  wp True (with_blocking_helper m) Q s.
Proof.
  intros Hm. unfold with_blocking_helper. wp_step.
  eapply wp_mono; [|apply wp_and; [apply (preserves_setBlocking quiet)|
    apply wp_and; [apply (preserves_setBlocking grows)|apply setBlocking_same_xsink]]].
  intros ? s2 (Q2 & G2 & X2). cbv beta. wp_step.
  eapply wp_mono; [|by apply Hm]. intros r s3 H3. cbv beta. wp_step.
  eapply wp_mono; [|apply wp_and; [apply (preserves_setBlocking quiet)|
    apply wp_and; [apply (preserves_setBlocking grows)|apply setBlocking_same_xsink]]].
  intros ? s4 (Q4 & G4 & X4). apply wp_mret. by apply H3.
Qed.

Lemma doSessionErr_post (s : st E) :
  wp True doSessionErrUnlocked (λ _ s', quiet s s' ∧ grows s s' ∧
    ∃ code, xsink s' = Exc "SSH2-ERROR" (SshError code) :: xsink s) s.
Proof.
  unfold doSessionErrUnlocked. wp_step. wp_world. wp_step. wp_world. wp_world.
  split_and!; [|by eexists [_]|by eexists].
  etransitivity; [apply frame_logged|apply (frame_xsink (R := quiet))].
Qed.

Lemma chan_request_post (id : positive) (op : chan_op) (err : string) (failed : Z → bool)
    (to : Z) (s : st E) :
  registered s → wp True (chan_request id op err failed to) (request_outcome id op failed s) s.
Proof.
  intros Hr. unfold chan_request.
  apply wp_check_open; [by apply request_refused|]. intros h Hc.
  apply wp_blocking_xsink. intros s2 Q2 G2 X2.
  assert (preserves quiet (c ← get_chan id; callZ (channel_op c op))) as Hq by (unfold get_chan; preserves_auto).
  assert (preserves grows (c ← get_chan id; callZ (channel_op c op))) as Hg by (unfold get_chan; preserves_auto).
  wp_step. eapply wp_mono; [|apply wp_and; [apply while_eagain_post; [by apply (quiet_registered s)|done..]|
    apply while_eagain_same_xsink; intros s3; unfold get_chan; repeat first [wp_step|wp_world]; done]].
  intros [rc1|] s3 [H3 X3]; cbv beta iota.
  - specialize (X3 ltac:(done)). destruct H3 as (Q3 & G3 & Hne & s1 & Q1 & G1 & Hrun).
    assert (new s s3 (Ev (QZ (channel_op (chan_ptr s id) op)) rc1)) as Hnew.
    { apply (new_weaken s s1); [by transitivity s2|].
      revert Hrun. apply (wp_run _ (λ rc s', new s1 s' (Ev (QZ (channel_op (chan_ptr s id) op)) rc))).
      unfold get_chan. wp_step. wp_step. wp_world.
      rewrite <- (quiet_chan_ptr s s1) by by transitivity s2. by apply new_logged. }
    wp_step. wp_step; [eapply wp_mono; [|apply doSessionErr_post]; intros ? s4 (Q4 & G4 & X4)|];
      apply wp_mret; intros s5 Q5 G5 X5; apply request_answered; try done; try by rewrite Hc.
    + transitivity s2; [done|]. transitivity s3; [done|]. by transitivity s4.
    + apply (new_grows _ s3); [done|by transitivity s4].
    + rewrite H. destruct X4 as [code X4]. exists code. congruence.
    + transitivity s2; [done|]. by transitivity s3.
    + by apply (new_grows _ s3).
    + rewrite H. congruence.
  - apply wp_mret. intros s4 Q4 G4 X4. destruct H3 as [C X]. apply request_gave_up; [|congruence].
    apply (closed_from_after _ s3); [|done..]. by apply (closed_from_quiet s s2).
Qed.

(** Every request on a channel (environment, PTY, shell, command,
    subsystem, EOF, close, signals, X11, agent) is refused on a closed channel
    without reaching the server, gives up with an exception and a closed connection
    when waiting fails, and otherwise returns libssh2's answer, raising an exception
    for exactly the answers that mean failure. *)
Theorem chan_request_outcome (id : positive) (op : chan_op) (err : string) (failed : Z → bool)
    (to : Z) (s s' : st E) (rc : Z) :
  registered s → chan_request id op err failed to s = Some (rc, s') →
  request_outcome id op failed s rc s'.
Proof.
  intros Hr. apply (wp_run _ (request_outcome id op failed s)). by apply chan_request_post.
Qed.
End request.

(** ** Reading and writing *)

(** The bytes that libssh2 handed over on a channel's stream, and those it accepted. *)
Definition received_by (c : ptr) (stream : Z) (ev : event) : list Byte.byte :=
  match ev with
  | Ev (channel_read c' stream' _) (rc, bytes) =>
      if bool_decide (c = c') && (stream =? stream') then take (Z.to_nat rc) bytes else []
  | _ => []
  end.

Definition sent_by (c : ptr) (stream : Z) (ev : event) : list Byte.byte :=
  match ev with
  | Ev (QZ (channel_write c' stream' data)) rc =>
      if bool_decide (c = c') && (stream =? stream') then take (Z.to_nat rc) data else []
  | _ => []
  end.

Ltac plain_events :=
  intros r; destruct r; intros ? ?;
    try match goal with c : zcall |- _ => destruct c | c : bcall |- _ => destruct c end; done.

#[export] Instance received_by_plain c stream : Plain (silent (received_by c stream)).
Proof. plain_events. Qed.

#[export] Instance sent_by_plain c stream : Plain (silent (sent_by c stream)).
Proof. plain_events. Qed.

Section flow.
Context {E : Type} `{!Env E}.

Abbreviation M := (prog (st E)).

(** Nothing but the log, the environment and the exceptions changes, and no byte is moved. *)
Definition calm (f : event → list Byte.byte) (s s' : st E) : Prop :=
  quiet s s' ∧ emits (silent f) s s'.

#[export] Instance calm_basic f : Plain (silent f) → Basic (calm f).
Proof.
  intros HP. split; [split| |].
  - intros s. split; reflexivity.
  - intros s1 s2 s3 [Q1 E1] [Q2 E2]. split; by transitivity s2.
  - intros s r a e' Hr. split; [apply frame_logged|by apply basic_logged].
  - intros s e. split; [apply frame_xsink|apply basic_xsink].
Qed.

Lemma calm_advances f (s s' : st E) : calm f s s' → advances f s s' [].
Proof. intros [_ H]. by apply advances_silent. Qed.

Lemma wp_blocking_basic {A} (R : relation (st E)) `{!Basic R} (m : M A) (Q : A → st E → Prop) (s : st E) :
  (∀ s2, R s s2 → wp True m (λ a s3, ∀ s4, R s3 s4 → Q a s4) s2) →
  wp True (with_blocking_helper m) Q s.
Proof.
  intros Hm. unfold with_blocking_helper. wp_step.
  eapply wp_mono; [|apply (preserves_setBlocking R)]. intros ? s2 R2. cbv beta. wp_step.
  eapply wp_mono; [|by apply Hm]. intros r s3 H3. cbv beta. wp_step.
  eapply wp_mono; [|apply (preserves_setBlocking R)]. intros ? s4 R4. apply wp_mret. by apply H3.
Qed.

(** Moved so far: [bs], with nothing but the log changed. *)
Definition moved (f : event → list Byte.byte) (s s' : st E) (bs : list Byte.byte) : Prop :=
  quiet s s' ∧ advances f s s' bs.

Lemma moved_refl f s : moved f s s [].
Proof. split; [reflexivity|apply advances_refl]. Qed.

Lemma moved_calm f s s1 s2 bs : moved f s s1 bs → calm f s1 s2 → moved f s s2 bs.
Proof.
  intros [Q A] C. pose proof (calm_advances _ _ _ C) as A2. destruct C as [Q2 _]. split; [by transitivity s1|].
  pose proof (advances_trans _ _ _ _ _ _ A A2) as H. by rewrite app_nil_r in H.
Qed.

Lemma calm_moved f s s1 s2 bs : calm f s s1 → moved f s1 s2 bs → moved f s s2 bs.
Proof.
  intros C [Q2 A2]. pose proof (calm_advances _ _ _ C) as A. destruct C as [Q _]. split; [by transitivity s1|].
  apply (advances_trans _ _ _ _ _ _ A A2).
Qed.

Lemma moved_logged f s s1 ev e' bs : moved f s s1 bs → moved f s (logged s1 ev e') (bs ++ f ev).
Proof.
  intros [Q A]. split; [transitivity s1; [done|apply frame_logged]|].
  eapply advances_trans; [exact A|apply advances_logged].
Qed.

(** One read of the open channel. *)
Lemma read_chunk_post id stream n s s1 bs :
  moved (received_by (chan_ptr s id) stream) s s1 bs →
  wp True (read_chunk id stream n)
    (λ '(rc, bytes) s2, moved (received_by (chan_ptr s id) stream) s s2 (bs ++ bytes) ∧
       ∃ e bytes0, (answer (channel_read (chan_ptr s id) stream n) e).1 = (rc, bytes0) ∧
                   bytes = take (Z.to_nat rc) bytes0) s1.
Proof.
  intros H. unfold read_chunk, get_chan. wp_step. wp_step. wp_step. wp_world.
  assert ((c ← chans s1 !! id; ch_channel c) = chan_ptr s id) as Hc.
  { destruct H as [Q _]. by rewrite <- (quiet_chan_ptr s s1). }
  rewrite Hc in *. destruct a as [rc bytes]. wp_step. split.
  - pose proof (moved_logged _ _ _ (Ev (channel_read (chan_ptr s id) stream n) (rc, bytes)) e' _ H) as Hm.
    cbn [received_by] in Hm. rewrite bool_decide_true, Z.eqb_refl in Hm by done. exact Hm.
  - exists (env s1), bytes. split; [|done]. by rewrite H0.
Qed.

Lemma wait_calm f `{!Plain (silent f)} toerr err to (s : st E) :
  registered s →
  wp True (waitSocketUnlocked true toerr err to) (λ failed s', failed = false → calm f s s') s.
Proof.
  intros Hr. eapply wp_mono; [|apply wp_and; [by apply waitSocket_post|by apply (waitSocket_emits (silent f))]].
  intros [] s' [H1 H2] Hf; [done|]. by destruct H1.
Qed.

(** Reading what is there returns exactly the bytes that libssh2 handed
    over during the call on that channel and stream, in order, with nothing lost,
    repeated or invented; the client and its channels are unchanged. *)
Theorem read_available_returns_received (id : positive) (stream to : Z) (err : string)
    (s s' : st E) (str : list Byte.byte) :
  registered s → read_available id stream to err s = Some (Some str, s') →
  moved (received_by (chan_ptr s id) stream) s s' str.
Proof.
  intros Hr. set (f := received_by (chan_ptr s id) stream). apply (wp_run_some _ (λ str s', moved f s s' str)).
  unfold read_available. apply wp_check_open; [done|]. intros h Hc.
  apply (wp_blocking_basic (calm f)). intros s2 C2.
  apply (wp_loop (λ '(bs, _) s1, moved f s s1 bs)); [|by apply (moved_calm _ _ s); [apply moved_refl|]].
  intros [bs first] s1 H1. wp_step. eapply wp_mono; [|by apply read_chunk_post].
  intros [rc bytes] s3 [H3 (e & bytes0 & _ & Hb)]. cbv beta iota. assert (registered s3) as Hr3.
  { apply (quiet_registered s); [apply H3|done]. }
  assert (¬ 0 < rc → bytes = []) as Hnil.
  { intros Hn. subst bytes. replace (Z.to_nat rc) with 0%nat by lia. apply take_0. }
  wp_step; [by apply wp_mret|]. apply Z.ltb_ge in Heqb. rewrite Hnil, app_nil_r in H3 by lia.
  wp_step.
  - wp_step. eapply wp_mono; [|apply (wait_calm f); done]. intros [] s4 H4; cbv beta; apply wp_mret; [done|].
    by apply (moved_calm _ _ s3); [|apply H4].
  - wp_step.
    + wp_step. apply wp_intro. intros ? s4 _. by apply wp_mret.
    + apply wp_mret. intros s4 C4 ? [= <-]. by apply (moved_calm _ _ s3).
Qed.

(** libssh2_channel_read_ex stores at most the requested number of bytes, and
    stores as many as it returns. *)
Definition reads_within_buffer : Prop := ∀ c stream n (e : E),
  let '(rc, bytes) := (answer (channel_read c stream n) e).1 in
  rc ≤ Z.of_nat n ∧ (Z.to_nat rc ≤ length bytes)%nat.

(** C19: A read of a given size that returns data returns exactly that many
    bytes, and they are the bytes that libssh2 handed over during the call, in order. *)
Theorem read_size_exact (size : nat) (id : positive) (stream to : Z) (s s' : st E) (str : list Byte.byte) :
  reads_within_buffer → (0 < size)%nat → Z.of_nat size < 2 ^ 64 →
  read_size size id stream to s = Some (Some str, s') →
  length str = size ∧ moved (received_by (chan_ptr s id) stream) s s' str.
Proof.
  intros Hread Hs0 Hs. set (f := received_by (chan_ptr s id) stream).
  apply (wp_run_some _ (λ str s', length str = size ∧ moved f s s' str)).
  unfold read_size. apply wp_check_open; [done|]. intros h Hc.
  apply (wp_blocking_basic (calm f)). intros s2 C2.
  apply (wp_loop (λ '(bs, b_read, b_remaining) s1, moved f s s1 bs ∧ b_read = Z.of_nat (length bs) ∧
    b_remaining = Z.of_nat size - b_read ∧ 0 < b_remaining));
    [|split_and!; simpl; [by apply (moved_calm _ _ s); [apply moved_refl|]|lia..]].
  intros [[bs b_read] b_remaining] s1 (H1 & Hb & Hrem & Hpos). wp_step.
  eapply wp_mono; [|by apply read_chunk_post].
  intros [rc bytes] s3 [H3 (e & bytes0 & He & Hbytes)]. cbv beta iota zeta.
  pose proof (Hread (chan_ptr s id) stream (Nat.min QSSH2_BUFSIZE (Z.to_nat b_remaining)) e) as Hw.
  rewrite He in Hw. destruct Hw as [Hw1 Hw2].
  wp_step.
  - apply Z.ltb_lt in Heqb. assert (length bytes = Z.to_nat rc) as Hlen by (subst bytes; rewrite length_take; lia).
    assert (size_t (b_read + rc) = b_read + rc) as -> by (apply Z.mod_small; lia).
    assert (size_t (b_remaining - rc) = b_remaining - rc) as -> by (apply Z.mod_small; lia).
    apply wp_mret. destruct (Z.leb_spec (Z.of_nat size) (b_read + rc)).
    + intros s4 C4 ? [= <-]. rewrite length_app. split; [lia|]. by apply (moved_calm _ _ s3).
    + rewrite length_app. split_and!; [done|lia..].
  - apply Z.ltb_ge in Heqb. assert (bytes = []) as ->.
    { subst bytes. replace (Z.to_nat rc) with 0%nat by lia. apply take_0. }
    rewrite app_nil_r in H3. wp_step; [|by apply wp_mret].
    wp_step. eapply wp_mono; [|apply (preserves_waitSocket_raw (calm f))]. intros w s4 C4. cbv beta.
    wp_step.
    + wp_step. wp_world. by apply wp_mret.
    + apply wp_mret. split; [by apply (moved_calm _ _ s3)|done].
Qed.

(** libssh2_channel_write_ex accepts at most the bytes it is given. *)
Definition writes_within_buffer : Prop := ∀ c stream data (e : E),
  (answer (QZ (channel_write c stream data)) e).1 ≤ Z.of_nat (length data).

Lemma write_chunk_post id stream to data s s1 bs :
  writes_within_buffer → moved (sent_by (chan_ptr s id) stream) s s1 bs →
  wp True (write_chunk id stream to data)
    (λ r s2, match r with
             | None => xsink s2 ≠ []
             | Some rc => rc ≠ 0 ∧ rc ≤ Z.of_nat (length data) ∧
                 moved (sent_by (chan_ptr s id) stream) s s2 (bs ++ take (Z.to_nat rc) data)
             end) s1.
Proof.
  intros Hw H. set (f := sent_by (chan_ptr s id) stream) in *. unfold write_chunk, get_chan.
  apply (wp_loop (λ _ s1, moved f s s1 bs)); [|done]. intros _ s2 H2. clear H s1.
  wp_step. wp_step. wp_step.
  assert ((c ← chans s2 !! id; ch_channel c) = chan_ptr s id) as ->.
  { destruct H2 as [Q _]. by rewrite <- (quiet_chan_ptr s s2). }
  wp_world. rename a into rc.
  pose proof (moved_logged f _ _ (Ev (QZ (channel_write (chan_ptr s id) stream data)) rc) e' _ H2) as H3.
  unfold f in H3 at 2. cbn [sent_by] in H3. rewrite bool_decide_true, Z.eqb_refl in H3 by done. cbn [andb] in H3.
  pose proof (Hw (chan_ptr s id) stream data (env s2)) as Hle. rewrite H in Hle. simpl in Hle.
  destruct (Z.eqb_spec rc 0); [|destruct (Z.eqb_spec rc LIBSSH2_ERROR_EAGAIN)]; cbn [negb andb];
    [| |by apply wp_mret].
  all: replace (Z.to_nat rc) with 0%nat in H3 by (subst rc; done); rewrite take_0, app_nil_r in H3;
    wp_step; (eapply wp_mono; [|apply (preserves_waitSocket_raw (calm f))]); intros w s4 C4; cbv beta;
    wp_step; [wp_step; wp_world; by apply wp_mret|];
    wp_step; [wp_step; wp_world; by apply wp_mret|];
    apply wp_mret; by apply (moved_calm _ _ _ _ _ H3).
Qed.

Definition written id buf stream (s : st E) (rc : Z) (s' : st E) : Prop :=
  xsink s' = [] →
  rc = Z.of_nat (length buf) ∧ moved (sent_by (chan_ptr s id) stream) s s' buf.

Lemma write_post (id : positive) (buf : list Byte.byte) (stream to : Z) (s : st E) :
  writes_within_buffer → buf ≠ [] → Z.of_nat (length buf) < 2 ^ 64 →
  wp True (write id buf stream to) (written id buf stream s) s.
Proof.
  intros Hw Hne Hlen. set (f := sent_by (chan_ptr s id) stream).
  unfold write. apply wp_check_open; [done|]. intros h Hc.
  apply (wp_blocking_basic (both (calm f) xsink_grows)). intros s2 [C2 _].
  apply (wp_loop (λ b s1, xsink s1 ≠ [] ∨
    0 ≤ b < Z.of_nat (length buf) ∧ moved f s s1 (take (Z.to_nat b) buf)));
    [|right; split; [destruct buf; simpl in *; [done|lia]|by apply (moved_calm _ _ s); [apply moved_refl|]]].
  intros b s1 [HX|[Hb HM]]; wp_step.
  - eapply wp_mono; [|apply (preserves_write_chunk xsink_grows)]. intros r s3 G3.
    assert (xsink s3 ≠ []) as X3 by (by eapply xsink_grows_nonempty). cbv beta.
    destruct r as [rc|]; [|apply wp_mret; intros s4 [_ G4] X; by destruct (xsink_grows_nonempty _ _ X3 G4)].
    wp_step. apply (wp_mono _ _ (λ _ s4, xsink s4 ≠ [])); [|apply wp_when; [|done]].
    + intros ? s4 X4. apply wp_mret. destruct (_ <=? _); [|by left].
      intros s5 [_ G5] X. by destruct (xsink_grows_nonempty _ _ X4 G5).
    + intros _. eapply wp_mono; [|apply doSessionErr_post]. intros ? s4 (_ & _ & code & ->). done.
  - eapply wp_mono; [|by apply write_chunk_post]. intros [rc|] s3 H3; cbv beta iota zeta;
      [|apply wp_mret; intros s4 [_ G4] X; by destruct (xsink_grows_nonempty _ _ H3 G4)].
    destruct H3 as (H0 & Hle & HM3). rewrite length_drop in Hle. wp_step. wp_step.
    + eapply wp_mono; [|apply doSessionErr_post]. intros ? s4 (_ & _ & code & X4). apply wp_mret.
      destruct (_ <=? _); [|left; by rewrite X4].
      intros s5 [_ G5] X. destruct (xsink_grows_nonempty s4 s5); [by rewrite X4|done|done].
    + apply Z.ltb_ge in H. rewrite take_take_drop in HM3.
      assert (size_t (b + rc) = b + rc) as -> by (apply Z.mod_small; lia).
      replace (Z.to_nat b + Z.to_nat rc)%nat with (Z.to_nat (b + rc)) in HM3 by lia.
      apply wp_mret. destruct (Z.leb_spec (Z.of_nat (length buf)) (b + rc)); [|right; split; [lia|done]].
      intros s4 [C4 _] X. split; [lia|]. rewrite take_ge in HM3 by lia. by apply (moved_calm _ _ s3).
Qed.

(** C18: A write that returns without an exception has sent the whole buffer:
    libssh2 accepted exactly its bytes, in order and once each, however the server
    split them, and the result is their number. *)
Theorem write_sends_all (id : positive) (buf : list Byte.byte) (stream to : Z) (s s' : st E) (rc : Z) :
  writes_within_buffer → buf ≠ [] → Z.of_nat (length buf) < 2 ^ 64 →
  write id buf stream to s = Some (rc, s') → xsink s' = [] →
  rc = Z.of_nat (length buf) ∧ moved (sent_by (chan_ptr s id) stream) s s' buf.
Proof.
  intros Hw Hne Hlen Hrun Hx.
  exact (wp_run _ _ _ _ _ (write_post id buf stream to s Hw Hne Hlen) Hrun Hx).
Qed.
End flow.

(** ** SCP over streams *)

(** The bytes given to the output stream, and those taken from the input stream. *)
Definition stream_out (ev : event) : list Byte.byte :=
  match ev with Ev (QB (ostream_write data)) _ => data | _ => [] end.

Definition stream_in (ev : event) : list Byte.byte :=
  match ev with Ev (istream_read _) (Some data) => data | _ => [] end.

#[export] Instance stream_out_plain : Plain (silent stream_out).
Proof. plain_events. Qed.

#[export] Instance stream_in_plain : Plain (silent stream_in).
Proof. plain_events. Qed.

Section scp.
Context {E : Type} `{!Env E}.

Abbreviation M := (prog (st E)).

(** The same bytes went through [f] and through [g]. *)
Definition paired (f g : event → list Byte.byte) (s s' : st E) : Prop :=
  ∃ bs, advances f s s' bs ∧ advances g s s' bs.

#[export] Instance paired_basic f g : Plain (silent f) → Plain (silent g) → Basic (paired f g).
Proof.
  intros Hf Hg. split; [split| |].
  - intros s. exists []. split; apply advances_refl.
  - intros s1 s2 s3 (b1 & F1 & G1) (b2 & F2 & G2). exists (b1 ++ b2). split; by eapply advances_trans.
  - intros s r a e' Hr. exists []. split; apply advances_silent; by apply basic_logged.
  - intros s e. exists []. split; by apply advances_same.
Qed.

(** No channel is added. *)
Definition shrinks (s s' : st E) : Prop := channel_set (cl s') ⊆ channel_set (cl s).

#[export] Instance shrinks_frame : Frame shrinks.
Proof.
  split; [split| |]; unfold shrinks; [by intros ?| |done|done].
  intros x y z H1 H2. by transitivity (channel_set (cl y)).
Qed.

Lemma chan_request_emits P `{!Plain P} id op err failed to :
  preserves (emits P) (chan_request (E:=E) id op err failed to).
Proof. unfold chan_request, check_open. preserves_calls. Qed.

#[local] Hint Extern 3 (preserves shrinks (upd _)) =>
  apply preserves_upd; intros ?; unfold shrinks; simpl; set_solver : preserves.
#[local] Hint Extern 3 (preserves shrinks (modify _)) =>
  apply preserves_modify; intros ?; unfold shrinks; simpl; set_solver : preserves.

Lemma disconnect_shrinks force to xs : preserves shrinks (disconnectUnlocked (E:=E) force to xs).
Proof. unfold_disconnect. preserves_calls. Qed.

Lemma wait_shrinks toerr err to : preserves shrinks (waitSocketUnlocked (E:=E) true toerr err to).
Proof. apply preserves_waitSocket_gen; [apply _|]. intros t. apply disconnect_shrinks. Qed.

#[local] Hint Resolve wait_shrinks : preserves.

Lemma chan_request_shrinks id op err failed to :
  preserves shrinks (chan_request (E:=E) id op err failed to).
Proof. unfold chan_request, check_open. preserves_calls. Qed.

Lemma chan_request_xsink_grows id op err failed to :
  preserves xsink_grows (chan_request (E:=E) id op err failed to).
Proof. unfold chan_request, check_open. preserves_calls. Qed.

Lemma drop_channel_xsink_grows id : preserves xsink_grows (drop_channel (E:=E) id).
Proof.
  unfold drop_channel, channel_destructor, get_chan, channelDeletedUnlocked, channel_closeUnlocked, get_chan.
  preserves_auto.
Qed.

Lemma open_channel_xsink_grows mk err to : preserves xsink_grows (open_channel (E:=E) mk err to).
Proof. unfold open_channel, open_loop, registerChannelUnlockedRaw. preserves_calls. Qed.

Lemma drop_channel_post id (s : st E) :
  registered s →
  wp True (drop_channel id)
    (λ _ s', registered s' ∧ channel_set (cl s') ⊆ channel_set (cl s) ∖ {[id]}) s.
Proof.
  intros Hr. apply wp_and.
  - eapply wp_mono; [|apply channel_destructor_registered]. intros ? s' H. by apply H.
  - unfold drop_channel, channel_destructor, get_chan, channelDeletedUnlocked, channel_closeUnlocked, get_chan.
    wp_step. wp_step. wp_step.
    + repeat first [wp_step | wp_world]. simpl. set_solver.
    + apply bool_decide_eq_false in H. assert (id ∉ channel_set (cl s)); [|set_solver].
      intros Hin. by apply (reg_channels _ Hr) in Hin.
Qed.

Lemma drop_channel_emits P `{!Plain P} id : preserves (emits P) (drop_channel (E:=E) id).
Proof.
  unfold drop_channel, channel_destructor, get_chan, channelDeletedUnlocked, channel_closeUnlocked, get_chan.
  preserves_auto.
Qed.

Lemma open_channel_emits P `{!Plain P} mk err to : (∀ p, plain (QH (mk p)) = true) →
  preserves (emits P) (open_channel (E:=E) mk err to).
Proof.
  intros Hmk. assert (∀ p, preserves (emits P) (callH (E:=E) (mk p))) as Hc.
  { intros p. apply (preserves_basic_call _ (QH (mk p))), Hmk. }
  unfold open_channel, open_loop, registerChannelUnlockedRaw. preserves_calls.
Qed.

Lemma read_chunk_no_output id stream n : preserves (emits (silent stream_out)) (read_chunk (E:=E) id stream n).
Proof.
  unfold read_chunk, get_chan. preserves_step; [preserves_auto|]. preserves_step; [|preserves_auto].
  by apply (preserves_emits_call _ (channel_read a stream n)).
Qed.

#[local] Hint Resolve read_chunk_no_output : preserves.

Lemma read_buffer_no_output id n stream to :
  preserves (emits (silent stream_out)) (read_buffer (E:=E) id n stream to).
Proof. unfold read_buffer, check_open. preserves_calls. Qed.

(** A read into a buffer moves the bytes it returns. *)
Lemma read_buffer_post id n stream to h (s : st E) :
  chan_ptr s id = Some h →
  wp True (read_buffer id n stream to) (λ bytes s', moved (received_by (chan_ptr s id) stream) s s' bytes) s.
Proof.
  intros Hc. set (f := received_by (chan_ptr s id) stream).
  unfold read_buffer. apply wp_check_open; [by rewrite Hc|]. intros h' _.
  apply (wp_blocking_basic (calm f)). intros s2 C2.
  apply (wp_loop (λ _ s1, moved f s s1 [])); [|by apply (moved_calm _ _ s); [apply moved_refl|]].
  intros _ s1 H1. wp_step. eapply wp_mono; [|by apply read_chunk_post].
  intros [rc bytes] s3 [H3 (e & bytes0 & _ & Hb)]. cbv beta iota. simpl in H3.
  assert (rc ≤ 0 → moved f s s3 []) as Hnil.
  { intros Hn. subst bytes. replace (Z.to_nat rc) with 0%nat in H3 by lia. by rewrite take_0 in H3. }
  wp_step; [|wp_step].
  - apply andb_true_iff in Heqb as [Hn%Z.ltb_lt _]. wp_step.
    eapply wp_mono; [|apply (preserves_doSessionErr (calm f))]. intros ? s4 C4. apply wp_mret. intros s5 C5.
    apply (moved_calm _ _ s4); [|done]. apply (moved_calm _ _ s3); [apply Hnil; lia|done].
  - apply wp_mret. intros s4 C4. by apply (moved_calm _ _ s3).
  - apply Z.ltb_ge in Heqb0. wp_step.
    eapply wp_mono; [|apply (preserves_waitSocket_raw (calm f))]. intros w s4 C4. cbv beta.
    assert (moved f s s4 []) as H4 by (apply (moved_calm _ _ s3); [by apply Hnil|done]).
    wp_step; [|by apply wp_mret]. wp_step. wp_world. apply wp_mret. intros s5 C5.
    apply (moved_calm _ _ s4); [done|]. transitivity (s4 <| xsink := Exc SSH2CHANNEL_TIMEOUT NoDetail :: xsink s4 |>);
      [apply basic_xsink|done].
Qed.

Lemma preserves_calm_eof f `{!Plain (silent f)} id : preserves (calm f) (channel_is_eof (E:=E) id).
Proof. unfold channel_is_eof, check_open, get_chan. preserves_auto. Qed.

(** No byte is moved, and exceptions are only added. *)
Definition logs (f g : event → list Byte.byte) (s s' : st E) : Prop :=
  emits (silent f) s s' ∧ emits (silent g) s s' ∧ xsink_grows s s'.

(** After the channel of a transfer has been opened: what the steps keep.  [K] is
    what is known of the bytes moved since. *)
Record transfer (K : st E → Prop) (id : positive) (s s1 : st E) : Prop := {
  tr_registered : registered s1;
  tr_channels : channel_set (cl s1) ⊆ {[id]} ∪ channel_set (cl s);
  tr_moved : K s1
}.

(** What a transfer leaves: no channel of its own. *)
Definition released (K : st E → Prop) (s s' : st E) : Prop :=
  registered s' ∧ channel_set (cl s') ⊆ channel_set (cl s) ∧ K s'.

Section transfers.
Context (f g : event → list Byte.byte) `{!Plain (silent f)} `{!Plain (silent g)}.
Context (K : st E → Prop) (HK : ∀ s1 s2, logs f g s1 s2 → K s1 → K s2).

Lemma chan_request_logs id op err failed to : preserves (logs f g) (chan_request (E:=E) id op err failed to).
Proof.
  intros s. eapply wp_mono; [|apply wp_and; [apply (chan_request_emits (silent f))|apply wp_and;
    [apply (chan_request_emits (silent g))|apply chan_request_xsink_grows]]].
  done.
Qed.

Lemma wp_transfer_request id op err failed to (Q : Z → st E → Prop) (s s1 : st E) :
  transfer K id s s1 →
  (∀ rc s2, transfer K id s s2 → request_outcome id op failed s1 rc s2 → Q rc s2) →
  wp True (chan_request id op err failed to) Q s1.
Proof.
  intros [Hr Hc Hp] HQ. apply wp_intro. intros rc s2 Hrun. apply HQ.
  - split.
    + by apply (wp_run _ _ _ _ _ (chan_request_registry keeps_registered id op err failed to s1) Hrun).
    + pose proof (wp_run _ _ _ _ _ (chan_request_shrinks id op err failed to s1) Hrun) as H.
      unfold shrinks in H. by transitivity (channel_set (cl s1)).
    + eapply HK; [|exact Hp]. apply (wp_run _ _ _ _ _ (chan_request_logs id op err failed to s1) Hrun).
  - by apply (wp_run _ _ _ _ _ (chan_request_post id op err failed to s1 Hr) Hrun).
Qed.

Lemma wp_transfer_drop id (s s1 : st E) :
  transfer K id s s1 → wp True (drop_channel id) (λ _ s', released K s s') s1.
Proof.
  intros [Hr Hc Hp]. eapply wp_mono; [|apply wp_and; [by apply drop_channel_post|apply wp_and;
    [apply (drop_channel_emits (silent f))|apply wp_and;
    [apply (drop_channel_emits (silent g))|apply drop_channel_xsink_grows]]]].
  intros ? s2 ((R & C) & H). split; [done|]. split; [set_solver|]. by eapply HK.
Qed.

Lemma transfer_quiet id s s1 s2 : transfer K id s s1 → quiet s1 s2 → K s2 → transfer K id s s2.
Proof.
  intros [Hr Hc Hp] Q P. split; [by apply (quiet_registered s1)| |done].
  destruct Q as [-> _]. done.
Qed.
End transfers.

Lemma wp_transfer_open mk err to (Q : option positive → st E → Prop) (s : st E) :
  (∀ p, plain (QH (mk p)) = true) → registered s →
  (∀ s1, registered s1 → channel_set (cl s1) ⊆ channel_set (cl s) →
     (∀ f g, Plain (silent f) → Plain (silent g) → logs f g s s1) → xsink s1 ≠ [] → Q None s1) →
  (∀ id s1, transfer (λ s1, ∀ f g, Plain (silent f) → Plain (silent g) → logs f g s s1) id s s1 →
     is_Some (chan_ptr s1 id) → Q (Some id) s1) →
  wp True (open_channel mk err to) Q s.
Proof.
  intros Hmk Hr Hn Hs. apply wp_intro. intros r s1 Hrun.
  pose proof (wp_run _ _ _ _ _ (open_channel_post mk err to s Hr) Hrun) as Ho.
  assert (∀ f g, Plain (silent f) → Plain (silent g) → logs f g s s1) as Hp.
  { intros f g Hf Hg. split_and!.
    - apply (wp_run _ _ _ _ _ (open_channel_emits (silent f) mk err to Hmk s) Hrun).
    - apply (wp_run _ _ _ _ _ (open_channel_emits (silent g) mk err to Hmk s) Hrun).
    - apply (wp_run _ _ _ _ _ (open_channel_xsink_grows mk err to s) Hrun). }
  destruct r as [id|]; simpl in Ho.
  - destruct Ho as (R & Hset & _). apply Hs; [by split; [|by rewrite Hset|]|].
    apply (reg_channels _ R). set_solver.
  - destruct Ho as (R & X & [[Hcl _]|(D & _)]).
    + apply Hn; [done|by rewrite Hcl|done|done].
    + apply Hn; [done| |done|done]. rewrite (disc_channel_set _ D). set_solver.
Qed.

Lemma logs_paired f g (s s1 s2 : st E) : Plain (silent f) → Plain (silent g) →
  logs f g s1 s2 → paired f g s s1 → paired f g s s2.
Proof. intros Hf Hg (Ef & Eg & _) P. transitivity s1; [done|]. exists []. split; by apply advances_silent. Qed.

(** The copy loop of the download. *)
Lemma scp_get_loop (s s1 s2 : st E) id h to :
  let f := received_by (chan_ptr s1 id) 0 in
  let K := paired f stream_out s in
  chan_ptr s1 id = Some h → quiet s1 s2 → transfer K id s s2 →
  wp True
    (loop fuel (λ _ : unit,
       eof ← channel_is_eof id;
       if eof : bool then mret (inr tt)
       else
         bytes ← read_buffer id 4096 0 to;
         _ ← match bytes with
             | [] => mret tt
             | _ => ok ← callB (ostream_write bytes); when (negb ok) (raise_exc true ExternalExc)
             end;
         failed ← has_exc;
         mret (if failed : bool then inr tt else inl tt)) tt) (λ _ s3, transfer K id s s3) s2.
Proof.
  intros f K Hh Q2 T2. assert (Plain (silent f)) as Hf by apply received_by_plain.
  apply (wp_loop (λ _ s3, transfer K id s s3 ∧ quiet s1 s3)); [|done].
  intros _ s3 [T3 Q3]. wp_step.
  eapply wp_mono; [|apply wp_and; [apply (preserves_calm_eof f)|apply (preserves_calm_eof stream_out)]].
  intros eof s4 [[Q34 E4] [_ E4']]. assert (quiet s1 s4) as Q4 by by transitivity s3.
  assert (paired f stream_out s3 s4) as P4 by (exists []; split; by apply advances_silent).
  assert (transfer K id s s4) as T4.
  { apply (transfer_quiet K id s s3); [done..|]. unfold K. transitivity s3; [apply T3|done]. }
  wp_step; [by apply wp_mret|]. wp_step.
  assert (chan_ptr s4 id = chan_ptr s1 id) as Hp4 by by apply quiet_chan_ptr.
  eapply wp_mono; [|apply wp_and; [by apply (read_buffer_post id 4096 0 to h); rewrite Hp4|
    apply read_buffer_no_output]].
  rewrite Hp4. intros bytes s5 [[Q5 A5] E5]. cbv beta. apply advances_silent in E5.
  assert (quiet s1 s5) as Q15 by by transitivity s4.
  wp_step. apply (wp_mono _ _ (λ _ s6, paired f stream_out s4 s6 ∧ quiet s4 s6)).
  { intros ? s6 [P6 Q6]. wp_step. assert (transfer K id s s6) as T6.
    { apply (transfer_quiet K id s s4); [done..|]. unfold K. transitivity s4; [apply T4|done]. }
    apply wp_has_exc; intros _; apply wp_mret; [done|]. split; [done|by transitivity s4]. }
  destruct bytes as [|b bytes]; [by apply wp_mret; split; [exists []|]|].
  wp_step. wp_world. set (s6 := logged _ _ _).
  assert (paired f stream_out s4 s6) as P6.
  { exists (b :: bytes). split.
    - rewrite <- (app_nil_r (b :: bytes)). eapply advances_trans; [exact A5|]. apply (advances_logged f s5).
    - change (b :: bytes) with ([] ++ b :: bytes). eapply advances_trans; [exact E5|].
      apply (advances_logged stream_out s5). }
  assert (quiet s4 s6) as Q6 by (transitivity s5; [done|apply frame_logged]).
  wp_step; [wp_world|done]. split; [|done]. transitivity s6; [done|apply basic_xsink].
Qed.


(** %Qore's InputStream::read returns at most the bytes it is asked for. *)
Definition stream_within_request : Prop := ∀ n (e : E), 0 ≤ n →
  match (answer (istream_read n) e).1 with
  | Some bytes => Z.of_nat (length bytes) ≤ n
  | None => True
  end.

(** [n] bytes have been taken from the stream and sent. *)
Definition uploaded (f : event → list Byte.byte) (n : Z) (s s' : st E) : Prop :=
  xsink s' = [] →
  ∃ bs, Z.of_nat (length bs) = n ∧ advances stream_in s s' bs ∧ advances f s s' bs.

Lemma uploaded_start f (s s1 : st E) : advances stream_in s s1 [] → advances f s s1 [] → uploaded f 0 s s1.
Proof. intros H1 H2 _. by exists []. Qed.

Lemma uploaded_trans f m n (s s1 s2 : st E) :
  uploaded f m s s1 → uploaded f n s1 s2 → xsink_grows s1 s2 → uploaded f (m + n) s s2.
Proof.
  intros U1 U2 G X. assert (xsink s1 = []) as X1.
  { destruct (xsink s1) as [|e l] eqn:Hx; [done|]. destruct (xsink_grows_nonempty s1 s2); [by rewrite Hx|done|done]. }
  destruct (U1 X1) as (b1 & L1 & A1 & B1). destruct (U2 X) as (b2 & L2 & A2 & B2).
  exists (b1 ++ b2). rewrite length_app. split_and!; [lia|by eapply advances_trans..].
Qed.

Lemma uploaded_logs f n (s s1 s2 : st E) : Plain (silent f) →
  logs f stream_in s1 s2 → uploaded f n s s1 → uploaded f n s s2.
Proof.
  intros Hf (Ef & Eg & G) U. replace n with (n + 0) by lia. eapply uploaded_trans; [exact U| |done].
  apply uploaded_start; by apply advances_silent.
Qed.

Lemma write_chunk_no_input id stream to data :
  preserves (emits (silent stream_in)) (write_chunk (E:=E) id stream to data).
Proof.
  unfold write_chunk, get_chan. preserves_step. preserves_step; [preserves_auto|].
  preserves_step; [by apply (preserves_emits_call _ (QZ (channel_write a0 stream data)))|preserves_auto].
Qed.

#[local] Hint Resolve write_chunk_no_input preserves_write_chunk : preserves.

Lemma write_no_input id buf stream to : preserves (emits (silent stream_in)) (write (E:=E) id buf stream to).
Proof. unfold write, check_open. preserves_calls. Qed.

Lemma write_quiet id buf stream to : preserves quiet (write (E:=E) id buf stream to).
Proof. unfold write, check_open. preserves_calls. Qed.

Lemma write_xsink_grows id buf stream to : preserves xsink_grows (write (E:=E) id buf stream to).
Proof. unfold write, check_open. preserves_calls. Qed.

(** Sending what was taken from the stream. *)
Lemma send_chunk_post id bytes to (s s1 : st E) :
  writes_within_buffer → bytes ≠ [] → Z.of_nat (length bytes) < 2 ^ 64 →
  quiet s s1 → advances stream_in s s1 bytes → advances (sent_by (chan_ptr s id) 0) s s1 [] →
  wp True (write id bytes 0 to)
    (λ _ s2, uploaded (sent_by (chan_ptr s id) 0) (Z.of_nat (length bytes)) s s2 ∧ quiet s s2 ∧
             xsink_grows s1 s2) s1.
Proof.
  intros Hw Hne Hlen Q1 A1 B1.
  eapply wp_mono; [|apply wp_and; [by apply write_post|apply wp_and; [apply write_quiet|
    apply wp_and; [apply write_no_input|apply write_xsink_grows]]]].
  intros rc s2 (W & Q2 & E2 & G2). split_and!; [|by transitivity s1|done].
  intros X. destruct (W X) as [_ [_ A2]]. rewrite (quiet_chan_ptr s s1) in A2 by done.
  exists bytes. split_and!; [done| |].
  - rewrite <- (app_nil_r bytes). eapply advances_trans; [exact A1|]. by apply advances_silent.
  - change bytes with ([] ++ bytes). eapply advances_trans; [exact B1|done].
Qed.

Lemma uploaded_failed f n (s s1 : st E) : xsink s1 ≠ [] → uploaded f n s s1.
Proof. by intros H X. Qed.

(** The copy loop of the upload. *)
Lemma scp_put_loop (s s1 : st E) id h size to :
  let f := sent_by (chan_ptr s1 id) 0 in
  writes_within_buffer → stream_within_request → chan_ptr s1 id = Some h →
  transfer (uploaded f 0 s) id s s1 →
  wp True
    (loop fuel (λ size : Z,
       if size <=? 0 then mret (inr tt)
       else
         r ← (call (istream_read (Z.min 4096 size)) : M (option (list Byte.byte)));
         _ ← when (bool_decide (r = None)) (raise_exc true ExternalExc);
         failed ← has_exc;
         if failed : bool then mret (inr tt)
         else
           let bytes := default [] r in
           if bool_decide (bytes = []) then
             _ ← raise true "SSH2CLIENT-SCPPUT-ERROR";
             mret (inr tt)
           else
             _ ← write id bytes 0 to;
             failed ← has_exc;
             mret (if failed : bool then inr tt else inl (size - Z.of_nat (length bytes)))) size)
    (λ _ s3, transfer (uploaded f (Z.max 0 size) s) id s s3) s1.
Proof.
  intros f Hw Hr Hh T1. assert (Plain (silent f)) as Hf by apply sent_by_plain.
  apply (wp_loop (λ n s3, quiet s1 s3 ∧ transfer (uploaded f (Z.max 0 size - Z.max 0 n) s) id s s3));
    [|by rewrite Z.sub_diag].
  intros n s3 [Q3 T3]. wp_step.
  { apply Z.leb_le in Heqb. apply wp_mret. replace (Z.max 0 size - Z.max 0 n) with (Z.max 0 size) in T3 by lia. done. }
  apply Z.leb_gt in Heqb. wp_step. wp_world. rename a into r.
  pose proof (Hr (Z.min 4096 n) (env s3) ltac:(lia)) as Hlen. rewrite H in Hlen. simpl in Hlen.
  set (s4 := logged _ _ _). assert (quiet s3 s4) as Q4 by apply frame_logged.
  assert (∀ s5 k, quiet s3 s5 → xsink s5 ≠ [] → transfer (uploaded f k s) id s s5) as Hfail.
  { intros s5 k Q5 X5. destruct T3 as [R C _]. split; [by apply (quiet_registered s3)| |by apply uploaded_failed].
    destruct Q5 as [-> _]. done. }
  wp_step. apply wp_when; intros Hb; [wp_world|]; wp_step; apply wp_has_exc; intros X.
  1,3: by apply wp_mret, Hfail.
  { done. }
  apply bool_decide_eq_false in Hb. destruct r as [bytes|]; [|done]. cbn [default].
  wp_step; [wp_step; wp_world; apply wp_mret, Hfail; [|done];
    transitivity s4; [done|apply (frame_xsink (R := quiet))]|].
  apply bool_decide_eq_false in Heqb0. assert (chan_ptr s3 id = chan_ptr s1 id) as Hp3 by by apply quiet_chan_ptr.
  wp_step. eapply wp_mono; [|apply (send_chunk_post id bytes to s3); [done|done|lia|done| |]].
  - intros rc s5 (U5 & Q5 & G5). cbv beta. rewrite Hp3 in U5. wp_step.
    apply wp_has_exc; intros X5; apply wp_mret; [by apply Hfail|].
    split; [by transitivity s3|]. destruct T3 as [R C U].
    split; [by apply (quiet_registered s3)|by destruct Q5 as [-> _]|].
    change (Datatypes.id bytes) with bytes. replace (Z.max 0 size - Z.max 0 (n - Z.of_nat (length bytes)))
      with (Z.max 0 size - Z.max 0 n + Z.of_nat (length bytes)) by lia.
    eapply uploaded_trans; [exact U|exact U5|]. by transitivity s4; [exists []|].
  - apply (advances_logged stream_in s3).
  - apply (advances_logged (sent_by (chan_ptr s3 id) 0) s3).
Qed.

(** C38: An SCP upload from a stream that ends without an exception has taken
    exactly the announced number of bytes from the stream and sent those bytes on the
    channel, in order; with or without an error, the channel it opened is released. *)
Theorem scp_put_copies (path : string) (size mode mtime atime to : Z) (s s' : st E) :
  writes_within_buffer → stream_within_request → registered s →
  scpPut_stream path size mode mtime atime to s = Some (tt, s') →
  ∃ c, released (uploaded (sent_by c 0) (Z.max 0 size) s) s s'.
Proof.
  intros Hw Hstream Hr. apply (wp_run _ (λ _ s', ∃ c, released (uploaded (sent_by c 0) (Z.max 0 size) s) s s')).
  unfold scpPut_stream, scpPutChannel. wp_step. apply wp_transfer_open; [done|done| |].
  { intros s1 R C P X. apply wp_mret. exists None. split; [done|]. split; [done|by apply uploaded_failed]. }
  intros id s1 [R C L] [h Hh]. cbv beta iota. set (f := sent_by (chan_ptr s1 id) 0) in *.
  assert (Plain (silent f)) as Hf by apply sent_by_plain. set (K := uploaded f (Z.max 0 size) s).
  assert (∀ s1 s2, logs f stream_in s1 s2 → K s1 → K s2) as HK by (intros ??; by apply uploaded_logs).
  destruct (L f stream_in Hf _) as (Ef & Ei & _).
  assert (transfer (uploaded f 0 s) id s s1) as T1.
  { split; [done..|]. by apply uploaded_start; apply advances_silent. }
  apply (wp_mono _ _ (λ _ s', released K s s')); [intros; by eexists|].
  wp_step. eapply wp_mono; [|by apply (scp_put_loop s s1 id h size to)]. intros ? s2 T2. cbv beta.
  unfold sendEof, waitEof, waitClosed. wp_step.
  apply (wp_transfer_request f stream_in K HK _ _ _ _ _ _ s); [done|]. intros rc s3 T3 _.
  wp_step. apply (wp_mono _ _ (λ _ s4, transfer K id s s4)).
  { intros ? s4 T4. by apply (wp_transfer_drop f stream_in K HK). }
  wp_step; [|done]. wp_step. apply (wp_transfer_request f stream_in K HK _ _ _ _ _ _ s); [done|]. intros rc4 s4 T4 _.
  wp_step; [|done]. wp_step. apply (wp_transfer_request f stream_in K HK _ _ _ _ _ _ s); [done|]. intros rc5 s5 T5 _.
  by apply wp_mret.
Qed.
End scp.

(** * Defects of the code, as theorems *)

(** A server that takes two bytes, then fails once, then takes everything. *)
Definition failing_write_env : Env nat :=
  sim_env (λ i r, match r with
                  | QZ (channel_write _ _ data) =>
                      if (i =? 1)%nat then 2 else if (i =? 2)%nat then -1 else Z.of_nat (length data)
                  | r => quiet_ans r
                  end) 20.

(** [write] goes on after a failed write and takes the negative code off the
    count: it sends bytes that were sent already and reports success. *)
Theorem write_repeats_after_error :
  let s := state_two SSH2ClientClass in
  let buf := [Byte.x61; Byte.x62; Byte.x63] in
  result (@write nat failing_write_env 1 buf 0 1000) s = Some 3 ∧
  (streamed (sent_by (Some 7%positive) 0) <$> final (@write nat failing_write_env 1 buf 0 1000) s) =
    Some [Byte.x61; Byte.x62; Byte.x62; Byte.x63].
Proof. vm_compute. done. Qed.

(** A connection that is lost: every read fails. *)
Definition lost_env (n : nat) : Env nat :=
  sim_env (λ _ r, match r with
                  | channel_read _ _ _ => (LIBSSH2_ERROR_SOCKET_RECV, [])
                  | r => quiet_ans r
                  end) n.

(** A read of a given size on a lost connection never returns, with any
    iteration bound: an error code leads neither out of the loop nor to a wait. *)
Theorem sized_read_hangs (n size : nat) (stream to : Z) :
  @read_size nat (lost_env n) size 1 stream to (state_two SSH2ClientClass) = None.
Proof.
  unfold read_size, mbind, prog_bind. rewrite (check_open_open 1 7) by (vm_compute; done).
  unfold with_blocking_helper, mbind, prog_bind.
  destruct (setBlockingUnlocked false (state_two SSH2ClientClass)) as [[[] s1]|]; [|done].
  rewrite lost_loop; [done|]. intros s. unfold read_chunk. eexists. reflexivity.
Qed.

(** ** Witnesses *)

(** A server that hands over two bytes per read for the first requests, takes two
    bytes per write, and ends the channel late; a stream of three bytes at a time. *)
Definition chan_env (reads : nat) : Env nat :=
  sim_env (λ i r, match r with
                  | channel_read _ _ n =>
                      if (i <? reads)%nat then (Z.of_nat (Nat.min n 2), take (Nat.min n 2) [Byte.x61; Byte.x62])
                      else (0, [])
                  | QZ (channel_write _ _ data) => Z.min 2 (Z.of_nat (length data))
                  | QB (channel_eof _) => (25 <? i)%nat
                  | istream_read n => Some (take (Z.to_nat n) [Byte.x61; Byte.x62; Byte.x63])
                  | r => quiet_ans r
                  end) 50.

Lemma chan_env_reads n : @reads_within_buffer nat (chan_env n).
Proof.
  intros c stream k e. simpl. destruct (e <? n)%nat; simpl; [|lia].
  rewrite length_take. simpl. lia.
Qed.

Lemma chan_env_writes n : @writes_within_buffer nat (chan_env n).
Proof. intros c stream data e. simpl. lia. Qed.

Lemma chan_env_stream n : @stream_within_request nat (chan_env n).
Proof.
  intros k e Hk. cbn [answer chan_env sim_env fst]. rewrite length_take. simpl. lia.
Qed.

(** The run of a method or function on a client with an open channel. *)
Definition open_state : st nat := state_two SSH2ClientClass.

Lemma registered_open_state : registered open_state.
Proof. apply registered_state_two. Qed.

Lemma closed_channel_refused_witness :
  chan_ptr open_state 9 = None ∧
  @run_method nat quiet_env 9 (MWrite [Byte.x61] 0 1000) open_state = Some (tt, refused open_state).
Proof.
  split; [reflexivity|]. apply (@closed_channel_refused nat quiet_env 9 (MWrite [Byte.x61] 0 1000) open_state).
  reflexivity.
Defined.

Lemma open_channel_sound_witness :
  ∃ s', @run_opener nat quiet_env (OSession 1000) open_state = Some (Some 3%positive, s') ∧
    open_outcome open_state (Some 3%positive) s'.
Proof.
  destruct (@run_opener nat quiet_env (OSession 1000) open_state) as [[r s']|] eqn:Hrun;
    [|vm_compute in Hrun; discriminate].
  assert (r = Some 3%positive) as -> by (vm_compute in Hrun; congruence).
  exists s'. split; [reflexivity|].
  exact (@open_channel_sound nat quiet_env (OSession 1000) open_state s' _ registered_open_state Hrun).
Defined.

Lemma channel_api_registered_witness :
  ∃ s', @channel_run nat quiet_env open_state s' ∧ registered s' ∧
    @run_method nat quiet_env 9 MEof s' = Some (tt, refused s').
Proof.
  destruct (@run_api nat quiet_env (AOpen channel_open_session EmptyString 1000) open_state)
    as [[[] s']|] eqn:Hrun; [|vm_compute in Hrun; discriminate].
  assert (@channel_run nat quiet_env open_state s') as Hc.
  { eapply channel_run_step; [apply channel_run_refl|exact Hrun]. }
  destruct (@channel_api_registered nat quiet_env open_state s' registered_open_state Hc) as [Hr Hm].
  exists s'. split; [exact Hc|]. split; [exact Hr|]. apply Hm.
  assert (bool_decide (9%positive ∈ channel_set (cl s')) = false) as H9.
  { vm_compute in Hrun. injection Hrun as <-. vm_compute. reflexivity. }
  exact (bool_decide_eq_false_1 _ H9).
Defined.

Lemma chan_request_outcome_witness :
  ∃ s', @chan_request nat quiet_env 1 CoShell EmptyString nonzero 1000 open_state = Some (0, s') ∧
    request_outcome 1 CoShell nonzero open_state 0 s'.
Proof.
  destruct (@chan_request nat quiet_env 1 CoShell EmptyString nonzero 1000 open_state) as [[rc s']|] eqn:Hrun;
    [|vm_compute in Hrun; discriminate].
  assert (rc = 0) as -> by (vm_compute in Hrun; congruence). exists s'. split; [reflexivity|].
  exact (@chan_request_outcome nat quiet_env 1 CoShell EmptyString nonzero 1000 open_state s' 0
    registered_open_state Hrun).
Defined.

Lemma read_available_returns_received_witness :
  ∃ str s', @read_available nat (chan_env 3) 1 0 1000 EmptyString open_state = Some (Some str, s') ∧
    length str = 4%nat ∧ moved (received_by (Some 7%positive) 0) open_state s' str.
Proof.
  set (str := [Byte.x61; Byte.x62; Byte.x61; Byte.x62]).
  destruct (run_result (@read_available nat (chan_env 3) 1 0 1000 EmptyString) open_state (Some str))
    as (s' & Hrun & _); [vm_compute; reflexivity|].
  exists str, s'. split; [exact Hrun|]. split; [reflexivity|].
  exact (@read_available_returns_received nat (chan_env 3) 1 0 1000 EmptyString open_state s' str
    registered_open_state Hrun).
Defined.

Lemma read_size_exact_witness :
  ∃ str s', @read_size nat (chan_env 30) 3 1 0 1000 open_state = Some (Some str, s') ∧ length str = 3%nat ∧
    moved (received_by (Some 7%positive) 0) open_state s' str.
Proof.
  set (str := [Byte.x61; Byte.x62; Byte.x61]).
  destruct (run_result (@read_size nat (chan_env 30) 3 1 0 1000) open_state (Some str))
    as (s' & Hrun & _); [vm_compute; reflexivity|].
  exists str, s'. split; [exact Hrun|].
  apply (@read_size_exact nat (chan_env 30) 3 1 0 1000 open_state s' str (chan_env_reads 30));
    [lia|reflexivity|exact Hrun].
Defined.

Lemma write_sends_all_witness :
  ∃ s', @write nat (chan_env 0) 1 [Byte.x61; Byte.x62; Byte.x63] 0 1000 open_state = Some (3, s') ∧
    moved (sent_by (Some 7%positive) 0) open_state s' [Byte.x61; Byte.x62; Byte.x63].
Proof.
  destruct (run_result (@write nat (chan_env 0) 1 [Byte.x61; Byte.x62; Byte.x63] 0 1000) open_state 3)
    as (s' & Hrun & Hfin); [vm_compute; reflexivity|].
  assert (xsink <$> Some s' = Some []) as Hx by (rewrite <- Hfin; vm_compute; reflexivity).
  exists s'. split; [exact Hrun|].
  apply (@write_sends_all nat (chan_env 0) 1 [Byte.x61; Byte.x62; Byte.x63] 0 1000 open_state s' 3
    (chan_env_writes 0)); [done|reflexivity|exact Hrun|by injection Hx].
Defined.


Lemma scp_put_copies_witness :
  ∃ s' c bs, @scpPut_stream nat (chan_env 100) "f" 5 0 0 0 1000 open_state = Some (tt, s') ∧
    length bs = 5%nat ∧ advances (sent_by c 0) open_state s' bs.
Proof.
  destruct (run_result (@scpPut_stream nat (chan_env 100) "f" 5 0 0 0 1000) open_state tt)
    as (s' & Hrun & Hfin); [vm_compute; reflexivity|].
  assert (xsink <$> Some s' = Some []) as Hx by (rewrite <- Hfin; vm_compute; reflexivity).
  destruct (@scp_put_copies nat (chan_env 100) "f" 5 0 0 0 1000 open_state s' (chan_env_writes 100)
    (chan_env_stream 100) registered_open_state Hrun) as (c & _ & _ & H).
  destruct H as (bs & Hlen & _ & Hs); [by injection Hx|].
  exists s', c, bs. split; [exact Hrun|]. split; [simpl in Hlen; lia|exact Hs].
Defined.
