(* ===== verification/Info.v ===== *)
(** What a client reports: the host key and its fingerprints, the algorithms, the banner,
    the connection, the exit signal of a channel (SSH2Client.h, SSH2Client.cpp,
    SFTPClient.cpp, SSH2Channel.cpp), and the access of the I/O controller to its
    descriptor. *)

From S2P Require Import Prelude Modes World Sim Defaults Transport Config HostKey Connect Channel.

(** ** Fingerprints *)

Definition LIBSSH2_HOSTKEY_HASH_MD5 : Z := 1.
Definition LIBSSH2_HOSTKEY_HASH_SHA1 : Z := 2.
Definition LIBSSH2_HOSTKEY_HASH_SHA256 : Z := 3.

Definition hex_digits : list Ascii.ascii := list_ascii_of_string "0123456789ABCDEF".

Definition hex_digit (n : nat) : Ascii.ascii := nth n hex_digits "0"%char.

(** [sprintf("%02X", (unsigned char)b)] *)
Definition hex2 (b : Byte.byte) : string :=
  let n := N.to_nat (Byte.to_N b) in
  String (hex_digit (n / 16)) (String (hex_digit (n mod 16)) EmptyString).

(** The byte at an index of a buffer that is long enough. *)
Definition byte_at (bytes : list Byte.byte) (i : nat) : Byte.byte := nth i bytes Byte.x00.

(** The text of a hash of [n] bytes: the first byte, then the others after colons. *)
Definition hash_text (n : nat) (bytes : list Byte.byte) : string :=
  (hex2 (byte_at bytes 0) ++
   foldr (λ i s, ":" ++ hex2 (byte_at bytes i) ++ s) EmptyString (seq 1 (n - 1)))%string.

(** The fields of [Ssh2HostKeyInfo]. *)
Record host_key_info := mkHostKeyInfo {
  hk_md5 : option string;
  hk_sha1 : option string;
  hk_sha256 : option string;
  hk_key_type : string;
  hk_key_data : string
}.

(** The fields of [Ssh2ConnectionInfo], and of [SftpConnectionInfo] with the path. *)
Record connection_info := mkConnectionInfo {
  ci_host : string;
  ci_port : Z;
  ci_user : string;
  ci_keyfile_priv : string;
  ci_keyfile_pub : string;
  ci_fingerprint : option string;
  ci_authenticated : option string;
  ci_connected : bool;
  ci_methods : option (list (string * string));
  ci_path : option string
}.

(** The fields of [Ssh2ExitSignalInfo]. *)
Record exit_signal_info := mkExitSignal {
  es_signal : option string;
  es_errmsg : option string;
  es_langtag : option string
}.

(** The name of a key type. *)
Definition reported_key_type (type : Z) : string :=
  if type =? LIBSSH2_HOSTKEY_TYPE_RSA then "ssh-rsa"
  else if type =? LIBSSH2_HOSTKEY_TYPE_DSS then "ssh-dss"
  else if type =? LIBSSH2_HOSTKEY_TYPE_ECDSA_256 then "ecdsa-sha2-nistp256"
  else if type =? LIBSSH2_HOSTKEY_TYPE_ECDSA_384 then "ecdsa-sha2-nistp384"
  else if type =? LIBSSH2_HOSTKEY_TYPE_ECDSA_521 then "ecdsa-sha2-nistp521"
  else if type =? LIBSSH2_HOSTKEY_TYPE_ED25519 then "ssh-ed25519"
  else "unknown".

(** The methods that are reported, with their names. *)
Definition LIBSSH2_METHOD_LANG_CS : Z := 8.
Definition LIBSSH2_METHOD_LANG_SC : Z := 9.

Definition reported_methods : list (string * Z) :=
  [("KEX", LIBSSH2_METHOD_KEX); ("HOSTKEY", LIBSSH2_METHOD_HOSTKEY);
   ("CRYPT_CS", LIBSSH2_METHOD_CRYPT_CS); ("CRYPT_SC", LIBSSH2_METHOD_CRYPT_SC);
   ("MAC_CS", LIBSSH2_METHOD_MAC_CS); ("MAC_SC", LIBSSH2_METHOD_MAC_SC);
   ("COMP_CS", LIBSSH2_METHOD_COMP_CS); ("COMP_SC", LIBSSH2_METHOD_COMP_SC);
   ("LANG_CS", LIBSSH2_METHOD_LANG_CS); ("LANG_SC", LIBSSH2_METHOD_LANG_SC)]%string.

(** [if (str && len)] *)
Definition if_not_empty (s : option string) : option string :=
  match s with Some EmptyString => None | _ => s end.

Section info.
Context {E : Type} `{!Env E}.

Abbreviation M := (prog (st E)).

Definition key_hash (hash_type : Z) (n : nat) : M (option string) :=
  s ← cfield ssh_session;
  h ← (call (hostkey_hash s hash_type) : M (option (list Byte.byte)));
  mret (hash_text n <$> h).

Definition fingerprintUnlocked : M (option string) :=
  connected ← sshConnectedUnlocked;
  if negb connected then mret None else key_hash LIBSSH2_HOSTKEY_HASH_MD5 16.

Definition fingerprint : M (option string) := fingerprintUnlocked.

Definition getHostKeyLocked : M (option host_key_info) :=
  connected ← sshConnectedUnlocked;
  if negb connected then
    _ ← raise true "SSH2CLIENT-NOT-CONNECTED";
    mret None
  else
    s ← cfield ssh_session;
    hk ← (call (session_hostkey s) : M (option (string * Z)));
    match hk with
    | None =>
        _ ← raise true "SSH2-HOSTKEY-ERROR";
        mret None
    | Some (hostkey, type) =>
        md5 ← key_hash LIBSSH2_HOSTKEY_HASH_MD5 16;
        sha1 ← key_hash LIBSSH2_HOSTKEY_HASH_SHA1 20;
        sha256 ← key_hash LIBSSH2_HOSTKEY_HASH_SHA256 32;
        mret (Some (mkHostKeyInfo md5 sha1 sha256
          (reported_key_type type) hostkey))
    end.

(** ** Algorithms, banner, trace level *)

(** The session of the connection, or a temporary one: [None] if there is neither. *)
Definition query_session : M (option (ptr * bool)) :=
  connected ← sshConnectedUnlocked;
  own ← cfield ssh_session;
  if connected && bool_decide (is_Some own) then mret (Some (own, false))
  else
    s ← callH session_init;
    mret (if bool_decide (is_Some s) then Some (s, true) else None).

Definition getSupportedAlgorithms (method_type : Z) : M (option (list string)) :=
  q ← query_session;
  match q with
  | None =>
      _ ← raise true "SSH2-ERROR";
      mret None
  | Some (session, temp_session) =>
      '(rc, algs) ← (call (session_supported_algs session method_type) : M (Z * list string));
      if rc <=? 0 then
        _ ← when temp_session (_ ← callZ (session_free session); mret tt);
        _ ← raise true "SSH2-ERROR";
        mret None
      else
        _ ← callU (ssh2_free session);
        _ ← when temp_session (_ ← callZ (session_free session); mret tt);
        mret (Some (take (Z.to_nat rc) algs))
  end.

Definition getBannerLocked : M (option string) :=
  connected ← sshConnectedUnlocked;
  if negb connected then
    banner ← cfield ssh_banner;
    mret (if str_empty banner then None else Some banner)
  else
    s ← cfield ssh_session;
    callS (session_banner_get s).

Definition setTraceLevelLocked (bitmask : Z) : M Z :=
  connected ← sshConnectedUnlocked;
  if negb connected then
    _ ← raise true "SSH2CLIENT-NOT-CONNECTED";
    mret (-1)
  else
    s ← cfield ssh_session;
    _ ← callU (session_trace s bitmask);
    mret 0.

(** ** The connection *)

Fixpoint query_methods (l : list (string * Z)) : M (list (string * string)) :=
  match l with
  | [] => mret []
  | (name, method) :: l =>
      s ← cfield ssh_session;
      meth ← callS (session_methods s method);
      rest ← query_methods l;
      mret (match meth with Some m => (name, m) :: rest | None => rest end)
  end.

Definition sshInfoIntern : M connection_info :=
  c ← gets cl;
  fp ← fingerprintUnlocked;
  connected ← sshConnectedUnlocked;
  report ← sshConnectedUnlocked;
  methods ← (if report : bool then
               l ← query_methods reported_methods;
               mret (Some l)
             else mret None);
  mret (mkConnectionInfo (sshhost c) (sshport c) (sshuser c) (sshkeys_priv c) (sshkeys_pub c) fp
    (sshauthenticatedwith c) connected methods None).

Definition sshInfo : M connection_info := sshInfoIntern.

Definition sftpInfo : M connection_info :=
  i ← sshInfoIntern;
  path ← cfield sftppath;
  mret (mkConnectionInfo (ci_host i) (ci_port i) (ci_user i) (ci_keyfile_priv i) (ci_keyfile_pub i)
    (ci_fingerprint i) (ci_authenticated i) (ci_connected i) (ci_methods i)
    (if str_empty path then None else Some path)).

(** ** The settings, which are copied under the lock *)

Definition getHostLocked : M string := cfield sshhost.
Definition getPortLocked : M Z := cfield sshport.
Definition getUserLocked : M string := cfield sshuser.
Definition getPasswordLocked : M string := cfield sshpass.
Definition getKeyPrivLocked : M string := cfield sshkeys_priv.
Definition getKeyPubLocked : M string := cfield sshkeys_pub.
Definition getAuthenticatedWithLocked : M string := cfield (λ c, default EmptyString (sshauthenticatedwith c)).
Definition getKnownHostsFileLocked : M string := cfield known_hosts_file.
Definition getVerifyHostKey : M bool := cfield verify_host_key.
Definition getHostKeyPolicy : M Z := cfield host_key_policy.
Definition getClientIdentityProvider : M ptr := cfield client_identity_provider.
Definition getHostKeyStore : M ptr := cfield host_key_store.
Definition getClientAuthOrder : M Z := cfield client_auth_order.
Definition getClientIdentityFallbackPolicy : M Z := cfield client_identity_fallback_policy.
Definition getUseAgent : M bool := cfield use_agent.
Definition getKeepalive : M Z := cfield keepalive_interval.

(** ** The exit signal *)

Definition free_string (s : option string) : M unit :=
  when (bool_decide (is_Some s)) (
    session ← cfield ssh_session;
    callU (ssh2_free session)).

Definition getExitSignal (id : positive) : M (option exit_signal_info) :=
  closed ← check_open id;
  if closed : bool then mret None
  else
    c ← get_chan id;
    '(rc, (exitsignal, errmsg, langtag)) ←
      (call (channel_get_exit_signal c) : M (Z * (option string * option string * option string)));
    if negb (rc =? 0) then
      _ ← doSessionErrUnlocked;
      mret None
    else
      _ ← free_string exitsignal;
      _ ← free_string errmsg;
      _ ← free_string langtag;
      mret (Some (mkExitSignal (if_not_empty exitsignal) (if_not_empty errmsg) (if_not_empty langtag))).

(** ** The I/O controller, which does not take the lock *)

Definition getPollableDescriptor : M Z := callZ socket_getSocket.
Definition holdPollableDescriptor (fd : Z) : M Z := callZ (socket_holdDescriptor fd).
Definition closeIo : M unit := callU socket_close.
End info.

(** * Facts *)

(** ** Fingerprints can be read back *)

Definition unhex (a : Ascii.ascii) : option nat := fst <$> list_find (a =.) hex_digits.

Definition unhex2 (a b : Ascii.ascii) : option Byte.byte :=
  x ← unhex a;
  y ← unhex b;
  Byte.of_N (N.of_nat (16 * x + y)).

(** The bytes of a fingerprint. *)
Fixpoint parse_hash (s : string) : option (list Byte.byte) :=
  match s with
  | String a (String b EmptyString) =>
      x ← unhex2 a b;
      Some [x]
  | String a (String b (String ":" s)) =>
      x ← unhex2 a b;
      l ← parse_hash s;
      Some (x :: l)
  | _ => None
  end.

Arguments unhex2 : simpl never.

Lemma hex2_digits b : ∃ x y, hex2 b = String x (String y EmptyString) ∧ unhex2 x y = Some b.
Proof. by destruct b; eexists _, _. Qed.

Lemma parse_last b : parse_hash (hex2 b) = Some [b].
Proof. destruct (hex2_digits b) as (x & y & -> & Hb). simpl. by rewrite Hb. Qed.

Lemma parse_more b s : parse_hash (hex2 b ++ ":" ++ s) = (b ::.) <$> parse_hash s.
Proof.
  destruct (hex2_digits b) as (x & y & -> & Hb).
  change (String x (String y EmptyString) ++ ":" ++ s)%string with (String x (String y (String ":" s))).
  cbn [parse_hash]. rewrite Hb. by destruct (parse_hash s).
Qed.

Lemma foldr_nth_seq {A B} (g : A → B → B) (e : B) (d : A) (l pre : list A) :
  foldr (λ i, g (nth i (pre ++ l) d)) e (seq (length pre) (length l)) = foldr g e l.
Proof.
  revert pre. induction l as [|a l IH]; intros pre; [done|]. simpl. f_equal.
  - by rewrite app_nth2, Nat.sub_diag by lia.
  - specialize (IH (pre ++ [a])). rewrite length_app, Nat.add_1_r, <- app_assoc in IH. exact IH.
Qed.

Lemma hash_text_cons b l :
  hash_text (length (b :: l)) (b :: l) = (hex2 b ++ foldr (λ b s, ":" ++ hex2 b ++ s) EmptyString l)%string.
Proof.
  unfold hash_text, byte_at. cbn [nth length]. f_equal. rewrite Nat.sub_succ, Nat.sub_0_r.
  apply (foldr_nth_seq (λ b s, ":" ++ hex2 b ++ s)%string EmptyString Byte.x00 l [b]).
Qed.

Lemma string_app_nil s : (s ++ "")%string = s.
Proof. induction s as [|a s IH]; [done|]. by apply (f_equal (String a)). Qed.

Lemma parse_hash_text n bytes : length bytes = n → bytes ≠ [] → parse_hash (hash_text n bytes) = Some bytes.
Proof.
  intros <-. destruct bytes as [|b l]; [done|]. intros _. rewrite hash_text_cons. revert b.
  induction l as [|b2 l IH]; intros b.
  - cbn [foldr]. rewrite string_app_nil. apply parse_last.
  - cbn [foldr]. rewrite parse_more, IH. done.
Qed.

(** ** The effects of the queries *)

(** The sessions that were created and freed. *)
Definition opened (ev : event) : list handle :=
  match ev with Ev (QH session_init) (Some h) => [h] | _ => [] end.
Definition freed (ev : event) : list handle :=
  match ev with Ev (QZ (session_free (Some h))) _ => [h] | _ => [] end.

Section facts.
Context {E : Type} `{!Env E}.

Abbreviation M := (prog (st E)).

Lemma connected_quiet : preserves quiet (sshConnectedUnlocked (E:=E)).
Proof. apply preserves_sshConnected, _. Qed.

(** A test of the connection: what it says, and that it neither creates nor frees a session. *)
Lemma wp_connected {B} (k : bool → M B) (Q : B → st E → Prop) s :
  (∀ b s', quiet s s' → grows s s' → xsink s' = xsink s →
     (b = true → is_Some (ssh_session (cl s))) →
     (∀ (f : event → list handle), (∀ a, f (Ev (QB socket_isOpen) a) = []) → advances f s s' []) →
     wp True (k b) Q s') →
  wp True (sshConnectedUnlocked ≫= k) Q s.
Proof.
  intros HQ. wp_step. unfold sshConnectedUnlocked. wp_step. wp_step.
  destruct (bool_decide (is_Some (ssh_session (cl s))) && negb (connect_in_progress (cl s))) eqn:Hc.
  - apply andb_true_iff in Hc as [Hc _]. apply bool_decide_eq_true in Hc. wp_world.
    apply HQ; [apply frame_logged|apply frame_logged|done|done|].
    intros f Hf. rewrite <- (Hf a). apply advances_logged.
  - wp_step. apply HQ; [reflexivity|reflexivity|done|done|]. intros f _. apply advances_refl.
Qed.

(** What [key_hash] reports is the hash that libssh2 gave for the session. *)
Definition hash_of (hash_type : Z) (n : nat) (sess : ptr) (s s' : st E) (r : option string) : Prop :=
  ∃ h, new s s' (Ev (hostkey_hash sess hash_type) h) ∧ r = hash_text n <$> h.

Lemma key_hash_post ht n s :
  wp True (key_hash ht n) (λ r s', hash_of ht n (ssh_session (cl s)) s s' r ∧ quiet s s' ∧ grows s s' ∧ xsink s' = xsink s) s.
Proof.
  unfold key_hash. wp_step. wp_world. wp_step. apply (wp_call _ (hostkey_hash (ssh_session (cl s)) ht)). intros h e' _. wp_step.
  split_and!; [|apply frame_logged|apply frame_logged|done]. exists h. split; [by apply new_logged|done].
Qed.

Lemma hash_of_lift ht n sess s s1 s2 s' r :
  hash_of ht n sess s1 s2 r → grows s s1 → grows s2 s' → hash_of ht n sess s s' r.
Proof. intros (h & Hn & ->) G1 G2. exists h. split; [|done]. by eapply new_grows; [eapply new_weaken|]. Qed.

Lemma advances_then_none {A} (f : event → list A) (s1 s2 s3 : st E) bs :
  advances f s1 s2 bs → advances f s2 s3 [] → advances f s1 s3 bs.
Proof. intros H1 H2. rewrite <- (app_nil_r bs). by eapply advances_trans. Qed.

Lemma advances_from_none {A} (f : event → list A) (s1 s2 s3 : st E) bs :
  advances f s1 s2 [] → advances f s2 s3 bs → advances f s1 s3 bs.
Proof. apply (advances_trans f s1 s2 s3 []). Qed.

(** The session of a query: one that was created if it is marked so, none freed. *)
Definition queried (q : option (ptr * bool)) : list handle :=
  match q with Some (Some h, true) => [h] | _ => [] end.

Lemma query_session_post s :
  wp True query_session (λ q s', quiet s s' ∧ grows s s' ∧ xsink s' = xsink s ∧
    advances opened s s' (queried q) ∧ advances freed s s' []) s.
Proof.
  unfold query_session. apply wp_connected. intros b s1 Q1 G1 X1 _ A1.
  assert (advances opened s s1 []) as O1 by by apply A1. assert (advances freed s s1 []) as F1 by by apply A1.
  wp_step. wp_world. wp_step.
  { wp_step. split_and!; [done..| |done]. by destruct (ssh_session (cl s1)). }
  wp_step. wp_world. wp_step.
  split_and!; [by transitivity s1; [|apply frame_logged]|by transitivity s1; [|apply frame_logged]|done| |].
  - change (queried _) with ([] ++ queried (if bool_decide (is_Some a) then Some (a, true) else None)).
    eapply advances_trans; [exact O1|].
    replace (queried _) with (opened (Ev (QH session_init) a)) by by destruct a. apply advances_logged.
  - apply (advances_trans _ _ s1 _ [] []); [done|]. apply (advances_logged freed s1 (Ev (QH session_init) a)).
Qed.

(** A temporary session is freed. *)
Lemma free_query_post q b s :
  wp True (when b (_ ← callZ (session_free q); mret tt))
    (λ _ s', quiet s s' ∧ grows s s' ∧ xsink s' = xsink s ∧ advances opened s s' [] ∧
       advances freed s s' (queried (Some (q, b)))) s.
Proof.
  wp_step; simplify_eq/=.
  - wp_step. wp_world. wp_step. split_and!; [apply frame_logged|apply frame_logged|done| |].
    + apply (advances_logged opened s (Ev (QZ (session_free q)) a)).
    + destruct q as [h|]; apply (advances_logged freed s (Ev (QZ (session_free _)) a)).
  - split_and!; [reflexivity|reflexivity|done|apply advances_refl|]. destruct q; apply advances_refl.
Qed.
End facts.

(** * Theorems *)

Section theorems.
Context {E : Type} `{!Env E}.

Abbreviation M := (prog (st E)).

(** C40: A fingerprint is the MD5 hash that libssh2 gave for the key of the connection,
    in a form from which the hash can be read back: hosts with different hashes have
    different fingerprints. *)
Theorem fingerprint_roundtrip (s s' : st E) (text : string) :
  fingerprint s = Some (Some text, s') →
  ∃ bytes, new s s' (Ev (hostkey_hash (ssh_session (cl s)) LIBSSH2_HOSTKEY_HASH_MD5) (Some bytes)) ∧
    (length bytes = 16%nat → parse_hash text = Some bytes) ∧ quiet s s'.
Proof.
  apply (wp_run_some _ (λ text s', ∃ bytes,
    new s s' (Ev (hostkey_hash (ssh_session (cl s)) LIBSSH2_HOSTKEY_HASH_MD5) (Some bytes)) ∧
    (length bytes = 16%nat → parse_hash text = Some bytes) ∧ quiet s s')).
  unfold fingerprint, fingerprintUnlocked. apply wp_connected. intros b s1 Q1 G1 _ _ _. wp_step; [by wp_step|].
  eapply wp_mono; [|apply key_hash_post]. intros r s2 ((h & Hn & ->) & Q2 & G2 & _) t Ht.
  destruct h as [bytes|]; [|done]. injection Ht as <-. exists bytes. split_and!.
  - replace (ssh_session (cl s)) with (ssh_session (cl s1)) by (destruct Q1 as [-> _]; done). by eapply new_weaken.
  - intros Hl. apply parse_hash_text; [done|]. by intros ->.
  - by transitivity s1.
Qed.

(** What [getHostKey] reports is the key of the session with its type under the name
    that a host key store is given for it, and the three hashes that libssh2 gave; without a
    connection or a key it raises an exception.  It changes nothing. *)
Theorem host_key_info_sound (s s' : st E) (r : option host_key_info) :
  getHostKeyLocked s = Some (r, s') →
  quiet s s' ∧
  match r with
  | None => xsink s' ≠ []
  | Some i =>
      xsink s' = xsink s ∧ is_Some (ssh_session (cl s)) ∧
      (∃ type, new s s' (Ev (session_hostkey (ssh_session (cl s))) (Some (hk_key_data i, type))) ∧
        hk_key_type i = ssh2_hostkey_type_name type) ∧
      hash_of LIBSSH2_HOSTKEY_HASH_MD5 16 (ssh_session (cl s)) s s' (hk_md5 i) ∧
      hash_of LIBSSH2_HOSTKEY_HASH_SHA1 20 (ssh_session (cl s)) s s' (hk_sha1 i) ∧
      hash_of LIBSSH2_HOSTKEY_HASH_SHA256 32 (ssh_session (cl s)) s s' (hk_sha256 i)
  end.
Proof.
  intros Hrun. apply (wp_follow _ _ _ _ _ Hrun). unfold getHostKeyLocked. apply wp_connected.
  intros b s1 Q1 G1 X1 Hs1 _. wp_step.
  { wp_step. wp_world. wp_step. intros <- <-. split; [|done]. transitivity s1; [done|apply frame_xsink]. }
  apply negb_false_iff in Heqb0 as ->. wp_step. wp_world. wp_step.
  assert (ssh_session (cl s1) = ssh_session (cl s)) as Es by (by destruct Q1 as [-> _]). rewrite Es.
  apply (wp_call _ (session_hostkey (ssh_session (cl s)))). intros hk e' _. set (s2 := logged s1 _ _).
  assert (quiet s s2) as Q2 by (transitivity s1; [done|apply frame_logged]).
  assert (grows s s2) as G2 by (transitivity s1; [done|apply frame_logged]).
  destruct hk as [[key type]|].
  2:{ wp_step. wp_world. wp_step. intros <- <-. split; [|done]. transitivity s2; [done|apply frame_xsink]. }
  assert (new s s2 (Ev (session_hostkey (ssh_session (cl s))) (Some (key, type)))) as N2 by (by apply new_logged).
  assert (xsink s2 = xsink s) as X2 by done. clearbody s2.
  wp_step. eapply wp_mono; [|apply key_hash_post]. intros md5 s3 (H3 & Q3 & G3 & X3).
  wp_step. eapply wp_mono; [|apply key_hash_post]. intros sha1 s4 (H4 & Q4 & G4 & X4).
  wp_step. eapply wp_mono; [|apply key_hash_post]. intros sha256 s5 (H5 & Q5 & G5 & X5).
  assert (quiet s s3) as Q03 by by transitivity s2. assert (quiet s s4) as Q04 by by transitivity s3.
  assert (quiet s s5) as Q05 by by transitivity s4.
  assert (grows s s3) as G03 by by transitivity s2. assert (grows s s4) as G04 by by transitivity s3.
  assert (grows s3 s5) as G35 by by transitivity s4.
  replace (ssh_session (cl s2)) with (ssh_session (cl s)) in H3 by (by destruct Q2 as [-> _]).
  replace (ssh_session (cl s3)) with (ssh_session (cl s)) in H4 by (by destruct Q03 as [-> _]).
  replace (ssh_session (cl s4)) with (ssh_session (cl s)) in H5 by (by destruct Q04 as [-> _]).
  wp_step. intros <- <-. split; [done|]. cbn [hk_md5 hk_sha1 hk_sha256 hk_key_type hk_key_data].
  split_and!; [congruence|by apply Hs1| | | |].
  - exists type. split; [|done]. eapply new_grows; [exact N2|]. by transitivity s3.
  - by eapply hash_of_lift.
  - by eapply hash_of_lift.
  - eapply hash_of_lift; [exact H5|done|reflexivity].
Qed.

(** C39: A query for the supported algorithms frees every session it created and no other:
    in particular never the one of the connection.  It reports exactly the algorithms
    libssh2 counted, or raises an exception, and changes nothing. *)
Theorem supported_algorithms_balanced (method_type : Z) (s s' : st E) (r : option (list string)) :
  getSupportedAlgorithms method_type s = Some (r, s') →
  quiet s s' ∧
  (∃ hs, advances opened s s' hs ∧ advances freed s s' hs) ∧
  match r with
  | None => xsink s' ≠ []
  | Some l => xsink s' = xsink s ∧ ∃ sess rc algs, 0 < rc ∧
      new s s' (Ev (session_supported_algs sess method_type) (rc, algs)) ∧ l = take (Z.to_nat rc) algs
  end.
Proof.
  intros Hrun. apply (wp_follow _ _ _ _ _ Hrun). unfold getSupportedAlgorithms. wp_step.
  eapply wp_mono; [|apply query_session_post]. intros [[p b]|] s1 (Q1 & G1 & X1 & O1 & F1).
  2:{ wp_step. wp_world. wp_step. intros <- <-. split_and!; [|by exists []|done].
      transitivity s1; [done|apply frame_xsink]. }
  wp_step. apply (wp_call _ (session_supported_algs p method_type)). intros [rc algs] e' _.
  set (s2 := logged s1 _ _). assert (quiet s s2) as Q2 by (transitivity s1; [done|apply frame_logged]).
  assert (∀ f : event → list handle, f (Ev (session_supported_algs p method_type) (rc, algs)) = [] → advances f s1 s2 [])
    as A2 by (intros f <-; apply advances_logged).
  wp_step; wp_step.
  - eapply wp_mono; [|apply free_query_post]. intros _ s3 (Q3 & _ & X3 & O3 & F3). wp_step. wp_world. wp_step.
    intros <- <-. split_and!; [| |done].
    { transitivity s3; [by transitivity s2|apply frame_xsink]. }
    exists (queried (Some (p, b))). split.
    + apply (advances_then_none _ _ s1); [done|]. by apply (advances_from_none _ _ s2); [apply A2|].
    + apply (advances_from_none _ _ s1); [done|]. by apply (advances_from_none _ _ s2); [apply A2|].
  - wp_world. wp_step. set (s3 := logged s2 _ _).
    eapply wp_mono; [|apply free_query_post]. intros _ s4 (Q4 & G4 & X4 & O4 & F4). wp_step. intros <- <-.
    split_and!; [by transitivity s2; [|transitivity s3; [apply frame_logged|]]| |by rewrite X4|].
    + assert (∀ f : event → list handle, f (Ev (session_supported_algs p method_type) (rc, algs)) = [] →
        f (Ev (QU (ssh2_free p)) a) = [] → advances f s1 s3 []) as A3.
      { intros f Hf Hu. apply (advances_from_none _ _ s2); [by apply A2|]. rewrite <- Hu. apply advances_logged. }
      exists (queried (Some (p, b))). split.
      * apply (advances_then_none _ _ s1); [done|]. by apply (advances_from_none _ _ s3); [apply A3|].
      * apply (advances_from_none _ _ s1); [done|]. by apply (advances_from_none _ _ s3); [apply A3|].
    + exists p, rc, algs. split_and!; [lia| |done]. eapply new_grows; [|transitivity s3; [apply frame_logged|exact G4]].
      by apply new_logged.
Qed.
End theorems.

(** * The theorems at a concrete server *)

(** A server whose key has hashes, and a library that knows two algorithms. *)
Definition info_env : Env nat :=
  sim_env (λ _ r, match r return ans r with
                  | hostkey_hash _ t =>
                      Some (repeat Byte.xaf (if t =? LIBSSH2_HOSTKEY_HASH_MD5 then 16
                                             else if t =? LIBSSH2_HOSTKEY_HASH_SHA1 then 20 else 32))
                  | session_supported_algs _ _ => (2, ["aes256-ctr"%string; "aes128-ctr"%string])
                  | r' => quiet_ans r'
                  end) 20.

Definition info_state : st nat := state0 (connected_client SSH2ClientClass).

Lemma fingerprint_roundtrip_witness :
  ∃ text s' bytes, @fingerprint nat info_env info_state = Some (Some text, s') ∧
    new info_state s' (Ev (hostkey_hash (Some 1%positive) LIBSSH2_HOSTKEY_HASH_MD5) (Some bytes)) ∧
    (length bytes = 16%nat → parse_hash text = Some bytes).
Proof.
  destruct (@fingerprint nat info_env info_state) as [[[text|] s']|] eqn:Hrun;
    [|vm_compute in Hrun; discriminate..].
  destruct (@fingerprint_roundtrip nat info_env info_state s' text Hrun) as (bytes & Hn & Hp & _).
  exists text, s', bytes. split; [done|]. split; [exact Hn|exact Hp].
Defined.

Example fingerprint_text :
  result (@fingerprint nat info_env) info_state =
    Some (Some "AF:AF:AF:AF:AF:AF:AF:AF:AF:AF:AF:AF:AF:AF:AF:AF"%string).
Proof. vm_compute. reflexivity. Qed.

Lemma host_key_info_sound_witness :
  ∃ i s', @getHostKeyLocked nat info_env info_state = Some (Some i, s') ∧
    hk_key_type i = "ssh-rsa"%string ∧ xsink s' = xsink info_state ∧
    ∃ type, new info_state s' (Ev (session_hostkey (Some 1%positive)) (Some (hk_key_data i, type))) ∧
      hk_key_type i = ssh2_hostkey_type_name type.
Proof.
  destruct (@getHostKeyLocked nat info_env info_state) as [[[i|] s']|] eqn:Hrun;
    [|vm_compute in Hrun; discriminate..].
  exists i, s'. split; [done|]. split; [vm_compute in Hrun; injection Hrun as <- _; reflexivity|].
  destruct (@host_key_info_sound nat info_env info_state s' (Some i) Hrun) as (_ & X & _ & T & _).
  split; [exact X|exact T].
Defined.

Lemma supported_algorithms_balanced_witness :
  ∃ s' hs, @getSupportedAlgorithms nat info_env 0 (state0 (client0 SSH2ClientClass)) =
      Some (Some ["aes256-ctr"%string; "aes128-ctr"%string], s') ∧
    streamed opened s' = [1%positive] ∧
    advances opened (state0 (client0 SSH2ClientClass)) s' hs ∧
    advances freed (state0 (client0 SSH2ClientClass)) s' hs.
Proof.
  destruct (@getSupportedAlgorithms nat info_env 0 (state0 (client0 SSH2ClientClass))) as [[r s']|] eqn:Hrun;
    [|vm_compute in Hrun; discriminate].
  destruct (@supported_algorithms_balanced nat info_env 0 _ s' r Hrun) as (_ & (hs & Ho & Hf) & _).
  exists s', hs. vm_compute in Hrun. injection Hrun as <- <-. split_and!; [reflexivity|vm_compute; reflexivity|exact Ho|exact Hf].
Defined.
