(* ===== verification/Session.v ===== *)
(** What a connect promises to the code that calls it with the lock held: an
    interface of relations on states that every step of a connect preserves, and
    the proof, function by function, that a connect of either class implements it. *)

From S2P Require Import Prelude Modes World Sim Defaults Transport Config HostKey Auth Connect.

(** A set of events that contains every request except those that move data. *)
Class Wire (P : event → Prop) := wire_event r a : moves_data r = false → P (Ev r a).

#[export] Instance wire_plain P : Wire P → Plain P.
Proof. intros H r a Hr. apply H. unfold plain in Hr. by destruct (moves_data r), (sends_credentials r). Qed.

(** A set of events that contains every request except those that move data or begin a session. *)
Class Spoken (P : event → Prop) :=
  spoken_event r a : moves_data r = false → opens_session r = false → P (Ev r a).

#[export] Instance same_session_spoken : Spoken same_session.
Proof. by intros r a _ H. Qed.

(** The requests themselves. *)
Definition wire_only (e : event) : Prop := let '(Ev r _) := e in moves_data r = false.

#[export] Instance wire_only_wire : Wire wire_only.
Proof. by intros r a. Qed.

Lemma wire_only_emits {E} P (s s' : st E) : Wire P → emits wire_only s s' → emits P s s'.
Proof. intros HP. apply emits_weaken. intros [r a]. apply HP. Qed.

(** The interface in three parts: the requests that neither send credentials nor begin a
    session, with all that goes on beside them; the authentication; and the whole. *)
Class Linked {E : Type} `{!Env E} (R : relation (st E)) := {
  linked_preorder :: PreOrder R;
  linked_logged s r a e' : plain r = true → R s (logged s (Ev r a) e');
  linked_xsink s e : R s (s <| xsink := e :: xsink s |>);
  linked_upd f s :
    (∀ c, channel_set (f c) = channel_set c ∧ listener_set (f c) = listener_set c ∧
      sftppath (f c) = sftppath c ∧ (poll_op_in_progress c = true → poll_op_in_progress (f c) = true)) →
    R s (s <| cl := f (cl s) |>);
  linked_disconnect force to xs : preserves R (disconnectUnlocked force to xs);
  linked_other op : preserves R (run_other_thread op)
}.

Class Talk {E : Type} `{!Env E} (R : relation (st E)) := {
  talk_linked :: Linked R;
  talk_logged s r a e' : moves_data r = false → opens_session r = false → R s (logged s (Ev r a) e')
}.

Class Session {E : Type} `{!Env E} (R : relation (st E)) := {
  session_talk :: Talk R;
  session_logged s r a e' : moves_data r = false → R s (logged s (Ev r a) e')
}.

#[export] Instance linked_basic {E} `{!Env E} (R : relation (st E)) : Linked R → Basic R.
Proof. intros H. split; [apply _|apply linked_logged|apply linked_xsink]. Qed.

Lemma plain_split r : plain r = true → moves_data r = false ∧ opens_session r = false.
Proof. unfold plain. intros [[_ H1]%orb_false_iff H2]%negb_true_iff%orb_false_iff. done. Qed.

(** A relation on which the kind of request has no bearing. *)
Lemma session_of {E} `{!Env E} (R : relation (st E)) `{!PreOrder R} :
  (∀ s r a e', moves_data r = false → R s (logged s (Ev r a) e')) →
  (∀ s e, R s (s <| xsink := e :: xsink s |>)) →
  (∀ f s, (∀ c, channel_set (f c) = channel_set c ∧ listener_set (f c) = listener_set c ∧
      sftppath (f c) = sftppath c ∧ (poll_op_in_progress c = true → poll_op_in_progress (f c) = true)) →
    R s (s <| cl := f (cl s) |>)) →
  (∀ force to xs, preserves R (disconnectUnlocked force to xs)) →
  (∀ op, preserves R (run_other_thread op)) → Session R.
Proof.
  intros Hl Hx Hu Hd Ho. split; [split; [split|]|]; try done; intros; apply Hl; [|done].
  by apply plain_split.
Qed.

#[export] Hint Extern 0 (Linked _) => typeclasses eauto : preserves.
#[export] Hint Extern 0 (Talk _) => typeclasses eauto : preserves.

Section linked.
Context {E : Type} `{!Env E} (R : relation (st E)) `{!Linked R}.

Abbreviation M := (prog (st E)).

Lemma session_preserves_upd f :
  (∀ c, channel_set (f c) = channel_set c ∧ listener_set (f c) = listener_set c ∧
      sftppath (f c) = sftppath c ∧ (poll_op_in_progress c = true → poll_op_in_progress (f c) = true)) → preserves R (upd f).
Proof. intros H. apply preserves_upd. intros s. by apply linked_upd. Qed.

Lemma session_wait toerr err to : preserves R (waitSocketUnlocked true toerr err to).
Proof. apply preserves_waitSocket_gen; [apply _|]. intros t. apply linked_disconnect. Qed.

Lemma session_force_disconnect : preserves R force_disconnect.
Proof. unfold force_disconnect. preserves_step; [apply linked_disconnect|]. preserves_auto. Qed.

Lemma session_eval obj method args : preserves R (eval_unlocked obj method args).
Proof. unfold eval_unlocked. preserves_auto. apply linked_other. Qed.

Lemma session_while (op : M Z) toerr err to :
  preserves R op → preserves R (while_eagain op (waitSocketUnlocked true toerr err to)).
Proof. intros H. apply preserves_while_eagain; [apply _|done|apply session_wait]. Qed.

Lemma session_with_blocking {A} (m : M A) : preserves R m → preserves R (with_blocking_helper m).
Proof. intros H. unfold with_blocking_helper. preserves_auto. Qed.

Lemma session_diverge {A} : preserves R (diverge : M A).
Proof. by intros s. Qed.

#[local] Hint Resolve session_wait session_force_disconnect session_eval linked_disconnect : preserves.
#[local] Hint Extern 3 (preserves R (upd _)) => apply session_preserves_upd; intros ?; split_and!; done : preserves.

Lemma session_checkAccess a : preserves R (checkAuthAttemptAccessUnlocked a).
Proof. unfold checkAuthAttemptAccessUnlocked. preserves_auto. Qed.

Lemma session_getCandidates to : preserves R (getProviderCandidatesUnlocked to).
Proof. unfold getProviderCandidatesUnlocked. preserves_auto. Qed.

Lemma session_resolveCandidate v to : preserves R (resolveProviderCandidateUnlocked v to).
Proof. unfold resolveProviderCandidateUnlocked, file_attempt, invalid_response. preserves_auto. Qed.

(** Host keys. *)
Lemma session_verifyWithStore store key ty to : preserves R (verifyHostKeyWithStore store key ty to).
Proof. unfold verifyHostKeyWithStore, ssh2_call_host_key_store. preserves_auto. Qed.

#[local] Hint Resolve session_verifyWithStore : preserves.

Lemma session_verifyHostKey to : preserves R (verifyHostKeyUnlocked to).
Proof. unfold verifyHostKeyUnlocked, refuse_host_key. preserves_auto. Qed.
End linked.

(** Authentication. *)
Section talk.
Context {E : Type} `{!Env E} (R : relation (st E)) `{!Talk R}.

Abbreviation M := (prog (st E)).

Lemma session_callZ c : moves_data (QZ c) = false → opens_session (QZ c) = false → preserves R (callZ c).
Proof. intros H Ho s. apply wp_callZ. intros. by apply talk_logged. Qed.

#[local] Hint Resolve session_wait session_force_disconnect session_eval linked_disconnect session_checkAccess
  session_getCandidates session_resolveCandidate : preserves.
#[local] Hint Extern 2 (preserves R (callZ _)) => apply session_callZ; reflexivity : preserves.
#[local] Hint Extern 3 (preserves R (upd _)) =>
  apply session_preserves_upd; [apply _|intros ?; split_and!; done] : preserves.
#[local] Hint Extern 3 (preserves R (while_eagain _ (waitSocketUnlocked true _ _ _))) =>
  apply session_while; [apply _|preserves_auto] : preserves.

Lemma session_userauth_call a : preserves R (agent_userauth_call a).
Proof. unfold agent_userauth_call. preserves_auto. Qed.

Lemma session_authCall a : preserves R (authCallUnlocked a).
Proof. unfold authCallUnlocked. preserves_auto. Qed.

#[local] Hint Resolve session_userauth_call session_authCall : preserves.

Lemma session_tryAgentAuth to : preserves R (tryAgentAuth to).
Proof. unfold tryAgentAuth. preserves_auto. Qed.

#[local] Hint Resolve session_tryAgentAuth : preserves.

Lemma session_runAuthAttempt_with provider to a :
  preserves R provider → preserves R (runAuthAttempt_with provider to a).
Proof. intros H. unfold runAuthAttempt_with, setAuthenticatedWithUnlocked. preserves_auto. Qed.

Lemma session_run_plan run plan :
  (∀ a, preserves R (run a)) → preserves R (run_plan run plan).
Proof. intros H. induction plan as [|a plan IH]; cbn [run_plan]; preserves_auto. Qed.

Lemma session_try_candidates run to i l :
  (∀ a, preserves R (run a)) → preserves R (try_candidates run to i l).
Proof.
  intros H. revert i. induction l as [|v l IH]; intros i; cbn [try_candidates]; preserves_auto.
  by apply session_run_plan.
Qed.

Lemma session_tryProviderAuth to : preserves R (tryProviderAuth to).
Proof.
  unfold tryProviderAuth, tryProviderAuth_with. preserves_auto. apply session_try_candidates.
  intros ?. apply session_runAuthAttempt_with, session_diverge.
Qed.

Lemma session_runAuthAttempt to a : preserves R (runAuthAttemptUnlocked to a).
Proof. apply session_runAuthAttempt_with, session_tryProviderAuth. Qed.

#[local] Hint Resolve session_runAuthAttempt : preserves.

Lemma session_authenticate to : preserves R (authenticate to).
Proof.
  unfold authenticate, get_userauth_list, buildAuthPlanUnlocked, finishConnectUnlocked. preserves_auto.
  apply session_run_plan. intros ?. apply session_runAuthAttempt.
Qed.
End talk.

Section suite.
Context {E : Type} `{!Env E} (R : relation (st E)) `{!Session R}.

Lemma session_handshake_call s fd : preserves R (callZ (session_handshake s fd)).
Proof. intros s1. apply wp_callZ. intros. by apply session_logged. Qed.

#[local] Hint Resolve session_handshake_call session_wait session_force_disconnect session_eval linked_disconnect : preserves.
#[local] Hint Extern 2 (preserves R (callZ _)) => apply session_callZ; [apply _|reflexivity] : preserves.
#[local] Hint Extern 3 (preserves R (upd _)) =>
  apply session_preserves_upd; [apply _|intros ?; split_and!; done] : preserves.
#[local] Hint Extern 3 (preserves R (while_eagain _ (waitSocketUnlocked true _ _ _))) =>
  apply session_while; [apply _|preserves_auto] : preserves.

Lemma session_establish to : preserves R (establish to).
Proof.
  unfold establish, holdSessionDescriptorUnlocked, prepareSessionUnlocked, startupUnlocked.
  preserves_auto; first [apply session_verifyHostKey, _ | apply session_authenticate, _].
Qed.

(** A connect implements the interface. *)
Lemma session_sshConnect to : preserves R (sshConnectUnlocked to).
Proof.
  unfold sshConnectUnlocked, checkConnectPreconditionsUnlocked. preserves_auto. apply session_establish.
Qed.
End suite.

(** ** Instances *)

Section instances.
Context {E : Type} `{!Env E}.

Abbreviation M := (prog (st E)).

(** What other threads do keeps a relation that looks at neither the settings nor
    the exceptions. *)
Lemma other_thread_preserves (R : relation (st E)) `{!Basic R} op :
  (∀ s l, R s (s <| xsink := l |>)) →
  (∀ f s, (∀ c, channel_set (f c) = channel_set c ∧ listener_set (f c) = listener_set c ∧
      sftppath (f c) = sftppath c ∧ (poll_op_in_progress c = true → poll_op_in_progress (f c) = true)) →
     R s (s <| cl := f (cl s) |>)) →
  (∀ force to xs, preserves R (disconnectUnlocked force to xs)) →
  preserves R (run_other_thread op).
Proof.
  intros Hx Hu Hd. assert (∀ f, (∀ c, channel_set (f c) = channel_set c ∧ listener_set (f c) = listener_set c ∧
      sftppath (f c) = sftppath c ∧ (poll_op_in_progress c = true → poll_op_in_progress (f c) = true)) →
    preserves R (upd f)) as Hp by (intros f Hf; apply preserves_upd; intros s; by apply Hu).
  unfold run_other_thread. preserves_step; [preserves_auto|]. preserves_step.
  - destruct op; cbn [run_client_op]; (apply preserves_bind; [apply _| |intros ?; preserves_auto]);
      unfold disconnect, setUser, setPassword, setKnownHostsFile, setVerifyHostKey, setHostKeyStore,
        setClientIdentityProvider, setMethodPreference, setBanner, setKeysFromData, setUseAgent,
        setKeepalive, setHostKeyPolicy, setClientAuthOrder, setClientIdentityFallbackPolicy,
        guarded_set, set_object, when_object, silent_set, ranged_set, reservePollOperation; preserves_auto;
      first [apply Hd | apply Hp; intros ?; split_and!; done].
  - apply preserves_modify. intros s. apply Hx.
Qed.

#[export] Instance keeps_registered_session : Session keeps_registered.
Proof.
  assert (∀ f (s : st E), (∀ c, channel_set (f c) = channel_set c ∧ listener_set (f c) = listener_set c ∧
      sftppath (f c) = sftppath c ∧ (poll_op_in_progress c = true → poll_op_in_progress (f c) = true)) →
    keeps_registered s (s <| cl := f (cl s) |>)) as Hu.
  { intros f s Hf [H1 H2 H3 H4]. destruct (Hf (cl s)) as (Hc & Hl & _). split; simpl; rewrite ?Hc, ?Hl; done. }
  apply session_of; [apply _|intros; apply frame_logged|intros; apply frame_xsink|done|apply disconnectUnlocked_registered|].
  intros op. apply other_thread_preserves; [apply _| |done|apply disconnectUnlocked_registered].
  intros s l [H1 H2 H3 H4]. by split.
Qed.

#[export] Instance grows_session : Session grows.
Proof.
  apply session_of; [apply _|intros; apply frame_logged|intros; apply frame_xsink|by exists []|apply disconnectUnlocked_grows|].
  intros op. apply other_thread_preserves; [apply _|by exists []|by exists []|apply disconnectUnlocked_grows].
Qed.

#[export] Instance xsink_grows_session : Session xsink_grows.
Proof.
  apply session_of; [apply _|intros; apply frame_logged|intros; apply frame_xsink|by exists []
         |apply disconnectUnlocked_xsink_grows|].
  intros op s. unfold wp. rewrite run_other_thread_unfold.
  destruct (run_client_op op s) as [[u s']|]; [by exists []|done].
Qed.

#[export] Instance emits_linked P : Plain P → Linked (emits P).
Proof.
  intros HP. split; [apply _|intros; by apply basic_logged|by exists []|by exists []
                    |intros; by apply disconnectUnlocked_emits|].
  intros op. apply other_thread_preserves; [apply _|by exists []|by exists []|].
  intros. by apply disconnectUnlocked_emits.
Qed.

#[export] Instance spoken_plain P : Spoken P → Plain P.
Proof. intros HP r a [H1 H2]%plain_split. by apply HP. Qed.

#[export] Instance emits_talk P : Spoken P → Talk (emits P).
Proof.
  intros HP. split; [apply _|].
  intros s r a e' Hr Ho. exists [Ev r a]. split; [done|]. constructor; [by apply HP|constructor].
Qed.

#[export] Instance emits_session P : Wire P → Session (emits P).
Proof.
  intros HP. split; [apply emits_talk; intros r a Hr _; by apply HP|].
  intros s r a e' Hr. exists [Ev r a]. split; [done|]. constructor; [by apply HP|constructor].
Qed.
End instances.

(** ** The interface for code that holds an SFTP handle

    A disconnect on its behalf closes the handle first ([adh]), its errors may go
    to a sink of its own, and the handle is a field of the state. *)

(** A local [ExceptionSink] that is cleared. *)
Definition with_local_sink {E A} (m : prog (st E) A) : prog (st E) A :=
  mine ← gets xsink;
  _ ← modify (λ s, s <| xsink := [] |>);
  r ← m;
  _ ← modify (λ s, s <| xsink := mine |>);
  mret r.

Class SftpSession {E : Type} `{!Env E} (R : relation (st E)) := {
  sftp_linked :: Linked R;
  sftp_sshConnect to : preserves R (sshConnectUnlocked to);
  sftp_qhandle s h : R s (s <| qhandle := h |>);
  sftp_sink {A} (m : prog (st E) A) : preserves R m → preserves R (with_local_sink m);
  sftp_disconnect force to adh xs : preserves R adh → preserves R (disconnect_virtual force to adh xs)
}.

(** What preserves a connect step by step preserves it as a whole. *)
Lemma sftp_of {E} `{!Env E} (R : relation (st E)) `{!Session R} :
  (∀ s h, R s (s <| qhandle := h |>)) →
  (∀ A (m : prog (st E) A), preserves R m → preserves R (with_local_sink m)) →
  (∀ force to adh xs, preserves R adh → preserves R (disconnect_virtual force to adh xs)) → SftpSession R.
Proof. intros Hq Hs Hd. split; [apply _|apply session_sshConnect, _|done..]. Qed.

Section sftp_instances.
Context {E : Type} `{!Env E}.

Abbreviation M := (prog (st E)).

Lemma preserves_both {A} (R1 R2 : relation (st E)) (m : M A) :
  preserves (both R1 R2) m ↔ preserves R1 m ∧ preserves R2 m.
Proof.
  split.
  - intros H. split; intros s; (eapply wp_mono; [|apply H]); by intros a s' [].
  - intros [H1 H2] s. by apply wp_and.
Qed.

#[export] Instance linked_both R1 R2 : Linked R1 → Linked R2 → Linked (both R1 R2).
Proof.
  intros H1 H2. split; [apply _| | | | |].
  - intros. split; by apply linked_logged.
  - intros. split; apply linked_xsink.
  - intros. split; by apply linked_upd.
  - intros. apply preserves_both. split; apply linked_disconnect.
  - intros. apply preserves_both. split; apply linked_other.
Qed.

#[export] Instance session_both R1 R2 : Session R1 → Session R2 → Session (both R1 R2).
Proof.
  intros H1 H2. apply session_of; [apply _| | | | |].
  - intros. split; by apply session_logged.
  - intros. split; apply linked_xsink.
  - intros. split; by apply linked_upd.
  - intros. apply preserves_both. split; apply linked_disconnect.
  - intros. apply preserves_both. split; apply linked_other.
Qed.

#[export] Instance sftp_both R1 R2 : SftpSession R1 → SftpSession R2 → SftpSession (both R1 R2).
Proof.
  intros H1 H2. split; [apply _| | | |].
  - intros. apply preserves_both. split; apply sftp_sshConnect.
  - intros. split; apply sftp_qhandle.
  - intros A m [Hm1 Hm2]%preserves_both. apply preserves_both. split; by apply sftp_sink.
  - intros force to adh xs [Ha1 Ha2]%preserves_both. apply preserves_both. split; by apply sftp_disconnect.
Qed.

Lemma sink_free (R : relation (st E)) `{!PreOrder R} {A} (m : M A) :
  (∀ s l, R s (s <| xsink := l |>)) → preserves R m → preserves R (with_local_sink m).
Proof. intros Hx Hm. unfold with_local_sink. preserves_auto; apply preserves_modify; intros ?; apply Hx. Qed.

Lemma SSH2Client_disconnect_adh force to (adh : M unit) xs :
  preserves keeps_registered adh → preserves keeps_registered (SSH2Client_disconnectUnlocked force to adh xs).
Proof.
  intros Hadh s. apply wp_intro. intros rc s' Hrun Hr. revert rc s' Hrun.
  enough (wp True (SSH2Client_disconnectUnlocked force to adh xs) (λ _ s', registered s') s) as Hw.
  { intros rc s' Hrun. apply (wp_run _ _ _ _ _ Hw Hrun). }
  unfold SSH2Client_disconnectUnlocked.
  wp_step. wp_world. wp_step. eapply wp_mono; [|by apply cancel_all_listeners]. intros ? s1 [Hr1 Hl1].
  cbv beta. wp_step. wp_world.
  assert (registered (s1 <| cl := (cl s1) <| listener_set := ∅ |> |>)) as Hr2.
  { destruct Hr1 as [A1 A2 A3 A4]. split; simpl; try done.
    intros id. specialize (A2 id). by rewrite Hl1 in A2. }
  wp_step. wp_world. wp_step.
  eapply wp_mono; [|by apply close_all_channels]. intros ? s2 (B1 & B2 & B3 & B4 & B5). simpl in *.
  wp_step. wp_world.
  assert (registered (s2 <| cl := (cl s2) <| channel_set := ∅ |> |>)) as Hr3.
  { split; simpl.
    - intros id. unfold chan_ptr in *. simpl. rewrite B1. split; [set_solver|by intros [? ?]].
    - intros id. rewrite B3. unfold lst_ptr. simpl. rewrite B2. apply (reg_listeners _ Hr2).
    - exact B5.
    - intros id Hid. rewrite B2. apply (reg_lsts_fresh _ Hr2). simpl. by rewrite <- B4. }
  match goal with |- wp True ?m _ ?s3 => assert (preserves keeps_registered m) as Hm end.
  { unfold closeTransportUnlocked. preserves_auto. }
  eapply wp_mono; [|apply Hm]. intros ? s' Hs'. by apply Hs'.
Qed.

#[export] Instance keeps_registered_sftp : SftpSession keeps_registered.
Proof.
  apply sftp_of; [apply _|..].
  - intros s h [H1 H2 H3 H4]. by split.
  - intros A m. apply sink_free; [apply _|]. intros s l [H1 H2 H3 H4]. by split.
  - intros force to adh xs Hadh. unfold disconnect_virtual, SFTPClient_disconnectUnlocked. preserves_auto.
    + by apply SSH2Client_disconnect_adh.
    + apply doShutdown_registered.
    + apply SSH2Client_disconnect_adh. preserves_auto.
Qed.

#[export] Instance grows_sftp : SftpSession grows.
Proof.
  apply sftp_of; [apply _|by exists []|intros A m; apply sink_free; [apply _|by exists []]|].
  intros force to adh xs Hadh. unfold_disconnect.
  repeat first [progress preserves_auto | apply preserves_while_eagain_hint; [apply _| |]].
Qed.

#[export] Instance xsink_grows_sftp : SftpSession xsink_grows.
Proof.
  apply sftp_of; [apply _|by exists []| |].
  - intros A m _ s. unfold with_local_sink. wp_step. wp_step. wp_step. wp_step. wp_step.
    apply wp_intro. intros a s1 _. wp_step. wp_step. wp_step. by exists [].
  - intros force to adh xs Hadh. unfold_disconnect.
    repeat first [progress preserves_auto | apply preserves_while_eagain_hint; [apply _| |]].
Qed.

#[export] Instance emits_sftp P : Wire P → SftpSession (emits P).
Proof.
  intros HP. apply sftp_of; [apply _|by exists []|intros A m; apply sink_free; [apply _|by exists []]|].
  intros. by apply disconnect_virtual_emits; [apply _|].
Qed.
End sftp_instances.
