(* ===== verification/Gate.v ===== *)
(** Which credentials a client sends to which server: the executions in which every
    password, key and signature is sent on a session whose host key was accepted, and the
    proof that a connect of either class is such an execution. *)

From S2P Require Import Prelude Modes World Sim Defaults Transport Config HostKey Auth Connect Session.

Section gate.
Context {E : Type} `{!Env E}.

Abbreviation M := (prog (st E)).

(** An execution in segments: in some no credentials are sent, the others begin with the
    acceptance of a host key and make no new session. *)
Inductive gated (s0 : st E) : st E → Prop :=
  | gated_start : gated s0 s0
  | gated_silent s s' : gated s0 s → emits no_credentials s s' → gated s0 s'
  | gated_accepted to s s1 s' : gated s0 s → verifyHostKeyUnlocked to s = Some (false, s1) →
      emits same_session s1 s' → gated s0 s'.

(** The event that sends credentials: the acceptance of the host key that precedes it, and
    what happened since. *)
Definition after_acceptance (s0 : st E) (before : list event) : Prop :=
  ∃ to s1 s2 t, grows s0 s1 ∧ verifyHostKeyUnlocked to s1 = Some (false, s2) ∧
    before = t ++ trace s2 ∧ Forall same_session t.

Lemma split_at {A} (x : A) l1 l2 ta tr : l1 ++ x :: l2 = ta ++ tr →
  (∃ tb, ta = l1 ++ x :: tb ∧ l2 = tb ++ tr) ∨ (∃ l, l1 = ta ++ l ∧ tr = l ++ x :: l2).
Proof.
  intros [(k & -> & Hk)|(k & -> & Hk)]%app_eq_inv; [right; by exists k|].
  destruct k as [|y k]; simpl in Hk; [right; exists []; by rewrite !app_nil_r|].
  injection Hk as <- ->. left. by exists k.
Qed.

Lemma gated_grows s0 s : gated s0 s → grows s0 s.
Proof.
  induction 1 as [|s s' _ IH E1|to s s1 s' _ IH Hv E1]; [reflexivity|transitivity s; [done|by eapply emits_grows]|].
  transitivity s; [done|]. transitivity s1; [|by eapply emits_grows].
  apply (wp_run _ _ _ _ _ (session_verifyHostKey grows to s) Hv).
Qed.

Lemma silent_event (s s' : st E) t1 r a t2 :
  emits no_credentials s s' → sends_credentials r = true → trace s' = t1 ++ Ev r a :: t2 →
  ∃ t, trace s = t ++ Ev r a :: t2.
Proof.
  intros (t & Ht & Hall) Hr Heq. rewrite Ht in Heq. symmetry in Heq.
  apply split_at in Heq as [(tb & -> & ->)|(t' & -> & Ht')]; [|by exists t'].
  apply Forall_app in Hall as [_ Hall]. apply Forall_cons in Hall as [Hev _]. simpl in Hev. by rewrite Hr in Hev.
Qed.

(** In such an execution credentials are sent after an acceptance only. *)
Lemma gated_events s0 s t1 r a t2 t0 :
  gated s0 s → sends_credentials r = true → trace s = t1 ++ Ev r a :: t2 → t2 = t0 ++ trace s0 →
  after_acceptance s0 t2.
Proof.
  intros Hg Hr Heq Hnew. revert t1 Heq. induction Hg as [|s s' _ IH E1|to s s1 s' Hg IH Hv E1]; intros t1 Heq.
  - apply (f_equal length) in Heq. rewrite Hnew, length_app in Heq. simpl in Heq. rewrite length_app in Heq. lia.
  - destruct (silent_event s s' t1 r a t2 E1 Hr Heq) as [t Ht]. by eapply IH.
  - destruct E1 as (t & Ht & Hall). rewrite Ht in Heq. symmetry in Heq.
    apply split_at in Heq as [(tb & -> & ->)|(t' & -> & Ht')].
    + apply Forall_app in Hall as [_ Hall]. apply Forall_cons in Hall as [_ Hall].
      exists to, s, s1, tb. split_and!; [by apply gated_grows|done..].
    + pose proof (wp_run _ _ _ _ _ (verifyHostKey_no_credentials to s) Hv) as E1.
      destruct (silent_event s s1 t' r a t2 E1 Hr Ht') as [t'' Ht'']. by eapply IH.
Qed.

(** ** An interface for clients *)

Lemma gated_emits s s' : emits no_credentials s s' → gated s s'.
Proof. intros H. eapply gated_silent; [apply gated_start|done]. Qed.

#[export] Instance gated_preorder : PreOrder gated.
Proof.
  split; [intros s; apply gated_start|]. intros s1 s2 s3 H1 H2.
  induction H2 as [|s s' _ IH E1|to s s4 s' _ IH Hv E1]; [done|by eapply gated_silent|by eapply gated_accepted].
Qed.

#[export] Instance gated_carrier : Carrier gated.
Proof.
  split; [apply _| |].
  - intros s r a e' Hr _. apply gated_emits. exists [Ev r a]. split; [done|by repeat constructor].
  - intros s e. apply gated_emits. by exists [].
Qed.

Lemma gated_preserves {A} (m : M A) : preserves (emits no_credentials) m → preserves gated m.
Proof. apply preserves_weaken. intros s s'. apply gated_emits. Qed.

#[export] Instance gated_linked : Linked gated.
Proof.
  split; [apply _|intros; by apply basic_logged|intros; apply basic_xsink| | |].
  - intros f s _. apply gated_emits. by exists [].
  - intros. apply gated_preserves, disconnectUnlocked_emits, _.
  - intros. apply gated_preserves, run_other_thread_no_credentials.
Qed.

#[local] Hint Extern 3 (preserves gated (upd _)) => apply gated_preserves; preserves_auto : preserves.
#[local] Hint Extern 3 (preserves gated (modify _)) =>
  apply preserves_modify; intros ?; apply gated_emits; by exists [] : preserves.
#[local] Hint Extern 2 (preserves gated (callZ (session_handshake _ _))) =>
  apply gated_preserves, preserves_handshake; reflexivity : preserves.
#[local] Hint Extern 2 (preserves gated force_disconnect) => apply session_force_disconnect, _ : preserves.
#[local] Hint Extern 3 (preserves gated (while_eagain _ (waitSocketUnlocked true _ _ _))) =>
  apply session_while; [apply _|preserves_auto] : preserves.

(** The host key and what follows its acceptance. *)
Lemma gated_login to : preserves gated (failed ← verifyHostKeyUnlocked to;
  if failed : bool then mret true else authenticate to).
Proof.
  intros s. wp_step. apply wp_intro. intros failed s1 Hv. destruct failed.
  - wp_step. apply gated_emits. apply (wp_run _ _ _ _ _ (verifyHostKey_no_credentials to s) Hv).
  - eapply wp_mono; [|apply (session_authenticate (emits same_session))]. intros r s2 H2.
    eapply gated_accepted; [apply gated_start|exact Hv|exact H2].
Qed.

Lemma gated_sshConnect to : preserves gated (sshConnectUnlocked to).
Proof.
  unfold sshConnectUnlocked, establish. pose proof (gated_login to) as H.
  match type of H with preserves _ ?m => generalize dependent m end. intros login H.
  unfold checkConnectPreconditionsUnlocked, holdSessionDescriptorUnlocked, prepareSessionUnlocked, startupUnlocked.
  preserves_auto.
Qed.

#[export] Instance gated_sftp : SftpSession gated.
Proof.
  split; [apply _|apply gated_sshConnect| | |].
  - intros s h. apply gated_emits. by exists [].
  - intros A m. apply sink_free; [apply _|]. intros s l. apply gated_emits. by exists [].
  - intros force to adh xs Hadh. unfold_disconnect.
    repeat first [progress preserves_auto | apply preserves_while_eagain_hint; [apply _| |]].
Qed.
End gate.
