(* ===== verification/Sftp.v ===== *)
(** The SFTP client (SFTPClient.cpp, SFTPClient.h): the handle helper
    [QSftpHelper], the error report, connecting, and the operations on paths and
    attributes. *)

From S2P Require Import Prelude Modes World Sim Defaults Transport Config HostKey Auth Connect Session.

Definition SFTPCLIENT_TIMEOUT : string := "SFTPCLIENT-TIMEOUT".

(** [absolute_filename(me, f)] for a given [f] *)
Definition absolute_filename (sftppath f : string) : string :=
  match f with
  | String "/" _ => f
  | _ => (sftppath ++ "/" ++ f)%string
  end.

(** The path of the list functions: no path stands for the current one. *)
Definition list_path (sftppath : string) (path : option string) : string :=
  match path with
  | None => sftppath
  | Some p => absolute_filename sftppath p
  end.

(** What an entry is listed as. *)
Inductive entry_kind := KDir | KLink | KFile.

#[export] Instance entry_kind_eq_dec : EqDecision entry_kind.
Proof. solve_decision. Defined.

Definition entry_kind_of (a : attrs) : entry_kind :=
  if has (at_flags a) LIBSSH2_SFTP_ATTR_PERMISSIONS then
    if is_type (at_permissions a) S_IFDIR then KDir
    else if is_type (at_permissions a) S_IFLNK then KLink
    else KFile
  else KFile.

Definition names_of (k : entry_kind) (entries : list (string * attrs)) : list string :=
  fst <$> filter (λ e, entry_kind_of e.2 = k) entries.

Record dir_info := mkDirInfo {
  di_path : string;
  di_directories : list string;
  di_files : list string;
  di_links : list string
}.

Section sftp.
Context {E : Type} `{!Env E}.

Abbreviation M := (prog (st E)).

(** ** QSftpHelper

    The handle is [qhandle] of the state; the error string and the timeout of the
    helper are the parameters [errstr] and [to]. *)

Definition set_qhandle (h : ptr) : M unit := modify (λ s, s <| qhandle := h |>).

(** [QSftpHelper::closeIntern]: the last return code *)
Definition closeIntern (errstr : string) (to : Z) : M Z :=
  rc ← loop fuel (λ _ : unit,
         h ← gets qhandle;
         rc ← callZ (sftp_close_handle h);
         if rc =? LIBSSH2_ERROR_EAGAIN then
           failed ← waitSocket_in_disconnect true SFTPCLIENT_TIMEOUT errstr to;
           if failed : bool then
             _ ← disconnectUnlocked true 10 true;
             mret (inr rc)
           else mret (inl tt)
         else mret (inr rc)) tt;
  _ ← set_qhandle None;
  mret rc.

(** [tryClose], [preDisconnect] and the destructor *)
Definition tryClose (errstr : string) (to : Z) : M unit :=
  h ← gets qhandle;
  when (bool_decide (is_Some h)) (_ ← closeIntern errstr to; mret tt).

(** [QSftpHelper::waitSocket]: true when it returns -1 *)
Definition qh_waitSocket (errstr : string) (to : Z) : M bool :=
  waitSocket_gen (λ t, disconnect_virtual true t (tryClose errstr to) true) true
    SFTPCLIENT_TIMEOUT errstr to false.

(** The lifetime of a helper around a function body. *)
Definition with_qh {A} (errstr : string) (to : Z) (m : M A) : M A :=
  outer ← gets qhandle;
  _ ← set_qhandle None;
  r ← m;
  _ ← tryClose errstr to;
  _ ← set_qhandle outer;
  mret r.

(** ** Errors *)

(** Data to read on the socket is taken for the end of the connection. *)
Definition check_still_connected : M unit :=
  rc ← waitSocket_dir LIBSSH2_SESSION_BLOCK_INBOUND 0;
  when (0 <? rc) (_ ← disconnectUnlocked true 10 true; mret tt).

(** [doSessionErrUnlocked(xsink, desc, err, serr)] *)
Definition sftp_session_err (err serr : Z) : M unit :=
  _ ← raise_exc true (Exc "SSH2-ERROR"
        (if err =? LIBSSH2_ERROR_SFTP_PROTOCOL then SftpError serr else SshError err));
  check_still_connected.

(** [SFTPClient::doSessionErrUnlocked(xsink, desc)] *)
Definition sftp_doSessionErr : M unit :=
  c ← gets cl;
  if bool_decide (is_Some (ssh_session c)) then
    err ← callZ (session_last_errno (ssh_session c));
    serr ← callZ (sftp_last_error (sftp_session c));
    sftp_session_err err serr
  else
    _ ← raise true "SSH2-ERROR";
    check_still_connected.

(** [QSftpHelper::err(fmt, ...)] *)
Definition qh_err (errstr : string) (to : Z) : M unit :=
  _ ← tryClose errstr to;
  sftp_doSessionErr.

(** [QSftpHelper::err(session_err, sftp_err, fmt, ...)] *)
Definition qh_err_codes (errstr : string) (to session_err sftp_err : Z) : M unit :=
  _ ← tryClose errstr to;
  sftp_session_err session_err sftp_err.

(** ** Loops *)

(** The loop that opens a handle; false when it gave up. *)
Definition open_handle (open : M ptr) (errstr : string) (to : Z) : M bool :=
  loop fuel (λ _ : unit,
    h ← open;
    _ ← set_qhandle h;
    if bool_decide (is_Some h) then mret (inr true)
    else
      s ← cfield ssh_session;
      e ← callZ (session_last_errno s);
      if e =? LIBSSH2_ERROR_EAGAIN then
        failed ← qh_waitSocket errstr to;
        mret (if failed : bool then inr false else inl tt)
      else
        _ ← qh_err errstr to;
        mret (inr false)) tt.

(** The EAGAIN loop around a request that also returns data. *)
Definition retry_data {A} (op : M (Z * A)) (wait : M bool) : M (option (Z * A)) :=
  loop fuel (λ _ : unit,
    r ← op;
    if fst r =? LIBSSH2_ERROR_EAGAIN then
      failed ← wait;
      mret (if failed : bool then inr None else inl tt)
    else mret (inr (Some r))) tt.

Definition stat_loop (path errstr : string) (follow : bool) (to : Z) : M (option (Z * attrs)) :=
  retry_data (sf ← cfield sftp_session; (call (sftp_stat sf path follow) : M (Z * attrs)))
    (qh_waitSocket errstr to).

(** A request that returns a path in a buffer; the string has [rc] characters. *)
Definition resolve_loop (path : string) (op : Z) (errstr : string) (to : Z) : M (option (Z * string)) :=
  retry_data (sf ← cfield sftp_session; (call (sftp_resolve sf path op) : M (Z * string)))
    (qh_waitSocket errstr to).

(** ** The connection *)

(** [sftpIsAliveUnlocked]: the loop body always returns, after a wait too *)
Definition sftpIsAliveUnlocked (to : Z) : M bool :=
  c ← gets cl;
  let path := if str_empty (sftppath c) then "/"%string else sftppath c in
  with_qh "SFTPCLIENT-ERROR" to (
    h ← callH (sftp_opendir (sftp_session c) path);
    _ ← set_qhandle h;
    if bool_decide (is_Some h) then mret true
    else if bool_decide (ssh_session c = None) then mret false
    else
      e ← callZ (session_last_errno (ssh_session c));
      if e =? LIBSSH2_ERROR_EAGAIN then
        failed ← qh_waitSocket "SFTPCLIENT-ERROR" to;
        mret (negb failed)
      else
        e ← callZ (session_last_errno (ssh_session c));
        if e =? LIBSSH2_ERROR_SOCKET_RECV then mret false
        else
          _ ← callZ (session_last_errno (ssh_session c));
          _ ← qh_err "SFTPCLIENT-ERROR" to;
          mret false).

Definition sftpConnectedUnlocked : M bool :=
  sf ← cfield sftp_session;
  if bool_decide (is_Some sf) then with_local_sink (sftpIsAliveUnlocked 100) else mret false.

Definition sftpConnected : M bool := sftpConnectedUnlocked.
Definition sftpIsAliveEx (to : Z) : M bool := sftpIsAliveUnlocked to.
Definition sftpIsAlive (to : Z) : M bool := with_local_sink (sftpIsAliveEx to).

(** The loop that makes the SFTP session; false when it gave up. *)
Definition init_sftp (errstr : string) (to : Z) : M bool :=
  loop fuel (λ _ : unit,
    s ← cfield ssh_session;
    sf ← callH (sftp_init s);
    _ ← upd (λ c, c <| sftp_session := sf |>);
    if bool_decide (is_Some sf) then mret (inr true)
    else
      e ← callZ (session_last_errno s);
      if e =? LIBSSH2_ERROR_EAGAIN then
        failed ← qh_waitSocket errstr to;
        mret (if failed : bool then inr false else inl tt)
      else
        _ ← qh_err errstr to;
        _ ← force_disconnect;
        mret (inr false)) tt.

(** The current directory of the server, for a client without a path. *)
Definition init_path (errstr : string) (to : Z) : M bool :=
  path ← cfield sftppath;
  if negb (str_empty path) then mret true
  else
    r ← resolve_loop "." LIBSSH2_SFTP_REALPATH errstr to;
    match r with
    | None => mret false
    | Some (rc, buff) =>
        if rc <=? 0 then
          _ ← qh_err errstr to;
          _ ← force_disconnect;
          mret false
        else
          _ ← upd (λ c, c <| sftppath := String.substring 0 (Z.to_nat rc) buff |>);
          mret true
    end.

(** [sftpConnectUnlocked] and [sftpConnect]: -1 or 0 *)
Definition sftpConnectUnlocked (to : Z) : M Z :=
  busy ← checkPollOpUnlocked true;
  if busy : bool then mret (-1)
  else
    sf ← cfield sftp_session;
    _ ← when (bool_decide (is_Some sf)) force_disconnect;
    failed ← sshConnectUnlocked to;
    if failed : bool then mret (-1)
    else
      with_blocking_helper (with_qh "SFTPCLIENT-CONNECT-ERROR" to (
        ok ← init_sftp "SFTPCLIENT-CONNECT-ERROR" to;
        if negb ok then mret (-1)
        else
          ok ← init_path "SFTPCLIENT-CONNECT-ERROR" to;
          mret (if ok : bool then 0 else -1))).

Definition sftpConnect (to : Z) : M Z := sftpConnectUnlocked to.

(** The implicit connection of the operations: true when it failed. *)
Definition ensure_connected (to : Z) : M bool :=
  connected ← sftpConnectedUnlocked;
  if connected : bool then mret false
  else
    rc ← sftpConnectUnlocked to;
    mret (negb (rc =? 0)).

(** ** Requests on paths *)

(** An int request with its EAGAIN loop and its error report. *)
Definition path_request (op : sftp_op) (errstr : string) (to : Z) : M Z :=
  rc ← while_eagain (sf ← cfield sftp_session; callZ (sftp_request sf op)) (qh_waitSocket errstr to);
  match rc with
  | None => mret (-3)
  | Some rc =>
      _ ← when (rc <? 0) (qh_err errstr to);
      mret rc
  end.

(** The arguments are checked, the client connected, and the path made absolute. *)
Definition path_op (errstr : string) (to : Z) (empty : bool) (op : string → sftp_op) : M Z :=
  with_qh errstr to (
    if empty then
      _ ← qh_err errstr to;
      mret (-3)
    else
      failed ← ensure_connected to;
      if failed : bool then mret (-2)
      else
        cwd ← cfield sftppath;
        with_blocking_helper (path_request (op cwd) errstr to)).

Definition sftpMkdir (dir : string) (mode to : Z) : M Z :=
  path_op "SFTPCLIENT-MKDIR-ERROR" to (str_empty dir) (λ cwd, SoMkdir (absolute_filename cwd dir) mode).

Definition sftpRmdir (dir : string) (to : Z) : M Z :=
  path_op "SFTPCLIENT-RMDIR-ERROR" to (str_empty dir) (λ cwd, SoRmdir (absolute_filename cwd dir)).

Definition sftpRename (from to_ : string) (to : Z) : M Z :=
  path_op "SFTPCLIENT-RENAME-ERROR" to false
    (λ cwd, SoRename (absolute_filename cwd from) (absolute_filename cwd to_)).

Definition sftpUnlink (file : string) (to : Z) : M Z :=
  path_op "SFTPCLIENT-REMOVEFILE-ERROR" to false (λ cwd, SoUnlink (absolute_filename cwd file)).

(** ** Attributes *)

(** [sftpGetAttributes] and [sftpLGetAttributes]: the return code and [*attrs],
    which is set when the code is 0. *)
Definition get_attributes (follow : bool) (errstr : string) (fname : string) (to : Z) : M (Z * option attrs) :=
  failed ← ensure_connected to;
  if failed : bool then mret (-3, None)
  else
    with_qh errstr to (
      if str_empty fname then
        _ ← qh_err errstr to;
        mret (-2, None)
      else
        cwd ← cfield sftppath;
        with_blocking_helper (
          r ← stat_loop (absolute_filename cwd fname) errstr follow to;
          match r with
          | None => mret (-3, None)
          | Some (rc, a) =>
              if rc <? 0 then
                c ← gets cl;
                err ← callZ (session_last_errno (ssh_session c));
                missing ← (if err =? LIBSSH2_ERROR_SFTP_PROTOCOL then
                             serr ← callZ (sftp_last_error (sftp_session c));
                             mret (serr =? LIBSSH2_FX_NO_SUCH_FILE)
                           else mret false);
                if missing : bool then mret (-2, None)
                else
                  _ ← qh_err errstr to;
                  mret (-1, None)
              else mret (0, Some a)
          end)).

Definition sftpGetAttributes (fname : string) (to : Z) : M (Z * option attrs) :=
  get_attributes true "SFTPCLIENT-STAT-ERROR" fname to.

Definition sftpLGetAttributes (fname : string) (to : Z) : M (Z * option attrs) :=
  get_attributes false "SFTPCLIENT-LSTAT-ERROR" fname to.

(** [while ((rc = libssh2_sftp_setstat(...)) == EAGAIN)] *)
Definition setstat_loop (path : string) (a : attrs) (errstr : string) (to : Z) : M (option Z) :=
  while_eagain (sf ← cfield sftp_session; callZ (sftp_request sf (SoSetstat path a)))
    (qh_waitSocket errstr to).

Definition sftpChmod (file : string) (mode to : Z) : M Z :=
  let errstr := "SFTPCLIENT-CHMOD-ERROR"%string in
  with_qh errstr to (
    if str_empty file then
      _ ← qh_err errstr to;
      mret (-3)
    else
      failed ← ensure_connected to;
      if failed : bool then mret (-2)
      else
        cwd ← cfield sftppath;
        let pstr := absolute_filename cwd file in
        with_blocking_helper (
          r ← stat_loop pstr errstr true to;
          match r with
          | None => mret (-3)
          | Some (rc, a) =>
              if rc <? 0 then
                _ ← qh_err errstr to;
                mret rc
              else if negb (has (at_flags a) LIBSSH2_SFTP_ATTR_PERMISSIONS) then
                _ ← qh_err errstr to;
                mret (-3)
              else
                let newmode := chmod_newmode (at_permissions a) mode in
                let a := mkAttrs (at_flags a) (at_filesize a) (at_uid a) (at_gid a) newmode
                           (at_atime a) (at_mtime a) in
                rc ← setstat_loop pstr a errstr to;
                match rc with
                | None => mret (-3)
                | Some rc =>
                    if rc <? 0 then
                      r ← stat_loop pstr errstr true to;
                      match r with
                      | None => mret (-3)
                      | Some (rc, a) =>
                          if (0 <=? rc) && (at_permissions a =? newmode) then mret 0
                          else
                            _ ← qh_err errstr to;
                            mret rc
                      end
                    else mret rc
                end
          end)).

Definition sftpChown (file : string) (uid gid to : Z) : M Z :=
  let errstr := "SFTPCLIENT-CHOWN-ERROR"%string in
  with_qh errstr to (
    if str_empty file then
      _ ← qh_err errstr to;
      mret (-3)
    else
      failed ← ensure_connected to;
      if failed : bool then mret (-2)
      else
        cwd ← cfield sftppath;
        let pstr := absolute_filename cwd file in
        with_blocking_helper (
          r ← stat_loop pstr errstr true to;
          match r with
          | None => mret (-3)
          | Some (rc, a) =>
              if rc <? 0 then
                _ ← qh_err errstr to;
                mret rc
              else
                let a := mkAttrs LIBSSH2_SFTP_ATTR_UIDGID (at_filesize a) uid gid (at_permissions a)
                           (at_atime a) (at_mtime a) in
                rc ← setstat_loop pstr a errstr to;
                match rc with
                | None => mret (-3)
                | Some rc =>
                    _ ← when (rc <? 0) (qh_err errstr to);
                    mret rc
                end
          end)).

(** [sftpStatvfs]: the fields, or [None] with an exception *)
Definition sftpStatvfs (path : string) (to : Z) : M (option (list Z)) :=
  let errstr := "SFTPCLIENT-STATVFS-ERROR"%string in
  with_qh errstr to (
    if str_empty path then
      _ ← qh_err errstr to;
      mret None
    else
      failed ← ensure_connected to;
      if failed : bool then mret None
      else
        cwd ← cfield sftppath;
        with_blocking_helper (
          r ← retry_data (sf ← cfield sftp_session;
                          (call (sftp_statvfs sf (absolute_filename cwd path)) : M (Z * list Z)))
                (qh_waitSocket errstr to);
          match r with
          | None => mret None
          | Some (rc, st) =>
              if rc <? 0 then
                _ ← qh_err errstr to;
                mret None
              else mret (Some st)
          end)).

(** ** Links *)

Definition sftpSymlinkResolvesUnlocked (link_path target errstr : string) (to : Z) : M bool :=
  r ← resolve_loop link_path LIBSSH2_SFTP_READLINK errstr to;
  match r with
  | None => mret false
  | Some (rc, buff) =>
      mret (if rc <? 0 then false else String.eqb target (String.substring 0 (Z.to_nat rc) buff))
  end.

Definition sftpSymlink (target link_path : string) (to : Z) : M Z :=
  let errstr := "SFTPCLIENT-SYMLINK-ERROR"%string in
  with_qh errstr to (
    if str_empty target then
      _ ← qh_err errstr to;
      mret (-3)
    else if str_empty link_path then
      _ ← qh_err errstr to;
      mret (-3)
    else
      failed ← ensure_connected to;
      if failed : bool then mret (-2)
      else
        cwd ← cfield sftppath;
        let tstr := absolute_filename cwd target in
        let lstr := absolute_filename cwd link_path in
        with_blocking_helper (
          rc ← while_eagain (sf ← cfield sftp_session; callZ (sftp_request sf (SoSymlink tstr lstr)))
                 (qh_waitSocket errstr to);
          match rc with
          | None => mret (-3)
          | Some rc =>
              if rc <? 0 then
                c ← gets cl;
                session_err ← callZ (session_last_errno (ssh_session c));
                sftp_err ← callZ (sftp_last_error (sftp_session c));
                resolves ← (if session_err =? LIBSSH2_ERROR_SFTP_PROTOCOL
                            then sftpSymlinkResolvesUnlocked lstr tstr errstr to else mret false);
                if resolves : bool then mret 0
                else
                  failed ← has_exc;
                  if failed : bool then mret (-3)
                  else
                    _ ← qh_err_codes errstr to session_err sftp_err;
                    mret rc
              else mret rc
          end)).

Definition sftpReadlink (path : string) (to : Z) : M (option string) :=
  let errstr := "SFTPCLIENT-READLINK-ERROR"%string in
  with_qh errstr to (
    if str_empty path then
      _ ← qh_err errstr to;
      mret None
    else
      failed ← ensure_connected to;
      if failed : bool then mret None
      else
        cwd ← cfield sftppath;
        with_blocking_helper (
          r ← resolve_loop (absolute_filename cwd path) LIBSSH2_SFTP_READLINK errstr to;
          match r with
          | None => mret None
          | Some (rc, buff) =>
              if rc <? 0 then
                _ ← qh_err errstr to;
                mret None
              else mret (Some (String.substring 0 (Z.to_nat rc) buff))
          end)).

(** ** Directories *)

(** [sftpChdir]: the new path, or [None] with an exception *)
Definition sftpChdir (nwd : option string) (to : Z) : M (option string) :=
  let errstr := "SFTPCLIENT-CHDIR-ERROR"%string in
  with_qh errstr to (
    failed ← ensure_connected to;
    if failed : bool then mret None
    else
      cwd ← cfield sftppath;
      with_blocking_helper (
        r ← resolve_loop (list_path cwd nwd) LIBSSH2_SFTP_REALPATH errstr to;
        match r with
        | None => mret None
        | Some (rc, buff) =>
            if rc <=? 0 then
              _ ← qh_err errstr to;
              mret None
            else
              ok ← open_handle (sf ← cfield sftp_session; callH (sftp_opendir sf buff)) errstr to;
              if negb ok then mret None
              else
                _ ← upd (λ c, c <| sftppath := buff |>);
                mret (Some buff)
        end)).

Definition sftpPath : M (option string) :=
  p ← cfield sftppath;
  mret (if str_empty p then None else Some p).

(** The entries of an open directory in the order of the server; [None] when the
    reading failed. *)
Definition read_entries (errstr : string) (to : Z) : M (option (list (string * attrs))) :=
  loop fuel (λ entries : list (string * attrs),
    r ← retry_data (h ← gets qhandle; (call (sftp_readdir h) : M (Z * (string * attrs))))
          (qh_waitSocket errstr to);
    match r with
    | None => mret (inr None)
    | Some (rc, entry) =>
        if rc =? 0 then mret (inr (Some entries))
        else if rc <? 0 then
          _ ← qh_err errstr to;
          mret (inr None)
        else mret (inl (entries ++ [entry]))
    end) [].

(** The common body of the list functions: the path and the entries. *)
Definition list_entries (path : option string) (errstr : string) (to : Z) :
    M (option (string * list (string * attrs))) :=
  failed ← ensure_connected to;
  if failed : bool then mret None
  else
    cwd ← cfield sftppath;
    let pstr := list_path cwd path in
    with_blocking_helper (with_qh errstr to (
      ok ← open_handle (sf ← cfield sftp_session; callH (sftp_opendir sf pstr)) errstr to;
      if negb ok then mret None
      else
        entries ← read_entries errstr to;
        mret (match entries with None => None | Some l => Some (pstr, l) end))).

(** [sftpList]; [sort] is [QoreListNode::sort] on strings. *)
Definition sftpList (sort : list string → list string) (path : option string) (to : Z) : M (option dir_info) :=
  r ← list_entries path "SFTPCLIENT-LIST-ERROR" to;
  mret (match r with
        | None => None
        | Some (pstr, l) =>
            Some (mkDirInfo pstr (sort (names_of KDir l)) (sort (names_of KFile l)) (sort (names_of KLink l)))
        end).

(** [sftpListFull]: the names, with the attributes, type and permission string of
    those whose permissions the server sent. *)
Definition sftpListFull (path : option string) (to : Z) :
    M (option (list (string * option (attrs * (string * list Ascii.ascii))))) :=
  r ← list_entries path "SFTPCLIENT-LISTFULL-ERROR" to;
  mret (match r with
        | None => None
        | Some (_, l) =>
            Some ((λ e : string * attrs,
              (e.1, if has (at_flags e.2) LIBSSH2_SFTP_ATTR_PERMISSIONS
                    then Some (e.2, ssh2_mode_to_perm (at_permissions e.2)) else None)) <$> l)
        end).
End sftp.

(** * The operations implement the session interface *)

Section suite.
Context {E : Type} `{!Env E} (R : relation (st E)) `{!SftpSession R}.

Abbreviation M := (prog (st E)).

Lemma sftp_modify_qhandle h : preserves R (set_qhandle h).
Proof. apply preserves_modify. intros s. apply sftp_qhandle. Qed.

#[local] Hint Extern 0 (Session _) => typeclasses eauto : preserves.
#[local] Hint Resolve linked_disconnect session_force_disconnect sftp_modify_qhandle : preserves.
#[local] Hint Extern 3 (preserves R (upd _)) => apply session_preserves_upd; first [typeclasses eauto | intros ?; split_and!; done] : preserves.

Lemma sftp_closeIntern errstr to : preserves R (closeIntern errstr to).
Proof. unfold closeIntern. preserves_auto. Qed.

#[local] Hint Resolve sftp_closeIntern : preserves.

Lemma sftp_tryClose errstr to : preserves R (tryClose errstr to).
Proof. unfold tryClose. preserves_auto. Qed.

#[local] Hint Resolve sftp_tryClose : preserves.

Lemma sftp_wait errstr to : preserves R (qh_waitSocket errstr to).
Proof. apply preserves_waitSocket_gen; [apply _|]. intros t. apply sftp_disconnect. preserves_auto. Qed.

Lemma sftp_with_qh {A} errstr to (m : M A) : preserves R m → preserves R (with_qh errstr to m).
Proof. intros H. unfold with_qh. preserves_auto. Qed.

Lemma sftp_local_sink {A} (m : M A) : preserves R m → preserves R (with_local_sink m).
Proof. apply sftp_sink. Qed.

Lemma sftp_still_connected : preserves R check_still_connected.
Proof. unfold check_still_connected. preserves_auto. Qed.

#[local] Hint Resolve sftp_wait sftp_still_connected : preserves.

Lemma sftp_err_codes errstr to e se : preserves R (qh_err_codes errstr to e se).
Proof. unfold qh_err_codes, sftp_session_err. preserves_auto. Qed.

Lemma sftp_err errstr to : preserves R (qh_err errstr to).
Proof. unfold qh_err, sftp_doSessionErr, sftp_session_err. preserves_auto. Qed.

#[local] Hint Resolve sftp_err sftp_err_codes : preserves.

Lemma sftp_open_handle (open : M ptr) errstr to : preserves R open → preserves R (open_handle open errstr to).
Proof. intros H. unfold open_handle. preserves_auto. Qed.

Lemma sftp_retry_data {A} (op : M (Z * A)) errstr to :
  preserves R op → preserves R (retry_data op (qh_waitSocket errstr to)).
Proof. intros H. unfold retry_data. preserves_auto. Qed.

Lemma sftp_while (op : M Z) errstr to : preserves R op → preserves R (while_eagain op (qh_waitSocket errstr to)).
Proof. intros H. apply preserves_while_eagain; [apply _|done|apply sftp_wait]. Qed.

#[local] Hint Extern 3 (preserves R (open_handle _ _ _)) => apply sftp_open_handle; preserves_auto : preserves.
#[local] Hint Extern 3 (preserves R (retry_data _ (qh_waitSocket _ _))) =>
  apply sftp_retry_data; preserves_auto : preserves.
#[local] Hint Extern 3 (preserves R (while_eagain _ (qh_waitSocket _ _))) =>
  apply sftp_while; preserves_auto : preserves.
#[local] Hint Extern 3 (preserves R (with_qh _ _ _)) => apply sftp_with_qh; preserves_auto : preserves.
#[local] Hint Extern 3 (preserves R (with_blocking_helper _)) =>
  apply session_with_blocking; preserves_auto : preserves.

Lemma sftp_isAlive to : preserves R (sftpIsAliveUnlocked to).
Proof. unfold sftpIsAliveUnlocked. preserves_auto. Qed.

Lemma sftp_connected : preserves R sftpConnectedUnlocked.
Proof. unfold sftpConnectedUnlocked. preserves_auto. apply sftp_local_sink, sftp_isAlive. Qed.

#[local] Hint Resolve sftp_sshConnect sftp_connected : preserves.

(** Setting the path of a client that has none. *)
Context (Hpath : ∀ errstr to, preserves R (init_path errstr to)).

Lemma sftp_connect to : preserves R (sftpConnectUnlocked to).
Proof. unfold sftpConnectUnlocked, init_sftp. preserves_auto. Qed.

#[local] Hint Resolve sftp_connect : preserves.

Lemma sftp_ensure_connected to : preserves R (ensure_connected to).
Proof. unfold ensure_connected. preserves_auto. Qed.

#[local] Hint Resolve sftp_ensure_connected : preserves.

Lemma sftp_path_op errstr to empty op : preserves R (path_op errstr to empty op).
Proof. unfold path_op, path_request. preserves_auto. Qed.

Lemma sftp_get_attributes follow errstr fname to : preserves R (get_attributes follow errstr fname to).
Proof. unfold get_attributes, stat_loop. preserves_auto. Qed.

Lemma sftp_chmod file mode to : preserves R (sftpChmod file mode to).
Proof. unfold sftpChmod, stat_loop, setstat_loop. preserves_auto. Qed.

Lemma sftp_chown file uid gid to : preserves R (sftpChown file uid gid to).
Proof. unfold sftpChown, stat_loop, setstat_loop. preserves_auto. Qed.

Lemma sftp_statvfs_op path to : preserves R (sftpStatvfs path to).
Proof. unfold sftpStatvfs. preserves_auto. Qed.

Lemma sftp_symlink target link to : preserves R (sftpSymlink target link to).
Proof. unfold sftpSymlink, sftpSymlinkResolvesUnlocked, resolve_loop. preserves_auto. Qed.

Lemma sftp_readlink path to : preserves R (sftpReadlink path to).
Proof. unfold sftpReadlink, resolve_loop. preserves_auto. Qed.

Lemma sftp_list_entries `{!Carrier R} path errstr to : preserves R (list_entries path errstr to).
Proof. unfold list_entries, read_entries. preserves_auto. Qed.
End suite.

Section instances.
Context {E : Type} `{!Env E}.

Abbreviation M := (prog (st E)).

(** Relations that do not look at the path. *)
Class PathFree (R : relation (st E)) := path_free s p : R s (s <| cl := (cl s) <| sftppath := p |> |>).

#[export] Instance keeps_registered_path : PathFree keeps_registered.
Proof. intros s p [H1 H2 H3 H4]. by split. Qed.

#[export] Instance grows_path : PathFree grows.
Proof. intros s p. by exists []. Qed.

#[export] Instance xsink_grows_path : PathFree xsink_grows.
Proof. intros s p. by exists []. Qed.

#[export] Instance both_path R1 R2 : PathFree R1 → PathFree R2 → PathFree (both R1 R2).
Proof. intros H1 H2 s p. split; apply path_free. Qed.

#[export] Instance emits_path P : PathFree (emits P).
Proof. intros s p. by exists []. Qed.

Lemma init_path_free (R : relation (st E)) `{!SftpSession R} `{!PathFree R} errstr to :
  preserves R (init_path errstr to).
Proof.
  unfold init_path, resolve_loop. preserves_auto.
  - apply sftp_retry_data; [apply _|preserves_auto].
  - apply sftp_err, _.
  - apply session_force_disconnect, _.
  - apply preserves_upd. intros ?. apply path_free.
Qed.

Lemma chdir_free (R : relation (st E)) `{!SftpSession R} `{!PathFree R} nwd to :
  preserves R (sftpChdir nwd to).
Proof.
  unfold sftpChdir, resolve_loop. apply sftp_with_qh; [apply _|].
  preserves_step; [apply sftp_ensure_connected; [apply _|intros; by apply init_path_free]|].
  preserves_step; [preserves_auto|]. preserves_step; [preserves_auto|].
  apply session_with_blocking; [apply _|]. preserves_auto.
  - apply sftp_retry_data; [apply _|preserves_auto].
  - apply sftp_err, _.
  - apply sftp_open_handle; [apply _|preserves_auto].
  - apply preserves_upd. intros ?. apply path_free.
Qed.

(** The path of a client that has one. *)
Definition path_kept (s s' : st E) : Prop :=
  sftppath (cl s) ≠ EmptyString → sftppath (cl s') = sftppath (cl s).

Definition same_path (s s' : st E) : Prop := sftppath (cl s') = sftppath (cl s).

#[export] Instance same_path_frame : Frame same_path.
Proof. split; [split| |]; unfold same_path; [by intros ?|by intros ??? -> ->|done|done]. Qed.

#[export] Instance path_kept_frame : Frame path_kept.
Proof.
  split; [split| |]; unfold path_kept; [by intros ?| |done|done].
  intros x y z H1 H2 H. rewrite H2, H1; [done|done|]. by rewrite H1.
Qed.

Lemma same_conf_same_path (s s' : st E) : same_conf s s' → same_path s s'.
Proof. intros H. apply (f_equal sftppath H). Qed.

(** Disconnecting keeps what depends on the path alone. *)
Lemma disconnect_virtual_path (R : relation (st E)) `{!Frame R} force to (adh : M unit) xs :
  (∀ s s', sftppath (cl s') = sftppath (cl s) → R s s') →
  preserves R adh → preserves R (disconnect_virtual force to adh xs).
Proof.
  intros HR Hadh. assert (∀ f, (∀ c, sftppath (f c) = sftppath c) → preserves R (upd f)) as Hu.
  { intros f Hf. apply preserves_upd. intros s. apply HR, Hf. }
  assert (∀ f, (∀ s : st E, cl (f s) = cl s) → preserves R (modify f)) as Hm.
  { intros f Hf. apply preserves_modify. intros s. apply HR. by rewrite Hf. }
  unfold_disconnect.
  repeat first [progress preserves_auto | apply preserves_while_eagain_hint; [apply _| |]
    | apply Hu; reflexivity | apply Hm; reflexivity].
Qed.

Lemma path_session (R : relation (st E)) `{!Frame R} :
  (∀ s s', sftppath (cl s') = sftppath (cl s) → R s s') → SftpSession R.
Proof.
  intros HR. assert (∀ force to adh xs, preserves R adh → preserves R (disconnect_virtual force to adh xs)) as Hd.
  { intros. by apply disconnect_virtual_path. }
  assert (∀ force to xs, preserves R (disconnectUnlocked force to xs)) as Hd2.
  { intros. apply Hd. preserves_auto. }
  apply sftp_of; [apply session_of|..].
  - apply _.
  - intros. apply frame_logged.
  - intros. apply frame_xsink.
  - intros f s Hf. apply HR. simpl. apply Hf.
  - exact Hd2.
  - intros op. apply other_thread_preserves; [apply _|intros; by apply HR| |exact Hd2].
    intros f s Hf. apply HR. simpl. apply Hf.
  - intros. by apply HR.
  - intros A m. apply sink_free; [apply _|]. intros. by apply HR.
  - exact Hd.
Qed.

#[export] Instance same_path_sftp : SftpSession same_path.
Proof. by apply path_session; [apply _|]. Qed.

#[export] Instance path_kept_sftp : SftpSession path_kept.
Proof. by apply path_session; [apply _|intros s s' H _]. Qed.

Lemma init_path_kept errstr to : preserves path_kept (init_path (E:=E) errstr to).
Proof.
  intros s. unfold init_path. wp_step. wp_world. wp_step; [by apply wp_mret|].
  apply negb_false_iff, str_empty_true in Heqb. apply wp_intro. by intros r s' _ Hne.
Qed.

Lemma ensure_connected_kept to : preserves path_kept (ensure_connected (E:=E) to).
Proof. apply sftp_ensure_connected; [apply _|]. intros. apply init_path_kept. Qed.
End instances.

(** * Following an operation *)

Section following.
Context {E : Type} `{!Env E}.

Abbreviation M := (prog (st E)).

(** Later in the run of an operation, with the path as it was. *)
Definition later : relation (st E) := both grows (both same_path (both xsink_grows (emits wire_only))).

#[export] Instance later_sftp : SftpSession later.
Proof. apply _. Qed.

Lemma later_new s s1 s2 ev : later s s1 → new s1 s2 ev → new s s2 ev.
Proof. intros [G _]. by apply new_weaken. Qed.

Lemma new_later s s1 s2 ev : new s s1 ev → later s1 s2 → new s s2 ev.
Proof. intros H [G _]. by eapply new_grows. Qed.

Lemma later_step (s : st E) r a e' : moves_data r = false → later s (logged s (Ev r a) e').
Proof.
  intros Hr. split; [by exists [Ev r a]|]. split; [done|]. split; [by exists []|].
  exists [Ev r a]. split; [done|by constructor].
Qed.

Lemma later_logged s s1 r a e' : moves_data r = false → later s s1 → later s (logged s1 (Ev r a) e').
Proof. intros Hr L. transitivity s1; [done|by apply later_step]. Qed.

Lemma wp_later {A} (m : M A) (Q : A → st E → Prop) s :
  preserves later m → (∀ a s', later s s' → Q a s') → wp True m Q s.
Proof. intros Hm HQ. eapply wp_mono; [|apply Hm]. intros a s' H. by apply HQ. Qed.

(** An error report leaves an exception. *)
Lemma later_reported (s s' : st E) : xsink s ≠ [] → later s s' → xsink s' ≠ [].
Proof. intros Hx [_ [_ [X _]]]. by eapply xsink_grows_nonempty. Qed.

Lemma later_raise s s1 e : later s s1 → later s (s1 <| xsink := e :: xsink s1 |>).
Proof. intros L. transitivity s1; [done|]. split; [by exists []|]. split; [done|].
  split; [by exists [e]|by exists []].
Qed.

Lemma wp_qh_err errstr to s :
  wp True (qh_err errstr to) (λ _ s', later s s' ∧ xsink s' ≠ []) s.
Proof.
  unfold qh_err, sftp_doSessionErr, sftp_session_err. wp_step.
  apply wp_later; [apply sftp_tryClose, _|]. intros ? s1 L1. wp_step. wp_step.
  assert (∀ e s2, later s s2 → wp True check_still_connected (λ _ s', later s s' ∧ xsink s' ≠ [])
    (s2 <| xsink := e :: xsink s2 |>)) as Hk.
  { intros e s2 L2. apply wp_later; [apply sftp_still_connected, _|]. intros ? s3 L3.
    split; [etransitivity; [by apply later_raise|exact L3]|by eapply later_reported; [|exact L3]]. }
  wp_step; [wp_step; wp_world; wp_step; wp_world|]; wp_step; wp_world; apply Hk; [|done].
  apply later_logged; [done|]. by apply later_logged.
Qed.

Lemma wp_with_qh {A} errstr to (m : M A) (Q : A → st E → Prop) s :
  (∀ s1, later s s1 → wp True m (λ r s2, ∀ s3, later s2 s3 → Q r s3) s1) →
  wp True (with_qh errstr to m) Q s.
Proof.
  intros Hm. unfold with_qh. wp_step. wp_step. wp_step.
  apply wp_later; [apply sftp_modify_qhandle, _|]. intros ? s1 L1. wp_step.
  eapply wp_mono; [|by apply Hm]. intros r s2 H2. cbv beta. wp_step.
  apply wp_later; [apply sftp_tryClose, _|]. intros ? s3 L3. wp_step.
  apply wp_later; [apply sftp_modify_qhandle, _|]. intros ? s4 L4. wp_step. apply H2. by transitivity s3.
Qed.

Lemma wp_blocking_later {A} (m : M A) (Q : A → st E → Prop) s :
  (∀ s1, later s s1 → wp True m (λ r s2, ∀ s3, later s2 s3 → Q r s3) s1) →
  wp True (with_blocking_helper m) Q s.
Proof.
  intros Hm. unfold with_blocking_helper. wp_step.
  apply wp_later; [apply preserves_setBlocking, _|]. intros ? s1 L1. wp_step.
  eapply wp_mono; [|by apply Hm]. intros r s2 H2. cbv beta. wp_step.
  apply wp_later; [apply preserves_setBlocking, _|]. intros ? s3 L3. wp_step. by apply H2.
Qed.

(** The same without the path. *)
Definition begun : relation (st E) := both grows (both xsink_grows (emits wire_only)).

#[export] Instance begun_sftp : SftpSession begun.
Proof. apply _. Qed.

#[export] Instance begun_path : PathFree begun.
Proof. apply _. Qed.

Lemma later_begun s s' : later s s' → begun s s'.
Proof. intros (G & _ & X & W). by split. Qed.

(** The implicit connection may set the path of a client without one. *)
Lemma wp_ensure_connected to (Q : bool → st E → Prop) s :
  (∀ failed s', begun s s' → path_kept s s' → Q failed s') → wp True (ensure_connected to) Q s.
Proof.
  intros HQ. assert (preserves (both begun path_kept) (ensure_connected (E:=E) to)) as Hp.
  { apply preserves_both. split; [apply sftp_ensure_connected; [apply _|intros; apply init_path_free; apply _]|].
    apply ensure_connected_kept. }
  eapply wp_mono; [|apply Hp]. intros failed s' [B K]. by apply HQ.
Qed.

(** The EAGAIN loops end with an answer to their request or a failed wait. *)
Lemma wp_request_loop (mk : ptr → zcall) errstr to (Q : option Z → st E → Prop) s :
  (∀ sf, moves_data (QZ (mk sf)) = false) →
  (∀ s', later s s' → Q None s') →
  (∀ rc sf s', later s s' → rc ≠ LIBSSH2_ERROR_EAGAIN → new s s' (Ev (QZ (mk sf)) rc) → Q (Some rc) s') →
  wp True (while_eagain (sf ← cfield sftp_session; callZ (mk sf)) (qh_waitSocket errstr to)) Q s.
Proof.
  intros Hmk Hn Hs. unfold while_eagain. apply (wp_loop (λ _ s1, later s s1)); [|done].
  intros _ s1 L1. wp_step. wp_step. wp_world. wp_world. set (s2 := logged s1 _ _).
  assert (later s s2) as L2 by (transitivity s1; [done|by apply later_step]).
  destruct (Z.eqb_spec a LIBSSH2_ERROR_EAGAIN).
  - wp_step. apply wp_later; [apply sftp_wait, _|]. intros [] s3 L3; apply wp_mret; [apply Hn|]; by transitivity s2.
  - apply wp_mret. eapply Hs; [done..|]. by apply new_logged, L1.
Qed.

Lemma wp_data_loop {A} (op : M (Z * A)) errstr to
    (Q : option (Z * A) → st E → Prop) s (is_answer : st E → Z * A → st E → Prop) :
  (∀ s1, wp True op (λ x s2, later s1 s2 ∧ is_answer s1 x s2) s1) →
  (∀ s', later s s' → Q None s') →
  (∀ rc a s1 s', later s s1 → is_answer s1 (rc, a) s' → later s1 s' → rc ≠ LIBSSH2_ERROR_EAGAIN → Q (Some (rc, a)) s') →
  wp True (retry_data op (qh_waitSocket errstr to)) Q s.
Proof.
  intros Hop Hn Hs. unfold retry_data. apply (wp_loop (λ _ s1, later s s1)); [|done].
  intros _ s1 L1. wp_step. eapply wp_mono; [|apply Hop]. intros [rc a] s2 [L2 A2]. cbv beta. cbn [fst].
  destruct (Z.eqb_spec rc LIBSSH2_ERROR_EAGAIN).
  - wp_step. apply wp_later; [apply sftp_wait, _|]. intros [] s3 L3; apply wp_mret; [apply Hn|];
      (transitivity s2; [by transitivity s1|done]).
  - apply wp_mret. by apply (Hs rc a s1).
Qed.

Lemma wp_stat_loop path errstr follow to (Q : option (Z * attrs) → st E → Prop) s :
  (∀ s', later s s' → Q None s') →
  (∀ rc a sf s', later s s' → new s s' (Ev (sftp_stat sf path follow) (rc, a)) → Q (Some (rc, a)) s') →
  wp True (stat_loop path errstr follow to) Q s.
Proof.
  intros Hn Hs. apply (wp_data_loop _ _ _ _ _
    (λ s1 x s2, ∃ sf, new s1 s2 (Ev (sftp_stat sf path follow) x))); [|done|].
  - intros s1. wp_step. wp_world. apply (wp_call _ (sftp_stat (sftp_session (cl s1)) path follow)).
    intros x e' _. split; [by apply later_logged|]. eexists. by apply new_logged.
  - intros rc a s1 s' L1 [sf Hnew] L2 _. apply (Hs rc a sf); [by transitivity s1|by apply (later_new s s1)].
Qed.

Lemma wp_resolve_loop path op errstr to (Q : option (Z * string) → st E → Prop) s :
  (∀ s', later s s' → Q None s') →
  (∀ rc p sf s', later s s' → new s s' (Ev (sftp_resolve sf path op) (rc, p)) → Q (Some (rc, p)) s') →
  wp True (resolve_loop path op errstr to) Q s.
Proof.
  intros Hn Hs. apply (wp_data_loop _ _ _ _ _
    (λ s1 x s2, ∃ sf, new s1 s2 (Ev (sftp_resolve sf path op) x))); [|done|].
  - intros s1. wp_step. wp_world. apply (wp_call _ (sftp_resolve (sftp_session (cl s1)) path op)).
    intros x e' _. split; [by apply later_logged|]. eexists. by apply new_logged.
  - intros rc a s1 s' L1 [sf Hnew] L2 _. apply (Hs rc a sf); [by transitivity s1|by apply (later_new s s1)].
Qed.

Lemma wp_open_handle (mk : ptr → hcall) errstr to (Q : bool → st E → Prop) s :
  (∀ s', later s s' → Q false s') →
  (∀ sf h s', later s s' → qhandle s' = Some h → new s s' (Ev (QH (mk sf)) (Some h)) → Q true s') →
  wp True (open_handle (sf ← cfield sftp_session; callH (mk sf)) errstr to) Q s.
Proof.
  intros Hf Ht. unfold open_handle. apply (wp_loop (λ _ s1, later s s1)); [|done].
  intros _ s1 L1. wp_step. wp_step. wp_world. wp_world. unfold set_qhandle. wp_step. wp_step.
  set (s2 := logged s1 _ _). assert (later s s2) as L2 by by apply later_logged.
  assert (later s (s2 <| qhandle := a |>)) as L3 by (transitivity s2; [done|apply sftp_qhandle]).
  destruct a as [h|]; cbn [bool_decide decide is_Some_dec].
  - apply wp_mret. apply (Ht (sftp_session (cl s1)) h); [done|done|].
    apply new_logged, L1.
  - wp_step. wp_world. wp_step. wp_world. apply (later_logged _ _ (QZ (session_last_errno (ssh_session (cl s1)))) a e'0 eq_refl) in L3.
    wp_step; wp_step.
    + apply wp_later; [apply sftp_wait, _|]. intros [] s4 L4; apply wp_mret; [apply Hf|]; by etransitivity.
    + apply wp_later; [apply sftp_err, _|]. intros ? s4 L4; apply wp_mret; apply Hf; by etransitivity.
Qed.
End following.

(** * Theorems *)

Section theorems.
Context {E : Type} `{!Env E}.

Abbreviation M := (prog (st E)).

(** The directory relative paths are taken from: the client's path, unless it has
    none before the implicit connection. *)
Definition current_dir (s : st E) (cwd : string) : Prop :=
  sftppath (cl s) ≠ EmptyString → cwd = sftppath (cl s).

(** The server answered a symlink request for these paths with success, or it says
    that the link points to the target. *)
Definition link_made (target link : string) (s s' : st E) : Prop :=
  ∃ sf rc, new s s' (Ev (QZ (sftp_request sf (SoSymlink target link))) rc) ∧
    (0 ≤ rc ∨
     ∃ sf' rc' buff, new s s' (Ev (sftp_resolve sf' link LIBSSH2_SFTP_READLINK) (rc', buff)) ∧ 0 ≤ rc' ∧
       String.substring 0 (Z.to_nat rc') buff = target).

Lemma wp_implicit {A} to (m : string → M A) (a : A) (Q : A → st E → Prop) s s0 :
  later s0 s →
  (∀ s', grows s0 s' → Q a s') →
  (∀ cwd s', current_dir s0 cwd → grows s0 s' → sftppath (cl s') = cwd → wp True (m cwd) Q s') →
  wp True (failed ← ensure_connected to;
           if failed : bool then mret a else (cwd ← cfield sftppath; m cwd)) Q s.
Proof.
  intros [G0 [P0 _]] Ha Hm. wp_step. apply wp_ensure_connected. intros failed s1 [G1 _] K1.
  assert (grows s0 s1) as G by by transitivity s. wp_step; [by apply wp_mret, Ha|].
  wp_step. wp_world. apply Hm; [|done|done]. intros Hne. rewrite K1; [exact P0|].
  unfold same_path in P0. by rewrite P0.
Qed.

(** C25: A symlink operation that reports success has made the link: the server
    acknowledged it, or, where libssh2 misreports the acknowledgement, the server was
    asked and the link resolves to exactly the requested target. *)
Theorem symlink_sound (target link : string) (to : Z) (s s' : st E) :
  sftpSymlink target link to s = Some (0, s') →
  ∃ cwd, current_dir s cwd ∧
    link_made (absolute_filename cwd target) (absolute_filename cwd link) s s'.
Proof.
  set (Q := λ (r : Z) s', r = 0 → ∃ cwd, current_dir s cwd ∧
    link_made (absolute_filename cwd target) (absolute_filename cwd link) s s').
  intros Hrun. refine (wp_run _ Q _ _ _ _ Hrun eq_refl). clear Hrun s'. unfold sftpSymlink.
  apply wp_with_qh. intros s1 L1. wp_step.
  { wp_step. apply wp_intro. intros; wp_step. by intros s3 _ ?. }
  wp_step. { wp_step. apply wp_intro. intros; wp_step. by intros s3 _ ?. }
  apply (wp_implicit _ _ _ _ _ s); [done|by intros s2 _ s3 _ ?|].
  intros cwd s2 Hcwd G2 _. apply wp_blocking_later. intros s3 L3. wp_step.
  apply (wp_request_loop (λ sf, sftp_request sf (SoSymlink (absolute_filename cwd target) (absolute_filename cwd link)))); [done| |].
  { intros s4 _. wp_step. by intros s5 _ s6 _ ?. }
  intros rc sf s4 L4 _ N4. assert (new s s4 _) as N by (apply (new_weaken s s3); [by transitivity s2; [|apply L3]|exact N4]).
  wp_step.
  - wp_step. wp_step. wp_step. wp_world. set (s5 := logged s4 _ _). wp_step. wp_world. set (s6 := logged s5 _ _).
    assert (later s4 s6) as L6 by (apply later_logged; [done|by apply later_step]). wp_step.
    apply (wp_mono _ _ (λ resolves s7, later s4 s7 ∧ (resolves = true → link_made (absolute_filename cwd target)
      (absolute_filename cwd link) s s7))).
    { intros [] s7 [L7 H7]; cbv beta.
      - wp_step. intros s8 L8 s9 L9 _. exists cwd. split; [done|].
        destruct (H7 eq_refl) as (sf' & rc' & N' & [Hge|(sf2 & rc2 & buff & N2 & H2)]);
          exists sf', rc'; (split; [eapply new_later; [eapply new_later; [exact N'|done]|done]|]); [by left|].
        right. exists sf2, rc2, buff. split; [|done]. eapply new_later; [eapply new_later; [exact N2|done]|done].
      - wp_step. apply wp_has_exc; intros _; [wp_step; by intros s8 _ s9 _ ?|].
        wp_step. apply wp_intro. intros ? s8 _. wp_step. intros s9 _ s10 _ ->. done. }
    wp_step; [|wp_step; by split].
    unfold sftpSymlinkResolvesUnlocked. wp_step. apply wp_resolve_loop.
    + intros s7 L7. wp_step. split; [by transitivity s6|done].
    + intros rc' buff sf' s7 L7 N7. wp_step. split; [by transitivity s6|].
      destruct (Z.ltb_spec rc' 0); [done|]. intros Heq%String.eqb_eq. exists sf, rc. split.
      * by eapply new_later; [exact N|transitivity s6].
      * right. exists sf', rc', buff. split; [|done]. apply (new_weaken s s6); [|exact N7].
        transitivity s4; [|apply L6]. transitivity s3; [by transitivity s2; [|apply L3]|apply L4].
  - apply Z.ltb_ge in Heqb1. wp_step. intros s5 L5 s6 L6 ->. exists cwd. split; [done|]. exists sf, 0. split; [|by left].
    eapply new_later; [eapply new_later; [exact N|done]|done].
Qed.

(** The permissions of a file were set: the server reported [a], was sent [a] with
    the new mode word, and acknowledged it or reports that mode now. *)
Definition mode_set (path : string) (mode : Z) (s s' : st E) : Prop :=
  ∃ sf sf' rc0 rc a,
    new s s' (Ev (sftp_stat sf path true) (rc0, a)) ∧ 0 ≤ rc0 ∧
    has (at_flags a) LIBSSH2_SFTP_ATTR_PERMISSIONS = true ∧
    new s s' (Ev (QZ (sftp_request sf' (SoSetstat path
      (mkAttrs (at_flags a) (at_filesize a) (at_uid a) (at_gid a)
         (chmod_newmode (at_permissions a) mode) (at_atime a) (at_mtime a))))) rc) ∧
    (0 ≤ rc ∨
     ∃ sf2 rc2 a2, new s s' (Ev (sftp_stat sf2 path true) (rc2, a2)) ∧ 0 ≤ rc2 ∧
       at_permissions a2 = chmod_newmode (at_permissions a) mode).

Lemma mode_set_later path mode s s1 s' : mode_set path mode s s1 → later s1 s' → mode_set path mode s s'.
Proof.
  intros (sf & sf' & rc0 & rc & a & N0 & H0 & Hf & N1 & H1) L. exists sf, sf', rc0, rc, a.
  split_and!; [by eapply new_later|done|done|by eapply new_later|].
  destruct H1 as [H1|(sf2 & rc2 & a2 & N2 & H2)]; [by left|right]. exists sf2, rc2, a2.
  split; [by eapply new_later|done].
Qed.

(** The part of [sftpChmod] after the first [stat]. *)
Lemma chmod_set path mode errstr to sf rc0 a s s1 :
  new s s1 (Ev (sftp_stat sf path true) (rc0, a)) → 0 ≤ rc0 → grows s s1 →
  has (at_flags a) LIBSSH2_SFTP_ATTR_PERMISSIONS = true →
  let newmode := chmod_newmode (at_permissions a) mode in
  wp True
    (rc ← setstat_loop path (mkAttrs (at_flags a) (at_filesize a) (at_uid a) (at_gid a) newmode
                               (at_atime a) (at_mtime a)) errstr to;
     match rc with
     | None => mret (-3)
     | Some rc =>
         if rc <? 0 then
           r ← stat_loop path errstr true to;
           match r with
           | None => mret (-3)
           | Some (rc, a) =>
               if (0 <=? rc) && (at_permissions a =? newmode) then mret 0
               else
                 _ ← qh_err errstr to;
                 mret rc
           end
         else mret rc
     end) (λ r s', r = 0 → mode_set path mode s s' ∨ xsink s' ≠ []) s1.
Proof.
  intros N0 H0 G Hf newmode. wp_step.
  apply (wp_request_loop (λ sf, sftp_request sf (SoSetstat path _))); [done| |].
  { intros s2 _. by wp_step. }
  intros rc sf' s2 L2 _ N2. assert (new s s2 _) as N2' by (by apply (new_weaken s s1); [|exact N2]).
  wp_step; [|apply Z.ltb_ge in Heqb; wp_step; intros _; left; exists sf, sf', rc0, rc, a;
             split_and!; [by eapply new_later|done|done|exact N2'|by left]].
  wp_step. apply wp_stat_loop; [by intros s3 _; wp_step|]. intros rc2 a2 sf2 s3 L3 N3.
  wp_step.
  - apply andb_true_iff in Heqb0 as [Hrc%Z.leb_le Hm%Z.eqb_eq]. wp_step. intros _. left.
    exists sf, sf', rc0, rc, a. split_and!; [|done|done|by eapply new_later|].
    + eapply new_later; [exact N0|]. by transitivity s2.
    + right. exists sf2, rc2, a2. split; [|done]. apply (new_weaken s s2); [|exact N3]. transitivity s1; [done|apply L2].
  - wp_step. eapply wp_mono; [|apply wp_qh_err]. intros ? s4 [_ X4]. wp_step. by right.
Qed.


(** C27: A change of directory that succeeds returns the client's new path, and
    that path is a canonical name the server gave and a directory the server opened;
    one that fails leaves the path of the client as it was. *)
Theorem chdir_sound (nwd : option string) (to : Z) (s s' : st E) (r : option string) :
  sftpChdir nwd to s = Some (r, s') →
  match r with
  | Some p =>
      sftppath (cl s') = p ∧
      ∃ cwd sf sf' rc h, current_dir s cwd ∧
        new s s' (Ev (sftp_resolve sf (list_path cwd nwd) LIBSSH2_SFTP_REALPATH) (rc, p)) ∧ 0 < rc ∧
        new s s' (Ev (QH (sftp_opendir sf' p)) (Some h))
  | None => path_kept s s'
  end.
Proof.
  set (Q := λ (r : option string) s', match r with
  | Some p => sftppath (cl s') = p ∧
      ∃ cwd sf sf' rc h, current_dir s cwd ∧
        new s s' (Ev (sftp_resolve sf (list_path cwd nwd) LIBSSH2_SFTP_REALPATH) (rc, p)) ∧ 0 < rc ∧
        new s s' (Ev (QH (sftp_opendir sf' p)) (Some h))
  | None => path_kept s s' end).
  apply (wp_run _ Q). unfold sftpChdir.
  assert (∀ s1 s2, path_kept s s1 → later s1 s2 → path_kept s s2) as Hk.
  { intros s1 s2 K L. transitivity s1; [done|]. intros _. apply L. }
  apply wp_with_qh. intros s1 L1. wp_step. apply wp_ensure_connected. intros failed s2 [G2 _] K2.
  assert (path_kept s s2) as K02 by (transitivity s1; [apply (Hk s); [done|exact L1]|done]).
  assert (grows s s2) as G02 by (transitivity s1; [apply L1|done]).
  wp_step; [by wp_step; intros s3 L3; apply (Hk s2)|].
  wp_step. wp_world. apply wp_blocking_later. intros s3 L3. wp_step.
  assert (current_dir s (sftppath (cl s2))) as Hcwd by done.
  assert (grows s s3) as G03 by (transitivity s2; [done|apply L3]).
  apply wp_resolve_loop.
  { intros s4 L4. wp_step. intros s5 L5 s6 L6. apply (Hk s2); [done|]. transitivity s3; [done|].
    transitivity s4; [done|]. by transitivity s5. }
  intros rc p sf s4 L4 N4. assert (path_kept s s4) as K4 by (apply (Hk s2); [done|by transitivity s3]).
  wp_step.
  { wp_step. eapply wp_mono; [|apply wp_qh_err]. intros ? s5 [L5 _]. wp_step. intros s6 L6 s7 L7.
    apply (Hk s4); [done|]. transitivity s5; [done|]. by transitivity s6. }
  apply Z.leb_gt in Heqb0. wp_step. apply (wp_open_handle (λ sf, sftp_opendir sf p)).
  { intros s5 L5. cbn [negb]. wp_step. intros s6 L6 s7 L7. apply (Hk s4); [done|]. transitivity s5; [done|]. by transitivity s6. }
  intros sf' h s5 L5 _ N5. cbn [negb]. wp_step. wp_world. wp_step. set (s6 := s5 <| cl := _ |>).
  intros s7 L7 s8 L8. assert (grows s5 s8) as G58.
  { transitivity s6; [by exists []|]. transitivity s7; [apply L7|apply L8]. }
  split.
  - destruct L7 as [_ [P7 _]], L8 as [_ [P8 _]]. unfold same_path in P7, P8. by rewrite P8, P7.
  - exists (sftppath (cl s2)), sf, sf', rc, h. split_and!; [done| |done|].
    + apply (new_grows _ s4); [by apply (new_weaken s s3)|]. transitivity s5; [apply L5|done].
    + apply (new_grows _ s5); [|done]. apply (new_weaken s s4); [|done]. transitivity s3; [done|apply L4].
Qed.
End theorems.

(** ** Listing *)

(** The directory entries the server delivered. *)
Definition listed (ev : event) : list (string * attrs) :=
  match ev with Ev (sftp_readdir _) (rc, entry) => if 0 <? rc then [entry] else [] | _ => [] end.

Ltac wire_events :=
  intros r; destruct r; intros ? ?;
    try match goal with c : zcall |- _ => destruct c | c : bcall |- _ => destruct c end; done.

#[export] Instance listed_wire : Wire (silent listed).
Proof. wire_events. Qed.

Lemma names_partition (l : list (string * attrs)) :
  names_of KDir l ++ names_of KFile l ++ names_of KLink l ≡ₚ l.*1.
Proof.
  unfold names_of. induction l as [|[name a] l IH]; [done|]. rewrite !filter_cons. cbn [snd fst].
  destruct (entry_kind_of a); cbn; rewrite <- IH.
  - done.
  - by rewrite !Permutation_middle.
  - by rewrite Permutation_middle.
Qed.

Section listing.
Context {E : Type} `{!Env E}.

Abbreviation M := (prog (st E)).

Lemma silent_step {A B} (f : event → list A) (bs : list A) (s s1 : st E) (m : M B) (Q : B → st E → Prop) :
  advances f s s1 bs → preserves (emits (silent f)) m →
  (∀ b s2, advances f s s2 bs → Q b s2) → wp True m Q s1.
Proof.
  intros Ha Hm HQ. eapply wp_mono; [|apply Hm]. intros b s2 H. apply HQ.
  apply advances_silent in H. pose proof (advances_trans _ _ _ _ _ _ Ha H) as H'.
  by rewrite app_nil_r in H'.
Qed.

Lemma read_entries_post errstr to (s : st E) :
  wp True (read_entries errstr to) (λ r s', ∀ l, r = Some l → advances listed s s' l) s.
Proof.
  unfold read_entries. apply (wp_loop (λ l s1, advances listed s s1 l)); [|apply advances_refl].
  intros l s1 A1. wp_step.
  apply (wp_mono _ _ (λ r s2, match r with
    | None => True | Some (rc, e) => advances listed s s2 (l ++ if 0 <? rc then [e] else []) end)).
  - intros [[rc e]|] s2 A2; [|by apply wp_mret]. destruct (Z.eqb_spec rc 0) as [->|Hne].
    + apply wp_mret. intros l' [= <-]. by rewrite app_nil_r in A2.
    + wp_step; [wp_step; apply wp_intro; intros; by apply wp_mret|]. apply Z.ltb_ge in Heqb.
      apply wp_mret. by rewrite (proj2 (Z.ltb_lt 0 rc)) in A2 by lia.
  - unfold retry_data. apply (wp_loop (λ _ s2, advances listed s s2 l)); [|done].
    intros _ s2 A2. wp_step. wp_step. wp_step. apply (wp_call _ (sftp_readdir (qhandle s2))).
    intros [rc e] e' _. cbn [fst].
    pose proof (advances_trans _ _ _ _ _ _ A2 (advances_logged listed s2 (Ev (sftp_readdir (qhandle s2)) (rc, e)) e')) as A3.
    cbn [listed] in A3. destruct (Z.eqb_spec rc LIBSSH2_ERROR_EAGAIN) as [->|]; [|by apply wp_mret].
    rewrite app_nil_r in A3. wp_step. apply (silent_step listed l s _ _ _ A3); [apply sftp_wait, _|].
    intros [] s3 A4; by apply wp_mret.
Qed.

Lemma list_entries_post path errstr to (s : st E) :
  wp True (list_entries path errstr to)
    (λ r s', ∀ p l, r = Some (p, l) → advances listed s s' l) s.
Proof.
  unfold list_entries. wp_step. apply (silent_step listed [] s); [apply advances_refl| |].
  { apply sftp_ensure_connected; [apply _|]. intros. apply init_path_free; apply _. }
  intros failed s1 A1. wp_step; [by apply wp_mret|]. wp_step. wp_world.
  unfold with_blocking_helper, with_qh. wp_step.
  apply (silent_step listed [] s _ _ _ A1); [apply preserves_setBlocking, _|]. intros ? s2 A2. wp_step. wp_step. wp_step. wp_step.
  apply (silent_step listed [] s _ _ _ A2); [apply sftp_modify_qhandle, _|]. intros ? s3 A3. wp_step. wp_step.
  apply (silent_step listed [] s _ _ _ A3).
  { apply sftp_open_handle; [apply _|preserves_auto]. }
  intros ok s4 A4. apply (wp_mono _ _ (λ r s5, ∀ p l, r = Some (p, l) → advances listed s s5 l)).
  - intros r s5 H5. wp_step.
    eapply wp_mono; [|apply (sftp_tryClose (emits (silent listed)) errstr to)]. intros ? s6 E6. wp_step.
    eapply wp_mono; [|apply (sftp_modify_qhandle (emits (silent listed)))]. intros ? s7 E7. wp_step. wp_step.
    eapply wp_mono; [|apply (preserves_setBlocking (emits (silent listed)))]. intros ? s8 E8. wp_step.
    intros p l Hr. assert (emits (silent listed) s5 s8) as E58 by (transitivity s6; [done|by transitivity s7]).
    apply advances_silent in E58. pose proof (advances_trans _ _ _ _ _ _ (H5 p l Hr) E58) as H.
    by rewrite app_nil_r in H.
  - wp_step; [by wp_step|]. wp_step. eapply wp_mono; [|apply read_entries_post].
    intros [l|] s5 H5; apply wp_mret; [|done]. intros p l' [= _ <-].
    apply (advances_trans _ _ _ _ _ _ A4 (H5 l eq_refl)).
Qed.

(** C24: A directory listing holds every entry the server delivered exactly once:
    directories, files and links together are the names of the delivered entries, each
    in the list of its kind, whatever order the sort puts them in. *)
Theorem list_partition (sort : list string → list string) (path : option string) (to : Z)
    (s s' : st E) (info : dir_info) :
  (∀ l, sort l ≡ₚ l) → sftpList sort path to s = Some (Some info, s') →
  ∃ entries, advances listed s s' entries ∧
    di_directories info ++ di_files info ++ di_links info ≡ₚ entries.*1 ∧
    di_directories info ≡ₚ names_of KDir entries ∧ di_links info ≡ₚ names_of KLink entries.
Proof.
  intros Hsort. apply (wp_run_some _ (λ info s', ∃ entries, advances listed s s' entries ∧
    di_directories info ++ di_files info ++ di_links info ≡ₚ entries.*1 ∧
    di_directories info ≡ₚ names_of KDir entries ∧ di_links info ≡ₚ names_of KLink entries)).
  unfold sftpList. wp_step. eapply wp_mono; [|apply list_entries_post]. intros [[p l]|] s1 H1; apply wp_mret; [|done].
  intros a [= <-]. exists l. split; [by apply (H1 p)|]. cbn [di_directories di_files di_links].
  rewrite !Hsort. split; [apply names_partition|done].
Qed.
End listing.

(** * Defects of the code, as theorems *)

(** A connected SFTP client in [/home]. *)
Definition sftp_state : st nat :=
  state0 ((connected_client SFTPClientClass) <| sftp_session := Some 5%positive |> <| sftppath := "/home"%string |>).

(** A server that never answers: every request for a handle is still pending. *)
Definition pending_env : Env nat :=
  sim_env (λ _ r, match r with
                  | QH (sftp_opendir _ _) => None
                  | QZ (session_last_errno _) => LIBSSH2_ERROR_EAGAIN
                  | r => quiet_ans r
                  end) 20.

(** [sftpIsAlive] reports a connection as alive on which the test request was
    never answered: after one wait the loop returns true. *)
Theorem alive_without_answer : result (@sftpIsAlive nat pending_env 1000) sftp_state = Some true.
Proof. vm_compute. reflexivity. Qed.

(** A host key store during whose call another thread disconnects the client. *)
Definition interfering_env : Env nat :=
  sim_env (λ _ r, match r with
                  | eval_method _ _ _ => ([OpDisconnect true 1000], Some (QHash [("decision"%string, QString "matched")]))
                  | r => quiet_ans r
                  end) 20.

Definition store_client (k : client_class) : st nat :=
  state0 ((client0 k) <| host_key_store := Some 9%positive |>).

(** An authentication request on a null session. *)
Definition null_session_request (e : event) : bool :=
  match e with Ev (QS (userauth_list None _)) _ => true | _ => false end.

(** An SFTP connect does not mark itself as in progress, so a disconnect of another
    thread is let through while the host key store runs; the connect then goes on with
    the freed session.  The connect of [SSH2Client] refuses the disconnect. *)
Theorem sftp_connect_not_guarded :
  (existsb null_session_request ∘ trace <$> final (@sftpConnect nat interfering_env 1000) (store_client SFTPClientClass))
    = Some true ∧
  (existsb null_session_request ∘ trace <$> final (@sshConnect nat interfering_env 1000) (store_client SSH2ClientClass))
    = Some false.
Proof. split; vm_compute; reflexivity. Qed.

(** A server that refuses a chmod and keeps reporting the old mode. *)
Definition stubborn_env : Env nat :=
  sim_env (λ _ r, match r with
                  | sftp_stat _ _ _ => (0, mkAttrs LIBSSH2_SFTP_ATTR_PERMISSIONS 0 0 0 0x81A4 0 0)
                  | QZ (sftp_request _ (SoSetstat _ _)) => LIBSSH2_ERROR_SFTP_PROTOCOL
                  | QZ (socket_asyncIoWait _ _ _) => 0
                  | r => quiet_ans r
                  end) 20.

(** A refused chmod raises an exception and returns 0, the code of success. *)
Theorem chmod_failure_returns_zero :
  result (@sftpChmod nat stubborn_env "f" 0x1C0 1000) sftp_state = Some 0 ∧
  (xsink <$> final (@sftpChmod nat stubborn_env "f" 0x1C0 1000) sftp_state) = Some [Exc "SSH2-ERROR" (SshError 0)].
Proof. split; vm_compute; reflexivity. Qed.

(** ** Witnesses *)

(** A server with one regular file and one directory entry per listing. *)
Definition sftp_env : Env nat :=
  sim_env (λ i r, match r with
                  | sftp_stat _ _ _ => (0, mkAttrs LIBSSH2_SFTP_ATTR_PERMISSIONS 0 0 0 0x81A4 0 0)
                  | sftp_readdir _ =>
                      if (i =? 4)%nat then (1, ("d"%string, mkAttrs LIBSSH2_SFTP_ATTR_PERMISSIONS 0 0 0 0x41ED 0 0))
                      else if (i =? 5)%nat then (1, ("f"%string, mkAttrs LIBSSH2_SFTP_ATTR_PERMISSIONS 0 0 0 0x81A4 0 0))
                      else (0, (EmptyString, mkAttrs 0 0 0 0 0 0 0))
                  | r => quiet_ans r
                  end) 20.

Lemma symlink_sound_witness :
  ∃ s', @sftpSymlink nat sftp_env "a" "b" 1000 sftp_state = Some (0, s') ∧
    link_made "/home/a" "/home/b" sftp_state s'.
Proof.
  destruct (run_result (@sftpSymlink nat sftp_env "a" "b" 1000) sftp_state 0) as (s' & Hrun & _); [vm_compute; reflexivity|].
  destruct (@symlink_sound nat sftp_env "a" "b" 1000 sftp_state s' Hrun) as (cwd & Hcwd & H).
  rewrite (Hcwd ltac:(discriminate)) in H. exists s'. split; [exact Hrun|exact H].
Defined.


Lemma chdir_sound_witness :
  ∃ s', @sftpChdir nat sftp_env (Some "x"%string) 1000 sftp_state = Some (Some "/"%string, s') ∧
    sftppath (cl s') = "/"%string.
Proof.
  destruct (run_result (@sftpChdir nat sftp_env (Some "x"%string) 1000) sftp_state (Some "/"%string))
    as (s' & Hrun & _); [vm_compute; reflexivity|].
  destruct (@chdir_sound nat sftp_env (Some "x"%string) 1000 sftp_state s' _ Hrun) as [H _].
  exists s'. split; [exact Hrun|exact H].
Defined.

Lemma list_partition_witness :
  ∃ s' info, @sftpList nat sftp_env (λ l, l) None 1000 sftp_state = Some (Some info, s') ∧
    di_directories info = ["d"%string] ∧ di_files info = ["f"%string] ∧
    ∃ entries, advances listed sftp_state s' entries ∧ ["d"%string; "f"%string] ≡ₚ entries.*1.
Proof.
  set (info := mkDirInfo "/home" ["d"%string] ["f"%string] []).
  destruct (run_result (@sftpList nat sftp_env (λ l, l) None 1000) sftp_state (Some info)) as (s' & Hrun & _);
    [vm_compute; reflexivity|].
  destruct (@list_partition nat sftp_env (λ l, l) None 1000 sftp_state s' info (λ l, Permutation_refl l) Hrun)
    as (entries & H1 & H2 & _).
  exists s', info. split; [exact Hrun|]. split; [reflexivity|]. split; [reflexivity|]. exact (ex_intro _ entries (conj H1 H2)).
Defined.
