(* ===== verification/Transfer.v ===== *)
(** File transfers over SFTP (SFTPClient.cpp): whole files in memory, local
    files and %Qore streams, in both directions. *)

From S2P Require Import Prelude Modes World Sim Defaults Transport Config HostKey Auth Connect Session Sftp.

Definition BUFSIZE : Z := Z.of_nat QSSH2_BUFSIZE.

Section transfer.
Context {E : Type} `{!Env E}.

Abbreviation M := (prog (st E)).

(** ** Downloads *)

(** [stat] and [open]: the size the server gave, or [None] when it failed *)
Definition open_for_read (fname errstr : string) (to : Z) : M (option Z) :=
  r ← stat_loop fname errstr true to;
  match r with
  | None => mret None
  | Some (rc, a) =>
      if rc <? 0 then
        _ ← qh_err errstr to;
        mret None
      else
        ok ← open_handle (sf ← cfield sftp_session;
                          callH (sftp_open sf fname LIBSSH2_FXF_READ (at_permissions a))) errstr to;
        mret (if ok : bool then Some (at_filesize a) else None)
  end.

(** [libssh2_sftp_read] into an [int], with its EAGAIN loop *)
Definition read_block (n : Z) (errstr : string) (to : Z) : M (option (Z * list Byte.byte)) :=
  retry_data (h ← gets qhandle;
              '(rc, bytes) ← (call (sftp_read h n) : M (Z * list Byte.byte));
              mret (as_int rc, take (Z.to_nat (as_int rc)) bytes)) (qh_waitSocket errstr to).

(** The read loop: [block] is the size asked for when that much is missing, [sink]
    what is done with a block, which leaves the function with [stop_code] when it
    returns true.  The result is a return code or the bytes read. *)
Definition download (fsize : Z) (block : Z → Z) (sink : list Byte.byte → M bool) (stop_code : Z)
    (errstr : string) (to : Z) : M (Z + list Byte.byte) :=
  loop fuel (λ '(tot, data),
    let remaining := size_t (fsize - tot) in
    if remaining =? 0 then mret (inr (inr data))
    else
      r ← read_block (block remaining) errstr to;
      match r with
      | None => mret (inr (inl (-1)))
      | Some (rc, bytes) =>
          if rc <? 0 then
            _ ← qh_err errstr to;
            mret (inr (inl (-1)))
          else
            stop ← (if rc =? 0 then mret false else sink bytes);
            if stop : bool then mret (inr (inl stop_code))
            else
              let tot := size_t (tot + rc) in
              let data := data ++ bytes in
              mret (if fsize <=? tot then inr (inr data) else inl (tot, data))
      end) (0, []).

(** The frame of a download: the implicit connection, the handle, the loop. *)
Definition with_remote_file {A} (remote errstr : string) (to : Z) (failed_value : A)
    (body : Z → M A) : M A :=
  failed ← ensure_connected to;
  if failed : bool then mret failed_value
  else
    cwd ← cfield sftppath;
    with_blocking_helper (with_qh errstr to (
      fsize ← open_for_read (absolute_filename cwd remote) errstr to;
      match fsize with
      | None => mret failed_value
      | Some fsize => body fsize
      end)).

(** The file in memory; [None] with an exception *)
Definition get_file (errstr file : string) (to : Z) : M (option (list Byte.byte)) :=
  with_remote_file file errstr to None (λ fsize,
    r ← download fsize (λ n, n) (λ _, mret false) (-1) errstr to;
    mret (match r with inl _ => None | inr data => Some data end)).

Definition sftpGetFile (file : string) (to : Z) : M (option (list Byte.byte)) :=
  get_file "SFTPCLIENT-GETFILE-ERROR" file to.

Definition sftpGetTextFile (file : string) (to : Z) : M (option (list Byte.byte)) :=
  get_file "SFTPCLIENT-GETTEXTFILE-ERROR" file to.

Definition block_of (n : Z) : Z := if BUFSIZE <? n then BUFSIZE else n.

(** [QoreSandboxManagerHelper]: true when access is denied *)
Definition sandbox_denies (path : string) (mode : fs_mode) : M bool :=
  present ← callB sandbox_present;
  if present : bool then
    ok ← callB (sandbox_checkFilesystemAccess path mode);
    _ ← when (negb ok) (raise_exc true ExternalExc);
    mret (negb ok)
  else mret false.

(** A request that raised an exception when it is answered with false *)
Definition or_raise (c : bcall) : M bool :=
  ok ← callB c;
  _ ← when (negb ok) (raise_exc true ExternalExc);
  mret (negb ok).

Definition sftpRetrieveFile (remote_file local_file : string) (to mode : Z) : M Z :=
  let errstr := "SFTPCLIENT-RETRIEVEFILE-ERROR"%string in
  with_remote_file remote_file errstr to (-1) (λ fsize,
    denied ← sandbox_denies local_file ModeWrite;
    if denied : bool then mret (-1)
    else
      failed ← or_raise (file_create local_file mode);
      if failed : bool then mret (-1)
      else
        r ← download fsize block_of (λ bytes, or_raise (file_write bytes)) (-1) errstr to;
        mret (match r with inl code => code | inr data => Z.of_nat (length data) end)).

(** The stream is written with the lock released. *)
Definition stream_sink (bytes : list Byte.byte) : M bool :=
  r ← (call (ostream_write_unlocked bytes) : M (list client_op * bool));
  _ ← for_each (fst r) run_other_thread;
  _ ← when (negb (snd r)) (raise_exc true ExternalExc);
  has_exc.

Definition sftpGet (remote_file : string) (to : Z) : M Z :=
  let errstr := "SFTPCLIENT-GET-ERROR"%string in
  with_remote_file remote_file errstr to (-1) (λ fsize,
    r ← download fsize block_of stream_sink 0 errstr to;
    mret (match r with inl code => code | inr data => Z.of_nat (length data) end)).

(** ** Uploads *)

Definition WRITE_FLAGS : Z := Z.lor (Z.lor LIBSSH2_FXF_WRITE LIBSSH2_FXF_CREAT) LIBSSH2_FXF_TRUNC.

Definition open_for_write (file : string) (mode : Z) (errstr : string) (to : Z) : M bool :=
  open_handle (sf ← cfield sftp_session; callH (sftp_open sf file WRITE_FLAGS mode)) errstr to.

(** [libssh2_sftp_write] with its EAGAIN loop *)
Definition write_block (data : list Byte.byte) (errstr : string) (to : Z) : M (option Z) :=
  while_eagain (h ← gets qhandle; callZ (sftp_write h data)) (qh_waitSocket errstr to).

(** [qh.close()] at the end of an upload *)
Definition finish_upload (size : Z) (errstr : string) (to : Z) : M Z :=
  rc ← closeIntern errstr to;
  if negb (rc =? 0) && negb (rc =? LIBSSH2_ERROR_EAGAIN) then
    _ ← qh_err errstr to;
    mret (-1)
  else mret size.

(** The frame of an upload. *)
Definition with_new_file (remote : string) (mode : Z) (errstr : string) (to : Z) (body : M Z) : M Z :=
  failed ← ensure_connected to;
  if failed : bool then mret (-1)
  else
    cwd ← cfield sftppath;
    with_blocking_helper (with_qh errstr to (
      ok ← open_for_write (absolute_filename cwd remote) mode errstr to;
      if negb ok then mret (-1) else body)).

(** [sftpPutFile]; -1 stands for the [size_t] value it is converted to *)
Definition sftpPutFile (outb : list Byte.byte) (fname : string) (mode to : Z) : M Z :=
  let errstr := "SFTPCLIENT-PUTFILE-ERROR"%string in
  let towrite := Z.of_nat (length outb) in
  with_new_file fname mode errstr to (
    r ← loop fuel (λ size : Z,
          if size <? towrite then
            rc ← write_block (drop (Z.to_nat size) outb) errstr to;
            match rc with
            | None => mret (inr None)
            | Some rc =>
                if rc <? 0 then
                  _ ← qh_err errstr to;
                  mret (inr None)
                else mret (inl (size_t (size + rc)))
            end
          else mret (inr (Some size))) 0;
    match r with
    | None => mret (-1)
    | Some size => finish_upload size errstr to
    end).

(** A buffer is sent until all of it has been accepted: true when that failed *)
Definition write_all (buf : list Byte.byte) (errstr : string) (to : Z) : M bool :=
  loop fuel (λ total : nat,
    rc ← write_block (drop total buf) errstr to;
    match rc with
    | None => mret (inr true)
    | Some rc =>
        if rc <? 0 then
          _ ← qh_err errstr to;
          mret (inr true)
        else
          let total := (total + Z.to_nat rc)%nat in
          mret (if (total =? length buf)%nat then inr false else inl total)
    end) 0%nat.

Definition sftpTransferFile (local_path remote_path : string) (mode to : Z) : M Z :=
  let errstr := "SFTPCLIENT-TRANSFERFILE-ERROR"%string in
  denied ← sandbox_denies local_path ModeRead;
  if denied : bool then mret (-1)
  else
    failed ← or_raise (file_open local_path);
    if failed : bool then mret (-1)
    else
      sbuf ← (call file_stat : M (option (Z * Z)));
      match sbuf with
      | None =>
          _ ← raise true "FILE-STAT-ERROR";
          mret (-1)
      | Some (towrite, st_mode) =>
          let mode := if mode =? 0 then st_mode else mode in
          with_new_file remote_path mode errstr to (
            r ← loop fuel (λ size : Z,
                  if size <? towrite then
                    b ← (call (file_read (block_of (size_t (towrite - size)))) : M (option (list Byte.byte)));
                    match b with
                    | None =>
                        _ ← raise_exc true ExternalExc;
                        mret (inr None)
                    | Some bytes =>
                        failed ← write_all bytes errstr to;
                        mret (if failed : bool then inr None
                              else inl (size_t (size + Z.of_nat (length bytes))))
                    end
                  else mret (inr (Some size))) 0;
            match r with
            | None => mret (-1)
            | Some size => finish_upload size errstr to
            end)
      end.

(** The stream is read with the lock released. *)
Definition read_stream (n : Z) : M (option (list Byte.byte)) :=
  r ← (call (istream_read_unlocked n) : M (list client_op * option (list Byte.byte)));
  _ ← for_each (fst r) run_other_thread;
  _ ← when (bool_decide (snd r = None)) (raise_exc true ExternalExc);
  failed ← has_exc;
  mret (if failed : bool then None else Some (default [] (snd r))).

Definition sftpPut (remote_path : string) (mode to : Z) : M Z :=
  let errstr := "SFTPCLIENT-PUT-ERROR"%string in
  with_new_file remote_path mode errstr to (
    r ← loop fuel (λ size : Z,
          b ← read_stream BUFSIZE;
          match b with
          | None => mret (inr None)
          | Some [] => mret (inr (Some size))
          | Some bytes =>
              failed ← write_all bytes errstr to;
              mret (if failed : bool then inr None else inl (size_t (size + Z.of_nat (length bytes))))
          end) 0;
    match r with
    | None => mret (-1)
    | Some size => finish_upload size errstr to
    end).
End transfer.

(** * The API and the registries *)

Section suite.
Context {E : Type} `{!Env E}.

Abbreviation M := (prog (st E)).

(** The operations of [SFTPClient]. *)
Inductive sftp_api :=
  | SConnect (to : Z)
  | SIsAlive (to : Z)
  | SIsAliveEx (to : Z)
  | SDisconnect (force : bool) (to : Z)
  | SMkdir (dir : string) (mode to : Z)
  | SRmdir (dir : string) (to : Z)
  | SRename (from to_ : string) (to : Z)
  | SUnlink (file : string) (to : Z)
  | SStat (follow : bool) (errstr fname : string) (to : Z)
  | SChmod (file : string) (mode to : Z)
  | SChown (file : string) (uid gid to : Z)
  | SStatvfs (path : string) (to : Z)
  | SSymlink (target link : string) (to : Z)
  | SReadlink (path : string) (to : Z)
  | SChdir (nwd : option string) (to : Z)
  | SList (path : option string) (errstr : string) (to : Z)
  | SGetFile (errstr file : string) (to : Z)
  | SRetrieveFile (remote local : string) (to mode : Z)
  | SGet (remote : string) (to : Z)
  | SPutFile (outb : list Byte.byte) (fname : string) (mode to : Z)
  | STransferFile (local remote : string) (mode to : Z)
  | SPut (remote : string) (mode to : Z).

Definition run_sftp (a : sftp_api) : M unit :=
  match a with
  | SConnect to => _ ← sftpConnect to; mret tt
  | SIsAlive to => _ ← sftpIsAlive to; mret tt
  | SIsAliveEx to => _ ← sftpIsAliveEx to; mret tt
  | SDisconnect force to => _ ← disconnect force to true; mret tt
  | SMkdir dir mode to => _ ← sftpMkdir dir mode to; mret tt
  | SRmdir dir to => _ ← sftpRmdir dir to; mret tt
  | SRename from to_ to => _ ← sftpRename from to_ to; mret tt
  | SUnlink file to => _ ← sftpUnlink file to; mret tt
  | SStat follow errstr fname to => _ ← get_attributes follow errstr fname to; mret tt
  | SChmod file mode to => _ ← sftpChmod file mode to; mret tt
  | SChown file uid gid to => _ ← sftpChown file uid gid to; mret tt
  | SStatvfs path to => _ ← sftpStatvfs path to; mret tt
  | SSymlink target link to => _ ← sftpSymlink target link to; mret tt
  | SReadlink path to => _ ← sftpReadlink path to; mret tt
  | SChdir nwd to => _ ← sftpChdir nwd to; mret tt
  | SList path errstr to => _ ← list_entries path errstr to; mret tt
  | SGetFile errstr file to => _ ← get_file errstr file to; mret tt
  | SRetrieveFile remote local to mode => _ ← sftpRetrieveFile remote local to mode; mret tt
  | SGet remote to => _ ← sftpGet remote to; mret tt
  | SPutFile outb fname mode to => _ ← sftpPutFile outb fname mode to; mret tt
  | STransferFile local remote mode to => _ ← sftpTransferFile local remote mode to; mret tt
  | SPut remote mode to => _ ← sftpPut remote mode to; mret tt
  end.

Section relation.
Context (R : relation (st E)) `{!SftpSession R} `{!Carrier R} `{!PathFree R}.

#[local] Hint Resolve sftp_err sftp_wait sftp_closeIntern : preserves.
#[local] Hint Extern 0 (SftpSession _) => typeclasses eauto : preserves.
#[local] Hint Extern 3 (preserves R (while_eagain _ (qh_waitSocket _ _))) =>
  apply sftp_while; preserves_auto : preserves.
#[local] Hint Extern 3 (preserves R (retry_data _ (qh_waitSocket _ _))) =>
  apply sftp_retry_data; preserves_auto : preserves.
#[local] Hint Extern 3 (preserves R (open_handle _ _ _)) => apply sftp_open_handle; preserves_auto : preserves.
#[local] Hint Extern 3 (preserves R (run_other_thread _)) => apply linked_other : preserves.

Lemma transfer_ensure to : preserves R (ensure_connected to).
Proof. apply sftp_ensure_connected; [apply _|]. intros. apply init_path_free; apply _. Qed.

#[local] Hint Resolve transfer_ensure : preserves.

Lemma transfer_download fsize block sink code errstr to :
  (∀ bytes, preserves R (sink bytes)) → preserves R (download fsize block sink code errstr to).
Proof. intros H. unfold download, read_block. preserves_auto. Qed.

Lemma transfer_remote_file {A} remote errstr to (v : A) body :
  (∀ fsize, preserves R (body fsize)) → preserves R (with_remote_file remote errstr to v body).
Proof.
  intros H. unfold with_remote_file, open_for_read, stat_loop. preserves_auto.
  apply session_with_blocking; [apply _|]. apply sftp_with_qh; [apply _|]. preserves_auto.
Qed.

Lemma transfer_new_file remote mode errstr to body :
  preserves R body → preserves R (with_new_file remote mode errstr to body).
Proof.
  intros H. unfold with_new_file, open_for_write. preserves_auto.
  apply session_with_blocking; [apply _|]. apply sftp_with_qh; [apply _|]. preserves_auto.
Qed.

Lemma transfer_write_all buf errstr to : preserves R (write_all buf errstr to).
Proof. unfold write_all, write_block. preserves_auto. Qed.

Lemma transfer_write_block data errstr to : preserves R (write_block data errstr to).
Proof. unfold write_block. preserves_auto. Qed.

Lemma transfer_finish size errstr to : preserves R (finish_upload size errstr to).
Proof. unfold finish_upload. preserves_auto. Qed.

#[local] Hint Resolve transfer_write_all transfer_write_block transfer_finish : preserves.

Lemma transfer_get_file errstr file to : preserves R (get_file errstr file to).
Proof.
  apply transfer_remote_file. intros fsize. preserves_step; [|preserves_auto].
  apply transfer_download. intros. preserves_auto.
Qed.

Lemma transfer_retrieve remote local to mode : preserves R (sftpRetrieveFile remote local to mode).
Proof.
  apply transfer_remote_file. intros fsize. unfold sandbox_denies, or_raise. preserves_auto.
  apply transfer_download. intros. preserves_auto.
Qed.

Lemma transfer_get remote to : preserves R (sftpGet remote to).
Proof.
  apply transfer_remote_file. intros fsize. preserves_step; [|preserves_auto].
  apply transfer_download. intros. unfold stream_sink. preserves_auto.
Qed.

Lemma transfer_put_file outb fname mode to : preserves R (sftpPutFile outb fname mode to).
Proof. apply transfer_new_file. preserves_auto. Qed.

Lemma transfer_transfer local remote mode to : preserves R (sftpTransferFile local remote mode to).
Proof.
  unfold sftpTransferFile, sandbox_denies, or_raise. preserves_auto.
  apply transfer_new_file. preserves_auto.
Qed.

Lemma transfer_put remote mode to : preserves R (sftpPut remote mode to).
Proof. apply transfer_new_file. unfold read_stream. preserves_auto. Qed.
End relation.

Lemma run_sftp_preserves (R : relation (st E)) `{!SftpSession R} `{!Carrier R} `{!PathFree R} a :
  (∀ force to, preserves R (disconnect force to true)) → preserves R (run_sftp a).
Proof.
  intros Hd. assert (∀ errstr to, preserves R (init_path errstr to)) as Hp by (intros; apply init_path_free; apply _).
  destruct a; cbn [run_sftp]; (preserves_step; [|preserves_auto]).
  - apply sftp_connect; [apply _|exact Hp].
  - apply sftp_sink, sftp_isAlive, _.
  - apply sftp_isAlive, _.
  - apply Hd.
  - apply sftp_path_op; [apply _|exact Hp].
  - apply sftp_path_op; [apply _|exact Hp].
  - apply sftp_path_op; [apply _|exact Hp].
  - apply sftp_path_op; [apply _|exact Hp].
  - apply sftp_get_attributes; [apply _|exact Hp].
  - apply sftp_chmod; [apply _|exact Hp].
  - apply sftp_chown; [apply _|exact Hp].
  - apply sftp_statvfs_op; [apply _|exact Hp].
  - apply sftp_symlink; [apply _|exact Hp].
  - apply sftp_readlink; [apply _|exact Hp].
  - apply chdir_free; apply _.
  - apply sftp_list_entries; [apply _|exact Hp|apply _].
  - apply transfer_get_file; apply _.
  - apply transfer_retrieve; apply _.
  - apply transfer_get; apply _.
  - apply transfer_put_file; apply _.
  - apply transfer_transfer; apply _.
  - apply transfer_put; apply _.
Qed.

Inductive sftp_run : st E → st E → Prop :=
  | sftp_run_refl s : sftp_run s s
  | sftp_run_step s s1 s2 a :
      sftp_run s s1 → run_sftp a s1 = Some (tt, s2) → sftp_run s s2.

Lemma disconnect_grows force to : preserves grows (disconnect (E:=E) force to true).
Proof. unfold disconnect. preserves_auto. Qed.

(** Under every sequence of SFTP operations (connects, tests, disconnects,
    requests, listings and transfers, with everything other threads do while a stream
    or a provider runs), whatever the server answers, the channel and listener
    registries of the client stay exact and no event of the past is lost. *)
Theorem sftp_api_registered (s s' : st E) : registered s → sftp_run s s' → registered s' ∧ grows s s'.
Proof.
  intros Hr Hl. induction Hl as [s|s s1 s2 a _ IH Hrun]; [by split|]. destruct (IH Hr) as [Hr1 G1]. split.
  - eapply (wp_run _ _ _ _ _ (run_sftp_preserves keeps_registered a
      (λ force to, disconnect_registered force to true) s1) Hrun). exact Hr1.
  - transitivity s1; [done|]. apply (wp_run _ _ _ _ _ (run_sftp_preserves grows a disconnect_grows s1) Hrun).
Qed.
End suite.

(** * The data that is moved *)

(** The bytes that libssh2 handed over and accepted on an SFTP handle. *)
Definition received_on (h : handle) (ev : event) : list Byte.byte :=
  match ev with
  | Ev (sftp_read h' _) (rc, bytes) =>
      if bool_decide (h' = Some h) then take (Z.to_nat (as_int rc)) bytes else []
  | _ => []
  end.

Definition sent_on (h : handle) (ev : event) : list Byte.byte :=
  match ev with
  | Ev (QZ (sftp_write h' data)) rc =>
      if bool_decide (h' = Some h) then take (Z.to_nat rc) data else []
  | _ => []
  end.

(** The bytes given to a local file and to a stream, and taken from them. *)
Definition file_out (ev : event) : list Byte.byte :=
  match ev with Ev (QB (file_write data)) _ => data | _ => [] end.

Definition stream_given (ev : event) : list Byte.byte :=
  match ev with Ev (ostream_write_unlocked data) _ => data | _ => [] end.

Definition file_in (ev : event) : list Byte.byte :=
  match ev with Ev (file_read _) (Some data) => data | _ => [] end.

Definition stream_taken (ev : event) : list Byte.byte :=
  match ev with Ev (istream_read_unlocked _) (_, Some data) => data | _ => [] end.

#[export] Instance received_on_wire h : Wire (silent (received_on h)).
Proof. wire_events. Qed.

#[export] Instance sent_on_wire h : Wire (silent (sent_on h)).
Proof. wire_events. Qed.

#[export] Instance file_out_wire : Wire (silent file_out).
Proof. wire_events. Qed.

#[export] Instance stream_given_wire : Wire (silent stream_given).
Proof. wire_events. Qed.

#[export] Instance file_in_wire : Wire (silent file_in).
Proof. wire_events. Qed.

#[export] Instance stream_taken_wire : Wire (silent stream_taken).
Proof. wire_events. Qed.

Section facts.
Context {E : Type} `{!Env E}.

Abbreviation M := (prog (st E)).

(** A successful wait changes nothing. *)
Lemma qh_wait_ok errstr to (s : st E) :
  wp True (qh_waitSocket errstr to) (λ failed s', failed = false → quiet s s') s.
Proof.
  unfold qh_waitSocket, waitSocket_gen, qore_check_cancel, waitSocket_raw, waitSocket_dir.
  cbn [negb andb]. wp_step. wp_step. wp_world. wp_step. destruct a; cbn [when].
  - wp_world. repeat wp_step. apply wp_intro. intros; repeat wp_step. done.
  - repeat first [wp_step | wp_world]; first [done | apply wp_intro; intros; repeat wp_step; done].
Qed.

Lemma wp_qh_wait errstr to (Q : bool → st E → Prop) s :
  (∀ s', begun s s' → Q true s') → (∀ s', begun s s' → quiet s s' → Q false s') →
  wp True (qh_waitSocket errstr to) Q s.
Proof.
  intros Ht Hf. eapply wp_mono; [|apply wp_and; [apply (sftp_wait begun)|apply qh_wait_ok]].
  intros [] s' [B H]; [by apply Ht|by apply Hf; [|apply H]].
Qed.

Lemma begun_advances {A} (f : event → list A) `{!Wire (silent f)} (s s1 s2 : st E) bs :
  advances f s s1 bs → begun s1 s2 → advances f s s2 bs.
Proof.
  intros Ha (_ & _ & W). apply (wire_only_emits (silent f)) in W; [|done]. apply advances_silent in W.
  pose proof (advances_trans _ _ _ _ _ _ Ha W) as H. by rewrite app_nil_r in H.
Qed.

Lemma begun_new (s s1 s2 : st E) ev : begun s s1 → new s1 s2 ev → new s s2 ev.
Proof. intros [G _]. by apply new_weaken. Qed.

Lemma new_begun (s s1 s2 : st E) ev : new s s1 ev → begun s1 s2 → new s s2 ev.
Proof. intros H [G _]. by eapply new_grows. Qed.

(** ** The frames *)

Lemma wp_remote_file {A} remote errstr to (v : A) body (Q : A → st E → Prop) s :
  (∀ s1, begun s s1 → Q v s1) →
  (∀ cwd a sf sf' h rc0 s1, begun s s1 → current_dir s cwd →
     new s s1 (Ev (sftp_stat sf (absolute_filename cwd remote) true) (rc0, a)) → 0 ≤ rc0 →
     new s s1 (Ev (QH (sftp_open sf' (absolute_filename cwd remote) LIBSSH2_FXF_READ (at_permissions a))) (Some h)) →
     qhandle s1 = Some h →
     wp True (body (at_filesize a)) (λ r s2, ∀ s3, begun s2 s3 → Q r s3) s1) →
  wp True (with_remote_file remote errstr to v body) Q s.
Proof.
  intros Hv Hb. unfold with_remote_file, open_for_read. wp_step. apply wp_ensure_connected.
  intros failed s1 B1 K1. wp_step; [by wp_step; apply Hv|]. wp_step. wp_world.
  apply wp_blocking_later. intros s2 L2. apply wp_with_qh. intros s3 L3.
  assert (begun s s3) as B3 by (transitivity s1; [done|apply later_begun; by transitivity s2]).
  assert (∀ r s4, begun s s4 → r = v → ∀ s5, later s4 s5 → ∀ s6, later s5 s6 → Q r s6) as Hend.
  { intros r s4 B4 -> s5 L5 s6 L6. apply Hv. transitivity s4; [done|apply later_begun; by transitivity s5]. }
  wp_step. wp_step. apply wp_stat_loop.
  { intros s4 L4. wp_step. wp_step. apply Hend; [|done]. transitivity s3; [done|by apply later_begun]. }
  intros rc0 a sf s4 L4 N4. assert (begun s s4) as B4 by (transitivity s3; [done|by apply later_begun]). wp_step.
  { wp_step. eapply wp_mono; [|apply wp_qh_err]. intros ? s5 [L5 _]. wp_step. wp_step. apply Hend; [|done].
    transitivity s4; [done|by apply later_begun]. }
  apply Z.ltb_ge in Heqb0. wp_step.
  apply (wp_open_handle (λ sf, sftp_open sf (absolute_filename (sftppath (cl s1)) remote) LIBSSH2_FXF_READ (at_permissions a))).
  { intros s5 L5. wp_step. wp_step. apply Hend; [|done]. transitivity s4; [done|by apply later_begun]. }
  intros sf' h s5 L5 Hh N5. wp_step.
  eapply wp_mono; [|apply (Hb (sftppath (cl s1)) a sf sf' h rc0 s5)].
  - intros r s6 H6 s7 L7 s8 L8. apply H6. apply later_begun. by transitivity s7.
  - transitivity s4; [done|by apply later_begun].
  - done.
  - apply (new_begun _ s4); [by apply (begun_new s s3)|by apply later_begun].
  - done.
  - by apply (begun_new s s4).
  - done.
Qed.

Lemma wp_new_file remote mode errstr to body (Q : Z → st E → Prop) s :
  (∀ s1, begun s s1 → Q (-1) s1) →
  (∀ cwd sf h s1, begun s s1 → current_dir s cwd →
     new s s1 (Ev (QH (sftp_open sf (absolute_filename cwd remote) WRITE_FLAGS mode)) (Some h)) →
     qhandle s1 = Some h →
     wp True body (λ r s2, ∀ s3, begun s2 s3 → Q r s3) s1) →
  wp True (with_new_file remote mode errstr to body) Q s.
Proof.
  intros Hv Hb. unfold with_new_file, open_for_write. wp_step. apply wp_ensure_connected.
  intros failed s1 B1 K1. wp_step; [by wp_step; apply Hv|]. wp_step. wp_world.
  apply wp_blocking_later. intros s2 L2. apply wp_with_qh. intros s3 L3.
  assert (begun s s3) as B3 by (transitivity s1; [done|apply later_begun; by transitivity s2]).
  wp_step. apply (wp_open_handle (λ sf, sftp_open sf (absolute_filename (sftppath (cl s1)) remote) WRITE_FLAGS mode)).
  { intros s4 L4. cbn [negb]. wp_step. intros s5 L5 s6 L6. apply Hv. transitivity s3; [done|].
    apply later_begun. transitivity s4; [done|by transitivity s5]. }
  intros sf h s4 L4 Hh N4. cbn [negb]. eapply wp_mono; [|apply (Hb (sftppath (cl s1)) sf h s4)].
  - intros r s5 H5 s6 L6 s7 L7. apply H5. apply later_begun. by transitivity s6.
  - transitivity s3; [done|by apply later_begun].
  - done.
  - by apply (begun_new s s3).
  - done.
Qed.
End facts.

(** ** What libssh2 promises about its data

    [libssh2_sftp_read] and [libssh2_sftp_write] return a negative error code or a
    number of bytes, which is at most the size they were given; the codes fit an
    [int]. *)
Class SftpData (E : Type) `{!Env E} := {
  sftp_read_bound h n e rc bytes :
    fst (answer (sftp_read h n) e) = (rc, bytes) → 0 ≤ n → - 2 ^ 31 ≤ rc ≤ n ∧ rc ≤ Z.of_nat (length bytes);
  sftp_write_bound h data e rc :
    fst (answer (QZ (sftp_write h data)) e) = rc → rc ≤ Z.of_nat (length data)
}.

Section flow.
Context {E : Type} `{!Env E}.

Abbreviation M := (prog (st E)).

(** Two flows of data side by side. *)
Definition paired {A B} (f : event → list A) (g : event → list B) (s s' : st E) (x : list A) (y : list B) : Prop :=
  advances f s s' x ∧ advances g s s' y.

Definition same_handle (s s' : st E) : Prop := qhandle s' = qhandle s.

#[export] Instance same_handle_frame : Frame same_handle.
Proof. split; [split| |]; unfold same_handle; [by intros ?|by intros ??? -> ->|done|done]. Qed.

Lemma same_handle_other op : preserves same_handle (run_other_thread op).
Proof.
  apply other_thread_preserves; [apply _|done|done|]. intros. unfold_disconnect.
  repeat first [progress preserves_auto | apply preserves_while_eagain_hint; [apply _| |]
    | apply preserves_upd; reflexivity | apply preserves_modify; reflexivity].
Qed.

Section two.
Context {A B : Type} (f : event → list A) (g : event → list B).
Context `{!Wire (silent f)} `{!Wire (silent g)}.

Lemma paired_refl s : paired f g s s [] [].
Proof. split; apply advances_refl. Qed.

Lemma paired_trans s1 s2 s3 x1 y1 x2 y2 :
  paired f g s1 s2 x1 y1 → paired f g s2 s3 x2 y2 → paired f g s1 s3 (x1 ++ x2) (y1 ++ y2).
Proof. intros [F1 G1] [F2 G2]. split; by eapply advances_trans. Qed.

Lemma paired_begun s s1 s2 x y : paired f g s s1 x y → begun s1 s2 → paired f g s s2 x y.
Proof. intros [F1 G1] H. split; by eapply begun_advances. Qed.

Lemma begun_paired s s1 s2 x y : begun s s1 → paired f g s1 s2 x y → paired f g s s2 x y.
Proof. intros H H2. apply (paired_trans s s1 s2 [] []); [|done]. by apply (paired_begun s s); [apply paired_refl|]. Qed.

Lemma paired_logged s s1 x y ev e' : paired f g s s1 x y → paired f g s (logged s1 ev e') (x ++ f ev) (y ++ g ev).
Proof. intros [F1 G1]. split; (eapply advances_trans; [done|apply advances_logged]). Qed.

(** Other threads move none of this data. *)
Lemma wp_others ops (Q : unit → st E → Prop) s :
  (∀ s', begun s s' → same_handle s s' → Q tt s') → wp True (for_each ops run_other_thread) Q s.
Proof.
  intros HQ. eapply wp_mono;
    [|apply wp_and; [apply (preserves_for_each begun)|apply (preserves_for_each same_handle)]];
    intros; try apply linked_other; try apply same_handle_other.
  destruct a, H. by apply HQ.
Qed.
End two.

Context `{!SftpData E}.

(** ** Downloads *)

Section downloads.
Context (h : handle) (g : event → list Byte.byte) `{!Wire (silent g)}.
Context (g_read : ∀ h' n a, g (Ev (sftp_read h' n) a) = []).

Abbreviation read_flow := (paired (received_on h) g).

(** One block: what it returns is what libssh2 handed over. *)
Lemma read_block_post n errstr to s : qhandle s = Some h → 0 ≤ n →
  wp True (read_block n errstr to) (λ r s', match r with
    | None => read_flow s s' [] []
    | Some (rc, bytes) =>
        read_flow s s' bytes [] ∧ qhandle s' = Some h ∧ length bytes = Z.to_nat rc ∧
        (n < 2 ^ 31 → rc ≤ n)
    end) s.
Proof.
  intros Hh Hn. unfold read_block, retry_data.
  apply (wp_loop (λ _ s1, read_flow s s1 [] [] ∧ qhandle s1 = Some h)); [|by split; [apply paired_refl|]].
  intros _ s1 [F1 H1]. wp_step. wp_step. wp_step. wp_step. rewrite H1. apply (wp_call _ (sftp_read (Some h) n)).
  intros [rc bytes] e' Ea. wp_step. cbn [fst].
  pose proof (paired_logged _ _ _ _ _ _ (Ev (sftp_read (Some h) n) (rc, bytes)) e' F1) as F2.
  rewrite g_read, app_nil_r in F2. cbn [received_on app] in F2. rewrite bool_decide_true in F2 by done.
  destruct (sftp_read_bound (Some h) n (env s1) rc bytes) as [Hrc Hlen]; [by rewrite Ea|done|].
  assert (n < 2 ^ 31 → as_int rc ≤ n) as Hle by (intros; rewrite as_int_small; lia).
  destruct (Z.eqb_spec (as_int rc) LIBSSH2_ERROR_EAGAIN) as [Hag|].
  - rewrite Hag in F2. change (Z.to_nat LIBSSH2_ERROR_EAGAIN) with 0%nat in F2. rewrite take_0 in F2.
    wp_step. apply wp_qh_wait; intros s3 B3.
    + apply wp_mret. eapply paired_begun; [apply _..|exact F2|exact B3].
    + intros (_ & _ & _ & _ & Q3). apply wp_mret. split; [by eapply paired_begun; [apply _..| |]|]. by rewrite Q3.
  - apply wp_mret. split_and!; [done|done| |done]. rewrite length_take.
    assert (as_int rc ≤ rc ∨ as_int rc < 0); [|lia]. unfold as_int.
    destruct (decide (rc < 2 ^ 31)) as [Hs|Hs]; [left; rewrite Z.mod_small; lia|].
    pose proof (Z.mod_le (rc + 2 ^ 31) (2 ^ 32)). lia.
Qed.

Context (K : list Byte.byte → list Byte.byte) (K_nil : K [] = []) (K_app : ∀ x y, K (x ++ y) = K x ++ K y).

Lemma download_post fsize block sink code errstr to s :
  qhandle s = Some h → (∀ n, 0 ≤ n → 0 ≤ block n) →
  (∀ bytes s1, qhandle s1 = Some h →
     wp True (sink bytes) (λ _ s2, read_flow s1 s2 [] (K bytes) ∧ qhandle s2 = Some h) s1) →
  wp True (download fsize block sink code errstr to) (λ r s', ∃ d, read_flow s s' d (K d) ∧
    match r with
    | inl c => c = -1 ∨ c = code
    | inr data => data = d ∧
        (0 ≤ fsize < 2 ^ 64 → (∀ n, 0 < n ≤ fsize → block n ≤ n ∧ block n < 2 ^ 31) →
         Z.of_nat (length d) = fsize)
    end) s.
Proof.
  intros Hh Hb Hs. unfold download.
  apply (wp_loop (λ '(tot, data) s1, read_flow s s1 data (K data) ∧ qhandle s1 = Some h ∧
    (0 ≤ fsize < 2 ^ 64 → (∀ n, 0 < n ≤ fsize → block n ≤ n ∧ block n < 2 ^ 31) →
     tot = Z.of_nat (length data) ∧ tot ≤ fsize)));
    [|split_and!; [rewrite K_nil; apply paired_refl|done|simpl; lia]].
  intros [tot data] s1 (F1 & H1 & L1). cbv zeta. destruct (Z.eqb_spec (size_t (fsize - tot)) 0) as [Hz|Hnz].
  { apply wp_mret. exists data. split_and!; [done|done|]. intros Hf Hbl. destruct (L1 Hf Hbl).
    rewrite size_t_small in Hz; lia. }
  assert (0 ≤ size_t (fsize - tot)) as Hrem by (apply Z.mod_pos_bound; lia).
  wp_step. eapply wp_mono; [|by apply read_block_post; [|apply Hb]].
  intros [[rc bytes]|] s2; cbv beta iota.
  2: { intros F2. apply wp_mret. exists data. split; [|by left].
       pose proof (paired_trans _ _ _ _ _ _ _ _ _ F1 F2) as F. by rewrite !app_nil_r in F. }
  intros (F2 & H2 & Hlen & Hle). pose proof (paired_trans _ _ _ _ _ _ _ _ _ F1 F2) as F. rewrite app_nil_r in F.
  destruct (Z.ltb_spec rc 0) as [Hneg|Hpos].
  { destruct bytes; [|simpl in Hlen; lia]. rewrite app_nil_r in F. wp_step.
    eapply wp_mono; [|apply (sftp_err begun)]. intros ? s3 B3. apply wp_mret. exists data. split; [|by left].
    by eapply paired_begun; [apply _..| |]. }
  wp_step. apply (wp_mono _ _ (λ _ s3, read_flow s s3 (data ++ bytes) (K (data ++ bytes)) ∧ qhandle s3 = Some h)).
  - intros stop s3 [F3 H3]. destruct stop; apply wp_mret; [exists (data ++ bytes); by auto|].
    assert (0 ≤ fsize < 2 ^ 64 → (∀ n, 0 < n ≤ fsize → block n ≤ n ∧ block n < 2 ^ 31) →
      size_t (tot + rc) = Z.of_nat (length (data ++ bytes)) ∧ size_t (tot + rc) ≤ fsize) as Hinv.
    { intros Hf Hbl. destruct (L1 Hf Hbl) as [-> Ht]. rewrite size_t_small in Hnz, Hle, Hrem by lia.
      destruct (Hbl (fsize - Z.of_nat (length data))) as [B1 B2]; [lia|]. specialize (Hle B2).
      rewrite length_app, Hlen. rewrite size_t_small by lia. lia. }
    destruct (Z.leb_spec fsize (size_t (tot + rc))); [|done].
    exists (data ++ bytes). split_and!; [done|done|]. intros Hf Hbl. destruct (Hinv Hf Hbl). lia.
  - rewrite K_app. destruct (Z.eqb_spec rc 0) as [->|].
    + apply wp_mret. destruct bytes; [|done]. by rewrite K_nil, !app_nil_r in *.
    + eapply wp_mono; [|by apply Hs]. intros ? s3 [F3 H3]. split; [|done].
      pose proof (paired_trans _ _ _ _ _ _ _ _ _ F F3) as F'. by rewrite app_nil_r in F'.
Qed.
End downloads.

(** The server gave these attributes for a file and this handle for reading it. *)
Definition file_opened (remote : string) (a : attrs) (h : handle) (s s' : st E) : Prop :=
  ∃ cwd sf sf' rc, current_dir s cwd ∧ 0 ≤ rc ∧
    new s s' (Ev (sftp_stat sf (absolute_filename cwd remote) true) (rc, a)) ∧
    new s s' (Ev (QH (sftp_open sf' (absolute_filename cwd remote) LIBSSH2_FXF_READ (at_permissions a))) (Some h)).

Lemma wp_downloads {A} (g : event → list Byte.byte) `{!Wire (silent g)} remote errstr to (v : A) body
    (Q : A → st E → Prop) s :
  (∀ h s', paired (received_on h) g s s' [] [] → Q v s') →
  (∀ a h s1, paired (received_on h) g s s1 [] [] → qhandle s1 = Some h → file_opened remote a h s s1 →
     wp True (body (at_filesize a)) (λ r s2, grows s1 s2 → ∀ s3, begun s2 s3 → file_opened remote a h s s3 → Q r s3) s1) →
  (∀ fsize, preserves grows (body fsize)) →
  wp True (with_remote_file remote errstr to v body) Q s.
Proof.
  intros Hv Hb Hg. apply wp_remote_file.
  - intros s1 B1. apply (Hv 1%positive). eapply paired_begun; [apply _..|apply paired_refl|exact B1].
  - intros cwd a sf sf' h rc s1 B1 Hc N1 Hrc N2 Hh.
    assert (file_opened remote a h s s1) as Ho by by exists cwd, sf, sf', rc.
    eapply wp_mono; [|apply wp_and; [apply (Hb a h s1)|apply Hg]]; [|by eapply paired_begun; [apply _..|apply paired_refl|]|done..].
    intros r s2 [H2 G2] s3 B3. apply (H2 G2); [done|].
    assert (grows s1 s3) as G3 by (transitivity s2; [done|apply B3]).
    exists cwd, sf, sf', rc. split_and!; [done|done|by eapply new_grows|by eapply new_grows].
Qed.

Lemma or_raise_out bytes (h : handle) (s : st E) :
  qhandle s = Some h →
  wp True (or_raise (file_write bytes))
    (λ _ s', paired (received_on h) file_out s s' [] bytes ∧ qhandle s' = Some h) s.
Proof.
  intros Hh. unfold or_raise. wp_step. wp_world. set (s1 := logged s _ _).
  assert (paired (received_on h) file_out s s1 [] bytes) as F1.
  { exact (paired_logged _ _ _ _ [] [] (Ev (QB (file_write bytes)) a) e' (paired_refl _ _ s)). }
  wp_step. destruct a; cbn [negb when].
  - wp_step. wp_step. done.
  - wp_world. wp_step. split; [|done]. eapply paired_begun; [apply _..|exact F1|].
    apply (preserves_basic_raise_exc begun true ExternalExc s1).
Qed.

Lemma stream_sink_out bytes (h : handle) (s : st E) :
  qhandle s = Some h →
  wp True (stream_sink bytes)
    (λ _ s', paired (received_on h) stream_given s s' [] bytes ∧ qhandle s' = Some h) s.
Proof.
  intros Hh. unfold stream_sink. wp_step. apply (wp_call _ (ostream_write_unlocked bytes)).
  intros [ops ok] e' _. set (s1 := logged s _ _).
  assert (paired (received_on h) stream_given s s1 [] bytes) as F1.
  { exact (paired_logged _ _ _ _ [] [] (Ev (ostream_write_unlocked bytes) (ops, ok)) e' (paired_refl _ _ s)). }
  wp_step. apply wp_others. intros s2 B2 H2. wp_step.
  apply (wp_mono _ _ (λ _ s3, begun s2 s3 ∧ same_handle s2 s3)).
  - intros ? s3 [B3 H3]. assert (paired (received_on h) stream_given s s3 [] bytes ∧ qhandle s3 = Some h) as HQ.
    { split; [|by rewrite H3, H2]. eapply paired_begun; [apply _..|exact F1|]. by transitivity s2. }
    apply wp_has_exc; done.
  - destruct (snd (ops, ok)); cbn [negb when]; [wp_step; by split|].
    apply wp_and; [apply (preserves_basic_raise_exc begun)|apply (preserves_basic_raise_exc same_handle)].
Qed.

(** C7: A file that is fetched into memory is exactly the sequence of bytes that
    libssh2 delivered on the handle it opened for that file, and for files below 2 GB it
    is as long as the size the server reported: no block is lost, repeated or cut off. *)
Theorem get_file_exact (errstr file : string) (to : Z) (s s' : st E) (data : list Byte.byte) :
  get_file errstr file to s = Some (Some data, s') →
  ∃ a h, file_opened file a h s s' ∧ advances (received_on h) s s' data ∧
    (0 ≤ at_filesize a < 2 ^ 31 → Z.of_nat (length data) = at_filesize a).
Proof.
  apply (wp_run_some _ (λ data s', ∃ a h, file_opened file a h s s' ∧ advances (received_on h) s s' data ∧
    (0 ≤ at_filesize a < 2 ^ 31 → Z.of_nat (length data) = at_filesize a))).
  set (g := λ _ : event, [] : list Byte.byte). assert (Wire (silent g)) as Hg by (intros ???; reflexivity).
  apply (wp_downloads g); [done| |].
  - intros a h s1 F1 Hh Ho. wp_step. eapply wp_mono;
      [|apply (download_post h g (λ _ _ _, eq_refl) (λ _, []) eq_refl (λ _ _, eq_refl)); [done..|]].
    + intros [c|d0] s2 (d & F2 & H2); apply wp_mret; [done|]. destruct H2 as [-> Hlen]. intros G2 s3 B3 Ho3 ? [= <-].
      exists a, h. split; [done|]. pose proof (paired_trans _ _ _ _ _ _ _ _ _ F1 F2) as F.
      pose proof (paired_begun (received_on h) g _ _ _ _ _ F B3) as [F' _]. rewrite app_nil_l in F'.
      split; [exact F'|]. intros Hs. apply Hlen; lia. 
    + intros bytes s2 H2. wp_step. exact (conj (paired_refl _ _ _) H2).
  - intros fsize. preserves_step; [|preserves_auto]. apply transfer_download; [apply _..|]. intros. preserves_auto.
Qed.

Lemma BUFSIZE_eq : BUFSIZE = 32768.
Proof. apply Z2Nat.id. lia. Qed.

Lemma block_of_bound n : 0 ≤ n → 0 ≤ block_of n ≤ n ∧ block_of n < 2 ^ 31.
Proof. unfold block_of. rewrite BUFSIZE_eq. destruct (Z.ltb_spec 32768 n); lia. Qed.

(** A download in blocks: what is passed on is what was received, on every way out;
    a return code other than [failure] and [-1] is the size of the whole file. *)
Definition delivered (g : event → list Byte.byte) (failure : Z) (remote : string) (s s' : st E) (r : Z) : Prop :=
  ∃ h d, paired (received_on h) g s s' d d ∧
    (r ≠ -1 → r ≠ failure → r = Z.of_nat (length d) ∧
       ∃ a, file_opened remote a h s s' ∧ (0 ≤ at_filesize a < 2 ^ 64 → r = at_filesize a)).

Lemma download_delivered (g : event → list Byte.byte) `{!Wire (silent g)} remote sink code errstr to a h (s s1 : st E) :
  (∀ h' n a, g (Ev (sftp_read h' n) a) = []) →
  (∀ bytes s1, qhandle s1 = Some h →
     wp True (sink bytes) (λ _ s2, paired (received_on h) g s1 s2 [] bytes ∧ qhandle s2 = Some h) s1) →
  paired (received_on h) g s s1 [] [] → qhandle s1 = Some h →
  wp True (r ← download (at_filesize a) block_of sink code errstr to;
           mret (match r with inl c => c | inr data => Z.of_nat (length data) end))
    (λ r s2, ∀ s3, begun s2 s3 → file_opened remote a h s s3 → delivered g code remote s s3 r) s1.
Proof.
  intros Hread Hsink F1 Hh. wp_step. eapply wp_mono;
    [|apply (download_post h g Hread (λ x, x) eq_refl (λ _ _, eq_refl)); [done|apply block_of_bound|exact Hsink]].
  intros r s2 (d & F2 & H2). apply wp_mret. intros s3 B3 Ho.
  exists h, d. pose proof (paired_trans _ _ _ _ _ _ _ _ _ F1 F2) as F. rewrite !app_nil_l in F.
  split; [by eapply paired_begun; [apply _..| |]|]. destruct r as [c|d0]; [by destruct H2|].
  destruct H2 as [-> Hlen]. intros _ _. split; [done|]. exists a. split; [done|]. intros Hs. apply Hlen; [done|].
  intros n Hn. destruct (block_of_bound n); lia.
Qed.

Lemma delivered_none g failure remote (s s' : st E) h :
  paired (received_on h) g s s' [] [] → delivered g failure remote s s' (-1).
Proof. intros F. exists h, []. by split. Qed.

(** What [retrieveFile] writes to the local file is, on every way out, exactly
    what libssh2 delivered for the remote file; when it returns a size, that is the number
    of bytes written and the size the server reported. *)
Theorem retrieve_file_exact (remote local : string) (to mode : Z) (s s' : st E) (r : Z) :
  sftpRetrieveFile remote local to mode s = Some (r, s') → delivered file_out (-1) remote s s' r.
Proof.
  apply (wp_run _ (λ r s', delivered file_out (-1) remote s s' r)).
  apply (wp_downloads file_out); [by intros; eapply delivered_none| |].
  - intros a h s1 F1 Hh Ho.
    assert (∀ s2, paired (received_on h) file_out s s2 [] [] →
      wp True (mret (-1)) (λ r s4, grows s1 s4 → ∀ s3, begun s4 s3 → file_opened remote a h s s3 →
        delivered file_out (-1) remote s s3 r) s2) as Hfail.
    { intros s2 F2. apply wp_mret. intros _ s3 B3 _. eapply (delivered_none _ _ _ _ _ h).
      by eapply paired_begun; [apply _..| |]. }
    assert (∀ m : M bool, preserves begun m → preserves same_handle m → ∀ s2,
      paired (received_on h) file_out s s2 [] [] → qhandle s2 = Some h →
      wp True m (λ _ s3, paired (received_on h) file_out s s3 [] [] ∧ qhandle s3 = Some h) s2) as Hskip.
    { intros m P1 P2 s2 F2 H2. eapply wp_mono; [|apply wp_and; [apply P1|apply P2]]. intros ? s3 [B3 S3].
      split; [by eapply paired_begun; [apply _..| |]|by rewrite S3]. }
    wp_step. eapply wp_mono; [|apply Hskip; [unfold sandbox_denies; preserves_auto..|done|done]].
    intros [] s2 [F2 H2]; [by apply Hfail|]. wp_step.
    eapply wp_mono; [|apply Hskip; [unfold or_raise; preserves_auto..|done|done]].
    intros [] s3 [F3 H3]; [by apply Hfail|].
    eapply wp_mono; [|apply (download_delivered file_out remote (λ bytes, or_raise (file_write bytes)) (-1) _ to a h s s3);
      [done|intros; by apply or_raise_out|done|done]].
    intros rc s4 H4 _ s5 B5 Ho5. by apply H4.
  - intros fsize. unfold sandbox_denies, or_raise. preserves_auto. apply transfer_download; [apply _..|].
    intros. preserves_auto.
Qed.

(** What [get] gives to the output stream is, on every way out and whatever
    other threads do while the stream is written, exactly what libssh2 delivered for the
    remote file; when it returns a positive size, that is the number of bytes given and
    the size the server reported. *)
Theorem get_stream_exact (remote : string) (to : Z) (s s' : st E) (r : Z) :
  sftpGet remote to s = Some (r, s') → delivered stream_given 0 remote s s' r.
Proof.
  apply (wp_run _ (λ r s', delivered stream_given 0 remote s s' r)).
  apply (wp_downloads stream_given); [by intros; eapply delivered_none| |].
  - intros a h s1 F1 Hh Ho.
    eapply wp_mono; [|apply (download_delivered stream_given remote stream_sink 0 _ to a h s s1);
      [done|intros; by apply stream_sink_out|done|done]].
    intros rc s4 H4 _ s5 B5 Ho5. by apply H4.
  - intros fsize. preserves_step; [|preserves_auto]. apply transfer_download; [apply _..|].
    intros. unfold stream_sink. preserves_auto. apply linked_other.
Qed.

(** ** Uploads *)

(** A file was opened for writing, and its handle was closed without an error. *)
Definition stored (remote : string) (mode : Z) (h : handle) (s s' : st E) : Prop :=
  ∃ cwd sf rc, current_dir s cwd ∧
    new s s' (Ev (QH (sftp_open sf (absolute_filename cwd remote) WRITE_FLAGS mode)) (Some h)) ∧
    new s s' (Ev (QZ (sftp_close_handle (Some h))) rc) ∧ (rc = 0 ∨ rc = LIBSSH2_ERROR_EAGAIN).

Lemma same_handle_wait toerr err to : preserves same_handle (waitSocket_in_disconnect (E:=E) true toerr err to).
Proof. apply (preserves_wait_in_disconnect _). Qed.

Lemma closeIntern_post errstr to (h : handle) (s : st E) : qhandle s = Some h →
  wp True (closeIntern errstr to) (λ rc s', begun s s' ∧ new s s' (Ev (QZ (sftp_close_handle (Some h))) rc)) s.
Proof.
  intros Hh. unfold closeIntern. wp_step.
  apply (wp_mono _ _ (λ rc s', begun s s' ∧ new s s' (Ev (QZ (sftp_close_handle (Some h))) rc))).
  { intros rc s1 [B1 N1]. wp_step. eapply wp_mono; [|apply (sftp_modify_qhandle begun)]. intros ? s2 B2.
    apply wp_mret. split; [by transitivity s1|by eapply new_begun]. }
  apply (wp_loop (λ _ s1, begun s s1 ∧ same_handle s s1)); [|done].
  intros _ s1 [B1 H1]. wp_step. wp_step. rewrite H1, Hh. wp_step. wp_world. set (s2 := logged s1 _ _).
  assert (begun s s2) as B2 by (transitivity s1; [done|by apply session_logged]).
  assert (new s s2 (Ev (QZ (sftp_close_handle (Some h))) a)) as N2 by (apply new_logged, B1).
  wp_step; [|by apply wp_mret]. wp_step.
  eapply wp_mono; [|apply wp_and; [apply (preserves_wait_in_disconnect begun)|apply same_handle_wait]].
  intros [] s3 [B3 H3]; cbv beta iota.
  - wp_step. eapply wp_mono; [|apply (linked_disconnect (R:=begun))]. intros ? s4 B4. apply wp_mret.
    assert (begun s2 s4) as B24 by by transitivity s3. split; [by transitivity s2|by eapply new_begun].
  - apply wp_mret. split; [by transitivity s2|by transitivity s1].
Qed.

Lemma finish_upload_post remote mode errstr to cwd sf (h : handle) size (s0 s : st E) :
  grows s0 s → qhandle s = Some h → current_dir s0 cwd →
  new s0 s (Ev (QH (sftp_open sf (absolute_filename cwd remote) WRITE_FLAGS mode)) (Some h)) →
  wp True (finish_upload size errstr to) (λ r s', begun s s' ∧
    (r = -1 ∨ r = size ∧ ∀ s2, begun s' s2 → stored remote mode h s0 s2)) s.
Proof.
  intros B0 Hh Hc N0. unfold finish_upload. wp_step. eapply wp_mono; [|by apply (closeIntern_post errstr to h)].
  intros rc s1 [B1 N1]. cbv beta. wp_step.
  - wp_step. eapply wp_mono; [|apply (sftp_err begun)]. intros ? s2 B2. apply wp_mret.
    split; [by transitivity s1|by left].
  - apply wp_mret. split; [done|]. right. split; [done|]. intros s2 B2. exists cwd, sf, rc. split_and!; [done| | |].
    + eapply new_begun; [exact N0|]. by transitivity s1.
    + eapply new_begun; [|exact B2]. by eapply new_weaken.
    + destruct (Z.eqb_spec rc 0), (Z.eqb_spec rc LIBSSH2_ERROR_EAGAIN); auto; done.
Qed.

Section uploads.
Context (h : handle) (g : event → list Byte.byte) `{!Wire (silent g)}.
Context (g_write : ∀ h' data a, g (Ev (QZ (sftp_write h' data)) a) = []).

Abbreviation write_flow := (paired (sent_on h) g).

Lemma write_block_post data errstr to s : qhandle s = Some h →
  wp True (write_block data errstr to) (λ r s', match r with
    | None => write_flow s s' [] []
    | Some rc => write_flow s s' (take (Z.to_nat rc) data) [] ∧ qhandle s' = Some h ∧ rc ≤ Z.of_nat (length data)
    end) s.
Proof.
  intros Hh. unfold write_block, while_eagain.
  apply (wp_loop (λ _ s1, write_flow s s1 [] [] ∧ qhandle s1 = Some h)); [|by split; [apply paired_refl|]].
  intros _ s1 [F1 H1]. wp_step. wp_step. wp_step. rewrite H1. wp_world.
  pose proof (paired_logged _ _ _ _ _ _ (Ev (QZ (sftp_write (Some h) data)) a) e' F1) as F2.
  rewrite g_write, app_nil_r in F2. cbn [sent_on app] in F2. rewrite bool_decide_true in F2 by done.
  destruct (Z.eqb_spec a LIBSSH2_ERROR_EAGAIN) as [Hag|].
  - subst a. change (Z.to_nat LIBSSH2_ERROR_EAGAIN) with 0%nat in F2. rewrite take_0 in F2.
    wp_step. apply wp_qh_wait; intros s3 B3.
    + apply wp_mret. by eapply paired_begun; [apply _..| |].
    + intros (_ & _ & _ & _ & Q3). apply wp_mret. split; [by eapply paired_begun; [apply _..| |]|]. by rewrite Q3.
  - apply wp_mret. split_and!; [done|done|]. by apply (sftp_write_bound (Some h) data (env s1)); rewrite H.
Qed.

Lemma write_all_post buf errstr to s : qhandle s = Some h →
  wp True (write_all buf errstr to) (λ failed s', ∃ sent, sent `prefix_of` buf ∧ write_flow s s' sent [] ∧
    (failed = false → sent = buf ∧ qhandle s' = Some h)) s.
Proof.
  intros Hh. unfold write_all.
  apply (wp_loop (λ total s1, (total ≤ length buf)%nat ∧ write_flow s s1 (take total buf) [] ∧ qhandle s1 = Some h));
    [|split_and!; [lia|apply paired_refl|done]].
  intros total s1 (L1 & F1 & H1). wp_step. eapply wp_mono; [|by apply write_block_post].
  assert (∀ s2, write_flow s s2 (take total buf) [] → ∃ sent, sent `prefix_of` buf ∧ write_flow s s2 sent [] ∧
    (true = false → sent = buf ∧ qhandle s2 = Some h)) as Hfail.
  { intros s2 F2. exists (take total buf). split_and!; [apply prefix_take|done|done]. }
  intros [rc|] s2; cbv beta iota.
  2: { intros F2. apply wp_mret, Hfail. pose proof (paired_trans _ _ _ _ _ _ _ _ _ F1 F2) as F.
       by rewrite !app_nil_r in F. }
  intros (F2 & H2 & Hrc). pose proof (paired_trans _ _ _ _ _ _ _ _ _ F1 F2) as F. rewrite app_nil_r in F.
  rewrite length_drop in Hrc. rewrite take_take_drop in F. wp_step.
  - replace (Z.to_nat rc) with 0%nat in F by lia. rewrite Nat.add_0_r in F. wp_step.
    eapply wp_mono; [|apply (sftp_err begun)]. intros ? s3 B3. apply wp_mret, Hfail.
    by eapply paired_begun; [apply _..| |].
  - apply Z.ltb_ge in Heqb. apply wp_mret. destruct (Nat.eqb_spec (total + Z.to_nat rc) (length buf)) as [He|];
      [|split_and!; [lia|done|done]].
    exists buf. rewrite He, take_ge in F by lia. by split_and!.
Qed.
End uploads.

(** An upload from a source: what is sent is what was taken from the source, up to
    where it stopped; a return code other than -1 is the size of all of it, and the
    file is stored. *)
Definition uploaded (g : event → list Byte.byte) (remote : string) (mode : Z) (s s' : st E) (r : Z) : Prop :=
  ∃ h sent taken, paired (sent_on h) g s s' sent taken ∧ sent `prefix_of` taken ∧
    (r ≠ -1 → taken = sent ∧ r = size_t (Z.of_nat (length sent)) ∧ stored remote mode h s s').

(** Where the loop of an upload can end. *)
Definition upload_point (g : event → list Byte.byte) (h : handle) (s0 : st E) (r : option Z) (s : st E) : Prop :=
  match r with
  | None => ∃ sent taken, paired (sent_on h) g s0 s sent taken ∧ sent `prefix_of` taken
  | Some size => ∃ sent, paired (sent_on h) g s0 s sent sent ∧ size = size_t (Z.of_nat (length sent)) ∧
      qhandle s = Some h ∧ grows s0 s
  end.

Lemma upload_failed (g : event → list Byte.byte) `{!Wire (silent g)} remote mode (h : handle) (s0 s s' : st E) :
  upload_point g h s0 None s → begun s s' → uploaded g remote mode s0 s' (-1).
Proof.
  intros (sent & taken & F & P) B. exists h, sent, taken.
  split_and!; [by eapply paired_begun; [apply _..| |]|done|done].
Qed.

Lemma upload_end (g : event → list Byte.byte) `{!Wire (silent g)} remote mode errstr to cwd sf (h : handle) r (s0 s1 s : st E) :
  current_dir s0 cwd → grows s1 s →
  new s0 s1 (Ev (QH (sftp_open sf (absolute_filename cwd remote) WRITE_FLAGS mode)) (Some h)) →
  upload_point g h s0 r s →
  wp True (match r with None => mret (-1) | Some size => finish_upload size errstr to end)
    (λ r s2, ∀ s3, begun s2 s3 → uploaded g remote mode s0 s3 r) s.
Proof.
  intros Hc G N. destruct r as [size|]; cbn [upload_point]; [|intros H; apply wp_mret; intros; by eapply upload_failed].
  intros (sent & F & -> & Hh & G0).
  eapply wp_mono; [|apply (finish_upload_post remote mode errstr to cwd sf h); [done..|by eapply new_grows]].
  intros r s2 [B2 H2] s3 B3. assert (begun s s3) as B by by transitivity s2.
  exists h, sent, sent. split_and!; [by eapply paired_begun; [apply _..| |]|done|].
  intros Hr. destruct H2 as [->|[-> H2]]; [done|]. by split_and!; [| |apply H2].
Qed.

(** One block from the source on its way. *)
Lemma upload_block (g : event → list Byte.byte) `{!Wire (silent g)} (h : handle) bytes sent size errstr to (s0 s : st E) :
  (∀ h' data a, g (Ev (QZ (sftp_write h' data)) a) = []) →
  paired (sent_on h) g s0 s sent (sent ++ bytes) → size = size_t (Z.of_nat (length sent)) →
  qhandle s = Some h → grows s0 s →
  wp True (failed ← write_all bytes errstr to;
           mret (if failed : bool then inr None else inl (size_t (size + Z.of_nat (length bytes)))))
    (λ r s', match r with
      | inl size => upload_point g h s0 (Some size) s'
      | inr r => upload_point g h s0 r s' end) s.
Proof.
  intros Hg F -> Hh G. wp_step.
  eapply wp_mono; [|apply wp_and; [by apply (write_all_post h g Hg)|apply (transfer_write_all grows)]].
  intros failed s1 [(out & P & F1 & H1) G1]. pose proof (paired_trans _ _ _ _ _ _ _ _ _ F F1) as F2.
  rewrite app_nil_r in F2. destruct failed; apply wp_mret.
  - exists (sent ++ out), (sent ++ bytes). split; [done|by apply prefix_app].
  - destruct H1 as [-> Hh1]; [done|]. exists (sent ++ bytes). split_and!; [done| |done|by transitivity s].
    unfold size_t. rewrite length_app, Nat2Z.inj_add. by rewrite Zplus_mod_idemp_l.
Qed.

Lemma wp_uploads (g : event → list Byte.byte) `{!Wire (silent g)} remote mode errstr to (loop_ : M (option Z)) (s : st E) :
  (∀ h s1, begun s s1 → qhandle s1 = Some h → wp True loop_ (upload_point g h s) s1) →
  preserves grows loop_ →
  wp True (with_new_file remote mode errstr to
             (r ← loop_; match r with None => mret (-1) | Some size => finish_upload size errstr to end))
    (λ r s', uploaded g remote mode s s' r) s.
Proof.
  intros Hl Hg. apply wp_new_file.
  - intros s1 B1. apply (upload_failed g remote mode 1%positive s s); [|done].
    exists [], []. split; [apply paired_refl|done].
  - intros cwd sf h s1 B1 Hc N1 Hh. wp_step.
    eapply wp_mono; [|apply wp_and; [by apply Hl|apply Hg]]. intros r s2 [H2 G2].
    by apply (upload_end g remote mode errstr to cwd sf h r s s1).
Qed.

Lemma upload_start (g : event → list Byte.byte) `{!Wire (silent g)} (h : handle) (s s1 : st E) :
  begun s s1 → qhandle s1 = Some h → upload_point g h s (Some 0) s1.
Proof.
  intros B Hh. exists []. split_and!; [|done|done|apply B].
  eapply paired_begun; [apply _..|apply paired_refl|done].
Qed.

Lemma read_stream_post n (h : handle) (s : st E) : qhandle s = Some h →
  wp True (read_stream n) (λ r s', ∃ x, paired (sent_on h) stream_taken s s' [] x ∧ qhandle s' = Some h ∧ grows s s' ∧
    ∀ bytes, r = Some bytes → x = bytes) s.
Proof.
  intros Hh. unfold read_stream. wp_step. apply (wp_call _ (istream_read_unlocked n)).
  intros [ops data] e' _. set (s1 := logged s _ _).
  assert (paired (sent_on h) stream_taken s s1 [] (default [] data)) as F1.
  { pose proof (paired_logged _ _ _ _ [] [] (Ev (istream_read_unlocked n) (ops, data)) e'
      (paired_refl (sent_on h) stream_taken s)) as F. by destruct data. }
  wp_step. apply wp_others. intros s2 B2 H2. wp_step.
  apply (wp_mono _ _ (λ _ s3, begun s2 s3 ∧ same_handle s2 s3)).
  - intros ? s3 [B3 H3]. assert (begun s1 s3) as B13 by by transitivity s2.
    assert (∀ r, (∀ bytes, r = Some bytes → default [] data = bytes) → ∃ x, paired (sent_on h) stream_taken s s3 [] x ∧
      qhandle s3 = Some h ∧ grows s s3 ∧ ∀ bytes, r = Some bytes → x = bytes) as HQ.
    { intros r Hr. exists (default [] data). split_and!; [by eapply paired_begun; [apply _..| |]|by rewrite H3, H2| |done].
      transitivity s1; [apply frame_logged|apply B13]. }
    wp_step. apply wp_has_exc; intros _; wp_step; apply HQ; [done|]. cbn [snd]. by intros ? [= <-].
  - destruct data; cbn [snd bool_decide when]; [apply wp_when; [|by split]; by intros ?%bool_decide_eq_true|].
    apply wp_and; [apply (preserves_basic_raise_exc begun)|apply (preserves_basic_raise_exc same_handle)].
Qed.

(** C31: What [put] sends is, on every way out and whatever other threads do while
    the stream is read, a prefix of what it took from the input stream; when it returns a
    size, everything taken was sent, in order and once, and the file was closed. *)
Theorem put_stream_exact (remote : string) (mode to : Z) (s s' : st E) (r : Z) :
  sftpPut remote mode to s = Some (r, s') → uploaded stream_taken remote mode s s' r.
Proof.
  apply (wp_run _ (λ r s', uploaded stream_taken remote mode s s' r)). apply (wp_uploads stream_taken).
  - intros h s1 B1 H1. apply (wp_loop (λ size s2, upload_point stream_taken h s (Some size) s2));
      [|by apply (upload_start stream_taken)].
    intros size s2 (sent & F2 & Hsize & H2 & G2). wp_step.
    eapply wp_mono; [|by apply (read_stream_post _ h)]. intros b s3 (x & F3 & H3 & G3 & Hx).
    pose proof (paired_trans _ _ _ _ _ _ _ _ _ F2 F3) as F. rewrite app_nil_r in F.
    assert (grows s s3) as G by by transitivity s2.
    destruct b as [bytes|]; [|apply wp_mret; exists sent, (sent ++ x); split; [done|by apply prefix_app_r]].
    rewrite (Hx bytes eq_refl) in F. destruct bytes as [|b bytes]; cbv beta iota.
    + apply wp_mret. exists sent. by rewrite app_nil_r in F.
    + by apply (upload_block stream_taken h (b :: bytes) sent).
  - apply preserves_loop; [apply _|]. intros size. unfold read_stream. preserves_auto;
      first [apply linked_other | apply (transfer_write_all grows)].
Qed.

Lemma uploaded_later (g : event → list Byte.byte) `{!Wire (silent g)} remote mode (s s1 s' : st E) r :
  later s s1 → uploaded g remote mode s1 s' r → uploaded g remote mode s s' r.
Proof.
  intros L (h & sent & taken & F & P & H). exists h, sent, taken.
  split_and!; [by eapply begun_paired; [apply _..|apply later_begun|]|done|].
  intros Hr. destruct (H Hr) as (Ht & Hs & cwd & sf & rc & Hc & N1 & N2 & Hrc). split_and!; [done|done|].
  exists cwd, sf, rc. split_and!; [|by eapply later_new..|done].
  intros Hne. destruct L as (_ & L & _). unfold same_path in L. rewrite <- L. apply Hc. by rewrite L.
Qed.

Lemma file_block n (h : handle) (Q : option (list Byte.byte) → st E → Prop) (s0 s : st E) sent :
  paired (sent_on h) file_in s0 s sent sent → qhandle s = Some h → grows s0 s →
  (∀ b s', paired (sent_on h) file_in s0 s' sent (sent ++ default [] b) → qhandle s' = Some h → grows s0 s' → Q b s') →
  wp True (call (file_read n)) Q s.
Proof.
  intros F Hh G HQ. apply (wp_call _ (file_read n)). intros b e' _. apply HQ; [|done|].
  - pose proof (paired_logged _ _ _ _ _ _ (Ev (file_read n) b) e' F) as F1. rewrite app_nil_r in F1. by destruct b.
  - transitivity s; [done|apply frame_logged].
Qed.

(** The part of [transferFile] that follows the checks of the local file. *)
Lemma transfer_upload remote mode errstr to towrite (s : st E) :
  wp True (with_new_file remote mode errstr to (
            r ← loop fuel (λ size : Z,
                  if size <? towrite then
                    b ← (call (file_read (block_of (size_t (towrite - size)))) : M (option (list Byte.byte)));
                    match b with
                    | None =>
                        _ ← raise_exc true ExternalExc;
                        mret (inr None)
                    | Some bytes =>
                        failed ← write_all bytes errstr to;
                        mret (if failed : bool then inr None
                              else inl (size_t (size + Z.of_nat (length bytes))))
                    end
                  else mret (inr (Some size))) 0;
            match r with
            | None => mret (-1)
            | Some size => finish_upload size errstr to
            end)) (λ r s', uploaded file_in remote mode s s' r) s.
Proof.
  apply (wp_uploads file_in).
  - intros h s1 B1 H1. apply (wp_loop (λ size s2, upload_point file_in h s (Some size) s2));
      [|by apply (upload_start file_in)].
    intros size s2 (sent & F2 & Hsize & H2 & G2). destruct (size <? towrite).
    + wp_step. apply (file_block _ h _ s s2 sent F2 H2 G2). intros [bytes|] s3 F3 H3 G3; cbn [default id] in F3.
      * by apply (upload_block file_in h bytes sent).
      * rewrite app_nil_r in F3. wp_step. wp_world. apply wp_mret. exists sent, sent. split; [|done].
        eapply paired_begun; [apply _..|exact F3|apply linked_xsink].
    + apply wp_mret. by exists sent.
  - apply preserves_loop; [apply _|]. intros size. preserves_auto; apply (transfer_write_all grows).
Qed.

(** What [transferFile] sends is, on every way out, a prefix of what it read
    from the local file; when it returns a size, everything read was sent, in order and
    once, with the permissions of the local file unless a mode was given, and the file was
    closed. *)
Theorem transfer_file_exact (local remote : string) (mode to : Z) (s s' : st E) (r : Z) :
  sftpTransferFile local remote mode to s = Some (r, s') →
  r = -1 ∧ later s s' ∨ ∃ towrite st_mode, new s s' (Ev file_stat (Some (towrite, st_mode))) ∧
    uploaded file_in remote (if mode =? 0 then st_mode else mode) s s' r.
Proof.
  apply (wp_run _ (λ r s', r = -1 ∧ later s s' ∨ ∃ towrite st_mode, new s s' (Ev file_stat (Some (towrite, st_mode))) ∧
    uploaded file_in remote (if mode =? 0 then st_mode else mode) s s' r)).
  unfold sftpTransferFile. wp_step. apply wp_later; [unfold sandbox_denies; preserves_auto|].
  intros [] s1 L1; [wp_step; by left|]. wp_step. apply wp_later; [unfold or_raise; preserves_auto|].
  intros [] s2 L2; [wp_step; left; split; [done|by transitivity s1]|]. wp_step. apply (wp_call _ file_stat). intros a e' _.
  assert (later s s2) as L02 by by transitivity s1. set (s3 := logged s2 _ _).
  assert (later s s3) as L3 by by apply later_logged.
  assert (new s s3 (Ev file_stat a)) as N3 by (apply new_logged, L02). clearbody s3.
  destruct a as [[towrite st_mode]|].
  - eapply wp_mono; [|apply wp_and; [apply transfer_upload|apply (transfer_new_file grows)]].
    + intros r0 s4 [H4 G4]. right. exists towrite, st_mode. split; [by eapply new_grows|by eapply uploaded_later; [apply _|..]].
    + preserves_auto; first [apply (transfer_write_all grows) | apply (transfer_finish grows)].
  - wp_step. wp_world. apply wp_mret. left. split; [done|by apply later_raise].
Qed.

(** C8: What [putFile] sends is, on every way out, a prefix of the given data; when
    it returns a size, all of the data was sent, in order and once, the size is that of the
    data, and the file was closed. *)
Theorem put_file_exact (outb : list Byte.byte) (fname : string) (mode to : Z) (s s' : st E) (r : Z) :
  Z.of_nat (length outb) < 2 ^ 64 → sftpPutFile outb fname mode to s = Some (r, s') →
  ∃ h sent, advances (sent_on h) s s' sent ∧ sent `prefix_of` outb ∧
    (r ≠ -1 → sent = outb ∧ r = Z.of_nat (length outb) ∧ stored fname mode h s s').
Proof.
  intros Hlen. set (g := λ _ : event, [] : list Byte.byte). assert (Wire (silent g)) as Hg by (intros ???; reflexivity).
  set (F := λ h s1, advances (sent_on h) s s1).
  apply (wp_run _ (λ r s', ∃ h sent, F h s' sent ∧ sent `prefix_of` outb ∧
    (r ≠ -1 → sent = outb ∧ r = Z.of_nat (length outb) ∧ stored fname mode h s s'))).
  assert (∀ h n s1 s2, F h s1 (take n outb) → begun s1 s2 → ∃ h sent, F h s2 sent ∧ sent `prefix_of` outb ∧
    (-1 ≠ -1 → sent = outb ∧ -1 = Z.of_nat (length outb) ∧ stored fname mode h s s2)) as Hfail.
  { intros h n s1 s2 H B. exists h, (take n outb). split_and!; [by eapply begun_advances; [apply _|..]|apply prefix_take|done]. }
  unfold sftpPutFile. apply wp_new_file.
  { intros s1 B1. apply (Hfail 1%positive 0%nat s); [apply advances_refl|done]. }
  intros cwd sf h s1 B1 Hc N1 Hh. wp_step.
  apply (wp_mono _ _ (λ r s2, match r with
    | None => ∃ n, F h s2 (take n outb)
    | Some size => size = Z.of_nat (length outb) ∧ F h s2 outb ∧ qhandle s2 = Some h ∧ grows s1 s2 end)).
  - intros [size|] s2; cbv beta iota; [|intros [n H2]; apply wp_mret; intros s3 B3; by apply (Hfail h n s2)].
    intros (-> & F2 & H2 & G2). assert (grows s s2) as G by (transitivity s1; [apply B1|done]).
    eapply wp_mono; [|apply (finish_upload_post fname mode _ to cwd sf h); [done..|]].
    2: { by eapply new_grows; [exact N1|]. }
    intros rc s3 [B3 H3] s4 B4. destruct H3 as [->|[-> H3]].
    + apply (Hfail h (length outb) s2); [by rewrite take_ge|by transitivity s3].
    + exists h, outb. split_and!; [|done|by intros _; split_and!; [..|apply H3]].
      eapply begun_advances; [apply _|exact F2|]. by transitivity s3.
  - apply (wp_loop (λ size s2, ∃ n, (n ≤ length outb)%nat ∧ size = Z.of_nat n ∧ F h s2 (take n outb) ∧
      qhandle s2 = Some h ∧ grows s1 s2)).
    2: { exists 0%nat. split_and!; [lia|done| |done|done]. eapply begun_advances; [apply _|apply advances_refl|done]. }
    intros size s2 (n & Hn & -> & F2 & H2 & G2). destruct (Z.ltb_spec (Z.of_nat n) (Z.of_nat (length outb))).
    + wp_step. rewrite Nat2Z.id.
      eapply wp_mono; [|apply wp_and; [by apply (write_block_post h g (λ _ _ _, eq_refl))|apply (transfer_write_block grows)]].
      intros [rc|] s3 [H3 G3]; cbv beta iota in H3.
      2: { destruct H3 as [F3 _]. apply wp_mret. exists n. pose proof (advances_trans _ _ _ _ _ _ F2 F3) as F4.
           by rewrite app_nil_r in F4. }
      destruct H3 as ([F3 _] & H3 & Hrc). pose proof (advances_trans _ _ _ _ _ _ F2 F3) as F4.
      rewrite take_take_drop in F4. rewrite length_drop in Hrc. assert (grows s1 s3) as G by by transitivity s2.
      destruct (Z.ltb_spec rc 0).
      * wp_step. eapply wp_mono; [|apply (sftp_err begun)]. intros ? s4 B4. apply wp_mret. exists (n + Z.to_nat rc)%nat.
        by eapply begun_advances; [apply _|..].
      * apply wp_mret. exists (n + Z.to_nat rc)%nat. rewrite size_t_small by lia. split_and!; [lia..|done|done|done].
    + apply wp_mret. rewrite take_ge in F2 by lia. split_and!; [lia|done..].
Qed.
End flow.

(** * Defects of the code, as theorems *)

(** A server that reports a size and then ends the file at once. *)
Definition short_env (n : nat) : Env nat :=
  sim_env (λ _ r, match r with sftp_read _ _ => (0, []) | r => quiet_ans r end) n.

(** A file that has become shorter than the size reported for it is read for ever,
    whatever the iteration bound: an end of file is taken for an empty block. *)
Theorem short_file_hangs (n : nat) (block : Z → Z) (sink : list Byte.byte → prog (st nat) bool)
    (code to : Z) (errstr : string) (s : st nat) :
  @download nat (short_env n) 5 block sink code errstr to s = None.
Proof. destruct n as [|n]; [reflexivity|]. unfold download. apply lost_loop. intros s1. eexists. reflexivity. Qed.

(** An input stream of one block, during whose first read another thread
    disconnects the client. *)
Definition leaving_env : Env nat :=
  sim_env (λ i r, match r with
                  | istream_read_unlocked _ => if (i <? 10)%nat then ([OpDisconnect true 1000], Some [Byte.x61]) else ([], Some [])
                  | QZ (sftp_write _ data) => Z.of_nat (length data)
                  | r => quiet_ans r
                  end) 20.

Definition frees_session (e : event) : bool :=
  match e with Ev (QZ (session_free (Some _))) _ => true | _ => false end.

Definition writes_file (e : event) : bool :=
  match e with Ev (QZ (sftp_write (Some _) _)) _ => true | _ => false end.

(** A log, newest event first, in which a file is written after its session was freed. *)
Fixpoint write_after_free (log : list event) : bool :=
  match log with
  | [] => false
  | e :: log => writes_file e && existsb frees_session log || write_after_free log
  end.

(** [put] releases the lock while the stream is read and does not mark the client as in
    use: a disconnect of another thread frees the session, and the transfer goes on with
    the handle that was freed with it. *)
Theorem put_uses_freed_handle :
  write_after_free ∘ trace <$> final (@sftpPut nat leaving_env "f" 0x1A4 1000) sftp_state = Some true.
Proof. vm_compute. reflexivity. Qed.

(** ** Witnesses *)

Definition abc : list Byte.byte := [Byte.x61; Byte.x62; Byte.x63].

(** A server with a file of five bytes that hands over at most three at a time and
    takes at most two; a local file and a stream of three bytes. *)
Definition data_env : Env nat :=
  sim_env (λ i r, match r with
                  | sftp_stat _ _ _ => (0, mkAttrs LIBSSH2_SFTP_ATTR_PERMISSIONS 5 0 0 0x81A4 0 0)
                  | sftp_read _ n => if n <? 3 then (n, take (Z.to_nat n) abc) else (3, abc)
                  | QZ (sftp_write _ data) => Z.min 2 (Z.of_nat (length data))
                  | file_stat => Some (3, 0x81A4)
                  | file_read _ => Some abc
                  | istream_read_unlocked _ => if (i <? 5)%nat then ([], Some abc) else ([], Some [])
                  | r => quiet_ans r
                  end) 20.

#[export] Instance data_env_data : @SftpData nat data_env.
Proof.
  split.
  - intros h n e rc bytes. cbn. destruct (Z.ltb_spec n 3); intros [= <- <-] Hn; [|cbn; lia].
    rewrite length_take. cbn [length abc]. lia.
  - intros h data e rc. cbn. lia.
Qed.

Lemma sftp_api_registered_witness :
  ∃ s', @sftp_run nat data_env sftp_state s' ∧ registered s' ∧ grows sftp_state s'.
Proof.
  assert (registered sftp_state) as Hr by (split; [intros id; split; [set_solver|by intros [? ?]]..|set_solver|set_solver]).
  destruct (run_result (@run_sftp nat data_env (SGetFile "E" "f" 1000)) sftp_state tt) as (s' & Hrun & _);
    [vm_compute; reflexivity|].
  assert (@sftp_run nat data_env sftp_state s') as Hl by (eapply sftp_run_step; [apply sftp_run_refl|exact Hrun]).
  exists s'. split; [exact Hl|]. exact (@sftp_api_registered nat data_env sftp_state s' Hr Hl).
Defined.

Lemma get_file_exact_witness :
  ∃ s' a h, @get_file nat data_env "E" "f" 1000 sftp_state = Some (Some (abc ++ take 2 abc), s') ∧
    file_opened "f" a h sftp_state s' ∧ advances (received_on h) sftp_state s' (abc ++ take 2 abc).
Proof.
  destruct (run_result (@get_file nat data_env "E" "f" 1000) sftp_state (Some (abc ++ take 2 abc))) as (s' & Hrun & _);
    [vm_compute; reflexivity|].
  destruct (@get_file_exact nat data_env _ "E" "f" 1000 sftp_state s' _ Hrun) as (a & h & H1 & H2 & _).
  exists s', a, h. exact (conj Hrun (conj H1 H2)).
Defined.

Lemma retrieve_file_exact_witness :
  ∃ s', @sftpRetrieveFile nat data_env "f" "/tmp/f" 1000 0x1A4 sftp_state = Some (5, s') ∧
    delivered file_out (-1) "f" sftp_state s' 5.
Proof.
  destruct (run_result (@sftpRetrieveFile nat data_env "f" "/tmp/f" 1000 0x1A4) sftp_state 5) as (s' & Hrun & _);
    [vm_compute; reflexivity|].
  exists s'. exact (conj Hrun (@retrieve_file_exact nat data_env _ "f" "/tmp/f" 1000 0x1A4 sftp_state s' 5 Hrun)).
Defined.

Lemma get_stream_exact_witness :
  ∃ s', @sftpGet nat data_env "f" 1000 sftp_state = Some (5, s') ∧ delivered stream_given 0 "f" sftp_state s' 5.
Proof.
  destruct (run_result (@sftpGet nat data_env "f" 1000) sftp_state 5) as (s' & Hrun & _); [vm_compute; reflexivity|].
  exists s'. exact (conj Hrun (@get_stream_exact nat data_env _ "f" 1000 sftp_state s' 5 Hrun)).
Defined.

Lemma put_stream_exact_witness :
  ∃ s', @sftpPut nat data_env "f" 0x1A4 1000 sftp_state = Some (3, s') ∧
    uploaded stream_taken "f" 0x1A4 sftp_state s' 3.
Proof.
  destruct (run_result (@sftpPut nat data_env "f" 0x1A4 1000) sftp_state 3) as (s' & Hrun & _); [vm_compute; reflexivity|].
  exists s'. exact (conj Hrun (@put_stream_exact nat data_env _ "f" 0x1A4 1000 sftp_state s' 3 Hrun)).
Defined.

Lemma transfer_file_exact_witness :
  ∃ s', @sftpTransferFile nat data_env "/tmp/f" "f" 0 1000 sftp_state = Some (3, s') ∧
    ∃ towrite st_mode, new sftp_state s' (Ev file_stat (Some (towrite, st_mode))) ∧
      uploaded file_in "f" st_mode sftp_state s' 3.
Proof.
  destruct (run_result (@sftpTransferFile nat data_env "/tmp/f" "f" 0 1000) sftp_state 3) as (s' & Hrun & _);
    [vm_compute; reflexivity|].
  destruct (@transfer_file_exact nat data_env _ "/tmp/f" "f" 0 1000 sftp_state s' 3 Hrun) as [[H _]|H]; [discriminate H|].
  exists s'. exact (conj Hrun H).
Defined.

Lemma put_file_exact_witness :
  ∃ s' h, @sftpPutFile nat data_env abc "f" 0x1A4 1000 sftp_state = Some (3, s') ∧
    advances (sent_on h) sftp_state s' abc ∧ stored "f" 0x1A4 h sftp_state s'.
Proof.
  destruct (run_result (@sftpPutFile nat data_env abc "f" 0x1A4 1000) sftp_state 3) as (s' & Hrun & _);
    [vm_compute; reflexivity|].
  destruct (@put_file_exact nat data_env _ abc "f" 0x1A4 1000 sftp_state s' 3 ltac:(vm_compute; reflexivity) Hrun)
    as (h & sent & H1 & _ & H2).
  destruct (H2 ltac:(discriminate)) as (-> & _ & H3). exists s', h. exact (conj Hrun (conj H1 H3)).
Defined.
