(* ===== verification/Term.v ===== *)
(** Termination: the blocking operations return whatever the server does, as long as it
    makes the code ask again only finitely often. *)

From S2P Require Import Prelude Modes World Sim Defaults Transport Config HostKey Auth Connect Channel Session Sftp Transfer.

(** ** Answers that make the code ask again

    EAGAIN; another identity of the agent; another entry of a directory; data that was
    read - blocks come with an [int] or with their full size -, a write that was accepted, and
    a connection that is not established yet. *)
Definition again (r : req) : ans r → bool :=
  match r return ans r → bool with
  | QZ (sftp_write _ _) => λ a, (a =? LIBSSH2_ERROR_EAGAIN) || (0 <=? a)
  | QZ _ => λ a, a =? LIBSSH2_ERROR_EAGAIN
  | QH (agent_get_identity _ _) => λ a, bool_decide (is_Some a)
  | sftp_stat _ _ _ => λ a, fst a =? LIBSSH2_ERROR_EAGAIN
  | sftp_resolve _ _ _ => λ a, fst a =? LIBSSH2_ERROR_EAGAIN
  | sftp_statvfs _ _ => λ a, fst a =? LIBSSH2_ERROR_EAGAIN
  | sftp_readdir _ => λ a, (fst a =? LIBSSH2_ERROR_EAGAIN) || (0 <? fst a)
  | sftp_read _ _ => λ a, (as_int (fst a) =? LIBSSH2_ERROR_EAGAIN) || (0 <=? as_int (fst a)) || (0 <? fst a)
  | channel_read _ _ _ => λ a, (fst a =? LIBSSH2_ERROR_EAGAIN) || (0 <=? fst a)
  | connect_continuePoll _ => λ a, negb (fst a =? 0)
  | _ => λ _, false
  end.

(** [budget] bounds how often the environment will still do so. *)
Class Patience {E : Type} `{!Env E} (budget : E → nat) := {
  patience_mono r e : (budget (answer r e).2 ≤ budget e)%nat;
  patience_again r e : again r (answer r e).1 = true → (budget (answer r e).2 < budget e)%nat
}.

#[export] Instance patience_budget {E} `{!Env E} (budget : E → nat) : Patience budget → Budget budget.
Proof.
  intros H. split; [apply patience_mono|]. intros c e Ha. apply patience_again. rewrite Ha. by destruct c.
Qed.

(** ** Steps that cost

    [spending P m]: [m] ends without gaining patience, and a result in [P] has cost some. *)
Section spending.
Context {E : Type} `{!Env E} (budget : E → nat) `{!Patience budget}.

Abbreviation M := (prog (st E)).

Definition spending {A} (P : A → bool) (m : M A) : Prop :=
  ∀ s, (budget (env s) < fuel)%nat →
    wp False m (λ a s', (budget (env s') ≤ budget (env s))%nat ∧
                        (P a = true → (budget (env s') < budget (env s))%nat)) s.

Lemma spending_total {A} (P : A → bool) (m : M A) : spending P m → total budget m.
Proof. intros H s Hs. eapply wp_mono; [|by apply H]. by intros a s' [? _]. Qed.

Lemma spending_never {A} (m : M A) : total budget m → spending (λ _, false) m.
Proof. intros H s Hs. eapply wp_mono; [|by apply H]. intros a s' ?. by split. Qed.

Lemma spending_ret {A} (P : A → bool) (a : A) : P a = false → spending P (mret a).
Proof. intros H s _. apply wp_mret. split; [done|]. by rewrite H. Qed.

Lemma spending_bind {A B} (P : A → bool) (Q : B → bool) (m : M A) (k : A → M B) :
  spending P m → (∀ a, P a = true → total budget (k a)) → (∀ a, P a = false → spending Q (k a)) →
  spending Q (m ≫= k).
Proof.
  intros Hm Ht Hf s Hs. apply wp_bind. eapply wp_mono; [|by apply Hm]. intros a s1 [H1 H2]. simpl in *.
  destruct (P a) eqn:HP.
  - specialize (H2 eq_refl). eapply wp_mono; [|apply Ht; [done|lia]]. simpl. intros b s2 ?. split; lia.
  - eapply wp_mono; [|apply Hf; [done|lia]]. simpl. intros b s2 [??]. split; [lia|]. intros HQ. specialize (H0 HQ). lia.
Qed.

Lemma spending_call r : spending (again r) (call r).
Proof.
  intros s _. apply wp_call. intros a e' Ea. simpl.
  pose proof (patience_mono r (env s)) as H1. pose proof (patience_again r (env s)) as H2. by rewrite Ea in H1, H2.
Qed.

Lemma spending_callZ c : spending (λ a, a =? LIBSSH2_ERROR_EAGAIN) (callZ c).
Proof.
  intros s Hs. eapply wp_mono; [|by apply (spending_call (QZ c))]. intros a s' [H1 H2]. split; [done|].
  intros Ha. apply H2. simpl. destruct c; by rewrite ?Ha.
Qed.

(** A loop ends when going on costs. *)
Definition goes_on {A B} (r : A + B) : bool := match r with inl _ => true | inr _ => false end.

Lemma total_loop {A B} (body : A → M (A + B)) a :
  (∀ a, spending goes_on (body a)) → total budget (loop fuel body a).
Proof.
  intros Hb s Hs. apply (wp_loop_total (λ _ s', (budget (env s') ≤ budget (env s))%nat) (λ _ s', budget (env s')));
    [|lia..].
  intros a1 s1 H1. eapply wp_mono; [|apply Hb; lia]. intros [a2|b] s2 [H2 H3]; simpl in *; [|lia].
  specialize (H3 eq_refl). lia.
Qed.

Lemma total_eagain_loop (op : M Z) (wait : M bool) :
  spending (λ a, a =? LIBSSH2_ERROR_EAGAIN) op → total budget wait → total budget (while_eagain op wait).
Proof.
  intros Hop Hw. apply total_loop. intros _. eapply spending_bind; [exact Hop|..]; intros rc ->.
  - apply total_bind; [done|]. intros failed. by apply total_ret.
  - by apply spending_ret.
Qed.

Lemma total_retry_data {A} (op : M (Z * A)) (wait : M bool) :
  spending (λ a, fst a =? LIBSSH2_ERROR_EAGAIN) op → total budget wait → total budget (retry_data op wait).
Proof.
  intros Hop Hw. apply total_loop. intros _. eapply spending_bind; [exact Hop|..]; intros r ->.
  - apply total_bind; [done|]. intros failed. by apply total_ret.
  - by apply spending_ret.
Qed.
End spending.

(** Structural descent for steps that cost: the condition of a request is recorded, and
    decides the tests on it. *)
Ltac spending_step :=
  lazymatch goal with
  | |- spending _ _ (mbind _ (callZ _)) => eapply spending_bind; [apply spending_callZ|intros ? ?|intros ? ?]
  | |- spending _ _ (mbind _ (call ?r)) => eapply spending_bind; [apply (spending_call _ r)|intros ? ?|intros ? ?]
  | |- spending _ _ (mbind _ _) =>
      eapply spending_bind; [first [solve [eauto 2 with spending] | apply spending_never]|intros ? ?|intros ? ?]
  | |- spending _ _ (mret _) => apply spending_ret; done
  | |- spending _ _ (callZ _) => apply spending_callZ
  | |- spending _ _ (call ?r) => apply (spending_call _ r)
  | H : ?b = _ |- spending _ _ (if ?b then _ else _) => rewrite H
  | |- spending _ _ (if ?b then _ else _) => destruct b eqn:?; try (exfalso; simpl in *; lia)
  | |- spending _ _ (match ?x with _ => _ end) => destruct x eqn:?
  end.

Create HintDb spending discriminated.

#[export] Hint Extern 0 (Budget _) => typeclasses eauto : total spending.
#[export] Hint Extern 0 (Patience _) => typeclasses eauto : total spending.

Ltac termination :=
  repeat (cbv beta zeta;
    first [ done | solve [eauto 2 with total] | solve [eauto 2 with spending] | total_step | spending_step
          | match goal with
            | |- total _ (loop fuel _ _) => apply total_loop; intros ?
            | |- total _ (while_eagain _ _) => apply total_eagain_loop
            | |- total _ (retry_data _ _) => apply total_retry_data
            end ]).

(** ** Values of computations *)

(** [m] only yields values in [P]. *)
Definition yields {E} `{!Env E} {A} (P : A → Prop) (m : prog (st E) A) : Prop := ∀ s, wp True m (λ a _, P a) s.

Section connect.
Context {E : Type} `{!Env E} (budget : E → nat) `{!Patience budget}.

Abbreviation M := (prog (st E)).

Lemma yields_ret {A} (P : A → Prop) (a : A) : P a → yields P (mret a : M A).
Proof. intros H s. by apply wp_mret. Qed.

Lemma yields_bind {A B} (P : B → Prop) (m : M A) (k : A → M B) : (∀ a, yields P (k a)) → yields P (m ≫= k).
Proof. intros H s. apply wp_bind, wp_intro. intros a s' _. apply H. Qed.

Lemma total_yields {A B} (P : A → Prop) (m : M A) (k : A → M B) :
  total budget m → yields P m → (∀ a, P a → total budget (k a)) → total budget (m ≫= k).
Proof.
  intros Hm Hy Hk s Hs. apply wp_bind. eapply wp_mono; [|apply wp_both; [by apply Hm|by apply Hy]].
  intros a s1 [H1 H2]. simpl in H1. eapply wp_mono; [|apply Hk; [done|lia]]. simpl. lia.
Qed.

(** *** Disconnecting and waiting *)

#[local] Hint Resolve total_setBlocking total_check_cancel total_waitSocket_raw total_disconnect : total.

Lemma term_wait toerr err to : total budget (waitSocketUnlocked true toerr err to).
Proof. apply (total_waitSocket_gen budget). intros t. apply total_disconnect, _. Qed.

Lemma term_force_disconnect : total budget force_disconnect.
Proof. unfold force_disconnect. termination. Qed.

#[local] Hint Resolve term_wait term_force_disconnect : total.

Lemma term_checkPollOp xs : total budget (checkPollOpUnlocked xs).
Proof. unfold checkPollOpUnlocked. termination. Qed.

#[local] Hint Resolve term_checkPollOp : total.

Lemma term_disconnect_op force to xs : total budget (disconnect force to xs).
Proof. unfold disconnect. termination. Qed.

#[local] Hint Resolve term_disconnect_op : total.

Lemma term_connected : total budget sshConnectedUnlocked.
Proof. unfold sshConnectedUnlocked. termination. Qed.

Lemma term_with_blocking {A} (m : M A) : total budget m → total budget (with_blocking_helper m).
Proof. intros H. unfold with_blocking_helper. termination. Qed.

Lemma term_has_exc : total budget has_exc.
Proof. apply total_gets. Qed.

Lemma term_doSessionErr : total budget doSessionErrUnlocked.
Proof. unfold doSessionErrUnlocked. termination. Qed.

(** *** Calls of %Qore code *)

Lemma term_other_thread op : total budget (run_other_thread op).
Proof.
  unfold run_other_thread. destruct op; cbn [run_client_op];
    unfold setUser, setPassword, setKnownHostsFile, setVerifyHostKey, setHostKeyStore,
        setClientIdentityProvider, setMethodPreference, setBanner, setKeysFromData, setUseAgent,
        setKeepalive, setHostKeyPolicy, setClientAuthOrder, setClientIdentityFallbackPolicy,
        guarded_set, set_object, when_object, silent_set, ranged_set, reservePollOperation; termination.
Qed.

#[local] Hint Resolve term_connected term_has_exc term_doSessionErr term_other_thread : total.

Lemma term_eval obj method args : total budget (eval_unlocked obj method args).
Proof. unfold eval_unlocked. termination. Qed.

#[local] Hint Resolve term_eval : total.
End connect.

#[export] Hint Resolve total_setBlocking total_check_cancel total_waitSocket_raw total_disconnect term_wait
  term_force_disconnect term_checkPollOp term_disconnect_op term_connected term_has_exc term_doSessionErr
  term_other_thread term_eval : total.

(** ** Connecting *)

Section stages.
Context {E : Type} `{!Env E} (budget : E → nat) `{!Patience budget}.

Abbreviation M := (prog (st E)).

Lemma term_fs_access path mode xs : total budget (ssh2_check_fs_access path mode xs).
Proof. unfold ssh2_check_fs_access. termination. Qed.

#[local] Hint Resolve term_fs_access : total.

Lemma term_fs_quiet path mode : total budget (ssh2_fs_access_allowed_quiet path mode).
Proof. unfold ssh2_fs_access_allowed_quiet. termination. Qed.

Lemma term_unix_socket path fs xs : total budget (ssh2_check_unix_socket_access path fs xs).
Proof. unfold ssh2_check_unix_socket_access. termination. Qed.

Lemma term_addresses host l : total budget (check_addresses host l).
Proof. induction l as [|p l IH]; cbn [check_addresses]; termination. Qed.

#[local] Hint Resolve term_fs_quiet term_unix_socket term_addresses : total.

Lemma term_tunnel host port : total budget (ssh2_check_tunnel_destination host port).
Proof. unfold ssh2_check_tunnel_destination. termination. Qed.

(** *** Host keys *)

Lemma term_parent_dir path : total budget (ensure_parent_dir path).
Proof. unfold ensure_parent_dir. termination. Qed.

Lemma term_context purpose to : total budget (makeProviderContext purpose to).
Proof. unfold makeProviderContext. termination. Qed.

Lemma term_hash_string h key : total budget (ssh2_get_hash_string h key).
Proof. unfold ssh2_get_hash_string. termination. Qed.

#[local] Hint Resolve term_parent_dir term_context term_hash_string : total.

Lemma term_decision d : total budget (decision_of d).
Proof. unfold decision_of. termination. Qed.

#[local] Hint Resolve term_decision : total.

Lemma term_with_store store key ty to : total budget (verifyHostKeyWithStore store key ty to).
Proof. unfold verifyHostKeyWithStore, ssh2_call_host_key_store. termination. Qed.

Lemma term_load nh file : total budget (load_known_hosts nh file).
Proof. unfold load_known_hosts. termination. Qed.

Lemma term_persist nh file : total budget (persist_known_hosts nh file).
Proof. unfold persist_known_hosts. termination. Qed.

#[local] Hint Resolve term_with_store term_load term_persist : total.

Lemma term_verifyHostKey to : total budget (verifyHostKeyUnlocked to).
Proof. unfold verifyHostKeyUnlocked, refuse_host_key. termination. Qed.

(** *** Authentication *)

Lemma term_agent_reset a : total budget (agent_reset a).
Proof. unfold agent_reset. termination. Qed.

#[local] Hint Resolve term_agent_reset : total.

Lemma term_agent_start session a : total budget (agent_start session a).
Proof. unfold agent_start. termination. Qed.

(** The agent has an end of identities: another one costs. *)
Lemma spending_identity a : spending budget (λ r : bool * agent_helper, negb (fst r)) (agent_nextIdentity a).
Proof.
  unfold agent_nextIdentity. cbv zeta. eapply spending_bind; [apply (spending_call budget (QH (agent_get_identity _ _)))|..].
  - intros i _. termination.
  - intros i Hi. simpl in Hi. destruct i; [done|]. by apply spending_ret.
Qed.

#[local] Hint Resolve term_agent_start spending_identity : total spending.

Lemma spending_userauth a : spending budget (λ a, a =? LIBSSH2_ERROR_EAGAIN) (agent_userauth_call a).
Proof. unfold agent_userauth_call. termination. Qed.

Lemma spending_authCall a : spending budget (λ a, a =? LIBSSH2_ERROR_EAGAIN) (authCallUnlocked a).
Proof. unfold authCallUnlocked. termination. Qed.

#[local] Hint Resolve spending_userauth spending_authCall : spending.

Lemma term_agentAuth to : total budget (tryAgentAuth to).
Proof.
  unfold tryAgentAuth. termination.
Qed.

#[local] Hint Resolve term_agentAuth : total.

Lemma term_checkAccess a : total budget (checkAuthAttemptAccessUnlocked a).
Proof. unfold checkAuthAttemptAccessUnlocked. termination. Qed.

#[local] Hint Resolve term_checkAccess : total.

Lemma term_runAttempt provider to a :
  (kind a = PROVIDER → total budget provider) → total budget (runAuthAttempt_with provider to a).
Proof.
  intros H. unfold runAuthAttempt_with, setAuthenticatedWithUnlocked. destruct (kind a); [|by apply H|..]; termination.
Qed.

Lemma term_run_plan run plan : Forall (λ a, total budget (run a)) plan → total budget (run_plan run plan).
Proof. induction 1 as [|a plan Ha _ IH]; cbn [run_plan]; termination. Qed.

Definition not_provider (a : Ssh2AuthAttempt) : Prop := kind a ≠ PROVIDER.

Lemma term_required h key : total budget (required_string h key).
Proof. unfold required_string. termination. Qed.

#[local] Hint Resolve term_required : total.

Lemma term_material optional material : total budget (resolve_material optional material).
Proof. unfold resolve_material, file_attempt, memory_attempt, invalid_response. termination. Qed.

Lemma term_candidates to : total budget (getProviderCandidatesUnlocked to).
Proof. unfold getProviderCandidatesUnlocked. termination. Qed.

#[local] Hint Resolve term_material term_candidates : total.

Lemma term_resolve v to : total budget (resolveProviderCandidateUnlocked v to).
Proof. unfold resolveProviderCandidateUnlocked, file_attempt, invalid_response. termination. Qed.

#[local] Hint Resolve term_resolve : total.

Ltac yields_auto :=
  repeat (cbv beta zeta;
    first [ lazymatch goal with
            | |- yields _ (mbind _ _) => apply yields_bind; intros ?
            | |- yields _ (mret _) => apply yields_ret; simpl; by repeat first [case_match | constructor]
            | |- yields _ (if ?b then _ else _) => destruct b
            | |- yields _ (match ?x with _ => _ end) => destruct x
            end
          | progress unfold resolve_material, file_attempt, memory_attempt, invalid_response, addMemoryKeyAttempt ]).

(** A candidate adds no provider attempts. *)
Lemma yields_resolve v to :
  yields (λ r : bool * list Ssh2AuthAttempt, Forall not_provider (snd r)) (resolveProviderCandidateUnlocked v to).
Proof. unfold resolveProviderCandidateUnlocked. yields_auto. Qed.

(** A candidate stands for one attempt at most. *)
Lemma yields_one v to :
  yields (λ r : bool * list Ssh2AuthAttempt, (length (snd r) ≤ 1)%nat) (resolveProviderCandidateUnlocked v to).
Proof. unfold resolveProviderCandidateUnlocked. yields_auto. Qed.

Lemma term_try_candidates run to i l :
  (∀ a, not_provider a → total budget (run a)) → total budget (try_candidates run to i l).
Proof.
  intros Hr. revert i. induction l as [|v l IH]; intros i; cbn [try_candidates]; [termination|].
  total_step; [termination|]. total_step; [termination|].
  eapply total_yields; [termination|apply yields_resolve|]. intros [failed plan] Hp. simpl in Hp. termination.
  apply term_run_plan. eapply Forall_impl; [exact Hp|exact Hr].
Qed.

Lemma term_providerAuth to : total budget (tryProviderAuth to).
Proof.
  unfold tryProviderAuth, tryProviderAuth_with. termination. apply term_try_candidates.
  intros x Hx. by apply term_runAttempt.
Qed.

#[local] Hint Resolve term_providerAuth : total.

Lemma term_authAttempt to a : total budget (runAuthAttemptUnlocked to a).
Proof. apply term_runAttempt. intros _. apply term_providerAuth. Qed.

(** *** The connect *)

Lemma term_authenticate to : total budget (authenticate to).
Proof.
  unfold authenticate, get_userauth_list, buildAuthPlanUnlocked, finishConnectUnlocked. termination.
  apply term_run_plan, Forall_forall. intros x _. apply term_authAttempt.
Qed.

#[local] Hint Resolve term_verifyHostKey term_authenticate : total.

Lemma term_establish to : total budget (establish to).
Proof. unfold establish, holdSessionDescriptorUnlocked, prepareSessionUnlocked, startupUnlocked. termination. Qed.

#[local] Hint Resolve term_establish : total.

Lemma term_sshConnectUnlocked to : total budget (sshConnectUnlocked to).
Proof. unfold sshConnectUnlocked, checkConnectPreconditionsUnlocked. termination. Qed.

#[local] Hint Resolve term_sshConnectUnlocked : total.

Lemma term_sshConnect to : total budget (sshConnect to).
Proof. unfold sshConnect. termination. Qed.
End stages.

#[export] Hint Resolve term_fs_access term_unix_socket term_tunnel term_sshConnectUnlocked : total.

(** ** Channels *)

Section channels.
Context {E : Type} `{!Env E} (budget : E → nat) `{!Patience budget}.

Abbreviation M := (prog (st E)).

Lemma term_get_chan id : total budget (get_chan id).
Proof. apply total_gets. Qed.

Lemma term_get_lst id : total budget (get_lst id).
Proof. apply total_gets. Qed.

#[local] Hint Resolve term_get_chan term_get_lst term_with_blocking : total.
#[local] Hint Extern 3 (total budget (with_blocking_helper _)) => apply term_with_blocking; termination : total.

Lemma term_check_open id : total budget (check_open id).
Proof. unfold check_open. termination. Qed.

Lemma term_open_loop (open : M ptr) toerr err to : total budget open → total budget (open_loop open toerr err to).
Proof. intros H. unfold open_loop. termination. Qed.

#[local] Hint Extern 3 (total budget (open_loop _ _ _ _)) => apply term_open_loop; termination : total.
#[local] Hint Resolve term_check_open : total.

Lemma term_register h : total budget (registerChannelUnlockedRaw h).
Proof. unfold registerChannelUnlockedRaw. termination. Qed.

Lemma term_register_listener l port : total budget (registerListenerUnlocked l port).
Proof. unfold registerListenerUnlocked. termination. Qed.

#[local] Hint Resolve term_register term_register_listener : total.

Lemma term_open_channel mk err to : total budget (open_channel mk err to).
Proof. unfold open_channel. termination. Qed.

Lemma term_listen host port qs bound to : total budget (forwardListen host port qs bound to).
Proof. unfold forwardListen. termination. Qed.

Lemma term_accept id to : total budget (accept id to).
Proof. unfold accept. termination. Qed.

Lemma term_request id op err failed to : total budget (chan_request id op err failed to).
Proof. unfold chan_request. termination. Qed.

(** A chunk that was read has cost. *)
Lemma spending_chunk id stream size :
  spending budget (λ r : Z * list Byte.byte, (fst r =? LIBSSH2_ERROR_EAGAIN) || (0 <=? fst r)) (read_chunk id stream size).
Proof.
  unfold read_chunk. eapply spending_bind; [apply spending_never; termination|termination|]. intros c _.
  eapply spending_bind; [apply (spending_call budget (channel_read c stream size))|..]; intros [rc bytes] Hrc.
  - termination.
  - by apply spending_ret.
Qed.

#[local] Hint Resolve spending_chunk : spending.
#[local] Hint Extern 2 (total _ (read_chunk _ _ _)) => eapply spending_total, spending_chunk : total.

Lemma term_read_available id stream to err : total budget (read_available id stream to err).
Proof. unfold read_available. termination. Qed.

Lemma term_read_buffer id size stream to : total budget (read_buffer id size stream to).
Proof. unfold read_buffer. termination. Qed.

Lemma term_lifecycle op : total budget (run_lifecycle op).
Proof.
  destruct op; cbn [run_lifecycle];
    unfold channel_destructor, listener_destructor, listener_cancel, listener_cancelUnlocked, channelDeletedUnlocked,
      channel_closeUnlocked, listenerDeletedUnlocked; termination.
Qed.

#[local] Hint Resolve term_open_channel term_listen term_accept term_request term_read_available
  term_read_buffer term_lifecycle : total.
#[local] Hint Extern 2 (total _ (ssh2_check_tunnel_destination _ _)) => apply term_tunnel, _ : total.
#[local] Hint Extern 2 (total _ (ssh2_check_unix_socket_access _ _ _)) => apply term_unix_socket, _ : total.

(** The operations whose loops do not depend on errors: a read of a given size and a write
    go on after an error ([sized_read_hangs], [write_repeats_after_error]). *)
Definition bounded_channel_op (a : channel_api) : bool :=
  match a with
  | AMethod _ (MReadSize _ _ _) | AMethod _ (MWrite _ _ _) | AScpGet _ _ | AScpPut _ _ _ _ _ _ => false
  | _ => true
  end.

Lemma term_api a : bounded_channel_op a = true → total budget (run_api a).
Proof.
  intros Ha. destruct a as [| | | | |id m| | |]; try done; cbn [run_api];
    unfold openDirectTcpipChannel, openDirectStreamLocalChannel; try solve [termination].
  destruct m; try done; cbn [run_method]; unfold channel_is_eof, getExitStatus; termination.
Qed.
End channels.

(** ** SFTP *)

Section sftp.
Context {E : Type} `{!Env E} (budget : E → nat) `{!Patience budget}.

Abbreviation M := (prog (st E)).

#[local] Hint Extern 3 (total budget (with_blocking_helper _)) => apply term_with_blocking; termination : total.

Lemma term_set_qhandle h : total budget (set_qhandle h).
Proof. unfold set_qhandle. termination. Qed.

#[local] Hint Resolve term_set_qhandle : total.
#[local] Hint Extern 2 (total budget (waitSocket_in_disconnect _ _ _ _)) => apply (total_wait_in_disconnect budget) : total.

Lemma term_closeIntern errstr to : total budget (closeIntern errstr to).
Proof. unfold closeIntern. termination. Qed.

#[local] Hint Resolve term_closeIntern : total.

Lemma term_tryClose errstr to : total budget (tryClose errstr to).
Proof. unfold tryClose. termination. Qed.

#[local] Hint Resolve term_tryClose : total.

Lemma term_qh_wait errstr to : total budget (qh_waitSocket errstr to).
Proof. apply (total_waitSocket_gen budget). intros t. apply (total_disconnect_virtual budget), term_tryClose. Qed.

Lemma term_with_qh {A} errstr to (m : M A) : total budget m → total budget (with_qh errstr to m).
Proof. intros H. unfold with_qh. termination. Qed.

#[local] Hint Resolve term_qh_wait : total.
#[local] Hint Extern 3 (total budget (with_qh _ _ _)) => apply term_with_qh; termination : total.

Lemma term_still_connected : total budget check_still_connected.
Proof. unfold check_still_connected, waitSocket_dir. termination. Qed.

#[local] Hint Resolve term_still_connected : total.

Lemma term_qh_err errstr to : total budget (qh_err errstr to).
Proof. unfold qh_err, sftp_doSessionErr, sftp_session_err. termination. Qed.

Lemma term_qh_err_codes errstr to e se : total budget (qh_err_codes errstr to e se).
Proof. unfold qh_err_codes, sftp_session_err. termination. Qed.

#[local] Hint Resolve term_qh_err term_qh_err_codes : total.

Lemma term_open_handle (open : M ptr) errstr to : total budget open → total budget (open_handle open errstr to).
Proof. intros H. unfold open_handle. termination. Qed.

#[local] Hint Extern 3 (total budget (open_handle _ _ _)) => apply term_open_handle; termination : total.

Lemma term_stat path errstr follow to : total budget (stat_loop path errstr follow to).
Proof. unfold stat_loop. termination. Qed.

Lemma term_resolve_path path op errstr to : total budget (resolve_loop path op errstr to).
Proof. unfold resolve_loop. termination. Qed.

#[local] Hint Resolve term_stat term_resolve_path : total.

Lemma term_local_sink {A} (m : M A) : total budget m → total budget (with_local_sink m).
Proof. intros H. unfold with_local_sink. termination. Qed.

Lemma term_isAlive to : total budget (sftpIsAliveUnlocked to).
Proof. unfold sftpIsAliveUnlocked. termination. Qed.

#[local] Hint Resolve term_isAlive : total.
#[local] Hint Extern 3 (total budget (with_local_sink _)) => apply term_local_sink; termination : total.

Lemma term_sftpConnected : total budget sftpConnectedUnlocked.
Proof. unfold sftpConnectedUnlocked. termination. Qed.

Lemma term_init_sftp errstr to : total budget (init_sftp errstr to).
Proof. unfold init_sftp. termination. Qed.

Lemma term_init_path errstr to : total budget (init_path errstr to).
Proof. unfold init_path. termination. Qed.

#[local] Hint Resolve term_sftpConnected term_init_sftp term_init_path : total.

Lemma term_sftpConnect to : total budget (sftpConnectUnlocked to).
Proof. unfold sftpConnectUnlocked. termination. Qed.

#[local] Hint Resolve term_sftpConnect : total.

Lemma term_ensure_connected to : total budget (ensure_connected to).
Proof. unfold ensure_connected. termination. Qed.

#[local] Hint Resolve term_ensure_connected : total.

Lemma term_path_op errstr to empty op : total budget (path_op errstr to empty op).
Proof. unfold path_op, path_request. termination. Qed.

Lemma term_get_attributes follow errstr fname to : total budget (get_attributes follow errstr fname to).
Proof. unfold get_attributes. termination. Qed.

Lemma term_chmod file mode to : total budget (sftpChmod file mode to).
Proof. unfold sftpChmod, setstat_loop. termination. Qed.

Lemma term_chown file uid gid to : total budget (sftpChown file uid gid to).
Proof. unfold sftpChown, setstat_loop. termination. Qed.

Lemma term_statvfs path to : total budget (sftpStatvfs path to).
Proof. unfold sftpStatvfs. termination. Qed.

Lemma term_symlink target link to : total budget (sftpSymlink target link to).
Proof. unfold sftpSymlink, sftpSymlinkResolvesUnlocked. termination. Qed.

Lemma term_readlink path to : total budget (sftpReadlink path to).
Proof. unfold sftpReadlink. termination. Qed.

Lemma term_chdir nwd to : total budget (sftpChdir nwd to).
Proof. unfold sftpChdir. termination. Qed.

(** *** Listings: an entry that was read has cost, EAGAIN too *)

Lemma spending_retry {A} (P : Z → bool) (op : M (Z * A)) (wait : M bool) :
  spending budget (λ a, (fst a =? LIBSSH2_ERROR_EAGAIN) || P (fst a)) op → total budget wait →
  spending budget (λ r : option (Z * A), match r with Some (rc, _) => P rc | None => false end) (retry_data op wait).
Proof.
  intros Hop Hw s Hs. unfold retry_data.
  apply (wp_loop_total (λ _ s', (budget (env s') ≤ budget (env s))%nat) (λ _ s', budget (env s'))); [|lia..].
  intros _ s1 H1. apply wp_bind. eapply wp_mono; [|apply Hop; lia]. intros [rc x] s2 [H2 H3]. simpl in *.
  destruct (rc =? LIBSSH2_ERROR_EAGAIN) eqn:Hrc.
  - specialize (H3 eq_refl). apply wp_bind. eapply wp_mono; [|apply Hw; lia]. intros failed s3 H4. simpl in *.
    apply wp_mret. destruct failed; [split; [lia|done]|]. split; lia.
  - apply wp_mret. split; [lia|]. intros HP. specialize (H3 HP). lia.
Qed.

Lemma term_read_entries errstr to : total budget (read_entries errstr to).
Proof.
  unfold read_entries. apply total_loop. intros entries.
  eapply spending_bind; [apply (spending_retry (λ rc, 0 <? rc)); [|termination]|intros ? _; termination|].
  - eapply spending_bind; [apply spending_never; termination|termination|]. intros h _.
    apply (spending_call budget (sftp_readdir h)).
  - intros [[rc entry]|] Hr; simpl in Hr; termination.
Qed.

#[local] Hint Resolve term_read_entries : total.

Lemma term_list path errstr to : total budget (list_entries path errstr to).
Proof. unfold list_entries. termination. Qed.
End sftp.

(** ** Transfers *)

Section transfers.
Context {E : Type} `{!Env E} (budget : E → nat) `{!Patience budget}.

Abbreviation M := (prog (st E)).

#[local] Hint Extern 3 (total budget (with_blocking_helper _)) => apply term_with_blocking; termination : total.
#[local] Hint Extern 3 (total budget (with_qh _ _ _)) => apply term_with_qh; termination : total.
#[local] Hint Extern 3 (total budget (open_handle _ _ _)) => apply term_open_handle; termination : total.
#[local] Hint Resolve term_stat term_ensure_connected term_qh_err term_qh_wait term_closeIntern : total.

Lemma term_open_for_read fname errstr to : total budget (open_for_read fname errstr to).
Proof. unfold open_for_read. termination. Qed.

(** A block that was read has cost. *)
Lemma spending_block n errstr to :
  spending budget (λ r : option (Z * list Byte.byte), match r with Some (rc, _) => 0 <=? rc | None => false end)
    (read_block n errstr to).
Proof.
  apply (spending_retry budget (λ rc, 0 <=? rc)); [|termination].
  eapply spending_bind; [apply spending_never; termination|termination|]. intros h _.
  eapply spending_bind; [apply (spending_call budget (sftp_read h n))|..]; intros [rc bytes] Hrc; simpl in Hrc.
  - termination.
  - apply orb_false_iff in Hrc as [Hrc _]. by apply spending_ret.
Qed.

Lemma term_download fsize block sink code errstr to :
  (∀ bytes, total budget (sink bytes)) → total budget (download fsize block sink code errstr to).
Proof.
  intros Hsink. unfold download. apply total_loop. intros [tot data]. cbv zeta. spending_step; [termination|].
  eapply spending_bind; [apply spending_block|intros ? _|].
  - termination.
  - intros [[rc bytes]|] Hr; simpl in Hr; termination.
Qed.

Lemma term_remote_file {A} remote errstr to (v : A) body :
  (∀ fsize, total budget (body fsize)) → total budget (with_remote_file remote errstr to v body).
Proof.
  intros H. unfold with_remote_file. pose proof term_open_for_read. termination.
Qed.

(** *** Uploads: a block that was accepted has cost *)

Lemma spending_while (P : Z → bool) (op : M Z) (wait : M bool) :
  spending budget (λ a, (a =? LIBSSH2_ERROR_EAGAIN) || P a) op → total budget wait →
  spending budget (λ r : option Z, match r with Some rc => P rc | None => false end) (while_eagain op wait).
Proof.
  intros Hop Hw s Hs. unfold while_eagain.
  apply (wp_loop_total (λ _ s', (budget (env s') ≤ budget (env s))%nat) (λ _ s', budget (env s'))); [|lia..].
  intros _ s1 H1. apply wp_bind. eapply wp_mono; [|apply Hop; lia]. intros rc s2 [H2 H3]. simpl in *.
  destruct (rc =? LIBSSH2_ERROR_EAGAIN) eqn:Hrc.
  - specialize (H3 eq_refl). apply wp_bind. eapply wp_mono; [|apply Hw; lia]. intros failed s3 H4. simpl in *.
    apply wp_mret. destruct failed; [split; [lia|done]|]. split; lia.
  - apply wp_mret. split; [lia|]. intros HP. specialize (H3 HP). lia.
Qed.

Lemma spending_write_block data errstr to :
  spending budget (λ r : option Z, match r with Some rc => 0 <=? rc | None => false end) (write_block data errstr to).
Proof.
  apply (spending_while (λ rc, 0 <=? rc)); [|termination].
  eapply spending_bind; [apply spending_never; termination|termination|]. intros h _.
  apply (spending_call budget (QZ (sftp_write h data))).
Qed.

(** A loop spends when its last iteration does. *)
Lemma spending_loop {A B} (P : B → bool) (body : A → M (A + B)) a :
  (∀ a, spending budget (λ r, match r with inl _ => true | inr b => P b end) (body a)) → spending budget P (loop fuel body a).
Proof.
  intros Hb s Hs. apply (wp_loop_total (λ _ s', (budget (env s') ≤ budget (env s))%nat) (λ _ s', budget (env s')));
    [|lia..].
  intros a1 s1 H1. eapply wp_mono; [|apply Hb; lia]. intros [a2|b] s2 [H2 H3]; simpl in *.
  - specialize (H3 eq_refl). lia.
  - split; [lia|]. intros HP. specialize (H3 HP). lia.
Qed.

Lemma spending_write_all buf errstr to : spending budget negb (write_all buf errstr to).
Proof.
  unfold write_all. apply spending_loop. intros n. eapply spending_bind; [apply spending_write_block|intros ? _; termination|].
  intros [rc|] Hr; simpl in Hr; termination.
Qed.

Lemma term_finish size errstr to : total budget (finish_upload size errstr to).
Proof. unfold finish_upload. termination. Qed.

#[local] Hint Resolve term_finish : total.

Lemma term_new_file remote mode errstr to body : total budget body → total budget (with_new_file remote mode errstr to body).
Proof. intros H. unfold with_new_file, open_for_write. termination. Qed.

Lemma term_get_file errstr file to : total budget (get_file errstr file to).
Proof.
  apply term_remote_file. intros fsize. total_step; [|termination]. apply term_download. intros. termination.
Qed.

Lemma term_or_raise c : total budget (or_raise c).
Proof. unfold or_raise. termination. Qed.

Lemma term_sandbox_denies path mode : total budget (sandbox_denies path mode).
Proof. unfold sandbox_denies. termination. Qed.

#[local] Hint Resolve term_or_raise term_sandbox_denies : total.

Lemma term_retrieve remote local to mode : total budget (sftpRetrieveFile remote local to mode).
Proof.
  apply term_remote_file. intros fsize. termination. apply term_download. intros. termination.
Qed.

Lemma term_get remote to : total budget (sftpGet remote to).
Proof.
  apply term_remote_file. intros fsize. total_step; [|termination]. apply term_download. intros.
  unfold stream_sink. termination.
Qed.

Lemma term_put_file outb fname mode to : total budget (sftpPutFile outb fname mode to).
Proof.
  apply term_new_file. total_step; [|termination]. apply total_loop. intros size. spending_step; [|termination].
  eapply spending_bind; [apply spending_write_block|intros ? _; termination|]. intros [rc|] Hr; simpl in Hr; termination.
Qed.

Lemma term_transfer_file local remote mode to : total budget (sftpTransferFile local remote mode to).
Proof.
  unfold sftpTransferFile. termination. apply term_new_file. total_step; [|termination]. apply total_loop. intros size.
  spending_step; [|termination]. eapply spending_bind; [apply spending_never; termination|intros ? ?; done|].
  intros [bytes|] _; [|termination].
  eapply spending_bind; [apply spending_write_all|intros ? _; termination|]. intros [] Hr; [termination|done].
Qed.

Lemma term_put remote mode to : total budget (sftpPut remote mode to).
Proof.
  apply term_new_file. total_step; [|termination]. apply total_loop. intros size. unfold read_stream.
  eapply spending_bind; [apply spending_never; termination|intros ? ?; done|]. intros [[|b bytes]|] _; [termination| |termination].
  eapply spending_bind; [apply spending_write_all|intros ? _; termination|]. intros [] Hr; [termination|done].
Qed.

Lemma term_run_sftp a : total budget (run_sftp a).
Proof.
  destruct a; cbn [run_sftp]; (apply total_bind; [|intros ?; apply total_ret]).
  - apply term_sftpConnect, _.
  - apply term_local_sink, term_isAlive, _.
  - apply term_isAlive, _.
  - apply term_disconnect_op, _.
  - apply term_path_op, _.
  - apply term_path_op, _.
  - apply term_path_op, _.
  - apply term_path_op, _.
  - apply term_get_attributes, _.
  - apply term_chmod, _.
  - apply term_chown, _.
  - apply term_statvfs, _.
  - apply term_symlink, _.
  - apply term_readlink, _.
  - apply term_chdir, _.
  - apply term_list, _.
  - apply term_get_file.
  - apply term_retrieve.
  - apply term_get.
  - apply term_put_file.
  - apply term_transfer_file.
  - apply term_put.
Qed.
End transfers.

(** * Theorems *)

Section theorems.
Context {E : Type} `{!Env E} (budget : E → nat) `{!Patience budget}.

Abbreviation M := (prog (st E)).

Lemma total_returns {A} (m : M A) (s : st E) :
  total budget m → (budget (env s) < fuel)%nat →
  ∃ a s', m s = Some (a, s') ∧ (budget (env s') ≤ budget (env s))%nat.
Proof.
  intros Hm Hs. specialize (Hm s Hs). unfold wp in Hm. destruct (m s) as [[a s']|]; [|done]. by exists a, s'.
Qed.

(** C16: A connect returns, whatever the server, the agent, the identity provider, the host
    key store and other threads do, as long as they make the code ask again only finitely
    often: every stage, every authentication attempt and every clean-up of a failed connect
    ends. *)
Theorem connect_terminates (to : Z) (s : st E) :
  (budget (env s) < fuel)%nat →
  ∃ rc s', sshConnect to s = Some (rc, s') ∧ (budget (env s') ≤ budget (env s))%nat.
Proof. apply total_returns, term_sshConnect, _. Qed.


(** C29: So do opening channels and listeners of every kind, accepting, all requests on a
    channel, reading what is available, and releasing them. *)
Theorem channel_operation_terminates (a : channel_api) (s : st E) :
  bounded_channel_op a = true → (budget (env s) < fuel)%nat →
  ∃ s', run_api a s = Some (tt, s') ∧ (budget (env s') ≤ budget (env s))%nat.
Proof. intros Ha Hs. by destruct (total_returns _ _ (term_api budget a Ha) Hs) as ([] & H). Qed.
End theorems.

(** * A hesitant server

    It answers EAGAIN, and delivers identities, entries and data, as often as its state
    says; after that it makes an end. *)

Definition hesitation (r : req) : ans r :=
  match r return ans r with
  | QZ (session_handshake _ _) | QZ (userauth_password _ _ _) | QZ (sftp_request _ _) | QZ (channel_op _ _)
  | QZ (World.session_disconnect _) => LIBSSH2_ERROR_EAGAIN
  | sftp_read _ _ => (4, [Byte.x61; Byte.x62; Byte.x63; Byte.x64])
  | sftp_stat _ _ _ => (0, mkAttrs 0 100 0 0 0 0 0)
  | sftp_readdir _ => (1, ("a"%string, mkAttrs 0 0 0 0 0 0 0))
  | r => quiet_ans r
  end.

Definition conclusion (r : req) : ans r :=
  match r return ans r with
  | QZ (sftp_write _ _) => -1
  | QH (agent_get_identity _ _) => None
  | sftp_read _ _ | channel_read _ _ _ => (-1, [])
  | r => quiet_ans r
  end.

Definition hesitant_env : Env nat :=
  {| answer r n := if again r (hesitation r) then match n with S m => (hesitation r, m) | O => (conclusion r, O) end
                   else (hesitation r, n);
     fuel := 20 |}.

Lemma conclusion_ends r : again r (hesitation r) = true → again r (conclusion r) = false.
Proof. destruct r as [[]|[]|[]|[]|[]| | | | | | | | | | | | | | | | | | | | | | |]; try done. Qed.

Lemma hesitant_patience : @Patience nat hesitant_env id.
Proof.
  split; intros r n; unfold answer, hesitant_env; destruct (again r (hesitation r)) eqn:Ha, n as [|n]; simpl;
    try lia; intros H; try lia; congruence || (rewrite (conclusion_ends r Ha) in H; done).
Qed.

Definition hesitant_state (k : client_class) (n : nat) : st nat := (state0 (client0 k)) <| env := n |>.

Lemma connect_terminates_witness :
  ∃ rc s', @sshConnect nat hesitant_env 1000 (hesitant_state SSH2ClientClass 10) = Some (rc, s') ∧ rc = 0 ∧
    (env s' < 10)%nat.
Proof.
  destruct (@connect_terminates nat hesitant_env id hesitant_patience 1000 (hesitant_state SSH2ClientClass 10))
    as (rc & s' & H & _); [vm_compute; lia|].
  exists rc, s'. split; [exact H|]. vm_compute in H. injection H as <- <-. split; [reflexivity|vm_compute; lia].
Defined.


Lemma channel_operation_terminates_witness :
  ∃ s', @run_api nat hesitant_env (AMethod 1 (MRequest CoShell "SSH2CHANNEL-SHELL-ERROR" nonzero 1000))
      ((state_two SSH2ClientClass) <| env := 10%nat |>) = Some (tt, s') ∧ (env s' < 10)%nat.
Proof.
  destruct (@channel_operation_terminates nat hesitant_env id hesitant_patience
    (AMethod 1 (MRequest CoShell "SSH2CHANNEL-SHELL-ERROR" nonzero 1000))
    ((state_two SSH2ClientClass) <| env := 10%nat |>)) as (s' & H & _); [reflexivity|vm_compute; lia|].
  exists s'. split; [exact H|]. vm_compute in H. injection H as <-. vm_compute. lia.
Defined.
