(* ===== verification/Server.v ===== *)
(** A server that serves one file without delay: the specification of the environment, the
    rules for its answers, and the blocking retrieval of the file. *)

From S2P Require Import Prelude Modes World Sim Defaults Transport Config HostKey Auth Connect Session Sftp Transfer.

(** The requests that move the position in the open file. *)
Definition moves_position (r : req) : bool :=
  match r with sftp_read _ _ | QH (sftp_open _ _ _ _) => true | _ => false end.

(** A server with a file of the given content; [pos] is the position in the open file.
    A read delivers at least one byte of what is left, at most what was asked for. *)
Class Serving {E : Type} `{!Env E} (content : list Byte.byte) (pos : E → nat) := {
  serving_size : Z.of_nat (length content) < 2 ^ 31;
  serving_running e : (answer (QB check_cancel) e).1 = false;
  serving_socket e : 0 ≤ (answer (QZ socket_getSocket) e).1;
  serving_getfl fd e : 0 ≤ (answer (QZ (fcntl_getfl fd)) e).1;
  serving_setfl fd flags e : 0 ≤ (answer (QZ (fcntl_setfl fd flags)) e).1;
  serving_opendir sf path e : is_Some (answer (QH (sftp_opendir sf path)) e).1;
  serving_stat sf path e :
    ∃ a, (answer (sftp_stat sf path true) e).1 = (0, a) ∧ at_filesize a = Z.of_nat (length content);
  serving_open sf path flags mode e :
    is_Some (answer (QH (sftp_open sf path flags mode)) e).1 ∧
    pos (answer (QH (sftp_open sf path flags mode)) e).2 = 0%nat;
  serving_read h k e : 0 < k → (pos e < length content)%nat →
    ∃ n bytes, (answer (sftp_read h k) e).1 = (Z.of_nat n, bytes) ∧ (0 < n)%nat ∧ Z.of_nat n ≤ k ∧
      (pos e + n ≤ length content)%nat ∧ take n bytes = take n (drop (pos e) content) ∧
      pos (answer (sftp_read h k) e).2 = (pos e + n)%nat;
  serving_close h e : (answer (QZ (sftp_close_handle h)) e).1 ≠ LIBSSH2_ERROR_EAGAIN;
  serving_pos r e : moves_position r = false → pos (answer r e).2 = pos e
}.

Section server.
Context {E : Type} `{!Env E} (content : list Byte.byte) (pos : E → nat) `{!Serving content pos}.

Abbreviation M := (prog (st E)).

(** A request that leaves the position alone, and whose answer is known. *)
Lemma wp_served r (Pr : ans r → Prop) (Q : ans r → st E → Prop) (s : st E) :
  (∀ e, Pr (answer r e).1) → moves_position r = false →
  (∀ a e', Pr a → pos e' = pos (env s) → Q a (logged s (Ev r a) e')) → wp False (call r) Q s.
Proof.
  intros HP Hm HQ. apply wp_call. intros a e' Ha. pose proof (serving_pos r (env s) Hm) as Hpos.
  specialize (HP (env s)). rewrite Ha in HP, Hpos. by apply HQ.
Qed.

(** Nothing happens but requests that leave the position alone. *)
Definition at_rest (s s' : st E) : Prop := cl s' = cl s ∧ pos (env s') = pos (env s).

#[export] Instance at_rest_preorder : PreOrder at_rest.
Proof. split; [by intros s|]. intros s1 s2 s3 [A1 A2] [B1 B2]. split; congruence. Qed.

Definition rests {A} (m : M A) : Prop := ∀ s, wp False m (λ _ s', at_rest s s') s.

Lemma rests_step {A B} (m : M A) (k : A → M B) (Q : B → st E → Prop) s :
  rests m → (∀ a s', at_rest s s' → wp False (k a) Q s') → wp False (m ≫= k) Q s.
Proof. intros Hm HQ. wp_step. eapply wp_mono; [|apply Hm]. exact HQ. Qed.

Lemma rests_call r : moves_position r = false → rests (call r).
Proof. intros Hr s. by apply (wp_served r (λ _, True)); [..|intros a e' _ Hp; split]. Qed.

Lemma rests_set_blocking b : rests (setBlockingUnlocked b).
Proof.
  intros s. unfold setBlockingUnlocked. wp_step. wp_world. wp_step; [|reflexivity].
  by apply (rests_call (QU (session_set_blocking _ _))).
Qed.

Lemma rests_set_qhandle h : rests (set_qhandle h).
Proof. intros s. unfold set_qhandle. wp_step. done. Qed.

(** A loop that ends in its first iteration. *)
Lemma wp_loop_once {A B} (body : A → M (A + B)) a (Q : B → st E → Prop) s :
  (0 < fuel)%nat → wp False (body a) (λ r s', match r with inl _ => False | inr b => Q b s' end) s →
  wp False (loop fuel body a) Q s.
Proof.
  intros Hf Hb. destruct fuel as [|f]; [lia|]. cbn [loop]. wp_step. eapply wp_mono; [|exact Hb]. by intros [?|?] ? ?.
Qed.

Context (Hfuel : (length content < fuel)%nat).

Lemma rests_tryClose errstr to : rests (tryClose errstr to).
Proof.
  intros s. unfold tryClose. wp_step. wp_step. wp_step; [|reflexivity]. wp_step. unfold closeIntern. wp_step.
  apply wp_loop_once; [lia|]. wp_step. wp_step. wp_step.
  apply (wp_served (QZ (sftp_close_handle _)) (λ z, z ≠ LIBSSH2_ERROR_EAGAIN)); [apply serving_close|done|].
  intros rc e' Hrc Hp. destruct (Z.eqb_spec rc LIBSSH2_ERROR_EAGAIN); [done|]. wp_step.
  apply rests_step; [apply rests_set_qhandle|]. intros _ s1 [H1 H2]. wp_step. wp_step. split; simpl in *; congruence.
Qed.

(** The life of a helper around a body. *)
Lemma serve_qh {A} errstr to (m : M A) (Q : A → st E → Prop) s :
  (∀ s1, at_rest s s1 → wp False m (λ a s2, ∀ s3, at_rest s2 s3 → Q a s3) s1) → wp False (with_qh errstr to m) Q s.
Proof.
  intros Hm. unfold with_qh. wp_step. wp_step. apply rests_step; [apply rests_set_qhandle|]. intros _ s1 H1.
  wp_step. eapply wp_mono; [|by apply Hm]. intros a s2 HQ. cbv beta.
  apply rests_step; [apply rests_tryClose|]. intros _ s3 H3.
  apply rests_step; [apply rests_set_qhandle|]. intros _ s4 H4. wp_step. apply HQ. by transitivity s3.
Qed.

Lemma serve_blocking {A} (m : M A) (Q : A → st E → Prop) s :
  (∀ s1, at_rest s s1 → wp False m (λ a s2, ∀ s3, at_rest s2 s3 → Q a s3) s1) → wp False (with_blocking_helper m) Q s.
Proof.
  intros Hm. unfold with_blocking_helper. apply rests_step; [apply rests_set_blocking|]. intros _ s1 H1.
  wp_step. eapply wp_mono; [|by apply Hm]. intros a s2 HQ. cbv beta.
  apply rests_step; [apply rests_set_blocking|]. intros _ s3 H3. wp_step. by apply HQ.
Qed.

(** ** The blocking retrieval *)

Lemma serve_alive to (Q : bool → st E → Prop) s :
  (∀ s', at_rest s s' → Q true s') → wp False (sftpIsAliveUnlocked to) Q s.
Proof.
  intros HQ. unfold sftpIsAliveUnlocked. wp_step. wp_step. cbv zeta. apply serve_qh. intros s1 H1. wp_step.
  apply (wp_served (QH (sftp_opendir _ _)) is_Some); [apply serving_opendir|done|]. intros h e' [x ->] Hp.
  apply rests_step; [apply rests_set_qhandle|]. intros _ s2 [H2 P2]. simpl in *. wp_step. intros s3 H3. apply HQ.
  transitivity s1; [done|]. transitivity s2; [|done]. split; congruence.
Qed.

Lemma serve_connected to (Q : bool → st E → Prop) s :
  is_Some (sftp_session (cl s)) → (∀ s', at_rest s s' → Q false s') → wp False (ensure_connected to) Q s.
Proof.
  intros Hsf HQ. unfold ensure_connected, sftpConnectedUnlocked. wp_step. wp_step. wp_world.
  rewrite bool_decide_true by done. unfold with_local_sink. wp_step. wp_step. wp_step. wp_step. wp_step.
  apply serve_alive. intros s1 [H1 P1]. wp_step. wp_step. wp_step. wp_step. by apply HQ.
Qed.

Lemma serve_stat path errstr to (Q : option (Z * attrs) → st E → Prop) s :
  (∀ a s', at_rest s s' → at_filesize a = Z.of_nat (length content) → Q (Some (0, a)) s') →
  wp False (stat_loop path errstr true to) Q s.
Proof.
  intros HQ. unfold stat_loop, retry_data. apply wp_loop_once; [lia|]. wp_step. wp_step. wp_world.
  apply (wp_served (sftp_stat (sftp_session (cl s)) path true)
    (λ r, ∃ a, r = (0, a) ∧ at_filesize a = Z.of_nat (length content))); [apply serving_stat|done|].
  intros r e' (a & -> & Ha) Hp. cbn [fst]. change (0 =? LIBSSH2_ERROR_EAGAIN) with false. cbv iota. wp_step.
  apply HQ; [by split|done].
Qed.

Lemma serve_open_file fname errstr to (Q : option Z → st E → Prop) s :
  (∀ s', cl s' = cl s → pos (env s') = 0%nat → Q (Some (Z.of_nat (length content))) s') →
  wp False (open_for_read fname errstr to) Q s.
Proof.
  intros HQ. unfold open_for_read. wp_step. apply serve_stat. intros a s1 [H1 _] Ha. cbv iota beta.
  change (0 <? 0) with false. cbv iota. wp_step. unfold open_handle. apply wp_loop_once; [lia|].
  wp_step. wp_step. wp_world. apply wp_callH. intros h e' Hans.
  pose proof (serving_open (sftp_session (cl s1)) fname LIBSSH2_FXF_READ (at_permissions a) (env s1)) as [[x Hx] Hp].
  rewrite Hans in Hx, Hp. simpl in Hx, Hp. subst h.
  apply rests_step; [apply rests_set_qhandle|]. intros _ s2 [H2 P2]. simpl in *. wp_step. wp_step. rewrite Ha.
  apply HQ; congruence.
Qed.

(** Where the read loop is: [data] are the first bytes of the file. *)
Definition read_to (c : client) (data : list Byte.byte) (s : st E) : Prop :=
  cl s = c ∧ data = take (pos (env s)) content ∧ (pos (env s) ≤ length content)%nat.

Lemma serve_block k errstr to (Q : option (Z * list Byte.byte) → st E → Prop) s :
  0 < k → (pos (env s) < length content)%nat →
  (∀ n bytes s', cl s' = cl s → (0 < n)%nat → pos (env s') = (pos (env s) + n)%nat → (pos (env s') ≤ length content)%nat →
     bytes = take n (drop (pos (env s)) content) → Q (Some (Z.of_nat n, bytes)) s') →
  wp False (read_block k errstr to) Q s.
Proof.
  intros Hk Hpos HQ. pose proof serving_size as Hsz. unfold read_block, retry_data. apply wp_loop_once; [lia|].
  wp_step. wp_step. wp_step. wp_step. apply (wp_call _ (sftp_read (qhandle s) k)). intros r e' Hans.
  destruct (serving_read (qhandle s) k (env s) Hk Hpos) as (n & bytes & Hr & Hn & _ & Hle & Hb & Hp').
  rewrite Hans in Hr, Hp'. simpl in Hr, Hp'. subst r. cbv iota. wp_step. rewrite as_int_small by lia. cbn [fst].
  destruct (Z.eqb_spec (Z.of_nat n) LIBSSH2_ERROR_EAGAIN) as [H|_]; [unfold LIBSSH2_ERROR_EAGAIN in H; lia|].
  wp_step. rewrite Nat2Z.id. by apply HQ; simpl; rewrite ?Hp'.
Qed.

Lemma serve_download errstr to (Q : Z + list Byte.byte → st E → Prop) s :
  pos (env s) = 0%nat → (∀ s', cl s' = cl s → Q (inr content) s') →
  wp False (download (Z.of_nat (length content)) (λ n, n) (λ _, mret false) (-1) errstr to) Q s.
Proof.
  intros Hp HQ. pose proof serving_size as Hsz. unfold download.
  apply (wp_loop_total (λ '(tot, data) s1, read_to (cl s) data s1 ∧ tot = Z.of_nat (pos (env s1)))
    (λ _ s1, length content - pos (env s1))%nat); [|unfold read_to; rewrite Hp; by split_and!; [done..|lia|]|lia].
  intros [tot data] s1 [(Hc & Hd & Hle) ->]. cbv zeta. rewrite size_t_small by lia.
  destruct (Z.eqb_spec (Z.of_nat (length content) - Z.of_nat (pos (env s1))) 0) as [He|Hne].
  - wp_step. rewrite Hd, take_ge by lia. by apply HQ.
  - wp_step. apply serve_block; [lia..|]. intros n bytes s2 Hc2 Hn Hp2 Hle2 ->. cbv iota beta.
    destruct (Z.ltb_spec (Z.of_nat n) 0); [lia|]. wp_step. destruct (Z.eqb_spec (Z.of_nat n) 0); [lia|]. wp_step.
    cbv iota. rewrite size_t_small by lia. wp_step.
    assert (data ++ take n (drop (pos (env s1)) content) = take (pos (env s2)) content) as ->.
    { rewrite Hd, Hp2. apply take_take_drop. }
    destruct (Z.leb_spec (Z.of_nat (length content)) (Z.of_nat (pos (env s1)) + Z.of_nat n)) as [Hend|Hmore].
    + rewrite take_ge by lia. apply HQ. congruence.
    + unfold read_to. rewrite Hc2, Hc, Hp2. split_and!; try done; lia.
Qed.

Lemma serve_get_file errstr file to (Q : option (list Byte.byte) → st E → Prop) s :
  is_Some (sftp_session (cl s)) → (∀ s', cl s' = cl s → Q (Some content) s') → wp False (get_file errstr file to) Q s.
Proof.
  intros Hsf HQ. unfold get_file, with_remote_file. wp_step. apply serve_connected; [done|]. intros s1 [H1 _]. cbv iota.
  wp_step. wp_world. apply serve_blocking. intros s2 [H2 _]. apply serve_qh. intros s3 [H3 _]. wp_step.
  apply serve_open_file. intros s4 H4 P4. cbv iota. wp_step. apply serve_download; [done|]. intros s5 H5. wp_step.
  intros s6 [H6 _] s7 [H7 _]. apply HQ. congruence.
Qed.
End server.
