(* ===== verification/Poll.v ===== *)
(** The non-blocking retrieval of a file (SftpPollOperation.h, SftpPollOperation.cpp):
    a state machine that is advanced by [continuePoll] and reports the events it waits
    for.  Each case of the switch of [continuePollIntern] is a definition, and so is each
    handler; [lift] runs an operation of the client from the operation. *)

From stdpp Require Import pretty.
From S2P Require Import Prelude Modes World Sim Defaults Transport Config HostKey Auth Connect Session Sftp Transfer.

(** The number of read calls between checks for cancellation. *)
Definition SFTP_POLL_CANCEL_CHECK_INTERVAL : nat := 16.
Definition SFTP_AGENT_NO_MORE : Z := 1.
Definition SFTP_AGENT_ERROR : Z := -1.

Inductive SftpPollState :=
  | START | CONNECTING | HANDSHAKE | AUTHLIST | AUTH | SFTP_INIT | REALPATH | STAT | OPEN | READ
  | CLOSE | DONE | CLOSED.

#[export] Instance poll_state_eq_dec : EqDecision SftpPollState.
Proof. solve_decision. Defined.

(** [SftpPollOperationPriv] *)
Record poll := mkPoll {
  po_path : string;
  po_timeout : Z;
  po_state : SftpPollState;
  po_fd : Z;
  po_connect : ptr;
  po_auth_queue : list Ssh2AuthAttempt;
  po_attempt_checked : bool;
  po_loggedin : bool;
  po_candidates : option (list qval);
  po_index : nat;
  po_agent : option agent_helper;
  po_need_identity : bool;
  po_reused : bool;
  po_retried : bool;
  po_handle : ptr;
  po_abs_path : string;
  po_file_size : Z;
  po_permissions : Z;
  po_bytes_read : Z;
  po_read_calls : nat;
  po_data : list Byte.byte;
  po_restore : bool;
  po_reserved : bool
}.

#[export] Instance eta_poll : Eta poll := λ p,
  mkPoll p.(po_path) p.(po_timeout) p.(po_state) p.(po_fd) p.(po_connect) p.(po_auth_queue)
    p.(po_attempt_checked) p.(po_loggedin) p.(po_candidates) p.(po_index) p.(po_agent)
    p.(po_need_identity) p.(po_reused) p.(po_retried) p.(po_handle) p.(po_abs_path)
    p.(po_file_size) p.(po_permissions) p.(po_bytes_read) p.(po_read_calls) p.(po_data)
    p.(po_restore) p.(po_reserved).

(** A new operation. *)
Definition new_poll (path : string) (timeout_ms : Z) : poll :=
  mkPoll path timeout_ms START (-1) None [] false false None 0 None true false false None
    EmptyString 0 0 0 0 [] false true.

(** A [SocketPollInfo] hash on the client's descriptor: the events, the extra
    descriptors with theirs, and the time limit. *)
Record poll_info := mkInfo {
  pi_events : Z;
  pi_extra : list (Z * Z);
  pi_timeout : option Z
}.

(** The operation and the client it uses. *)
Record pst (E : Type) := mkPst { op : poll; base : st E }.
Arguments mkPst {E} _ _.
Arguments op {E} _.
Arguments base {E} _.

#[export] Instance eta_pst {E} : Eta (pst E) := λ p, mkPst (op p) (base p).

Definition getOutput (o : poll) : option (list Byte.byte) :=
  match po_state o with DONE => Some (po_data o) | _ => None end.

Definition goalReached (o : poll) : bool := bool_decide (po_state o = DONE).

Definition getStateImpl (o : poll) : string :=
  match po_state o with
  | START => "start"
  | CONNECTING => "connecting"
  | HANDSHAKE => "ssh-handshake"
  | AUTHLIST => "ssh-auth-list"
  | AUTH => "ssh-auth"
  | SFTP_INIT => "sftp-init"
  | REALPATH => "sftp-realpath"
  | STAT => "sftp-stat"
  | OPEN => "sftp-open"
  | READ => "sftp-read"
  | CLOSE => "sftp-close"
  | DONE => "done"
  | CLOSED => "closed"
  end.

Definition finished (st : SftpPollState) : bool := bool_decide (st = DONE) || bool_decide (st = CLOSED).

(** IPv6 addresses are given in bracket notation. *)
Definition connect_target (host : string) (port : Z) : string :=
  if existsb (Ascii.eqb ":") (list_ascii_of_string host)
  then ("[" ++ host ++ "]:" ++ pretty port)%string
  else (host ++ ":" ++ pretty port)%string.

(** The events of an extra descriptor. *)
Definition extra_events (want_read want_write : bool) : Z :=
  let ev := Z.lor (if want_read then SOCK_POLLIN else 0) (if want_write then SOCK_POLLOUT else 0) in
  if ev =? 0 then SOCK_POLLIN else ev.

(** The events for the directions a session is blocked on. *)
Definition session_events (dir : Z) : Z :=
  let ev := Z.lor (if has dir LIBSSH2_SESSION_BLOCK_INBOUND then SOCK_POLLIN else 0)
                  (if has dir LIBSSH2_SESSION_BLOCK_OUTBOUND then SOCK_POLLOUT else 0) in
  if ev =? 0 then SOCK_POLLIN else ev.

Section poll.
Context {E : Type} `{!Env E}.

Abbreviation M := (prog (st E)).
Abbreviation P := (prog (pst E)).

(** An operation of the client. *)
Definition lift {A} (m : M A) : P A := λ p,
  match m (base p) with
  | Some (a, s) => Some (a, mkPst (op p) s)
  | None => None
  end.

Definition pfield {A} (f : poll → A) : P A := gets (λ p, f (op p)).
Definition pupd (f : poll → poll) : P unit := modify (λ p, p <| op := f (op p) |>).
Definition set_state (st : SftpPollState) : P unit := pupd (λ o, o <| po_state := st |>).

(** [agent.reset()] *)
Definition drop_agent : P unit :=
  a ← pfield po_agent;
  match a with
  | None => mret tt
  | Some a =>
      _ ← lift (agent_reset a);
      pupd (λ o, o <| po_agent := None |>)
  end.

Definition setFdNonBlocking (fd : Z) (non_blocking : bool) : M Z :=
  if fd <? 0 then mret (-1)
  else
    flags ← callZ (fcntl_getfl fd);
    if flags <? 0 then mret (-1)
    else
      let new_flags := if non_blocking then Z.lor flags O_NONBLOCK else Z.ldiff flags O_NONBLOCK in
      if new_flags =? flags then mret 1
      else
        rc ← callZ (fcntl_setfl fd new_flags);
        mret (if rc <? 0 then -1 else 0).

Definition restoreBlockingIntern : P unit :=
  r ← pfield po_restore;
  when r (
    _ ← lift (setBlockingUnlocked true);
    pupd (λ o, o <| po_restore := false |>)).

(** The close loop of [closeIntern]: whether the session must be dropped *)
Definition close_handle (disconnect : bool) (timeout_ms : Z) (h : ptr) : M bool :=
  loop fuel (λ _ : unit,
    rc ← callZ (sftp_close_handle h);
    if rc =? LIBSSH2_ERROR_EAGAIN then
      failed ← waitSocket_in_disconnect true "SFTPCLIENT-TIMEOUT" "SFTPCLIENT-CLOSE-ERROR" timeout_ms;
      mret (if failed : bool then inr true else inl tt)
    else mret (inr disconnect)) tt.

(** Dropping the connection, established or not. *)
Definition drop_connection (timeout_ms : Z) : M unit :=
  s ← cfield ssh_session;
  if bool_decide (is_Some s) then
    _ ← disconnectUnlocked true timeout_ms true; mret tt
  else closeTransportUnlocked.

(** [SftpPollOperationPriv::closeIntern] *)
Definition poll_closeIntern (disconnect : bool) : P unit :=
  _ ← drop_agent;
  _ ← pupd (λ o, o <| po_candidates := None |>);
  _ ← pupd (λ o, o <| po_connect := None |>);
  h ← pfield po_handle;
  timeout_ms ← pfield po_timeout;
  disconnect ← (if bool_decide (is_Some h) then
                  d ← lift (close_handle disconnect timeout_ms h);
                  _ ← pupd (λ o, o <| po_handle := None |>);
                  mret d
                else mret disconnect);
  _ ← when disconnect (lift (drop_connection timeout_ms));
  _ ← restoreBlockingIntern;
  st ← pfield po_state;
  _ ← when (negb (bool_decide (st = DONE))) (set_state CLOSED);
  reserved ← pfield po_reserved;
  when reserved (
    _ ← lift (upd (λ c, c <| poll_op_in_progress := false |>));
    pupd (λ o, o <| po_reserved := false |>)).

(** [closeIntern(xsink, disconnect); return nullptr;] *)
Definition leave (disconnect : bool) : P (option poll_info) :=
  _ ← poll_closeIntern disconnect;
  mret None.

(** [sessionError(xsink, ...)] *)
Definition sessionError : P unit := lift sftp_doSessionErr.

(** [raise(...); closeIntern(xsink, disconnect); return nullptr;] *)
Definition fail_with (e : exc) (disconnect : bool) : P (option poll_info) :=
  _ ← lift (raise_exc true e);
  leave disconnect.

Definition advance (st : SftpPollState) : P (option poll_info) :=
  _ ← set_state st;
  mret None.

Definition getPollInfo (fd events : Z) (extra_fds : list (Z * bool * bool)) (timeout_ms : Z) : P (option poll_info) :=
  let extra := (λ '(fd, r, w), (fd, extra_events r w)) <$> extra_fds in
  if (fd <? 0) && bool_decide (extra = []) && (timeout_ms <? 0) then
    fail_with (Exc "SSH2-POLL-ERROR" NoDetail) true
  else
    _ ← pupd (λ o, o <| po_fd := fd |>);
    failed ← lift has_exc;
    if failed : bool then leave true
    else mret (Some (mkInfo (if fd <? 0 then 0 else events) extra
                       (if 0 <=? timeout_ms then Some timeout_ms else None))).

Definition getSessionPollInfo : P (option poll_info) :=
  s ← lift (cfield ssh_session);
  dir ← lift (callZ (session_block_directions s));
  fd ← lift (callZ socket_getSocket);
  getPollInfo fd (session_events dir) [] (-1).

Definition connectionLost : M bool :=
  c ← gets cl;
  if bool_decide (ssh_session c = None) then mret true
  else
    err ← callZ (session_last_errno (ssh_session c));
    if (err =? LIBSSH2_ERROR_SOCKET_SEND) || (err =? LIBSSH2_ERROR_SOCKET_RECV)
       || (err =? LIBSSH2_ERROR_SOCKET_DISCONNECT) || (err =? LIBSSH2_ERROR_SOCKET_TIMEOUT)
    then mret true
    else if err =? LIBSSH2_ERROR_SFTP_PROTOCOL then
      if bool_decide (sftp_session c = None) then mret false
      else
        serr ← callZ (sftp_last_error (sftp_session c));
        mret ((serr =? LIBSSH2_FX_NO_CONNECTION) || (serr =? LIBSSH2_FX_CONNECTION_LOST))
    else mret false.

(** What was read from a dead session is discarded. *)
Definition restarted (o : poll) : poll :=
  o <| po_restore := false |> <| po_abs_path := EmptyString |> <| po_file_size := 0 |>
    <| po_permissions := 0 |> <| po_bytes_read := 0 |> <| po_read_calls := 0%nat |> <| po_data := [] |>
    <| po_state := START |>.

Definition retryAfterConnectionLoss : P bool :=
  o ← gets op;
  if negb (po_reused o) || po_retried o then mret false
  else
    lost ← lift connectionLost;
    if negb lost then mret false
    else
      _ ← pupd (λ o, o <| po_retried := true |>);
      _ ← lift (disconnectUnlocked true (po_timeout o) false);
      _ ← pupd restarted;
      mret true.

(** The socket of a connection is put into non-blocking mode: true when that failed. *)
Definition make_nonblocking : P bool :=
  fd ← lift (callZ socket_getSocket);
  rc ← lift (setFdNonBlocking fd true);
  _ ← when (rc <? 0) (lift (raise true "SSH2-POLL-ERROR"));
  mret (rc <? 0).

(** ** The stages *)

(** The case START of [continuePollIntern] *)
Definition handleStart : P (option poll_info) :=
  c ← lift (gets cl);
  if bool_decide (is_Some (ssh_session c)) then
    _ ← pupd (λ o, o <| po_reused := true |>);
    _ ← set_state (if bool_decide (is_Some (sftp_session c)) then STAT else SFTP_INIT);
    failed ← make_nonblocking;
    if failed : bool then leave false
    else
      _ ← lift (setBlockingUnlocked false);
      _ ← pupd (λ o, o <| po_restore := true |>);
      mret None
  else
    failed ← lift checkConnectPreconditionsUnlocked;
    if failed : bool then leave false
    else
      c ← lift (gets cl);
      '(cs, raised) ← (lift (call (socket_startConnect (connect_target (sshhost c) (sshport c)))) : P (ptr * bool));
      _ ← when raised (lift (raise_exc true ExternalExc));
      _ ← pupd (λ o, o <| po_connect := cs |>);
      failed ← lift has_exc;
      if failed || bool_decide (cs = None) then
        _ ← when (negb failed) (lift (raise true "SSH2CLIENT-CONNECT-ERROR"));
        leave true
      else advance CONNECTING.

Definition handleConnecting : P (option poll_info) :=
  cs ← pfield po_connect;
  '(rc, raised) ← (lift (call (connect_continuePoll cs)) : P (Z * bool));
  _ ← when raised (lift (raise_exc true ExternalExc));
  failed ← lift has_exc;
  if failed : bool then leave true
  else if negb (rc =? 0) then
    '(extra, timeout_ms) ← (lift (call (connect_wait_info cs)) : P (list (Z * bool * bool) * Z));
    fd ← lift (callZ socket_getSocket);
    getPollInfo fd rc extra timeout_ms
  else
    _ ← pupd (λ o, o <| po_connect := None |>);
    failed ← lift holdSessionDescriptorUnlocked;
    if failed : bool then leave true
    else
      failed ← make_nonblocking;
      if failed : bool then leave true
      else
        failed ← lift prepareSessionUnlocked;
        if failed : bool then leave false
        else
          _ ← pupd (λ o, o <| po_restore := true |>);
          advance HANDSHAKE.

Definition handleHandshake : P (option poll_info) :=
  rc ← lift startupUnlocked;
  if rc =? LIBSSH2_ERROR_EAGAIN then getSessionPollInfo
  else if negb (rc =? 0) then fail_with (Exc "SSH2-ERROR" NoDetail) true
  else
    timeout_ms ← pfield po_timeout;
    failed ← lift (verifyHostKeyUnlocked timeout_ms);
    if failed : bool then leave false else advance AUTHLIST.

Definition handleAuthList : P (option poll_info) :=
  c ← lift (gets cl);
  userauthlist ← lift (callS (userauth_list (ssh_session c) (sshuser c)));
  pending ← match userauthlist with
            | Some _ => mret false
            | None =>
                err ← lift (callZ (session_last_errno (ssh_session c)));
                mret (err =? LIBSSH2_ERROR_EAGAIN)
            end;
  if pending : bool then getSessionPollInfo
  else
    plan ← lift (buildAuthPlanUnlocked userauthlist);
    _ ← pupd (λ o, o <| po_auth_queue := plan |>);
    advance AUTH.

(** [stepAgentAuth] *)
Definition stepAgentAuth : P Z :=
  a ← pfield po_agent;
  unusable ← match a with
             | Some _ => mret false
             | None =>
                 session ← lift (cfield ssh_session);
                 '(unusable, a) ← lift (agent_start session new_agent);
                 _ ← pupd (λ o, o <| po_agent := Some a |>);
                 _ ← (if unusable : bool then drop_agent
                      else pupd (λ o, o <| po_need_identity := true |>));
                 mret unusable
             end;
  if unusable : bool then mret SFTP_AGENT_NO_MORE
  else
    loop fuel (λ _ : unit,
      a ← pfield po_agent;
      let a := default new_agent a in
      need ← pfield po_need_identity;
      stop ← (if need : bool then
                cancelled ← lift (qore_check_cancel true);
                if cancelled : bool then
                  _ ← drop_agent;
                  mret (Some SFTP_AGENT_ERROR)
                else
                  '(no_more, a) ← lift (agent_nextIdentity a);
                  _ ← pupd (λ o, o <| po_agent := Some a |>);
                  if no_more : bool then
                    _ ← drop_agent;
                    mret (Some SFTP_AGENT_NO_MORE)
                  else
                    _ ← pupd (λ o, o <| po_need_identity := false |>);
                    mret None
              else mret None);
      match stop with
      | Some code => mret (inr code)
      | None =>
          a ← pfield po_agent;
          rc ← lift (agent_userauth_call (default new_agent a));
          if rc =? LIBSSH2_ERROR_EAGAIN then mret (inr LIBSSH2_ERROR_EAGAIN)
          else if rc =? 0 then mret (inr 0)
          else
            _ ← pupd (λ o, o <| po_need_identity := true |>);
            mret (inl tt)
      end) tt.

Definition pop_attempt : P unit := pupd (λ o, o <| po_auth_queue := tail (po_auth_queue o) |>).

(** [expandProviderAttempt]: true when it returns -1 *)
Definition expandProviderAttempt : P bool :=
  available ← lift (cfield (λ c, publicKeyAuthAvailable (auth_methods c)));
  if negb available then
    _ ← pop_attempt;
    mret false
  else
    timeout_ms ← pfield po_timeout;
    known ← pfield po_candidates;
    failed ← match known with
             | Some _ => mret false
             | None =>
                 l ← lift (getProviderCandidatesUnlocked timeout_ms);
                 _ ← pupd (λ o, o <| po_candidates := l |>);
                 _ ← when (bool_decide (is_Some l)) (pupd (λ o, o <| po_index := 0%nat |>));
                 mret (bool_decide (l = None))
             end;
    if failed : bool then mret true
    else
      candidates ← pfield po_candidates;
      index ← pfield po_index;
      match default [] candidates !! index with
      | None =>
          _ ← pop_attempt;
          _ ← pupd (λ o, o <| po_candidates := None |>);
          mret false
      | Some v =>
          cancelled ← lift (qore_check_cancel true);
          if cancelled : bool then mret true
          else
            _ ← pupd (λ o, o <| po_index := S index |>);
            '(failed, sub_plan) ← lift (resolveProviderCandidateUnlocked v timeout_ms);
            if failed : bool then mret true
            else
              _ ← pupd (λ o, o <| po_auth_queue := sub_plan ++ po_auth_queue o |>);
              mret false
      end.

(** One attempt from the front of the queue: the loop goes on, or the result with
    which the handler returns, [None] for the end of the loop. *)
Definition auth_iteration (attempt : Ssh2AuthAttempt) : P (unit + option (option poll_info)) :=
  match kind attempt with
  | PROVIDER =>
      failed ← expandProviderAttempt;
      if failed : bool then
        r ← leave true;
        mret (inr (Some r))
      else mret (inl tt)
  | AGENT =>
      rc ← stepAgentAuth;
      if rc =? LIBSSH2_ERROR_EAGAIN then
        r ← getSessionPollInfo;
        mret (inr (Some r))
      else if rc =? SFTP_AGENT_ERROR then
        r ← leave true;
        mret (inr (Some r))
      else if rc =? 0 then
        _ ← lift (setAuthenticatedWithUnlocked attempt);
        _ ← pupd (λ o, o <| po_loggedin := true |>);
        _ ← drop_agent;
        mret (inr None)
      else
        _ ← pop_attempt;
        mret (inl tt)
  | _ =>
      checked ← pfield po_attempt_checked;
      denied ← (if checked : bool then mret false else lift (checkAuthAttemptAccessUnlocked attempt));
      if denied : bool then
        r ← leave false;
        mret (inr (Some r))
      else
        _ ← pupd (λ o, o <| po_attempt_checked := true |>);
        rc ← lift (authCallUnlocked attempt);
        if rc =? LIBSSH2_ERROR_EAGAIN then
          r ← getSessionPollInfo;
          mret (inr (Some r))
        else if rc =? 0 then
          _ ← lift (setAuthenticatedWithUnlocked attempt);
          _ ← pupd (λ o, o <| po_loggedin := true |>);
          mret (inr None)
        else
          _ ← pop_attempt;
          _ ← pupd (λ o, o <| po_attempt_checked := false |>);
          mret (inl tt)
  end.

Definition handleAuth : P (option poll_info) :=
  r ← loop fuel (λ _ : unit,
        o ← gets op;
        match po_auth_queue o with
        | attempt :: _ => if po_loggedin o then mret (inr None) else auth_iteration attempt
        | [] => mret (inr None)
        end) tt;
  match r with
  | Some rv => mret rv
  | None =>
      loggedin ← pfield po_loggedin;
      if negb loggedin then fail_with (Exc "SSH2CLIENT-AUTH-ERROR" NoDetail) true
      else
        _ ← pupd (λ o, o <| po_auth_queue := [] |>);
        _ ← drop_agent;
        _ ← pupd (λ o, o <| po_candidates := None |>);
        _ ← lift finishConnectUnlocked;
        advance SFTP_INIT
  end.

Definition handleSftpInit : P (option poll_info) :=
  s ← lift (cfield ssh_session);
  sf ← lift (callH (sftp_init s));
  _ ← lift (upd (λ c, c <| sftp_session := sf |>));
  if bool_decide (sf = None) then
    err ← lift (callZ (session_last_errno s));
    if err =? LIBSSH2_ERROR_EAGAIN then getSessionPollInfo
    else
      again ← retryAfterConnectionLoss;
      if again : bool then mret None
      else
        _ ← sessionError;
        leave true
  else
    path ← lift (cfield sftppath);
    advance (if str_empty path then REALPATH else STAT).

Definition handleRealPath : P (option poll_info) :=
  sf ← lift (cfield sftp_session);
  '(rc, buff) ← (lift (call (sftp_resolve sf "." LIBSSH2_SFTP_REALPATH)) : P (Z * string));
  if rc =? LIBSSH2_ERROR_EAGAIN then getSessionPollInfo
  else if rc <=? 0 then
    _ ← sessionError;
    leave true
  else
    _ ← lift (upd (λ c, c <| sftppath := String.substring 0 (Z.to_nat rc) buff |>));
    advance STAT.

Definition handleStat : P (option poll_info) :=
  cwd ← lift (cfield sftppath);
  _ ← pupd (λ o, if str_empty (po_abs_path o)
                 then o <| po_abs_path := absolute_filename cwd (po_path o) |> else o);
  abs_path ← pfield po_abs_path;
  sf ← lift (cfield sftp_session);
  '(rc, a) ← (lift (call (sftp_stat sf abs_path true)) : P (Z * attrs));
  if rc =? LIBSSH2_ERROR_EAGAIN then getSessionPollInfo
  else if rc <? 0 then
    again ← retryAfterConnectionLoss;
    if again : bool then mret None
    else
      _ ← sessionError;
      leave false
  else
    _ ← pupd (λ o, o <| po_file_size := at_filesize a |> <| po_permissions := at_permissions a |>);
    advance OPEN.

Definition handleOpen : P (option poll_info) :=
  o ← gets op;
  c ← lift (gets cl);
  h ← lift (callH (sftp_open (sftp_session c) (po_abs_path o) LIBSSH2_FXF_READ (po_permissions o)));
  _ ← pupd (λ o, o <| po_handle := h |>);
  if bool_decide (h = None) then
    err ← lift (callZ (session_last_errno (ssh_session c)));
    if err =? LIBSSH2_ERROR_EAGAIN then getSessionPollInfo
    else
      _ ← sessionError;
      leave false
  else advance READ.

(** One read; the sizes are [size_t], and so is the number of calls, of which only the
    remainder by a power of two is used. *)
Definition read_iteration : P (unit + option (option poll_info)) :=
  o ← gets op;
  if negb (po_bytes_read o <? po_file_size o) then mret (inr None)
  else
    '(rc, bytes) ← (lift (call (sftp_read (po_handle o) (size_t (po_file_size o - po_bytes_read o)))) : P (Z * list Byte.byte));
    if rc =? LIBSSH2_ERROR_EAGAIN then
      r ← getSessionPollInfo;
      mret (inr (Some r))
    else if rc <? 0 then
      _ ← sessionError;
      r ← leave false;
      mret (inr (Some r))
    else if rc =? 0 then mret (inr None)
    else
      let calls := S (po_read_calls o) in
      _ ← pupd (λ o, o <| po_bytes_read := size_t (po_bytes_read o + rc) |> <| po_read_calls := calls |>
                       <| po_data := po_data o ++ take (Z.to_nat rc) bytes |>);
      cancelled ← (if Nat.eqb (calls mod SFTP_POLL_CANCEL_CHECK_INTERVAL) 0
                   then lift (qore_check_cancel true) else mret false);
      if cancelled : bool then
        r ← leave true;
        mret (inr (Some r))
      else mret (inl tt).

Definition handleRead : P (option poll_info) :=
  r ← loop fuel (λ _ : unit, read_iteration) tt;
  match r with
  | Some rv => mret rv
  | None => advance CLOSE
  end.

Definition handleClose : P (option poll_info) :=
  h ← pfield po_handle;
  rc ← lift (callZ (sftp_close_handle h));
  if rc =? LIBSSH2_ERROR_EAGAIN then getSessionPollInfo
  else
    _ ← pupd (λ o, o <| po_handle := None |>);
    _ ← set_state DONE;
    leave false.

Definition run_stage (st : SftpPollState) : P (option poll_info) :=
  match st with
  | START => handleStart
  | CONNECTING => handleConnecting
  | HANDSHAKE => handleHandshake
  | AUTHLIST => handleAuthList
  | AUTH => handleAuth
  | SFTP_INIT => handleSftpInit
  | REALPATH => handleRealPath
  | STAT => handleStat
  | OPEN => handleOpen
  | READ => handleRead
  | CLOSE => handleClose
  | DONE | CLOSED => mret None
  end.

(** ** The operation *)

(** [SftpPollOperationPriv::continuePollIntern] *)
Definition continuePollIntern : P (option poll_info) :=
  loop fuel (λ _ : unit,
    st ← pfield po_state;
    if finished st then mret (inr None)
    else
      rv ← run_stage st;
      mret (match rv with Some i => inr (Some i) | None => inl tt end)) tt.

Definition continuePoll : P (option poll_info) :=
  st ← pfield po_state;
  if finished st then mret None
  else
    cancelled ← lift (qore_check_cancel true);
    if cancelled : bool then leave true else continuePollIntern.

(** [SftpPollOperationPriv::abort] *)
Definition poll_abort : P unit :=
  st ← pfield po_state;
  when (negb (finished st)) (poll_closeIntern true).

(** [SftpPollOperationPriv::deref], when the last reference goes *)
Definition poll_deref : P unit := poll_closeIntern false.
End poll.
