(* ===== verification/PollProof.v ===== *)
(** The rules for the proof of the non-blocking retrieval: the abstract state machine
    ([mark], [edge]), the invariant on the resources, the reservation and the data of an
    operation ([inv]), what a stage may end in ([outcome]), and a rule for each way in which
    the code ends a stage.  A failure of a helper of the client is shown to be reported. *)

From S2P Require Import Prelude Modes World Sim Defaults Transport Config HostKey Auth Connect Session Sftp Transfer Poll.

Section client.
Context {E : Type} `{!Env E}.

Abbreviation M := (prog (st E)).

(** ** What the client's operations keep *)

(** The reservation of the client is never given up by the client's own code. *)
Definition poll_kept (s s' : st E) : Prop :=
  poll_op_in_progress (cl s) = true → poll_op_in_progress (cl s') = true.

#[export] Instance poll_kept_frame : Frame poll_kept.
Proof. split; [split| |]; unfold poll_kept; [by intros ?|by eauto|done|done]. Qed.

Lemma disconnectUnlocked_kept force to xs : preserves poll_kept (disconnectUnlocked (E:=E) force to xs).
Proof.
  apply (preserves_weaken same_conf).
  - intros s s' H. apply (f_equal poll_op_in_progress) in H. unfold poll_kept. simpl in H. by rewrite H.
  - preserves_auto.
Qed.

#[export] Instance poll_kept_session : Session poll_kept.
Proof.
  apply session_of; [apply _|intros; apply frame_logged|intros; apply frame_xsink| |apply disconnectUnlocked_kept|].
  - intros f s Hf. exact (proj2 (proj2 (proj2 (Hf (cl s))))).
  - intros op. apply other_thread_preserves; [apply _|by intros ???| |apply disconnectUnlocked_kept].
    intros f s Hf. exact (proj2 (proj2 (proj2 (Hf (cl s))))).
Qed.

Definition world : relation (st E) := both grows (both keeps_registered (both xsink_grows (emits wire_only))).
Definition steady : relation (st E) := both poll_kept world.

#[export] Instance world_session : Session world.
Proof. apply _. Qed.

#[export] Instance steady_session : Session steady.
Proof. apply _. Qed.

Section more.
Context (R : relation (st E)) `{!Session R}.

#[local] Hint Extern 2 (preserves R (callZ _)) => apply session_callZ; first [typeclasses eauto | reflexivity] : preserves.
#[local] Hint Extern 3 (preserves R (upd _)) => apply session_preserves_upd; first [typeclasses eauto | intros ?; split_and!; done] : preserves.
#[local] Hint Resolve linked_disconnect session_force_disconnect session_handshake_call : preserves.

Lemma session_sessionErr : preserves R sftp_doSessionErr.
Proof. unfold sftp_doSessionErr, sftp_session_err, check_still_connected. preserves_auto. Qed.

Lemma session_preconditions : preserves R checkConnectPreconditionsUnlocked.
Proof. unfold checkConnectPreconditionsUnlocked. preserves_auto. Qed.

Lemma session_hold : preserves R holdSessionDescriptorUnlocked.
Proof. unfold holdSessionDescriptorUnlocked. preserves_auto. Qed.

Lemma session_prepare : preserves R prepareSessionUnlocked.
Proof. unfold prepareSessionUnlocked. preserves_auto. Qed.

Lemma session_finish : preserves R finishConnectUnlocked.
Proof. unfold finishConnectUnlocked. preserves_auto. Qed.

Lemma session_plan l : preserves R (buildAuthPlanUnlocked l).
Proof. unfold buildAuthPlanUnlocked. preserves_auto. Qed.

Lemma session_nonblocking fd b : preserves R (setFdNonBlocking fd b).
Proof. unfold setFdNonBlocking. preserves_auto. Qed.

Lemma session_close_handle d to h : preserves R (close_handle d to h).
Proof. unfold close_handle. preserves_auto. Qed.

Lemma session_drop to : preserves R (drop_connection to).
Proof. unfold drop_connection, closeTransportUnlocked. preserves_auto. Qed.

Lemma session_lost : preserves R connectionLost.
Proof. unfold connectionLost. preserves_auto. Qed.

Lemma session_startup : preserves R startupUnlocked.
Proof. unfold startupUnlocked. preserves_auto. Qed.
End more.

Lemma world_release : preserves world (upd (λ c, c <| poll_op_in_progress := false |>)).
Proof.
  apply preserves_upd. intros s. split; [by exists []|]. split; [|split; by exists []].
  intros [H1 H2 H3 H4]. by split.
Qed.

Lemma world_path p : preserves steady (upd (λ c, c <| sftppath := p |>)).
Proof.
  apply preserves_upd. intros s. split; [by intros ?|]. split; [by exists []|]. split; [|split; by exists []].
  intros [H1 H2 H3 H4]. by split.
Qed.
(** ** Failures are reported *)

(** [reports bad m]: when [m] ends badly, there is an exception. *)
Definition reports {A} (bad : A → Prop) (m : M A) : Prop :=
  ∀ s, wp True m (λ a s', bad a → xsink s' ≠ []) s.

Ltac report := repeat first [wp_step | wp_world | apply wp_intro; intros]; simpl in *; first [done | congruence | naive_solver].

Lemma raise_reports {A} (bad : A → Prop) e (a : A) : reports bad (_ ← raise_exc true e; mret a).
Proof. intros s. wp_step. wp_world. by wp_step. Qed.

Lemma hold_reports : reports (λ b, b = true) holdSessionDescriptorUnlocked.
Proof. intros s. unfold holdSessionDescriptorUnlocked. report. Qed.

Lemma prepare_reports : reports (λ b, b = true) prepareSessionUnlocked.
Proof. intros s. unfold prepareSessionUnlocked. report. Qed.

Lemma cancel_reports : reports (λ b, b = true) (qore_check_cancel true).
Proof. intros s. unfold qore_check_cancel. report. Qed.

Lemma still_connected_grows : preserves xsink_grows (check_still_connected (E:=E)).
Proof.
  unfold check_still_connected. preserves_step; [preserves_auto|]. preserves_step.
  preserves_step; [apply (linked_disconnect (R:=xsink_grows))|preserves_auto].
Qed.

Lemma sessionErr_reports : reports (λ _, True) sftp_doSessionErr.
Proof.
  assert (∀ s e, wp True (_ ← raise_exc true e; check_still_connected) (λ _ s', True → xsink s' ≠ []) s) as H.
  { intros s e. wp_step. wp_world. eapply wp_mono; [|apply still_connected_grows].
    intros ? s' X _. by refine (xsink_grows_nonempty _ _ _ X). }
  intros s. unfold sftp_doSessionErr. wp_step. wp_step. wp_step; [|apply H].
  wp_step. wp_world. wp_step. wp_world. apply H.
Qed.

Lemma force_disconnect_xsink : preserves xsink_grows (force_disconnect (E:=E)).
Proof. apply (session_force_disconnect xsink_grows). Qed.

Lemma checkAccess_reports a : reports (λ b, b = true) (checkAuthAttemptAccessUnlocked a).
Proof.
  assert (∀ path s, wp True (ssh2_check_fs_access path ModeRead true) (λ b s', b = true → xsink s' ≠ []) s) as Hc.
  { intros path s. eapply wp_mono; [|apply check_fs_access_post]. intros [] s' [_ H] Hb; [|done].
    intros X. rewrite X in H. simpl in H. lia. }
  intros s. unfold checkAuthAttemptAccessUnlocked. wp_step; [by wp_step|]. wp_step.
  eapply wp_mono; [|apply Hc]. intros [] s1 H1; cbv beta iota.
  - wp_step. eapply wp_mono; [|apply force_disconnect_xsink]. intros ? s2 X. wp_step. intros _.
    eapply xsink_grows_nonempty; [by apply H1|done].
  - wp_step; [by wp_step|]. wp_step. eapply wp_mono; [|apply Hc]. intros [] s2 H2; cbn [when]; wp_step.
    + eapply wp_mono; [|apply force_disconnect_xsink]. intros ? s3 X. wp_step. intros _.
      eapply xsink_grows_nonempty; [by apply H2|done].
    + by repeat wp_step.
Qed.

Lemma getCandidates_reports to : reports (λ l, l = None) (getProviderCandidatesUnlocked to).
Proof. intros s. unfold getProviderCandidatesUnlocked. report. Qed.

Lemma required_string_reports h key : reports (λ r, r = None) (required_string h key).
Proof.
  intros s. unfold required_string. wp_step. apply wp_intro. intros [v|] s1 _; [by wp_step|].
  wp_step. apply wp_has_exc; intros X; cbn [negb when]; [by repeat wp_step|]. wp_step. wp_world. by wp_step.
Qed.

Lemma invalid_reports : reports (λ r, fst r = true) invalid_response.
Proof. intros s. unfold invalid_response. report. Qed.

Lemma file_attempt_reports h : reports (λ r, fst r = true) (file_attempt h).
Proof.
  intros s. unfold file_attempt. wp_step. eapply wp_mono; [|apply required_string_reports].
  intros path s1 X. wp_step. wp_world. wp_step. destruct path; [done|]. intros _. by apply X.
Qed.

Lemma memory_attempt_reports material priv : reports (λ r, fst r = true) (memory_attempt material priv).
Proof. intros s. unfold memory_attempt. wp_step. apply wp_intro. intros ? s1 _. wp_step. by apply wp_has_exc; intros X; wp_step. Qed.

Lemma resolve_material_reports optional material : reports (λ r, fst r = true) (resolve_material optional material).
Proof.
  intros s. unfold resolve_material. wp_step. eapply wp_mono; [|apply required_string_reports].
  intros [k|] s1 X1; cbv beta iota; [|wp_step; intros _; by apply X1].
  repeat first [ apply file_attempt_reports | apply memory_attempt_reports | apply invalid_reports | wp_step
    | eapply wp_mono; [|apply required_string_reports]; intros ? ? ? | wp_world ]; simpl; auto.
Qed.

Lemma resolveCandidate_reports v to : reports (λ r, fst r = true) (resolveProviderCandidateUnlocked v to).
Proof.
  intros s. unfold resolveProviderCandidateUnlocked. destruct v; try apply invalid_reports.
  repeat first [ apply file_attempt_reports | apply resolve_material_reports | apply invalid_reports | wp_step
    | eapply wp_mono; [|apply required_string_reports]; intros ? ? ? | wp_world | apply wp_intro; intros ];
    simpl in *; auto; done.
Qed.

Lemma store_reports store key ty to : reports (λ b, b = true) (verifyHostKeyWithStore store key ty to).
Proof.
  assert (∀ d s, wp True (decision_of d) (λ r s', r = None → d ≠ None → xsink s' ≠ []) s) as Hd.
  { intros d s. unfold decision_of. destruct d; [|by wp_step]. wp_step. apply wp_intro. intros [v|] s1 _; [by wp_step|].
    wp_step. apply wp_has_exc; intros X; cbn [negb when]; [by repeat wp_step|]. wp_step. wp_world. by wp_step. }
  assert (∀ c o m s, wp True (ssh2_call_host_key_store store c o m) (λ d s', d = None → xsink s' ≠ []) s) as Hs.
  { intros c o m s. unfold ssh2_call_host_key_store. report. }
  intros s. unfold verifyHostKeyWithStore.
  repeat first
    [ wp_step
    | eapply wp_mono; [|apply Hs]; intros ? ? ?
    | eapply wp_mono; [|apply Hd]; intros ? ? ?
    | wp_world | apply wp_intro; intros ];
    simpl in *; try done; intros; naive_solver.
Qed.

Lemma refuse_reports nh err (s : st E) : (err = None → xsink s ≠ []) →
  wp True (refuse_host_key nh err) (λ b s', b = true → xsink s' ≠ []) s.
Proof.
  intros H. unfold refuse_host_key. wp_step. wp_world. wp_step.
  eapply wp_mono; [|apply force_disconnect_xsink]. intros ? s1 X. wp_step. destruct err.
  - wp_world. by wp_step.
  - wp_step. wp_step. intros _. eapply xsink_grows_nonempty; [|exact X]. by apply H.
Qed.

Lemma verifyHostKey_reports to : reports (λ b, b = true) (verifyHostKeyUnlocked to).
Proof.
  intros s. unfold verifyHostKeyUnlocked. wp_step. wp_world. wp_step; [by wp_step|]. wp_step. wp_world. wp_step. wp_world.
  destruct a as [[key ty]|]; [|report]. wp_step. wp_world. wp_step.
  - wp_step. eapply wp_mono; [|apply store_reports]. intros [] s1 X; cbn [when]; [|by repeat wp_step].
    wp_step. eapply wp_mono; [|apply force_disconnect_xsink]. intros ? s2 X2. wp_step. intros _.
    eapply xsink_grows_nonempty; [by apply X|done].
  - wp_step. wp_world. wp_step; [report|]. wp_step. wp_step. cbv zeta. wp_step; [by apply refuse_reports|].
    wp_step. eapply wp_mono; [|apply optional_file_post, load_known_hosts_post].
    intros [failed err] s1 (_ & _ & Hl). cbv beta iota. simpl in Hl. destruct failed; [by apply refuse_reports|].
    wp_step. wp_world. wp_step; [by apply refuse_reports|]. wp_step.
    + wp_step; [|by apply refuse_reports]. wp_step. wp_world. wp_step; [by apply refuse_reports|].
      wp_step. eapply wp_mono; [|apply optional_file_post, persist_known_hosts_post].
      intros [failed err2] s2 (_ & _ & Hp). cbv beta iota. simpl in Hp. destruct failed; [by apply refuse_reports|].
      wp_step. wp_world. by wp_step.
    + wp_step; [by apply refuse_reports|]. wp_step. wp_world. by wp_step.
Qed.

Lemma preconditions_reports : reports (λ b, b = true) checkConnectPreconditionsUnlocked.
Proof.
  intros s. unfold checkConnectPreconditionsUnlocked. wp_step.
  eapply wp_mono; [|apply cancel_reports]. intros [] s1 H; cbv beta iota; [by wp_step|]. report.
Qed.
End client.

Create HintDb poll discriminated.

#[export] Hint Resolve session_sessionErr session_preconditions session_hold session_prepare session_finish
  session_plan session_nonblocking session_close_handle session_drop session_lost session_startup
  session_userauth_call session_authCall session_checkAccess session_getCandidates session_resolveCandidate
  session_verifyHostKey linked_disconnect : poll.

(** Whether nobody else reads from the handle of the operation. *)
Class Sole := sole : Prop.

Section operation.
Context {E : Type} `{!Env E} `{own : Sole}.

Abbreviation M := (prog (st E)).
Abbreviation P := (prog (pst E)).

Lemma wp_lift {A} d (m : M A) (Q : A → pst E → Prop) (o : poll) (s : st E) :
  wp d m (λ a s', Q a (mkPst o s')) s → wp d (lift m) Q (mkPst o s).
Proof. unfold wp, lift. simpl. by destruct (m s) as [[a s']|]. Qed.

Lemma wp_lift_step {A} (R : relation (st E)) (m : M A) (Q : A → pst E → Prop) (o : poll) (s : st E) :
  preserves R m → (∀ a s', R s s' → Q a (mkPst o s')) → wp True (lift m) Q (mkPst o s).
Proof. intros Hm HQ. apply wp_lift. eapply wp_mono; [|apply Hm]. simpl. auto. Qed.

Lemma wp_pfield {A} d (f : poll → A) (Q : A → pst E → Prop) (o : poll) (s : st E) :
  Q (f o) (mkPst o s) → wp d (pfield f) Q (mkPst o s).
Proof. done. Qed.

Lemma wp_pupd d (f : poll → poll) (Q : unit → pst E → Prop) (o : poll) (s : st E) :
  Q tt (mkPst (f o) s) → wp d (pupd f) Q (mkPst o s).
Proof. done. Qed.

(** A relation on clients, read on operations. *)
Definition on_base (R : relation (st E)) (p p' : pst E) : Prop := R (base p) (base p').

#[export] Instance on_base_preorder R : PreOrder R → PreOrder (on_base R).
Proof. intros H. split; [intros p; unfold on_base; reflexivity|]. intros p1 p2 p3 H1 H2. unfold on_base in *. by transitivity (base p2). Qed.

Lemma preserves_lift {A} R (m : M A) : preserves R m → preserves (on_base R) (lift m).
Proof. intros H [o s]. apply wp_lift, H. Qed.

Lemma preserves_pupd R f : PreOrder R → preserves (on_base R) (pupd f).
Proof. intros H p. apply wp_modify. unfold on_base. simpl. reflexivity. Qed.

(** ** Closing *)

(** The operation after [closeIntern]. *)
Definition released (o : poll) : poll :=
  o <| po_agent := None |> <| po_candidates := None |> <| po_connect := None |> <| po_handle := None |>
    <| po_restore := false |> <| po_state := if decide (po_state o = DONE) then DONE else CLOSED |>
    <| po_reserved := false |>.

(** A field that has the value already. *)
Lemma set_agent o : po_agent o = None → o <| po_agent := None |> = o.
Proof. by destruct o; simpl; intros ->. Qed.

Lemma set_handle o : po_handle o = None → o <| po_handle := None |> = o.
Proof. by destruct o; simpl; intros ->. Qed.

Lemma set_restore o : po_restore o = false → o <| po_restore := false |> = o.
Proof. by destruct o; simpl; intros ->. Qed.

Lemma set_reserved o : po_reserved o = false → o <| po_reserved := false |> = o.
Proof. by destruct o; simpl; intros ->. Qed.

Lemma wp_drop_agent (Q : unit → pst E → Prop) (o : poll) (s : st E) :
  (∀ s', steady s s' → Q tt (mkPst (o <| po_agent := None |>) s')) → wp True drop_agent Q (mkPst o s).
Proof.
  intros HQ. unfold drop_agent. wp_step. apply wp_pfield. cbv beta. destruct (po_agent o) as [a|] eqn:Ha.
  - wp_step. apply (wp_lift_step steady); [apply preserves_agent_reset, _|]. intros ? s' H. apply wp_pupd. by apply HQ.
  - apply wp_mret. rewrite <- (set_agent o) by done. by apply HQ.
Qed.

Lemma drop_connection_post to (s : st E) : registered s →
  wp True (drop_connection to) (λ _ s', ssh_session (cl s') = None) s.
Proof.
  intros Hr. unfold drop_connection. wp_step. wp_world. wp_step.
  - wp_step. eapply wp_mono; [|by apply disconnect_post]. intros rc s' H. apply wp_mret. apply H.
  - apply bool_decide_eq_false, eq_None_not_Some in Heqb. unfold closeTransportUnlocked.
    wp_step. wp_world. wp_world. done.
Qed.

Lemma wp_restore (Q : unit → pst E → Prop) (o : poll) (s : st E) :
  (∀ s', world s s' → cl s' = cl s → Q tt (mkPst (o <| po_restore := false |>) s')) →
  wp True restoreBlockingIntern Q (mkPst o s).
Proof.
  intros HQ. unfold restoreBlockingIntern. wp_step. apply wp_pfield. cbv beta. destruct (po_restore o) eqn:Hr; cbn [when].
  - wp_step. apply (wp_lift_step (both world quiet)).
    { apply preserves_both. split; apply preserves_setBlocking, _. }
    intros ? s' [W (C & _)]. apply wp_pupd. by apply HQ.
  - wp_step. rewrite <- (set_restore o) by done. by apply HQ.
Qed.

Lemma wp_unreserve (Q : unit → pst E → Prop) (o : poll) (s : st E) :
  (∀ s', world s s' → ssh_session (cl s') = ssh_session (cl s) →
     (po_reserved o = true → poll_op_in_progress (cl s') = false) → Q tt (mkPst (o <| po_reserved := false |>) s')) →
  wp True (reserved ← pfield po_reserved;
           when reserved (
             _ ← lift (upd (λ c, c <| poll_op_in_progress := false |>));
             pupd (λ o, o <| po_reserved := false |>))) Q (mkPst o s).
Proof.
  intros HQ. wp_step. apply wp_pfield. cbv beta. destruct (po_reserved o) eqn:Hr; cbn [when].
  - wp_step. apply wp_lift. wp_world. apply wp_pupd. apply HQ; [|done|done].
    exact (world_release s).
  - wp_step. rewrite <- (set_reserved o) by done. apply HQ; [done|done|congruence].
Qed.

Lemma close_handle_keeps d to h (s : st E) :
  wp True (close_handle d to h) (λ d' _, d = true → d' = true) s.
Proof.
  unfold close_handle. apply (wp_loop (λ _ _, True)); [|done]. intros _ s1 _.
  wp_step. wp_world. wp_step; [|by wp_step]. wp_step. apply wp_intro. intros [] s2 _; by wp_step.
Qed.

Lemma wp_close_part (d : bool) (Q : bool → pst E → Prop) (o : poll) (s : st E) h to :
  po_handle o = h →
  (∀ d' s', world s s' → (d = true → d' = true) → Q d' (mkPst (o <| po_handle := None |>) s')) →
  wp True (if bool_decide (is_Some h) then
             d' ← lift (close_handle d to h);
             _ ← pupd (λ o, o <| po_handle := None |>);
             mret d'
           else mret d) Q (mkPst o s).
Proof.
  intros Hh HQ. destruct h as [h|]; cbn [bool_decide decide is_Some_dec].
  - wp_step. apply wp_lift. eapply wp_mono; [|apply wp_and; [apply (session_close_handle world)|apply close_handle_keeps]].
    intros d' s' [W H]. wp_step. apply wp_pupd. wp_step. by apply HQ.
  - wp_step. rewrite <- (set_handle o) by done. by apply HQ.
Qed.

Lemma wp_closeIntern (d : bool) (Q : unit → pst E → Prop) (o : poll) (s : st E) :
  registered s →
  (∀ s', world s s' → (d = true → ssh_session (cl s') = None) →
     (po_reserved o = true → poll_op_in_progress (cl s') = false) → Q tt (mkPst (released o) s')) →
  wp True (poll_closeIntern d) Q (mkPst o s).
Proof.
  intros Hr HQ. unfold poll_closeIntern. wp_step. apply wp_drop_agent. intros s1 [_ W1].
  wp_step. apply wp_pupd. wp_step. apply wp_pupd. wp_step. apply wp_pfield. wp_step. apply wp_pfield. cbv beta.
  wp_step. apply wp_close_part; [done|]. intros d' s2 W2 Hd.
  assert (registered s2) as Hr2 by (apply W2, W1, Hr). wp_step.
  apply (wp_mono _ _ (λ _ p, ∃ s3, p = mkPst (o <| po_agent := None |> <| po_candidates := None |>
    <| po_connect := None |> <| po_handle := None |>) s3 ∧ world s2 s3 ∧ (d = true → ssh_session (cl s3) = None))).
  - intros ? p (s3 & -> & W3 & Hs). wp_step. apply wp_restore. intros s4 W4 C4. wp_step. apply wp_pfield. cbv beta.
    wp_step. apply (wp_mono _ _ (λ _ p, p = mkPst (o <| po_agent := None |> <| po_candidates := None |>
      <| po_connect := None |> <| po_handle := None |> <| po_restore := false |>
      <| po_state := if decide (po_state o = DONE) then DONE else CLOSED |>) s4)).
    + intros ? p ->. apply wp_unreserve. intros s5 W5 C5 F5. apply HQ.
      * transitivity s1; [done|]. transitivity s2; [done|]. transitivity s3; [done|]. by transitivity s4.
      * intros Hd1. by rewrite C5, C4, Hs.
      * exact F5.
    + simpl. destruct (decide (po_state o = DONE)) as [Hst|Hst].
      * rewrite bool_decide_true by done. cbn [negb when]. apply wp_mret. f_equal. destruct o; simpl in *. by subst.
      * rewrite bool_decide_false by done. cbn [negb when]. by apply wp_pupd.
  - destruct d'; cbn [when].
    + apply wp_lift. eapply wp_mono; [|apply wp_and; [apply (session_drop world)|by apply drop_connection_post]].
      intros ? s3 [W3 H3]. by exists s3.
    + apply wp_mret. exists s2. split_and!; [done|done|]. intros H. by specialize (Hd H).
Qed.

(** ** The invariant *)

(** What the operation holds in each state. *)
Definition holds_connect (st : SftpPollState) : bool := bool_decide (st = CONNECTING).
Definition holds_handle (st : SftpPollState) : bool := bool_decide (st = READ) || bool_decide (st = CLOSE).
Definition holds_session (st : SftpPollState) : bool :=
  match st with START | CONNECTING | DONE | CLOSED => false | _ => true end.

Record shape (o : poll) : Prop := {
  shape_connect : bool_decide (is_Some (po_connect o)) = holds_connect (po_state o);
  shape_handle : bool_decide (is_Some (po_handle o)) = holds_handle (po_state o);
  shape_agent : is_Some (po_agent o) → po_state o = AUTH;
  shape_candidates : is_Some (po_candidates o) → po_state o = AUTH;
  shape_restore : po_restore o = holds_session (po_state o);
  shape_reserved : po_reserved o = negb (finished (po_state o))
}.

(** The bytes that were delivered on a handle. *)
Definition delivered_on (h : handle) (ev : event) : list Byte.byte :=
  match ev with
  | Ev (sftp_read h' _) (rc, bytes) => if bool_decide (h' = Some h) then take (Z.to_nat rc) bytes else []
  | _ => []
  end.

(** The file was opened last in [s0]; since then [po_data] was delivered on its handle. *)
Record fetched (o : poll) (h : handle) (s0 s : st E) : Prop := {
  fetched_open : po_abs_path o ≠ EmptyString ∧ ∃ sf t, trace s0 =
    Ev (QH (sftp_open sf (po_abs_path o) LIBSSH2_FXF_READ (po_permissions o))) (Some h) :: t;
  fetched_grows : grows s0 s;
  fetched_data : sole → advances (delivered_on h) s0 s (po_data o);
  fetched_size : SftpData E → 0 ≤ po_file_size o < 2 ^ 64 →
    po_bytes_read o = Z.of_nat (length (po_data o)) ∧ po_bytes_read o ≤ po_file_size o
}.

(** The whole file was read, or the server ended it. *)
Definition complete (o : poll) (h : handle) (s0 s : st E) : Prop :=
  po_file_size o ≤ po_bytes_read o ∨ ∃ n bytes, new s0 s (Ev (sftp_read (Some h) n) (0, bytes)).

Definition data_inv (o : poll) (s : st E) : Prop :=
  match po_state o with
  | OPEN => po_data o = [] ∧ po_bytes_read o = 0 ∧ po_abs_path o ≠ EmptyString
  | READ => ∃ h s0, fetched o h s0 s ∧ po_handle o = Some h
  | CLOSE | DONE => ∃ h s0, fetched o h s0 s ∧ complete o h s0 s
  | CLOSED => True
  | _ => po_data o = [] ∧ po_bytes_read o = 0
  end.

Record inv (o : poll) (s : st E) : Prop := {
  inv_shape : shape o;
  inv_reserved : po_reserved o = true → poll_op_in_progress (cl s) = true;
  inv_registered : registered s;
  inv_data : data_inv o s
}.

(** ** The abstract operation *)

(** What the specification sees: the state, whether a session was reused, and whether
    a dead one has been replaced. *)
Record mark := mkMark { mk_state : SftpPollState; mk_reused : bool; mk_retried : bool }.

Definition mark_of (o : poll) : mark := mkMark (po_state o) (po_reused o) (po_retried o).

(** The order of the stages. *)
Inductive next : SftpPollState → SftpPollState → Prop :=
  | next_connecting : next START CONNECTING
  | next_handshake : next CONNECTING HANDSHAKE
  | next_authlist : next HANDSHAKE AUTHLIST
  | next_auth : next AUTHLIST AUTH
  | next_sftp_init : next AUTH SFTP_INIT
  | next_realpath : next SFTP_INIT REALPATH
  | next_stat : next SFTP_INIT STAT
  | next_resolved : next REALPATH STAT
  | next_open : next STAT OPEN
  | next_read : next OPEN READ
  | next_close : next READ CLOSE
  | next_done : next CLOSE DONE.

Inductive edge : mark → mark → Prop :=
  | edge_next st st' r t : next st st' → edge (mkMark st r t) (mkMark st' r t)
  | edge_reuse st r t : st = STAT ∨ st = SFTP_INIT → edge (mkMark START r t) (mkMark st true t)
  | edge_retry st : st = STAT ∨ st = SFTP_INIT → edge (mkMark st true false) (mkMark START true true)
  | edge_fail st r t r' t' : finished st = false → edge (mkMark st r t) (mkMark CLOSED r' t').

(** How a stage that was entered with mark [m] in client state [s0] ends: it waits in
    its state, it moves along an edge, or it closes the operation with an exception. *)
Inductive outcome (m : mark) (s0 : st E) : option poll_info → pst E → Prop :=
  | out_wait i o s : mark_of o = m → inv o s → grows s0 s → outcome m s0 (Some i) (mkPst o s)
  | out_move o s : edge m (mark_of o) → inv o s → grows s0 s →
      (po_state o = CLOSED → xsink s ≠ []) →
      (finished (po_state o) = true → poll_op_in_progress (cl s) = false) → outcome m s0 None (mkPst o s).

(** ** Rules for the invariant *)

Lemma wire_delivered h : Wire (silent (delivered_on h)).
Proof. wire_events. Qed.

Lemma fetched_world o h s0 s s' : fetched o h s0 s → world s s' → fetched o h s0 s'.
Proof.
  intros [Ho Hg Hd Hs] (G & _ & _ & W). split; [done|by transitivity s| |done]. intros Hsole. specialize (Hd Hsole).
  pose proof (wire_delivered h). apply (wire_only_emits (silent (delivered_on h))) in W; [|done].
  apply advances_silent in W. pose proof (advances_trans _ _ _ _ _ _ Hd W) as H1. by rewrite app_nil_r in H1.
Qed.

Lemma complete_world o h s0 s s' : complete o h s0 s → world s s' → complete o h s0 s'.
Proof. intros [H|(n & b & H)] (G & _); [by left|right; exists n, b; by eapply new_grows]. Qed.

(** The part of the operation that the data depends on. *)
Definition file_part (o : poll) :=
  (po_state o, po_handle o, po_abs_path o, po_permissions o, po_file_size o, po_bytes_read o, po_data o).

Lemma fetched_same o o' h s0 s :
  po_abs_path o' = po_abs_path o → po_permissions o' = po_permissions o → po_file_size o' = po_file_size o →
  po_bytes_read o' = po_bytes_read o → po_data o' = po_data o → fetched o h s0 s → fetched o' h s0 s.
Proof. intros H1 H2 H3 H4 H5 [A B C D]. split; rewrite ?H1, ?H2, ?H3, ?H4, ?H5; done. Qed.

Lemma data_inv_same o o' s : file_part o' = file_part o → data_inv o s → data_inv o' s.
Proof.
  unfold file_part. intros [= H1 H2 H3 H4 H5 H6 H7] H. unfold data_inv in *. rewrite H1.
  destruct (po_state o); try (by rewrite ?H3, ?H6, ?H7); try done;
    destruct H as (h & s0 & F & C); exists h, s0; (split; [by apply (fetched_same o)|]);
    first [by rewrite H2 | unfold complete; by rewrite H5, H6].
Qed.

Lemma data_inv_world o s s' : data_inv o s → world s s' → data_inv o s'.
Proof.
  unfold data_inv. intros H W. destruct (po_state o); try done; destruct H as (h & s0 & F & C); exists h, s0;
    (split; [by eapply fetched_world|first [done | by eapply complete_world]]).
Qed.

Lemma inv_steady o s s' : inv o s → steady s s' → inv o s'.
Proof.
  intros [Hs Hf Hr Hd] [K W]. split; [done|intros H; by apply K, Hf| |by eapply data_inv_world].
  destruct W as (_ & W & _). by apply W.
Qed.

Lemma inv_released o s s' : registered s → world s s' → po_state o ≠ DONE → inv (released o) s'.
Proof.
  intros Hr (_ & W & _) Hne. split; [|done|by apply W|].
  - unfold released. rewrite decide_False by done.
    split; simpl; [done|done|by intros [? ?]|by intros [? ?]|done|done].
  - unfold data_inv, released. simpl. by rewrite decide_False.
Qed.

Lemma wp_leave (d : bool) m (s0 : st E) (o : poll) (s : st E) :
  finished (mk_state m) = false → po_state o ≠ DONE → registered s → grows s0 s → xsink s ≠ [] →
  po_reserved o = true → wp True (leave d) (outcome m s0) (mkPst o s).
Proof.
  intros Hm Hne Hr G X Hres. unfold leave. wp_step. apply wp_closeIntern; [done|]. intros s1 W _ Hfree. apply wp_mret.
  apply out_move.
  - unfold mark_of, released. simpl. rewrite decide_False by done. destruct m as [st r t]. by apply edge_fail.
  - by apply (inv_released o s).
  - transitivity s; [done|apply W].
  - intros _. destruct W as (_ & _ & W & _). by eapply xsink_grows_nonempty.
  - intros _. by apply Hfree.
Qed.

Lemma wp_fail_with e (d : bool) m (s0 : st E) (o : poll) (s : st E) :
  finished (mk_state m) = false → po_state o ≠ DONE → registered s → grows s0 s →
  po_reserved o = true → wp True (fail_with e d) (outcome m s0) (mkPst o s).
Proof.
  intros Hm Hne Hr G Hres. unfold fail_with. wp_step. apply wp_lift. wp_world.
  apply wp_leave; [done|done| | |done|done].
  - destruct Hr as [A B C D]. by split.
  - transitivity s; [done|by exists []].
Qed.

Lemma wp_advance x m (s0 : st E) (o : poll) (s : st E) :
  edge m (mkMark x (po_reused o) (po_retried o)) → finished x = false → inv (o <| po_state := x |>) s → grows s0 s →
  wp True (advance x) (outcome m s0) (mkPst o s).
Proof.
  intros He Hst Hi G. unfold advance, set_state. wp_step. apply wp_pupd. apply wp_mret. apply out_move; [done..| |]; simpl.
  - by intros ->.
  - by rewrite Hst.
Qed.

Lemma wp_getPollInfo fd events extra to m (s0 : st E) (o : poll) (s : st E) :
  mark_of o = m → finished (mk_state m) = false → inv o s → grows s0 s →
  wp True (getPollInfo fd events extra to) (outcome m s0) (mkPst o s).
Proof.
  intros <- Hm Hi G. assert (po_state o ≠ DONE) as Hne by (intros Hd; unfold mark_of in Hm; simpl in Hm; by rewrite Hd in Hm).
  assert (po_reserved o = true) as Hres by (rewrite (shape_reserved _ (inv_shape _ _ Hi)); simpl in Hm; by rewrite Hm).
  unfold getPollInfo. wp_step; [apply wp_fail_with; [done|done|apply Hi|done|done]|].
  wp_step. apply wp_pupd. wp_step. apply wp_lift. apply wp_has_exc; intros X.
  - apply wp_leave; [done|done|apply Hi|done|done|done].
  - apply wp_mret. apply out_wait; [done| |done]. destruct Hi as [[] Hf Hr Hd]. split; [by split|done|done|].
    by apply (data_inv_same o).
Qed.

Lemma wp_session_info m (s0 : st E) (o : poll) (s : st E) :
  mark_of o = m → finished (mk_state m) = false → inv o s → grows s0 s →
  wp True getSessionPollInfo (outcome m s0) (mkPst o s).
Proof.
  intros Hm Hf Hi G. unfold getSessionPollInfo.
  wp_step. apply (wp_lift_step steady); [preserves_auto|]. intros ? s1 H1. wp_step.
  apply (wp_lift_step steady); [preserves_auto|]. intros ? s2 H2. wp_step.
  apply (wp_lift_step steady); [preserves_auto|]. intros ? s3 H3.
  assert (steady s s3) as H by (transitivity s1; [done|by transitivity s2]).
  apply wp_getPollInfo; [done|done|by eapply inv_steady|]. transitivity s; [done|apply H].
Qed.

(** ** The stages *)

Lemma wp_lift_reports {A} (bad : A → Prop) (m : M A) (Q : A → pst E → Prop) (o : poll) (s : st E) :
  preserves steady m → reports bad m →
  (∀ a s', steady s s' → (bad a → xsink s' ≠ []) → Q a (mkPst o s')) → wp True (lift m) Q (mkPst o s).
Proof.
  intros Hm Hr HQ. apply wp_lift. eapply wp_mono; [|apply wp_and; [apply Hm|apply Hr]].
  intros a s' [H1 H2]. by apply HQ.
Qed.

Lemma wp_sessionError (Q : unit → pst E → Prop) (o : poll) (s : st E) :
  (∀ s', steady s s' → xsink s' ≠ [] → Q tt (mkPst o s')) → wp True sessionError Q (mkPst o s).
Proof.
  intros HQ. unfold sessionError. apply (wp_lift_reports (λ _, True)).
  - apply session_sessionErr, _.
  - apply sessionErr_reports.
  - intros [] s' H X. by apply HQ, X.
Qed.

Lemma wp_make_nonblocking (Q : bool → pst E → Prop) (o : poll) (s : st E) :
  (∀ b s', steady s s' → (b = true → xsink s' ≠ []) → Q b (mkPst o s')) → wp True make_nonblocking Q (mkPst o s).
Proof.
  intros HQ. unfold make_nonblocking. wp_step. apply (wp_lift_step steady); [preserves_auto|]. intros fd s1 H1.
  wp_step. apply (wp_lift_step steady); [apply session_nonblocking, _|]. intros rc s2 H2.
  assert (steady s s2) as H12 by by transitivity s1.
  wp_step. destruct (rc <? 0) eqn:Hrc; cbn [when].
  - apply wp_lift. wp_world. wp_step. apply HQ; [|done]. transitivity s2; [done|apply linked_xsink].
  - wp_step. wp_step. by apply HQ.
Qed.

(** An operation in state [x], and what is needed of a step from it. *)
Lemma inv_registered_later o (s s' : st E) : inv o s → steady s s' → registered s'.
Proof. intros H S. by eapply inv_steady, S. Qed.

Lemma steady_grows (s s' : st E) : steady s s' → grows s s'.
Proof. intros [_ [G _]]. done. Qed.

(** The ways a stage ends, from the state [s] it was entered in. *)
Lemma wp_quit d o o' s s' :
  finished (po_state o) = false → finished (po_state o') = false → inv o s → steady s s' → xsink s' ≠ [] →
  po_reserved o' = po_reserved o → wp True (leave d) (outcome (mark_of o) s) (mkPst o' s').
Proof.
  intros H1 H2 Hi S X Hres. apply wp_leave; [done| |by eapply inv_registered_later|by apply steady_grows|done|].
  - intros Hd. by rewrite Hd in H2.
  - by rewrite Hres, (shape_reserved _ (inv_shape _ _ Hi)), H1.
Qed.

Lemma wp_quit_with e d o o' s s' :
  finished (po_state o) = false → finished (po_state o') = false → inv o s → steady s s' →
  po_reserved o' = po_reserved o → wp True (fail_with e d) (outcome (mark_of o) s) (mkPst o' s').
Proof.
  intros H1 H2 Hi S Hres. apply wp_fail_with; [done| |by eapply inv_registered_later|by apply steady_grows|].
  - intros Hd. by rewrite Hd in H2.
  - by rewrite Hres, (shape_reserved _ (inv_shape _ _ Hi)), H1.
Qed.

Lemma wp_wait o s s' :
  finished (po_state o) = false → inv o s → steady s s' →
  wp True getSessionPollInfo (outcome (mark_of o) s) (mkPst o s').
Proof. intros H1 Hi S. apply wp_session_info; [done|done|by eapply inv_steady|by apply steady_grows]. Qed.

Lemma move_to x o o' s s' :
  inv o s → finished (po_state o) = false → steady s s' →
  edge (mark_of o) (mkMark x (po_reused o') (po_retried o')) → finished x = false → po_reserved o' = po_reserved o →
  shape (o' <| po_state := x |>) → data_inv (o' <| po_state := x |>) s' →
  outcome (mark_of o) s None (mkPst (o' <| po_state := x |>) s').
Proof.
  intros Hi Hf S He Hx Hres Hs Hd. apply out_move; [exact He| |by apply steady_grows|simpl; by intros ->|simpl; by rewrite Hx].
  pose proof (inv_steady _ _ _ Hi S) as [_ H2 H3 _]. split; [done| |done|done]. simpl. by rewrite Hres.
Qed.

Lemma wp_move x o o' s s' :
  inv o s → finished (po_state o) = false → steady s s' →
  edge (mark_of o) (mkMark x (po_reused o') (po_retried o')) → finished x = false → po_reserved o' = po_reserved o →
  shape (o' <| po_state := x |>) → data_inv (o' <| po_state := x |>) s' →
  wp True (advance x) (outcome (mark_of o) s) (mkPst o' s').
Proof. intros. unfold advance, set_state. wp_step. apply wp_pupd. apply wp_mret. by apply move_to. Qed.

Lemma next_steps x y : next x y → finished x = false.
Proof. by destruct 1. Qed.

Lemma wp_next y o o' s s' :
  inv o s → steady s s' → next (po_state o) y → finished y = false →
  (po_reused o', po_retried o', po_reserved o') = (po_reused o, po_retried o, po_reserved o) →
  shape (o' <| po_state := y |>) → data_inv (o' <| po_state := y |>) s' →
  wp True (advance y) (outcome (mark_of o) s) (mkPst o' s').
Proof.
  intros Hi S Hn Hy [= H1 H2 H3] Hs Hd. pose proof (next_steps _ _ Hn). apply wp_move; [done..| |done|done|done|done].
  unfold mark_of. rewrite H1, H2. by apply edge_next.
Qed.

Lemma wp_raise_if (b : bool) e (Q : unit → pst E → Prop) o s :
  (∀ s', steady s s' → (b = true → xsink s' ≠ []) → Q tt (mkPst o s')) →
  wp True (when b (lift (raise_exc true e))) Q (mkPst o s).
Proof.
  intros HQ. destruct b; cbn [when].
  - apply wp_lift. wp_world. apply HQ; [apply linked_xsink|done].
  - wp_step. by apply HQ.
Qed.

Lemma wp_failed (Q : bool → pst E → Prop) o s :
  (∀ b, (b = true → xsink s ≠ []) → Q b (mkPst o s)) → wp True (lift has_exc) Q (mkPst o s).
Proof. intros HQ. apply wp_lift. by apply wp_has_exc; intros X; apply HQ. Qed.
End operation.
