(* ===== verification/PollFrame.v ===== *)
(** What a poll operation does to its client and to itself, whatever its state: relations
    on the client that each step of a connect preserves are preserved by every call, and the
    path of the file is not lost. *)

From S2P Require Import Prelude Modes World Sim Defaults Transport Config HostKey Auth Connect Session Sftp Transfer Poll PollProof.

Section frame.
Context {E : Type} `{!Env E}.

Abbreviation M := (prog (st E)).
Abbreviation P := (prog (pst E)).

(** The path is the one asked for, made absolute. *)
Definition path_ok (o : poll) : Prop :=
  po_abs_path o = EmptyString ∨ ∃ cwd, po_abs_path o = absolute_filename cwd (po_path o).

Definition keeps_path (o o' : poll) : Prop := po_path o' = po_path o ∧ (path_ok o → path_ok o').

(** Relations on clients that the fields other than the registries do not matter to. *)
Class Free (R0 : relation (st E)) := {
  free_linked :: Linked R0;
  free_upd f : (∀ c, channel_set (f c) = channel_set c) → (∀ c, listener_set (f c) = listener_set c) →
    preserves R0 (upd f)
}.

(** Relations that are kept by what keeps [R0] on the client and loses no path. *)
Class Framed (R0 : relation (st E)) (R : relation (pst E)) := {
  framed_preorder :: PreOrder R;
  framed_lift {A} (m : M A) : preserves R0 m → preserves R (lift m);
  framed_pupd f : (∀ o, keeps_path o (f o)) → preserves R (pupd f)
}.

Definition named (p p' : pst E) : Prop := keeps_path (op p) (op p').

#[export] Instance named_preorder : PreOrder named.
Proof. split; [by split|]. intros p1 p2 p3 [H1 H2] [H3 H4]. split; [congruence|auto]. Qed.

#[export] Instance named_framed R0 : Framed R0 named.
Proof.
  split; [apply _| |intros f H p; apply wp_modify, H]. intros A m _ [o s]. apply wp_lift, wp_intro. by split.
Qed.

#[export] Instance on_base_framed R0 : PreOrder R0 → Framed R0 (on_base R0).
Proof. intros H. split; [apply _|intros; by apply preserves_lift|intros; apply preserves_pupd, _]. Qed.

#[export] Instance emits_free P : Plain P → Free (emits P).
Proof. intros HP. split; [apply _|]. intros f _ _. apply preserves_upd. intros s. by exists []. Qed.

#[export] Instance grows_free : Free grows.
Proof. split; [apply _|]. intros f _ _. apply preserves_upd. intros s. by exists []. Qed.

#[export] Instance keeps_registered_free : Free keeps_registered.
Proof. split; [apply _|apply preserves_upd_registered]. Qed.

Section stages.
Context (R0 : relation (st E)) (R : relation (pst E)) `{!Framed R0 R} `{!Free R0}.

#[local] Hint Extern 3 (preserves R0 (upd _)) => apply free_upd; intros ?; reflexivity : preserves.
#[local] Hint Resolve linked_disconnect session_wait session_force_disconnect session_eval session_checkAccess
  session_getCandidates session_resolveCandidate session_verifyHostKey : preserves.
#[local] Hint Extern 2 (preserves R (pupd _)) =>
  apply framed_pupd; intros ?; split; [try case_match; reflexivity|intros [?|?]; [by left|by right]] : preserves.
#[local] Hint Extern 2 (preserves R (pfield _)) => apply preserves_gets; apply _ : preserves.
#[local] Hint Extern 3 (preserves R (lift _)) => apply (framed_lift (R0:=R0)); solve [preserves_auto] : preserves.

Lemma frame_doSessionErr : preserves R0 sftp_doSessionErr.
Proof. unfold sftp_doSessionErr, sftp_session_err, check_still_connected. preserves_auto. Qed.

#[local] Hint Resolve frame_doSessionErr : preserves.

Lemma frame_drop_agent : preserves R drop_agent.
Proof. unfold drop_agent. preserves_auto. Qed.

Lemma frame_close_handle d to h : preserves R (lift (close_handle d to h)).
Proof. apply (framed_lift (R0:=R0)). unfold close_handle. preserves_auto. Qed.

#[local] Hint Resolve frame_drop_agent frame_close_handle : preserves.

Lemma frame_closeIntern d : preserves R (poll_closeIntern d).
Proof. unfold poll_closeIntern, restoreBlockingIntern, drop_connection, closeTransportUnlocked, set_state. preserves_auto. Qed.
#[local] Hint Resolve frame_closeIntern : preserves.

Lemma frame_leave d : preserves R (leave d).
Proof. unfold leave. preserves_auto. Qed.

#[local] Hint Resolve frame_leave : preserves.

Lemma frame_fail_with e d : preserves R (fail_with e d).
Proof. unfold fail_with. preserves_auto. Qed.

Lemma frame_advance x : preserves R (advance x).
Proof. unfold advance, set_state. preserves_auto. Qed.

Lemma frame_sessionError : preserves R sessionError.
Proof. unfold sessionError. preserves_auto. Qed.

#[local] Hint Resolve frame_fail_with frame_advance frame_sessionError : preserves.

Lemma frame_info fd ev extra to : preserves R (getPollInfo fd ev extra to).
Proof. unfold getPollInfo. preserves_auto. Qed.

#[local] Hint Resolve frame_info : preserves.

Lemma frame_session_info : preserves R getSessionPollInfo.
Proof. unfold getSessionPollInfo. preserves_auto. Qed.

Lemma frame_retry : preserves R retryAfterConnectionLoss.
Proof.
  unfold retryAfterConnectionLoss, connectionLost. preserves_auto.
  apply framed_pupd. intros o. split; [done|]. intros _. by left.
Qed.

Lemma frame_make_nonblocking : preserves R make_nonblocking.
Proof. unfold make_nonblocking, setFdNonBlocking. preserves_auto. Qed.

#[local] Hint Resolve frame_session_info frame_retry frame_make_nonblocking : preserves.

(** The stages. *)
Lemma frame_start : preserves R handleStart.
Proof. unfold handleStart, set_state, checkConnectPreconditionsUnlocked. preserves_auto. Qed.

Lemma frame_connecting : preserves R handleConnecting.
Proof.
  unfold handleConnecting, holdSessionDescriptorUnlocked, prepareSessionUnlocked. preserves_auto.
Qed.

Lemma frame_handshake : (∀ s fd, preserves R0 (callZ (session_handshake s fd))) → preserves R handleHandshake.
Proof. intros H. unfold handleHandshake, startupUnlocked. preserves_auto. Qed.

Lemma frame_authlist : preserves R handleAuthList.
Proof. unfold handleAuthList, buildAuthPlanUnlocked. preserves_auto. Qed.

Lemma frame_sftp_init : preserves R handleSftpInit.
Proof. unfold handleSftpInit. preserves_auto. Qed.

Lemma frame_realpath : preserves R handleRealPath.
Proof. unfold handleRealPath. preserves_auto. Qed.

Lemma frame_stat : preserves R handleStat.
Proof.
  unfold handleStat. preserves_auto. apply framed_pupd. intros o. destruct (str_empty (po_abs_path o)); [|done].
  split; [done|]. intros _. right. by exists a.
Qed.

Lemma frame_open : preserves R handleOpen.
Proof. unfold handleOpen. preserves_auto. Qed.

Lemma frame_read : (∀ h k, preserves R0 (call (sftp_read h k))) → preserves R handleRead.
Proof. intros H. unfold handleRead, read_iteration. preserves_auto. Qed.

Lemma frame_close : preserves R handleClose.
Proof. unfold handleClose, set_state. preserves_auto. Qed.

Lemma frame_auth : (∀ a, preserves R0 (authCallUnlocked a)) → (∀ a, preserves R0 (agent_userauth_call a)) →
  preserves R handleAuth.
Proof.
  intros Ha Hu. unfold handleAuth, auth_iteration, stepAgentAuth, expandProviderAttempt, pop_attempt, drop_agent,
    advance, set_state, setAuthenticatedWithUnlocked, finishConnectUnlocked.
  preserves_auto.
Qed.

(** Every stage but the authentication. *)
Lemma frame_stage `{!Carrier R0} st : (∀ s fd, preserves R0 (callZ (session_handshake s fd))) → st ≠ AUTH →
  preserves R (run_stage st).
Proof.
  intros Hh Hst. destruct st; try done; cbn [run_stage];
    eauto using frame_start, frame_connecting, frame_handshake, frame_authlist, frame_sftp_init, frame_realpath, frame_stat, frame_open,
      frame_close.
  all: try (apply preserves_ret, _).
  apply frame_read. intros h k. by apply preserves_carrier_call.
Qed.

(** Every call. *)
Context `{!Carrier R0} `{!Session R0}.

Lemma frame_any_stage st : preserves R (run_stage st).
Proof.
  destruct (decide (st = AUTH)) as [->|Hst]; [|apply frame_stage; [intros; apply session_handshake_call, _|done]].
  apply frame_auth; intros; [apply session_authCall, _|apply session_userauth_call, _].
Qed.

#[local] Hint Resolve frame_any_stage : preserves.

Lemma frame_continue : preserves R continuePoll.
Proof. unfold continuePoll, continuePollIntern. preserves_auto. Qed.

Lemma frame_abort : preserves R poll_abort.
Proof. unfold poll_abort. preserves_auto. Qed.

Lemma frame_deref : preserves R poll_deref.
Proof. apply frame_closeIntern. Qed.
End stages.
End frame.
