(* ===== verification/Client.v ===== *)
(** The client as a whole: every call of its interface as one step, and what all of them
    preserve, as an interface of relations ([Whole]) with its instances. *)

From S2P Require Import Prelude Modes World Sim Defaults Transport Config HostKey Auth Connect Channel Info Session Gate Sftp Transfer Poll PollProof PollFrame.

(** ** The calls *)

(** The queries and the access of the I/O controller. *)
Inductive info_call :=
  | IFingerprint
  | IHostKey
  | ISupportedAlgorithms (method_type : Z)
  | IBanner
  | ISetTraceLevel (bitmask : Z)
  | IInfo
  | ISftpInfo
  | IExitSignal (id : positive)
  | IPollableDescriptor
  | IHoldDescriptor (fd : Z)
  | ICloseIo.

Inductive client_call :=
  | CConnect (timeout_ms : Z)
  | CConfigure (op : client_op)
  | CSetKeys (priv pub : option string)
  | CChannel (a : channel_api)
  | CSftp (a : sftp_api)
  | CInfo (i : info_call).

Section client.
Context {E : Type} `{!Env E}.

Abbreviation M := (prog (st E)).

Definition run_info (i : info_call) : M unit :=
  match i with
  | IFingerprint => _ ← fingerprint; mret tt
  | IHostKey => _ ← getHostKeyLocked; mret tt
  | ISupportedAlgorithms method_type => _ ← getSupportedAlgorithms method_type; mret tt
  | IBanner => _ ← getBannerLocked; mret tt
  | ISetTraceLevel bitmask => _ ← setTraceLevelLocked bitmask; mret tt
  | IInfo => _ ← sshInfo; mret tt
  | ISftpInfo => _ ← sftpInfo; mret tt
  | IExitSignal id => _ ← getExitSignal id; mret tt
  | IPollableDescriptor => _ ← getPollableDescriptor; mret tt
  | IHoldDescriptor fd => _ ← holdPollableDescriptor fd; mret tt
  | ICloseIo => closeIo
  end.

(** Every call has an exception sink of its own. *)
Definition run_call (c : client_call) : M unit :=
  _ ← modify (λ s, s <| xsink := [] |>);
  match c with
  | CConnect to => _ ← sshConnect to; mret tt
  | CConfigure op => run_client_op op
  | CSetKeys priv pub => _ ← setKeys priv pub; mret tt
  | CChannel a => run_api a
  | CSftp a => run_sftp a
  | CInfo i => run_info i
  end.

Definition client_step (s s' : st E) : Prop := ∃ c, run_call c s = Some (tt, s').

(** ** What every call preserves *)

Class Whole (R : relation (st E)) := {
  whole_registry :: Registry R;
  whole_sftp :: SftpSession R;
  whole_path :: PathFree R;
  whole_sink s l : R s (s <| xsink := l |>)
}.

Section preserved.
Context (R : relation (st E)) `{!Whole R}.

#[local] Hint Extern 3 (preserves R (upd _)) => apply methods_upd; intros ?; done : preserves.
#[local] Hint Extern 0 (SftpSession _) => typeclasses eauto : preserves.
#[local] Hint Extern 0 (Methods _) => typeclasses eauto : preserves.
#[local] Hint Resolve methods_disconnect sftp_sshConnect : preserves.

Lemma whole_info i : preserves R (run_info i).
Proof.
  assert (∀ l, preserves R (query_methods l)) as Hq.
  { induction l as [|[] l IH]; cbn [query_methods]; preserves_auto. }
  destruct i; cbn [run_info];
    unfold sshInfo, sftpInfo, sshInfoIntern, fingerprint, fingerprintUnlocked, getHostKeyLocked, key_hash,
      getSupportedAlgorithms, query_session, getBannerLocked, setTraceLevelLocked, getExitSignal, free_string,
      check_open, get_chan, getPollableDescriptor, holdPollableDescriptor, closeIo, sshConnectedUnlocked;
    preserves_auto.
Qed.

Lemma whole_configure op : preserves R (run_client_op op).
Proof.
  destruct op; cbn [run_client_op];
    unfold disconnect, setUser, setPassword, setKnownHostsFile, setVerifyHostKey, setHostKeyStore,
      setClientIdentityProvider, setMethodPreference, setBanner, setKeysFromData, setUseAgent,
      setKeepalive, setHostKeyPolicy, setClientAuthOrder, setClientIdentityFallbackPolicy,
      guarded_set, set_object, when_object, silent_set, ranged_set, reservePollOperation; preserves_auto.
Qed.

Lemma whole_call c : preserves R (run_call c).
Proof.
  unfold run_call. preserves_step; [apply preserves_modify; intros; apply whole_sink|]. destruct c.
  - unfold sshConnect. preserves_auto.
  - apply whole_configure.
  - unfold setKeys. preserves_auto; apply methods_upd; intros c; by destruct (_ && _).
  - apply (run_api_registry R).
  - apply run_sftp_preserves; [apply _..|]. intros. unfold disconnect. preserves_auto.
  - apply whole_info.
Qed.

Lemma whole_steps s s' : rtc client_step s s' → R s s'.
Proof.
  induction 1 as [|s1 s2 s3 [c H] _ IH]; [reflexivity|]. etransitivity; [|exact IH].
  apply (wp_run _ _ _ _ _ (whole_call c s1) H).
Qed.
End preserved.

(** ** Instances *)

#[export] Instance keeps_registered_whole : Whole keeps_registered.
Proof. split; [apply _..|]. intros s l [H1 H2 H3 H4]. by split. Qed.

#[local] Hint Extern 3 (preserves gated (upd _)) => apply gated_preserves; preserves_auto : preserves.
#[local] Hint Extern 3 (preserves gated (modify _)) =>
  apply preserves_modify; intros ?; apply gated_emits; by exists [] : preserves.

#[export] Instance gated_whole : Whole gated.
Proof.
  split; [|apply _| |].
  - split; [split|..]; intros; unfold registerChannelUnlockedRaw, registerListenerUnlocked, channel_destructor,
      channelDeletedUnlocked, channel_closeUnlocked, listener_cancelUnlocked, listenerDeletedUnlocked, get_chan, get_lst;
      try apply linked_disconnect; try apply _; preserves_auto.
  - intros s p. apply gated_emits. by exists [].
  - intros s l. apply gated_emits. by exists [].
Qed.

(** No object is reopened, none disappears, and new ones have new numbers. *)
Record births (s s' : st E) : Prop := {
  births_next : (nextobj s ≤ nextobj s')%positive;
  births_chans : dom (chans s) ⊆ dom (chans s');
  births_lsts : dom (lsts s) ⊆ dom (lsts s');
  births_open_chans id : (id < nextobj s)%positive → is_Some (chan_ptr s' id) → is_Some (chan_ptr s id);
  births_open_lsts id : (id < nextobj s)%positive → is_Some (lst_ptr s' id) → is_Some (lst_ptr s id)
}.

#[export] Instance births_preorder : PreOrder births.
Proof.
  split; [by split|]. intros s1 s2 s3 [A1 A2 A3 A4 A5] [B1 B2 B3 B4 B5]. split.
  - lia.
  - set_solver.
  - set_solver.
  - intros id Hid H. apply A4, B4; [done|lia|done].
  - intros id Hid H. apply A5, B5; [done|lia|done].
Qed.

Lemma births_same s s' : chans s' = chans s → lsts s' = lsts s → nextobj s' = nextobj s → births s s'.
Proof. intros Hc Hl Hn. split; unfold chan_ptr, lst_ptr; rewrite ?Hc, ?Hl, ?Hn; done. Qed.

#[export] Instance births_frame : Frame births.
Proof. split; [apply _|..]; intros; by apply births_same. Qed.

Lemma births_upd f : preserves births (upd f).
Proof. apply preserves_upd. intros s. by apply births_same. Qed.

Lemma births_close_channel id : preserves births (channel_closeUnlocked id).
Proof.
  unfold channel_closeUnlocked, get_chan. preserves_auto. apply preserves_modify. intros s. split; simpl; try done.
  - by rewrite dom_alter_L.
  - intros id' _. unfold chan_ptr at 1. simpl. rewrite chan_ptr_alter. by case_decide; [intros []|].
Qed.

Lemma births_cancel id : preserves births (listener_cancelUnlocked id).
Proof.
  unfold listener_cancelUnlocked, listenerDeletedUnlocked, get_lst. preserves_auto; [apply births_upd|].
  apply preserves_modify. intros s. split; simpl; try done.
  - by rewrite dom_alter_L.
  - intros id' _. unfold lst_ptr at 1. simpl. rewrite lst_ptr_alter. by case_decide; [intros []|].
Qed.

#[local] Hint Resolve births_upd births_close_channel births_cancel : preserves.

Lemma births_disconnect_virtual force to (adh : M unit) xs :
  preserves births adh → preserves births (disconnect_virtual force to adh xs).
Proof.
  intros H. unfold disconnect_virtual, SFTPClient_disconnectUnlocked, SSH2Client_disconnectUnlocked, doShutdown,
    closeTransportUnlocked.
  repeat first [progress preserves_auto | apply preserves_while_eagain_hint; [apply _| |]].
Qed.

Lemma births_disconnect force to xs : preserves births (disconnectUnlocked force to xs).
Proof. apply births_disconnect_virtual. preserves_auto. Qed.

#[export] Instance births_session : Session births.
Proof.
  apply session_of; [apply _|intros; by apply births_same|intros; by apply births_same|intros; by apply births_same
                    |apply births_disconnect|].
  intros op. apply other_thread_preserves; [apply _|intros; by apply births_same|intros; by apply births_same
                                           |apply births_disconnect].
Qed.

Lemma births_register_channel (h : handle) : preserves births (registerChannelUnlockedRaw (Some h)).
Proof.
  intros s. unfold registerChannelUnlockedRaw. repeat wp_step. wp_world. wp_step. split; simpl; [lia|..].
  - rewrite dom_insert_L. set_solver.
  - done.
  - intros id Hid. unfold chan_ptr. simpl. by rewrite lookup_insert_ne by lia.
  - done.
Qed.

Lemma births_register_listener (h : handle) port : preserves births (registerListenerUnlocked (Some h) port).
Proof.
  intros s. unfold registerListenerUnlocked. repeat wp_step. wp_world. wp_step. split; simpl; [lia|..].
  - done.
  - rewrite dom_insert_L. set_solver.
  - done.
  - intros id Hid. unfold lst_ptr. simpl. by rewrite lookup_insert_ne by lia.
Qed.

#[export] Instance births_whole : Whole births.
Proof.
  split.
  - split; [split; [apply _|intros; apply births_upd| |apply births_cancel|apply births_disconnect]|..].
    + intros id. unfold channel_destructor, channelDeletedUnlocked, get_chan. preserves_auto.
    + apply births_register_channel.
    + apply births_register_listener.
  - apply sftp_of; [apply _|intros; by apply births_same| |apply births_disconnect_virtual].
    intros A m. apply sink_free; [apply _|]. intros. by apply births_same.
  - intros s p. by apply births_same.
  - intros s l. by apply births_same.
Qed.

(** ** Operations that make no objects *)

Definition no_new_objects (s s' : st E) : Prop :=
  registered s →
  registered s' ∧ channel_set (cl s') ⊆ channel_set (cl s) ∧ listener_set (cl s') ⊆ listener_set (cl s).

#[export] Instance no_new_objects_frame : Frame no_new_objects.
Proof.
  split; [split|..].
  - by intros s H.
  - intros s1 s2 s3 H1 H2 Hr. destruct (H1 Hr) as (R1 & C1 & L1). destruct (H2 R1) as (R2 & C2 & L2).
    split; [done|]. split; set_solver.
  - intros s ev e' Hr. split; [|done]. by apply (frame_logged (R:=keeps_registered) s ev e').
  - intros s e Hr. split; [|done]. by apply (frame_xsink (R:=keeps_registered)).
Qed.

Lemma no_new_objects_of {A} (m : M A) :
  preserves keeps_registered m →
  (∀ s, registered s → wp True m (λ _ s', channel_set (cl s') ⊆ channel_set (cl s) ∧
     listener_set (cl s') ⊆ listener_set (cl s)) s) →
  preserves no_new_objects m.
Proof.
  intros Hk Hs s. apply wp_intro. intros a s' Hrun Hr. split.
  - by apply (wp_run _ _ _ _ _ (Hk s) Hrun).
  - apply (wp_run _ _ _ _ _ (Hs s Hr) Hrun).
Qed.

Lemma no_new_objects_upd f :
  (∀ c, channel_set (f c) = channel_set c) → (∀ c, listener_set (f c) = listener_set c) → preserves no_new_objects (upd f).
Proof.
  intros Hc Hl. apply no_new_objects_of; [by apply preserves_upd_registered|].
  intros s _. apply wp_upd. simpl. by rewrite Hc, Hl.
Qed.

Lemma no_new_objects_disconnect force to xs : preserves no_new_objects (disconnectUnlocked force to xs).
Proof.
  apply no_new_objects_of; [apply disconnectUnlocked_registered|]. intros s Hr.
  eapply wp_mono; [|by apply (disconnect_post force to xs s)]. intros rc s' (_ & D & _).
  rewrite (disc_channel_set _ D), (disc_listener_set _ D). split; set_solver.
Qed.

Lemma no_new_objects_destroy id : preserves no_new_objects (channel_destructor id).
Proof.
  apply no_new_objects_of; [apply channel_destructor_registered|]. intros s Hr.
  unfold channel_destructor, channelDeletedUnlocked, channel_closeUnlocked, get_chan. wp_step. wp_step. wp_step; [|done].
  repeat first [wp_step | wp_world]. simpl. split; set_solver.
Qed.

Lemma no_new_objects_cancel id : preserves no_new_objects (listener_cancelUnlocked id).
Proof.
  apply no_new_objects_of; [apply listener_cancel_registered|]. intros s Hr.
  unfold listener_cancelUnlocked, listenerDeletedUnlocked, get_lst. wp_step. wp_step. wp_step; [|done].
  repeat first [wp_step | wp_world]. simpl. split; set_solver.
Qed.

#[export] Instance no_new_objects_methods : Methods no_new_objects.
Proof.
  split; [apply _|intros; by apply no_new_objects_upd|apply no_new_objects_destroy|apply no_new_objects_cancel
         |apply no_new_objects_disconnect].
Qed.

#[export] Instance no_new_objects_session : Session no_new_objects.
Proof.
  assert (∀ f (s : st E), (∀ c, channel_set (f c) = channel_set c ∧ listener_set (f c) = listener_set c ∧
      sftppath (f c) = sftppath c ∧ (poll_op_in_progress c = true → poll_op_in_progress (f c) = true)) →
    no_new_objects s (s <| cl := f (cl s) |>)) as Hu.
  { intros f s Hf [H1 H2 H3 H4]. destruct (Hf (cl s)) as (Hc & Hl & _).
    split; [split; simpl; rewrite ?Hc, ?Hl; done|]. simpl. by rewrite Hc, Hl. }
  apply session_of; [apply _|intros; apply frame_logged|intros; apply frame_xsink|done|apply no_new_objects_disconnect|].
  intros op. apply other_thread_preserves; [apply _| |done|apply no_new_objects_disconnect].
  intros s l [H1 H2 H3 H4]. by split; [split|].
Qed.

#[export] Instance no_new_objects_free : Free no_new_objects.
Proof. split; [apply _|apply no_new_objects_upd]. Qed.

#[export] Instance births_free : Free births.
Proof. split; [apply _|]. intros f _ _. apply births_upd. Qed.

(** ** SCP over streams leaves no channel behind *)

(** The channel of the transfer is open during it only. *)
Definition only_more (s : st E) (id : positive) (s' : st E) : Prop :=
  registered s' ∧ channel_set (cl s') ⊆ {[id]} ∪ channel_set (cl s).

Lemma wp_transfer_step {A B} (m : M A) (k : A → M B) (Q : B → st E → Prop) s id s1 :
  preserves no_new_objects m → only_more s id s1 → (∀ a s2, only_more s id s2 → wp True (k a) Q s2) →
  wp True (m ≫= k) Q s1.
Proof.
  intros Hm [Hr Hs] HQ. wp_step. eapply wp_mono; [|apply Hm]. intros a s2 H. apply HQ.
  destruct (H Hr) as (R2 & S2 & _). split; [done|set_solver].
Qed.

Lemma transfer_over (s : st E) id s1 : only_more s id s1 →
  wp True (drop_channel id) (λ _ s', registered s' ∧ channel_set (cl s') ⊆ channel_set (cl s)) s1.
Proof.
  intros [Hr Hs]. eapply wp_mono; [|by apply drop_channel_post]. intros ? s2 [R2 S2]. split; [done|set_solver].
Qed.

Lemma transfer_opens mk err to (k : option positive → M unit) (s : st E) : registered s →
  k None = mret tt →
  (∀ id s1, only_more s id s1 → wp True (k (Some id)) (λ _ s', registered s' ∧ channel_set (cl s') ⊆ channel_set (cl s)) s1) →
  wp True (open_channel mk err to ≫= k) (λ _ s', registered s' ∧ channel_set (cl s') ⊆ channel_set (cl s)) s.
Proof.
  intros Hr Hn Hs. wp_step. eapply wp_mono; [|by apply open_channel_post]. intros [id|] s1 Ho; simpl in Ho.
  - destruct Ho as (R1 & S1 & _). apply Hs. split; [done|]. by rewrite S1.
  - rewrite Hn. destruct Ho as (R1 & _ & [[Hcl _]|[D _]]); apply wp_mret; (split; [done|]).
    + by rewrite Hcl.
    + rewrite (disc_channel_set _ D). set_solver.
Qed.

#[local] Hint Extern 0 (Methods _) => typeclasses eauto : preserves.
#[local] Hint Resolve preserves_check_open chan_request_registry write_registry read_buffer_registry : preserves.

Lemma scp_stream_leaves_no_channel c s : registered s →
  match c with AScpGet _ _ | AScpPut _ _ _ _ _ _ => True | _ => False end →
  wp True (run_api c) (λ _ s', registered s' ∧ channel_set (cl s') ⊆ channel_set (cl s)) s.
Proof.
  intros Hr Hc. destruct c; try done; cbn [run_api]; unfold scpGet_stream, scpPut_stream, scpGetChannel, scpPutChannel;
    (apply transfer_opens; [done..|]); intros id s1 H1.
  - eapply wp_transfer_step; [|exact H1|]; [unfold sendEof; preserves_auto|]. intros rc s2 H2.
    eapply wp_transfer_step; [|exact H2|]; [unfold channel_is_eof; preserves_calls|]. intros ? s3 H3.
    eapply wp_transfer_step; [|exact H3|]; [unfold waitClosed; preserves_auto|]. intros ? s4 H4. by apply transfer_over.
  - eapply wp_transfer_step; [|exact H1|]; [preserves_calls|]. intros ? s2 H2.
    eapply wp_transfer_step; [|exact H2|]; [unfold sendEof; preserves_auto|]. intros rc s3 H3.
    eapply wp_transfer_step; [|exact H3|]; [unfold waitEof, waitClosed; preserves_calls|]. intros ? s4 H4. by apply transfer_over.
Qed.
End client.
