(* ===== verification/Life.v ===== *)
(** The life of a client under its reference counting: who holds a reference, what the
    destructors do, and why no object is used after it has been freed. *)

From S2P Require Import Prelude Modes World Sim Defaults Transport Config HostKey Auth Connect Channel Info Session Gate Sftp Transfer Poll PollProof PollFrame Client.

Section life.
Context {E : Type} `{!Env E}.

Abbreviation M := (prog (st E)).

(** ** Destruction *)

Definition SFTPClient_destructor : M unit := doShutdown DEFAULT_TIMEOUT_MS false.

(** The virtual call of the destructor is that of the base class. *)
Definition SSH2Client_destructor : M unit :=
  _ ← SSH2Client_disconnectUnlocked true DEFAULT_TIMEOUT_MS (mret tt) false;
  c ← gets cl;
  _ ← when_object (client_identity_provider c) object_deref;
  when_object (host_key_store c) object_deref.

Definition client_destructor : M unit :=
  k ← cfield kls;
  _ ← match k with SFTPClientClass => SFTPClient_destructor | SSH2ClientClass => mret tt end;
  SSH2Client_destructor.

(** A client object with everything that refers to it: the %Qore object, the objects of its
    channels and listeners, and its poll operations. *)
Record life := mkLife {
  core : st E;
  refs : Z;
  owned : bool;
  live_chans : gset positive;
  live_lsts : gset positive;
  operations : gmap positive poll;
  deleted : bool
}.

#[export] Instance eta_life : Eta life := λ l,
  mkLife l.(core) l.(refs) l.(owned) l.(live_chans) l.(live_lsts) l.(operations) l.(deleted).

(** [SSH2Client::deref] and [SFTPClient::deref] *)
Definition deref (l : life) : option life :=
  let l := l <| refs := refs l - 1 |> in
  if refs l =? 0 then
    r ← (_ ← callU socket_cleanup; client_destructor) (core l);
    Some (l <| core := r.2 |> <| deleted := true |>)
  else Some l.

(** The last step of the destructors: [obj] is what they do to the client before it. *)
Definition release (obj : M unit) (forget : life → life) (l : life) : option life :=
  r ← obj (core l);
  deref (forget (l <| core := r.2 |>)).

(** [~SSH2Channel] and [~SSH2Listener] *)
Definition delete_channel (id : positive) : life → option life :=
  release (channel_destructor id) (λ l, l <| live_chans := live_chans l ∖ {[id]} |>).

Definition delete_listener (id : positive) : life → option life :=
  release (listener_destructor id) (λ l, l <| live_lsts := live_lsts l ∖ {[id]} |>).

(** The destructor of the %Qore object, which ends the session first. *)
Definition delete_client : life → option life :=
  release (_ ← disconnect true DEFAULT_TIMEOUT_MS false; mret tt) (λ l, l <| owned := false |>).

Definition with_op (l : life) (id : positive) (p : pst E) : life :=
  l <| core := base p |> <| operations := <[id := op p]> (operations l) |>.

Definition op_state (l : life) (o : poll) : pst E := mkPst o ((core l) <| xsink := [] |>).

(** The constructor of the operation, and [SftpPollOperationPriv::deref] with the last
    reference to it. *)
Definition start_poll (id : positive) (path : string) (l : life) : life :=
  l <| refs := refs l + 1 |> <| operations := <[id := new_poll path DEFAULT_TIMEOUT_MS]> (operations l) |>.

Definition end_poll (id : positive) (o : poll) (l : life) : option life :=
  r ← poll_deref (op_state l o);
  deref ((l <| core := base r.2 |>) <| operations := delete id (operations l) |>).

(** ** What can happen *)

(** Whose call it is: the caller has a reference to the object it calls. *)
Definition callable (l : life) (c : client_call) : Prop :=
  match c with
  | CChannel (AMethod id _) | CInfo (IExitSignal id) => id ∈ live_chans l
  | CChannel (AAccept id _) | CChannel (ALifecycle (LCancelListener id)) => id ∈ live_lsts l
  | CChannel (ALifecycle (LDisconnect _ _ _)) => owned l = true
  (* these are no calls of the interface but steps of the others *)
  | CChannel (ALifecycle _) | CConfigure OpReservePollOperation => False
  | _ => owned l = true
  end.

(** The object of the channel of an SCP transfer between the server and a stream is deleted
    before the call returns. *)
Definition keeps_its_channel (c : client_call) : bool :=
  match c with CChannel (AScpGet _ _) | CChannel (AScpPut _ _ _ _ _ _) => false | _ => true end.

(** The objects that a call has made. *)
Definition new_chans (s s' : st E) : gset positive := dom (chans s') ∖ dom (chans s).
Definition new_lsts (s s' : st E) : gset positive := dom (lsts s') ∖ dom (lsts s).

(** The constructors of channels and listeners take a reference to their client. *)
Definition after_call (c : client_call) (l : life) (s' : st E) : life :=
  let cs := if keeps_its_channel c then new_chans (core l) s' else ∅ in
  let ls := new_lsts (core l) s' in
  l <| core := s' |> <| refs := refs l + Z.of_nat (size cs) + Z.of_nat (size ls) |>
    <| live_chans := live_chans l ∪ cs |> <| live_lsts := live_lsts l ∪ ls |>.

Inductive life_step : life → life → Prop :=
  | life_call l c s' : callable l c → run_call c (core l) = Some (tt, s') → life_step l (after_call c l s')
  (* [SFTPClient::startPollGetFile] reserves the client for the operation *)
  | life_start_poll l id path s' : owned l = true → operations l !! id = None →
      reservePollOperation (core l) = Some (0, s') → life_step l (start_poll id path (l <| core := s' |>))
  | life_poll l id o r p : operations l !! id = Some o → continuePoll (op_state l o) = Some (r, p) →
      life_step l (with_op l id p)
  | life_abort l id o u p : operations l !! id = Some o → poll_abort (op_state l o) = Some (u, p) →
      life_step l (with_op l id p)
  | life_end_poll l id o l' : operations l !! id = Some o → end_poll id o l = Some l' → life_step l l'
  | life_drop_channel l id l' : id ∈ live_chans l → delete_channel id l = Some l' → life_step l l'
  | life_drop_listener l id l' : id ∈ live_lsts l → delete_listener id l = Some l' → life_step l l'
  | life_drop_client l l' : owned l = true → delete_client l = Some l' → life_step l l'.

(** A new client, held by its %Qore object. *)
Definition born (s : st E) : life := mkLife s 1 true ∅ ∅ ∅ false.

Definition unused (s : st E) : Prop :=
  registered s ∧ chans s = ∅ ∧ lsts s = ∅.

(** ** The invariant *)

Definition holders (l : life) : Z :=
  Z.b2z (owned l) + Z.of_nat (size (live_chans l)) + Z.of_nat (size (live_lsts l)) + Z.of_nat (size (operations l)).

Definition gone (s : st E) : Prop :=
  disconnected s ∧ (kls (cl s) = SFTPClientClass → sftp_session (cl s) = None).

(** What is registered is alive, and what is alive was made. *)
Record sound (s : st E) (cs ls : gset positive) : Prop := {
  sound_registered : registered s;
  sound_channels : channel_set (cl s) ⊆ cs;
  sound_listeners : listener_set (cl s) ⊆ ls;
  sound_chans : cs ⊆ dom (chans s);
  sound_lsts : ls ⊆ dom (lsts s)
}.

Record life_inv (l : life) : Prop := {
  life_sound : sound (core l) (live_chans l) (live_lsts l);
  life_refs : refs l = holders l;
  life_deleted : deleted l = (refs l =? 0);
  life_gone : deleted l = true → gone (core l)
}.

Lemma sound_shrinks s s' cs ls cs' ls' :
  sound s cs ls → births s s' → registered s' → channel_set (cl s') ⊆ cs' → listener_set (cl s') ⊆ ls' →
  cs' ⊆ cs → ls' ⊆ ls → sound s' cs' ls'.
Proof. intros [_ _ _ Hc Hl] [_ Bc Bl _ _] Hr ????. split; [done..|set_solver|set_solver]. Qed.

(** Steps of the client that make no objects. *)
Lemma sound_quiet s s' cs ls : sound s cs ls → births s s' → no_new_objects s s' → sound s' cs ls.
Proof.
  intros Hs Hb Hn. destruct (Hn (sound_registered _ _ _ Hs)) as (R2 & C2 & L2).
  apply (sound_shrinks s s' cs ls); [done..| | |done|done]; destruct Hs; set_solver.
Qed.

(** Calls: what is new is counted. *)
Lemma fresh_from (s s' : st E) (m m' : gset positive) (reg : gset positive) id :
  id ∈ m' → (∀ i, (nextobj s ≤ i)%positive → i ∉ m) → ((id < nextobj s)%positive → id ∈ reg) → id ∈ reg ∪ (m' ∖ m).
Proof. intros Hm Hf Hr. destruct (decide (id < nextobj s)%positive); [set_solver|]. assert (id ∉ m) by (apply Hf; lia). set_solver. Qed.

Lemma channel_set_grows s s' : registered s → registered s' → births s s' →
  channel_set (cl s') ⊆ channel_set (cl s) ∪ new_chans s s'.
Proof.
  intros Hr Hr' Hb id Hid. apply (reg_channels _ Hr') in Hid as Ho. apply (fresh_from s s').
  - apply elem_of_dom. unfold chan_ptr in Ho. destruct (chans s' !! id); [done|by destruct Ho].
  - intros i Hi. apply not_elem_of_dom. by apply (reg_chans_fresh _ Hr).
  - intros Hlt. apply (reg_channels _ Hr). by apply (births_open_chans _ _ Hb).
Qed.

Lemma listener_set_grows s s' : registered s → registered s' → births s s' →
  listener_set (cl s') ⊆ listener_set (cl s) ∪ new_lsts s s'.
Proof.
  intros Hr Hr' Hb id Hid. apply (reg_listeners _ Hr') in Hid as Ho. apply (fresh_from s s').
  - apply elem_of_dom. unfold lst_ptr in Ho. destruct (lsts s' !! id); [done|by destruct Ho].
  - intros i Hi. apply not_elem_of_dom. by apply (reg_lsts_fresh _ Hr).
  - intros Hlt. apply (reg_listeners _ Hr). by apply (births_open_lsts _ _ Hb).
Qed.

Lemma call_keeps_channels c s s' : registered s → run_call c s = Some (tt, s') → keeps_its_channel c = false →
  channel_set (cl s') ⊆ channel_set (cl s).
Proof.
  intros Hr Hrun Hc. destruct c as [| | |a| |]; try done.
  set (s0 := s <| xsink := [] |>). change (run_api a s0 = Some (tt, s')) in Hrun.
  assert (registered s0) as H0 by (by apply (whole_sink (R := keeps_registered) s [])).
  eapply (wp_run _ _ _ _ _ (scp_stream_leaves_no_channel a s0 H0 _) Hrun).
  Unshelve. by destruct a.
Qed.

Lemma size_new (cs m m' : gset positive) : cs ⊆ m → Z.of_nat (size (cs ∪ (m' ∖ m))) = Z.of_nat (size cs) + Z.of_nat (size (m' ∖ m)).
Proof. intros H. rewrite size_union by set_solver. lia. Qed.

Lemma size_gone (cs : gset positive) id : id ∈ cs → Z.of_nat (size (cs ∖ {[id]})) = Z.of_nat (size cs) - 1.
Proof.
  intros H. rewrite size_difference by set_solver. rewrite size_singleton.
  assert (size cs ≠ 0%nat); [|lia]. rewrite size_non_empty_iff. set_solver.
Qed.

Lemma holders_nonneg l : 0 ≤ holders l.
Proof. unfold holders. destruct (owned l); simpl; lia. Qed.

Lemma callable_holds l c : callable l c → 1 ≤ holders l.
Proof.
  assert (∀ (cs : gset positive) id, id ∈ cs → 1 ≤ Z.of_nat (size cs)) as Hsz.
  { intros cs id Hid. pose proof (size_gone cs id Hid). lia. }
  assert (owned l = true → 1 ≤ holders l) as Ho.
  { unfold holders. intros ->. simpl. lia. }
  assert (∀ id, id ∈ live_chans l → 1 ≤ holders l) as Hc.
  { intros id H%Hsz. unfold holders. destruct (owned l); simpl; lia. }
  assert (∀ id, id ∈ live_lsts l → 1 ≤ holders l) as Hl.
  { intros id H%Hsz. unfold holders. destruct (owned l); simpl; lia. }
  unfold callable. intros H. destruct c as [| | |a| |i]; repeat case_match; first [done|eauto].
Qed.

Lemma call_inv l c s' : life_inv l → callable l c → run_call c (core l) = Some (tt, s') → life_inv (after_call c l s').
Proof.
  intros [Hs Hrefs Hdel Hgone] Hc Hrun. pose proof (callable_holds l c Hc) as Hpos.
  pose proof (wp_run _ _ _ _ _ (whole_call births c (core l)) Hrun) as Hb.
  pose proof (wp_run _ _ _ _ _ (whole_call keeps_registered c (core l)) Hrun (sound_registered _ _ _ Hs)) as Hr.
  destruct Hs as [Hr0 Hcs Hls Hdc Hdl].
  assert (sound s' (live_chans l ∪ (if keeps_its_channel c then new_chans (core l) s' else ∅)) (live_lsts l ∪ new_lsts (core l) s')) as Hs.
  { destruct Hb as [? Bc Bl ? ?] eqn:Hb0. clear Hb0. split; [done|..].
    - destruct (keeps_its_channel c) eqn:Hk.
      + pose proof (channel_set_grows _ _ Hr0 Hr Hb). set_solver.
      + pose proof (call_keeps_channels _ _ _ Hr0 Hrun Hk). set_solver.
    - pose proof (listener_set_grows _ _ Hr0 Hr Hb). set_solver.
    - unfold new_chans. destruct (keeps_its_channel c); set_solver.
    - unfold new_lsts. set_solver. }
  unfold after_call. split; simpl.
  - done.
  - unfold holders in *. simpl. unfold new_lsts. rewrite (size_new (live_lsts l)) by done.
    destruct (keeps_its_channel c); unfold new_chans; [rewrite (size_new (live_chans l)) by done; lia|].
    rewrite union_empty_r_L, size_empty. lia.
  - rewrite Hdel. apply eq_trans with false; [|symmetry]; apply Z.eqb_neq; lia.
  - rewrite Hdel, Hrefs. intros H%Z.eqb_eq. lia.
Qed.

(** ** Steps that release *)

#[local] Hint Resolve births_upd births_close_channel births_cancel : preserves.
#[local] Hint Extern 3 (preserves same_conf (upd _)) => apply preserves_upd; intros ?; reflexivity : preserves.

Lemma births_destructor : preserves births client_destructor.
Proof.
  unfold client_destructor, SFTPClient_destructor, SSH2Client_destructor, SSH2Client_disconnectUnlocked, doShutdown,
    closeTransportUnlocked, when_object.
  repeat first [progress preserves_auto | apply preserves_while_eagain_hint; [apply _| |]].
Qed.

Lemma SSH2Client_disconnect_conf force to xs : preserves same_conf (SSH2Client_disconnectUnlocked (E:=E) force to (mret tt) xs).
Proof.
  unfold_disconnect.
  repeat first [progress preserves_auto | apply preserves_while_eagain_hint; [apply _| |]].
Qed.

Lemma client_destructor_post (s : st E) : registered s →
  wp True client_destructor (λ _ s', registered s' ∧ gone s') s.
Proof.
  intros Hr. unfold client_destructor, SFTPClient_destructor, SSH2Client_destructor. wp_step. wp_world. wp_step.
  assert (wp True (match kls (cl s) with SFTPClientClass => doShutdown DEFAULT_TIMEOUT_MS false | SSH2ClientClass => mret tt end)
    (λ _ s', registered s' ∧ (kls (cl s') = SFTPClientClass → sftp_session (cl s') = None)) s) as Hsh.
  { destruct (kls (cl s)) eqn:Hk; [apply wp_mret; by rewrite Hk|].
    apply wp_and; [eapply wp_mono; [|apply doShutdown_registered]; intros ? s' H; by apply H|].
    eapply wp_mono; [|by apply (doShutdown_kls _ _ SFTPClientClass)]. by intros ? s' []. }
  eapply wp_mono; [|exact Hsh]. intros ? s1 [Hr1 Hn1]. wp_step.
  eapply wp_mono; [|apply wp_and; [by apply SSH2Client_disconnect_post|apply wp_and;
    [apply SSH2Client_disconnect_keeps_no_sftp|apply SSH2Client_disconnect_conf]]].
  intros rc s2 ((_ & Hd & Hr2) & Hno & Hcf).
  match goal with |- wp _ ?m _ _ => assert (preserves quiet m) as Hq end.
  { unfold when_object. preserves_auto. }
  eapply wp_mono; [|apply Hq]. intros ? s3 Hs3. split; [by apply (quiet_registered s2)|].
  split; [by apply (quiet_disconnected s2)|]. destruct Hs3 as (-> & _). intros Hk.
  apply (f_equal kls) in Hcf. simpl in Hcf. apply Hno, Hn1. congruence.
Qed.

Lemma released_post (s : st E) : registered s →
  wp True (callU socket_cleanup ≫= λ _, client_destructor) (λ _ s', births s s' ∧ registered s' ∧ gone s') s.
Proof.
  intros Hr. apply wp_and.
  - apply (preserves_bind births); [preserves_auto|]. intros _. apply births_destructor.
  - wp_step. wp_world. apply client_destructor_post. by apply (frame_logged (R:=keeps_registered)).
Qed.

Lemma deref_inv l l' : sound (core l) (live_chans l) (live_lsts l) → refs l = holders l + 1 → deleted l = false →
  deref l = Some l' → life_inv l'.
Proof.
  intros Hs Hrefs Hdel Hd. unfold deref in Hd. simpl in Hd. destruct (Z.eqb_spec (refs l - 1) 0) as [Hz|Hnz].
  - destruct ((callU socket_cleanup ≫= λ _, client_destructor) (core l)) as [[[] s']|] eqn:Hrun; [|done]. simplify_eq/=.
    assert (births (core l) s' ∧ registered s' ∧ gone s') as (Hb & Hr & Hg).
    { exact (wp_run _ _ _ _ _ (released_post _ (sound_registered _ _ _ Hs)) Hrun). }
    split; simpl; [|unfold holders in *; simpl; lia|by rewrite Hz|done].
    apply (sound_shrinks (core l) s' (live_chans l) (live_lsts l)); [done..| | |done|done].
    + rewrite (disc_channel_set _ (proj1 Hg)). set_solver.
    + rewrite (disc_listener_set _ (proj1 Hg)). set_solver.
  - simplify_eq/=. split; simpl; [done|unfold holders in *; simpl; lia| |by rewrite Hdel].
    rewrite Hdel. symmetry. by apply Z.eqb_neq.
Qed.

Lemma release_run obj forget l l' : release obj forget l = Some l' →
  ∃ s', obj (core l) = Some (tt, s') ∧ deref (forget (l <| core := s' |>)) = Some l'.
Proof. unfold release. destruct (obj (core l)) as [[[] s']|]; [|done]. simpl. eauto. Qed.

Lemma end_poll_run id o l l' : end_poll id o l = Some l' →
  ∃ u p, poll_deref (op_state l o) = Some (u, p) ∧
    deref ((l <| core := base p |>) <| operations := delete id (operations l) |>) = Some l'.
Proof. unfold end_poll. destruct (poll_deref _) as [[u p]|]; [|done]. simpl. eauto. Qed.

(** The steps of poll operations. *)
Lemma poll_sound l o {A} (m : prog (pst E) A) a p :
  (∀ R0 `{!Free R0, !Carrier R0, !Session R0}, preserves (on_base R0) m) →
  sound (core l) (live_chans l) (live_lsts l) → m (op_state l o) = Some (a, p) →
  sound (base p) (live_chans l) (live_lsts l).
Proof.
  intros Hm Hs Hrun. set (s0 := (core l) <| xsink := [] |>).
  assert (births (core l) s0) as Hb0 by (by apply births_same).
  pose proof (wp_run _ _ _ _ _ (Hm births _ _ _ (op_state l o)) Hrun) as Hb.
  pose proof (wp_run _ _ _ _ _ (Hm no_new_objects _ _ _ (op_state l o)) Hrun) as Hn.
  apply (sound_quiet s0); [|done..]. apply (sound_shrinks (core l) s0 (live_chans l) (live_lsts l)); try done; try apply Hs.
  by apply (whole_sink (R := keeps_registered)), Hs.
Qed.

(** The destructors of the objects, and the end of the client's own. *)
Lemma drop_channel_sound (s s' : st E) cs ls id : sound s cs ls → channel_destructor id s = Some (tt, s') →
  sound s' (cs ∖ {[id]}) ls.
Proof.
  intros Hs Hrun. pose proof (sound_registered _ _ _ Hs) as Hr.
  destruct (wp_run _ _ _ _ _ (drop_channel_post id s Hr) Hrun) as [Hr' Hc].
  pose proof (wp_run _ _ _ _ _ (methods_destroy (R:=births) id s) Hrun) as Hb.
  destruct (wp_run _ _ _ _ _ (no_new_objects_destroy id s) Hrun Hr) as (_ & _ & Hl).
  destruct Hs as [_ Hcs Hls ??]. apply (sound_shrinks s s' cs ls); [by split|done..| | | |done]; set_solver.
Qed.

Lemma methods_listener_destructor (R : relation (st E)) `{!Methods R} id : preserves R (listener_destructor id).
Proof. unfold listener_destructor, get_lst. preserves_auto. apply methods_cancel. Qed.

Lemma drop_listener_post id (s : st E) : registered s →
  wp True (listener_destructor id) (λ _ s', registered s' ∧ listener_set (cl s') ⊆ listener_set (cl s) ∖ {[id]} ∧
    births s s' ∧ channel_set (cl s') ⊆ channel_set (cl s)) s.
Proof.
  intros Hr. unfold listener_destructor, get_lst. wp_step. wp_step. wp_step.
  - apply wp_intro. intros [] s' Hrun.
    destruct (wp_run _ _ _ _ _ (listener_cancel_post id s Hr) Hrun) as [Hr' ->].
    destruct (wp_run _ _ _ _ _ (no_new_objects_cancel id s) Hrun Hr) as (_ & Hc & _).
    split_and!; [done..| |done]. apply (wp_run _ _ _ _ _ (births_cancel id s) Hrun).
  - split_and!; [done| |done..]. assert (id ∉ listener_set (cl s)); [|set_solver].
    intros Hin%(reg_listeners _ Hr). by apply bool_decide_eq_false in H.
Qed.

Lemma methods_disconnect_locked (R : relation (st E)) `{!Methods R} force to xs : preserves R (_ ← disconnect force to xs; mret tt).
Proof.
  assert (preserves R (disconnectUnlocked force to xs)) by apply methods_disconnect. unfold disconnect. preserves_auto.
Qed.

Lemma disconnect_sound (s s' : st E) cs ls force to xs u : sound s cs ls →
  (_ ← disconnect force to xs; mret tt) s = Some (u, s') → sound s' cs ls.
Proof.
  intros Hs Hrun. apply (sound_quiet s); [done|..].
  - exact (wp_run _ _ _ _ _ (methods_disconnect_locked births force to xs s) Hrun).
  - exact (wp_run _ _ _ _ _ (methods_disconnect_locked no_new_objects force to xs s) Hrun).
Qed.

Lemma reserve_sound (s s' : st E) cs ls rc : sound s cs ls → reservePollOperation s = Some (rc, s') → sound s' cs ls.
Proof.
  assert (∀ R : relation (st E), Methods R → preserves R reservePollOperation) as Hp.
  { intros R H. unfold reservePollOperation, sshConnectedUnlocked. preserves_auto. apply methods_upd; done. }
  intros Hs Hrun. apply (sound_quiet s); [done|..].
  - exact (wp_run _ _ _ _ _ (Hp births _ s) Hrun).
  - exact (wp_run _ _ _ _ _ (Hp no_new_objects _ s) Hrun).
Qed.

Lemma operations_held l id o : operations l !! id = Some o → 1 ≤ holders l.
Proof.
  intros Hid. assert (size (operations l) ≠ 0%nat); [|unfold holders; destruct (owned l); simpl; lia].
  rewrite map_size_non_empty_iff. intros He. by rewrite He in Hid.
Qed.

Lemma with_op_inv l id o p : life_inv l → operations l !! id = Some o →
  sound (base p) (live_chans l) (live_lsts l) → life_inv (with_op l id p).
Proof.
  intros [Hs Hrefs Hdel _] Hid Hp. assert (holders (with_op l id p) = holders l) as Hh.
  { unfold holders. simpl. rewrite map_size_insert, Hid; simpl; lia. }
  pose proof (operations_held l id o Hid).
  assert (deleted l = false) as Hf by (rewrite Hdel; apply Z.eqb_neq; lia).
  split; [done|by rewrite Hh|done|]. simpl. by rewrite Hf.
Qed.

(** What a step needs: somebody who holds the client. *)
Lemma step_held l l' : life_step l l' → 1 ≤ holders l.
Proof.
  destruct 1 as [l c s' Hc _|l id path s' Ho _ _|l id o r p Hid _|l id o u p Hid _|l id o l' Hid _
    |l id l' Hid _|l id l' Hid _|l l' Ho _].
  - by apply (callable_holds l c).
  - by apply (callable_holds l (CInfo IHostKey)).
  - by apply (operations_held l id o).
  - by apply (operations_held l id o).
  - by apply (operations_held l id o).
  - by apply (callable_holds l (CInfo (IExitSignal id))).
  - by apply (callable_holds l (CChannel (AAccept id 0))).
  - by apply (callable_holds l (CInfo IHostKey)).
Qed.

Lemma life_step_inv l l' : life_inv l → life_step l l' → life_inv l'.
Proof.
  intros Hi Hstep. pose proof (step_held l l' Hstep) as Hheld. pose proof Hi as [Hs Hrefs Hdel Hgone].
  assert (deleted l = false) as Hf by (rewrite Hdel; apply Z.eqb_neq; lia).
  destruct Hstep as [l c s' Hc Hrun|l id path s' Ho Hid Hrun|l id o r p Hid Hrun|l id o u p Hid Hrun
    |l id o l' Hid Hd|l id l' Hid Hd|l id l' Hid Hd|l l' Ho Hd].
  - by apply call_inv.
  - split; simpl; [by eapply reserve_sound| | |by rewrite Hf].
    + unfold holders in *. simpl. rewrite map_size_insert, Hid. simpl. lia.
    + rewrite Hf. symmetry. apply Z.eqb_neq. lia.
  - apply (with_op_inv l id o); [done..|]. eapply poll_sound; [|done|exact Hrun]. intros R0 ???. by apply (frame_continue R0 (on_base R0)).
  - apply (with_op_inv l id o); [done..|]. eapply poll_sound; [|done|exact Hrun]. intros R0 ???. by apply (frame_abort R0 (on_base R0)).
  - apply end_poll_run in Hd as (u & p & Hrun & Hd). refine (deref_inv _ _ _ _ _ Hd); simpl; [| |done].
    + eapply poll_sound; [|done|exact Hrun]. intros R0 ???. by apply (frame_deref R0 (on_base R0)).
    + unfold holders in *. simpl. rewrite map_size_delete, Hid. simpl.
      assert (size (operations l) ≠ 0%nat); [|lia]. rewrite map_size_non_empty_iff. intros He. by rewrite He in Hid.
  - apply release_run in Hd as (s' & Hrun & Hd). refine (deref_inv _ _ _ _ _ Hd); simpl; [by eapply drop_channel_sound| |done].
    unfold holders in *. simpl. rewrite size_gone by done. lia.
  - apply release_run in Hd as (s' & Hrun & Hd).
    destruct (wp_run _ _ _ _ _ (drop_listener_post id _ (sound_registered _ _ _ Hs)) Hrun) as (Hr & Hl & Hb & Hc).
    refine (deref_inv _ _ _ _ _ Hd); simpl; [| |done].
    + pose proof Hs as [_ Hcs Hls Hdc Hdl]. eapply (sound_shrinks _ _ _ _ _ _ Hs Hb Hr); set_solver.
    + unfold holders in *. simpl. rewrite (size_gone (live_lsts l)) by done. lia.
  - apply release_run in Hd as (s' & Hrun & Hd). refine (deref_inv _ _ _ _ _ Hd); simpl; [by eapply disconnect_sound| |done].
    unfold holders in *. rewrite Ho in *. simpl in *. lia.
Qed.

(** ** The theorems *)

Lemma born_inv (s : st E) : unused s → life_inv (born s).
Proof.
  intros (Hr & Hc & Hl). assert (∀ cs : gset positive, (∀ id, id ∉ cs) → cs = ∅) as He by set_solver.
  split; [split|..]; simpl; try done; [| |set_solver..].
  - intros id Hid%(reg_channels _ Hr). unfold chan_ptr in Hid. rewrite Hc, lookup_empty in Hid. by destruct Hid.
  - intros id Hid%(reg_listeners _ Hr). unfold lst_ptr in Hid. rewrite Hl, lookup_empty in Hid. by destruct Hid.
Qed.

Lemma life_steps_inv l l' : life_inv l → rtc life_step l l' → life_inv l'.
Proof. intros Hi. induction 1; eauto using life_step_inv. Qed.

(** C14: A client is freed exactly when nothing refers to it any more - neither the %Qore object
    nor a channel, a listener or a poll operation -, and then its session, its SFTP session
    and its socket are released; meanwhile every channel and listener that a disconnect
    would close is an object that has not been freed. *)
Theorem client_freed_when_unused (s : st E) (l : life) : unused s → rtc life_step (born s) l →
  (deleted l = true ↔ owned l = false ∧ live_chans l = ∅ ∧ live_lsts l = ∅ ∧ operations l = ∅) ∧
  (deleted l = true → gone (core l)) ∧ registered (core l) ∧
  channel_set (cl (core l)) ⊆ live_chans l ∧ listener_set (cl (core l)) ⊆ live_lsts l.
Proof.
  intros Hu Hrun. destruct (life_steps_inv _ _ (born_inv s Hu) Hrun) as [[Hr Hc Hl _ _] Hrefs Hdel Hg].
  split_and!; [|done..]. rewrite Hdel, Z.eqb_eq, Hrefs. unfold holders. split.
  - intros H. destruct (owned l); simpl in H; [lia|].
    split_and!; [done|unfold_leibniz; apply size_empty_inv; lia|unfold_leibniz; apply size_empty_inv; lia|apply map_size_empty_inv; lia].
  - intros (-> & -> & -> & ->). by rewrite !size_empty, map_size_empty.
Qed.

(** C10: Nothing happens to a client after it has been freed: no call, no poll operation and no
    destructor of an object finds it freed, and no reference is dropped twice. *)
Theorem no_use_after_free (s : st E) (l l' : life) :
  unused s → rtc life_step (born s) l → life_step l l' → deleted l = false ∧ 0 ≤ refs l'.
Proof.
  intros Hu Hrun Hstep. pose proof (life_steps_inv _ _ (born_inv s Hu) Hrun) as Hi. split.
  - rewrite (life_deleted _ Hi), (life_refs _ Hi). apply Z.eqb_neq. pose proof (step_held l l' Hstep). lia.
  - rewrite (life_refs _ (life_step_inv _ _ Hi Hstep)). apply holders_nonneg.
Qed.
End life.

(** ** A client whose channel outlives it *)

#[local] Existing Instance first_use_env.

Lemma unused_idle k : unused (idle_state k).
Proof. split; [apply registered_state0|done]. Qed.

Definition then_call (c : client_call) (l : life) : life := from_option (after_call c l) l (final (run_call c) (core l)).

Definition ready : life :=
  then_call (CChannel (AOpen channel_open_session "E" 1000)) (then_call (CConnect 1000) (born (idle_state SFTPClientClass))).

Definition without_object : life := default ready (delete_client ready).
Definition freed : life := default without_object (delete_channel 1 without_object).

Lemma then_call_step c l : callable l c → from_option (λ _, true) false (final (run_call c) (core l)) = true → life_step l (then_call c l).
Proof.
  intros Hc Ht. unfold then_call. destruct (final (run_call c) (core l)) as [s'|] eqn:Hs; [|done].
  apply life_call; [done|]. unfold final in Hs.
  apply fmap_Some in Hs as ([[] s1] & Hrun & ->). exact Hrun.
Qed.

Lemma ready_reached : rtc life_step (born (idle_state SFTPClientClass)) ready.
Proof.
  eapply rtc_l; [apply (then_call_step (CConnect 1000)); [done|vm_compute; reflexivity]|].
  apply rtc_once, then_call_step; vm_compute; reflexivity.
Qed.

Lemma without_object_step : life_step ready without_object.
Proof.
  apply life_drop_client; vm_compute; reflexivity.
Qed.

Lemma freed_step : life_step without_object freed.
Proof.
  apply (life_drop_channel _ 1); vm_compute; reflexivity.
Qed.

Lemma freed_reached : rtc life_step (born (idle_state SFTPClientClass)) freed.
Proof. eapply rtc_r; [eapply rtc_r; [apply ready_reached|apply without_object_step]|apply freed_step]. Qed.

Lemma client_freed_when_unused_witness : deleted freed = true ∧ live_chans freed = ∅ ∧ gone (core freed).
Proof.
  assert (deleted freed = true) as Hd by (vm_compute; reflexivity).
  destruct (client_freed_when_unused (idle_state SFTPClientClass) freed (unused_idle _) freed_reached) as (H & Hg & _).
  split; [exact Hd|]. split; [apply (proj1 H Hd)|exact (Hg Hd)].
Defined.

Lemma no_use_after_free_witness : deleted without_object = false ∧ refs without_object = 1 ∧ deleted freed = true.
Proof.
  split; [|vm_compute; split; reflexivity].
  apply (no_use_after_free (idle_state SFTPClientClass) without_object freed (unused_idle _)).
  - eapply rtc_r; [apply ready_reached|apply without_object_step].
  - apply freed_step.
Defined.
