(* ===== verification/PollStages.v ===== *)
(** The stages of the non-blocking retrieval: each one waits in its state, follows an
    edge of the abstract system, or closes the operation with an exception. *)

From S2P Require Import Prelude Modes World Sim Defaults Transport Config HostKey Auth Connect Session Sftp Transfer Poll PollProof.

Section operation.
Context {E : Type} `{!Env E} `{own : Sole}.

Abbreviation M := (prog (st E)).
Abbreviation P := (prog (pst E)).

Lemma handleStart_post o s : po_state o = START → inv o s →
  wp True handleStart (outcome (mark_of o) s) (mkPst o s).
Proof.
  intros Hst Hi. pose proof Hi as [[S1 S2 S3 S4 S5 S6] _ _ Hd]. unfold data_inv in Hd. rewrite Hst in *.
  assert (finished (po_state o) = false) as Hm by by rewrite Hst.
  unfold handleStart. wp_step. apply wp_lift. wp_step. wp_step.
  - wp_step. apply wp_pupd. wp_step. unfold set_state. apply wp_pupd. wp_step.
    set (x := if bool_decide (is_Some (sftp_session (cl s))) then STAT else SFTP_INIT).
    assert (x = STAT ∨ x = SFTP_INIT) as Hx by (unfold x; case_match; [by left|by right]). clearbody x.
    apply wp_make_nonblocking. intros failed s1 H1 X1. wp_step.
    + apply wp_quit; [done|simpl; by destruct Hx as [-> | ->]|done|done|by apply X1|done].
    + wp_step. apply (wp_lift_step steady); [apply preserves_setBlocking, _|]. intros ? s2 H2.
      wp_step. apply wp_pupd. wp_step. assert (steady s s2) as H12 by by transitivity s1.
      set (o2 := o <| po_reused := true |> <| po_restore := true |>).
      apply (move_to x o o2); [done..| |by destruct Hx as [-> | ->]|done| |].
      * unfold mark_of. rewrite Hst. by apply edge_reuse.
      * destruct Hx as [-> | ->]; (split; simpl; [done|done|by intros ?%S3|by intros ?%S4|done|done]).
      * by destruct Hx as [-> | ->].
  - wp_step. apply (wp_lift_reports (λ b, b = true)); [apply session_preconditions, _|apply preconditions_reports|].
    intros failed s1 H1 X1. wp_step; [apply wp_quit; [done|done|done|done|by apply X1|done]|].
    wp_step. apply wp_lift. wp_step. wp_step. apply wp_lift.
    apply (wp_call _ (socket_startConnect (connect_target (sshhost (cl s1)) (sshport (cl s1))))). intros [cs raised] e' _.
    set (s2 := logged s1 _ _). assert (steady s s2) as H2 by (transitivity s1; [done|by apply session_logged]).
    wp_step. apply wp_raise_if. intros s3 H3 _. assert (steady s s3) as H13 by by transitivity s2.
    wp_step. apply wp_pupd. wp_step. apply wp_failed. intros b Xb. wp_step.
    + wp_step. apply wp_raise_if. intros s4 H4 X4. assert (steady s s4) as H14 by by transitivity s3.
      apply wp_quit; [done|simpl; by rewrite Hst|done|done| |done].
      destruct b; [|by apply X4]. destruct H4 as (_ & _ & _ & H4 & _). eapply xsink_grows_nonempty; [by apply Xb|done].
    + match goal with H : _ || _ = false |- _ => apply orb_false_iff in H as [-> Hcs%bool_decide_eq_false] end.
      apply wp_next; [done..|rewrite Hst; constructor|done|done| |done].
      split; simpl; [by destruct cs|done|by intros ?%S3|by intros ?%S4|done|done].
Qed.

Lemma handleConnecting_post o s : po_state o = CONNECTING → inv o s →
  wp True handleConnecting (outcome (mark_of o) s) (mkPst o s).
Proof.
  intros Hst Hi. pose proof Hi as [[S1 S2 S3 S4 S5 S6] _ _ Hd]. unfold data_inv in Hd. rewrite Hst in *.
  assert (finished (po_state o) = false) as Hm by by rewrite Hst.
  unfold handleConnecting. wp_step. apply wp_pfield. wp_step. apply wp_lift.
  apply (wp_call _ (connect_continuePoll (po_connect o))). intros [rc raised] e' _. set (s1 := logged s _ _).
  assert (steady s s1) as H1 by by apply session_logged.
  wp_step. apply wp_raise_if. intros s2 H2 _. assert (steady s s2) as H12 by by transitivity s1.
  wp_step. apply wp_failed. intros b Xb. wp_step; [by apply wp_quit; auto|]. wp_step.
  - wp_step. apply wp_lift. apply (wp_call _ (connect_wait_info (po_connect o))). intros [extra tmo] e2 _.
    set (s3 := logged s2 _ _). assert (steady s s3) as H13 by (transitivity s2; [done|by apply session_logged]).
    wp_step. apply (wp_lift_step steady); [preserves_auto|]. intros fd s4 H4.
    assert (steady s s4) as H14 by by transitivity s3.
    apply wp_getPollInfo; [done|done|by eapply inv_steady|by apply steady_grows].
  - wp_step. apply wp_pupd. wp_step. apply (wp_lift_reports (λ b, b = true)); [apply session_hold, _|apply hold_reports|].
    intros failed s3 H3 X3. assert (steady s s3) as H13 by by transitivity s2.
    wp_step; [apply wp_quit; [done|simpl; by rewrite Hst|done|done|by apply X3|done]|].
    wp_step. apply wp_make_nonblocking. intros failed2 s4 H4 X4. assert (steady s s4) as H14 by by transitivity s3.
    wp_step; [apply wp_quit; [done|simpl; by rewrite Hst|done|done|by apply X4|done]|].
    wp_step. apply (wp_lift_reports (λ b, b = true)); [apply session_prepare, _|apply prepare_reports|].
    intros failed3 s5 H5 X5. assert (steady s s5) as H15 by by transitivity s4.
    wp_step; [apply wp_quit; [done|simpl; by rewrite Hst|done|done|by apply X5|done]|].
    wp_step. apply wp_pupd.
    apply wp_next; [done..|rewrite Hst; constructor|done|done| |done].
    split; simpl; [done|done|by intros ?%S3|by intros ?%S4|done|done].
Qed.

Lemma handleHandshake_post o s : po_state o = HANDSHAKE → inv o s →
  wp True handleHandshake (outcome (mark_of o) s) (mkPst o s).
Proof.
  intros Hst Hi. pose proof Hi as [[S1 S2 S3 S4 S5 S6] _ _ Hd]. unfold data_inv in Hd. rewrite Hst in *.
  assert (finished (po_state o) = false) as Hm by by rewrite Hst.
  unfold handleHandshake. wp_step. apply (wp_lift_step steady); [apply session_startup, _|]. intros rc s1 H1.
  wp_step; [by apply wp_wait|]. wp_step; [by apply wp_quit_with|]. wp_step. apply wp_pfield. wp_step.
  apply (wp_lift_reports (λ b, b = true)); [apply session_verifyHostKey, _|apply verifyHostKey_reports|].
  intros failed s2 H2 X2. assert (steady s s2) as H12 by by transitivity s1. wp_step.
  - apply wp_quit; auto.
  - apply wp_next; [done..|rewrite Hst; constructor|done|done| |done].
    split; simpl; [done|done|by intros ?%S3|by intros ?%S4|done|done].
Qed.

Lemma handleAuthList_post o s : po_state o = AUTHLIST → inv o s →
  wp True handleAuthList (outcome (mark_of o) s) (mkPst o s).
Proof.
  intros Hst Hi. pose proof Hi as [[S1 S2 S3 S4 S5 S6] _ _ Hd]. unfold data_inv in Hd. rewrite Hst in *.
  assert (finished (po_state o) = false) as Hm by by rewrite Hst.
  unfold handleAuthList. wp_step. apply wp_lift. wp_step. wp_step. apply (wp_lift_step steady); [preserves_auto|]. intros l s1 H1.
  wp_step. apply (wp_mono _ _ (λ _ p, ∃ s2, p = mkPst o s2 ∧ steady s s2)).
  - intros pending p (s2 & -> & H2). wp_step; [by apply wp_wait|]. wp_step.
    apply (wp_lift_step steady); [apply session_plan, _|]. intros plan s3 H3. wp_step. apply wp_pupd.
    assert (steady s s3) as H13 by by transitivity s2.
    apply wp_next; [done..|rewrite Hst; constructor|done|done| |done].
    split; simpl; [done|done|by intros ?%S3|by intros ?%S4|done|done].
  - destruct l; [wp_step; by exists s1|]. wp_step. apply (wp_lift_step steady); [preserves_auto|]. intros e s2 H2.
    wp_step. exists s2. split; [done|by transitivity s1].
Qed.

(** ** Authentication

    The steps of an authentication change the queue, the candidates, the agent and the
    login mark; everything else is as before. *)

Definition outside_auth (o : poll) :=
  (file_part o, po_reused o, po_retried o, po_connect o, po_restore o, po_reserved o).

Definition authing (p p' : pst E) : Prop :=
  outside_auth (op p') = outside_auth (op p) ∧ steady (base p) (base p').

#[export] Instance authing_preorder : PreOrder authing.
Proof.
  split; [by intros p|]. intros p1 p2 p3 [H1 S1] [H2 S2]. split; [congruence|by transitivity (base p2)].
Qed.

Lemma authing_lift {A} (m : M A) : preserves steady m → preserves authing (lift m).
Proof. intros H [o s]. apply wp_lift. eapply wp_mono; [|apply H]. intros a s' S. by split. Qed.

Lemma authing_pupd f : (∀ o, outside_auth (f o) = outside_auth o) → preserves authing (pupd f).
Proof. intros H p. apply wp_modify. split; [apply H|reflexivity]. Qed.

Lemma authing_drop_agent : preserves authing drop_agent.
Proof. intros [o s]. apply wp_drop_agent. intros s' S. by split. Qed.

#[local] Hint Resolve authing_drop_agent : preserves.
#[local] Hint Extern 2 (preserves authing (lift _)) =>
  apply authing_lift; first
    [ apply preserves_agent_start | apply preserves_agent_nextIdentity | apply session_userauth_call
    | apply session_authCall | apply session_checkAccess | apply session_getCandidates
    | apply session_resolveCandidate
    | apply session_preserves_upd; [apply _|intros ?; split_and!; done]
    | solve [preserves_auto] ]; try apply _ : preserves.
#[local] Hint Extern 2 (preserves authing (pupd _)) => apply authing_pupd; intros ?; reflexivity : preserves.
#[local] Hint Extern 2 (preserves authing (pfield _)) => apply preserves_gets; apply _ : preserves.

Lemma stepAgentAuth_authing : preserves authing stepAgentAuth.
Proof. unfold stepAgentAuth. preserves_auto. Qed.

Lemma expandProvider_authing : preserves authing expandProviderAttempt.
Proof. unfold expandProviderAttempt, pop_attempt. preserves_auto. Qed.

Lemma stepAgentAuth_reports p :
  wp True stepAgentAuth (λ rc p', rc = SFTP_AGENT_ERROR → xsink (base p') ≠ []) p.
Proof.
  unfold stepAgentAuth. wp_step. apply wp_gets. wp_step. apply wp_intro. intros unusable p1 _.
  destruct unusable; [by wp_step|]. apply (wp_loop (λ _ _, True)); [|done]. intros _ [o s] _.
  wp_step. apply wp_pfield. wp_step. apply wp_pfield. cbv beta zeta. wp_step.
  apply (wp_mono _ _ (λ stop p, stop = Some SFTP_AGENT_ERROR → xsink (base p) ≠ [])).
  - intros [code|] p2 H2; [wp_step; intros ->; by apply H2|]. wp_step. apply wp_gets. wp_step. apply wp_intro.
    intros rc p3 _. wp_step; [by wp_step|]. wp_step; [by wp_step|]. wp_step. apply wp_intro. intros ? p4 _. by wp_step.
  - destruct (po_need_identity o); [|by wp_step]. wp_step. apply wp_lift. eapply wp_mono; [|apply cancel_reports].
    intros [] s1 X; cbv beta iota.
    + wp_step. apply wp_drop_agent. intros s2 (_ & _ & _ & X2 & _). wp_step. intros _.
      eapply xsink_grows_nonempty; [by apply X|done].
    + wp_step. apply wp_intro. intros [no_more a] p2 _. cbv beta iota. wp_step. apply wp_intro. intros ? p3 _.
      destruct no_more; (wp_step; apply wp_intro; intros ? p4 _; by wp_step).
Qed.

Lemma expandProvider_reports p :
  wp True expandProviderAttempt (λ failed p', failed = true → xsink (base p') ≠ []) p.
Proof.
  destruct p as [o s]. unfold expandProviderAttempt. wp_step. apply wp_lift. wp_world. wp_step.
  { wp_step. apply wp_intro. intros ? p1 _. by wp_step. }
  wp_step. apply wp_pfield. wp_step. apply wp_pfield. cbv beta. wp_step.
  apply (wp_mono _ _ (λ failed p', failed = true → xsink (base p') ≠ [])).
  - intros [] [o1 s1] H1; [by wp_step; intros _; apply H1|]. wp_step. apply wp_pfield. wp_step. apply wp_pfield. cbv beta.
    destruct (_ !! _) as [v|].
    + wp_step. apply wp_lift. eapply wp_mono; [|apply cancel_reports]. intros [] s2 X; cbv beta iota; [by wp_step; intros _; apply X|].
      wp_step. apply wp_pupd. wp_step. apply wp_lift. eapply wp_mono; [|apply resolveCandidate_reports].
      intros [[] plan] s3 X3; cbv beta iota; [by wp_step; intros _; apply X3|]. wp_step. apply wp_pupd. by wp_step.
    + wp_step. apply wp_intro. intros ? p2 _. wp_step. apply wp_intro. intros ? p3 _. by wp_step.
  - destruct (po_candidates o); [by wp_step|]. wp_step. apply wp_lift. eapply wp_mono; [|apply getCandidates_reports].
    intros l s1 X. wp_step. apply wp_pupd. wp_step. destruct l; cbn [bool_decide decide is_Some_dec when].
    + apply wp_pupd. by wp_step.
    + wp_step. wp_step. intros _. by apply X.
Qed.

Lemma authing_inv o s o' s' : po_state o = AUTH → inv o s → authing (mkPst o s) (mkPst o' s') →
  inv o' s' ∧ mark_of o' = mark_of o ∧ po_state o' = AUTH.
Proof.
  intros Hst Hi [[= H1 H2 H3 H4 H5 H6 H7 H8 H9 H10 H11 H12] S]; simpl in *.
  pose proof (inv_steady _ _ _ Hi S) as [[S1 S2 S3 S4 S5 S6] Hf Hr Hd]. rewrite Hst in *. split; [|split; [|done]].
  - split.
    + split; rewrite ?H1, ?H2, ?H10, ?H11, ?H12; done.
    + rewrite H12. exact Hf.
    + exact Hr.
    + apply (data_inv_same o); [|done]. unfold file_part. congruence.
  - unfold mark_of. congruence.
Qed.

Lemma wp_auth_wait o s p' : po_state o = AUTH → inv o s → authing (mkPst o s) p' →
  wp True getSessionPollInfo (outcome (mark_of o) s) p'.
Proof.
  intros Hst Hi Ha. destruct p' as [o' s']. destruct (authing_inv _ _ _ _ Hst Hi Ha) as (Hi' & Hm & _).
  apply wp_session_info; [done|unfold mark_of; simpl; by rewrite Hst|done|]. destruct Ha as [_ S]. by apply steady_grows.
Qed.

Lemma wp_auth_quit d o s p' : po_state o = AUTH → inv o s → authing (mkPst o s) p' → xsink (base p') ≠ [] →
  wp True (leave d) (outcome (mark_of o) s) p'.
Proof.
  intros Hst Hi Ha X. destruct p' as [o' s']. destruct (authing_inv _ _ _ _ Hst Hi Ha) as (_ & _ & Hst').
  destruct Ha as [[= ] S]. apply wp_quit; [by rewrite Hst|by rewrite Hst'|done|done|done|done].
Qed.

Lemma wp_authing {A} (m : P A) (Q : A → pst E → Prop) p0 p :
  preserves authing m → authing p0 p → (∀ a p', authing p0 p' → Q a p') → wp True m Q p.
Proof.
  intros Hm Ha HQ. eapply wp_mono; [|apply Hm]. intros a p' H. apply HQ. by transitivity p.
Qed.

(** Where an iteration over the queue leads. *)
Definition auth_point (o : poll) (s : st E) (r : option (option poll_info)) (p : pst E) : Prop :=
  match r with Some rv => outcome (mark_of o) s rv p | None => authing (mkPst o s) p end.

Lemma wp_auth_return (m : P (option poll_info)) o s p :
  wp True m (outcome (mark_of o) s) p →
  wp True (r ← m; mret (inr (Some r) : unit + option (option poll_info)))
    (λ r p', match r with inl _ => authing (mkPst o s) p' | inr r => auth_point o s r p' end) p.
Proof. intros H. wp_step. eapply wp_mono; [|exact H]. intros rv p' H'. by apply wp_mret. Qed.

(** An attempt with a credential of its own: its access is checked once, and it is made
    again until it is not pending. *)
Lemma credential_attempt_post a o s p1 : po_state o = AUTH → inv o s → authing (mkPst o s) p1 → wp True
    (checked ← pfield po_attempt_checked;
     denied ← (if checked : bool then mret false else lift (checkAuthAttemptAccessUnlocked a));
     if denied : bool then
       r ← leave false;
       mret (inr (Some r))
     else
       _ ← pupd (λ o, o <| po_attempt_checked := true |>);
       rc ← lift (authCallUnlocked a);
       if rc =? LIBSSH2_ERROR_EAGAIN then
         r ← getSessionPollInfo;
         mret (inr (Some r))
       else if rc =? 0 then
         _ ← lift (setAuthenticatedWithUnlocked a);
         _ ← pupd (λ o, o <| po_loggedin := true |>);
         mret (inr None)
       else
         _ ← pop_attempt;
         _ ← pupd (λ o, o <| po_attempt_checked := false |>);
         mret (inl tt))
    (λ r p', match r with inl _ => authing (mkPst o s) p' | inr r => auth_point o s r p' end) p1.
Proof.
  intros Hst Hi H1. wp_step. apply wp_gets. cbv beta. wp_step.
  apply (wp_mono _ _ (λ denied p2, authing (mkPst o s) p2 ∧ (denied = true → xsink (base p2) ≠ []))).
  - intros denied p2 [H2 X2]. wp_step; [apply wp_auth_return, wp_auth_quit; [done|done|done|by apply X2]|].
    wp_step. apply (wp_authing _ _ (mkPst o s)); [preserves_auto|done|]. intros ? p3 H3.
    wp_step. apply (wp_authing _ _ (mkPst o s)); [preserves_auto|done|]. intros rc p4 H4.
    wp_step; [by apply wp_auth_return, wp_auth_wait|]. wp_step.
    + wp_step. apply (wp_authing _ _ (mkPst o s)); [unfold setAuthenticatedWithUnlocked; preserves_auto|done|].
      intros ? p5 H5. wp_step. apply (wp_authing _ _ (mkPst o s)); [preserves_auto|done|]. intros ? p6 H6. by wp_step.
    + wp_step. apply (wp_authing _ _ (mkPst o s)); [unfold pop_attempt; preserves_auto|done|]. intros ? p5 H5.
      wp_step. apply (wp_authing _ _ (mkPst o s)); [preserves_auto|done|]. intros ? p6 H6. by wp_step.
  - destruct (po_attempt_checked (op p1)); [by wp_step|]. destruct p1 as [o1 s1].
    apply (wp_lift_reports (λ b, b = true)); [apply session_checkAccess, _|apply checkAccess_reports|].
    intros b s2 S2 X. split; [|done]. destruct H1 as [E1 S1]. split; [done|by transitivity s1].
Qed.

Lemma auth_iteration_post a o s p : po_state o = AUTH → inv o s → authing (mkPst o s) p →
  wp True (auth_iteration a) (λ r p', match r with
    | inl _ => authing (mkPst o s) p'
    | inr r => auth_point o s r p'
    end) p.
Proof.
  intros Hst Hi Ha. unfold auth_iteration.
  destruct (kind a); try by apply credential_attempt_post.
  - wp_step. eapply wp_mono; [|apply wp_and; [apply stepAgentAuth_authing|apply stepAgentAuth_reports]].
    intros rc p1 [H1 X1]. assert (authing (mkPst o s) p1) as H01 by by transitivity p.
    wp_step; [by apply wp_auth_return, wp_auth_wait|]. wp_step.
    { apply wp_auth_return, wp_auth_quit; [done|done|done|]. apply X1. by apply Z.eqb_eq. }
    wp_step.
    + wp_step. apply (wp_authing _ _ (mkPst o s)); [unfold setAuthenticatedWithUnlocked; preserves_auto|done|].
      intros ? p2 H2. wp_step. apply (wp_authing _ _ (mkPst o s)); [preserves_auto|done|]. intros ? p3 H3.
      wp_step. apply (wp_authing _ _ (mkPst o s)); [preserves_auto|done|]. intros ? p4 H4. by wp_step.
    + wp_step. apply (wp_authing _ _ (mkPst o s)); [unfold pop_attempt; preserves_auto|done|]. intros ? p2 H2. by wp_step.
  - wp_step. eapply wp_mono; [|apply wp_and; [apply expandProvider_authing|apply expandProvider_reports]].
    intros failed p1 [H1 X1]. assert (authing (mkPst o s) p1) as H01 by by transitivity p.
    wp_step; [|by wp_step]. apply wp_auth_return, wp_auth_quit; [done|done|done|by apply X1].
Qed.

Lemma handleAuth_post o s : po_state o = AUTH → inv o s →
  wp True handleAuth (outcome (mark_of o) s) (mkPst o s).
Proof.
  intros Hst Hi. unfold handleAuth. wp_step. apply (wp_mono _ _ (λ r p, auth_point o s r p)).
  - intros [rv|] p H; [by wp_step|]. wp_step. apply wp_gets. cbv beta. destruct p as [o1 s1].
    destruct (authing_inv _ _ _ _ Hst Hi H) as (Hi1 & Hm & Hst1). pose proof H as [[= H1 H2 H3 H4 H5 H6 H7 H8 H9 H10 H11 H12] S]; simpl in *.
    wp_step; [apply wp_quit_with; [by rewrite Hst|by rewrite Hst1|done|done|done]|].
    wp_step. apply wp_pupd. wp_step. apply wp_drop_agent. intros s2 S2. wp_step. apply wp_pupd. wp_step.
    apply (wp_lift_step steady); [apply session_finish, _|]. intros ? s3 S3.
    pose proof Hi as [[A1 A2 A3 A4 A5 A6] _ _ Hd]. unfold data_inv in Hd. rewrite Hst in *.
    apply wp_next; [done|transitivity s1; [done|by transitivity s2]|rewrite Hst; constructor|done|simpl; congruence| |].
    + split; simpl; [by rewrite H10|by rewrite H2|by intros [? ?]|by intros [? ?]|by rewrite H11|by rewrite H12].
    + unfold data_inv. simpl. by rewrite H6, H7.
  - apply (wp_loop (λ _ p, authing (mkPst o s) p)); [|reflexivity]. intros _ p Hp. wp_step. apply wp_gets. cbv beta.
    destruct (po_auth_queue (op p)) as [|a q]; [by wp_step|]. wp_step; [by wp_step|]. by apply auth_iteration_post.
Qed.

(** ** The SFTP stages *)

(** A dead session is replaced, or nothing happens. *)
Lemma wp_retry m (s0 : st E) o s :
  po_state o = STAT ∨ po_state o = SFTP_INIT → inv o s → mark_of o = m → grows s0 s →
  wp True retryAfterConnectionLoss (λ again p, if again : bool then outcome m s0 None p
    else ∃ s', p = mkPst o s' ∧ steady s s') (mkPst o s).
Proof.
  intros Hst Hi <- G. unfold retryAfterConnectionLoss. wp_step. wp_step. cbn [op].
  destruct (negb (po_reused o) || po_retried o) eqn:Hb; [wp_step; by exists s|].
  apply orb_false_iff in Hb as [Hre%negb_false_iff Hrt].
  wp_step. apply (wp_lift_step steady); [apply session_lost, _|]. intros lost s1 S1.
  destruct lost; cbn [negb]; [|wp_step; by exists s1].
  wp_step. apply wp_pupd. wp_step. apply (wp_lift_step steady); [apply linked_disconnect|]. intros ? s2 S2.
  wp_step. apply wp_pupd. wp_step. assert (steady s s2) as S02 by by transitivity s1.
  pose proof (inv_steady _ _ _ Hi S02) as [[A1 A2 A3 A4 A5 A6] Hf Hr _].
  assert (is_Some (po_agent o) → False) as B3 by (intros ?%A3; destruct Hst; congruence).
  assert (is_Some (po_candidates o) → False) as B4 by (intros ?%A4; destruct Hst; congruence).
  apply out_move; [| |transitivity s; [done|by apply steady_grows]|done|done].
  - unfold mark_of, restarted. simpl. rewrite Hre, Hrt. by apply edge_retry.
  - split; [|exact Hf|exact Hr|done].
    destruct Hst as [Hst|Hst]; rewrite Hst in *; (split; simpl; [done|done|by intros ?%B3|by intros ?%B4|done|done]).
Qed.

(** What follows a failed request on a session that may be dead. *)
Lemma wp_retry_or_fail (d : bool) o o1 s s1 :
  po_state o1 = STAT ∨ po_state o1 = SFTP_INIT → mark_of o1 = mark_of o → inv o1 s1 → grows s s1 →
  wp True (again ← retryAfterConnectionLoss;
           if again : bool then mret None
           else
             _ ← sessionError;
             leave d) (outcome (mark_of o) s) (mkPst o1 s1).
Proof.
  intros Hst Hm Hi G. wp_step. eapply wp_mono; [|by apply (wp_retry (mark_of o) s)].
  assert (finished (po_state o1) = false) as Hf1 by by destruct Hst as [-> | ->].
  intros [] p; cbv beta iota; [intros H; by apply wp_mret|]. intros (s2 & -> & S2).
  wp_step. apply wp_sessionError. intros s3 S3 X3. apply wp_leave; [|by destruct Hst as [-> | ->]| | |done|].
  - rewrite <- Hm. done.
  - eapply inv_registered_later; [exact Hi|]. by transitivity s2.
  - transitivity s1; [done|]. apply steady_grows. by transitivity s2.
  - by rewrite (shape_reserved _ (inv_shape _ _ Hi)), Hf1.
Qed.

Lemma handleSftpInit_post o s : po_state o = SFTP_INIT → inv o s →
  wp True handleSftpInit (outcome (mark_of o) s) (mkPst o s).
Proof.
  intros Hst Hi. pose proof Hi as [[S1 S2 S3 S4 S5 S6] _ _ Hd]. unfold data_inv in Hd. rewrite Hst in *.
  assert (finished (po_state o) = false) as Hm by by rewrite Hst.
  unfold handleSftpInit. wp_step. apply (wp_lift_step steady); [preserves_auto|]. intros sess s1 H1.
  wp_step. apply (wp_lift_step steady); [preserves_auto|]. intros sf s2 H2. assert (steady s s2) as H12 by by transitivity s1.
  wp_step. apply (wp_lift_step steady); [apply session_preserves_upd; [apply _|intros ?; split_and!; done]|]. intros ? s3 H3.
  assert (steady s s3) as H13 by by transitivity s2. wp_step.
  - wp_step. apply (wp_lift_step steady); [preserves_auto|]. intros err s4 H4. assert (steady s s4) as H14 by by transitivity s3.
    wp_step; [by apply wp_wait|]. apply wp_retry_or_fail; [by right|done|by eapply inv_steady|by apply steady_grows].
  - wp_step. apply wp_lift. wp_world.
    assert (∀ x, x = REALPATH ∨ x = STAT → wp True (advance x) (outcome (mark_of o) s) (mkPst o s3)) as Hx.
    { intros x Hx. apply wp_next; [done|done|rewrite Hst; destruct Hx as [-> | ->]; constructor|by destruct Hx as [-> | ->]|done| |].
      - destruct Hx as [-> | ->]; (split; simpl; [done|done|by intros ?%S3|by intros ?%S4|done|done]).
      - by destruct Hx as [-> | ->]. }
    apply Hx. case_match; [by left|by right].
Qed.

Lemma handleRealPath_post o s : po_state o = REALPATH → inv o s →
  wp True handleRealPath (outcome (mark_of o) s) (mkPst o s).
Proof.
  intros Hst Hi. pose proof Hi as [[S1 S2 S3 S4 S5 S6] _ _ Hd]. unfold data_inv in Hd. rewrite Hst in *.
  assert (finished (po_state o) = false) as Hm by by rewrite Hst.
  unfold handleRealPath. wp_step. apply wp_lift. wp_world. wp_step. apply wp_lift.
  apply (wp_call _ (sftp_resolve (sftp_session (cl s)) "." LIBSSH2_SFTP_REALPATH)). intros [rc buff] e' _.
  set (s1 := logged s _ _). assert (steady s s1) as H1 by by apply session_logged.
  wp_step; [by apply wp_wait|]. wp_step.
  - wp_step. apply wp_sessionError. intros s2 H2 X2. apply wp_quit; [done|done|done|by transitivity s1|done|done].
  - wp_step. apply (wp_lift_step steady); [apply world_path|]. intros ? s2 H2.
    apply wp_next; [done|by transitivity s1|rewrite Hst; constructor|done|done| |done].
    split; simpl; [done|done|by intros ?%S3|by intros ?%S4|done|done].
Qed.

Lemma absolute_not_empty cwd f : absolute_filename cwd f ≠ EmptyString.
Proof. unfold absolute_filename. destruct f as [|[[] [] [] [] [] [] [] []] f]; try done; by destruct cwd. Qed.

Lemma handleStat_post o s : po_state o = STAT → inv o s →
  wp True handleStat (outcome (mark_of o) s) (mkPst o s).
Proof.
  intros Hst Hi. pose proof Hi as [[S1 S2 S3 S4 S5 S6] Hf Hr Hd]. unfold data_inv in Hd. rewrite Hst in *.
  unfold handleStat. wp_step. apply wp_lift. wp_world. wp_step. apply wp_pupd.
  set (o1 := if str_empty (po_abs_path o) then _ else o).
  assert (inv o1 s ∧ mark_of o1 = mark_of o ∧ po_state o1 = STAT ∧ po_abs_path o1 ≠ EmptyString) as (Hi1 & Hm1 & Hst1 & Hpath).
  { unfold o1. destruct (str_empty (po_abs_path o)) eqn:Hempty; [|apply str_empty_false in Hempty; by split_and!].
    split_and!; [|done|done|apply absolute_not_empty].
    split; [|done|done|].
    - split; simpl; rewrite ?Hst; done.
    - unfold data_inv. simpl. by rewrite Hst. }
  clearbody o1. clear Hst Hi S1 S2 S3 S4 S5 S6 Hf Hr Hd. rename o into oo.
  pose proof Hi1 as [[S1 S2 S3 S4 S5 S6] _ _ Hd]. unfold data_inv in Hd. rewrite Hst1 in *.
  assert (finished (mk_state (mark_of oo)) = false) as Hm by (rewrite <- Hm1; unfold mark_of; simpl; by rewrite Hst1).
  wp_step. apply wp_pfield. wp_step. apply wp_lift. wp_world. wp_step. apply wp_lift.
  apply (wp_call _ (sftp_stat (sftp_session (cl s)) (po_abs_path o1) true)). intros [rc a] e' _.
  set (s1 := logged s _ _). assert (steady s s1) as H1 by by apply session_logged.
  wp_step; [apply wp_session_info; [done|done|by eapply inv_steady|by apply steady_grows]|]. wp_step.
  - apply wp_retry_or_fail; [by left|done|by eapply inv_steady|by apply steady_grows].
  - wp_step. apply wp_pupd. rewrite <- Hm1.
    apply (wp_next OPEN o1); [done|done|rewrite Hst1; constructor|done|done| |unfold data_inv; simpl; by destruct Hd].
    split; simpl; [done|done|by intros ?%S3|by intros ?%S4|done|done].
Qed.

Lemma handleOpen_post o s : po_state o = OPEN → inv o s →
  wp True handleOpen (outcome (mark_of o) s) (mkPst o s).
Proof.
  intros Hst Hi. pose proof Hi as [[S1 S2 S3 S4 S5 S6] _ _ Hd]. unfold data_inv in Hd. rewrite Hst in *.
  assert (finished (po_state o) = false) as Hm by by rewrite Hst.
  unfold handleOpen. wp_step. wp_step. wp_step. apply wp_lift. wp_step. wp_step. apply wp_lift. wp_world.
  set (s1 := logged s _ _). assert (steady s s1) as H1 by by apply session_logged.
  wp_step. apply wp_pupd. wp_step.
  - apply bool_decide_eq_true in Heqb. subst a.
    assert (inv (o <| po_handle := None |>) s1) as Hi1.
    { pose proof (inv_steady _ _ _ Hi H1) as [_ Hf Hr _]. split; [|exact Hf|exact Hr|].
      - split; simpl; rewrite ?Hst; done.
      - unfold data_inv. simpl. by rewrite Hst. }
    wp_step. apply (wp_lift_step steady); [preserves_auto|]. intros err s2 H2. wp_step.
    + apply wp_session_info; [done|unfold mark_of; simpl; by rewrite Hst|by eapply inv_steady|].
      apply steady_grows. by transitivity s1.
    + wp_step. apply wp_sessionError. intros s3 H3 X3.
      apply wp_quit; [done|simpl; by rewrite Hst|done|transitivity s1; [done|by transitivity s2]|done|done].
  - apply bool_decide_eq_false in Heqb. destruct a as [h|]; [|done].
    apply wp_next; [done|done|rewrite Hst; constructor|done|done| |].
    + split; simpl; [done|done|by intros ?%S3|by intros ?%S4|done|done].
    + unfold data_inv. simpl. exists h, s1. split; [|done]. destruct Hd as (Hd1 & Hd2 & Hd3). split; simpl.
      * split; [done|]. eexists _, _. reflexivity.
      * reflexivity.
      * intros _. rewrite Hd1. apply advances_refl.
      * rewrite Hd1, Hd2. simpl. lia.
Qed.
(** An answer to a read extends what was fetched by its data. *)
Lemma fetched_read o h s0 (s : st E) n rc bytes e' o' :
  fetched o h s0 s → po_bytes_read o < po_file_size o → n = size_t (po_file_size o - po_bytes_read o) →
  answer (sftp_read (Some h) n) (env s) = ((rc, bytes), e') →
  (po_abs_path o', po_permissions o', po_file_size o') = (po_abs_path o, po_permissions o, po_file_size o) →
  po_data o' = po_data o ++ take (Z.to_nat rc) bytes →
  (po_bytes_read o' = size_t (po_bytes_read o + rc) ∧ 0 < rc ∨ po_bytes_read o' = po_bytes_read o ∧ rc ≤ 0) →
  fetched o' h s0 (logged s (Ev (sftp_read (Some h) n) (rc, bytes)) e').
Proof.
  intros [Ho Hg Hd Hs] Hlt -> He [= E1 E2 E3] Ed Eb. split.
  - by rewrite E1, E2.
  - transitivity s; [done|by exists [Ev (sftp_read (Some h) (size_t (po_file_size o - po_bytes_read o))) (rc, bytes)]].
  - intros Hsole. rewrite Ed. eapply advances_trans; [exact (Hd Hsole)|].
    match goal with |- advances _ s (logged s ?ev _) _ => pose proof (advances_logged (delivered_on h) s ev e') as H end.
    simpl in H. by rewrite bool_decide_true in H.
  - intros HD Hsz. rewrite E3 in *. destruct (Hs HD Hsz) as [Hn Hle].
    rewrite size_t_small in He by lia.
    destruct (sftp_read_bound (Some h) (po_file_size o - po_bytes_read o) (env s) rc bytes) as [B1 B2]; [by rewrite He|lia|].
    rewrite Ed, length_app, length_take. destruct Eb as [[-> Hrc]|[-> Hrc]].
    + rewrite size_t_small by lia. split; lia.
    + split; lia.
Qed.

(** What is known at the head of the read loop. *)
Definition reading (o : poll) (s : st E) (p : pst E) : Prop :=
  mark_of (op p) = mark_of o ∧ inv (op p) (base p) ∧ grows s (base p).

Lemma reading_logged o s o1 s1 r a e' o2 :
  reading o s (mkPst o1 s1) → shape o2 → mark_of o2 = mark_of o1 → po_reserved o2 = po_reserved o1 →
  data_inv o2 (logged s1 (Ev r a) e') → reading o s (mkPst o2 (logged s1 (Ev r a) e')).
Proof.
  intros (Hm & [_ Hf Hr _] & G) Hs Hm2 Hres Hd. simpl in *. split; [simpl; congruence|]. split.
  - split; simpl; [done| |by apply (frame_logged (R:=keeps_registered))|done]. intros H. apply Hf. congruence.
  - transitivity s1; [done|apply frame_logged].
Qed.

(** Where the read loop leads. *)
Definition read_point (o : poll) (s : st E) (r : option (option poll_info)) (p : pst E) : Prop :=
  match r with
  | None => reading o s p ∧ ∃ h s0, fetched (op p) h s0 (base p) ∧ complete (op p) h s0 (base p)
  | Some rv => outcome (mark_of o) s rv p
  end.

(** After a block: the operation goes on, unless its thread is cancelled. *)
Lemma read_on_post (b : bool) o s p : po_state o = READ → reading o s p →
  wp True (cancelled ← (if b then lift (qore_check_cancel true) else mret false);
           if cancelled : bool then
             r ← leave true;
             mret (inr (Some r))
           else mret (inl tt))
    (λ r p', match r with inl _ => reading o s p' | inr r => read_point o s r p' end) p.
Proof.
  intros Hst HR. destruct p as [o2 s2]. assert (finished (mk_state (mark_of o)) = false) as Hfin by (simpl; by rewrite Hst).
  wp_step. apply (wp_mono _ _ (λ c p', reading o s p' ∧ (c = true → xsink (base p') ≠ []))).
  - intros [] [o3 s3] [HR3 X3]; cbv beta iota; [|by wp_step]. wp_step.
    destruct HR3 as (Hm3 & Hi3 & G3). simpl in *.
    eapply wp_mono; [|apply (wp_leave true (mark_of o) s); [done| |apply Hi3|done|by apply X3|]].
    + intros rv p' H. by wp_step.
    + injection Hm3. congruence.
    + rewrite (shape_reserved _ (inv_shape _ _ Hi3)). injection Hm3 as -> _ _. by rewrite Hst.
  - wp_step; [|by wp_step]. apply (wp_lift_reports (λ b, b = true)); [preserves_auto|apply cancel_reports|].
    intros c s3 S3 X. split; [|done]. destruct HR as (Hm3 & Hi3 & G3). split; [done|]. simpl in *.
    split; [by eapply inv_steady|]. transitivity s2; [done|by apply steady_grows].
Qed.

Lemma read_iteration_post o s p : po_state o = READ → reading o s p →
  wp True read_iteration (λ r p', match r with
    | inl _ => reading o s p'
    | inr r => read_point o s r p'
    end) p.
Proof.
  intros Hst Hp. destruct p as [o1 s1]. pose proof Hp as (Hm & Hi & G). simpl in *.
  assert (po_state o1 = READ) as Hst1 by (injection Hm; congruence).
  assert (finished (mk_state (mark_of o)) = false) as Hfin by (simpl; by rewrite Hst).
  pose proof Hi as [Hsh Hf Hr Hd]. unfold data_inv in Hd. rewrite Hst1 in Hd. destruct Hd as (h & s0 & F & Hh).
  unfold read_iteration. wp_step. wp_step. cbn [op]. wp_step.
  { wp_step. split; [done|]. exists h, s0. split; [done|]. left. simpl. apply negb_true_iff in Heqb. lia. }
  apply negb_false_iff, Z.ltb_lt in Heqb. wp_step. apply wp_lift. rewrite Hh.
  set (n := size_t (po_file_size o1 - po_bytes_read o1)).
  apply (wp_call _ (sftp_read (Some h) n)). intros [rc bytes] e' He. cbv beta iota. set (s2 := logged s1 _ _).
  assert (∀ o2, (po_abs_path o2, po_permissions o2, po_file_size o2) = (po_abs_path o1, po_permissions o1, po_file_size o1) →
    po_data o2 = po_data o1 ++ take (Z.to_nat rc) bytes →
    (po_bytes_read o2 = size_t (po_bytes_read o1 + rc) ∧ 0 < rc ∨ po_bytes_read o2 = po_bytes_read o1 ∧ rc ≤ 0) →
    fetched o2 h s0 s2) as HF by (intros; by eapply (fetched_read o1)).
  assert (rc ≤ 0 → fetched o1 h s0 s2) as HF0.
  { intros Hrc. apply HF; [done| |by right]. rewrite Z2Nat.nonpos by done. simpl. by rewrite app_nil_r. }
  assert (rc ≤ 0 → reading o s (mkPst o1 s2)) as HR0.
  { intros Hrc. apply (reading_logged _ _ o1 s1); [done..|]. unfold data_inv. rewrite Hst1. exists h, s0. split; [by apply HF0|done]. }
  wp_step.
  { apply Z.eqb_eq in Heqb0. destruct HR0 as (_ & Hi2 & G2); [rewrite Heqb0; done|]. wp_step.
    eapply wp_mono; [|by apply (wp_session_info (mark_of o) s)]. intros rv p' H. by wp_step. }
  wp_step.
  { apply Z.ltb_lt in Heqb1. destruct HR0 as (_ & Hi2 & G2); [lia|]. wp_step. apply wp_sessionError. intros s3 S3 X3. wp_step.
    eapply wp_mono; [|apply (wp_leave false (mark_of o) s); [done|by rewrite Hst1| | |done|]].
    - intros rv p' H. by wp_step.
    - by apply (inv_registered_later o1 s2).
    - transitivity s2; [done|by apply steady_grows].
    - by rewrite (shape_reserved _ Hsh), Hst1. }
  wp_step.
  { apply Z.eqb_eq in Heqb2. wp_step. split; [apply HR0; lia|]. exists h, s0. split; [apply HF0; lia|].
    right. exists n, bytes. subst rc. apply new_logged. apply F. }
  apply Z.ltb_ge in Heqb1. apply Z.eqb_neq in Heqb2. assert (0 < rc) as Hrc by lia. cbv zeta. wp_step. apply wp_pupd.
  set (o2 := o1 <| po_bytes_read := _ |> <| po_read_calls := _ |> <| po_data := _ |>).
  assert (reading o s (mkPst o2 s2)) as HR.
  { apply (reading_logged _ _ o1 s1); [done|by destruct Hsh|done|done|]. unfold data_inv. simpl. rewrite Hst1.
    exists h, s0. split; [|done]. apply HF; [done|done|left; by split]. }
  by apply read_on_post.
Qed.

Lemma handleRead_post o s : po_state o = READ → inv o s →
  wp True handleRead (outcome (mark_of o) s) (mkPst o s).
Proof.
  intros Hst Hi. unfold handleRead. wp_step. apply (wp_mono _ _ (λ r p, read_point o s r p)).
  - intros [rv|] p H; [by wp_step|]. destruct H as [(Hm & Hi1 & G) (h & s0 & F & C)]. destruct p as [o1 s1]. simpl in *.
    assert (po_state o1 = READ) as Hst1 by (injection Hm; congruence).
    pose proof Hi1 as [[S1 S2 S3 S4 S5 S6] Hf Hr _]. rewrite Hst1 in *. rewrite <- Hm. apply wp_advance; [|done| |done].
    + unfold mark_of. rewrite Hst1. apply edge_next. constructor.
    + split; [|done|done|].
      * split; simpl; [done|done|by intros ?%S3|by intros ?%S4|done|done].
      * unfold data_inv. simpl. exists h, s0. split; [by apply (fetched_same o1)|done].
  - apply (wp_loop (λ _ p, reading o s p)); [|by split]. intros _ p Hp. by apply read_iteration_post.
Qed.
Lemma handleClose_post o s : po_state o = CLOSE → inv o s →
  wp True handleClose (outcome (mark_of o) s) (mkPst o s).
Proof.
  intros Hst Hi. pose proof Hi as [[S1 S2 S3 S4 S5 S6] _ _ Hd]. unfold data_inv in Hd. rewrite Hst in *.
  assert (finished (po_state o) = false) as Hm by by rewrite Hst.
  unfold handleClose. wp_step. apply wp_pfield. wp_step. apply (wp_lift_step steady); [preserves_auto|]. intros rc s1 H1.
  wp_step; [by apply wp_wait|]. wp_step. apply wp_pupd. wp_step. unfold set_state. apply wp_pupd. unfold leave. wp_step.
  pose proof (inv_steady _ _ _ Hi H1) as [_ _ Hr Hd1]. unfold data_inv in Hd1. rewrite Hst in Hd1.
  apply wp_closeIntern; [done|]. intros s2 W _ Hfree. wp_step.
  apply out_move; [| |transitivity s1; [by apply steady_grows|apply W]|done|intros _; by apply Hfree].
  - unfold mark_of. rewrite Hst. apply edge_next. constructor.
  - split; simpl; [|done|by apply W|].
    + split; simpl; [done|done|by intros [? ?]|by intros [? ?]|done|done].
    + destruct Hd1 as (h & s0 & F & C). exists h, s0. split.
      * apply (fetched_same o); [done..|]. by eapply fetched_world.
      * by apply (complete_world o h s0 s1).
Qed.

Lemma run_stage_post o s : finished (po_state o) = false → inv o s →
  wp True (run_stage (po_state o)) (outcome (mark_of o) s) (mkPst o s).
Proof.
  intros Hf Hi. destruct (po_state o) eqn:Hst; [..|done|done]; cbn [run_stage].
  - by apply handleStart_post.
  - by apply handleConnecting_post.
  - by apply handleHandshake_post.
  - by apply handleAuthList_post.
  - by apply handleAuth_post.
  - by apply handleSftpInit_post.
  - by apply handleRealPath_post.
  - by apply handleStat_post.
  - by apply handleOpen_post.
  - by apply handleRead_post.
  - by apply handleClose_post.
Qed.
End operation.
