(* ===== verification/PollSpec.v ===== *)
(** What the non-blocking retrieval promises: the refinement of the abstract system, its
    invariant under every use, the data, the gate of the credentials, the end. *)

From S2P Require Import Prelude Modes World Sim Defaults Transport Config HostKey Auth Connect Session Gate Sftp Transfer Poll PollProof PollFrame PollStages.

Section operation.
Context {E : Type} `{!Env E} `{own : Sole}.

Abbreviation M := (prog (st E)).
Abbreviation P := (prog (pst E)).

(** ** The whole operation *)

(** Where a call of [continuePoll] leads: along the edges of the abstract system, in the
    invariant, and to [CLOSED] only with an exception. *)
Record steps (o : poll) (s : st E) (p : pst E) : Prop := {
  steps_path : rtc edge (mark_of o) (mark_of (op p));
  steps_inv : inv (op p) (base p);
  steps_grows : grows s (base p);
  steps_error : po_state (op p) = CLOSED → xsink (base p) ≠ [];
  steps_free : finished (po_state (op p)) = true → poll_op_in_progress (cl (base p)) = false
}.

Lemma outcome_steps o s p r p' :
  finished (po_state (op p)) = false → steps o s p → outcome (mark_of (op p)) (base p) r p' →
  steps o s p' ∧ (is_Some r → finished (po_state (op p')) = false).
Proof.
  intros Hf [H1 H2 H3 H4 H5] Ho. inversion Ho as [i o1 s1 Hm Hi G|o1 s1 He Hi G X Y]; subst; simpl in *.
  - injection Hm as Hm1 Hm2 Hm3. split; [split; simpl| ].
    + unfold mark_of in *. by rewrite Hm1, Hm2, Hm3.
    + done.
    + by transitivity (base p).
    + intros Hc. by rewrite <- Hm1, Hc in Hf.
    + intros Hc. by rewrite <- Hm1, Hc in Hf.
    + by rewrite Hm1.
  - split; [split; simpl|by intros []].
    + eapply rtc_r; [exact H1|done].
    + done.
    + by transitivity (base p).
    + done.
    + done.
Qed.

Lemma steps_refl o s : finished (po_state o) = false → inv o s → steps o s (mkPst o s).
Proof. intros Hf Hi. split; simpl; [apply rtc_refl|done|reflexivity|intros Hc; by rewrite Hc in Hf|by rewrite Hf]. Qed.

Lemma continuePollIntern_post o s : inv o s → finished (po_state o) = false →
  wp True continuePollIntern (λ r p, steps o s p ∧ finished (po_state (op p)) = bool_decide (r = None)) (mkPst o s).
Proof.
  intros Hi Hf0. unfold continuePollIntern. apply (wp_loop (λ _ p, steps o s p)); [|by apply steps_refl].
  intros _ p Hp. wp_step. apply wp_gets. cbv beta. wp_step; [by wp_step|]. wp_step. destruct p as [o1 s1]. cbn [op] in *.
  eapply wp_mono; [|apply run_stage_post; [done|apply Hp]]. intros rv p' H.
  destruct (outcome_steps o s (mkPst o1 s1) rv p') as [Hs Hf]; [done..|].
  destruct rv as [i|]; wp_step; [|done]. split; [done|]. by rewrite Hf.
Qed.

Lemma continuePoll_post o s : inv o s → finished (po_state o) = false →
  wp True continuePoll (λ r p, steps o s p ∧ finished (po_state (op p)) = bool_decide (r = None)) (mkPst o s).
Proof.
  intros Hi Hf. unfold continuePoll. wp_step. apply wp_pfield. cbv beta. rewrite Hf. wp_step.
  apply (wp_lift_reports (λ b, b = true)); [preserves_auto|apply cancel_reports|]. intros c s1 H1 X1. wp_step.
  - unfold leave. wp_step. apply wp_closeIntern; [by eapply inv_registered_later|]. intros s2 W _ Hfree. wp_step.
    assert (po_state o ≠ DONE) as Hne by (intros Hd; by rewrite Hd in Hf).
    assert (po_state (released o) = CLOSED) as Hc by (unfold released; simpl; by rewrite decide_False).
    split; [|simpl in *; by rewrite Hc]. split; cbn [op base].
    + apply rtc_once. unfold mark_of at 2. rewrite Hc. by apply edge_fail.
    + apply (inv_released o s1); [by eapply inv_registered_later|done|done].
    + transitivity s1; [by apply steady_grows|apply W].
    + intros _. destruct W as (_ & _ & W & _). eapply xsink_grows_nonempty; [by apply X1|done].
    + intros _. apply Hfree. by rewrite (shape_reserved _ (inv_shape _ _ Hi)), Hf.
  - eapply wp_mono; [|apply continuePollIntern_post; [by eapply inv_steady|done]].
    intros r p [[P1 P2 P3 P4 P5] P6]. split; [|done]. split; [done|done| |done|done].
    transitivity s1; [by apply steady_grows|done].
Qed.
(** ** The life of an operation *)

(** Every call has an exception sink of its own. *)
Definition called (p : pst E) : pst E := mkPst (op p) ((base p) <| xsink := [] |>).

(** The operation is polled or aborted, or another thread uses the client. *)
Inductive poll_step : relation (pst E) :=
  | step_poll p r p' : continuePoll (called p) = Some (r, p') → poll_step p p'
  | step_abort p u p' : poll_abort (called p) = Some (u, p') → poll_step p p'
  | step_other op' p u s' : run_other_thread op' (base p) = Some (u, s') → poll_step p (mkPst (op p) s').

(** A new operation on a client that [reservePollOperation] has reserved for it. *)
Definition start_of (path : string) (to : Z) (s : st E) : pst E := mkPst (new_poll path to) s.

Lemma inv_start path to s :
  registered s → poll_op_in_progress (cl s) = true → inv (new_poll path to) s.
Proof.
  intros Hr Hf. split; [|done|done|done]. split; simpl; [done|done|by intros [? ?]|by intros [? ?]|done|done].
Qed.

Lemma inv_called p : inv (op p) (base p) → inv (op (called p)) (base (called p)).
Proof.
  intros [Hs Hf [A B C D] Hd]. split; [done|done|by split|]. cbn [called op base]. unfold data_inv in *.
  destruct (po_state (op p)); try done; destruct Hd as (h & s0 & [F1 F2 F3 F4] & C');
    (exists h, s0; split; [by split|done]).
Qed.

Lemma poll_finished o s : finished (po_state o) = true → continuePoll (mkPst o s) = Some (None, mkPst o s).
Proof. intros Hf. unfold continuePoll, pfield, mbind, prog_bind, gets. simpl. by rewrite Hf. Qed.

Lemma abort_finished o s : finished (po_state o) = true → poll_abort (mkPst o s) = Some (tt, mkPst o s).
Proof. intros Hf. unfold poll_abort, pfield, mbind, prog_bind, gets. simpl. by rewrite Hf. Qed.

(** An abort closes the operation and drops the connection. *)
Lemma abort_running o s : inv o s → finished (po_state o) = false →
  wp True poll_abort (λ _ p, op p = released o ∧ world s (base p) ∧ ssh_session (cl (base p)) = None ∧
    poll_op_in_progress (cl (base p)) = false) (mkPst o s).
Proof.
  intros Hi Hf. unfold poll_abort. wp_step. apply wp_pfield. cbv beta. rewrite Hf. cbn [negb when].
  apply wp_closeIntern; [apply Hi|]. intros s1 W Hs Hfree. split_and!; [done|done|by apply Hs|].
  apply Hfree. by rewrite (shape_reserved _ (inv_shape _ _ Hi)), Hf.
Qed.

Lemma running o : finished (po_state o) = false → po_state o ≠ DONE.
Proof. intros Hf Hd. by rewrite Hd in Hf. Qed.

Lemma closed_mark o : po_state o ≠ DONE → mk_state (mark_of (released o)) = CLOSED.
Proof. intros Hne. unfold mark_of, released. simpl. by rewrite decide_False. Qed.

Lemma step_inv p p' : inv (op p) (base p) → poll_step p p' →
  rtc edge (mark_of (op p)) (mark_of (op p')) ∧ inv (op p') (base p') ∧ grows (base p) (base p').
Proof.
  intros Hi Hstep. destruct Hstep as [p r p' H|p u p' H|other p u s' H].
  - apply inv_called in Hi. destruct p as [o s]. unfold called in *. cbn [op base] in *. destruct (finished (po_state o)) eqn:Hf.
    + rewrite poll_finished in H by done. injection H as <- <-. split_and!; [apply rtc_refl|done|by exists []].
    + destruct (wp_run _ _ _ _ _ (continuePoll_post _ _ Hi Hf) H) as [[H1 H2 H3 _ _] _].
      split_and!; [done|done|]. etransitivity; [|exact H3]. by exists [].
  - apply inv_called in Hi. destruct p as [o s]. unfold called in *. cbn [op base] in *. destruct (finished (po_state o)) eqn:Hf.
    + rewrite abort_finished in H by done. injection H as <- <-. split_and!; [apply rtc_refl|done|by exists []].
    + destruct (wp_run _ _ _ _ _ (abort_running _ _ Hi Hf) H) as (-> & W & _).
      pose proof (running _ Hf) as Hne. split_and!.
      * apply rtc_once. pose proof (closed_mark _ Hne) as Hc. destruct (mark_of (released o)) as [x r t]. simpl in Hc.
        subst. by apply edge_fail.
      * eapply inv_released; [apply Hi|done|done].
      * etransitivity; [|apply W]. by exists [].
  - split_and!; [apply rtc_refl| |].
    + eapply inv_steady; [exact Hi|]. apply (wp_run _ _ _ _ _ (linked_other (R:=steady) other (base p)) H).
    + apply (wp_run _ _ _ _ _ (linked_other (R:=grows) other (base p)) H).
Qed.

Lemma run_inv path to s p :
  registered s → poll_op_in_progress (cl s) = true → rtc poll_step (start_of path to s) p →
  rtc edge (mkMark START false false) (mark_of (op p)) ∧ inv (op p) (base p) ∧ grows s (base p).
Proof.
  intros Hr Hf Hrun. refine (rtc_ind_r (λ p, rtc edge (mkMark START false false) (mark_of (op p)) ∧
    inv (op p) (base p) ∧ grows s (base p)) _ _ _ p Hrun).
  - split_and!; [apply rtc_refl|by apply inv_start|by exists []].
  - intros p1 p2 _ Hstep (H1 & H2 & H3). destruct (step_inv p1 p2 H2 Hstep) as (G1 & G2 & G3).
    split_and!; [by etransitivity|done|by etransitivity].
Qed.

(** ** The abstract system ends *)

(** How many edges are left. *)
Definition stage_rank (st : SftpPollState) : nat :=
  match st with
  | START => 11 | CONNECTING => 10 | HANDSHAKE => 9 | AUTHLIST => 8 | AUTH => 7 | SFTP_INIT => 6
  | REALPATH => 5 | STAT => 4 | OPEN => 3 | READ => 2 | CLOSE => 1 | DONE | CLOSED => 0
  end.

Definition mark_rank (m : mark) : nat :=
  stage_rank (mk_state m) + (if finished (mk_state m) || mk_retried m then 0 else 11).

Lemma edge_rank m m' : edge m m' → (mark_rank m' < mark_rank m)%nat.
Proof.
  unfold mark_rank. destruct 1 as [st st' r t H|st r t H|st H|st r t r' t' H]; simpl.
  - destruct H, t; simpl; lia.
  - destruct H as [-> | ->], t; simpl; lia.
  - destruct H as [-> | ->]; simpl; lia.
  - destruct st, t; simpl in *; try done; lia.
Qed.

Lemma edges_bounded m m' : rtc edge m m' → ∃ n, nsteps edge n m m' ∧ (n + mark_rank m' ≤ mark_rank m)%nat.
Proof.
  intros H. apply rtc_nsteps in H as [n H]. exists n. split; [done|].
  induction H as [|n m1 m2 m3 H1 _ IH]; [lia|]. apply edge_rank in H1. lia.
Qed.
(** ** The gate of the credentials *)

(** In a segment that began with an acceptance. *)
Definition accepted (s0 s : st E) : Prop :=
  ∃ to s1 s2, gated s0 s1 ∧ verifyHostKeyUnlocked to s1 = Some (false, s2) ∧ emits same_session s2 s.

Definition authenticates (st : SftpPollState) : bool := bool_decide (st = AUTHLIST) || bool_decide (st = AUTH).

Definition gate (s0 : st E) (p : pst E) : Prop :=
  gated s0 (base p) ∧ (authenticates (po_state (op p)) = true → accepted s0 (base p)).

Lemma accepted_gated s0 s : accepted s0 s → gated s0 s.
Proof. intros (to & s1 & s2 & H1 & H2 & H3). by eapply gated_accepted. Qed.

Lemma accepted_step s0 s s' : accepted s0 s → emits same_session s s' → accepted s0 s'.
Proof. intros (to & s1 & s2 & H1 & H2 & H3) H. exists to, s1, s2. split_and!; try done. by transitivity s. Qed.

Lemma closed_or (o o' : poll) : po_state o' = CLOSED → po_state o' = po_state o ∨ po_state o' = CLOSED.
Proof. by right. Qed.

Lemma leave_state d o s : registered s → po_state o ≠ DONE →
  wp True (leave d) (λ _ p, po_state (op p) = CLOSED) (mkPst o s).
Proof.
  intros Hr Hne. unfold leave. wp_step. apply wp_closeIntern; [done|]. intros s1 _ _ _. wp_step.
  unfold released. simpl. by rewrite decide_False.
Qed.

Lemma fail_with_state e d o s : registered s → po_state o ≠ DONE →
  wp True (fail_with e d) (λ _ p, po_state (op p) = CLOSED) (mkPst o s).
Proof.
  intros Hr Hne. unfold fail_with. wp_step. apply wp_lift. wp_world. apply leave_state; [|done].
  destruct Hr as [A B C D]. by split.
Qed.

Lemma info_state o s : registered s → po_state o ≠ DONE →
  wp True getSessionPollInfo (λ _ p, po_state (op p) = po_state o ∨ po_state (op p) = CLOSED) (mkPst o s).
Proof.
  intros Hr Hne. unfold getSessionPollInfo.
  wp_step. apply (wp_lift_step keeps_registered); [preserves_auto|]. intros ? s1 H1.
  wp_step. apply (wp_lift_step keeps_registered); [preserves_auto|]. intros ? s2 H2.
  wp_step. apply (wp_lift_step keeps_registered); [preserves_auto|]. intros ? s3 H3.
  assert (registered s3) as Hr3 by by apply H3, H2, H1.
  unfold getPollInfo. wp_step; [eapply wp_mono; [|by apply fail_with_state]; auto|].
  wp_step. apply wp_pupd. wp_step. apply wp_lift. apply wp_has_exc; intros X.
  - eapply wp_mono; [|by apply leave_state]. auto.
  - wp_step. by left.
Qed.

(** The handshake leads to the authentication only over an accepted host key. *)
Lemma handshake_gate o s : po_state o = HANDSHAKE → registered s →
  wp True handleHandshake (λ _ p, ∀ s0, gated s0 s → authenticates (po_state (op p)) = true → accepted s0 (base p)) (mkPst o s).
Proof.
  intros Hst Hr. assert (po_state o ≠ DONE) as Hne by by rewrite Hst. unfold handleHandshake.
  wp_step. apply (wp_lift_step (both keeps_registered (emits no_credentials))).
  { apply preserves_both. unfold startupUnlocked. split; preserves_auto. }
  intros rc s1 [R1 E1]. assert (registered s1) as Hr1 by by apply R1. wp_step.
  { eapply wp_mono; [|by apply info_state]. intros ? p [H|H]; by rewrite H, ?Hst. }
  wp_step; [eapply wp_mono; [|by apply fail_with_state]; intros ? p H; by rewrite H|].
  wp_step. apply wp_pfield. wp_step. apply wp_lift, wp_intro. intros failed s2 Hrun.
  pose proof (wp_run _ _ _ _ _ (session_verifyHostKey keeps_registered (po_timeout o) s1) Hrun) as R2.
  pose proof (wp_run _ _ _ _ _ (verifyHostKey_no_credentials (po_timeout o) s1) Hrun) as E2. simpl in *. wp_step.
  - eapply wp_mono; [|apply leave_state; [by apply R2|done]]. intros ? p H. by rewrite H.
  - unfold advance, set_state. wp_step. apply wp_pupd. wp_step. intros s0 Hg _.
    exists (po_timeout o), s1, s2. split_and!; [by eapply gated_silent|done|reflexivity].
Qed.

Lemma run_stage_silent st : st ≠ AUTH → preserves (on_base (emits no_credentials)) (run_stage (E:=E) st).
Proof. intros Hst. apply (frame_stage (emits no_credentials)); [apply _..| |done]. intros. by apply preserves_handshake. Qed.

(** The stages of the authentication make no new session. *)
Lemma run_stage_same_session st :
  authenticates st = true → preserves (on_base (emits same_session)) (run_stage (E:=E) st).
Proof.
  destruct st; try done; intros _; cbn [run_stage]; [apply (frame_authlist (emits same_session)); apply _|].
  apply (frame_auth (emits same_session)); [apply _..|intros; apply session_authCall, _|intros; apply session_userauth_call, _].
Qed.

Lemma outcome_state m s0 r p : outcome m s0 r p → mark_of (op p) = m ∨ edge m (mark_of (op p)).
Proof. by destruct 1; [left|right]. Qed.

Lemma not_entered m p : authenticates (mk_state m) = false → mk_state m ≠ HANDSHAKE →
  mark_of p = m ∨ edge m (mark_of p) → authenticates (po_state p) = false.
Proof.
  intros Ha Hh [<-|He]; [done|]. unfold mark_of in He. inversion He as [st st' ?? Hn|st ?? Hx|st|]; subst; simpl in *.
  - by destruct Hn.
  - by destruct Hx as [-> | ->].
  - done.
  - done.
Qed.

Lemma stage_gate s0 o s : finished (po_state o) = false → inv o s → gate s0 (mkPst o s) →
  wp True (run_stage (po_state o)) (λ r p, gate s0 p) (mkPst o s).
Proof.
  intros Hf Hi [Hg Ha]; simpl in *. destruct (authenticates (po_state o)) eqn:Hst.
  - eapply wp_mono; [|by apply (run_stage_same_session (po_state o))]. intros r p He.
    assert (accepted s0 (base p)) as Hc by (eapply accepted_step; [by apply Ha|exact He]).
    split; [by apply accepted_gated|done].
  - assert (wp True (run_stage (po_state o)) (λ _ p, authenticates (po_state (op p)) = true → accepted s0 (base p)) (mkPst o s)) as Hh.
    { destruct (decide (po_state o = HANDSHAKE)) as [Hs|Hs].
      - rewrite Hs. cbn [run_stage]. eapply wp_mono; [|apply handshake_gate; [done|apply Hi]]. auto.
      - eapply wp_mono; [|by apply run_stage_post]. intros r p Ho Hp. apply outcome_state in Ho.
        by rewrite (not_entered (mark_of o) _ Hst Hs Ho) in Hp. }
    assert (po_state o ≠ AUTH) as Hne by (intros Hx; by rewrite Hx in Hst).
    eapply wp_mono; [|apply wp_and; [exact Hh|by apply (run_stage_silent (po_state o))]].
    intros r p [Hc Hs]. split; [by eapply gated_silent|done].
Qed.

Lemma close_gate s0 d o s : registered s → po_state o ≠ DONE → gate s0 (mkPst o s) →
  wp True (poll_closeIntern d) (λ _ p, gate s0 p) (mkPst o s).
Proof.
  intros Hr Hne [Hg _]. eapply wp_mono; [|apply wp_and;
    [apply (wp_closeIntern d (λ _ p, op p = released o)); [done|by intros]
    |apply (frame_closeIntern (emits no_credentials) (on_base (emits no_credentials))); apply _]].
  intros ? p [Ho E1]. split; [eapply gated_silent; [exact Hg|exact E1]|]. rewrite Ho. unfold released. simpl.
  by rewrite decide_False.
Qed.

Lemma gate_step s0 p s' :
  gate s0 p → emits no_credentials (base p) s' → emits same_session (base p) s' → gate s0 (mkPst (op p) s').
Proof. intros [Hg Ha] E1 E2. split; [by eapply gated_silent|]. intros H. eapply accepted_step; [by apply Ha|done]. Qed.

Lemma continue_gate s0 o s : inv o s → gate s0 (mkPst o s) →
  wp True continuePoll (λ r p, gate s0 p) (mkPst o s).
Proof.
  intros Hi Hg. destruct (finished (po_state o)) eqn:Hf; [unfold wp; by rewrite poll_finished|].
  unfold continuePoll. wp_step. apply wp_pfield. cbv beta. rewrite Hf. wp_step.
  apply (wp_lift_step (both steady (both (emits no_credentials) (emits same_session)))).
  { apply preserves_both. split; [preserves_auto|]. apply preserves_both. split; preserves_auto. }
  intros c s1 [S1 [E1 E2]]. assert (inv o s1) as Hi1 by by eapply inv_steady.
  assert (gate s0 (mkPst o s1)) as Hg1 by (by apply (gate_step s0 (mkPst o s))). wp_step.
  - unfold leave. wp_step. eapply wp_mono; [|apply close_gate; [apply Hi1|by apply running|exact Hg1]].
    intros ? p H. by wp_step.
  - unfold continuePollIntern. apply (wp_loop (λ _ p, inv (op p) (base p) ∧ gate s0 p)); [|done].
    intros _ [o2 s2] [Hi2 Hg2]. simpl in Hi2. wp_step. apply wp_pfield. cbv beta. wp_step; [by wp_step|]. wp_step.
    eapply wp_mono; [|apply wp_and; [by apply run_stage_post|by apply stage_gate]].
    intros rv p [Ho Hg3]. destruct rv as [i|]; wp_step; [done|]. split; [|done]. by inversion Ho.
Qed.

Lemma gate_called s0 p : gate s0 p → gate s0 (called p).
Proof. intros H. apply (gate_step s0 p); [exact H|by exists []..]. Qed.

Lemma step_gate s0 p p' : inv (op p) (base p) → gate s0 p → poll_step p p' → gate s0 p'.
Proof.
  intros Hi Hg Hstep. destruct Hstep as [p r p' H|p u p' H|other p u s' H].
  - apply (wp_run _ _ _ _ _ (continue_gate s0 (op p) _ (inv_called _ Hi) (gate_called _ _ Hg)) H).
  - destruct (finished (po_state (op p))) eqn:Hf.
    + unfold called in H. rewrite abort_finished in H by done. injection H as <- <-. exact (gate_called _ _ Hg).
    + assert (wp True poll_abort (λ _ p', gate s0 p') (called p)) as Hw.
      { unfold poll_abort, called. wp_step. apply wp_pfield. cbv beta. rewrite Hf. cbn [negb when].
        apply close_gate; [apply (inv_called _ Hi)|by apply running|exact (gate_called _ _ Hg)]. }
      apply (wp_run _ _ _ _ _ Hw H).
  - apply gate_step; [exact Hg| |].
    + apply (wp_run _ _ _ _ _ (run_other_thread_no_credentials other _) H).
    + apply (wp_run _ _ _ _ _ (linked_other (R:=emits same_session) other _) H).
Qed.

(** ** The path *)

Lemma named_continue : preserves named continuePoll.
Proof. apply (frame_continue grows); apply _. Qed.

Lemma named_abort : preserves named poll_abort.
Proof. apply (frame_abort grows); apply _. Qed.

Lemma step_named p p' : poll_step p p' → named p p'.
Proof.
  intros Hstep. destruct Hstep as [p r p' H|p u p' H|other p u s' H].
  - exact (wp_run _ _ _ _ _ (named_continue (called p)) H).
  - exact (wp_run _ _ _ _ _ (named_abort (called p)) H).
  - by split.
Qed.

Lemma run_named p p' : rtc poll_step p p' → named p p'.
Proof. induction 1; [reflexivity|]. etransitivity; [by apply step_named|done]. Qed.
End operation.
