(* ===== verification/PollTheorems.v ===== *)
(** What the non-blocking retrieval promises, and the concrete operations on which
    the promises are instantiated. *)

From S2P Require Import Prelude Modes World Sim Defaults Transport Config HostKey Auth Connect Session Gate Sftp Transfer Poll PollProof PollStages PollSpec.

(** * Theorems *)

Section theorems.
Context {E : Type} `{!Env E}.

Abbreviation M := (prog (st E)).
Abbreviation P := (prog (pst E)).

(** The operation alone reads from its handle: other threads only change settings. *)
#[local] Instance alone : Sole := True.

(** A client that [reservePollOperation] has reserved for a new operation. *)
Definition reserved (s : st E) : Prop := registered s ∧ poll_op_in_progress (cl s) = true.

(** C2: The operation refines the abstract state machine: however it is polled and
    aborted, and whatever the server and other threads do, it only moves along the edges
    - the stages in their order, the short cut of a reused session, one retry on a dead
    one, and failure - and it changes its state at most 22 times in its life. *)
Theorem poll_run_refines (path : string) (to : Z) (s : st E) (p : pst E) :
  reserved s → rtc poll_step (start_of path to s) p →
  ∃ n, nsteps edge n (mkMark START false false) (mark_of (op p)) ∧ (n ≤ 22)%nat.
Proof.
  intros [Hr Hf] Hrun. destruct (run_inv _ _ _ _ Hr Hf Hrun) as (He & _).
  destruct (edges_bounded _ _ He) as (n & Hn & Hle). exists n. split; [done|].
  assert (mark_rank (mkMark START false false) = 22%nat) as E22 by reflexivity. lia.
Qed.

(** C9: At every moment of its life the operation holds exactly the resources of its
    state - the pending connection while it connects, the file while it reads or closes it,
    the agent and the candidates only while it authenticates - and the client's reservation
    is its own until it ends; the client's registries stay exact. *)
Theorem poll_holds_its_resources (path : string) (to : Z) (s : st E) (p : pst E) :
  reserved s → rtc poll_step (start_of path to s) p →
  shape (op p) ∧ registered (base p) ∧
  (finished (po_state (op p)) = false → poll_op_in_progress (cl (base p)) = true).
Proof.
  intros [Hr Hf] Hrun. destruct (run_inv _ _ _ _ Hr Hf Hrun) as (_ & [Hs Hres Hreg _] & _).
  split_and!; [done|done|]. intros Hfin. apply Hres. by rewrite (shape_reserved _ Hs), Hfin.
Qed.

(** C17: A call of [continuePoll] returns nothing exactly when the operation has ended,
    ends with [CLOSED] only with an exception, and gives the client back when it ends. *)
Theorem continuePoll_result (path : string) (to : Z) (s : st E) (p p' : pst E) (r : option poll_info) :
  reserved s → rtc poll_step (start_of path to s) p → finished (po_state (op p)) = false →
  continuePoll (called p) = Some (r, p') →
  (r = None ↔ finished (po_state (op p')) = true) ∧
  (po_state (op p') = CLOSED → xsink (base p') ≠ []) ∧
  (r = None → poll_op_in_progress (cl (base p')) = false).
Proof.
  intros [Hr Hf] Hrun Hfin H. destruct (run_inv _ _ _ _ Hr Hf Hrun) as (_ & Hi & _). apply inv_called in Hi.
  destruct (wp_run _ _ _ _ _ (continuePoll_post _ _ Hi Hfin) H) as [[_ _ _ Hx Hfree] Heq].
  split_and!; [rewrite Heq; by rewrite bool_decide_eq_true|done|]. intros ->. by apply Hfree.
Qed.


(** At whatever moment the operation is polled, aborted or interleaved with others, and
    however often it replaces a lost connection: every password, key or agent signature it
    sends comes after a host key was accepted, and no new session was made since - the
    credentials go to the server whose key was checked. *)
Theorem poll_credentials_gated (path : string) (to : Z) (s : st E) (p : pst E) (later before : list event) r (a : ans r) :
  reserved s → rtc poll_step (start_of path to s) p →
  trace (base p) = later ++ Ev r a :: before → (∃ t, before = t ++ trace s) → sends_credentials r = true →
  after_acceptance s before.
Proof.
  intros [Hr Hf] Hrun Ht [t0 Ht0] Hs. eapply gated_events; [|done|done|done].
  assert (inv (op p) (base p) ∧ gate s p) as [_ [H _]]; [|exact H].
  refine (rtc_ind_r (λ p, inv (op p) (base p) ∧ gate s p) _ _ _ p Hrun).
  - split; [by apply inv_start|]. split; [apply gated_start|]. done.
  - intros p1 p2 _ Hstep (H1 & H2). split; [by apply (step_inv p1)|by apply (step_gate s p1)].
Qed.

(** C33: An abort ends the operation at once and for good: an operation that is running
    is closed, the connection is dropped, the client is given back and there is no output; one
    that has ended is left as it is. *)
Theorem poll_abort_spec (path : string) (to : Z) (s : st E) (p p' : pst E) :
  reserved s → rtc poll_step (start_of path to s) p → poll_abort (called p) = Some (tt, p') →
  if finished (po_state (op p)) then p' = called p
  else po_state (op p') = CLOSED ∧ getOutput (op p') = None ∧ ssh_session (cl (base p')) = None ∧
    poll_op_in_progress (cl (base p')) = false ∧ registered (base p').
Proof.
  intros [Hr Hf] Hrun H. destruct (run_inv _ _ _ _ Hr Hf Hrun) as (_ & Hi & _). apply inv_called in Hi.
  destruct (finished (po_state (op p))) eqn:Hfin.
  - unfold called in H. rewrite abort_finished in H by done. by injection H.
  - destruct (wp_run _ _ _ _ _ (abort_running _ _ Hi Hfin) H) as (-> & W & Hs & Hfree).
    assert (po_state (released (op p)) = CLOSED) as Hc by exact (closed_mark _ (running _ Hfin)).
    change (op (called p)) with (op p). unfold getOutput. rewrite Hc. split_and!; [done..|]. apply W, Hi.
Qed.

End theorems.

(** ** Behaviours at concrete inputs *)

Definition reserved_state (c : client) : st nat := state0 (c <| poll_op_in_progress := true |>).

Lemma reserved_start c : channel_set c = ∅ → listener_set c = ∅ → reserved (reserved_state c).
Proof.
  intros Hc Hl. split; [|done]. destruct (registered_state0 SSH2ClientClass) as [H1 H2 H3 H4].
  split; simpl in *; rewrite ?Hc, ?Hl; done.
Qed.

(** A connected SFTP client whose owner has started an operation. *)
Definition shared_state : st nat := sftp_state <| cl := (cl sftp_state) <| poll_op_in_progress := true |> |>.

(** A server that is busy, on a network on which waits run into their timeouts. *)
Definition busy_env : Env nat :=
  sim_env (λ _ r, match r with
                  | QZ (sftp_request _ _) => LIBSSH2_ERROR_EAGAIN
                  | QZ (socket_asyncIoWait _ _ _) => 0
                  | sftp_stat _ _ _ => (0, mkAttrs LIBSSH2_SFTP_ATTR_PERMISSIONS 5 0 0 0x81A4 0 0)
                  | sftp_read _ _ => (LIBSSH2_ERROR_EAGAIN, [])
                  | r => quiet_ans r
                  end) 20.

(** A directory is created while an operation is in progress on the same client, though
    the documentation says that other operations fail with SSH2-POLL-IN-PROGRESS. *)
Theorem poll_not_exclusive :
  ∃ s', @sftpMkdir nat quiet_env "d" 0x1ED 1000 shared_state = Some (0, s') ∧
    poll_op_in_progress (cl s') = true ∧ xsink s' = [].
Proof. eexists. vm_compute. by split_and!. Qed.

Definition reads_file (e : event) : bool :=
  match e with Ev (sftp_read (Some _) _) _ => true | _ => false end.

(** A log, newest event first, in which a file is read after its session was freed. *)
Fixpoint read_after_free (log : list event) : bool :=
  match log with
  | [] => false
  | e :: log => reads_file e && existsb frees_session log || read_after_free log
  end.

(** An operation waits in the middle of the file; a request of another thread runs into its
    timeout and drops the connection; the operation goes on to read from the handle that
    was freed with it. *)
Definition poll_during_request : prog (pst nat) (option poll_info) :=
  _ ← @continuePoll nat busy_env;
  _ ← lift (@sftpMkdir nat busy_env "d" 0x1ED 1000);
  @continuePoll nat busy_env.

Theorem poll_reads_freed_handle :
  (λ r, read_after_free (trace (base r.2))) <$> poll_during_request (start_of "f" 1000 shared_state) = Some true.
Proof. vm_compute. reflexivity. Qed.

(** ** Witnesses *)

(** A server that is slow in its handshake and in its first read of a file of five bytes. *)
Definition poll_env : Env nat :=
  sim_env (λ i r, match r with
                  | QZ (knownhost_checkp _ _ _ _ _) => LIBSSH2_KNOWNHOST_CHECK_MATCH
                  | QZ (session_handshake _ _) => if (i <? 15)%nat then LIBSSH2_ERROR_EAGAIN else 0
                  | sftp_stat _ _ _ => (0, mkAttrs LIBSSH2_SFTP_ATTR_PERMISSIONS 5 0 0 0x81A4 0 0)
                  | sftp_read _ n => if (i <? 38)%nat then (LIBSSH2_ERROR_EAGAIN, [])
                                     else if n <? 3 then (n, take (Z.to_nat n) abc) else (3, abc)
                  | r => quiet_ans r
                  end) 30.

#[export] Instance poll_env_data : @SftpData nat poll_env.
Proof.
  split.
  - intros h n e rc bytes. unfold poll_env, sim_env. cbn [answer fst]. destruct (e <? 38)%nat; [intros [= <- <-] Hn; unfold LIBSSH2_ERROR_EAGAIN; cbn; lia|].
    destruct (Z.ltb_spec n 3); intros [= <- <-] Hn; [|cbn; lia]. rewrite length_take. cbn [length abc]. lia.
  - intros h data e rc. cbn. intros <-. lia.
Qed.

(** The operation after one more call. *)
Definition next_of (p : pst nat) : pst nat :=
  match @continuePoll nat poll_env (called p) with Some (_, p') => p' | None => p end.

Lemma next_step p r :
  fst <$> @continuePoll nat poll_env (called p) = Some r → @poll_step nat poll_env p (next_of p).
Proof.
  unfold next_of. destruct (@continuePoll nat poll_env (called p)) as [[r' p']|] eqn:H; [|done].
  intros _. by apply (step_poll _ r').
Qed.

Definition started : pst nat := start_of "f" 1000 (reserved_state (client0 SFTPClientClass)).
Definition shaking : pst nat := next_of started.
Definition fetching : pst nat := next_of shaking.
Definition retrieved : pst nat := next_of fetching.

Lemma reserved_started : reserved (reserved_state (client0 SFTPClientClass)).
Proof. by apply reserved_start. Qed.

Lemma started_shaking : rtc (@poll_step nat poll_env) started shaking.
Proof. apply rtc_once. eapply next_step. vm_compute. reflexivity. Qed.

Lemma started_retrieved : rtc (@poll_step nat poll_env) started retrieved.
Proof.
  assert (@poll_step nat poll_env shaking fetching) as H1 by (eapply (next_step shaking); vm_compute; reflexivity).
  assert (@poll_step nat poll_env fetching retrieved) as H2 by (eapply (next_step fetching); vm_compute; reflexivity).
  etransitivity; [apply started_shaking|]. eapply rtc_l; [exact H1|]. by apply rtc_once.
Qed.

Lemma poll_run_refines_witness :
  mark_of (op retrieved) = mkMark DONE false false ∧
  ∃ n, nsteps edge n (mkMark START false false) (mark_of (op retrieved)) ∧ (n ≤ 22)%nat.
Proof.
  split; [vm_compute; reflexivity|].
  exact (poll_run_refines "f" 1000 _ _ reserved_started started_retrieved).
Defined.

Lemma poll_holds_its_resources_witness :
  po_state (op shaking) = HANDSHAKE ∧ shape (op shaking) ∧ registered (base shaking) ∧
  (finished (po_state (op shaking)) = false → poll_op_in_progress (cl (base shaking)) = true).
Proof.
  split; [vm_compute; reflexivity|].
  exact (poll_holds_its_resources "f" 1000 _ _ reserved_started started_shaking).
Defined.

Lemma continuePoll_result_witness :
  ∃ r p', @continuePoll nat poll_env (called shaking) = Some (Some r, p') ∧
    (Some r = None ↔ finished (po_state (op p')) = true).
Proof.
  destruct (@continuePoll nat poll_env (called shaking)) as [[r p']|] eqn:Hrun; [|vm_compute in Hrun; discriminate].
  pose proof (continuePoll_result "f" 1000 _ _ p' r reserved_started started_shaking ltac:(vm_compute; reflexivity) Hrun) as [H _].
  destruct r as [r|]; [|vm_compute in Hrun; discriminate]. exists r, p'. split; [reflexivity|exact H].
Defined.


Lemma poll_credentials_gated_witness :
  ∃ later r (a : ans r) before, trace (base retrieved) = later ++ Ev r a :: before ∧ sends_credentials r = true ∧
    @after_acceptance nat poll_env (base started) before.
Proof.
  assert (existsb (λ '(Ev r _), sends_credentials r) (trace (base retrieved)) = true) as H by (vm_compute; reflexivity).
  apply existsb_exists in H as ([r a] & Hin & Hr). apply in_split in Hin as (later & before & Ht).
  exists later, r, a, before. split; [exact Ht|]. split; [exact Hr|].
  apply (poll_credentials_gated "f" 1000 (base started) retrieved later before r a reserved_started started_retrieved Ht);
    [|exact Hr].
  exists before. symmetry. apply app_nil_r.
Defined.

Lemma poll_abort_spec_witness :
  ∃ p', @poll_abort nat poll_env (called shaking) = Some (tt, p') ∧ po_state (op p') = CLOSED ∧
    ssh_session (cl (base p')) = None.
Proof.
  destruct (@poll_abort nat poll_env (called shaking)) as [[[] p']|] eqn:Hrun; [|vm_compute in Hrun; discriminate].
  pose proof (poll_abort_spec "f" 1000 _ _ p' reserved_started started_shaking Hrun) as H.
  replace (finished (po_state (op shaking))) with false in H by (vm_compute; reflexivity).
  destruct H as (H1 & _ & H2 & _). exists p'. split; [reflexivity|]. split; [exact H1|exact H2].
Defined.

