(* ===== verification/PollTerm.v ===== *)
(** Every call of a poll operation returns, and the calls end: a potential of the operation
    and of its environment that each stage pays from.  What another thread does, an
    identity that fails, a credential that is rejected, data that arrives and a call that
    has to wait all cost; a provider's candidates and a new plan of attempts are paid for. *)

From S2P Require Import Prelude Modes World Sim Defaults Transport Config HostKey Auth Connect Channel Session Gate Sftp Transfer Term Poll PollProof PollFrame PollStages PollSpec PollTheorems.

(** A provider of identities makes finitely many offers: a list of candidates costs. *)
Class Offering {E : Type} `{!Env E} (budget : E → nat) :=
  offering obj args e ops l e' :
    answer (eval_method obj "getClientIdentityCandidates" args) e = ((ops, Some (QList l)), e') →
    (budget e' + 2 * length l ≤ budget e)%nat.

(** ** Stages that pay *)

Section potential.
Context {E : Type} `{!Env E} (budget : E → nat) `{!Patience budget}.

Abbreviation M := (prog (st E)).
Abbreviation P := (prog (pst E)).

(** What is left to try: the attempts, and the candidates that are not expanded yet. *)
Definition qpot (o : poll) : nat :=
  length (po_auth_queue o) + 2 * (length (default [] (po_candidates o)) - po_index o).

Definition pot (p : pst E) : nat := budget (env (base p)) + qpot (op p).

Definition pays {A} (R : relation poll) (W : A → bool) (p : pst E) (a : A) (p' : pst E) : Prop :=
  (pot p' ≤ pot p)%nat ∧ R (op p) (op p') ∧ (W a = true → (pot p' < pot p)%nat).

(** [m] ends without raising the potential, changes the operation by [R], and a result in
    [W] has lowered it. *)
Definition spends {A} (R : relation poll) (W : A → bool) (m : P A) : Prop :=
  ∀ p, (pot p + 1 < fuel)%nat → wp False m (pays R W p) p.

Definition ends {A} (R : relation poll) (m : P A) : Prop := spends R (λ _, false) m.

(** The attempts are not touched. *)
Definition same_plan (o o' : poll) : Prop :=
  po_auth_queue o' = po_auth_queue o ∧ po_candidates o' = po_candidates o ∧ po_index o' = po_index o.
Definition any (o o' : poll) : Prop := True.

#[export] Instance same_plan_preorder : PreOrder same_plan.
Proof. split; [by split|]. intros o1 o2 o3 (?&?&?) (?&?&?). split_and!; congruence. Qed.

#[export] Instance any_preorder : PreOrder any.
Proof. by split. Qed.

Lemma same_plan_pot o o' : same_plan o o' → qpot o' = qpot o.
Proof. unfold qpot. by intros (-> & -> & ->). Qed.

Section rules.
Context (R : relation poll) `{!PreOrder R}.

Lemma pays_trans {A B} (V : A → bool) (W : B → bool) p a p1 b p2 :
  pays R V p a p1 → pays R W p1 b p2 → pays R W p b p2.
Proof.
  intros (L1 & R1 & _) (L2 & R2 & G2). split_and!; [lia|by transitivity (op p1)|]. intros H. specialize (G2 H). lia.
Qed.

Lemma spends_ret {A} (W : A → bool) (a : A) : W a = false → spends R W (mret a).
Proof. intros Ha p _. apply wp_mret. split_and!; [lia|reflexivity|by rewrite Ha]. Qed.

Lemma spends_bind {A B} (V : A → bool) (W : B → bool) (m : P A) (k : A → P B) :
  spends R V m → (∀ a, V a = true → ends R (k a)) → (∀ a, V a = false → spends R W (k a)) → spends R W (m ≫= k).
Proof.
  intros Hm Ht Hf p Hp. apply wp_bind. eapply wp_mono; [|by apply Hm]. intros a p1 Hpay.
  pose proof Hpay as (L1 & R1 & G1). destruct (V a) eqn:Ha.
  - specialize (G1 eq_refl). eapply wp_mono; [|apply Ht; [done|lia]]. intros b p2 (L2 & R2 & _).
    split_and!; [lia|by transitivity (op p1)|lia].
  - eapply wp_mono; [|apply Hf; [done|lia]]. intros b p2. by eapply pays_trans.
Qed.

Lemma spends_after {A B} (W : B → bool) (m : P A) (k : A → P B) :
  ends R m → (∀ a, spends R W (k a)) → spends R W (m ≫= k).
Proof. intros Hm Hk. by eapply spends_bind. Qed.

Lemma spends_lift {A} (V : A → bool) (m : M A) : spending budget V m → spends R V (lift m).
Proof.
  intros Hm [o s] Hp. unfold pot in Hp. apply wp_lift. simpl in *. eapply wp_mono; [|apply Hm; lia].
  intros a s' [L G]. unfold pays, pot. simpl. split_and!; [lia|reflexivity|]. intros H. specialize (G H). lia.
Qed.

Lemma ends_ret {A} (a : A) : ends R (mret a).
Proof. by apply spends_ret. Qed.

Lemma ends_bind {A B} (m : P A) (k : A → P B) : ends R m → (∀ a, ends R (k a)) → ends R (m ≫= k).
Proof. apply spends_after. Qed.

Lemma ends_lift {A} (m : M A) : total budget m → ends R (lift m).
Proof. intros Hm. by apply spends_lift, spending_never. Qed.

Lemma ends_pupd f : (∀ o, R o (f o)) → (∀ o, (qpot (f o) ≤ qpot o)%nat) → ends R (pupd f).
Proof.
  intros Hf Hq [o s] _. apply wp_modify. specialize (Hq o). unfold pays, pot in *. simpl. split_and!; [lia|apply Hf|done].
Qed.

Lemma ends_gets {A} (f : pst E → A) : ends R (gets f).
Proof. intros p _. apply wp_gets. split_and!; [lia|reflexivity|done]. Qed.

Lemma ends_when (b : bool) (m : P unit) : ends R m → ends R (when b m).
Proof. intros H. destruct b; [done|apply ends_ret]. Qed.

(** A loop pays when going on costs. *)
Definition onward {A B} (W : B → bool) (r : A + B) : bool := match r with inl _ => true | inr b => W b end.

Lemma spends_loop {A B} (W : B → bool) (body : A → P (A + B)) a :
  (∀ a, spends R (onward W) (body a)) → spends R W (loop fuel body a).
Proof.
  intros Hb p Hp. apply (wp_loop_total (λ _, pays R (λ _ : unit, false) p tt) (λ _ p', pot p')).
  - intros a1 p1 H1. pose proof H1 as (L1 & _). eapply wp_mono; [|apply Hb; lia].
    intros [a2|b] p2 H2; [|by eapply pays_trans].
    pose proof H2 as (L2 & R2 & G2). specialize (G2 eq_refl). split; [|done]. split_and!; [lia| |done]. destruct H1 as (_ & R1 & _). by transitivity (op p1).
  - split_and!; [lia|reflexivity|done].
  - lia.
Qed.
End rules.

Lemma ends_weaken {A} (m : P A) : ends same_plan m → ends any m.
Proof. intros H p Hp. eapply wp_mono; [|by apply H]. intros a p' (? & _ & ?). by split_and!. Qed.
End potential.

(** A stage, or an iteration of one, hands the caller a wait. *)
Definition waiting {A} (r : option A) : bool := match r with Some _ => true | None => false end.

Definition held {A} (r : option (option A)) : bool := match r with Some (Some _) => true | _ => false end.

Create HintDb ends discriminated.

Ltac ends_step :=
  lazymatch goal with
  | |- spends _ _ (λ _, false) ?m => change (spends ?b ?R (λ _, false) m) with (ends b R m)
  | |- ends _ _ (mbind _ _) => apply ends_bind; [apply _| |intros ?]
  | |- ends _ _ (mret _) => apply ends_ret, _
  | |- ends _ _ (lift _) => apply ends_lift; [apply _|]
  | |- ends _ _ (gets _) => apply ends_gets, _
  | |- ends _ _ (pfield _) => apply ends_gets, _
  | |- ends _ _ (when _ _) => apply ends_when; [apply _|]
  | |- ends _ _ (set_state _) => apply ends_pupd; intros ?; [done|unfold qpot; simpl; lia]
  | |- ends _ _ (pupd _) => apply ends_pupd; intros ?; [done|unfold qpot; try case_match; simpl; lia]
  | |- ends _ _ (if ?b then _ else _) => destruct b
  | |- ends _ _ (match ?x with _ => _ end) => destruct x
  end.

Ltac ending := repeat (cbv beta zeta; first [ solve [eauto 2 with ends] | ends_step ]); termination.

Ltac spends_step :=
  lazymatch goal with
  | |- spends _ _ _ (mret _) => apply spends_ret; [apply _|done]
  | |- spends _ _ _ (mbind _ (lift (callZ _))) =>
      eapply spends_bind; [apply _|apply spends_lift; [apply _|apply spending_callZ; apply _]|intros ? ?; solve [ending]|intros ? ?]
  | |- spends _ _ _ (mbind _ (lift (call ?r))) =>
      eapply spends_bind; [apply _|apply spends_lift; [apply _|apply (spending_call _ r)]|intros ? ?; solve [ending]|intros ? ?]
  | |- spends _ _ _ (mbind _ _) =>
      first [ eapply spends_bind; [apply _|solve [eauto 2 with spends]|intros ? ?; solve [ending]|intros ? ?]
            | apply spends_after; [apply _|solve [ending]|intros ?] ]
  | H : ?b = _ |- spends _ _ _ (if ?b then _ else _) => rewrite H
  | |- spends _ _ _ (if ?b then _ else _) => destruct b eqn:?
  | |- spends _ _ _ (match ?x with _ => _ end) => destruct x eqn:?; try done
  end.

Create HintDb spends discriminated.

Ltac paying := repeat (cbv beta zeta; cbn [fst snd waiting again] in *; first [ solve [eauto 2 with spends] | spends_step ]).

(** ** The stages *)

Section stages.
Context {E : Type} `{!Env E} (budget : E → nat) `{!Patience budget} `{!Offering budget}.

Abbreviation M := (prog (st E)).
Abbreviation P := (prog (pst E)).

#[local] Hint Resolve term_agent_reset term_agent_start spending_identity spending_userauth spending_authCall term_checkAccess
  term_candidates term_resolve term_verifyHostKey term_still_connected : total spending.

Lemma term_sessionErr_poll : total budget sftp_doSessionErr.
Proof. unfold sftp_doSessionErr, sftp_session_err, check_still_connected. termination. Qed.

Lemma term_userauth_call a : total budget (agent_userauth_call a).
Proof. unfold agent_userauth_call. termination. Qed.

Lemma term_authCall_poll a : total budget (authCallUnlocked a).
Proof. unfold authCallUnlocked. termination. Qed.

Lemma term_close_handle d to h : total budget (close_handle d to h).
Proof. unfold close_handle. termination. Qed.

Lemma term_drop to : total budget (drop_connection to).
Proof. unfold drop_connection, closeTransportUnlocked. termination. Qed.

Lemma term_nonblocking fd b : total budget (setFdNonBlocking fd b).
Proof. unfold setFdNonBlocking. termination. Qed.

Lemma term_lost : total budget connectionLost.
Proof. unfold connectionLost. termination. Qed.

#[local] Hint Resolve term_sessionErr_poll term_close_handle term_drop term_nonblocking term_lost
  term_userauth_call term_authCall_poll : total.

Lemma ends_drop_agent : ends budget same_plan drop_agent.
Proof. unfold drop_agent. ending. Qed.

Lemma ends_drop_any : ends budget any drop_agent.
Proof. apply ends_weaken, ends_drop_agent. Qed.

#[local] Hint Resolve ends_drop_agent ends_drop_any : ends.

Lemma ends_close d : ends budget any (poll_closeIntern d).
Proof. unfold poll_closeIntern, restoreBlockingIntern. ending. Qed.

#[local] Hint Resolve ends_close : ends.

Lemma spends_leave d : spends budget any waiting (leave d).
Proof. unfold leave. paying. Qed.

Lemma ends_leave d : ends budget any (leave d).
Proof. unfold leave. ending. Qed.

#[local] Hint Resolve ends_leave : ends.
#[local] Hint Resolve spends_leave : spends.

Lemma spends_fail e d : spends budget any waiting (fail_with e d).
Proof. unfold fail_with. paying. Qed.

Lemma spends_advance x : spends budget any waiting (advance x).
Proof. unfold advance. paying. Qed.

Lemma ends_fail e d : ends budget any (fail_with e d).
Proof. unfold fail_with. ending. Qed.

Lemma ends_advance x : ends budget any (advance x).
Proof. unfold advance. ending. Qed.

Lemma ends_sessionError : ends budget any sessionError.
Proof. unfold sessionError. ending. Qed.

#[local] Hint Resolve ends_fail ends_advance ends_sessionError : ends.
#[local] Hint Resolve spends_fail spends_advance : spends.

Lemma ends_info fd ev extra to : ends budget any (getPollInfo fd ev extra to).
Proof. unfold getPollInfo. ending. Qed.

#[local] Hint Resolve ends_info : ends.

Lemma ends_session_info : ends budget any getSessionPollInfo.
Proof. unfold getSessionPollInfo. ending. Qed.

Lemma ends_retry : ends budget any retryAfterConnectionLoss.
Proof. unfold retryAfterConnectionLoss. ending. Qed.

Lemma ends_make_nonblocking : ends budget any make_nonblocking.
Proof. unfold make_nonblocking. ending. Qed.

#[local] Hint Resolve ends_session_info ends_retry ends_make_nonblocking : ends.

Lemma spending_startup : spending budget (λ a, a =? LIBSSH2_ERROR_EAGAIN) startupUnlocked.
Proof. unfold startupUnlocked. termination. Qed.

#[local] Hint Extern 1 (spends _ _ _ (lift startupUnlocked)) => apply spends_lift; [apply _|apply spending_startup] : spends.

Lemma spends_start : spends budget any waiting handleStart.
Proof. unfold handleStart, checkConnectPreconditionsUnlocked. paying. Qed.

Lemma spends_connecting : spends budget any waiting handleConnecting.
Proof. unfold handleConnecting, holdSessionDescriptorUnlocked, prepareSessionUnlocked. paying. Qed.

Lemma spends_handshake : spends budget any waiting handleHandshake.
Proof. unfold handleHandshake. paying. Qed.

Lemma spends_sftp_init : spends budget any waiting handleSftpInit.
Proof. unfold handleSftpInit. paying. Qed.

Lemma spends_realpath : spends budget any waiting handleRealPath.
Proof. unfold handleRealPath. paying. Qed.

Lemma spends_stat : spends budget any waiting handleStat.
Proof. unfold handleStat. paying. Qed.

Lemma spends_open : spends budget any waiting handleOpen.
Proof. unfold handleOpen. paying. Qed.

Lemma spends_close : spends budget any waiting handleClose.
Proof. unfold handleClose. paying. Qed.

Lemma spends_read_iteration : spends budget any (onward held) read_iteration.
Proof.
  unfold read_iteration. apply spends_after; [apply _|ending|intros o]. destruct (negb _); [by apply spends_ret|].
  eapply spends_bind; [apply _|apply spends_lift; [apply _|apply (spending_call _ (sftp_read _ _))]|intros ? ?; ending|].
  intros [rc bytes] Ha. cbn [again fst] in Ha. apply orb_false_iff in Ha as [Ha Hpos]. apply orb_false_iff in Ha as [Ha _].
  destruct (rc =? LIBSSH2_ERROR_EAGAIN) eqn:Hrc; [apply Z.eqb_eq in Hrc; by subst rc|].
  destruct (rc <? 0) eqn:Hneg; [paying|]. destruct (rc =? 0) eqn:Hzero; [by apply spends_ret|]. exfalso. lia.
Qed.

Lemma spends_read : spends budget any waiting handleRead.
Proof.
  unfold handleRead. eapply spends_bind; [apply _|apply spends_loop; [apply _|intros _; apply spends_read_iteration]|..].
  - intros r _. ending.
  - intros [[]|] Hr; [done|by apply spends_ret|paying].
Qed.

(** ** The agent

    Each identity costs; the one that is being tried may have been fetched before. *)

Lemma wp_ends {A} (R : relation poll) (W : A → bool) (m : P A) (Q : A → pst E → Prop) p :
  spends budget R W m → (pot budget p + 1 < fuel)%nat → (∀ a p', pays budget R W p a p' → Q a p') → wp False m Q p.
Proof. intros Hm Hp HQ. eapply wp_mono; [exact HQ|by apply Hm]. Qed.

Definition agent_cost (p : pst E) : nat := pot budget p + (if po_need_identity (op p) then 0 else 1).

(** What the loop pays for the identity that it is about to try. *)
Lemma next_identity a (Q : bool * agent_helper → pst E → Prop) p : (pot budget p + 1 < fuel)%nat →
  (∀ r p', pays budget same_plan (λ r, negb (fst r)) p r p' → Q r p') → wp False (lift (agent_nextIdentity a)) Q p.
Proof. apply wp_ends, spends_lift; [apply _|apply spending_identity; apply _]. Qed.

Definition fetched_one (p : pst E) (stop : option Z) (p' : pst E) : Prop :=
  (pot budget p' ≤ pot budget p)%nat ∧ same_plan (op p) (op p') ∧
  match stop with Some code => (code =? LIBSSH2_ERROR_EAGAIN) = false | None => (pot budget p' < agent_cost p)%nat end.

Lemma spends_agent : spends budget same_plan (λ rc, rc =? LIBSSH2_ERROR_EAGAIN) stepAgentAuth.
Proof.
  unfold stepAgentAuth. apply spends_after; [apply _|ending|]. intros a.
  apply spends_after; [apply _|ending|]. intros unusable. destruct unusable; [by apply spends_ret; [apply _|]|].
  intros p Hp. apply (wp_loop_total (λ _, pays budget same_plan (λ _ : unit, false) p tt) (λ _ p', agent_cost p'));
    [|split_and!; [lia|reflexivity|done]|unfold agent_cost; case_match; lia].
  intros _ p1 H1. pose proof H1 as (L1 & S1 & _). apply wp_bind, wp_gets, wp_bind, wp_gets, wp_bind.
  apply (wp_mono _ _ (fetched_one p1)).
  - intros stop p2 (L2 & S2 & G2). assert (same_plan (op p) (op p2)) as S02 by (by transitivity (op p1)).
    destruct stop as [code|]; [apply wp_mret; split_and!; [lia|done|by rewrite G2]|].
    apply wp_bind, wp_gets, wp_bind.
    apply (wp_ends same_plan (λ rc, rc =? LIBSSH2_ERROR_EAGAIN)); [apply spends_lift; [apply _|apply spending_userauth; apply _]|lia|].
    intros rc p3 (L3 & S3 & G3). assert (same_plan (op p) (op p3)) as S03 by (by transitivity (op p2)).
    destruct (rc =? LIBSSH2_ERROR_EAGAIN) eqn:Hrc.
    { apply wp_mret. specialize (G3 eq_refl). split_and!; [lia|done|lia]. }
    destruct (rc =? 0); [apply wp_mret; by split_and!; [lia|done|]|].
    apply wp_bind, wp_modify, wp_mret. split; [split_and!; [|done|done]|]; unfold agent_cost, pot, qpot in *; simpl in *; lia.
  - destruct (po_need_identity (op p1)) eqn:Hneed.
    + apply wp_bind. apply (wp_ends same_plan (λ _, false)); [ending|lia|]. intros c p2 (L2 & S2 & _). destruct c.
      * apply wp_bind. apply (wp_ends same_plan (λ _, false)); [ending|lia|]. intros _ p3 (L3 & S3 & _). apply wp_mret.
        split_and!; [lia|by transitivity (op p2)|done].
      * apply wp_bind, next_identity; [lia|]. intros [none a'] p3 (L3 & S3 & G3). cbv beta iota.
        assert (same_plan (op p1) (op p3)) as S13 by (by transitivity (op p2)).
        apply wp_bind, wp_modify. destruct none.
        -- apply wp_bind. apply (wp_ends same_plan (λ _, false)); [ending|unfold pot, qpot in *; simpl in *; lia|].
           intros _ p4 (L4 & S4 & _). apply wp_mret. unfold pot, qpot in L4. simpl in L4.
           split_and!; [unfold pot, qpot in *; lia|by transitivity (op p3)|done].
        -- specialize (G3 eq_refl). apply wp_bind, wp_modify, wp_mret. unfold fetched_one, agent_cost. rewrite Hneed.
           unfold pot, qpot in *. simpl. split_and!; [lia|done|lia].
    + apply wp_mret. unfold fetched_one, agent_cost. rewrite Hneed. split_and!; [lia|reflexivity|lia].
Qed.

(** ** The provider *)

Lemma eval_costs obj args (Q : option qval → st E → Prop) (s : st E) : (budget (env s) < fuel)%nat →
  (∀ rv s', (budget (env s') + match rv with Some (QList l) => 2 * length l | _ => 0 end ≤ budget (env s))%nat → Q rv s') →
  wp False (eval_unlocked obj "getClientIdentityCandidates" args) Q s.
Proof.
  intros Hs HQ. unfold eval_unlocked. apply wp_bind, (wp_call _ (eval_method _ _ _)). intros [ops rv] e' He.
  pose proof (patience_mono (budget:=budget) (eval_method obj "getClientIdentityCandidates" args) (env s)) as Hmono.
  rewrite He in Hmono. simpl in Hmono. apply wp_bind. eapply wp_mono; [|apply (total_for_each budget); [|simpl; lia]].
  - intros [] s' H. apply wp_mret, HQ. simpl in *. destruct rv as [[]|]; try lia.
    pose proof (offering _ _ _ _ _ _ He). lia.
  - intros op. apply term_other_thread, _.
Qed.

Lemma candidates_cost to (s : st E) : (budget (env s) < fuel)%nat →
  wp False (getProviderCandidatesUnlocked to) (λ l s', (budget (env s') + 2 * length (default [] l) ≤ budget (env s))%nat) s.
Proof.
  intros Hs. unfold getProviderCandidatesUnlocked. apply wp_bind, wp_gets, wp_bind.
  eapply wp_mono; [|apply term_context; [apply _|exact Hs]]. intros ctxt s1 H1. simpl in H1.
  apply wp_bind. eapply wp_mono; [|apply (term_has_exc budget); lia]. intros failed s2 H2. simpl in H2.
  destruct failed; [apply wp_mret; simpl; lia|]. apply wp_bind, eval_costs; [lia|]. intros rv s3 H3.
  destruct rv as [[]|]; try apply wp_bind, wp_raise; apply wp_mret; simpl in *; lia.
Qed.

Lemma resolve_costs v to (s : st E) : (budget (env s) < fuel)%nat →
  wp False (resolveProviderCandidateUnlocked v to)
    (λ r s', (budget (env s') ≤ budget (env s))%nat ∧ (length (snd r) ≤ 1)%nat) s.
Proof.
  intros Hs. pose proof (term_resolve budget v to s Hs) as H1. pose proof (yields_one v to s) as H2.
  unfold wp in *. by destruct (resolveProviderCandidateUnlocked v to s) as [[r s']|].
Qed.
Lemma popped_pot o s : po_auth_queue o ≠ [] →
  (pot budget (mkPst (o <| po_auth_queue := tail (po_auth_queue o) |>) s) < pot budget (mkPst o s))%nat.
Proof. unfold pot, qpot. simpl. destruct (po_auth_queue o); [done|simpl; lia]. Qed.

Lemma expand_costs p : po_auth_queue (op p) ≠ [] → (pot budget p + 1 < fuel)%nat →
  wp False expandProviderAttempt (λ failed p', (pot budget p' ≤ pot budget p)%nat ∧
    (failed = false → (pot budget p' < pot budget p)%nat)) p.
Proof.
  destruct p as [o s]. unfold pot at 1. simpl. intros Hq Hp.
  assert (0 < length (po_auth_queue o))%nat as Hl by (destruct (po_auth_queue o); [done|simpl; lia]).
  unfold expandProviderAttempt. apply wp_bind, wp_lift, wp_gets.
  destruct (negb _). { apply wp_bind, wp_modify, wp_mret. split; [apply Nat.lt_le_incl|intros _]; by apply (popped_pot o s). }
  apply wp_bind, wp_gets, wp_bind, wp_gets, wp_bind. simpl.
  apply (wp_mono _ _ (λ failed p', (pot budget p' ≤ pot budget (mkPst o s))%nat ∧ po_auth_queue (op p') = po_auth_queue o)).
  - intros failed [o1 s1] [B1 Q1]. simpl in *. destruct failed; [apply wp_mret; simpl; lia|].
    apply wp_bind, wp_gets, wp_bind, wp_gets. simpl. unfold pot in *. simpl in *.
    destruct (_ !! po_index o1) as [v|] eqn:Hv.
    + apply lookup_lt_Some in Hv. apply wp_bind, wp_lift. eapply wp_mono; [|apply (total_check_cancel budget); lia].
      intros cancelled s2 B2. simpl in *. destruct cancelled; [apply wp_mret; simpl; unfold qpot in *; lia|].
      apply wp_bind, wp_modify, wp_bind, wp_lift. eapply wp_mono; [|apply resolve_costs; unfold qpot in *; simpl; lia].
      intros [failed sub] s3 [B3 L3]. simpl in *. unfold qpot in *. simpl in *. destruct failed; [apply wp_mret; simpl; lia|].
      apply wp_bind, wp_modify, wp_mret. simpl. rewrite length_app. lia.
    + apply wp_bind, wp_modify, wp_bind, wp_modify, wp_mret. simpl. unfold qpot in *. simpl.
      rewrite Q1 in *. destruct (po_auth_queue o); simpl in *; lia.
  - destruct (po_candidates o) as [l|] eqn:Hc; [apply wp_mret; simpl; unfold pot; simpl; split; [lia|done]|].
    unfold qpot in Hp. rewrite Hc in Hp. simpl in Hp.
    apply wp_bind, wp_lift. eapply wp_mono; [|apply candidates_cost; lia]. intros l s1 B1. simpl in *.
    apply wp_bind, wp_modify, wp_bind. unfold pot, qpot. simpl. rewrite Hc. simpl. destruct l as [l|]; simpl in *.
    + apply wp_modify, wp_mret. simpl. split; [lia|done].
    + apply wp_mret, wp_mret. simpl. split; [lia|done].
Qed.


(** ** The attempts *)

Lemma pop_pays (f : poll → poll) (W : unit + option (option poll_info) → bool) p :
  (∀ o, same_plan o (f o)) → po_auth_queue (op p) ≠ [] →
  wp False (_ ← pop_attempt; _ ← pupd f; mret (inl tt)) (pays budget any W p) p.
Proof.
  intros Hf Hq. destruct p as [o s]. apply wp_bind, wp_modify, wp_bind, wp_modify, wp_mret.
  pose proof (popped_pot o s Hq) as H2. pose proof (same_plan_pot _ _ (Hf (o <| po_auth_queue := tail (po_auth_queue o) |>))) as H3.
  unfold pays, pot in *. simpl in *. split_and!; [lia|done|intros _; lia].
Qed.

(** What was paid while the attempts stayed, and then the rest. *)
Lemma then_pays {A B} (R : relation poll) (V : A → bool) (W : B → bool) a (m : P B) p p1 :
  pays budget R V p a p1 → wp False m (pays budget any W p1) p1 → wp False m (pays budget any W p) p1.
Proof.
  intros (L1 & _) Hm. eapply wp_mono; [|exact Hm]. intros b p2 (L2 & _ & G2). split_and!; [lia|done|].
  intros H. specialize (G2 H). lia.
Qed.

Lemma paid_pays {A B} (R : relation poll) (V : A → bool) (W : B → bool) a (m : P B) p p1 :
  pays budget R V p a p1 → V a = true → (pot budget p + 1 < fuel)%nat → ends budget any m →
  wp False m (pays budget any W p) p1.
Proof.
  intros (L1 & _ & G1) Ha Hp Hm. specialize (G1 Ha). eapply wp_mono; [|apply Hm; lia]. intros b p2 (L2 & _).
  split_and!; [lia|done|lia].
Qed.

(** What does not touch the attempts, and what drops one. *)
Ltac rest_pays :=
  lazymatch goal with
  | |- wp _ (mbind (λ _, mret _) pop_attempt) _ _ => by apply (pop_pays id)
  | |- wp _ (mbind _ pop_attempt) _ _ => by apply pop_pays
  | |- _ => apply wp_ends with any (onward held); [paying|lia|done]
  end.

Lemma iteration_pays a p : po_auth_queue (op p) ≠ [] → (pot budget p + 1 < fuel)%nat →
  wp False (auth_iteration a) (pays budget any (onward held) p) p.
Proof.
  intros Hq Hp. unfold auth_iteration. destruct (kind a).
  1: { apply wp_bind, (wp_ends same_plan (λ rc, rc =? LIBSSH2_ERROR_EAGAIN)); [apply spends_agent|done|].
    intros rc p1 H1. pose proof H1 as (L1 & (Q1 & _) & _). rewrite <- Q1 in Hq.
    destruct (rc =? LIBSSH2_ERROR_EAGAIN) eqn:Hrc; [by eapply paid_pays; [..|ending]|].
    eapply then_pays; [exact H1|]. destruct (rc =? SFTP_AGENT_ERROR); [|destruct (rc =? 0)]; rest_pays. }
  1: { apply wp_bind. eapply wp_mono; [|by apply expand_costs]. intros [] p1 [L1 G1]; cbv beta iota.
    - eapply (then_pays any (λ _ : bool, false) _ true); [by split_and!|rest_pays].
    - apply wp_mret. split_and!; [done|done|]. intros _. by apply G1. }
  all: apply wp_bind, wp_gets, wp_bind, (wp_ends same_plan (λ _, false)); [ending|done|]; intros denied p1 H1;
    pose proof H1 as (L1 & (Q1 & _) & _); rewrite <- Q1 in Hq; eapply then_pays; [exact H1|]; destruct denied; [rest_pays|];
    apply wp_bind, (wp_ends same_plan (λ _, false)); [ending|lia|]; intros u p2 H2;
    pose proof H2 as (L2 & (Q2 & _) & _); rewrite <- Q2 in Hq; eapply then_pays; [exact H2|];
    apply wp_bind, (wp_ends same_plan (λ rc, rc =? LIBSSH2_ERROR_EAGAIN)); [apply spends_lift; [apply _|apply spending_authCall; apply _]|lia|];
    intros rc p3 H3; pose proof H3 as (L3 & (Q3 & _) & _); rewrite <- Q3 in Hq;
    (destruct (rc =? LIBSSH2_ERROR_EAGAIN) eqn:Hrc; [by eapply paid_pays; [exact H3|done|lia|ending]|]);
    eapply then_pays; [exact H3|]; (destruct (rc =? 0); rest_pays).
Qed.

Lemma spends_auth : spends budget any waiting handleAuth.
Proof.
  unfold handleAuth, finishConnectUnlocked. eapply spends_bind; [apply _|apply spends_loop; [apply _|]|..].
  - intros _ p Hp. apply wp_bind, wp_gets. destruct (po_auth_queue (op p)) as [|a q] eqn:Hq; [apply (wp_ends any (onward held)); [by apply spends_ret|lia|done]|].
    destruct (po_loggedin (op p)); [apply (wp_ends any (onward held)); [by apply spends_ret|lia|done]|]. apply iteration_pays; [by rewrite Hq|lia].
  - intros r _. ending.
  - intros [[]|] Hr; [done|by apply spends_ret|paying].
Qed.

Lemma spends_stage x : x ≠ AUTHLIST → spends budget any waiting (run_stage x).
Proof.
  intros Hx. destruct x; try done; cbn [run_stage];
    auto using spends_start, spends_connecting, spends_handshake, spends_auth, spends_sftp_init, spends_realpath, spends_stat,
      spends_open, spends_read, spends_close, spends_ret with typeclass_instances.
Qed.

(** ** A new plan *)

Lemma push_length {A} (b : bool) (a : A) : (length (if b then [a] else []) ≤ 1)%nat.
Proof. destruct b; simpl; lia. Qed.

(** Of the eight attempts that a plan is made of, the provider comes first or last. *)
Lemma plan_length c l : (length (buildAuthPlan c l) ≤ 7)%nat.
Proof.
  unfold buildAuthPlan. cbv zeta. case_bool_decide; rewrite !length_app;
    [destruct (client_auth_order c =? SSH2_CLIENT_AUTH_PROVIDER_FIRST); cbn [negb length]|];
    repeat match goal with |- context [length (if ?b then [?a] else [])] =>
      pose proof (push_length b a); generalize dependent (length (if b then [a] else [])); intros end; lia.
Qed.

Lemma term_plan l : total budget (buildAuthPlanUnlocked l).
Proof. unfold buildAuthPlanUnlocked. termination. Qed.

Lemma yields_plan l : yields (λ plan, (length plan ≤ 7)%nat) (buildAuthPlanUnlocked l : M _).
Proof.
  apply yields_bind. intros _. apply yields_bind. intros c. apply yields_ret, plan_length.
Qed.

Definition pays_plan (p : pst E) (r : option poll_info) (p' : pst E) : Prop :=
  match r with Some _ => (pot budget p' < pot budget p)%nat | None => (pot budget p' ≤ pot budget p + 7)%nat end.

Lemma pending_paid (m : P bool) (k : bool → P (option poll_info)) p :
  spends budget any id m → (pot budget p + 1 < fuel)%nat → ends budget any (k true) →
  (∀ p', (pot budget p' ≤ pot budget p)%nat → wp False (k false) (pays_plan p) p') → wp False (m ≫= k) (pays_plan p) p.
Proof.
  intros Hm Hp Ht Hf. apply wp_bind, (wp_ends any id); [done..|]. intros [] p1 (L1 & _ & G1); [|by apply Hf].
  specialize (G1 eq_refl). eapply wp_mono; [|apply Ht; lia]. intros r p2 (L2 & _). unfold pays_plan. destruct r; lia.
Qed.

Lemma authlist_pays p : (pot budget p + 8 < fuel)%nat → wp False handleAuthList (pays_plan p) p.
Proof.
  intros Hp. unfold handleAuthList. apply wp_bind, (wp_ends any (λ _, false)); [ending|lia|]. intros c p1 (L1 & _).
  apply wp_bind, (wp_ends any (λ _, false)); [ending|lia|]. intros l p2 (L2 & _).
  apply (wp_mono _ _ (pays_plan p2)). { intros r p'. unfold pays_plan. destruct r; lia. }
  apply pending_paid; [|lia|ending|].
  - destruct l as [l|]; [by apply spends_ret|]. eapply spends_bind; [apply _|apply spends_lift; [apply _|apply spending_callZ; apply _]|..].
    + intros err _. ending.
    + intros err Herr. by apply spends_ret.
  - intros [o3 s3] L3. apply wp_bind, wp_lift. unfold pot in L1, L2, L3, Hp. simpl in *.
    eapply wp_mono; [|apply wp_both; [apply (term_plan l); lia|apply yields_plan]]. intros plan s4 [L4 Lp]. simpl in *.
    apply wp_bind, wp_modify. unfold advance. apply wp_bind, wp_modify, wp_mret. unfold pays_plan, pot, qpot in *. simpl in *. lia.
Qed.

Lemma stage_pays p : (pot budget p + 8 < fuel)%nat →
  wp False (run_stage (po_state (op p))) (λ r p', match r with
    | Some _ => (pot budget p' < pot budget p)%nat
    | None => (pot budget p' ≤ pot budget p + if decide (po_state (op p) = AUTHLIST) then 7 else 0)%nat
    end) p.
Proof.
  intros Hp. case_decide as Hst; [rewrite Hst; by apply authlist_pays|].
  apply (wp_ends any waiting); [by apply spends_stage|lia|]. intros [r|] p' (L & _ & G); [by apply G|lia].
Qed.

(** ** The operation *)

(** The stages that are left pay for the plans that they make. *)
Definition life_pot (p : pst E) : nat := pot budget p + 8 * mark_rank (mark_of (op p)).

#[local] Instance anyone : Sole := False.

Definition poll_pays (p : pst E) (r : option poll_info) (p' : pst E) : Prop :=
  (life_pot p' ≤ life_pot p)%nat ∧ (waiting r = true → (life_pot p' < life_pot p)%nat).

Lemma stage_life p : inv (op p) (base p) → finished (po_state (op p)) = false → (life_pot p + 8 < fuel)%nat →
  wp False (run_stage (po_state (op p))) (λ r p', inv (op p') (base p') ∧ (life_pot p' < life_pot p)%nat) p.
Proof.
  destruct p as [o s]. intros Hi Hf Hp.
  eapply wp_mono; [|apply wp_both; [apply stage_pays; unfold life_pot in Hp; lia|by apply run_stage_post]].
  intros r p' [H1 H2]. unfold life_pot in *. destruct H2 as [i o' s' Hm Hi' _|o' s' He Hi' _ _ _]; cbn [op base] in *.
  - rewrite Hm. split; [done|lia].
  - apply edge_rank in He. split; [done|]. destruct (decide _); lia.
Qed.

Lemma intern_pays p : inv (op p) (base p) → (life_pot p + 8 < fuel)%nat → wp False continuePollIntern (poll_pays p) p.
Proof.
  intros Hi Hp. unfold continuePollIntern.
  apply (wp_loop_total (λ _ p', inv (op p') (base p') ∧ (life_pot p' ≤ life_pot p)%nat) (λ _ p', life_pot p')); [|by split|lia].
  intros _ p1 [Hi1 L1]. apply wp_bind, wp_gets. destruct (finished (po_state (op p1))) eqn:Hf; [apply wp_mret; by split|].
  apply wp_bind. eapply wp_mono; [|apply stage_life; [done|done|lia]]. intros [r|] p2 [Hi2 L2]; apply wp_mret.
  - split; [|intros _]; lia.
  - split; [split; [done|]|]; lia.
Qed.

Lemma closed_rank o : po_state o ≠ DONE → mark_rank (mark_of (released o)) = 0%nat.
Proof. intros Hne. pose proof (closed_mark o Hne) as Hc. unfold mark_rank. by rewrite Hc. Qed.

Lemma close_pays d p : inv (op p) (base p) → finished (po_state (op p)) = false → (life_pot p + 1 < fuel)%nat →
  wp False (poll_closeIntern d) (λ _ p', (life_pot p' ≤ life_pot p)%nat) p.
Proof.
  destruct p as [o s]. intros Hi Hf Hp. pose proof (running _ Hf) as Hne.
  eapply wp_mono; [|apply wp_both; [apply (ends_close d); unfold life_pot in Hp; lia|apply (wp_closeIntern d (λ _ p', op p' = released o))]].
  - intros _ p' [(L & _) Hop]. unfold life_pot. rewrite Hop, closed_rank by done. lia.
  - apply Hi.
  - done.
Qed.

Lemma call_pays p : inv (op p) (base p) → (life_pot p + 8 < fuel)%nat → wp False continuePoll (poll_pays p) p.
Proof.
  destruct p as [o s]. intros Hi Hp. unfold continuePoll. apply wp_bind, wp_gets.
  cbn [op base] in *. destruct (finished (po_state o)) eqn:Hf; [apply wp_mret; by split|].
  apply wp_bind, wp_lift. eapply wp_mono; [|apply wp_both; [apply (total_check_cancel budget)|apply wp_intro]].
  2: { unfold life_pot, pot in Hp. simpl in Hp. lia. }
  2: { intros c s1 H. exact (wp_run _ _ _ _ _ (preserves_check_cancel steady true s) H). }
  intros c s1 [L1 S1]. pose proof (inv_steady _ _ _ Hi S1) as Hi1.
  assert (life_pot (mkPst o s1) ≤ life_pot (mkPst o s))%nat as L by (unfold life_pot, pot; simpl in *; lia).
  destruct c.
  - unfold leave. apply wp_bind. eapply wp_mono; [|apply close_pays; [done|done|lia]]. intros u p2 L2. apply wp_mret.
    cbv beta in L2. split; [lia|done].
  - eapply wp_mono; [|apply intern_pays; [done|lia]]. intros r p2 [L2 G2]. split; [lia|]. intros Hr. specialize (G2 Hr). lia.
Qed.

Lemma abort_pays p : inv (op p) (base p) → (life_pot p + 8 < fuel)%nat →
  wp False poll_abort (λ _ p', (life_pot p' ≤ life_pot p)%nat) p.
Proof.
  intros Hi Hp. unfold poll_abort. apply wp_bind, wp_gets. destruct (finished (po_state (op p))) eqn:Hf; [by apply wp_mret|].
  apply close_pays; [done|done|lia].
Qed.

Lemma step_pays p p' : inv (op p) (base p) → (life_pot p + 8 < fuel)%nat → poll_step p p' → (life_pot p' ≤ life_pot p)%nat.
Proof.
  intros Hi Hp Hstep. destruct Hstep as [p r p' H|p u p' H|other p u s' H].
  - pose proof (call_pays (called p) (inv_called _ Hi) Hp) as Hw. unfold wp in Hw. rewrite H in Hw. by destruct Hw.
  - pose proof (abort_pays (called p) (inv_called _ Hi) Hp) as Hw. unfold wp in Hw. by rewrite H in Hw.
  - pose proof (term_other_thread budget other (base p)) as Hw. unfold total, wp in Hw. rewrite H in Hw.
    unfold life_pot, pot in *. simpl in *. assert (budget (env s') ≤ budget (env (base p)))%nat by (apply Hw; lia). lia.
Qed.

(** A run in which [n] of the calls returned what to wait for. *)
Inductive waited : nat → relation (pst E) :=
  | waited_none p : waited 0 p p
  | waited_step n p p1 p2 : waited n p p1 → poll_step p1 p2 → waited n p p2
  | waited_poll n p p1 i p2 : waited n p p1 → continuePoll (called p1) = Some (Some i, p2) → waited (S n) p p2.

Lemma waited_pays n p p' : inv (op p) (base p) → (life_pot p + 8 < fuel)%nat → waited n p p' →
  inv (op p') (base p') ∧ (n + life_pot p' ≤ life_pot p)%nat.
Proof.
  intros Hi Hp. induction 1 as [p|n p p1 p2 _ IH H|n p p1 i p2 _ IH H]; [split; [done|lia]|..];
    destruct (IH Hi Hp) as [Hi1 L1].
  - destruct (step_inv _ _ Hi1 H) as (_ & Hi2 & _). apply step_pays in H; [|done|lia]. split; [done|lia].
  - destruct (step_inv _ _ Hi1 (step_poll _ _ _ H)) as (_ & Hi2 & _). split; [done|].
    pose proof (call_pays (called p1) (inv_called _ Hi1)) as Hw. unfold wp in Hw. rewrite H in Hw.
    destruct Hw as [_ G]; [change (life_pot (called p1)) with (life_pot p1); lia|]. specialize (G eq_refl).
    change (life_pot (called p1)) with (life_pot p1) in G. lia.
Qed.
End stages.

(** * Theorems *)


(** ** The hesitant server, with time for a whole operation, and a provider that offers an
    identity as long as it can pay for it *)

Definition patient_env : Env nat :=
  {| answer r n := match r, n return ans r * nat with
                   | eval_method _ _ _, S (S m) => (([], Some (QList [QNothing])), m)
                   | r, n => @answer nat hesitant_env r n
                   end;
     fuel := 250 |}.

(** The operation after a call that returned something to wait for. *)
Definition wait_once (p : pst nat) : option (pst nat) :=
  match @continuePoll nat patient_env (called p) with Some (Some _, p') => Some p' | _ => None end.

Fixpoint wait_often (n : nat) (p : pst nat) : option (pst nat) :=
  match n with O => Some p | S n => wait_often n p ≫= wait_once end.

Lemma wait_often_waited n p p' : wait_often n p = Some p' → @waited nat patient_env n p p'.
Proof.
  revert p'. induction n as [|n IH]; simpl; intros p' H; [injection H as <-; constructor|].
  apply bind_Some in H as (p1 & H1 & H2). unfold wait_once in H2.
  destruct (@continuePoll nat patient_env (called p1)) as [[[i|] p2]|] eqn:Hc; [|done..]. injection H2 as <-.
  eapply waited_poll; [by apply IH|exact Hc].
Qed.

Definition hesitant_start : pst nat :=
  start_of "f" 1000 ((reserved_state (client0 SFTPClientClass)) <| env := 10%nat |>).

Lemma patient_patience : @Patience nat patient_env id.
Proof.
  split; intros r n; pose proof (patience_mono (Patience:=hesitant_patience) r n) as H1;
    pose proof (patience_again (Patience:=hesitant_patience) r n) as H2;
    destruct r; try exact H1; try exact H2; destruct n as [|[|n]]; simpl; lia || done.
Qed.

Lemma patient_offering : @Offering nat patient_env id.
Proof. intros obj args [|[|e]] ops l e'; simpl; intros [= <- <- <-]; simpl; lia. Qed.

