(* ===== verification/Custody.v ===== *)
(** Credentials over the whole life of a client: its calls and its poll operations in any
    order, each with the host key that was accepted before it. *)

From S2P Require Import Prelude Modes World Sim Defaults Transport Config HostKey Auth Connect Channel Info Session Gate Sftp Transfer Poll PollProof PollFrame Client Life PollStages PollSpec PollTheorems.

(** ** What a reserved client does for others

    While a poll operation is in progress no call gives its reservation up or begins a new
    session: every connect is refused. *)
Section reserved.
Context {E : Type} `{!Env E}.

Abbreviation M := (prog (st E)).

Definition undisturbed (s s' : st E) : Prop :=
  poll_op_in_progress (cl s) = true → poll_op_in_progress (cl s') = true ∧ emits same_session s s'.

Lemma undisturbed_of s s' : poll_kept s s' → emits same_session s s' → undisturbed s s'.
Proof. intros Hk He Hf. split; [by apply Hk|done]. Qed.

#[export] Instance undisturbed_preorder : PreOrder undisturbed.
Proof.
  split; [intros s Hf; by split|]. intros s1 s2 s3 H1 H2 Hf. destruct (H1 Hf) as [F2 E2]. destruct (H2 F2) as [F3 E3].
  split; [done|by transitivity s2].
Qed.

#[export] Instance undisturbed_carrier : Carrier undisturbed.
Proof.
  split; [apply _| |].
  - intros s r a e' _ Ho. apply undisturbed_of; [by intros ?|]. exists [Ev r a]. split; [done|by repeat constructor].
  - intros s e. apply undisturbed_of; [by intros ?|by exists []].
Qed.

Lemma undisturbed_preserves {A} (m : M A) : preserves poll_kept m → preserves (emits same_session) m → preserves undisturbed m.
Proof.
  intros H1 H2 s. eapply wp_mono; [|apply wp_and; [apply H1|apply H2]]. intros a s' [Hk He]. by apply undisturbed_of.
Qed.

Lemma undisturbed_upd f : (∀ c, poll_op_in_progress c = true → poll_op_in_progress (f c) = true) → preserves undisturbed (upd f).
Proof. intros Hf. apply preserves_upd. intros s. apply undisturbed_of; [intros H; by apply Hf|by exists []]. Qed.

Lemma undisturbed_disconnect force to xs : preserves undisturbed (disconnectUnlocked force to xs).
Proof. apply undisturbed_preserves; apply linked_disconnect. Qed.

#[export] Instance undisturbed_linked : Linked undisturbed.
Proof.
  split; [apply _|intros; by apply basic_logged|intros; apply basic_xsink| |apply undisturbed_disconnect|].
  - intros f s Hf. apply undisturbed_of; [|by exists []]. exact (proj2 (proj2 (proj2 (Hf (cl s))))).
  - intros op. apply undisturbed_preserves; apply linked_other.
Qed.

(** A connect is refused. *)
Lemma undisturbed_sshConnect to : preserves undisturbed (sshConnectUnlocked to).
Proof.
  intros s. apply wp_intro. intros r s' Hrun Hf. revert r s' Hrun.
  enough (wp True (sshConnectUnlocked to) (λ _ s', undisturbed s s') s) as Hw.
  { intros r s' Hrun. by apply (wp_run _ _ _ _ _ Hw Hrun). }
  unfold sshConnectUnlocked, checkPollOpUnlocked. wp_step. wp_step. wp_world. wp_step. rewrite Hf. cbn [when].
  wp_world. wp_step. wp_step. apply undisturbed_of; [by intros ?|by exists []].
Qed.

#[local] Hint Extern 3 (preserves undisturbed (upd _)) => apply undisturbed_upd; intros ?; done : preserves.
#[local] Hint Extern 3 (preserves undisturbed (modify _)) =>
  apply preserves_modify; intros ?; apply undisturbed_of; [by intros ?|by exists []] : preserves.

#[export] Instance undisturbed_whole : Whole undisturbed.
Proof.
  split.
  - split; [split; [apply _|intros; by apply undisturbed_upd| | |apply undisturbed_disconnect]|..]; intros;
      unfold registerChannelUnlockedRaw, registerListenerUnlocked, channel_destructor, channelDeletedUnlocked,
        channel_closeUnlocked, listener_cancelUnlocked, listenerDeletedUnlocked, get_chan, get_lst; preserves_auto.
  - split; [apply _|apply undisturbed_sshConnect| | |].
    + intros s h. apply undisturbed_of; [by intros ?|by exists []].
    + intros A m. apply sink_free; [apply _|]. intros s l. apply undisturbed_of; [by intros ?|by exists []].
    + intros force to adh xs Hadh. unfold_disconnect.
      repeat first [progress preserves_auto | apply preserves_while_eagain_hint; [apply _| |]].
  - intros s p. apply undisturbed_of; [by intros ?|by exists []].
  - intros s l. apply undisturbed_of; [by intros ?|by exists []].
Qed.
End reserved.

(** ** The invariant *)

Section custody.
Context {E : Type} `{!Env E}.

Abbreviation M := (prog (st E)).

(** Others may read from the handles of the operations. *)
#[local] Instance shared : Sole := False.

Record custody (s0 : st E) (l : life) : Prop := {
  cust_gated : gated s0 (core l);
  cust_ops id o : operations l !! id = Some o →
    inv o (core l) ∧ (authenticates (po_state o) = true → accepted s0 (core l));
  cust_one id1 id2 o1 o2 : operations l !! id1 = Some o1 → operations l !! id2 = Some o2 →
    finished (po_state o1) = false → finished (po_state o2) = false → id1 = id2
}.

Lemma authenticates_running st : authenticates st = true → finished st = false.
Proof. by destruct st. Qed.

(** An operation while others use the client. *)
Lemma inv_foreign o (s s' : st E) : inv o s → (finished (po_state o) = false → poll_op_in_progress (cl s') = true) →
  registered s' → grows s s' → inv o s'.
Proof.
  intros [Hs Hf Hr Hd] Hflag Hr' Hg. split; [done| |done|].
  - rewrite (shape_reserved _ Hs). intros H. by apply Hflag, negb_true_iff.
  - assert (∀ h s1, fetched o h s1 s → fetched o h s1 s') as HF.
    { intros h s1 [A B _ D]. split; [done|by transitivity s|by intros []|done]. }
    unfold data_inv in *. destruct (po_state o); try done; destruct Hd as (h & s1 & F & C); exists h, s1;
      (split; [by apply HF|]); [done|..]; (destruct C as [C|(k & b & C)]; [by left|right; exists k, b; by eapply new_grows]).
Qed.

Lemma inv_flag o (s : st E) : inv o s → finished (po_state o) = false → poll_op_in_progress (cl s) = true.
Proof. intros Hi Hf. apply (inv_reserved _ _ Hi). by rewrite (shape_reserved _ (inv_shape _ _ Hi)), Hf. Qed.

Lemma ops_foreign s0 o (s s' : st E) : inv o s → (authenticates (po_state o) = true → accepted s0 s) →
  undisturbed s s' → registered s' → grows s s' →
  inv o s' ∧ (authenticates (po_state o) = true → accepted s0 s').
Proof.
  intros Hi Ha Hu Hr Hg. split.
  - apply (inv_foreign o s); [done| |done|done]. intros Hf. by apply Hu, (inv_flag o).
  - intros Hau. eapply accepted_step; [by apply Ha|]. apply Hu, (inv_flag o); [done|by apply authenticates_running].
Qed.

(** Steps of others leave the custody of a client as it is. *)
Lemma custody_foreign s0 l l' : custody s0 l → registered (core l') → gated (core l) (core l') →
  undisturbed (core l) (core l') → (∀ id o, operations l' !! id = Some o → operations l !! id = Some o) → custody s0 l'.
Proof.
  intros [Hg Ho Hone] Hr Hg' Hu Hops. split.
  - by transitivity (core l).
  - intros id o Hid. destruct (Ho id o (Hops _ _ Hid)) as [Hi Ha]. apply (ops_foreign s0 o (core l)); [done..|].
    by apply gated_grows.
  - intros. eapply Hone; eauto.
Qed.

(** The step of an operation; the others have ended. *)
Lemma custody_with_op s0 l id o p : custody s0 l → operations l !! id = Some o →
  (finished (po_state o) = true → p = op_state l o) → grows (core l) (base p) →
  inv (op p) (base p) → gate s0 p → custody s0 (with_op l id p).
Proof.
  intros [Hg Ho Hone] Hid Hsame Hgr Hi [Hgp Hap].
  assert (∀ id' o', operations l !! id' = Some o' → id' ≠ id →
    inv o' (base p) ∧ (authenticates (po_state o') = true → accepted s0 (base p))) as Hothers.
  { intros id' o' Hid' Hne. destruct (Ho id' o' Hid') as [Hi' Ha']. destruct (finished (po_state o)) eqn:Hf.
    - rewrite (Hsame eq_refl) in *. apply (ops_foreign s0 o' (core l)); [done..| |apply Hi|done].
      apply undisturbed_of; [by intros ?|by exists []].
    - assert (finished (po_state o') = true) as Hf'.
      { destruct (finished (po_state o')) eqn:Hf'; [done|]. exfalso. by eapply Hne, Hone. }
      split; [apply (inv_foreign o' (core l)); [done|by rewrite Hf'|apply Hi|done]|].
      intros H%authenticates_running. by rewrite Hf' in H. }
  split; simpl.
  - done.
  - intros id' o' [(<- & <-)|[Hne Hid']]%lookup_insert_Some; [done|by apply (Hothers id')].
  - intros i1 i2 o1 o2 H1 H2 F1 F2.
    destruct (finished (po_state o)) eqn:Hf.
    + rewrite (Hsame eq_refl) in *. simpl in *. rewrite insert_id in H1, H2 by done. by eapply Hone.
    + assert (∀ i o', <[id:=op p]> (operations l) !! i = Some o' → finished (po_state o') = false → i = id) as Hthis.
      { intros i o' [(<- & _)|[Hne Hi']]%lookup_insert_Some Hfi; [done|]. by eapply Hone. }
      rewrite (Hthis i1 o1), (Hthis i2 o2); done.
Qed.

(** Destructors. *)
#[local] Hint Extern 3 (preserves undisturbed (upd _)) => apply undisturbed_upd; intros ?; done : preserves.
#[local] Hint Extern 3 (preserves undisturbed (modify _)) =>
  apply preserves_modify; intros ?; apply undisturbed_of; [done|by exists []] : preserves.
#[local] Hint Extern 3 (preserves (emits _) (modify _)) => apply preserves_modify; intros ?; by exists [] : preserves.

Lemma quietly_released (R : relation (st E)) `{!Carrier R} :
  (∀ f, (∀ c, poll_op_in_progress (f c) = poll_op_in_progress c) → preserves R (upd f)) →
  (∀ f, (∀ s : st E, cl (f s) = cl s ∧ trace (f s) = trace s) → preserves R (modify f)) →
  preserves R (callU socket_cleanup ≫= λ _, client_destructor).
Proof.
  intros Hu Hm. unfold client_destructor, SFTPClient_destructor, SSH2Client_destructor, when_object. unfold_disconnect.
  repeat first [progress preserves_auto | apply Hu; intros ?; reflexivity | apply Hm; intros ?; split; reflexivity
    | apply preserves_while_eagain_hint; [apply _| |]].
Qed.

Lemma custody_deref s0 l l' : custody s0 l → registered (core l) → deref l = Some l' → custody s0 l'.
Proof.
  intros Hc Hr Hd. unfold deref in Hd. simpl in Hd. destruct (Z.eqb_spec (refs l - 1) 0) as [Hz|Hnz].
  - destruct ((callU socket_cleanup ≫= λ _, client_destructor) (core l)) as [[[] s']|] eqn:Hrun; [|done]. simplify_eq/=.
    assert (emits no_credentials (core l) s') as He.
    { refine (wp_run _ _ _ _ _ (quietly_released (emits no_credentials) _ _ (core l)) Hrun); intros f Hf s.
      - apply wp_upd. by exists [].
      - apply wp_modify. exists []. by rewrite (proj2 (Hf s)). }
    assert (undisturbed (core l) s') as Hu.
    { refine (wp_run _ _ _ _ _ (quietly_released undisturbed _ _ (core l)) Hrun); intros f Hf s.
      - apply undisturbed_upd. intros c. by rewrite Hf.
      - apply wp_modify. destruct (Hf s) as [H1 H2]. apply undisturbed_of; [intros ?; by rewrite H1|exists []; by rewrite H2]. }
    destruct (wp_run _ _ _ _ _ (released_post _ Hr) Hrun) as (_ & Hr' & _).
    apply (custody_foreign s0 l); [done|done|by apply gated_emits|done|done].
  - simplify_eq/=. by destruct Hc; split.
Qed.

(** A destructor of an object is what every relation on clients survives. *)
Lemma custody_release s0 obj forget l l' : custody s0 l → registered (core l) →
  preserves keeps_registered obj → preserves gated obj → preserves undisturbed obj →
  (∀ l, core (forget l) = core l ∧ operations (forget l) = operations l) →
  release obj forget l = Some l' → custody s0 l'.
Proof.
  intros Hc Hr H1 H2 H3 Hf (s' & Hrun & Hd)%release_run. destruct (Hf (l <| core := s' |>)) as [E1 E2].
  pose proof (wp_run _ _ _ _ _ (H1 (core l)) Hrun Hr) as Hr'.
  pose proof (wp_run _ _ _ _ _ (H2 (core l)) Hrun) as Hg. pose proof (wp_run _ _ _ _ _ (H3 (core l)) Hrun) as Hu.
  refine (custody_deref s0 _ l' _ _ Hd); rewrite ?E1; [|done].
  apply (custody_foreign s0 l); rewrite ?E1, ?E2; done.
Qed.

(** The end of an operation. *)
Lemma finished_deref o (s : st E) : shape o → finished (po_state o) = true →
  wp True poll_deref (λ _ p, base p = s) (mkPst o s).
Proof.
  intros [Sc Sh Sa Sp Sr Sv] Hf. assert (po_agent o = None) as Ha.
  { apply eq_None_not_Some. intros H%Sa. by rewrite H in Hf. }
  assert (po_handle o = None ∧ po_restore o = false) as [Hh Hre].
  { rewrite Sr. destruct (po_state o); try done; (split; [|done]); apply eq_None_not_Some;
      by apply bool_decide_eq_false in Sh. }
  rewrite Hf in Sv. simpl in Sv. unfold wp, poll_deref, poll_closeIntern, drop_agent, restoreBlockingIntern, pfield, pupd,
    set_state, gets, modify, mbind, prog_bind, mret, prog_ret, when. simpl. rewrite Ha. simpl. rewrite Hh. simpl. rewrite Hre. simpl.
  destruct (negb _); simpl; by rewrite Sv.
Qed.

Lemma gate_of s0 l id o : custody s0 l → operations l !! id = Some o → inv o (core l) ∧ gate s0 (mkPst o (core l)).
Proof. intros [Hg Ho _] Hid. destruct (Ho id o Hid) as [Hi Ha]. split; [done|by split]. Qed.

Lemma custody_poll s0 l id o p : custody s0 l → operations l !! id = Some o →
  (finished (po_state o) = true → p = op_state l o) → poll_step (mkPst o (core l)) p → custody s0 (with_op l id p).
Proof.
  intros Hc Hid Hsame Hstep. destruct (gate_of s0 l id o Hc Hid) as [Hi Hg].
  destruct (step_inv (mkPst o (core l)) p Hi Hstep) as (_ & Hi' & Hgr). by apply (custody_with_op s0 l id o p), (step_gate s0 (mkPst o (core l))).
Qed.

Lemma custody_end_poll s0 l id o l' : custody s0 l → operations l !! id = Some o → end_poll id o l = Some l' → custody s0 l'.
Proof.
  intros Hc Hid (u & p & Hrun & Hd)%end_poll_run. destruct (gate_of s0 l id o Hc Hid) as [Hi _].
  set (s1 := (core l) <| xsink := [] |>). assert (inv o s1) as Hi1 by exact (inv_called (mkPst o (core l)) Hi).
  assert (grows (core l) s1 ∧ undisturbed (core l) s1) as [Hg1 Hu1].
  { split; [by exists []|]. apply undisturbed_of; [by intros ?|by exists []]. }
  assert (registered (base p)) as Hr.
  { pose proof (frame_deref keeps_registered (on_base keeps_registered) (op_state l o)) as H.
    apply (wp_run _ _ _ _ _ H Hrun), Hi1. }
  assert (emits no_credentials (core l) (base p)) as He.
  { apply (wp_run _ _ _ _ _ (frame_deref (emits no_credentials) (on_base (emits no_credentials)) (op_state l o)) Hrun). }
  refine (custody_deref s0 ((l <| core := base p |>) <| operations := delete id (operations l) |>) l' _ Hr Hd). destruct Hc as [Hg Ho Hone]. split; simpl.
  - transitivity (core l); [done|by apply gated_emits].
  - intros id' o' [Hne Hid']%lookup_delete_Some. destruct (Ho id' o' Hid') as [Hi' Ha'].
    destruct (finished (po_state o)) eqn:Hf.
    + rewrite (wp_run _ _ _ _ _ (finished_deref o s1 (inv_shape _ _ Hi1) Hf) Hrun).
      apply (ops_foreign s0 o' (core l)); [done..|apply Hi1|done].
    + assert (finished (po_state o') = true) as Hf'.
      { destruct (finished (po_state o')) eqn:Hf'; [done|]. exfalso. by eapply Hne, Hone. }
      split; [|intros H%authenticates_running; by rewrite Hf' in H].
      apply (inv_foreign o' (core l)); [done|by rewrite Hf'|done|by eapply emits_grows].
  - intros i1 i2 o1 o2 [_ H1]%lookup_delete_Some [_ H2]%lookup_delete_Some. by eapply Hone.
Qed.

Lemma reserve_free (s s' : st E) : reservePollOperation s = Some (0, s') →
  poll_op_in_progress (cl s) = false ∧ s' = s <| cl := (cl s) <| poll_op_in_progress := true |> |>.
Proof.
  unfold reservePollOperation, gets, mbind, prog_bind, raise, raise_exc, when, upd, modify, mret, prog_ret. simpl.
  destruct (poll_op_in_progress (cl s)); [done|]. destruct (connect_in_progress (cl s)); [done|].
  simpl. intros [= <-]. done.
Qed.

Lemma custody_start_poll s0 l id path s' : custody s0 l → operations l !! id = None → registered s' →
  reservePollOperation (core l) = Some (0, s') → custody s0 (start_poll id path (l <| core := s' |>)).
Proof.
  intros [Hg Ho Hone] Hid Hr [Hf ->]%reserve_free. set (s' := _ <| cl := _ |>) in *.
  assert (∀ i o, operations l !! i = Some o → finished (po_state o) = true) as Hall.
  { intros i o Hi. destruct (finished (po_state o)) eqn:He; [done|]. destruct (Ho i o Hi) as [Hinv _].
    pose proof (inv_flag o _ Hinv He). congruence. }
  split; simpl.
  - transitivity (core l); [done|]. apply gated_emits. by exists [].
  - intros i o [(<- & <-)|[Hne Hi]]%lookup_insert_Some.
    + split; [by apply inv_start|done].
    + destruct (Ho i o Hi) as [Hinv _]. pose proof (Hall i o Hi) as He.
      split; [|intros H%authenticates_running; by rewrite He in H].
      apply (inv_foreign o (core l)); [done|by rewrite He|done|by exists []].
  - assert (∀ i o, <[id:=new_poll path DEFAULT_TIMEOUT_MS]> (operations l) !! i = Some o → finished (po_state o) = false → i = id) as Hthis.
    { intros i o [(<- & _)|[Hne Hi]]%lookup_insert_Some Hfi; [done|]. by rewrite (Hall i o Hi) in Hfi. }
    intros i1 i2 o1 o2 H1 H2 F1 F2. rewrite (Hthis i1 o1), (Hthis i2 o2); done.
Qed.

Lemma custody_step s0 l l' : life_inv l → custody s0 l → life_step l l' → custody s0 l'.
Proof.
  intros Hi Hc Hstep. pose proof (life_sound _ (life_step_inv _ _ Hi Hstep)) as Hs'.
  pose proof (sound_registered _ _ _ (life_sound _ Hi)) as Hr.
  destruct Hstep as [l c s' Hcall Hrun|l id path s' Ho Hid Hrun|l id o r p Hid Hrun|l id o u p Hid Hrun
    |l id o l' Hid Hd|l id l' Hid Hd|l id l' Hid Hd|l l' Ho Hd].
  - apply (custody_foreign s0 l); [done|apply Hs'|..|done].
    + exact (wp_run _ _ _ _ _ (whole_call gated c (core l)) Hrun).
    + exact (wp_run _ _ _ _ _ (whole_call undisturbed c (core l)) Hrun).
  - apply custody_start_poll; [done|done|apply Hs'|done].
  - apply (custody_poll s0 l id o); [done|done| |by eapply (step_poll (mkPst o (core l)))].
    intros Hf. unfold op_state in *. rewrite poll_finished in Hrun by done. by injection Hrun as _ <-.
  - apply (custody_poll s0 l id o); [done|done| |by eapply (step_abort (mkPst o (core l)))].
    intros Hf. unfold op_state in *. rewrite abort_finished in Hrun by done. by injection Hrun as _ <-.
  - by eapply custody_end_poll.
  - eapply (custody_release s0 (channel_destructor id)); [done|done|apply methods_destroy|apply (methods_destroy (R:=gated))
      |apply (methods_destroy (R:=undisturbed))| |exact Hd]. done.
  - eapply (custody_release s0 (listener_destructor id)); [done|done|..|exact Hd]; [..|done];
      apply methods_listener_destructor, _.
  - eapply (custody_release s0 (_ ← disconnect true DEFAULT_TIMEOUT_MS false; mret tt)); [done|done|..|exact Hd]; [..|done];
      apply methods_disconnect_locked, _.
Qed.

Lemma custody_steps s0 l : unused s0 → rtc life_step (born s0) l → custody s0 l.
Proof.
  intros Hu Hrun. assert (life_inv l ∧ custody s0 l) as [_ H]; [|exact H].
  refine (rtc_ind_r (λ l, life_inv l ∧ custody s0 l) _ _ _ l Hrun).
  - split; [by apply born_inv|]. split; [apply gated_start|done|done].
  - intros l1 l2 _ Hstep [H1 H2]. split; [by apply (life_step_inv l1)|by apply (custody_step s0 l1)].
Qed.


(** C11: At most one poll operation of a client is running at a time, it has reserved the
    client, and no call of another kind takes that reservation away or begins a session. *)
Theorem one_running_operation (s : st E) (l : life) :
  unused s → rtc life_step (born s) l →
  (∀ id1 id2 o1 o2, operations l !! id1 = Some o1 → operations l !! id2 = Some o2 →
     finished (po_state o1) = false → finished (po_state o2) = false → id1 = id2) ∧
  (∀ id o, operations l !! id = Some o → finished (po_state o) = false →
     poll_op_in_progress (cl (core l)) = true ∧ shape o ∧
     ∀ c s', run_call c (core l) = Some (tt, s') →
       poll_op_in_progress (cl s') = true ∧ emits same_session (core l) s').
Proof.
  intros Hu Hrun. pose proof (custody_steps s l Hu Hrun) as [_ Ho Hone]. split; [exact Hone|].
  intros id o Hid Hf. destruct (Ho id o Hid) as [Hi _]. pose proof (inv_flag o _ Hi Hf) as Hflag.
  split_and!; [done|apply Hi|]. intros c s' Hc. by apply (wp_run _ _ _ _ _ (whole_call undisturbed c (core l)) Hc).
Qed.
End custody.

(** ** A client that is polled, then used *)

Definition idle_client : life := born (idle_state SFTPClientClass).

Definition polled_once (l : life) : life :=
  match operations l !! 1%positive with
  | Some o => match @continuePoll nat poll_env (op_state l o) with Some (_, p) => with_op l 1 p | None => l end
  | None => l
  end.

Definition with_poll : life :=
  start_poll 1 "f" (idle_client <| core := from_option id (core idle_client) (final reservePollOperation (core idle_client)) |>).
Definition polled : life := polled_once (polled_once (polled_once with_poll)).

Lemma polled_once_step l r :
  (o ← operations l !! 1%positive; fst <$> @continuePoll nat poll_env (op_state l o)) = Some r →
  @life_step nat poll_env l (polled_once l).
Proof.
  unfold polled_once. destruct (operations l !! 1%positive) as [o|] eqn:Ho; [|done]. simpl.
  destruct (@continuePoll nat poll_env (op_state l o)) as [[r' p]|] eqn:Hrun; [|done]. intros _. by apply (life_poll _ 1 o r').
Qed.

Lemma polling_reached : rtc (@life_step nat poll_env) idle_client (polled_once with_poll).
Proof.
  eapply rtc_l; [|apply rtc_once].
  - apply (@life_start_poll nat poll_env idle_client 1 "f"); vm_compute; reflexivity.
  - eapply (polled_once_step with_poll). vm_compute. reflexivity.
Qed.

Lemma polled_reached : rtc (@life_step nat poll_env) idle_client polled.
Proof.
  etransitivity; [apply polling_reached|]. eapply rtc_l; [|apply rtc_once].
  - eapply (polled_once_step (polled_once with_poll)). vm_compute. reflexivity.
  - eapply (polled_once_step (polled_once (polled_once with_poll))). vm_compute. reflexivity.
Qed.


(** A connect is tried while the operation shakes hands. *)
Lemma one_running_operation_witness :
  ∃ o s', operations (polled_once with_poll) !! 1%positive = Some o ∧ po_state o = HANDSHAKE ∧
    @run_call nat poll_env (CConnect 1000) (core (polled_once with_poll)) = Some (tt, s') ∧
    poll_op_in_progress (cl s') = true ∧ xsink s' = [Exc "SSH2-POLL-IN-PROGRESS" NoDetail].
Proof.
  destruct (@one_running_operation nat poll_env (idle_state SFTPClientClass) (polled_once with_poll) (unused_idle _) polling_reached)
    as [_ H].
  destruct (operations (polled_once with_poll) !! 1%positive) as [o|] eqn:Ho; [|vm_compute in Ho; discriminate].
  assert (po_state <$> operations (polled_once with_poll) !! 1%positive = Some HANDSHAKE) as Hst by (vm_compute; reflexivity).
  rewrite Ho in Hst. injection Hst as Hst.
  destruct (run_result (@run_call nat poll_env (CConnect 1000)) (core (polled_once with_poll)) tt) as (s' & Hrun & Hs').
  { vm_compute. reflexivity. }
  destruct (H 1%positive o Ho) as (_ & _ & Hc); [rewrite Hst; reflexivity|].
  destruct (Hc (CConnect 1000) s' Hrun) as [Hf _].
  exists o, s'. split_and!; [reflexivity|exact Hst|exact Hrun|exact Hf|].
  assert (xsink <$> final (@run_call nat poll_env (CConnect 1000)) (core (polled_once with_poll)) =
    Some [Exc "SSH2-POLL-IN-PROGRESS" NoDetail]) as Hx by (vm_compute; reflexivity).
  rewrite Hs' in Hx. by injection Hx.
Defined.
