(* ===== verification/PollLive.v ===== *)
(** The non-blocking retrieval on a server that serves its file without delay: one call of
    [continuePoll] ends with the whole file, and it is the file that the blocking retrieval
    returns. *)

From S2P Require Import Prelude Modes World Sim Defaults Transport Config HostKey Auth Connect Session Sftp Transfer Server Poll PollProof PollStages PollSpec PollTheorems.

Section live.
Context {E : Type} `{!Env E} (content : list Byte.byte) (pos : E → nat) `{!Serving content pos}.

Abbreviation M := (prog (st E)).
Abbreviation P := (prog (pst E)).

Definition file_length : Z := Z.of_nat (length content).

(** How far the operation has come on an established session. *)
Definition progress (o : poll) (e : E) : Prop :=
  match po_state o with
  | START | STAT => po_data o = [] ∧ po_bytes_read o = 0
  | OPEN => po_data o = [] ∧ po_bytes_read o = 0 ∧ po_file_size o = file_length
  | READ => po_data o = [] ∧ po_bytes_read o = 0 ∧ po_file_size o = file_length ∧ pos e = 0%nat
  | CLOSE | DONE => po_data o = content
  | _ => False
  end.

Definition ready (p : pst E) : Prop :=
  is_Some (ssh_session (cl (base p))) ∧ is_Some (sftp_session (cl (base p))) ∧ po_agent (op p) = None ∧
  progress (op p) (env (base p)).

Definition moves (p : pst E) (r : option poll_info) (p' : pst E) : Prop :=
  r = None ∧ ready p' ∧ (stage_rank (po_state (op p')) < stage_rank (po_state (op p)))%nat.

Lemma wp_lift_served r (Pr : ans r → Prop) (Q : ans r → pst E → Prop) (o : poll) (s : st E) :
  (∀ e, Pr (answer r e).1) → moves_position r = false →
  (∀ a e', Pr a → pos e' = pos (env s) → Q a (mkPst o (logged s (Ev r a) e'))) →
  wp False (lift (call r)) Q (mkPst o s).
Proof. intros HP Hm HQ. apply wp_lift. by apply (wp_served content pos r Pr). Qed.

Lemma lift_rests {A} (m : M A) (Q : A → pst E → Prop) o s :
  rests pos m → (∀ a s', at_rest pos s s' → Q a (mkPst o s')) → wp False (lift m) Q (mkPst o s).
Proof. intros Hm HQ. apply wp_lift. eapply wp_mono; [|apply Hm]. exact HQ. Qed.

Lemma serve_nonblocking (Q : bool → pst E → Prop) o s :
  (∀ s', at_rest pos s s' → Q false (mkPst o s')) → wp False make_nonblocking Q (mkPst o s).
Proof.
  intros HQ. unfold make_nonblocking. wp_step.
  apply (wp_lift_served (QZ socket_getSocket) (λ z, 0 ≤ z)); [apply serving_socket|done|]. intros fd e1 Hfd P1.
  wp_step. apply wp_lift.
  apply (wp_mono _ _ (λ rc s', 0 ≤ rc ∧ at_rest pos s s')).
  - intros rc s' [Hrc Hcl]. assert ((rc <? 0) = false) as Hrc' by lia. wp_step. rewrite Hrc'. cbn [when]. wp_step. wp_step. by apply HQ.
  - unfold setFdNonBlocking. wp_step; [lia|]. wp_step.
    apply (wp_served content pos (QZ (fcntl_getfl fd)) (λ z, 0 ≤ z)); [apply serving_getfl|done|]. intros flags e2 Hfl P2.
    wp_step; [lia|]. cbv zeta. simpl in P2.
    wp_step; [wp_step; split; [done|]; split; simpl; [done|congruence]|]. wp_step.
    apply (wp_served content pos (QZ (fcntl_setfl fd _)) (λ z, 0 ≤ z)); [apply serving_setfl|done|]. intros rc e3 Hrc P3.
    wp_step. simpl in P3. destruct (Z.ltb_spec rc 0); [lia|]. split; [done|]. split; simpl; [done|congruence].
Qed.

Lemma serve_start p : po_state (op p) = START → ready p → wp False handleStart (moves p) p.
Proof.
  destruct p as [o s]. intros Hst ([x Hx] & [y Hy] & Ha & Hp). unfold progress in Hp. simpl in *. rewrite Hst in Hp.
  unfold handleStart. wp_step. apply wp_lift. wp_step. rewrite Hx, Hy. cbn [bool_decide decide is_Some_dec].
  wp_step. apply wp_pupd. wp_step. unfold set_state. apply wp_pupd. wp_step. apply serve_nonblocking. intros s1 [H1 _].
  cbv beta iota. wp_step. apply lift_rests; [apply (rests_set_blocking content pos)|]. intros _ s2 [H2 _]. wp_step. apply wp_pupd. wp_step.
  split; [done|]. split; [|simpl; rewrite Hst; simpl; lia]. unfold ready, progress. simpl. rewrite H2, H1, Hx, Hy. split_and!; eauto; apply Hp.
Qed.

Lemma serve_stat_stage p : po_state (op p) = STAT → ready p → wp False handleStat (moves p) p.
Proof.
  destruct p as [o s]. intros Hst (Hx & Hy & Ha & Hp). unfold progress in Hp. simpl in *. rewrite Hst in Hp.
  unfold handleStat. wp_step. apply wp_lift. wp_world. wp_step. apply wp_pupd. wp_step. apply wp_pfield.
  wp_step. apply wp_lift. wp_world. wp_step. cbn [op].
  apply (wp_lift_served (sftp_stat (sftp_session (cl s)) _ true) (λ r, ∃ a, r = (0, a) ∧ at_filesize a = file_length));
    [apply serving_stat|done|].
  intros r e' (a & -> & Hn) _. cbv beta iota.
  change (0 =? LIBSSH2_ERROR_EAGAIN) with false. change (0 <? 0) with false. cbv beta iota.
  wp_step. apply wp_pupd. unfold advance, set_state. wp_step. apply wp_pupd. wp_step.
  split; [done|]. split; [|simpl; destruct (str_empty (po_abs_path o)); simpl; rewrite Hst; simpl; lia].
  unfold ready, progress. simpl. destruct Hp as [Hp1 Hp2]. rewrite Hn. destruct (str_empty (po_abs_path o)); simpl; by split_and!.
Qed.

Lemma serve_open_stage p : po_state (op p) = OPEN → ready p → wp False handleOpen (moves p) p.
Proof.
  destruct p as [o s]. intros Hst (Hx & Hy & Ha & Hp). unfold progress in Hp. simpl in *. rewrite Hst in Hp.
  unfold handleOpen. wp_step. wp_step. wp_step. apply wp_lift. wp_step. cbn [op]. wp_step.
  apply wp_lift, wp_callH. intros h e' Hans.
  pose proof (serving_open (sftp_session (cl s)) (po_abs_path o) LIBSSH2_FXF_READ (po_permissions o) (env s)) as [[h' Hh] Hp0].
  rewrite Hans in Hh, Hp0. simpl in Hh, Hp0. subst h. wp_step. apply wp_pupd. cbn [bool_decide decide].
  wp_step; [done|]. unfold advance, set_state. wp_step. apply wp_pupd. wp_step.
  split; [done|]. split; [|simpl; rewrite Hst; simpl; lia]. unfold ready, progress. simpl. destruct Hp as (Hp1 & Hp2 & Hp3). by split_and!.
Qed.

(** In the read loop. *)
Definition serving (p : pst E) : Prop :=
  is_Some (ssh_session (cl (base p))) ∧ is_Some (sftp_session (cl (base p))) ∧ po_agent (op p) = None ∧
  po_state (op p) = READ ∧ po_file_size (op p) = file_length ∧
  po_data (op p) = take (pos (env (base p))) content ∧ po_bytes_read (op p) = Z.of_nat (pos (env (base p))) ∧
  (pos (env (base p)) ≤ length content)%nat.

Lemma serve_cancel {B} (c : bool) (k : bool → P B) (Q : B → pst E → Prop) o s :
  (∀ s', at_rest pos s s' → wp False (k false) Q (mkPst o s')) →
  wp False ((if c then lift (qore_check_cancel true) else mret false) ≫= k) Q (mkPst o s).
Proof.
  intros HQ. wp_step. destruct c; [|wp_step; by apply HQ]. apply wp_lift. unfold qore_check_cancel. wp_step.
  apply (wp_served content pos (QB check_cancel) (λ b, b = false)); [apply serving_running|done|]. intros b e' -> Hp. cbn [when].
  wp_step. wp_step. wp_step. by apply HQ.
Qed.

Lemma serve_read_iteration p : serving p → wp False read_iteration (λ r p', match r with
    | inl _ => serving p' ∧ (length content - pos (env (base p')) < length content - pos (env (base p)))%nat
    | inr r => r = None ∧ serving p' ∧ pos (env (base p')) = length content
    end) p.
Proof.
  destruct p as [o s]. intros (Hx & Hy & Ha & Hst & Hn & Hd & Hb & Hle). simpl in *.
  pose proof serving_size as Hsz. unfold file_length in Hn.
  unfold read_iteration. wp_step. wp_step. cbn [op]. rewrite Hn, Hb.
  destruct (Z.ltb_spec (Z.of_nat (pos (env s))) (Z.of_nat (length content))) as [Hlt|Hge]; cbn [negb].
  2:{ wp_step. split_and!; [done| |simpl; lia]. by split_and!. }
  rewrite size_t_small by lia. wp_step. apply wp_lift, (wp_call _ (sftp_read _ _)). intros r e' Hans.
  destruct (serving_read (po_handle o) (Z.of_nat (length content) - Z.of_nat (pos (env s))) (env s))
    as (n & bytes & Hr & Hn0 & _ & Hn1 & Hbytes & Hp'); [lia..|].
  rewrite Hans in Hr, Hp'. simpl in Hr, Hp'. subst r. cbv beta iota.
  destruct (Z.eqb_spec (Z.of_nat n) LIBSSH2_ERROR_EAGAIN) as [H|_]; [unfold LIBSSH2_ERROR_EAGAIN in H; lia|].
  destruct (Z.ltb_spec (Z.of_nat n) 0); [lia|]. destruct (Z.eqb_spec (Z.of_nat n) 0); [lia|]. cbv zeta.
  wp_step. apply wp_pupd. apply serve_cancel. intros s1 [C1 P1]. simpl in P1. cbv beta iota. wp_step.
  unfold serving. simpl. rewrite size_t_small by lia. rewrite C1, P1, Hp', Nat2Z.id, Hd, Hbytes, take_take_drop.
  split; [|lia]. split_and!; try done; lia.
Qed.

Context (Hfuel : (length content < fuel)%nat).

Lemma serve_read p : po_state (op p) = READ → ready p → wp False handleRead (moves p) p.
Proof.
  intros Hst (Hx & Hy & Ha & Hp). unfold progress in Hp. rewrite Hst in Hp. destruct Hp as (Hp1 & Hp2 & Hp3 & Hp4).
  unfold handleRead. wp_step. apply (wp_mono _ _ (λ r p', r = None ∧ serving p' ∧ pos (env (base p')) = length content)).
  - intros r [o1 s1] (-> & (Hx1 & Hy1 & Ha1 & Hst1 & Hn1 & Hd1 & Hb1 & _) & Hfull). simpl in *. cbv beta iota.
    unfold advance, set_state. wp_step. apply wp_pupd. wp_step.
    split; [done|]. split; [|rewrite Hst; simpl; lia]. unfold ready, progress. simpl. split_and!; try done.
    by rewrite Hd1, Hfull, firstn_all.
  - apply (wp_loop_total (λ _ p, serving p) (λ _ p, length content - pos (env (base p)))%nat).
    + intros _ p1 H1. eapply wp_mono; [|by apply serve_read_iteration]. by intros [|] p2.
    + unfold serving. rewrite Hp1, Hp2, Hp3, Hp4. split_and!; try done; simpl; lia.
    + rewrite Hp4. lia.
Qed.

(** Closing an operation that holds neither an agent nor a handle. *)
Lemma serve_closeIntern (Q : unit → pst E → Prop) o s :
  po_agent o = None → po_handle o = None → po_state o = DONE →
  (∀ o' s', po_state o' = DONE → po_data o' = po_data o → po_agent o' = None →
     ssh_session (cl s') = ssh_session (cl s) → sftp_session (cl s') = sftp_session (cl s) → Q tt (mkPst o' s')) →
  wp False (poll_closeIntern false) Q (mkPst o s).
Proof.
  intros Ha Hh Hst HQ. unfold poll_closeIntern, drop_agent. wp_step. wp_step. apply wp_pfield. cbv beta. rewrite Ha.
  wp_step. wp_step. apply wp_pupd. wp_step. apply wp_pupd. wp_step. apply wp_pfield. wp_step. apply wp_pfield. cbv beta.
  simpl. rewrite Hh. cbn [bool_decide decide is_Some_dec]. wp_step. wp_step. wp_step. cbn [when]. wp_step. wp_step.
  apply (wp_mono _ _ (λ _ p', po_state (op p') = DONE ∧ po_data (op p') = po_data o ∧ po_agent (op p') = None ∧
    cl (base p') = cl s)).
  - intros ? [o1 s1] (St & D & A & C). simpl in *. wp_step. apply wp_pfield. cbv beta. rewrite St.
    rewrite bool_decide_true by done. cbn [negb when]. wp_step. wp_step.
    wp_step. apply wp_pfield. cbv beta. wp_step.
    + wp_step. apply wp_lift. wp_world. apply wp_pupd. apply HQ; simpl; by rewrite ?C.
    + apply HQ; by rewrite ?C.
  - unfold restoreBlockingIntern. wp_step. apply wp_pfield. cbv beta. wp_step; [|done]. wp_step.
    apply lift_rests; [apply (rests_set_blocking content pos)|]. intros _ s1 [C _]. by apply wp_pupd.
Qed.

Lemma serve_close p : po_state (op p) = CLOSE → ready p → wp False handleClose (moves p) p.
Proof.
  destruct p as [o s]. intros Hst (Hx & Hy & Ha & Hp). unfold progress in Hp. simpl in *. rewrite Hst in Hp.
  unfold handleClose. wp_step. apply wp_pfield. wp_step.
  apply (wp_lift_served (QZ (sftp_close_handle (po_handle o))) (λ z, z ≠ LIBSSH2_ERROR_EAGAIN));
    [apply serving_close|done|].
  intros rc e' Hrc _. destruct (Z.eqb_spec rc LIBSSH2_ERROR_EAGAIN); [done|]. wp_step. apply wp_pupd. unfold set_state.
  wp_step. apply wp_pupd. unfold leave. wp_step. apply serve_closeIntern; [done..|].
  intros o1 s1 St D A C1 C2. wp_step. split; [done|]. split; [|simpl; rewrite Hst, St; simpl; lia].
  unfold ready, progress. simpl. rewrite St, D, C1, C2. by split_and!.
Qed.

Lemma serve_stage p : finished (po_state (op p)) = false → ready p → wp False (run_stage (po_state (op p))) (moves p) p.
Proof.
  intros Hf Hr. pose proof Hr as (_ & _ & _ & Hp). unfold progress in Hp.
  destruct (po_state (op p)) eqn:Hst; try done; cbn [run_stage].
  - by apply serve_start.
  - by apply serve_stat_stage.
  - by apply serve_open_stage.
  - by apply serve_read.
  - by apply serve_close.
Qed.

Lemma serve_all p : (12 ≤ fuel)%nat → ready p →
  wp False continuePollIntern (λ r p', r = None ∧ po_state (op p') = DONE ∧ po_data (op p') = content) p.
Proof.
  intros H12 Hr. unfold continuePollIntern.
  apply (wp_loop_total (λ _ p, ready p) (λ _ p, stage_rank (po_state (op p)))); [|done|].
  - intros _ p1 H1. wp_step. apply wp_gets. cbv beta. destruct (finished (po_state (op p1))) eqn:Hf.
    + wp_step. destruct H1 as (_ & _ & _ & H1). unfold progress in H1. by destruct (po_state (op p1)).
    + wp_step. eapply wp_mono; [|by apply serve_stage]. intros r p2 (-> & H2 & H3). by wp_step.
  - destruct (po_state (op p)); simpl; lia.
Qed.

(** One call of [continuePoll] on an established session. *)
Lemma serve_poll path to s :
  (12 ≤ fuel)%nat → is_Some (ssh_session (cl s)) → is_Some (sftp_session (cl s)) →
  wp False continuePoll (λ r p, r = None ∧ po_state (op p) = DONE ∧ po_data (op p) = content) (start_of path to s).
Proof.
  intros H12 Hx Hy. unfold continuePoll. wp_step. apply wp_gets. cbv beta. cbn [op start_of new_poll po_state finished].
  wp_step; [done|]. wp_step. apply wp_lift. unfold qore_check_cancel. wp_step.
  apply (wp_served content pos (QB check_cancel) (λ b, b = false)); [apply serving_running|done|]. intros b e' -> _. cbn [when].
  wp_step. wp_step. wp_step. cbv iota. apply serve_all; [done|]. by split_and!.
Qed.
End live.

Section theorems.
Context {E : Type} `{!Env E}.


(** C15: The non-blocking and the blocking retrieval are interchangeable: on such a server
    [continuePoll] and [SFTPClient::sftpGetFile], wherever each starts, both end,
    and give the same bytes: those of the file. *)
Theorem retrievals_agree (content : list Byte.byte) (pos : E → nat) (path : string) (to : Z) (s1 s2 : st E) :
  Serving content pos → (length content < fuel)%nat → (12 ≤ fuel)%nat →
  is_Some (sftp_session (cl s1)) → is_Some (ssh_session (cl s2)) → is_Some (sftp_session (cl s2)) →
  ∃ data s1' p, sftpGetFile path to s1 = Some (Some data, s1') ∧ data = content ∧
    continuePoll (start_of path to s2) = Some (None, p) ∧ getOutput (op p) = Some data.
Proof.
  intros HS Hfuel H12 Hsf Hx Hy.
  pose proof (serve_get_file content pos Hfuel "SFTPCLIENT-GETFILE-ERROR" path to
    (λ r _, r = Some content) s1 Hsf ltac:(done)) as Hg.
  pose proof (serve_poll content pos Hfuel path to s2 H12 Hx Hy) as Hp.
  unfold sftpGetFile, wp in *. destruct (get_file _ _ _ s1) as [[r s1']|]; [|done]. subst r.
  destruct (continuePoll _) as [[r p]|]; [|done]. destruct Hp as (-> & Hst & Hd).
  exists content, s1', p. unfold getOutput. by rewrite Hst, Hd.
Qed.
End theorems.

(** * A file server

    It serves a file of seven bytes, at most three at a time; its state is the position in
    the open file. *)

Definition seven : list Byte.byte :=
  [Byte.x61; Byte.x62; Byte.x63; Byte.x64; Byte.x65; Byte.x66; Byte.x67].

Definition chunk (k : Z) (at_pos : nat) : list Byte.byte := take (Nat.min 3 (Z.to_nat k)) (drop at_pos seven).

Definition file_ans (at_pos : nat) (r : req) : ans r :=
  match r with
  | sftp_read _ k => (Z.of_nat (length (chunk k at_pos)), chunk k at_pos)
  | sftp_stat _ _ _ => (0, mkAttrs 0 7 0 0 0 0 0)
  | r => quiet_ans r
  end.

Definition file_env : Env nat :=
  {| answer r n := (file_ans n r, match r with
                                  | sftp_read _ k => n + length (chunk k n)
                                  | QH (sftp_open _ _ _ _) => 0
                                  | _ => n
                                  end)%nat;
     fuel := 20 |}.

#[export] Instance file_env_serving : @Serving nat file_env seven id.
Proof.
  split; try (intros; cbn; (done || lia)).
  - intros. eexists. by split.
  - intros h k e Hk Hpos. exists (length (chunk k e)), (chunk k e). cbn [answer file_env file_ans fst snd].
    split; [done|]. unfold chunk, id in *. rewrite length_take, length_drop. split_and!; try lia; try done.
    rewrite !take_take. f_equal. lia.
  - intros r e Hr. destruct r as [[]|[]|[]|[]|[]| | | | | | | | | | | | | | | | | | | | | | |]; done.
Qed.


Lemma retrievals_agree_witness :
  ∃ data s1' p, @sftpGetFile nat file_env "f" 1000 sftp_state = Some (Some data, s1') ∧ data = seven ∧
    @continuePoll nat file_env (start_of "f" 1000 shared_state) = Some (None, p) ∧ getOutput (op p) = Some data.
Proof.
  apply (@retrievals_agree nat file_env seven id "f" 1000 sftp_state shared_state file_env_serving);
    [vm_compute; lia|vm_compute; lia|by eexists|by eexists|by eexists].
Defined.
